(* ===== verification/_CoqProject ===== *)
-Q . S2P
Prelude.v
JsNumber.v
Text.v
JsValue.v
Json.v
JsonRoundtrip.v
ConsoleData.v
Browser.v
ConsoleViews.v
ConsoleEditor.v
ConsoleLive.v
ConsoleCrud.v
ConsoleAiOps.v
ConsoleApp.v
ConsoleFrame.v
ConsoleSafe.v
ConsoleInv.v
ConsoleSafety.v
ConsoleSpec.v
ConsoleRequests.v
ConsoleDialog.v
ConsoleActions.v
FreezeVersion.v
Breaker.v
Hash.v
Split.v
Maglev.v
MermaidSvg.v
MermaidNodes.v
MermaidZoom.v
MermaidChart.v
DocsSite.v
Home.v
Retries.v
Affinity.v
Health.v
Ring.v
LbState.v
Locality.v
Balance.v
Picks.v
Fairness.v
Inflight.v
FloatOrder.v
RateStore.v
RateLimiter.v
RateEngine.v
Adaptive.v
Theme.v
ThemePage.v
Utf8.v
Router.v
Routing.v
Rewrite.v
Sse.v
AiStream.v
Budget.v
Civil.v
Quotas.v
HttpDate.v
Net.v
Authz.v
Publish.v
Canary.v
