(* ===== verification/Prelude.v ===== *)
(** * Verification of dwara

    dwara is an API gateway.  This development models the parts of it that
    carry a state or an algorithm of their own, as executable definitions
    translated from the source, and proves what they promise.

    ** The web console (src/crates/dwara-console/static/app.js, index.html)

    The console is a single-page program over the browser's DOM and [fetch].
    Its callbacks (event listeners, [then] and [catch] handlers) are values of
    two inductive types, [handler] and [cont], that list the variables each
    closure captures; a state [st] holds the page's nodes, the requests in
    flight, the pending [Promise.all]s, the program's variables and timers.
    Every function of app.js is a definition of the same name in a monad of
    state and exceptions, and the page as a whole is a transition system whose
    events are clicks, edits, timers, responses and time.

    - JsNumber, JsValue, Json: what app.js uses of the language: binary64
      numbers and their printing, values, property access, conversions,
      JSON.stringify and JSON.parse.  JsonRoundtrip: parsing inverts printing.
      Text: splitting and trimming.
    - ConsoleData: closures, nodes, network and variables as data.  Browser:
      the monad, the DOM operations, [fetch], timers and index.html.
    - ConsoleViews (lines 12 to 401), ConsoleEditor (403 to 557), ConsoleLive
      (559 to 715), ConsoleCrud (717 to 928), ConsoleAiOps (930 to 1062):
      the functions of app.js, in its order.
    - ConsoleApp (1064 to 1149): navigation, auto-refresh, start-up, the
      dispatch of callbacks, the events, and [reachable] states.
    - ConsoleFrame: the judgement [wb O lo m]: [m] only writes nodes of [O] or
      nodes it creates, keeps to the vocabulary of the page, and captures only
      nodes it owns.  ConsoleSafe: the rules applied to every function.
      ConsoleInv: the invariant of reachable states, by regions: the nodes of
      each rendering of the content form a region, and callbacks write only
      the region they were created in.
    - ConsoleSafety: late responses do not reach the view that replaced their
      own; fixed vocabulary; timers, history, navigation, no dangling nodes.
      ConsoleRequests: which requests are sent and when.  ConsoleSpec: the
      history and Promise.all against their specifications.  ConsoleDialog,
      ConsoleActions: what the user's actions send, and their error paths.

    The strings that depend on the browser (messages of exceptions, the local
    time) are the class [Host], a parameter of the development; its instance
    [sample_host] serves concrete runs.  The only fuel is that of the JSON
    parser, which takes the length of the text, and of the traversal of the
    page, which takes the number of nodes created; both are proved enough
    where it matters.  Not modelled: layout and style, HTML parsing ([innerHTML]
    is only assigned the empty string), the fetch of static files, [formatUptime],
    which nothing calls, and microtask order within one response.

    ** The documentation freeze (src/docs-site/scripts/freeze-version.mjs)

    FreezeVersion: the script over a file system that maps paths to
    directories and files; what a freeze copies, that it changes nothing else,
    refuses bad or frozen versions, and writes a sidebar that parses.

    ** The documentation site (src/docs-site/.vitepress)

    The viewer of a diagram is one component, theme/Mermaid.vue, in four files:

    - MermaidSvg ([fixSvgClipping]): the regular expressions of the function as
      matchers, [parseFloat], the attributes of the root; numbers that
      JavaScript printed are read back exactly, so the height grows by the
      padding and nothing else is lost.
    - MermaidNodes ([fixNodeClipping]): a tree of elements with their height
      attributes, the layout a function of those heights; labels fit afterwards.
    - MermaidZoom ([zoomIn] to [closeFullscreen]): the reactive state as a
      record, one function per handler, Vue's flush as an event of its own; the
      floating-point scale refines an integer counter.
    - MermaidChart ([onMounted], [renderChart]): overlapping runs of the
      asynchronous function as a list of renderings under way, settled in any
      order by events; the diagram follows the theme when they settle in turn.

    mermaid, DOMParser, XMLSerializer and the layout are parameters.

    DocsSite (config.mts): the settings, the navigation and the sidebar as data,
    checked against the Markdown files of the site; the terminal code fences as
    a function of the rule they wrap and of the token list, which both write.

    Home (theme/HomeLayout.vue, HomeFAQ.vue): the scroll-reveal of the home page
    over the documents the reader visits, with the browser's intersections as
    events; what it hides is revealed later.  The accordion.

    Theme (the components of theme/ and its index.ts): each template as a
    function from the front matter to a tree in which text, attributes and the
    markup of [v-html] are told apart.  ThemePage: the front matter of index.md
    and the page it gives.  Style sheets and the prose of the pages are not
    modelled.

    ** The data plane (src/crates/dwara-core/src)

    - Breaker (resilience/breaker.rs): the circuit breaker's calls as functions
      of the state, the parameters and the clock; the window against a
      reference log of reports, the state machine's bounds, its events.  The
      mutex makes calls atomic, so an interleaving is a sequence of calls.
    - Split (dataplane/split.rs): the weighted pick; shares are exact, and how
      much a change of weights moves.  Affinity (same file): the cookie that
      pins a session, read and minted.
    - Retries (resilience/retries.rs): the budget against the whole history of an
      upstream, of which the window is the end; backoff and deadline.
    - Health (resilience/health.rs): the operations of an endpoint's tracker as
      sequences of accesses to shared state, interleaved by a scheduler; each
      run alone implements an abstract tracker, and any interleaving keeps the
      slots and the published expiry.  The atomics are sequentially consistent.
    - The load balancer (dataplane/balance.rs) in nine files.  Hash: FNV-1a and
      its finalizer on 64-bit words.  Maglev ([build_maglev_table]): the loops
      with fuel; as much fuel as slots is enough when no skip is 0, and no fuel
      is enough for an endpoint whose skip is 0.  Ring ([build_ring]): the
      consistent-hash ring as an ordered map; an endpoint that joins only takes
      keys.  LbState: a generation's rows, which share their counters and
      trackers with other generations through indices into stores, and the
      weights.  Locality ([apply_locality]): what the residency constraint and
      the region leave of the candidates, and when the constraint is lost.
      Balance: every algorithm, [choose], guards, latencies, building and
      rebuilding, in a monad of state and faults (panics).  Picks: a pick
      selects a candidate and does not fail.  Fairness: the round-robin's shares.
      Inflight: the counters against the guards that are out.  Picks are made
      one at a time, from any state the others left.
    - The rate limiter (extensions/rate_limiter.rs) in three files.  RateStore:
      the sharded store of arrival times and the sweep that bounds it, against
      a store that forgets nothing.  RateLimiter: the fixed window, and stacked
      windows over the interface [Governor] of the third-party crate; what a
      key can take in an interval, where the clocks of store and limiter agree.
      RateEngine: policies compiled to rules over the interface [EngineLimiter]
      (which the local limiter implements), the keys, the cost of a request and
      its evaluation at five scopes.
    - Adaptive (resilience/adaptive.rs): the controller that tunes the cost; its
      factor stays in bounds, obeys Retry-After, and never relaxes a limit.
    - FloatOrder: rounding of binary64 products is monotone, which the factor's
      bounds need.

    - Router (snapshot/mod.rs [PrefixTrie], [RouteTable], the routes of
      [compile]; dataplane/proxy.rs [route_applies] and the candidate loop):
      the table, the criteria of a route and the resolution of a request, over
      the class [Crates] of the two third-party matchers, with [CratesLaws] what
      they document.  Routing: the resolution against the order of precedence,
      and where code and documentation part.
    - Rewrite (snapshot/mod.rs [CompiledSubstitution], [validate_rewrite];
      proxy.rs [apply_path_rewrite]): rewriting the path of a request, with a
      turn of the loops per character of the template as fuel.
    - Utf8: the encoding of characters and Rust's lossy decoding.  Sse
      (ai/sse.rs): the event-stream decoder, against the line grammar; the fuel
      of its loop is the length of the buffer.  AiStream (ai/stream.rs, the
      streaming body of dataplane/ai_proxy.rs): what a client is sent of a
      provider's stream and what its budget is charged, with provider dialects,
      budgets and guardrails as interfaces.  The client's polls are run with one
      turn per frame it gets.  Budget (ai/budget.rs, ai/cost.rs): the ledger of
      token windows and its guards, which implement the stream's interface;
      what the windows hold, what reloads keep, what requests under way can
      overrun, and prices.
    - Civil (config/quotas.rs and the copies in config/versioning.rs, proxy.rs,
      events/webhook.rs, analytics/exports.rs, analytics/partition.rs and
      security/tls.rs): dates and day numbers against a calendar counted day by
      day; day and month windows, as instances of a class [Windows].  Quotas
      (config/quotas.rs, state/quotas.rs, state/store.rs [incr_quota]): the
      daily and monthly request budgets of a consumer over the counters of the
      store and their yearly sweep.  HttpDate (config/versioning.rs): HTTP dates
      and Retry-After, as a round trip.
    - Net (config/net.rs, config/ssrf.rs, security/authz.rs
      [effective_client_ip], and the dials of wasm/callout.rs, wasm/source.rs and
      events/webhook.rs): the standard library's parser of addresses, with a
      turn per group as fuel, networks as blocks, the client's address behind
      proxies, the egress filter and which addresses are dialled.  The resolver is a sequence of answers.
      Authz (security/authz.rs and the phase in dataplane/proxy.rs): the blocks
      of the five levels against what each block asks.
    - Publish (snapshot/mod.rs [ConfigState], dwara-admin/src/entity_crud.rs,
      [patch_config] of dwara-admin/src/lib.rs, dwara-bin/src/reload.rs,
      [refresh_inner] and the weight changes of dataplane/proxy.rs): how a
      configuration is changed, published and served.  Every process is a
      sequence of events that read or write the file, the published and the
      served snapshot, and the lock; [reachable] states are those of any
      interleaving.  What is served is valid, and is the published one when no
      load and store are apart; what concurrent changes lose is exhibited.
      Entities and [compile] are the class [Schema].
    - Canary (dataplane/canary.rs, the weight changes of dataplane/proxy.rs): what
      a side measures, with floating-point ranks checked for every length; the
      evaluation and what a row of turns leads to; the controllers of successive
      generations and the runner as events, against the weights that are served,
      and what a reload between them leaves behind.

    Integers are [Z] with the wrap-around of the release build written out.
    The Redis backend of the rate limiter keeps its state in another process,
    under keys that rules share, and is not an instance of [EngineLimiter].
    The rest of the gateway (connections and bodies, the other parts of the
    configuration, the admin API's reports, analytics, provider dialects, control plane) is
    not modelled here.

    ** This file

    Results of fallible computations, the tactics and the list lemmas that the
    other files share. *)

From Stdlib Require Export ZArith Lia.
From stdpp Require Export base tactics list gmap strings option.

#[global] Set Default Proof Using "Type".

(** * Results

    A fallible computation returns [Ok] with its value or [Err] with the
    error it raised.  JavaScript's exceptions and Rust's [Result] are both
    modelled with this type. *)
Inductive result (E A : Type) : Type :=
  | Ok (a : A)
  | Err (e : E).
Arguments Ok {_ _} _.
Arguments Err {_ _} _.

#[global] Instance result_ret E : MRet (result E) := λ A a, Ok a.
#[global] Instance result_bind E : MBind (result E) := λ A B f m,
  match m with
  | Ok a => f a
  | Err e => Err e
  end.
#[global] Instance result_fmap E : FMap (result E) := λ A B f m,
  match m with
  | Ok a => Ok (f a)
  | Err e => Err e
  end.

(** Whether a result is a value. *)
Definition is_ok {E A} (r : result E A) : bool :=
  match r with
  | Ok _ => true
  | Err _ => false
  end.

Lemma result_bind_ok {E A B} (f : A → result E B) (m : result E A) b :
  (m ≫= f) = Ok b ↔ ∃ a, m = Ok a ∧ f a = Ok b.
Proof. destruct m; naive_solver. Qed.

Lemma result_bind_err {E A B} (f : A → result E B) (m : result E A) e :
  (m ≫= f) = Err e ↔ m = Err e ∨ ∃ a, m = Ok a ∧ f a = Err e.
Proof. destruct m; naive_solver. Qed.

(** * Tactics shared by the development *)

(** Split the conjunctions and existentials of the context. *)
Ltac split_hyps :=
  repeat match goal with
    | H : _ ∧ _ |- _ => destruct H
    | H : ∃ _, _ |- _ => destruct H
    end.

(** Case analysis on the scrutinee of some [match] of the goal. *)
Ltac case_goal :=
  match goal with
  | |- context [match ?x with _ => _ end] => destruct x eqn:?
  end.

(** Case analysis on the scrutinee of some [match] of hypothesis [H]. *)
Ltac case_in H :=
  match type of H with
  | context [match ?x with _ => _ end] => destruct x eqn:?
  end.

(** * Generic lemmas on lists *)

Lemma list_filter_true {A} (P : A → Prop) `{!∀ x, Decision (P x)} (l : list A) :
  Forall P l → filter P l = l.
Proof. induction 1; [done|]. rewrite filter_cons_True by done. by f_equal. Qed.

Lemma list_filter_none {A} (P : A → Prop) `{!∀ x, Decision (P x)} (l : list A) :
  Forall (λ x, ¬ P x) l → filter P l = [].
Proof. induction 1; [done|]. by rewrite filter_cons_False. Qed.

(** Keeping the last [n] elements of a list: what a bounded queue that
    drops its oldest element retains. *)
Definition last_n {A} (n : nat) (l : list A) : list A := drop (length l - n) l.

Lemma last_n_length {A} n (l : list A) : length (last_n n l) ≤ n.
Proof. unfold last_n. rewrite length_drop. lia. Qed.

Lemma last_n_snoc {A} n (l : list A) x :
  last_n (S n) (last_n (S n) l ++ [x]) = last_n (S n) (l ++ [x]).
Proof.
  unfold last_n. rewrite !length_app, length_drop; simpl.
  destruct (decide (length l ≤ S n)) as [Hle|Hgt].
  - replace (length l - S n) with 0 by lia. rewrite drop_0. f_equal; lia.
  - rewrite !drop_app_le by (rewrite ?length_drop; lia).
    rewrite drop_drop. f_equal. f_equal. lia.
Qed.
