(* ===== verification/JsNumber.v ===== *)
(** JavaScript numbers: IEEE 754 binary64 values, with the arithmetic, the
    conversions and the printing of ECMA-262 that the console uses. *)

From S2P Require Import Prelude.
From Stdlib Require Export SpecFloat.

(** * JavaScript strings

    A JavaScript string is the list of its UTF-16 code units. *)
Abbreviation jstr := (list N).

(** The code units of an ASCII literal. *)
Fixpoint u (s : string) : jstr :=
  match s with
  | EmptyString => []
  | String c s => Ascii.N_of_ascii c :: u s
  end.

Local Open Scope Z_scope.

(** * Arithmetic *)

Abbreviation num := spec_float.

Definition prec : Z := 53.
Definition emax : Z := 1024.

Definition nadd (x y : num) : num := SFadd prec emax x y.
Definition nsub (x y : num) : num := SFsub prec emax x y.
Definition nmul (x y : num) : num := SFmul prec emax x y.
Definition ndiv (x y : num) : num := SFdiv prec emax x y.
Definition neq (x y : num) : bool := SFeqb x y.
Definition nlt (x y : num) : bool := SFltb x y.
Definition nle (x y : num) : bool := SFleb x y.

(** The double nearest to an integer. *)
Definition num_of_Z (z : Z) : num := binary_normalize prec emax z 0 false.

#[global] Instance num_eq_dec : EqDecision num.
Proof. solve_decision. Defined.

Definition is_nan (x : num) : bool :=
  match x with
  | S754_nan => true
  | _ => false
  end.

(** ToBoolean on a number: both zeros and NaN are falsy. *)
Definition num_truthy (x : num) : bool :=
  match x with
  | S754_nan | S754_zero _ => false
  | _ => true
  end.

(** [Math.max] of two numbers: NaN is contagious and [+0] is above [-0]. *)
Definition nmax (x y : num) : num :=
  if is_nan x || is_nan y then S754_nan
  else match x, y with
       | S754_zero s1, S754_zero s2 => S754_zero (s1 && s2)
       | _, _ => if nlt x y then y else x
       end.

(** [Math.min] of two numbers, [-0] below [+0]. *)
Definition nmin (x y : num) : num :=
  if is_nan x || is_nan y then S754_nan
  else match x, y with
       | S754_zero s1, S754_zero s2 => S754_zero (s1 || s2)
       | _, _ => if nlt y x then y else x
       end.

(** * Decimal conversions *)

(** Move the trailing zeros of [s] into the exponent [q] of [s * 10 ^ q]. *)
Fixpoint strip10 (fuel : nat) (s q : Z) : Z * Z :=
  match fuel with
  | O => (s, q)
  | S fuel => if s mod 10 =? 0 then strip10 fuel (s / 10) (q + 1) else (s, q)
  end.

(** The canonical decimal of a positive value: no trailing zero. *)
Definition canon10 (s q : Z) : Z * Z := strip10 (Z.to_nat (Z.log2 s + 1)) s q.

(** Number of decimal digits of a positive integer, given enough fuel. *)
Fixpoint count10 (fuel : nat) (s : Z) : Z :=
  match fuel with
  | O => 0
  | S fuel => if s <? 10 then 1 else 1 + count10 fuel (s / 10)
  end.

(** The double nearest to [(-1)^neg * s * 10 ^ q], ties to even: the value of
    a decimal literal.  A literal above [10 ^ 400] or below [10 ^ -400] is
    decided without building the power: such values are past the largest
    finite double and under half the smallest subnormal. *)
Definition dec_to_num (neg : bool) (s q : Z) : num :=
  if s =? 0 then S754_zero neg
  else
    let '(s, q) := canon10 s q in
    let mag := count10 (Z.to_nat (Z.log2 s + 1)) s + q in
    if 400 <? mag then S754_infinity neg
    else if mag <? -400 then S754_zero neg
    else if 0 <=? q then binary_round prec emax neg (Z.to_pos (s * 10 ^ q)) 0
    else
      let '(mz, ez, lz) := SFdiv_core_binary prec emax s 0 (10 ^ (- q)) 0 in
      binary_round_aux prec emax neg mz ez lz.

(** The value [m * 2 ^ e] as a fraction. *)
Definition frac_of (m e : Z) : Z * Z :=
  if 0 <=? e then (m * 2 ^ e, 1) else (m, 2 ^ (- e)).

(** The [n] with [10 ^ (n-1) <= num/den < 10 ^ n], searched from an estimate. *)
Definition pow10_le (q nu de : Z) : bool :=
  if 0 <=? q then 10 ^ q * de <=? nu else de <=? nu * 10 ^ (- q).

Fixpoint find_mag (fuel : nat) (n nu de : Z) : Z :=
  match fuel with
  | O => n
  | S fuel =>
      if pow10_le n nu de then find_mag fuel (n + 1) nu de
      else if pow10_le (n - 1) nu de then n
      else find_mag fuel (n - 1) nu de
  end.

Definition decimal_mag (m e : Z) : Z :=
  let '(nu, de) := frac_of m e in
  find_mag 10 ((Z.log2 m + e) * 30103 / 100000 + 1) nu de.

(** [floor (num/den / 10 ^ q)] and the doubled remainder's sign against one
    half: whether the next integer is nearer. *)
Definition scaled (nu de q : Z) : Z * comparison :=
  let '(nu, de) := if 0 <=? q then (nu, de * 10 ^ q) else (nu * 10 ^ (- q), de) in
  let s := nu / de in
  (s, 2 * (nu - s * de) ?= de).

(** Number::toString picks the shortest [k] for which a [k]-digit [s] has
    [s * 10 ^ (n-k)] rounding back to the number, and the nearest such [s]. *)
Definition candidate (x : num) (nu de n k : Z) : option (Z * Z) :=
  let q := n - k in
  let '(s, c) := scaled nu de q in
  let ok s := SFeqb (dec_to_num false s q) x in
  let lo := if (0 <? s) && ok s then Some (s, q) else None in
  let hi := if ok (s + 1) then Some (s + 1, q) else None in
  match lo, hi with
  | Some a, Some b =>
      match c with
      | Lt => Some a
      | Gt => Some b
      | Eq => if Z.even s then Some a else Some b
      end
  | Some a, None => Some a
  | None, b => b
  end.

Fixpoint shortest (fuel : nat) (k : Z) (x : num) (nu de n : Z) : option (Z * Z) :=
  match fuel with
  | O => None
  | S fuel =>
      match candidate x nu de n k with
      | Some r => Some r
      | None => shortest fuel (k + 1) x nu de n
      end
  end.

(** The shortest decimal [s * 10 ^ q] of the positive double [m * 2 ^ e]. *)
Definition num_to_dec (m : positive) (e : Z) : option (Z * Z) :=
  let '(nu, de) := frac_of (Z.pos m) e in
  match shortest 17 1 (S754_finite false m e) nu de (decimal_mag (Z.pos m) e) with
  | Some (s, q) => Some (canon10 s q)
  | None => None
  end.

(** The decimal digits of a non-negative integer, most significant first. *)
Definition digit_unit (d : Z) : N := Z.to_N (48 + d).

Fixpoint digits_aux (fuel : nat) (z : Z) (acc : jstr) : jstr :=
  match fuel with
  | O => acc
  | S fuel =>
      let acc := digit_unit (z mod 10) :: acc in
      if z <? 10 then acc else digits_aux fuel (z / 10) acc
  end.

Definition Z_digits (z : Z) : jstr := digits_aux (Z.to_nat (Z.log2 z + 1)) z [].

(** The layout of the digits of [s * 10 ^ q]: the four forms of
    Number::toString, with [n] the position of the decimal point. *)
Definition layout (s q : Z) : jstr :=
  let ds := Z_digits s in
  let k := Z.of_nat (length ds) in
  let n := k + q in
  let expo (e : Z) := (if e <? 0 then u "e-" else u "e+") ++ Z_digits (Z.abs e) in
  if (k <=? n) && (n <=? 21) then ds ++ replicate (Z.to_nat (n - k)) 48%N
  else if (0 <? n) && (n <=? 21) then
    take (Z.to_nat n) ds ++ u "." ++ drop (Z.to_nat n) ds
  else if (-6 <? n) && (n <=? 0) then u "0." ++ replicate (Z.to_nat (- n)) 48%N ++ ds
  else match ds with
       | [d] => [d] ++ expo (n - 1)
       | d :: ds => [d] ++ u "." ++ ds ++ expo (n - 1)
       | [] => []
       end.

(** [String(x)] for a number. *)
Definition num_to_jstr (x : num) : jstr :=
  match x with
  | S754_nan => u "NaN"
  | S754_zero _ => u "0"
  | S754_infinity s => (if s then u "-" else []) ++ u "Infinity"
  | S754_finite s m e =>
      (if s then u "-" else []) ++
      match num_to_dec m e with
      | Some (d, q) => layout d q
      | None => []
      end
  end.

(** [x.toFixed(f)]: the nearest multiple of [10 ^ -f], the larger one on a
    tie; values from [10 ^ 21] on print as [String(x)]. *)
Definition to_fixed_pos (f : nat) (m e : Z) : jstr :=
  let '(nu, de) := frac_of m e in
  let n := (2 * nu * 10 ^ Z.of_nat f + de) / (2 * de) in
  let ds := Z_digits n in
  let ds := replicate (S f - length ds) 48%N ++ ds in
  let k := (length ds - f)%nat in
  match f with
  | O => ds
  | _ => take k ds ++ u "." ++ drop k ds
  end.

Definition to_fixed (f : nat) (x : num) : jstr :=
  match x with
  | S754_nan => u "NaN"
  | S754_infinity _ => num_to_jstr x
  | S754_zero _ => Z_digits 0 ++ match f with O => [] | _ => u "." ++ replicate f 48%N end
  | S754_finite s m e =>
      let '(nu, de) := frac_of (Z.pos m) e in
      if 10 ^ 21 * de <=? nu then num_to_jstr x
      else (if s then u "-" else []) ++ to_fixed_pos f (Z.pos m) e
  end.

(** [Math.round(x)]: the nearest integer, the larger one on a tie; a result of
    zero keeps the sign. *)
Definition math_round (x : num) : num :=
  match x with
  | S754_finite s m e =>
      let '(nu, de) := frac_of (Z.pos m) e in
      let nu := if s then - nu else nu in
      let r := (2 * nu + de) / (2 * de) in
      if r =? 0 then S754_zero s else num_of_Z r
  | _ => x
  end.
