(* ===== verification/Text.v ===== *)
(** Texts as lists of code points or code units: splitting at a separator and
    trimming, for the programs that take text apart. *)

From S2P Require Import Prelude JsNumber.
Local Open Scope N_scope.

(** * Fields *)

(** The fields of a string between the occurrences of [sep]. *)
Fixpoint split_on (sep : N) (s : jstr) : list jstr :=
  match s with
  | [] => [[]]
  | c :: s =>
      match split_on sep s with
      | f :: fs => if c =? sep then [] :: f :: fs else (c :: f) :: fs
      | [] => [[c]]
      end
  end.

(** The fields joined by the separator are the string. *)
Fixpoint join_on (sep : N) (l : list jstr) : jstr :=
  match l with
  | [] => []
  | [f] => f
  | f :: l => f ++ sep :: join_on sep l
  end.

(** What precedes and what follows the first [sep]. *)
Fixpoint split_once (sep : N) (s : jstr) : option (jstr * jstr) :=
  match s with
  | [] => None
  | c :: s =>
      if c =? sep then Some ([], s)
      else '(a, b) ← split_once sep s; Some (c :: a, b)
  end.

Lemma split_on_cons sep s : ∃ f fs, split_on sep s = f :: fs.
Proof.
  induction s as [|c s (f & fs & IH)]; simpl; [by eexists _, _|]. rewrite IH.
  destruct (c =? sep); by eexists _, _.
Qed.

Lemma join_split sep s : join_on sep (split_on sep s) = s.
Proof.
  induction s as [|c s IH]; [done|]. simpl. destruct (split_on_cons sep s) as (f & fs & E).
  rewrite E in *. destruct (c =? sep) eqn:Ec.
  - apply N.eqb_eq in Ec as ->. simpl. simpl in IH. by rewrite IH.
  - destruct fs; simpl in *; by rewrite IH.
Qed.

Lemma split_field sep a : sep ∉ a → split_on sep a = [a].
Proof.
  induction a as [|c a IH]; intros Ha; [done|]. simpl. rewrite IH by set_solver.
  rewrite (proj2 (N.eqb_neq c sep)); [done|]. set_solver.
Qed.

Lemma split_join sep a s : sep ∉ a → split_on sep (a ++ sep :: s) = a :: split_on sep s.
Proof.
  induction a as [|c a IH]; intros Ha; simpl.
  - destruct (split_on_cons sep s) as (f & fs & ->). by rewrite N.eqb_refl.
  - rewrite IH by set_solver. rewrite (proj2 (N.eqb_neq c sep)); [done|]. set_solver.
Qed.

Lemma split_once_app sep a s : sep ∉ a → split_once sep (a ++ sep :: s) = Some (a, s).
Proof.
  induction a as [|c a IH]; intros Ha; simpl; [by rewrite N.eqb_refl|].
  rewrite (proj2 (N.eqb_neq c sep)) by set_solver. by rewrite IH by set_solver.
Qed.

(** * Trimming *)

Section trim.
Context (ws : N → bool).

Fixpoint trim_start (s : jstr) : jstr :=
  match s with
  | c :: s' => if ws c then trim_start s' else s
  | [] => []
  end.

Definition trim_both (s : jstr) : jstr := reverse (trim_start (reverse (trim_start s))).

(** No blank at the start. *)
Definition starts_tidy (s : jstr) : bool :=
  match s with
  | c :: _ => negb (ws c)
  | [] => true
  end.

Definition tidy (s : jstr) : bool := starts_tidy s && starts_tidy (reverse s).

Lemma trim_start_tidy s : starts_tidy s = true → trim_start s = s.
Proof. destruct s as [|c s]; simpl; [done|]. by destruct (ws c). Qed.

Lemma trim_tidy s : tidy s = true → trim_both s = s.
Proof.
  intros [H1 H2]%andb_true_iff. unfold trim_both.
  rewrite (trim_start_tidy s), trim_start_tidy by done. apply reverse_involutive.
Qed.

Lemma starts_tidy_app s c t : starts_tidy s = true → ws c = false → starts_tidy (s ++ c :: t) = true.
Proof. destruct s as [|d s]; simpl; [by intros _ ->|done]. Qed.

Lemma tidy_app s c t : tidy s = true → tidy t = true → ws c = false → tidy (s ++ c :: t) = true.
Proof.
  intros [Hs _]%andb_true_iff [_ Ht]%andb_true_iff Hc. unfold tidy. apply andb_true_iff.
  split; [by apply starts_tidy_app|]. rewrite reverse_app, reverse_cons, <- app_assoc.
  by apply starts_tidy_app.
Qed.

Lemma trim_blank c s : ws c = true → trim_both (c :: s) = trim_both s.
Proof. intros Hc. unfold trim_both. simpl. by rewrite Hc. Qed.

Lemma trim_start_blanks before s : Forall (λ c, ws c = true) before → trim_start (before ++ s) = trim_start s.
Proof. induction 1 as [|c before Hc _ IH]; [done|]. simpl. by rewrite Hc. Qed.

Lemma trim_around before after s : Forall (λ c, ws c = true) before → Forall (λ c, ws c = true) after →
  tidy s = true → trim_both (before ++ s ++ after) = s.
Proof.
  intros Hb Ha Ht. unfold trim_both. rewrite trim_start_blanks by done. destruct s as [|c s].
  - assert (E : trim_start after = []) by (rewrite <- (app_nil_r after); by rewrite trim_start_blanks).
    rewrite app_nil_l, E. done.
  - unfold tidy in Ht. apply andb_true_iff in Ht as [H1 H2].
    rewrite (trim_start_tidy ((c :: s) ++ after)) by done. rewrite reverse_app, trim_start_blanks by (by apply Forall_reverse).
    rewrite trim_start_tidy by done. apply reverse_involutive.
Qed.
End trim.
