(* ===== verification/JsValue.v ===== *)
(** JavaScript values as the console handles them: what [JSON.parse] yields,
    [undefined], and the built-in functions a property read can find; with
    truthiness, the logical operators, property reads and the conversions to
    strings and numbers of ECMA-262. *)

From S2P Require Import Prelude JsNumber.
Local Open Scope Z_scope.

(** * Values *)

(** Objects list their own properties in enumeration order; [JFun] is a
    built-in method found on a primitive's prototype. *)
Inductive jsval : Type :=
  | JUndef
  | JNull
  | JBool (b : bool)
  | JNum (n : num)
  | JStr (s : jstr)
  | JArr (l : list jsval)
  | JObj (l : list (jstr * jsval))
  | JFun (name : jstr).

Section jsval_ind.
Variable P : jsval → Prop.
Hypothesis Pundef : P JUndef.
Hypothesis Pnull : P JNull.
Hypothesis Pbool : ∀ b, P (JBool b).
Hypothesis Pnum : ∀ n, P (JNum n).
Hypothesis Pstr : ∀ s, P (JStr s).
Hypothesis Parr : ∀ l, Forall P l → P (JArr l).
Hypothesis Pobj : ∀ l, Forall (λ kv, P kv.2) l → P (JObj l).
Hypothesis Pfun : ∀ n, P (JFun n).

(** Induction on values with the hypothesis for every element. *)
Fixpoint jsval_ind_nested (v : jsval) : P v :=
  match v with
  | JUndef => Pundef
  | JNull => Pnull
  | JBool b => Pbool b
  | JNum n => Pnum n
  | JStr s => Pstr s
  | JArr l =>
      Parr l ((fix go l : Forall P l :=
        match l with
        | [] => Forall_nil_2 _
        | x :: l => Forall_cons_2 _ x l (jsval_ind_nested x) (go l)
        end) l)
  | JObj l =>
      Pobj l ((fix go l : Forall (λ kv, P kv.2) l :=
        match l with
        | [] => Forall_nil_2 _
        | x :: l => Forall_cons_2 _ x l (jsval_ind_nested x.2) (go l)
        end) l)
  | JFun n => Pfun n
  end.
End jsval_ind.

(** * Host-defined texts

    What ECMA-262 leaves to the engine and what the browser supplies: the
    messages of the errors the engine raises, the source text of built-in
    functions and the rendering of a time of day. *)
Inductive type_error : Type :=
  | ReadNullish (obj : jsval) (prop : jstr)
  | NotAFunction (prop : jstr)
  | NotPrimitive
  | NotANode
  | NotAChild
  | HierarchyError.

Class Host : Type := {
  te_message : type_error → jstr;
  json_message : jstr → jstr;
  function_text : jstr → jstr;
  locale_time : Z → jstr;
}.

(** A JavaScript exception is represented by its [message]. *)
Abbreviation res := (result jstr).

Definition throw_te {H : Host} {A} (e : type_error) : res A := Err (te_message e).

(** * Truthiness and the logical operators *)

Definition truthy (v : jsval) : bool :=
  match v with
  | JUndef | JNull => false
  | JBool b => b
  | JNum n => num_truthy n
  | JStr s => negb (bool_decide (s = []))
  | JArr _ | JObj _ | JFun _ => true
  end.

(** [a || b] and [a && b] on values. *)
Definition jor (a b : jsval) : jsval := if truthy a then a else b.
Definition jand (a b : jsval) : jsval := if truthy a then b else a.

Definition is_nullish (v : jsval) : bool :=
  match v with
  | JUndef | JNull => true
  | _ => false
  end.

(** [a === b] against a string literal. *)
Definition is_str (v : jsval) (s : jstr) : bool :=
  match v with
  | JStr t => bool_decide (t = s)
  | _ => false
  end.

(** [v !== false]. *)
Definition not_false (v : jsval) : bool :=
  match v with
  | JBool false => false
  | _ => true
  end.

Definition is_array (v : jsval) : bool :=
  match v with
  | JArr _ => true
  | _ => false
  end.

(** [typeof v === 'object'] with [v !== null]. *)
Definition is_object (v : jsval) : bool :=
  match v with
  | JArr _ | JObj _ => true
  | _ => false
  end.

Definition jnum (z : Z) : jsval := JNum (num_of_Z z).
Definition jstr_of (s : string) : jsval := JStr (u s).

(** * Property keys *)

(** The canonical array index a key denotes, if any. *)
Definition is_digit (c : N) : bool := (48 <=? c)%N && (c <=? 57)%N.

Definition digits_value (l : jstr) : Z :=
  fold_left (λ a c, 10 * a + (Z.of_N c - 48)) l 0.

Definition array_index (k : jstr) : option Z :=
  match k with
  | [] => None
  | [c] => if is_digit c then Some (Z.of_N c - 48) else None
  | c :: _ =>
      if forallb is_digit k && negb (c =? 48)%N
         && (Z.of_nat (length k) <=? 10) && (digits_value k <? 2 ^ 32 - 1)
      then Some (digits_value k) else None
  end.

Fixpoint assoc (l : list (jstr * jsval)) (k : jstr) : option jsval :=
  match l with
  | [] => None
  | (k', v) :: l => if bool_decide (k = k') then Some v else assoc l k
  end.

Definition index_get {A} (l : list A) (k : jstr) : option A :=
  match array_index k with
  | Some i => l !! Z.to_nat i
  | None => None
  end.

Section host.
Context {H : Host}.

(** [v.k] or [v[k]].  Of the names the console reads, String.prototype has
    [match]; the prototypes of the other kinds have none. *)
Definition jget (v : jsval) (k : jstr) : res jsval :=
  match v with
  | JUndef | JNull => throw_te (ReadNullish v k)
  | JObj l => Ok (default JUndef (assoc l k))
  | JArr l =>
      if bool_decide (k = u "length") then Ok (jnum (Z.of_nat (length l)))
      else Ok (default JUndef (index_get l k))
  | JStr s =>
      if bool_decide (k = u "length") then Ok (jnum (Z.of_nat (length s)))
      else if bool_decide (k = u "match") then Ok (JFun k)
      else Ok (match index_get s k with Some c => JStr [c] | None => JUndef end)
  | JBool _ | JNum _ | JFun _ => Ok JUndef
  end.

(** The indices of a list as property keys. *)
Definition index_keys {A} (l : list A) : list jstr :=
  imap (λ i _, Z_digits (Z.of_nat i)) l.

(** [Object.keys(v)], which is also what a [for-in] loop filtered by
    [hasOwnProperty] visits; a nullish [v] throws. *)
Definition object_keys (v : jsval) : res (list jstr) :=
  match v with
  | JUndef | JNull => throw_te NotPrimitive
  | JObj l => Ok l.*1
  | JArr l => Ok (index_keys l)
  | JStr s => Ok (index_keys s)
  | JBool _ | JNum _ | JFun _ => Ok []
  end.

(** The receiver of an array method ([forEach], [map], [join]): anything but
    an array raises, by lacking the method or by being nullish. *)
Definition as_array (v : jsval) (method : string) : res (list jsval) :=
  match v with
  | JArr l => Ok l
  | JUndef | JNull => throw_te (ReadNullish v (u method))
  | _ => throw_te (NotAFunction (u method))
  end.

(** * Conversions *)

(** Lists of strings glued with a separator. *)
Fixpoint intersperse (sep : jstr) (l : list jstr) : jstr :=
  match l with
  | [] => []
  | [s] => s
  | s :: l => s ++ sep ++ intersperse sep l
  end.

(** ToString.  An object converts through Object.prototype.toString unless an
    own property of that name, not callable in JSON data, shadows it. *)
Fixpoint to_str (v : jsval) : res jstr :=
  match v with
  | JUndef => Ok (u "undefined")
  | JNull => Ok (u "null")
  | JBool b => Ok (if b then u "true" else u "false")
  | JNum n => Ok (num_to_jstr n)
  | JStr s => Ok s
  | JArr l =>
      parts ← (fix go (l : list jsval) : res (list jstr) :=
        match l with
        | [] => Ok []
        | v :: l =>
            s ← match v with
                | JUndef | JNull => Ok []
                | _ => to_str v
                end;
            rest ← go l;
            Ok (s :: rest)
        end) l;
      Ok (intersperse (u ",") parts)
  | JObj l =>
      match assoc l (u "toString") with
      | Some _ => throw_te NotPrimitive
      | None => Ok (u "[object Object]")
      end
  | JFun n => Ok (function_text n)
  end.

(** One element of [join]: nullish elements print as nothing. *)
Definition to_str_elem (v : jsval) : res jstr :=
  if is_nullish v then Ok [] else to_str v.

(** [v.join(sep)]. *)
Definition jjoin (v : jsval) (sep : jstr) : res jstr :=
  l ← as_array v "join";
  parts ← mapM to_str_elem l;
  Ok (intersperse sep parts).

(** * String to number *)

Definition is_space (c : N) : bool :=
  bool_decide (c ∈ [9; 10; 11; 12; 13; 32; 160; 5760; 8232; 8233; 8239; 8287; 12288; 65279]%N)
  || ((8192 <=? c)%N && (c <=? 8202)%N).

Fixpoint trim_left (s : jstr) : jstr :=
  match s with
  | c :: s' => if is_space c then trim_left s' else s
  | [] => []
  end.

Definition trim (s : jstr) : jstr := reverse (trim_left (reverse (trim_left s))).

(** The longest prefix of decimal digits, and what follows it. *)
Fixpoint span_digits (s : jstr) : jstr * jstr :=
  match s with
  | c :: s' =>
      if is_digit c then let '(a, b) := span_digits s' in (c :: a, b) else ([], s)
  | [] => ([], [])
  end.

(** An optional exponent part: its value and the rest, or [None] when the
    part is malformed. *)
Definition scan_exponent (s : jstr) : option (Z * jstr) :=
  match s with
  | (101 | 69)%N :: s =>
      let '(neg, s) :=
        match s with
        | 45%N :: s => (true, s)
        | 43%N :: s => (false, s)
        | _ => (false, s)
        end in
      let '(ds, s) := span_digits s in
      match ds with
      | [] => None
      | _ => let z := digits_value ds in Some (if neg then - z else z, s)
      end
  | _ => Some (0, s)
  end.

(** The fraction digits after an optional point, and the rest. *)
Definition scan_fraction (s : jstr) : jstr * jstr :=
  match s with
  | 46%N :: s => span_digits s
  | _ => ([], s)
  end.

(** StringToNumber on an unsigned StrDecimalLiteral. *)
Definition decimal_literal (neg : bool) (s : jstr) : num :=
  if bool_decide (s = u "Infinity") then S754_infinity neg
  else
    let '(ip, s) := span_digits s in
    let '(fp, s) := scan_fraction s in
    match ip ++ fp, scan_exponent s with
    | (_ :: _) as ds, Some (e, []) =>
        dec_to_num neg (digits_value ds) (e - Z.of_nat (length fp))
    | _, _ => S754_nan
    end.

(** The value of a digit in radix notation. *)
Definition radix_digit (c : N) : Z :=
  let z := Z.of_N c in
  if is_digit c then z - 48
  else if (97 <=? z) && (z <=? 122) then z - 87
  else if (65 <=? z) && (z <=? 90) then z - 55
  else 99.

Definition radix_literal (r : Z) (s : jstr) : num :=
  match s with
  | [] => S754_nan
  | _ =>
      if forallb (λ c, radix_digit c <? r) s
      then num_of_Z (fold_left (λ a c, r * a + radix_digit c) s 0)
      else S754_nan
  end.

Definition str_to_num (s : jstr) : num :=
  match trim s with
  | [] => S754_zero false
  | 48%N :: (120 | 88)%N :: s => radix_literal 16 s
  | 48%N :: (111 | 79)%N :: s => radix_literal 8 s
  | 48%N :: (98 | 66)%N :: s => radix_literal 2 s
  | 45%N :: s => decimal_literal true s
  | 43%N :: s => decimal_literal false s
  | s => decimal_literal false s
  end.

(** ToNumber. *)
Definition to_num (v : jsval) : res num :=
  match v with
  | JUndef => Ok S754_nan
  | JNull => Ok (S754_zero false)
  | JBool b => Ok (num_of_Z (if b then 1 else 0))
  | JNum n => Ok n
  | JStr s => Ok (str_to_num s)
  | JArr _ | JObj _ | JFun _ => s ← to_str v; Ok (str_to_num s)
  end.

(** [v.toFixed(f)]: only numbers have the method. *)
Definition jto_fixed (v : jsval) (f : nat) : res jstr :=
  match v with
  | JNum n => Ok (to_fixed f n)
  | JUndef | JNull => throw_te (ReadNullish v (u "toFixed"))
  | _ => throw_te (NotAFunction (u "toFixed"))
  end.

(** [s.toLowerCase()] on the ASCII labels of the program. *)
Definition lower_unit (c : N) : N := if (65 <=? c)%N && (c <=? 90)%N then (c + 32)%N else c.
Definition to_lower (s : jstr) : jstr := lower_unit <$> s.

(** [s.indexOf(t) >= 0]. *)
Fixpoint contains (t s : jstr) : bool :=
  bool_decide (t `prefix_of` s) ||
  match s with
  | [] => false
  | _ :: s => contains t s
  end.

End host.

(** * Facts *)

Lemma jor_truthy a b : truthy a = true → jor a b = a.
Proof. unfold jor. by intros ->. Qed.

Lemma jor_falsy a b : truthy a = false → jor a b = b.
Proof. unfold jor. by intros ->. Qed.

(** [a || b] is falsy only when [b] is. *)
Lemma jor_truthy_r a b : truthy b = true → truthy (jor a b) = true.
Proof. unfold jor. by destruct (truthy a) eqn:?. Qed.

Lemma contains_app t s1 s2 : contains t (s1 ++ t ++ s2) = true.
Proof.
  induction s1 as [|c s1 IH]; simpl.
  - destruct (t ++ s2) eqn:E; simpl.
    + apply app_nil in E as [-> ->]. done.
    + rewrite <- E, bool_decide_true by (by exists s2). done.
  - rewrite IH. apply orb_true_r.
Qed.
