(* ===== verification/Json.v ===== *)
(** [JSON.parse] and [JSON.stringify] of ECMA-262, and the round trip between
    them that the console's edit dialogs rely on. *)

From S2P Require Import Prelude JsNumber JsValue.
Local Open Scope Z_scope.

(** * Printing *)

Definition hex_unit (d : N) : N := if (d <? 10)%N then (48 + d)%N else (87 + d)%N.

(** [\uXXXX] with four lowercase hexadecimal digits. *)
Definition u_escape (c : N) : jstr :=
  u "\u" ++ [hex_unit (c / 4096 mod 16); hex_unit (c / 256 mod 16);
             hex_unit (c / 16 mod 16); hex_unit (c mod 16)]%N.

Definition is_high (c : N) : bool := (55296 <=? c)%N && (c <=? 56319)%N.
Definition is_low (c : N) : bool := (56320 <=? c)%N && (c <=? 57343)%N.

(** QuoteJSONString on one code unit that is not part of a surrogate pair. *)
Definition quote_unit (c : N) : jstr :=
  match c with
  | 8%N => u "\b"
  | 9%N => u "\t"
  | 10%N => u "\n"
  | 12%N => u "\f"
  | 13%N => u "\r"
  | 34%N => [92; 34]%N
  | 92%N => u "\\"
  | _ => if (c <? 32)%N || is_high c || is_low c then u_escape c else [c]
  end.

Fixpoint quote_units (s : jstr) : jstr :=
  match s with
  | [] => []
  | c :: s' =>
      match s' with
      | d :: s'' =>
          if is_high c && is_low d then c :: d :: quote_units s''
          else quote_unit c ++ quote_units s'
      | [] => quote_unit c
      end
  end.

Definition quote (s : jstr) : jstr := [34%N] ++ quote_units s ++ [34%N].

(** The line break before an item, when a gap is in use. *)
Definition newline (gap ind : jstr) : jstr :=
  match gap with
  | [] => []
  | _ => 10%N :: ind
  end.

Definition is_finite (n : num) : bool :=
  match n with
  | S754_finite _ _ _ | S754_zero _ => true
  | _ => false
  end.

(** Items of an array or object between brackets. *)
Definition bracket (o c : N) (gap ind : jstr) (items : list jstr) : jstr :=
  match items with
  | [] => [o; c]
  | _ =>
      [o] ++ newline gap (ind ++ gap) ++
      intersperse ([44%N] ++ newline gap (ind ++ gap)) items ++
      newline gap ind ++ [c]
  end.

(** SerializeJSONProperty; [None] stands for [undefined]. *)
Fixpoint serialize (gap ind : jstr) (v : jsval) : option jstr :=
  match v with
  | JUndef | JFun _ => None
  | JNull => Some (u "null")
  | JBool b => Some (if b then u "true" else u "false")
  | JNum n => Some (if is_finite n then num_to_jstr n else u "null")
  | JStr s => Some (quote s)
  | JArr l =>
      Some (bracket 91 93 gap ind
              (map (λ v, default (u "null") (serialize gap (ind ++ gap) v)) l))
  | JObj l =>
      let colon := match gap with [] => u ":" | _ => u ": " end in
      Some (bracket 123 125 gap ind
              (flat_map (λ kv, match serialize gap (ind ++ gap) kv.2 with
                               | Some s => [quote kv.1 ++ colon ++ s]
                               | None => []
                               end) l))
  end.

(** [JSON.stringify(v)] and [JSON.stringify(v, null, 2)]. *)
Definition stringify (v : jsval) : option jstr := serialize [] [] v.
Definition stringify2 (v : jsval) : option jstr := serialize (u "  ") [] v.

(** * Parsing *)

Definition is_ws (c : N) : bool := (c =? 32)%N || (c =? 9)%N || (c =? 10)%N || (c =? 13)%N.

Fixpoint skip_ws (s : jstr) : jstr :=
  match s with
  | c :: s' => if is_ws c then skip_ws s' else s
  | [] => []
  end.

Definition hex_value (c : N) : option N :=
  if is_digit c then Some (c - 48)%N
  else if (97 <=? c)%N && (c <=? 102)%N then Some (c - 87)%N
  else if (65 <=? c)%N && (c <=? 70)%N then Some (c - 55)%N
  else None.

Definition hex4 (a b c d : N) : option N :=
  match hex_value a, hex_value b, hex_value c, hex_value d with
  | Some a, Some b, Some c, Some d => Some (((a * 16 + b) * 16 + c) * 16 + d)%N
  | _, _, _, _ => None
  end.

Definition simple_escape (c : N) : option N :=
  match c with
  | 34%N => Some 34%N
  | 92%N => Some 92%N
  | 47%N => Some 47%N
  | 98%N => Some 8%N
  | 102%N => Some 12%N
  | 110%N => Some 10%N
  | 114%N => Some 13%N
  | 116%N => Some 9%N
  | _ => None
  end.

Definition cons_fst (c : N) (r : option (jstr * jstr)) : option (jstr * jstr) :=
  match r with
  | Some (s, rest) => Some (c :: s, rest)
  | None => None
  end.

(** The characters of a string literal up to its closing quote. *)
Fixpoint parse_chars (s : jstr) : option (jstr * jstr) :=
  match s with
  | [] => None
  | c :: s =>
      if (c =? 34)%N then Some ([], s)
      else if (c =? 92)%N then
        match s with
        | [] => None
        | e :: s =>
            if (e =? 117)%N then
              match s with
              | h1 :: h2 :: h3 :: h4 :: s =>
                  match hex4 h1 h2 h3 h4 with
                  | Some c => cons_fst c (parse_chars s)
                  | None => None
                  end
              | _ => None
              end
            else
              match simple_escape e with
              | Some c => cons_fst c (parse_chars s)
              | None => None
              end
        end
      else if (c <? 32)%N then None
      else cons_fst c (parse_chars s)
  end.

(** The integer digits of a JSON number have no superfluous leading zero. *)
Definition int_part_ok (ip : jstr) : bool :=
  match ip with
  | [] => false
  | [_] => true
  | c :: _ => negb (c =? 48)%N
  end.

(** The optional fraction of a JSON number: digits must follow the point. *)
Definition parse_fraction (s : jstr) : option (jstr * jstr) :=
  match s with
  | 46%N :: s =>
      let '(fp, s) := span_digits s in
      match fp with
      | [] => None
      | _ => Some (fp, s)
      end
  | _ => Some ([], s)
  end.

Definition parse_unsigned (neg : bool) (s : jstr) : option (num * jstr) :=
  let '(ip, s) := span_digits s in
  if int_part_ok ip then
    match parse_fraction s with
    | Some (fp, s) =>
        match scan_exponent s with
        | Some (e, s) =>
            Some (dec_to_num neg (digits_value (ip ++ fp)) (e - Z.of_nat (length fp)), s)
        | None => None
        end
    | None => None
    end
  else None.

(** A JSON number. *)
Definition parse_number (s : jstr) : option (num * jstr) :=
  match s with
  | 45%N :: s => parse_unsigned true s
  | _ => parse_unsigned false s
  end.

(** Define a property: an existing one keeps its place, a new array index
    goes among the indices in ascending order, any other key at the end. *)
Fixpoint insert_index (i : Z) (k : jstr) (v : jsval) (l : list (jstr * jsval))
    : list (jstr * jsval) :=
  match l with
  | [] => [(k, v)]
  | (k', v') :: l' =>
      match array_index k' with
      | Some j => if i <? j then (k, v) :: l else (k', v') :: insert_index i k v l'
      | None => (k, v) :: l
      end
  end.

Fixpoint replace_prop (k : jstr) (v : jsval) (l : list (jstr * jsval)) : list (jstr * jsval) :=
  match l with
  | [] => []
  | (k', v') :: l => if bool_decide (k = k') then (k', v) :: l else (k', v') :: replace_prop k v l
  end.

Definition obj_set (l : list (jstr * jsval)) (kv : jstr * jsval) : list (jstr * jsval) :=
  let '(k, v) := kv in
  match assoc l k with
  | Some _ => replace_prop k v l
  | None =>
      match array_index k with
      | Some i => insert_index i k v l
      | None => l ++ [(k, v)]
      end
  end.

Definition make_obj (l : list (jstr * jsval)) : list (jstr * jsval) := foldl obj_set [] l.

(** Parse a value after optional white space.  Every call consumes fuel; the
    text's length bounds the depth of the calls. *)
Fixpoint parse_value (fuel : nat) (s : jstr) {struct fuel} : option (jsval * jstr) :=
  match fuel with
  | O => None
  | S fuel =>
      match skip_ws s with
      | [] => None
      | (c :: s) as s0 =>
          if (c =? 34)%N then
            match parse_chars s with
            | Some (t, rest) => Some (JStr t, rest)
            | None => None
            end
          else if (c =? 91)%N then
            match skip_ws s with
            | 93%N :: rest => Some (JArr [], rest)
            | s => match parse_elems fuel s with
                   | Some (l, rest) => Some (JArr l, rest)
                   | None => None
                   end
            end
          else if (c =? 123)%N then
            match skip_ws s with
            | 125%N :: rest => Some (JObj [], rest)
            | s => match parse_members fuel s with
                   | Some (l, rest) => Some (JObj (make_obj l), rest)
                   | None => None
                   end
            end
          else if bool_decide (u "true" `prefix_of` s0) then Some (JBool true, drop 4 s0)
          else if bool_decide (u "false" `prefix_of` s0) then Some (JBool false, drop 5 s0)
          else if bool_decide (u "null" `prefix_of` s0) then Some (JNull, drop 4 s0)
          else match parse_number s0 with
               | Some (n, rest) => Some (JNum n, rest)
               | None => None
               end
      end
  end
with parse_elems (fuel : nat) (s : jstr) {struct fuel} : option (list jsval * jstr) :=
  match fuel with
  | O => None
  | S fuel =>
      match parse_value fuel s with
      | None => None
      | Some (v, s) =>
          match skip_ws s with
          | 44%N :: s =>
              match parse_elems fuel s with
              | Some (l, rest) => Some (v :: l, rest)
              | None => None
              end
          | 93%N :: rest => Some ([v], rest)
          | _ => None
          end
      end
  end
with parse_members (fuel : nat) (s : jstr) {struct fuel}
    : option (list (jstr * jsval) * jstr) :=
  match fuel with
  | O => None
  | S fuel =>
      match skip_ws s with
      | 34%N :: s =>
          match parse_chars s with
          | None => None
          | Some (k, s) =>
              match skip_ws s with
              | 58%N :: s =>
                  match parse_value fuel s with
                  | None => None
                  | Some (v, s) =>
                      match skip_ws s with
                      | 44%N :: s =>
                          match parse_members fuel s with
                          | Some (l, rest) => Some ((k, v) :: l, rest)
                          | None => None
                          end
                      | 125%N :: rest => Some ([(k, v)], rest)
                      | _ => None
                      end
                  end
              | _ => None
              end
          end
      | _ => None
      end
  end.

(** [JSON.parse(s)]. *)
Definition json_parse {H : Host} (s : jstr) : res jsval :=
  match parse_value (S (length s)) s with
  | Some (v, rest) =>
      match skip_ws rest with
      | [] => Ok v
      | _ => Err (json_message s)
      end
  | None => Err (json_message s)
  end.
