(* ===== verification/JsonRoundtrip.v ===== *)
(** [JSON.parse] inverts [JSON.stringify] on JSON data, compact or indented. *)

From S2P Require Import Prelude JsNumber JsValue Json.
Local Open Scope Z_scope.

(** * Decimal digits *)

Definition all_digits (l : jstr) : Prop := Forall (λ c, is_digit c = true) l.

Lemma is_digit_unit d : 0 <= d < 10 → is_digit (digit_unit d) = true.
Proof.
  unfold is_digit, digit_unit. intros. apply andb_true_intro.
  split; apply N.leb_le; lia.
Qed.

Lemma digit_unit_value d : 0 <= d < 10 → Z.of_N (digit_unit d) - 48 = d.
Proof. unfold digit_unit. lia. Qed.

Lemma digits_value_snoc l c : digits_value (l ++ [c]) = 10 * digits_value l + (Z.of_N c - 48).
Proof. unfold digits_value. by rewrite fold_left_app. Qed.

Lemma digits_value_zeros l n :
  digits_value (l ++ replicate n 48%N) = digits_value l * 10 ^ Z.of_nat n.
Proof.
  induction n as [|n IH]; [rewrite app_nil_r; simpl; lia|].
  rewrite replicate_S_end, app_assoc, digits_value_snoc, IH.
  rewrite Nat2Z.inj_succ, Z.pow_succ_r by lia. simpl; lia.
Qed.

Lemma digits_value_zeros_l n l : digits_value (replicate n 48%N ++ l) = digits_value l.
Proof. induction n as [|n IH]; [done|]. simpl. unfold digits_value in *. simpl. done. Qed.

(** What [digits_aux] puts in front of its accumulator. *)
Lemma digits_aux_spec fuel z acc :
  0 <= z < 2 ^ Z.of_nat fuel → (0 < fuel)%nat →
  ∃ ds, digits_aux fuel z acc = ds ++ acc ∧ all_digits ds ∧ digits_value ds = z
        ∧ ds ≠ [] ∧ (z > 0 → ∀ c l, ds = c :: l → c ≠ 48%N) ∧ (z = 0 → ds = [48%N]).
Proof.
  revert z acc. induction fuel as [|fuel IH]; intros z acc Hz Hf; [lia|].
  cbn [digits_aux]. destruct (Z.ltb_spec z 10) as [Hlt|Hge].
  - exists [digit_unit (z mod 10)]. rewrite Z.mod_small by lia. split_and!; try done.
    + constructor; [apply is_digit_unit; lia|constructor].
    + unfold digits_value; simpl. rewrite digit_unit_value; lia.
    + intros Hp c l [= <- <-]. unfold digit_unit. lia.
    + intros ->. done.
  - rewrite Nat2Z.inj_succ, Z.pow_succ_r in Hz by lia.
    assert (0 < fuel)%nat by (destruct fuel; simpl in *; lia).
    destruct (IH (z / 10) (digit_unit (z mod 10) :: acc)) as (ds & E & Hd & Hv & Hne & Hh & _);
      [split; [apply Z.div_pos; lia|apply Z.div_lt_upper_bound; lia]|done|].
    exists (ds ++ [digit_unit (z mod 10)]). split_and!.
    + rewrite E, <- app_assoc. done.
    + apply Forall_app; split; [done|]. constructor; [|constructor].
      apply is_digit_unit, Z.mod_pos_bound; lia.
    + rewrite digits_value_snoc, Hv, digit_unit_value by (apply Z.mod_pos_bound; lia).
      pose proof (Z.div_mod z 10). lia.
    + by destruct ds.
    + intros _ c l Heq. destruct ds as [|c' ds]; [done|]. injection Heq as <- _.
      eapply Hh; [|done]. assert (1 <= z / 10) by (apply Z.div_le_lower_bound; lia). lia.
    + lia.
Qed.

Lemma Z_digits_spec z :
  0 <= z →
  all_digits (Z_digits z) ∧ digits_value (Z_digits z) = z ∧ Z_digits z ≠ []
  ∧ (z > 0 → ∀ c l, Z_digits z = c :: l → c ≠ 48%N) ∧ (z = 0 → Z_digits z = [48%N]).
Proof.
  intros Hz. unfold Z_digits.
  assert (0 <= Z.log2 z) by apply Z.log2_nonneg.
  destruct (digits_aux_spec (Z.to_nat (Z.log2 z + 1)) z []) as (ds & E & ?); [|lia|].
  - rewrite Z2Nat.id by lia. split; [done|]. destruct (decide (z = 0)) as [->|]; [done|].
    pose proof (Z.log2_spec z). rewrite <- Z.add_1_r in *. lia.
  - rewrite app_nil_r in E. by rewrite E.
Qed.

(** * Canonical decimals *)

Lemma strip10_spec fuel s q :
  0 < s < 2 ^ Z.of_nat fuel →
  ∃ s' j, strip10 fuel s q = (s', q + j) ∧ 0 <= j ∧ s = s' * 10 ^ j ∧ 0 < s' ∧ s' mod 10 ≠ 0.
Proof.
  revert s q. induction fuel as [|fuel IH]; intros s q Hs; [simpl in Hs; lia|].
  cbn [strip10]. destruct (Z.eqb_spec (s mod 10) 0) as [Hm|Hm].
  - rewrite Nat2Z.inj_succ, Z.pow_succ_r in Hs by lia.
    pose proof (Z.div_mod s 10 ltac:(lia)) as Hdm.
    destruct (IH (s / 10) (q + 1)) as (s' & j & E & Hj & Hv & Hp & Hn); [lia|].
    exists s', (j + 1). rewrite E. split_and!; try done; [f_equal; lia|lia|].
    rewrite Z.pow_add_r by lia. lia.
  - exists s, 0. rewrite Z.add_0_r. split_and!; try done; lia.
Qed.

Lemma canon10_spec s q :
  0 < s → ∃ s' j, canon10 s q = (s', q + j) ∧ 0 <= j ∧ s = s' * 10 ^ j ∧ 0 < s' ∧ s' mod 10 ≠ 0.
Proof.
  intros Hs. apply strip10_spec. pose proof (Z.log2_nonneg s).
  rewrite Z2Nat.id by lia. rewrite Z.add_1_r. pose proof (Z.log2_spec s). lia.
Qed.

(** A canonical decimal is determined by its value. *)
Lemma canon_unique s1 s2 j1 j2 :
  0 <= j1 → 0 <= j2 → s1 mod 10 ≠ 0 → s2 mod 10 ≠ 0 →
  s1 * 10 ^ j1 = s2 * 10 ^ j2 → s1 = s2 ∧ j1 = j2.
Proof.
  assert (Hle : ∀ s1 s2 j1 j2, 0 <= j1 → j1 <= j2 → s1 mod 10 ≠ 0 →
            s1 * 10 ^ j1 = s2 * 10 ^ j2 → s1 = s2 ∧ j1 = j2).
  { intros a b i k Hi Hik Ha E. replace k with ((k - i) + i) in E by lia.
    rewrite Z.pow_add_r, Z.mul_assoc in E by lia.
    apply Z.mul_reg_r in E; [|pose proof (Z.pow_pos_nonneg 10 i); lia].
    destruct (decide (k = i)) as [->|Hne].
    { rewrite Z.sub_diag in E. simpl in E. lia. }
    exfalso. apply Ha. rewrite E. replace (k - i) with (1 + (k - i - 1)) by lia.
    rewrite Z.pow_add_r, Z.pow_1_r by lia.
    replace (b * (10 * 10 ^ (k - i - 1))) with (b * 10 ^ (k - i - 1) * 10) by lia.
    apply Z_mod_mult. }
  intros H1 H2 Hs1 Hs2 E. destruct (Z.le_ge_cases j1 j2).
  - by apply Hle.
  - destruct (Hle s2 s1 j2 j1); auto.
Qed.

Lemma canon10_scale s q j : 0 < s → 0 <= j → canon10 (s * 10 ^ j) q = canon10 s (q + j).
Proof.
  intros Hs Hj. pose proof (Z.pow_pos_nonneg 10 j ltac:(lia) ltac:(lia)).
  destruct (canon10_spec s (q + j)) as (s1 & j1 & -> & ? & E1 & ? & ?); [done|].
  destruct (canon10_spec (s * 10 ^ j) q) as (s2 & j2 & -> & ? & E2 & ? & ?); [lia|].
  destruct (canon_unique s1 s2 (j1 + j) j2) as [-> <-]; try done; [lia| |].
  - rewrite Z.pow_add_r by lia. rewrite <- E2, E1 at 1. lia.
  - f_equal. lia.
Qed.

Lemma canon10_idem s q s' q' : 0 < s → canon10 s q = (s', q') → canon10 s' q' = (s', q').
Proof.
  intros Hs E. destruct (canon10_spec s q) as (s1 & j1 & E1 & ? & Hv & ? & ?); [done|].
  rewrite E1 in E. injection E as <- <-.
  destruct (canon10_spec s1 (q + j1)) as (s2 & j2 & -> & ? & Hv2 & ? & ?); [done|].
  destruct (canon_unique s1 s2 0 j2) as [-> <-]; try done; try lia. f_equal. lia.
Qed.

(** The value of a literal does not depend on how it writes its zeros. *)
Lemma dec_to_num_scale neg s q j :
  0 < s → 0 <= j → dec_to_num neg (s * 10 ^ j) q = dec_to_num neg s (q + j).
Proof.
  intros Hs Hj. pose proof (Z.pow_pos_nonneg 10 j ltac:(lia) ltac:(lia)).
  unfold dec_to_num. rewrite canon10_scale by done.
  destruct (Z.eqb_spec s 0), (Z.eqb_spec (s * 10 ^ j) 0); try lia. done.
Qed.

Lemma dec_to_num_canon neg s q s' q' :
  0 < s → canon10 s q = (s', q') → dec_to_num neg s' q' = dec_to_num neg s q ∧ 0 < s'.
Proof.
  intros Hs E. pose proof (canon10_idem _ _ _ _ Hs E) as E'.
  destruct (canon10_spec s q) as (s1 & j1 & E1 & ? & ? & ? & ?); [done|].
  rewrite E1 in E. injection E as <- <-. split; [|done].
  unfold dec_to_num. rewrite E1, E'.
  destruct (Z.eqb_spec s 0), (Z.eqb_spec s1 0); try lia. done.
Qed.

(** Rounding is symmetric in the sign. *)
Lemma binary_round_aux_sign m e l :
  binary_round_aux prec emax true m e l = SFopp (binary_round_aux prec emax false m e l).
Proof.
  unfold binary_round_aux. destruct (shr_fexp prec emax m e l) as [mrs e1].
  destruct (shr_fexp prec emax _ e1 loc_Exact) as [mrs' e2].
  destruct (shr_m mrs'); try done. by case_match.
Qed.

Lemma dec_to_num_sign s q : dec_to_num true s q = SFopp (dec_to_num false s q).
Proof.
  unfold dec_to_num. destruct (s =? 0); [done|]. destruct (canon10 s q) as [s' q'].
  do 2 (case_match; [done|]). case_match.
  - unfold binary_round. destruct (shl_align _ _ _). apply binary_round_aux_sign.
  - destruct (SFdiv_core_binary _ _ _ _ _ _) as [[??]?]. apply binary_round_aux_sign.
Qed.

Lemma SFeqb_finite x s m e : SFeqb x (S754_finite s m e) = true → x = S754_finite s m e.
Proof.
  unfold SFeqb, SFcompare. destruct x as [| | |s' m' e']; try by destruct s.
  { by destruct s0. }
  destruct s', s; try done.
  - destruct (Z.compare_spec e' e); try done. subst.
    destruct (Pos.compare_cont Eq m' m) eqn:E; try done.
    change (Pos.compare_cont Eq m' m) with (Pos.compare m' m) in E.
    apply Pos.compare_eq in E. by subst.
  - destruct (Z.compare_spec e' e); try done. subst.
    destruct (Pos.compare_cont Eq m' m) eqn:E; try done.
    change (Pos.compare_cont Eq m' m) with (Pos.compare m' m) in E.
    apply Pos.compare_eq in E. by subst.
Qed.

(** * Numbers *)

Lemma frac_of_pos m e nu de : 0 < m → frac_of m e = (nu, de) → 0 < nu ∧ 0 < de.
Proof.
  unfold frac_of. intros Hm. case_match eqn:Hle; intros [= <- <-].
  - apply Z.leb_le in Hle. pose proof (Z.pow_pos_nonneg 2 e). lia.
  - apply Z.leb_gt in Hle. pose proof (Z.pow_pos_nonneg 2 (- e)). lia.
Qed.

Lemma candidate_spec x nu de n k s q :
  0 < nu → 0 < de → candidate x nu de n k = Some (s, q) →
  0 < s ∧ SFeqb (dec_to_num false s q) x = true.
Proof.
  intros Hnu Hde. unfold candidate. destruct (scaled nu de (n - k)) as [t c] eqn:Hs.
  assert (0 <= t).
  { unfold scaled in Hs. destruct (Z.leb_spec 0 (n - k)); injection Hs as <- _.
    - apply Z.div_pos; [lia|]. pose proof (Z.pow_pos_nonneg 10 (n - k)). nia.
    - apply Z.div_pos; [|done]. pose proof (Z.pow_pos_nonneg 10 (- (n - k))). nia. }
  destruct (0 <? t) eqn:Ht; simpl;
    destruct (SFeqb (dec_to_num false t (n - k)) x) eqn:E1;
    destruct (SFeqb (dec_to_num false (t + 1) (n - k)) x) eqn:E2;
    try (destruct c); try (destruct (Z.even t)); intros ?; simplify_eq;
    first [apply Z.ltb_lt in Ht | apply Z.ltb_ge in Ht]; (split; [lia|done]).
Qed.

Lemma shortest_spec fuel k x nu de n s q :
  0 < nu → 0 < de → shortest fuel k x nu de n = Some (s, q) →
  0 < s ∧ SFeqb (dec_to_num false s q) x = true.
Proof.
  intros Hnu Hde. revert k. induction fuel as [|fuel IH]; intros k; [done|].
  cbn [shortest]. destruct (candidate x nu de n k) as [[s' q']|] eqn:E; [|apply IH].
  intros [= <- <-]. exact (candidate_spec _ _ _ _ _ _ _ Hnu Hde E).
Qed.

(** The decimal found for a double is positive and rounds back to it. *)
Lemma num_to_dec_spec m e d q :
  num_to_dec m e = Some (d, q) → 0 < d ∧ dec_to_num false d q = S754_finite false m e.
Proof.
  unfold num_to_dec. destruct (frac_of (Z.pos m) e) as [nu de] eqn:Hf.
  apply frac_of_pos in Hf as [Hnu Hde]; [|lia].
  destruct (shortest _ _ _ _ _ _) as [[s0 q0]|] eqn:E; [|done].
  apply shortest_spec in E as [Hs Heq]; try done.
  apply SFeqb_finite in Heq. intros [= Hc].
  destruct (dec_to_num_canon false _ _ _ _ Hs Hc) as [Hd ?]. split; [done|]. by rewrite Hd.
Qed.

(** What may follow a number without extending it. *)
Definition ends_number (rest : jstr) : Prop :=
  match rest with
  | [] => True
  | c :: _ => is_digit c = false ∧ c ≠ 46%N ∧ c ≠ 101%N ∧ c ≠ 69%N
  end.

Definition not_digit (rest : jstr) : Prop :=
  match rest with
  | [] => True
  | c :: _ => is_digit c = false
  end.

Lemma span_digits_app ds rest :
  all_digits ds → not_digit rest → span_digits (ds ++ rest) = (ds, rest).
Proof.
  intros Hd Hr. induction Hd as [|c ds Hc Hd IH]; simpl.
  - destruct rest as [|c r]; [done|]. simpl in *. by rewrite Hr.
  - by rewrite Hc, IH.
Qed.

Lemma scan_exponent_none rest : ends_number rest → scan_exponent rest = Some (0, rest).
Proof.
  unfold scan_exponent. destruct rest as [|c r]; [done|]. intros (_ & _ & H1 & H2).
  repeat (case_match; simplify_eq; try done).
Qed.

Lemma scan_exponent_some e rest :
  ends_number rest →
  scan_exponent ((if e <? 0 then u "e-" else u "e+") ++ Z_digits (Z.abs e) ++ rest)
  = Some (e, rest).
Proof.
  intros Hr. destruct (Z_digits_spec (Z.abs e)) as (Hd & Hv & Hne & _); [lia|].
  assert (not_digit rest) by (destruct rest; simpl in *; naive_solver).
  destruct (Z.ltb_spec e 0); simpl; rewrite span_digits_app by done;
    (destruct (Z_digits (Z.abs e)) eqn:E; [done|]); do 2 f_equal; lia.
Qed.

Lemma ends_number_digit_free rest : ends_number rest → not_digit rest.
Proof. destruct rest; simpl; naive_solver. Qed.
#[local] Hint Resolve ends_number_digit_free : core.

(** Parsing the digits, the fraction and the exponent of a number. *)
Lemma parse_unsigned_plain neg ip rest :
  all_digits ip → int_part_ok ip = true → ends_number rest →
  parse_unsigned neg (ip ++ rest) = Some (dec_to_num neg (digits_value ip) 0, rest).
Proof.
  intros Hd Hok Hr. unfold parse_unsigned. rewrite span_digits_app by auto. rewrite Hok.
  assert (parse_fraction rest = Some ([], rest)) as ->.
  { unfold parse_fraction. destruct rest as [|c r]; [done|]. simpl in Hr.
    repeat (case_match; simplify_eq; try done); naive_solver. }
  rewrite scan_exponent_none by done. by rewrite app_nil_r.
Qed.

Lemma parse_unsigned_frac neg ip fp ex e rest :
  all_digits ip → int_part_ok ip = true → all_digits fp → fp ≠ [] →
  not_digit (ex ++ rest) → scan_exponent (ex ++ rest) = Some (e, rest) →
  parse_unsigned neg (ip ++ u "." ++ fp ++ ex ++ rest)
  = Some (dec_to_num neg (digits_value (ip ++ fp)) (e - Z.of_nat (length fp)), rest).
Proof.
  intros Hd Hok Hf Hne Hnd Hex. unfold parse_unsigned.
  rewrite span_digits_app by done. rewrite Hok. unfold parse_fraction.
  change (u "." ++ fp ++ ex ++ rest) with (46%N :: (fp ++ ex ++ rest)). cbv iota.
  rewrite span_digits_app by done. destruct fp; [done|]. by rewrite Hex.
Qed.

Lemma parse_unsigned_exp neg c ex e rest :
  is_digit c = true → not_digit (ex ++ rest) → parse_fraction (ex ++ rest) = Some ([], ex ++ rest) →
  scan_exponent (ex ++ rest) = Some (e, rest) →
  parse_unsigned neg (c :: ex ++ rest) = Some (dec_to_num neg (digits_value [c]) e, rest).
Proof.
  intros Hd Hnd Hf Hex. unfold parse_unsigned. change (c :: ex ++ rest) with ([c] ++ (ex ++ rest)).
  rewrite span_digits_app by (try done; by constructor). simpl int_part_ok. cbv iota.
  rewrite Hf, Hex. by rewrite app_nil_r, Z.sub_0_r.
Qed.

Lemma int_part_ok_digits c l : c ≠ 48%N → int_part_ok (c :: l) = true.
Proof. intros Hc. destruct l; simpl; [done|]. by apply negb_true_iff, N.eqb_neq. Qed.

Lemma all_digits_zeros n : all_digits (replicate n 48%N).
Proof. apply Forall_replicate. done. Qed.
#[local] Hint Resolve all_digits_zeros : core.

Lemma all_digits_app l1 l2 : all_digits l1 → all_digits l2 → all_digits (l1 ++ l2).
Proof. intros. by apply Forall_app. Qed.
#[local] Hint Resolve all_digits_app : core.

Definition exponent_text (e : Z) : jstr := (if e <? 0 then u "e-" else u "e+") ++ Z_digits (Z.abs e).

Lemma exponent_text_scan e rest :
  ends_number rest →
  not_digit (exponent_text e ++ rest) ∧
  parse_fraction (exponent_text e ++ rest) = Some ([], exponent_text e ++ rest) ∧
  scan_exponent (exponent_text e ++ rest) = Some (e, rest).
Proof.
  intros Hr. unfold exponent_text. rewrite <- app_assoc, scan_exponent_some by done.
  by destruct (e <? 0).
Qed.

(** The four layouts of a number parse back to the value they print. *)
Lemma parse_layout neg d q rest :
  0 < d → ends_number rest →
  parse_unsigned neg (layout d q ++ rest) = Some (dec_to_num neg d q, rest).
Proof.
  intros Hd Hr. destruct (Z_digits_spec d) as (Had & Hv & Hne & Hhead & _); [lia|].
  unfold layout. set (ds := Z_digits d) in *.
  remember (Z.of_nat (length ds)) as k eqn:Hk. remember (k + q) as n eqn:Hn.
  fold (exponent_text (n - 1)).
  destruct (exponent_text_scan (n - 1) rest Hr) as (Hx1 & Hx2 & Hx3).
  destruct ds as [|c ds'] eqn:Eds; [done|]. rewrite <- Eds in *.
  assert (c ≠ 48%N) by (eapply Hhead; [lia|done]).
  destruct ((k <=? n) && (n <=? 21)) eqn:HA; [|destruct ((0 <? n) && (n <=? 21)) eqn:HB;
    [|destruct ((-6 <? n) && (n <=? 0)) eqn:HC]].
  - apply andb_true_iff in HA as [HA _]. apply Z.leb_le in HA.
    rewrite parse_unsigned_plain; auto.
    + rewrite digits_value_zeros, Hv, dec_to_num_scale by lia. do 2 f_equal. f_equal. lia.
    + rewrite Eds. by apply int_part_ok_digits.
  - apply andb_true_iff in HB as [HB HB2]. apply Z.ltb_lt in HB. apply Z.leb_le in HB2.
    apply andb_false_iff in HA.
    assert (n < k) by (destruct HA as [HA|HA]; apply Z.leb_gt in HA; lia).
    pose proof (parse_unsigned_frac neg (take (Z.to_nat n) ds) (drop (Z.to_nat n) ds) [] 0 rest) as P.
    rewrite app_nil_l in P. rewrite <- !app_assoc. rewrite P; clear P; auto.
    + rewrite take_drop, Hv, length_drop. do 2 f_equal. f_equal. lia.
    + by apply Forall_take.
    + replace (Z.to_nat n) with (S (Z.to_nat (n - 1))) by lia. rewrite Eds.
      by apply int_part_ok_digits.
    + by apply Forall_drop.
    + intros E%(f_equal length). rewrite length_drop in E. simpl in E. lia.
    + simpl. by apply scan_exponent_none.
  - apply andb_true_iff in HC as [_ HC]. apply Z.leb_le in HC.
    change (u "0.") with ([48%N] ++ u "."). rewrite <- !app_assoc.
    pose proof (parse_unsigned_frac neg [48%N] (replicate (Z.to_nat (- n)) 48%N ++ ds) [] 0 rest) as P.
    rewrite app_nil_l, <- !app_assoc in P. rewrite P; clear P; auto.
    + change [48%N] with (replicate 1 48%N). rewrite !digits_value_zeros_l, Hv.
      rewrite length_app, length_replicate. do 3 f_equal. lia.
    + by constructor.
    + intros E%(f_equal length). rewrite length_app in E. rewrite Eds in E. simpl in E. lia.
    + simpl. by apply scan_exponent_none.
  - assert (all_digits (c :: ds')) as Hcd by (by rewrite <- Eds).
    inversion_clear Hcd as [|? ? Hc Hds'].
    destruct ds' as [|c' ds'].
    + change (([c] ++ exponent_text (n - 1)) ++ rest) with (c :: exponent_text (n - 1) ++ rest).
      rewrite parse_unsigned_exp with (e := n - 1) by done. rewrite <- Eds, Hv. do 3 f_equal.
      rewrite Hn, Hk, Eds. simpl. lia.
    + rewrite <- !app_assoc.
      rewrite parse_unsigned_frac with (e := n - 1); try done.
      * rewrite <- app_comm_cons. simpl app. rewrite <- Eds, Hv. do 3 f_equal.
        rewrite Hn, Hk, Eds. simpl. lia.
      * by constructor.
Qed.

(** A number whose printing succeeds: every finite one except [-0], which
    prints as [0]. *)
Definition num_printable (n : num) : bool :=
  match n with
  | S754_zero s => negb s
  | S754_finite _ m e =>
      match num_to_dec m e with
      | Some _ => true
      | None => false
      end
  | _ => false
  end.

Lemma layout_head d q : 0 < d → ∃ c l, layout d q = c :: l ∧ is_digit c = true.
Proof.
  intros Hd. destruct (Z_digits_spec d) as (Had & _ & Hne & _); [lia|].
  unfold layout. destruct (Z_digits d) as [|c l]; [done|]. inversion_clear Had as [|? ? Hc Hl].
  repeat case_match; simpl; try by eauto.
  destruct (Z.to_nat _) eqn:E; simpl; [|by eauto].
  repeat match goal with H : _ && _ = true |- _ => apply andb_true_iff in H as [? ?] end.
  cbn [length] in *.
  repeat match goal with H : (_ <? _) = true |- _ => apply Z.ltb_lt in H end. lia.
Qed.

Lemma parse_number_print n rest :
  num_printable n = true → ends_number rest →
  is_finite n = true ∧ parse_number (num_to_jstr n ++ rest) = Some (n, rest) ∧
  ∃ c l, num_to_jstr n = c :: l ∧ (is_digit c = true ∨ c = 45%N).
Proof.
  intros Hp Hr. destruct n as [s| | |s m e]; try done.
  - destruct s; [done|]. split_and!; [done| |by eexists _, _; eauto].
    unfold parse_number. change (num_to_jstr (S754_zero false)) with [48%N].
    change ([48%N] ++ rest) with (48%N :: rest). cbv iota.
    change (48%N :: rest) with ([48%N] ++ rest).
    rewrite parse_unsigned_plain; [done|by constructor|done|done].
  - simpl in Hp |- *. destruct (num_to_dec m e) as [[d q]|] eqn:E; [|done].
    apply num_to_dec_spec in E as [Hd Hv]. split; [done|].
    destruct (layout_head d q Hd) as (c & l & Hl & Hc). destruct s.
    + split; [|by eexists _, _; eauto]. simpl. rewrite parse_layout by done.
      by rewrite dec_to_num_sign, Hv.
    + rewrite app_nil_l. split; [|by eexists _, _; eauto].
      rewrite <- Hv, <- (parse_layout false d q rest) by done. rewrite Hl. simpl.
      unfold parse_number. destruct (decide (c = 45%N)) as [->|Hne]; [done|].
      repeat (case_match; try done); by simplify_eq.
Qed.

(** * Strings *)

Lemma hex_value_unit d : (d < 16)%N → hex_value (hex_unit d) = Some d.
Proof.
  intros Hd. destruct d as [|p]; [done|].
  do 4 (destruct p as [p|p|]; try done); lia.
Qed.

Lemma parse_u_escape c s : (c < 65536)%N → parse_chars (u_escape c ++ s) = cons_fst c (parse_chars s).
Proof.
  intros Hc. unfold u_escape. simpl. unfold hex4.
  rewrite !hex_value_unit by (apply N.mod_lt; done). do 2 f_equal.
  pose proof (N.div_mod c 4096). pose proof (N.div_mod c 256). pose proof (N.div_mod c 16).
  assert (c / 4096 < 16)%N by (apply N.Div0.div_lt_upper_bound; lia).
  rewrite (N.mod_small (c / 4096)) by done.
  pose proof (N.div_mod (c / 16) 16). pose proof (N.div_mod (c / 256) 16).
  rewrite N.Div0.div_div in *. change (16 * 16)%N with 256%N in *. change (256 * 16)%N with 4096%N in *.
  lia.
Qed.

Lemma parse_quote_unit c s : parse_chars (quote_unit c ++ s) = cons_fst c (parse_chars s).
Proof.
  unfold quote_unit.
  destruct ((c <? 32)%N || is_high c || is_low c) eqn:Hesc.
  - assert (c < 65536)%N.
    { unfold is_high, is_low in Hesc. rewrite !orb_true_iff, !andb_true_iff in Hesc.
      rewrite !N.leb_le, !N.ltb_lt in Hesc. lia. }
    repeat (case_match; try by apply parse_u_escape); done.
  - rewrite !orb_false_iff in Hesc. destruct Hesc as [[Hlt _] _]. apply N.ltb_ge in Hlt.
    destruct (decide (c = 34%N)) as [->|]; [done|]. destruct (decide (c = 92%N)) as [->|]; [done|].
    assert (parse_chars ([c] ++ s) = cons_fst c (parse_chars s)) as Hraw.
    { simpl. rewrite !(proj2 (N.eqb_neq _ _)), (proj2 (N.ltb_ge _ _)) by done. done. }
    repeat (case_match; try exact Hraw); simplify_eq; lia.
Qed.

Lemma parse_raw c s : is_high c = true ∨ is_low c = true →
  parse_chars (c :: s) = cons_fst c (parse_chars s).
Proof.
  unfold is_high, is_low. rewrite !andb_true_iff, !N.leb_le. intros Hc. simpl.
  rewrite !(proj2 (N.eqb_neq _ _)), (proj2 (N.ltb_ge _ _)) by lia. done.
Qed.

(** A quoted string parses back to its code units. *)
Lemma parse_quote_units_aux n s rest :
  (length s <= n)%nat → parse_chars (quote_units s ++ 34%N :: rest) = Some (s, rest).
Proof.
  revert s. induction n as [|n IH]; intros s Hn; destruct s as [|c s]; try done; [simpl in Hn; lia|].
  simpl in Hn. destruct s as [|d s].
  { simpl. by rewrite parse_quote_unit. }
  assert (IHs : parse_chars (quote_units s ++ 34%N :: rest) = Some (s, rest))
    by (apply IH; simpl in *; lia).
  assert (IHd : parse_chars (quote_units (d :: s) ++ 34%N :: rest) = Some (d :: s, rest))
    by (apply IH; simpl in *; lia).
  change (quote_units (c :: d :: s)) with
    (if is_high c && is_low d then c :: d :: quote_units s
     else quote_unit c ++ quote_units (d :: s)).
  destruct (is_high c && is_low d) eqn:Hp.
  - apply andb_true_iff in Hp as [Hh Hl].
    rewrite <- !app_comm_cons, !parse_raw, IHs by auto. done.
  - rewrite <- app_assoc, parse_quote_unit, IHd. done.
Qed.

Lemma parse_quote s rest : parse_chars (quote_units s ++ [34%N] ++ rest) = Some (s, rest).
Proof. by apply (parse_quote_units_aux (length s)). Qed.

(** * Values *)

(** JSON data that prints and parses back: printable numbers, and objects
    whose properties are in enumeration order without duplicates. *)
Fixpoint json_ok (v : jsval) : Prop :=
  match v with
  | JUndef | JFun _ => False
  | JNull | JBool _ | JStr _ => True
  | JNum n => num_printable n = true
  | JArr l =>
      (fix all (l : list jsval) : Prop :=
         match l with
         | [] => True
         | v :: l => json_ok v ∧ all l
         end) l
  | JObj l =>
      make_obj l = l ∧
      (fix all (l : list (jstr * jsval)) : Prop :=
         match l with
         | [] => True
         | (_, v) :: l => json_ok v ∧ all l
         end) l
  end.

Lemma json_ok_arr l : json_ok (JArr l) ↔ Forall json_ok l.
Proof. induction l as [|v l IH]; simpl in *; [done|]. rewrite list.Forall_cons, <- IH. done. Qed.

Lemma json_ok_obj l : json_ok (JObj l) ↔ make_obj l = l ∧ Forall (λ kv, json_ok kv.2) l.
Proof.
  simpl. apply and_iff_compat_l. induction l as [|[k v] l IH]; [done|].
  rewrite list.Forall_cons, <- IH. done.
Qed.

(** The depth of parser calls a value needs. *)
Fixpoint cost (v : jsval) : nat :=
  match v with
  | JArr l => S (sum_list (map (λ v, S (cost v)) l))
  | JObj l => S (sum_list (map (λ kv, S (cost kv.2)) l))
  | _ => 1
  end.

Definition text (gap ind : jstr) (v : jsval) : jstr := default [] (serialize gap ind v).

Definition colon (gap : jstr) : jstr := match gap with [] => u ":" | _ => u ": " end.

Definition member_text (gap ind : jstr) (kv : jstr * jsval) : jstr :=
  quote kv.1 ++ colon gap ++ text gap ind kv.2.

Lemma serialize_text gap ind v : json_ok v → serialize gap ind v = Some (text gap ind v).
Proof. by destruct v. Qed.

Lemma text_arr gap ind l :
  Forall json_ok l →
  text gap ind (JArr l) = bracket 91 93 gap ind (map (text gap (ind ++ gap)) l).
Proof.
  intros Hl. unfold text at 1. simpl. f_equal.
  induction Hl as [|v l Hv Hl IH]; simpl; [done|]. by rewrite serialize_text, IH.
Qed.

Lemma text_obj gap ind l :
  Forall (λ kv, json_ok kv.2) l →
  text gap ind (JObj l) = bracket 123 125 gap ind (map (member_text gap (ind ++ gap)) l).
Proof.
  intros Hl. unfold text at 1. simpl. f_equal. fold (colon gap).
  induction Hl as [|kv l Hv Hl IH]; simpl; [done|]. rewrite serialize_text by done. simpl.
  by rewrite IH.
Qed.

Definition ws_only (s : jstr) : Prop := Forall (λ c, is_ws c = true) s.

Lemma skip_ws_app w s : ws_only w → skip_ws (w ++ s) = skip_ws s.
Proof. induction 1 as [|c w Hc Hw IH]; simpl; [done|]. by rewrite Hc. Qed.

Lemma ws_only_app s1 s2 : ws_only s1 → ws_only s2 → ws_only (s1 ++ s2).
Proof. intros. by apply Forall_app. Qed.

Lemma ws_only_newline gap ind : ws_only ind → ws_only (newline gap ind).
Proof. intros. destruct gap; [constructor|]. by constructor. Qed.
#[local] Hint Resolve ws_only_app ws_only_newline : core.

(** The first character of a value's text. *)
Definition starts_value (s : jstr) : Prop :=
  ∃ c t, s = c :: t ∧ is_ws c = false ∧ c ≠ 93%N ∧ c ≠ 125%N.

Lemma skip_ws_start s rest : starts_value s → skip_ws (s ++ rest) = s ++ rest.
Proof. intros (c & t & -> & Hc & _). simpl. by rewrite Hc. Qed.

Lemma is_ws_digit c : is_digit c = true → is_ws c = false ∧ (48 <= c <= 57)%N.
Proof.
  unfold is_digit, is_ws. rewrite andb_true_iff, !N.leb_le, !orb_false_iff, !N.eqb_neq. lia.
Qed.

Lemma text_starts gap ind v : json_ok v → starts_value (text gap ind v).
Proof.
  unfold starts_value. destruct v as [| |b|n|s|l|l|]; try done; unfold text; simpl; intros Hok.
  - by eexists _, _.
  - destruct b; by eexists _, _.
  - destruct (parse_number_print n [] Hok I) as (-> & _ & c & t & -> & Hc).
    exists c, t. split_and!; try done.
    all: destruct Hc as [[? ?]%is_ws_digit| ->]; [done || lia|done].
  - by eexists _, _.
  - destruct l; by eexists _, _.
  - unfold bracket. case_match; by eexists _, _.
Qed.

Lemma parse_value_skip fuel w s : ws_only w → parse_value fuel (w ++ s) = parse_value fuel s.
Proof. intros Hw. destruct fuel; [done|]. cbn [parse_value]. by rewrite skip_ws_app. Qed.

Lemma parse_value_number fuel c t :
  (is_digit c = true ∨ c = 45%N) →
  parse_value (S fuel) (c :: t) =
  match parse_number (c :: t) with
  | Some (n, rest) => Some (JNum n, rest)
  | None => None
  end.
Proof.
  intros Hc. assert (is_ws c = false ∧ (48 <= c <= 57 ∨ c = 45)%N) as [Hw Hr].
  { destruct Hc as [[? ?]%is_ws_digit| ->]; auto. }
  cbn [parse_value]. cbn [skip_ws]. rewrite Hw.
  rewrite !(proj2 (N.eqb_neq _ _)) by lia.
  rewrite !bool_decide_false; [done|..]; intros [k Hk]; simpl in Hk; injection Hk; lia.
Qed.

(** The round trip of one value in any context that does not extend it. *)
Definition roundtrips (v : jsval) : Prop :=
  ∀ gap ind fuel rest,
    ws_only gap → ws_only ind → json_ok v → (cost v <= fuel)%nat → ends_number rest →
    parse_value fuel (text gap ind v ++ rest) = Some (v, rest).

Lemma ends_number_ws w c rest : ws_only w → ends_number (c :: rest) → ends_number (w ++ c :: rest).
Proof.
  intros Hw Hc. destruct Hw as [|d w Hd Hw]; [done|]. simpl.
  unfold is_ws in Hd. rewrite !orb_true_iff, !N.eqb_eq in Hd.
  destruct Hd as [[[->| ->]| ->]| ->]; done.
Qed.

Lemma intersperse_cons sep x y l :
  intersperse sep (x :: y :: l) = x ++ sep ++ intersperse sep (y :: l).
Proof. done. Qed.

Lemma parse_elems_text l gap ind w w' fuel rest :
  Forall roundtrips l → l ≠ [] → Forall json_ok l →
  ws_only gap → ws_only ind → ws_only w → ws_only w' →
  (sum_list (map (λ v, S (cost v)) l) <= fuel)%nat →
  parse_elems fuel (intersperse ([44%N] ++ w) (map (text gap ind) l) ++ w' ++ 93%N :: rest)
  = Some (l, rest).
Proof.
  intros Hrt Hne Hok Hg Hi Hw Hw'. revert fuel.
  induction Hrt as [|v l Hv Hrt IH]; [done|]. inversion_clear Hok as [|? ? Hokv Hokl].
  intros fuel Hf. simpl in Hf. destruct fuel as [|fuel]; [lia|]. cbn [parse_elems].
  destruct l as [|v' l].
  - simpl. rewrite Hv; auto; [|lia|apply ends_number_ws; done].
    by rewrite skip_ws_app.
  - rewrite !map_cons, intersperse_cons, <- map_cons, <- !app_assoc.
    rewrite Hv; auto; [|lia|done].
    change (skip_ws ([44%N] ++ w ++ ?x)) with (44%N :: (w ++ x)). cbv iota.
    assert (IHl : parse_elems fuel (w ++ intersperse ([44%N] ++ w) (map (text gap ind) (v' :: l))
                    ++ w' ++ 93%N :: rest) = Some (v' :: l, rest)).
    { destruct fuel as [|fuel]; [simpl in Hf; lia|].
      specialize (IH ltac:(done) Hokl (S fuel) ltac:(simpl in *; lia)).
      cbn [parse_elems] in IH |- *. by rewrite parse_value_skip. }
    by rewrite IHl.
Qed.

Lemma ws_only_colon gap : ∃ w, colon gap = 58%N :: w ∧ ws_only w.
Proof. destruct gap; eexists; (split; [done|]); by repeat constructor. Qed.

Lemma parse_members_text l gap ind w w' fuel rest :
  Forall (λ kv, roundtrips kv.2) l → l ≠ [] → Forall (λ kv, json_ok kv.2) l →
  ws_only gap → ws_only ind → ws_only w → ws_only w' →
  (sum_list (map (λ kv : jstr * jsval, S (cost kv.2)) l) <= fuel)%nat →
  parse_members fuel (intersperse ([44%N] ++ w) (map (member_text gap ind) l) ++ w' ++ 125%N :: rest)
  = Some (l, rest).
Proof.
  intros Hrt Hne Hok Hg Hi Hw Hw'. revert fuel.
  induction Hrt as [|[k v] l Hv Hrt IH]; [done|]. inversion_clear Hok as [|? ? Hokv Hokl].
  intros fuel Hf. simpl in Hf, Hv, Hokv. destruct fuel as [|fuel]; [lia|].
  destruct (ws_only_colon gap) as (wc & Hcol & Hwc).
  assert (Hmember : ∀ t, ends_number t →
    parse_members (S fuel) (member_text gap ind (k, v) ++ t) =
    match skip_ws t with
    | 44%N :: s => match parse_members fuel s with
                   | Some (l, rest) => Some ((k, v) :: l, rest)
                   | None => None
                   end
    | 125%N :: rest => Some ([(k, v)], rest)
    | _ => None
    end).
  { intros t Ht. cbn [parse_members]. unfold member_text, quote. simpl fst. simpl snd.
    rewrite <- !app_assoc, Hcol.
    change (skip_ws ([34%N] ++ ?x)) with (34%N :: x). cbv iota. rewrite parse_quote.
    change (skip_ws ((58%N :: wc) ++ ?x)) with (58%N :: (wc ++ x)). cbv iota.
    rewrite parse_value_skip by done. rewrite Hv; auto. lia. }
  destruct l as [|kv' l].
  - cbn [map intersperse]. rewrite Hmember by (apply ends_number_ws; done).
    by rewrite skip_ws_app.
  - rewrite !map_cons, intersperse_cons, <- map_cons, <- !app_assoc, Hmember by done.
    change (skip_ws ([44%N] ++ w ++ ?x)) with (44%N :: (w ++ x)). cbv iota.
    assert (IHl : parse_members fuel (w ++ intersperse ([44%N] ++ w) (map (member_text gap ind) (kv' :: l))
                    ++ w' ++ 125%N :: rest) = Some (kv' :: l, rest)).
    { destruct fuel as [|fuel]; [simpl in Hf; lia|].
      specialize (IH ltac:(done) Hokl (S fuel) ltac:(simpl in *; lia)).
      cbn [parse_members] in IH |- *. by rewrite skip_ws_app. }
    by rewrite IHl.
Qed.

(** A bracketed list of items that do not start with white space or with the
    closing bracket. *)
Lemma bracket_cons o c gap ind x l rest :
  bracket o c gap ind (x :: l) ++ rest
  = o :: newline gap (ind ++ gap) ++
    (intersperse ([44%N] ++ newline gap (ind ++ gap)) (x :: l) ++ newline gap ind ++ c :: rest).
Proof. unfold bracket. simpl app at 1. by rewrite <- !app_assoc. Qed.

Lemma intersperse_starts sep x l : starts_value x → starts_value (intersperse sep (x :: l)).
Proof.
  intros (c & t & -> & ?). destruct l as [|y l]; [by eexists _, _|].
  rewrite intersperse_cons. by eexists _, _.
Qed.

Lemma member_starts gap ind kv : starts_value (member_text gap ind kv).
Proof. by eexists _, _. Qed.

Lemma roundtrip_value v : roundtrips v.
Proof.
  induction v as [| |b|n|s|l IH|l IH|] using jsval_ind_nested;
    intros gap ind fuel rest Hg Hi Hok Hf Hr; try done;
    (destruct fuel as [|fuel]; [by (simpl in Hf; lia)|]).
  - done.
  - by destruct b.
  - destruct (parse_number_print n rest Hok Hr) as (Hfin & Hp & c & t & Hc & Hd).
    unfold text. simpl serialize. rewrite Hfin. simpl default. rewrite Hc in *.
    rewrite <- app_comm_cons in *. rewrite parse_value_number by done. by rewrite Hp.
  - unfold text. simpl serialize. simpl default. unfold quote. rewrite <- !app_assoc.
    cbn [parse_value]. change (skip_ws ([34%N] ++ ?x)) with (34%N :: x). cbv iota.
    change ((34 =? 34)%N) with true. cbv iota. by rewrite parse_quote.
  - apply json_ok_arr in Hok. rewrite text_arr by done. destruct l as [|v l]; [done|].
    rewrite map_cons, bracket_cons, <- map_cons. cbn [parse_value].
    change (skip_ws (91%N :: ?x)) with (91%N :: x). cbv iota.
    change (91 =? 34)%N with false. change (91 =? 91)%N with true. cbv iota.
    rewrite skip_ws_app by auto.
    assert (Hs : starts_value (intersperse ([44%N] ++ newline gap (ind ++ gap))
                   (map (text gap (ind ++ gap)) (v :: l)))).
    { apply intersperse_starts, text_starts. by inversion_clear Hok. }
    rewrite skip_ws_start by done. destruct Hs as (c & t & Et & _ & Hne & _).
    pose proof (parse_elems_text (v :: l) gap (ind ++ gap) (newline gap (ind ++ gap))
      (newline gap ind) fuel rest IH ltac:(done) Hok Hg ltac:(auto) ltac:(auto) ltac:(auto)
      ltac:(simpl in *; lia)) as P.
    rewrite Et, <- app_comm_cons in P |- *.
    repeat (case_match; simplify_eq; try done).
  - apply json_ok_obj in Hok as [Hmk Hok]. rewrite text_obj by done. destruct l as [|v l]; [done|].
    rewrite map_cons, bracket_cons, <- map_cons. cbn [parse_value].
    change (skip_ws (123%N :: ?x)) with (123%N :: x). cbv iota.
    change (123 =? 34)%N with false. change (123 =? 91)%N with false.
    change (123 =? 123)%N with true. cbv iota.
    rewrite skip_ws_app by auto.
    assert (Hs : starts_value (intersperse ([44%N] ++ newline gap (ind ++ gap))
                   (map (member_text gap (ind ++ gap)) (v :: l)))).
    { apply intersperse_starts, member_starts. }
    rewrite skip_ws_start by done. destruct Hs as (c & t & Et & _ & _ & Hne).
    pose proof (parse_members_text (v :: l) gap (ind ++ gap) (newline gap (ind ++ gap))
      (newline gap ind) fuel rest IH ltac:(done) Hok Hg ltac:(auto) ltac:(auto) ltac:(auto)
      ltac:(simpl in *; lia)) as P.
    rewrite Et, <- app_comm_cons in P |- *.
    repeat (case_match; simplify_eq; try done); by rewrite Hmk.
Qed.

(** The text of a value is at least as long as the fuel its parse takes. *)
Lemma intersperse_length (sep : jstr) (xs : list jstr) (ns : list nat) :
  sep ≠ [] → Forall2 (λ x n, n <= length x)%nat xs ns → xs ≠ [] →
  (sum_list (map S ns) <= S (length (intersperse sep xs)))%nat.
Proof.
  intros Hsep. induction 1 as [|x n xs ns Hx HF IH]; [done|]. intros _.
  destruct HF as [|y m xs ns Hy HF]; [simpl; lia|].
  rewrite intersperse_cons, !length_app. specialize (IH ltac:(done)).
  destruct sep; [done|]. simpl in *. lia.
Qed.

Lemma bracket_length o c gap ind (xs : list jstr) (ns : list nat) :
  Forall2 (λ x n, n <= length x)%nat xs ns →
  (S (sum_list (map S ns)) <= length (bracket o c gap ind xs))%nat.
Proof.
  intros HF. unfold bracket. destruct HF as [|x n xs ns Hx HF]; [simpl; lia|].
  pose proof (intersperse_length ([44%N] ++ newline gap (ind ++ gap)) (x :: xs) (n :: ns)
    ltac:(done) ltac:(by constructor) ltac:(done)).
  rewrite !length_app. simpl in *. lia.
Qed.

Lemma text_length gap ind v : json_ok v → (cost v <= length (text gap ind v))%nat.
Proof.
  revert gap ind. induction v as [| |b|n|s|l IH|l IH|] using jsval_ind_nested; intros gap ind Hok;
    try done; try (destruct (text_starts gap ind _ Hok) as (c & t & -> & _); simpl; lia).
  - apply json_ok_arr in Hok. rewrite text_arr by done. simpl cost.
    replace (map (λ v, S (cost v)) l) with (map S (map cost l)) by by rewrite map_map.
    apply bracket_length. clear -IH Hok.
    induction IH as [|v l Hv IH IHl]; [constructor|]. inversion_clear Hok. constructor; auto.
  - apply json_ok_obj in Hok as [_ Hok]. rewrite text_obj by done. simpl cost.
    replace (map (λ kv, S (cost kv.2)) l) with (map S (map (λ kv, cost kv.2) l))
      by by rewrite map_map.
    apply bracket_length. clear -IH Hok.
    induction IH as [|v l Hv IH IHl]; [constructor|]. inversion_clear Hok. constructor; auto.
    simpl. unfold member_text. rewrite !length_app. specialize (Hv gap (ind ++ gap) ltac:(done)).
    lia.
Qed.

(** [JSON.parse(JSON.stringify(v, null, gap))] is [v]. *)
Lemma parse_text `{Host} gap v :
  ws_only gap → json_ok v → json_parse (text gap [] v) = Ok v.
Proof.
  intros Hg Hok. unfold json_parse.
  pose proof (roundtrip_value v gap [] (S (length (text gap [] v))) [] Hg ltac:(constructor) Hok)
    as Hrt.
  pose proof (text_length gap [] v Hok). rewrite app_nil_r in Hrt.
  rewrite Hrt by (done || lia). done.
Qed.
