(* ===== verification/ConsoleData.v ===== *)
(** The data of the web console (crates/dwara-console/static/app.js): the
    closures it creates, as values, and the page's nodes and state.

    app.js registers callbacks: event listeners, and the [then]/[catch]
    handlers of its fetches.  Each callback is a constructor here that lists
    the variables the closure captures; ConsoleApp runs them. *)

From S2P Require Import Prelude JsNumber JsValue Json.
Local Open Scope Z_scope.

(** A node of the page, by the order of its creation. *)
Abbreviation nid := nat.

(** A column of a CRUD table: [{ field, label }]. *)
Record column : Type := Column { c_field : jstr; c_label : jstr }.

(** The [render...] functions that the navigation and the refresh buttons
    call. *)
Inductive view_fn : Type :=
  | VOverview
  | VRoutes
  | VUpstreams
  | VHealth
  | VAnalytics
  | VConfig
  | VFleet
  | VEditor
  | VLive
  | VCrud (entityName entityLabel : jstr) (columns : list column)
  | VAiOps.

(** What [loadTable] and the dialogs capture of [renderCrudEntity]. *)
Record crud_env : Type := CrudEnv {
  entityName : jstr;
  entityLabel : jstr;
  columns : list column;
  tableWrap : nid;
}.

(** Event listeners. *)
Inductive handler : Type :=
  | HRender (v : view_fn)
  | HValidate (textarea preview : nid)
  | HPublish (textarea preview : nid)
  | HReset (textarea preview : nid)
  | HCreate (env : crud_env)
  | HEdit (env : crud_env) (item : jsval)
  | HDelete (env : crud_env) (item : jsval)
  | HCancel (overlay : nid)
  | HCreateSave (env : crud_env) (overlay textarea errorDiv : nid)
  | HEditSave (env : crud_env) (item : jsval) (overlay textarea errorDiv : nid)
  | HNav (btn : nid)
  | HWorkspace.

(** Continuations of fetches: the pair of a [then] and a [catch]. *)
Inductive cont : Type :=
  | KOverview (grid : nid)
  | KRoutes (wrap : nid)
  | KUpstreams (wrap : nid)
  | KHealth (wrap : nid)
  | KAnalytics (wrap : nid)
  | KConfig (wrap : nid)
  | KFleet (wrap : nid)
  | KEditorLoad (textarea : nid)
  | KValidate (preview : nid)
  | KPublish (preview : nid) (body : jstr)
  | KReset (textarea preview : nid)
  | KLive (wrap : nid)
  | KLoadTable (env : crud_env)
  | KDelete (env : crud_env)
  | KCreateSave (env : crud_env) (overlay errorDiv : nid)
  | KEditSave (env : crud_env) (overlay errorDiv : nid)
  | KAiOps (wrap : nid)
  | KWorkspaces (select : nid).

(** * The page *)

Inductive child : Type :=
  | CElem (id : nid)
  | CText (s : jstr).

(** Drawing calls on a canvas context, in order. *)
Inductive canvas_op : Type :=
  | ClearRect (x y w h : num)
  | SetFillStyle (s : jstr)
  | SetStrokeStyle (s : jstr)
  | SetLineWidth (n : num)
  | SetFont (s : jstr)
  | FillText (s : jstr) (x y : num)
  | FillRect (x y w h : num)
  | BeginPath
  | MoveTo (x y : num)
  | LineTo (x y : num)
  | Stroke.

(** An element without its children. *)
Record edata : Type := EData {
  tag : jstr;
  className : jstr;
  attributes : list (jstr * jstr);
  value : jstr;
  placeholder : jstr;
  width : Z;
  height : Z;
  drawn : list canvas_op;
  listeners : list (jstr * handler);
}.

Record node : Type := Node { data : edata; kids : list child }.

Definition new_edata (t : jstr) : edata := EData t [] [] [] [] 0 0 [] [].
Definition set_className (s : jstr) (d : edata) : edata :=
  EData (tag d) s (attributes d) (value d) (placeholder d) (width d) (height d) (drawn d) (listeners d).
Definition set_attributes (l : list (jstr * jstr)) (d : edata) : edata :=
  EData (tag d) (className d) l (value d) (placeholder d) (width d) (height d) (drawn d) (listeners d).
Definition set_value (s : jstr) (d : edata) : edata :=
  EData (tag d) (className d) (attributes d) s (placeholder d) (width d) (height d) (drawn d) (listeners d).
Definition set_placeholder (s : jstr) (d : edata) : edata :=
  EData (tag d) (className d) (attributes d) (value d) s (width d) (height d) (drawn d) (listeners d).
Definition set_size (w h : Z) (d : edata) : edata :=
  EData (tag d) (className d) (attributes d) (value d) (placeholder d) w h (drawn d) (listeners d).
Definition set_drawn (l : list canvas_op) (d : edata) : edata :=
  EData (tag d) (className d) (attributes d) (value d) (placeholder d) (width d) (height d) l (listeners d).
Definition set_listeners (l : list (jstr * handler)) (d : edata) : edata :=
  EData (tag d) (className d) (attributes d) (value d) (placeholder d) (width d) (height d) (drawn d) l.

(** * The network *)

Record request : Type := Request {
  rq_method : jstr;
  rq_path : jstr;
  rq_headers : list (jstr * jstr);
  rq_body : option jstr;
}.

(** How a response is read: [fetchJSON] and [fetchText] check [resp.ok];
    the editor and [sendJSON] read the JSON body whatever the status. *)
Inductive mode : Type :=
  | ReadJSON
  | ReadText
  | ReadStatusJSON (with_ok : bool).

(** What a settled response feeds: a continuation, or a slot of a
    [Promise.all], where [or_empty] is a [.catch(function () { return {}; })]
    on that element. *)
Inductive target : Type :=
  | TCont (k : cont)
  | TSlot (join slot : nat) (or_empty : bool).

Record pending : Type := Pending { p_request : request; p_mode : mode; p_target : target }.

(** A [Promise.all] that has not settled. *)
Record join : Type := Join { j_slots : list (option jsval); j_cont : cont }.

Record network : Type := Network {
  in_flight : gmap nat pending;
  next_req : nat;
  joins : gmap nat join;
  next_join : nat;
}.

(** What the browser reports for a request: no response, or a status and the
    body's text, or the error of reading it. *)
Inductive outcome : Type :=
  | NetworkError (message : jstr)
  | Response (status : Z) (body : res jstr).

(** * The program's variables *)

(** A point of the latency history; the percentiles are the values received. *)
Record point : Type := Point { p50 : jsval; p95 : jsval; p99 : jsval; ts : Z }.

(** [currentView], [refreshTimer], [editorState] and [liveState], with the
    interval timers the browser is running. *)
Record vars : Type := Vars {
  currentView : jstr;
  refreshTimer : option nat;
  editor_yaml : jstr;
  editor_dirty : bool;
  history : list point;
  timers : gset nat;
  next_timer : nat;
}.

Definition set_currentView (v : jstr) (a : vars) : vars :=
  Vars v (refreshTimer a) (editor_yaml a) (editor_dirty a) (history a) (timers a) (next_timer a).
Definition set_refreshTimer (t : option nat) (a : vars) : vars :=
  Vars (currentView a) t (editor_yaml a) (editor_dirty a) (history a) (timers a) (next_timer a).
Definition set_editorState (y : jstr) (d : bool) (a : vars) : vars :=
  Vars (currentView a) (refreshTimer a) y d (history a) (timers a) (next_timer a).
Definition set_history (h : list point) (a : vars) : vars :=
  Vars (currentView a) (refreshTimer a) (editor_yaml a) (editor_dirty a) h (timers a) (next_timer a).
Definition set_timers (t : gset nat) (n : nat) (a : vars) : vars :=
  Vars (currentView a) (refreshTimer a) (editor_yaml a) (editor_dirty a) (history a) t n.

(** The state of the page: its nodes, the network, the program's variables,
    the clock [Date.now()] reads and the answer the user gives to the next
    [confirm]. *)
Record st : Type := St {
  dom : gmap nid node;
  next_id : nid;
  net : network;
  app : vars;
  clock : Z;
  answer : bool;
}.

Definition set_dom (h : gmap nid node) (s : st) : st :=
  St h (next_id s) (net s) (app s) (clock s) (answer s).
Definition set_net (n : network) (s : st) : st :=
  St (dom s) (next_id s) n (app s) (clock s) (answer s).
Definition set_app (a : vars) (s : st) : st :=
  St (dom s) (next_id s) (net s) a (clock s) (answer s).

(** Property names used as labels. *)
Definition str (s : string) : jsval := JStr (u s).
