(* ===== verification/Browser.v ===== *)
(** The browser as the console uses it: a state and exception monad over the
    page, with the DOM operations, [fetch], [Promise.all], timers and
    [confirm]. *)

From S2P Require Import Prelude JsNumber JsValue Json ConsoleData.
Local Open Scope Z_scope.

(** * The monad

    A computation either returns or throws; either way the state it reached
    remains, as in JavaScript. *)
Definition M (A : Type) : Type := st → res A * st.

#[global] Instance M_ret : MRet M := λ A a s, (Ok a, s).
#[global] Instance M_bind : MBind M := λ A B f m s,
  match m s with
  | (Ok a, s) => f a s
  | (Err e, s) => (Err e, s)
  end.

(** [try m catch (e) { h e }], and a promise's [.then(m).catch(h)]. *)
Definition catch {A} (m : M A) (h : jstr → M A) : M A := λ s,
  match m s with
  | (Ok a, s) => (Ok a, s)
  | (Err e, s) => h e s
  end.

(** An expression that reads no state. *)
Definition lift {A} (r : res A) : M A := λ s, (r, s).

(** [l.forEach(f)]. *)
Fixpoint for_each {A} (f : A → M unit) (l : list A) : M unit :=
  match l with
  | [] => mret tt
  | x :: l => f x ;; for_each f l
  end.

Definition when (b : bool) (m : M unit) : M unit := if b then m else mret tt.

Definition get : M st := λ s, (Ok s, s).
Definition gets {A} (f : st → A) : M A := λ s, (Ok (f s), s).
Definition modify (f : st → st) : M unit := λ s, (Ok tt, f s).
Definition modify_app (f : vars → vars) : M unit := modify (λ s, set_app (f (app s)) s).

(** A sequence that succeeds went through its first part. *)
Lemma bind_ok {A B} (m : M A) (f : A → M B) s b s' :
  (m ≫= f) s = (Ok b, s') → ∃ a s1, m s = (Ok a, s1) ∧ f a s1 = (Ok b, s').
Proof. unfold mbind, M_bind. destruct (m s) as [[a|e] s1]; [by eauto|done]. Qed.

(** * Nodes *)

Definition modify_node (id : nid) (f : node → node) : M unit :=
  modify (λ s, set_dom (alter f id (dom s)) s).

Definition modify_data (id : nid) (f : edata → edata) : M unit :=
  modify_node id (λ n, Node (f (data n)) (kids n)).

(** [document.createElement(tag)]. *)
Definition createElement (t : jstr) : M nid := λ s,
  (Ok (next_id s),
   St (<[next_id s := Node (new_edata t) []]> (dom s)) (S (next_id s))
      (net s) (app s) (clock s) (answer s)).

(** Take a node out of its parent's children. *)
Definition is_kid (c : nid) (k : child) : bool :=
  match k with
  | CElem i => bool_decide (i = c)
  | CText _ => false
  end.

Definition drop_kid (c : nid) (n : node) : node :=
  Node (data n) (filter (λ k, is_kid c k = false) (kids n)).

Definition detach (c : nid) (h : gmap nid node) : gmap nid node := drop_kid c <$> h.

(** [p.appendChild(c)] moves [c] to the end of [p]'s children. *)
Definition appendChild (p c : nid) : M unit :=
  modify (λ s, set_dom
    (alter (λ n, Node (data n) (kids n ++ [CElem c])) p (detach c (dom s))) s).

(** [n.remove()]. *)
Definition remove (c : nid) : M unit := modify (λ s, set_dom (detach c (dom s)) s).

(** [n.innerHTML = ''], the only assignment to [innerHTML] of the program. *)
Definition clear (id : nid) : M unit := modify_node id (λ n, Node (data n) []).

(** [n.textContent = v]: the IDL type is a nullable string. *)
Definition text_kids (s : jstr) : list child :=
  match s with
  | [] => []
  | _ => [CText s]
  end.

Definition setTextContent_str (id : nid) (s : jstr) : M unit :=
  modify_node id (λ n, Node (data n) (text_kids s)).

Definition addEventListener (id : nid) (ev : string) (h : handler) : M unit :=
  modify_data id (λ d, set_listeners (listeners d ++ [(u ev, h)]) d).

Definition setValue (id : nid) (s : jstr) : M unit := modify_data id (set_value s).
Definition getValue (id : nid) : M jstr :=
  gets (λ s, match dom s !! id with Some n => value (data n) | None => [] end).

Definition draw (id : nid) (op : canvas_op) : M unit :=
  modify_data id (λ d, set_drawn (drawn d ++ [op]) d).

(** The nodes below a node in document order; depth is below the number of
    nodes. *)
Fixpoint descendants (fuel : nat) (h : gmap nid node) (id : nid) : list nid :=
  match fuel with
  | O => []
  | S fuel =>
      match h !! id with
      | Some n => flat_map (λ k, match k with
                                 | CElem i => i :: descendants fuel h i
                                 | CText _ => []
                                 end) (kids n)
      | None => []
      end
  end.

(** The space-separated tokens of a class attribute. *)
Fixpoint tokens_aux (cur : jstr) (s : jstr) : list jstr :=
  match s with
  | [] => [reverse cur]
  | c :: s => if (c =? 32)%N then reverse cur :: tokens_aux [] s else tokens_aux (c :: cur) s
  end.
Definition class_tokens (s : jstr) : list jstr := filter (λ t, t ≠ []) (tokens_aux [] s).

Definition has_class (c : jstr) (n : node) : bool :=
  bool_decide (c ∈ class_tokens (className (data n))).

Definition has_class_at (h : gmap nid node) (c : jstr) (id : nid) : bool :=
  match h !! id with
  | Some n => has_class c n
  | None => false
  end.

(** [root.querySelectorAll('.c')] and [root.querySelector('.c')]. *)
Definition querySelectorAll (root : nid) (c : string) : M (list nid) :=
  gets (λ s, filter (λ i, has_class_at (dom s) (u c) i = true) (descendants (next_id s) (dom s) root)).

Definition querySelector (root : nid) (c : string) : M (option nid) :=
  l ← querySelectorAll root c; mret (head l).

(** [classList.toggle(c, on)]. *)
Definition join_tokens (l : list jstr) : jstr := intersperse (u " ") l.

Definition toggle_class (c : jstr) (on : bool) (d : edata) : edata :=
  let ts := class_tokens (className d) in
  let ts' := if on then (if bool_decide (c ∈ ts) then ts else ts ++ [c])
             else filter (λ t, t ≠ c) ts in
  set_className (join_tokens ts') d.

Definition attr (k : string) (n : node) : option jstr :=
  (list_to_map (attributes (data n)) : gmap jstr jstr) !! u k.

(** * The network *)

(** [fetch(rq)], read by [m], feeding [t] when it settles. *)
Definition fetch (rq : request) (m : mode) (t : target) : M unit :=
  modify (λ s,
    let n := net s in
    set_net (Network (<[next_req n := Pending rq m t]> (in_flight n)) (S (next_req n))
               (joins n) (next_join n)) s).

(** [Promise.all] of [n] elements; the fetches that fill its slots follow. *)
Definition new_join (n : nat) (k : cont) : M nat := λ s,
  let w := net s in
  (Ok (next_join w),
   set_net (Network (in_flight w) (next_req w)
              (<[next_join w := Join (replicate n None) k]> (joins w)) (S (next_join w))) s).

(** * Timers and dialogs *)

(** [setInterval(...)]: timer handles are positive. *)
Definition setInterval : M nat := λ s,
  let a := app s in
  (Ok (next_timer a), set_app (set_timers ({[next_timer a]} ∪ timers a) (S (next_timer a)) a) s).

Definition clearInterval (t : nat) : M unit :=
  modify_app (λ a, set_timers (timers a ∖ {[t]}) (next_timer a) a).

(** [confirm(...)]: the user's answer. *)
Definition confirm (message : jstr) : M bool := gets answer.

Definition date_now : M Z := gets clock.

(** * The static page (static/index.html) *)

Definition body_id : nid := 0%nat.
Definition switcher_id : nid := 14%nat.
Definition badge_id : nid := 16%nat.
Definition content_id : nid := 17%nat.
Definition last_refresh_id : nid := 21%nat.
Definition first_free : nid := 22%nat.

Section host.
Context {H : Host}.

(** [document.getElementById(name)] used as an object: the page gives these
    ids to static nodes and the program sets no [id]. *)
Definition static_id (name : string) : option nid :=
  if decide (name = "content") then Some content_id
  else if decide (name = "status-badge") then Some badge_id
  else if decide (name = "last-refresh") then Some last_refresh_id
  else if decide (name = "workspace-switcher") then Some switcher_id
  else None.

Definition getElementById (name : string) : M nid :=
  match static_id name with
  | Some i => mret i
  | None => lift (throw_te (ReadNullish JNull (u name)))
  end.

Definition setClassName (id : nid) (v : jsval) : M unit :=
  s ← lift (to_str v); modify_data id (set_className s).

Definition setTextContent (id : nid) (v : jsval) : M unit :=
  s ← lift (if is_nullish v then Ok [] else to_str v); setTextContent_str id s.

Definition setAttribute (id : nid) (k : string) (v : jsval) : M unit :=
  s ← lift (to_str v);
  modify_data id (λ d, set_attributes (filter (λ kv, kv.1 ≠ u k) (attributes d) ++ [(u k, s)]) d).

(** [document.body.removeChild(c)] throws unless [c] is a child of the body. *)
Definition remove_from_body (c : nid) : M unit :=
  s ← get;
  match dom s !! body_id with
  | Some n =>
      if existsb (is_kid c) (kids n) then remove c else lift (throw_te NotAChild)
  | None => lift (throw_te NotAChild)
  end.
End host.

(** The nodes of index.html. *)
Definition elem (t : string) (cls : string) (attrs : list (string * string)) (ks : list child) : node :=
  Node (set_className (u cls) (set_attributes (map (λ '(k, v), (u k, u v)) attrs) (new_edata (u t)))) ks.

Definition nav_button (v : string) (active : bool) (label : string) : node :=
  elem "button" (if active then "nav-btn active" else "nav-btn") [("data-view", v)] [CText (u label)].

Definition index_html : gmap nid node := list_to_map (imap pair [
  elem "body" "" [] (map CElem [1; 17; 19]%nat);
  elem "header" "" [("id", "topbar")] (map CElem [2; 3; 14; 16]%nat);
  elem "h1" "" [] [CText (u "dwara")];
  elem "nav" "" [("id", "nav")] (map CElem (seq 4 10));
  nav_button "overview" true "Overview";
  nav_button "live" false "Live";
  nav_button "routes" false "Routes";
  nav_button "upstreams" false "Upstreams";
  nav_button "health" false "Health";
  nav_button "analytics" false "Analytics";
  nav_button "aiops" false "AI Ops";
  nav_button "fleet" false "Fleet";
  nav_button "config" false "Config";
  nav_button "editor" false "Editor";
  elem "select" "" [("id", "workspace-switcher"); ("title", "Workspace")] [CElem 15%nat];
  elem "option" "" [("value", "")] [CText (u "default")];
  elem "div" "" [("id", "status-badge")] [CText (u "connecting...")];
  elem "main" "" [("id", "content")] [CElem 18%nat];
  elem "div" "" [("id", "loading")] [CText (u "Loading...")];
  elem "footer" "" [("id", "footer")] (map CElem [20; 21]%nat);
  elem "span" "" [] [CText (u "dwara console v3")];
  elem "span" "" [("id", "last-refresh")] []
]).
