(* ===== verification/ConsoleViews.v ===== *)
(** The console's helpers and its read-only views (app.js lines 12 to 401):
    fetching, node construction, and the overview, routes, upstreams, health,
    analytics, config and fleet views. *)

From S2P Require Import Prelude JsNumber JsValue Json ConsoleData Browser.
Local Open Scope Z_scope.

(** * Requests *)

Definition accept_json : list (jstr * jstr) := [(u "Accept", u "application/json")].
Definition get_request (headers : list (jstr * jstr)) (path : jstr) : request :=
  Request (u "GET") path headers None.

(** [fetchJSON(path)] feeding a target. *)
Definition fetchJSON (path : jstr) (t : target) : M unit :=
  fetch (get_request accept_json path) ReadJSON t.

(** [fetchText(path)]. *)
Definition fetchText (path : jstr) (t : target) : M unit :=
  fetch (get_request [] path) ReadText t.

(** [sendJSON(method, path, body)]: a falsy body is not sent. *)
Definition sendJSON (method path : jstr) (body : jsval) (t : target) : M unit :=
  fetch (Request method path [(u "Content-Type", u "application/json")]
           (if truthy body then stringify body else None))
    (ReadStatusJSON true) t.

(** The editor's requests: a YAML body, and [{ status, data }] back. *)
Definition send_yaml (method path : string) (body : jstr) (t : target) : M unit :=
  fetch (Request (u method) (u path) [(u "Content-Type", u "text/yaml")] (Some body))
    (ReadStatusJSON false) t.

(** [Promise.all] over fetches of JSON, each with or without a [.catch] that
    replaces a failure by an empty object. *)
Definition promise_all (paths : list string) (or_empty : bool) (k : cont) : M unit :=
  j ← new_join (length paths) k;
  for_each (λ '(i, p), fetchJSON (u p) (TSlot j i or_empty)) (imap pair paths).

Section host.
Context {H : Host}.

(** * Reading responses *)

(** [resp.ok]. *)
Definition ok_status (status : Z) : bool := (200 <=? status) && (status <=? 299).

Definition http_error (status : Z) (path : jstr) : jstr :=
  u "HTTP " ++ num_to_jstr (num_of_Z status) ++ u " for " ++ path.

(** The value a settled request delivers, or the error it rejects with. *)
Definition read_response (m : mode) (path : jstr) (o : outcome) : res jsval :=
  match o with
  | NetworkError e => Err e
  | Response status body =>
      match m with
      | ReadJSON =>
          if ok_status status then b ← body; json_parse b else Err (http_error status path)
      | ReadText =>
          if ok_status status then b ← body; Ok (JStr b) else Err (http_error status path)
      | ReadStatusJSON with_ok =>
          b ← body;
          d ← json_parse b;
          Ok (JObj ([(u "status", jnum status); (u "data", d)] ++
                    if with_ok then [(u "ok", JBool (ok_status status))] else []))
      end
  end.

(** * Node construction *)

(** The third argument of [el]: absent, one node, an array of nodes, or some
    other value. *)
Inductive children : Type :=
  | NoChildren
  | One (n : nid)
  | Nodes (l : list nid)
  | Value (v : jsval).

(** An attribute of the second argument of [el]. *)
Definition el_attr (id : nid) (kv : string * jsval) : M unit :=
  let '(k, v) := kv in
  if decide (k = "class"%string) then setClassName id v
  else if decide (k = "text"%string) then setTextContent id v
  else setAttribute id k v.

Definition el_children (id : nid) (c : children) : M unit :=
  match c with
  | NoChildren => mret tt
  | One n => appendChild id n
  | Nodes l => for_each (appendChild id) l
  | Value v =>
      if truthy v then
        match v with
        | JStr s => setTextContent_str id s
        | JArr l => for_each (λ x, when (truthy x) (lift (throw_te NotANode))) l
        | _ => lift (throw_te NotANode)
        end
      else mret tt
  end.

(** [el(tag, attrs, children)]. *)
Definition el (t : string) (attrs : list (string * jsval)) (c : children) : M nid :=
  id ← createElement (u t);
  for_each (el_attr id) attrs;;
  el_children id c;;
  mret id.

(** [el(tag, attrs, [ks...])], the elements of the array built in order. *)
Definition el_of (t : string) (attrs : list (string * jsval)) (ks : list (M nid)) : M nid :=
  l ← mapM id ks; el t attrs (Nodes l).

(** [el(tag, { class: cls, text: v })] and [el(tag, { text: v })]. *)
Definition el_class (t cls : string) (v : jsval) : M nid :=
  el t [("class"%string, str cls); ("text"%string, v)] NoChildren.
Definition el_text (t : string) (v : jsval) : M nid := el t [("text"%string, v)] NoChildren.

(** [p.appendChild(m)] for a node expression [m]. *)
Definition append (p : nid) (m : M nid) : M unit := c ← m; appendChild p c.

(** [el('td', { text: e })] for an expression that may throw. *)
Definition td (r : res jsval) : M nid := v ← lift r; el_text "td" v.

(** A header row: [el('thead', {}, el('tr', {}, [el('th', { text })...]))]. *)
Definition thead (labels : list string) : M nid :=
  tr ← el_of "tr" [] (map (λ l, el_text "th" (str l)) labels);
  el "thead" [] (One tr).

(** A [table] with a header and a body that [fill] completes. *)
Definition table_with (labels : list string) (fill : nid → M unit) : M nid :=
  table ← el "table" [] NoChildren;
  append table (thead labels);;
  tbody ← el "tbody" [] NoChildren;
  fill tbody;;
  appendChild table tbody;;
  mret table.

Definition card (title : jsval) (body : nid) (refresh : option view_fn) : M nid :=
  header ← el_of "div" [] [el_text "h2" title];
  match refresh with
  | Some v =>
      btn ← el_class "button" "refresh-btn" (str "Refresh");
      addEventListener btn "click" (HRender v);;
      appendChild header btn
  | None => mret tt
  end;;
  el "div" [("class"%string, str "card")] (Nodes [header; body]).

Definition error_msg (v : jsval) : M nid := el_class "div" "error-msg" v.

Definition renderError (msg : jsval) : M unit :=
  content ← getElementById "content";
  clear content;;
  append content (error_msg msg).

Definition setLastRefresh : M unit :=
  n ← getElementById "last-refresh";
  t ← date_now;
  setTextContent n (JStr (u "Updated " ++ locale_time t)).

Definition setStatusBadge (status : string) : M unit :=
  badge ← getElementById "status-badge";
  setClassName badge (str status);;
  setTextContent badge (str status).

Definition makeStat (label : string) (v : jsval) : M nid :=
  el_of "div" [("class"%string, str "stat")]
    [ el_class "div" "stat-label" (str label);
      (s ← lift (to_str v); el_class "div" "stat-value" (JStr s)) ].

Definition loading (text : string) : M nid := el_class "div" "stat-label" (str text).

(** The opening of most views: a card around an empty [div] that says
    "Loading..." until the response arrives. *)
Definition open_view (title : jsval) (refresh : option view_fn) : M nid :=
  content ← getElementById "content";
  clear content;;
  wrap ← el "div" [] NoChildren;
  append content (card title wrap refresh);;
  append wrap (loading "Loading...");;
  mret wrap.

(** The usual [catch] of a view: the error replaces the contents. *)
Definition show_error (wrap : nid) (e : jstr) : M unit :=
  clear wrap;;
  append wrap (error_msg (JStr e)).

(** [JSON.stringify(v, null, 2)] in a [pre]. *)
Definition append_pre (wrap : nid) (v : jsval) : M unit :=
  pre ← el "pre" [] NoChildren;
  setTextContent pre v;;
  appendChild wrap pre.

Definition json_text (v : jsval) : jsval :=
  match stringify2 v with
  | Some s => JStr s
  | None => JUndef
  end.

(** [a.k || d]. *)
Definition get_or (v : jsval) (k : string) (d : jsval) : res jsval :=
  x ← jget v (u k); Ok (jor x d).

Definition length_of (v : jsval) : res jsval := jget v (u "length").

(** * Overview *)

Definition renderOverview : M unit :=
  content ← getElementById "content";
  clear content;;
  grid ← el "div" [("class"%string, str "stat-grid")] NoChildren;
  append content (card (str "Gateway Overview") grid None);;
  promise_all ["/health"; "/stats"; "/config_dump"] false (KOverview grid).

Definition overview_then (grid : nid) (results : list jsval) : M unit :=
  let health := default JUndef (results !! 0%nat) in
  let stats := default JUndef (results !! 1%nat) in
  let config := default JUndef (results !! 2%nat) in
  ready ← lift (jget health (u "ready"));
  let isReady := not_false ready in
  let healthStatus := if isReady then "ok"%string else "degraded"%string in
  setStatusBadge (if isReady then "healthy" else "unhealthy");;
  append grid (makeStat "Status" (str healthStatus));;
  append grid (v ← lift (get_or stats "active_requests" (jnum 0)); makeStat "Active Requests" v);;
  append grid (v ← lift (get_or health "config_generation" (str "n/a")); makeStat "Config Generation" v);;
  append grid (v ← lift (l ← get_or config "routes" (JArr []); length_of l); makeStat "Routes" v);;
  append grid (v ← lift (l ← get_or config "listeners" (JArr []); length_of l); makeStat "Listeners" v);;
  append grid (v ← lift (l ← get_or health "upstreams" (JObj []); ks ← object_keys l;
                         Ok (jnum (Z.of_nat (length ks)))); makeStat "Upstreams" v);;
  setLastRefresh.

Definition overview_catch (grid : nid) (e : jstr) : M unit :=
  setStatusBadge "unhealthy";;
  append grid (makeStat "Error" (JStr e)).

(** * Routes (a read-only table; the navigation uses the CRUD table) *)

Definition renderRoutes : M unit :=
  tableWrap ← open_view (str "Routes") (Some VRoutes);
  fetchJSON (u "/config_dump") (TCont (KRoutes tableWrap)).

(** [(pathMatch.type || '') + ': ' + (pathMatch.value || '')]. *)
Definition path_text (pathMatch : jsval) : res jsval :=
  if truthy pathMatch then
    t ← get_or pathMatch "type" (JStr []);
    ts ← to_str t;
    v ← get_or pathMatch "value" (JStr []);
    vs ← to_str v;
    Ok (JStr (ts ++ u ": " ++ vs))
  else Ok (JStr []).

Definition routes_row (tbody : nid) (r : jsval) : M unit :=
  m ← lift (jget r (u "match"));
  pathMatch ← lift (if truthy m then jget m (u "path") else Ok m);
  pathStr ← lift (path_text pathMatch);
  ms ← lift (if truthy m then jget m (u "methods") else Ok m);
  let methods := jor ms (JArr [str "*"]) in
  append tbody (el_of "tr" []
    [ td (get_or r "name" (JStr []));
      td (Ok pathStr);
      td (get_or r "service" (JStr []));
      td (s ← jjoin methods (u ", "); Ok (JStr s)) ]).

(** [v === 0]. *)
Definition is_zero (v : jsval) : bool :=
  match v with
  | JNum z => neq z (num_of_Z 0)
  | _ => false
  end.

(** [v.forEach(f)]. *)
Definition forEach (v : jsval) (f : jsval → M unit) : M unit :=
  l ← lift (as_array v "forEach"); for_each f l.

Definition routes_then (tableWrap : nid) (config : jsval) : M unit :=
  clear tableWrap;;
  routes ← lift (get_or config "routes" (JArr []));
  n ← lift (length_of routes);
  if is_zero n then append tableWrap (el_text "p" (str "No routes configured."))
  else
    append tableWrap (table_with ["Name"; "Path"; "Service"; "Methods"]
      (λ tbody, forEach routes (routes_row tbody)));;
    setLastRefresh.

(** * Upstreams (read-only) *)

Definition renderUpstreams : M unit :=
  tableWrap ← open_view (str "Upstreams / Services") (Some VUpstreams);
  fetchJSON (u "/health") (TCont (KUpstreams tableWrap)).

(** A row of the upstream table: [{ service, address, health }]. *)
Record upstream_row : Type := UpstreamRow { ur_service : jstr; ur_address : jstr; ur_health : jsval }.

(** The rows of one upstream, then of all: the two nested [for-in] loops. *)
Definition endpoint_rows (upstreams : jsval) (upName : jstr) : res (list upstream_row) :=
  up ← jget upstreams upName;
  endpoints ← get_or up "endpoints" (JObj []);
  addrs ← object_keys endpoints;
  mapM (λ addr, h ← jget endpoints addr; Ok (UpstreamRow upName addr h)) addrs.

Definition upstream_rows (health : jsval) : res (list upstream_row) :=
  upstreams ← get_or health "upstreams" (JObj []);
  names ← object_keys upstreams;
  rows ← mapM (endpoint_rows upstreams) names;
  Ok (concat rows).

Definition health_class (h : jsval) : string :=
  if is_str h (u "down") then "health-down"
  else if is_str h (u "degraded") || is_str h (u "half_open") then "health-degraded"
  else if is_str h (u "ejected") then "health-down"
  else "health-ok".

Definition upstreams_row (tbody : nid) (r : upstream_row) : M unit :=
  append tbody (el_of "tr" []
    [ el_text "td" (JStr (ur_service r));
      el_text "td" (JStr (ur_address r));
      el_class "td" (health_class (ur_health r)) (jor (ur_health r) (str "unknown")) ]).

Definition upstreams_then (tableWrap : nid) (health : jsval) : M unit :=
  clear tableWrap;;
  rows ← lift (upstream_rows health);
  match rows with
  | [] => append tableWrap (el_text "p" (str "No upstream data available."))
  | _ =>
      append tableWrap (table_with ["Service"; "Address"; "Health"]
        (λ tbody, for_each (upstreams_row tbody) rows));;
      setLastRefresh
  end.

(** * Health *)

Definition renderHealth : M unit :=
  wrap ← open_view (str "Health") (Some VHealth);
  fetchJSON (u "/health") (TCont (KHealth wrap)).

Definition health_then (wrap : nid) (health : jsval) : M unit :=
  clear wrap;;
  append_pre wrap (json_text health);;
  ready ← lift (jget health (u "ready"));
  setStatusBadge (if truthy ready then "healthy" else "unhealthy");;
  setLastRefresh.

Definition health_catch (wrap : nid) (e : jstr) : M unit :=
  show_error wrap e;;
  setStatusBadge "unhealthy".

(** * Analytics: the last hour's top routes *)

Definition analytics_path (now : Z) : jstr :=
  u "/analytics/top?kind=routes&from_ms=" ++ num_to_jstr (num_of_Z (now - 3600000)) ++
  u "&to_ms=" ++ num_to_jstr (num_of_Z now) ++ u "&limit=10".

Definition renderAnalytics : M unit :=
  wrap ← open_view (str "Analytics Top-N") (Some VAnalytics);
  now ← date_now;
  fetchJSON (analytics_path now) (TCont (KAnalytics wrap)).

Definition analytics_then (wrap : nid) (data : jsval) : M unit :=
  clear wrap;;
  append_pre wrap (json_text data);;
  setLastRefresh.

(** * Config *)

Definition renderConfig : M unit :=
  wrap ← open_view (str "Current Config (YAML)") (Some VConfig);
  fetchText (u "/config") (TCont (KConfig wrap)).

Definition config_then (wrap : nid) (yaml : jsval) : M unit :=
  clear wrap;;
  append_pre wrap yaml;;
  setLastRefresh.

(** * Fleet *)

Definition renderFleet : M unit :=
  wrap ← open_view (str "Fleet Operations") (Some VFleet);
  promise_all ["/fleet/skew"; "/fleet/status"] false (KFleet wrap).

Definition field_label (s : string) : M nid := el_class "div" "label" (str s).

Definition yes_no (v : jsval) : jsval := if truthy v then str "yes" else str "no".

Definition skew_card (skew : jsval) : M nid :=
  skewCard ← el "div" [("class"%string, str "fleet-card")] NoChildren;
  append skewCard (el_text "h3" (str "Version Skew Check"));;
  compatible ← lift (jget skew (u "compatible"));
  let skewClass := if truthy compatible then "skew-ok"%string else "skew-bad"%string in
  append skewCard (field_label "Policy");;
  append skewCard (v ← lift (get_or skew "skew_policy" (str "n/a")); el_class "div" "value" v);;
  append skewCard (field_label "Controller Version");;
  append skewCard (el_of "div" [("class"%string, str "value")]
    [v ← lift (get_or skew "controller_version" (str "n/a"));
     el_class "span" "version-badge current" v]);;
  append skewCard (field_label "This Instance");;
  append skewCard (el_of "div" [("class"%string, str "value")]
    [v ← lift (get_or skew "this_version" (str "n/a"));
     el "span" [("class"%string, JStr (u "version-badge " ++
                  (if truthy compatible then u "current" else u "skewed")))] (Value v)]);;
  append skewCard (field_label "Compatible");;
  append skewCard (el_class "div" ("value " +:+ skewClass) (yes_no compatible));;
  mret skewCard.

(** [k + '=' + entry.labels[k]] for every label, joined. *)
Definition labels_text (entry : jsval) : res jstr :=
  ls ← get_or entry "labels" (JObj []);
  ks ← object_keys ls;
  parts ← mapM (λ k, ls' ← jget entry (u "labels"); v ← jget ls' k; s ← to_str v;
                     Ok (k ++ u "=" ++ s)) ks;
  Ok (intersperse (u ", ") parts).

Definition order_item (orderList : nid) (entry : jsval) : M unit :=
  labels ← lift (labels_text entry);
  append orderList (
    name ← lift (v ← jget entry (u "name"); to_str v);
    el "li" [] (Value (JStr (name ++ u " (" ++ labels ++ u ")")))).

Definition upgrade_fields (statusCard : nid) (up : jsval) : M unit :=
  append statusCard (field_label "Skew Policy");;
  append statusCard (v ← lift (get_or up "skew" (str "n/a")); el_class "div" "value" v);;
  append statusCard (field_label "Max Concurrent");;
  append statusCard (s ← lift (v ← get_or up "max_concurrent" (jnum 0); to_str v);
                     el_class "div" "value" (JStr s));;
  append statusCard (field_label "Halt on Failure");;
  append statusCard (v ← lift (jget up (u "halt_on_failure")); el_class "div" "value" (yes_no v));;
  order ← lift (jget up (u "order"));
  nonempty ← lift (if truthy order then n ← length_of order; z ← to_num n; Ok (nlt (num_of_Z 0) z)
                   else Ok false);
  when nonempty (
    append statusCard (field_label "Upgrade Order");;
    orderList ← el "ol" [] NoChildren;
    forEach order (order_item orderList);;
    appendChild statusCard orderList).

Definition status_card (status : jsval) : M nid :=
  statusCard ← el "div" [("class"%string, str "fleet-card")] NoChildren;
  append statusCard (el_text "h3" (str "Fleet Status"));;
  append statusCard (field_label "Enabled");;
  append statusCard (v ← lift (jget status (u "enabled")); el_class "div" "value" (yes_no v));;
  append statusCard (field_label "Stale Timeout (s)");;
  append statusCard (s ← lift (v ← get_or status "stale_timeout_secs" (str "n/a"); to_str v);
                     el_class "div" "value" (JStr s));;
  up ← lift (jget status (u "upgrade"));
  when (truthy up) (upgrade_fields statusCard up);;
  mret statusCard.

Definition fleet_then (wrap : nid) (results : list jsval) : M unit :=
  let skew := default JUndef (results !! 0%nat) in
  let status := default JUndef (results !! 1%nat) in
  clear wrap;;
  skewCard ← skew_card skew;
  statusCard ← status_card status;
  append wrap (el "div" [("class"%string, str "fleet-grid")] (Nodes [skewCard; statusCard]));;
  setLastRefresh.

(** A missing [fleet:] block answers 404, which the message tells. *)
Definition fleet_catch (wrap : nid) (e : jstr) : M unit :=
  clear wrap;;
  if negb (bool_decide (e = [])) && contains (u "404") e then
    append wrap (error_msg (str "Fleet operations not configured (no fleet: block in config)."))
  else append wrap (error_msg (JStr e)).

End host.
