(* ===== verification/ConsoleEditor.v ===== *)
(** The config editor (app.js lines 403 to 557): load, validate, publish and
    reset, and the validation preview. *)

From S2P Require Import Prelude JsNumber JsValue Json ConsoleData Browser ConsoleViews.
Local Open Scope Z_scope.

Section host.
Context {H : Host}.

(** [editorState.yaml = yaml; editorState.dirty = false]. *)
Definition clean_editor (yaml : jstr) : M unit := modify_app (set_editorState yaml false).

Definition preview_div (cls : string) (text : jstr) : M nid :=
  el_class "div" ("validation-preview " +:+ cls) (JStr text).

Definition renderEditor : M unit :=
  content ← getElementById "content";
  clear content;;
  wrap ← el "div" [] NoChildren;
  append content (card (str "Config Editor") wrap None);;
  toolbar ← el "div" [("class"%string, str "editor-toolbar")] NoChildren;
  validateBtn ← el_class "button" "btn" (str "Validate");
  publishBtn ← el_class "button" "btn primary" (str "Publish");
  resetBtn ← el_class "button" "btn" (str "Reset to Current");
  appendChild toolbar validateBtn;;
  appendChild toolbar publishBtn;;
  appendChild toolbar resetBtn;;
  appendChild wrap toolbar;;
  textarea ← el "textarea" [("class"%string, str "editor-area")] NoChildren;
  setAttribute textarea "spellcheck" (str "false");;
  appendChild wrap textarea;;
  preview ← el "div" [] NoChildren;
  appendChild wrap preview;;
  fetchText (u "/config") (TCont (KEditorLoad textarea));;
  addEventListener validateBtn "click" (HValidate textarea preview);;
  addEventListener publishBtn "click" (HPublish textarea preview);;
  addEventListener resetBtn "click" (HReset textarea preview).

(** The response of the initial load. *)
Definition editor_load_then (textarea : nid) (yaml : jstr) : M unit :=
  setValue textarea yaml;;
  clean_editor yaml;;
  setLastRefresh.

Definition editor_load_catch (textarea : nid) (e : jstr) : M unit :=
  setValue textarea (u "# Failed to load config: " ++ e).

(** The Validate button. *)
Definition on_validate (textarea preview : nid) : M unit :=
  body ← getValue textarea;
  clear preview;;
  append preview (loading "Validating...");;
  send_yaml "POST" "/config/validate" body (TCont (KValidate preview)).

(** [(d && d.error && d.error.message) || other]. *)
Definition error_message (d : jsval) (other : string) : res jsval :=
  m ← (if truthy d then
         e ← jget d (u "error");
         if truthy e then jget e (u "message") else Ok e
       else Ok d);
  Ok (jor m (str other)).

Definition issue_div (issue : jsval) : M nid :=
  issueDiv ← el "div" [("class"%string, str "validation-issue")] NoChildren;
  append issueDiv (
    field ← lift (e ← (v ← jget issue (u "entity"); to_str v);
                  n ← (v ← jget issue (u "name"); to_str v);
                  f ← (v ← jget issue (u "field"); to_str v);
                  Ok (e ++ u "." ++ n ++ u "." ++ f));
    el_class "span" "field" (JStr field));;
  append issueDiv (
    m ← lift (v ← jget issue (u "message"); to_str v);
    el_text "span" (JStr (u " " ++ [8212%N] ++ u " " ++ m)));;
  mret issueDiv.

Definition renderValidationPreview (container : nid) (result : jsval) : M unit :=
  clear container;;
  status ← lift (jget result (u "status"));
  rdata ← lift (jget result (u "data"));
  if match status with JNum z => neq z (num_of_Z 400) | _ => false end then
    msg ← lift (m ← error_message rdata "Parse error"; to_str m);
    append container (el_of "div" [("class"%string, str "validation-preview invalid")]
      [el_text "div" (JStr (u "Parse error: " ++ msg))])
  else
    let d := jor rdata (JObj []) in
    v ← lift (jget d (u "valid"));
    let valid := not_false v in
    issues ← lift (get_or d "issues" (JArr []));
    n ← lift (l ← length_of issues; to_str l);
    let cls := if valid then "valid"%string else "invalid"%string in
    let summary := if valid then u "Config is valid (" ++ n ++ u " issues)."
                   else u "Config has " ++ n ++ u " validation issue(s):" in
    previewDiv ← el "div" [("class"%string, str ("validation-preview " +:+ cls))] NoChildren;
    append previewDiv (el_text "div" (JStr summary));;
    when (negb valid) (forEach issues (λ issue, append previewDiv (issue_div issue)));;
    appendChild container previewDiv.

Definition validate_then (preview : nid) (result : jsval) : M unit :=
  renderValidationPreview preview result.

Definition validate_catch (preview : nid) (e : jstr) : M unit :=
  clear preview;;
  append preview (preview_div "invalid" (u "Validation request failed: " ++ e)).

(** The Publish button. *)
Definition on_publish (textarea preview : nid) : M unit :=
  yes ← confirm (u "Publish this config? This replaces the live gateway config.");
  when yes (
    body ← getValue textarea;
    clear preview;;
    append preview (loading "Publishing...");;
    send_yaml "PATCH" "/config" body (TCont (KPublish preview body))).

(** [status >= 200 && status < 300] on the status of a result. *)
Definition status_2xx (v : jsval) : bool :=
  match v with
  | JNum z => nle (num_of_Z 200) z && nlt z (num_of_Z 300)
  | _ => false
  end.

Definition publish_then (preview : nid) (body : jstr) (result : jsval) : M unit :=
  status ← lift (jget result (u "status"));
  rdata ← lift (jget result (u "data"));
  if status_2xx status then
    gen ← lift (g ← get_or rdata "generation" (str "?"); to_str g);
    append preview (preview_div "valid"
      (u "Config published successfully (generation " ++ gen ++ u ")."));;
    clean_editor body
  else
    msg ← lift (m ← error_message rdata "Unknown error"; to_str m);
    append preview (preview_div "invalid" (u "Publish failed: " ++ msg)).

Definition publish_catch (preview : nid) (e : jstr) : M unit :=
  append preview (preview_div "invalid" (u "Publish request failed: " ++ e)).

(** The Reset button. *)
Definition on_reset (textarea preview : nid) : M unit :=
  fetchText (u "/config") (TCont (KReset textarea preview)).

Definition reset_then (textarea preview : nid) (yaml : jstr) : M unit :=
  setValue textarea yaml;;
  clean_editor yaml;;
  clear preview.

Definition reset_catch (preview : nid) (e : jstr) : M unit :=
  clear preview;;
  append preview (preview_div "invalid" (u "Reset failed: " ++ e)).

End host.
