(* ===== verification/ConsoleLive.v ===== *)
(** The live dashboard (app.js lines 559 to 715): the statistics, the bounded
    latency history and the chart drawn from it, and the per-route table. *)

From S2P Require Import Prelude JsNumber JsValue Json ConsoleData Browser ConsoleViews.
Local Open Scope Z_scope.

(** * The latency history *)

Definition maxPoints : nat := 60.

(** [history.push(p); if (history.length > maxPoints) history.shift()]. *)
Definition push_history (p : point) (h : list point) : list point :=
  let h := h ++ [p] in
  if decide (maxPoints < length h)%nat then tail h else h.

Section host.
Context {H : Host}.

(** * The chart *)

Definition nz : Z → num := num_of_Z.
Definition padding : num := nz 10.

(** A line of the chart: which percentile, its color and its label. *)
Record series : Type := Series { s_key : point → jsval; s_color : string; s_label : string }.

Definition chart_series : list series :=
  [ Series p50 "#3fb950" "p50"; Series p95 "#d29922" "p95"; Series p99 "#f85149" "p99" ].

(** [maxVal = Math.max(maxVal, p.p99, p.p95, p.p50)] over the history. *)
Fixpoint max_value (acc : num) (h : list point) : res num :=
  match h with
  | [] => Ok acc
  | p :: h =>
      a ← to_num (p99 p);
      b ← to_num (p95 p);
      c ← to_num (p50 p);
      max_value (nmax (nmax (nmax acc a) b) c) h
  end.

Definition grid_line (w chartH : num) (i : Z) : list canvas_op :=
  let y := nadd padding (nmul (ndiv chartH (nz 4)) (nz i)) in
  [BeginPath; MoveTo padding y; LineTo (nsub w padding) y; Stroke].

(** One vertex of a series: the first moves, the others draw. *)
Definition vertex (chartW chartH maxVal : num) (n : nat) (key : point → jsval)
    (i : nat) (p : point) : res canvas_op :=
  let x := nadd padding (nmul (ndiv chartW (nz (Z.of_nat n - 1))) (nz (Z.of_nat i))) in
  v ← to_num (key p);
  let y := nsub (nadd padding chartH) (nmul (ndiv v maxVal) chartH) in
  Ok (match i with O => MoveTo x y | _ => LineTo x y end).

(** Draw each operation as it is computed, so that an exception leaves the
    ones before it. *)
Definition draw_all (canvas : nid) (ops : list canvas_op) : M unit := for_each (draw canvas) ops.

Definition draw_series (canvas : nid) (chartW chartH maxVal : num) (h : list point)
    (s : series) : M unit :=
  draw_all canvas [SetStrokeStyle (u (s_color s)); SetLineWidth (nz 2); BeginPath];;
  for_each (λ '(i, p), op ← lift (vertex chartW chartH maxVal (length h) (s_key s) i p);
                       draw canvas op) (imap pair h);;
  draw canvas Stroke.

Definition legend_entry (legendX : num) (i : nat) (s : series) : list canvas_op :=
  let dy := nmul (nz (Z.of_nat i)) (nz 18) in
  [ SetFillStyle (u (s_color s));
    FillRect legendX (nadd (nz 5) dy) (nz 12) (nz 12);
    SetFillStyle (u "#c9d1d9");
    FillText (u (s_label s)) (nadd legendX (nz 18)) (nadd (nz 14) dy) ].

Definition drawLatencyChart (canvas : nid) (h : list point) : M unit :=
  s ← get;
  let '(cw, ch) := match dom s !! canvas with
                   | Some n => (width (data n), height (data n))
                   | None => (0, 0)
                   end in
  let w := nz cw in
  let hh := nz ch in
  draw canvas (ClearRect (nz 0) (nz 0) w hh);;
  if decide (length h < 2)%nat then
    draw_all canvas [SetFillStyle (u "#8b949e"); SetFont (u "14px sans-serif");
                     FillText (u "Collecting data...") (nz 10) (ndiv hh (nz 2))]
  else
    m ← lift (max_value (nz 0) h);
    let maxVal := if neq m (nz 0) then nz 1 else m in
    let chartW := nsub w (nmul padding (nz 2)) in
    let chartH := nsub hh (nmul padding (nz 2)) in
    draw_all canvas ([SetStrokeStyle (u "#30363d"); SetLineWidth (nz 1)] ++
                     concat (map (grid_line w chartH) [0; 1; 2; 3; 4]));;
    for_each (draw_series canvas chartW chartH maxVal h) chart_series;;
    draw canvas (SetFont (u "12px sans-serif"));;
    draw_all canvas (concat (imap (legend_entry (nsub w (nz 120))) chart_series)).

(** * The view *)

Definition renderLive : M unit :=
  wrap ← open_view (str "Live Dashboard") (Some VLive);
  promise_all ["/analytics/dashboard"; "/analytics/live"; "/stats"] true (KLive wrap).

(** [live.k || (dashboard.summary && dashboard.summary.k) || d]. *)
Definition live_stat (live dashboard : jsval) (k : string) (d : jsval) : res jsval :=
  x ← jget live (u k);
  if truthy x then Ok x
  else
    s ← jget dashboard (u "summary");
    y ← (if truthy s then jget s (u k) else Ok s);
    Ok (jor y d).

Definition live_row (tbody : nid) (r : jsval) : M unit :=
  let cell k := td (v ← get_or r k (jnum 0); s ← to_str v; Ok (JStr s)) in
  append tbody (el_of "tr" []
    [ td (a ← jget r (u "route"); if truthy a then Ok a else get_or r "name" (JStr []));
      cell "rps"%string; cell "p50_ms"%string; cell "p95_ms"%string; cell "errors"%string ]).

Definition live_point (live : jsval) (now : Z) : res point :=
  a ← get_or live "p50_ms" (jnum 0);
  b ← get_or live "p95_ms" (jnum 0);
  c ← get_or live "p99_ms" (jnum 0);
  Ok (Point a b c now).

Definition live_then (wrap : nid) (results : list jsval) : M unit :=
  let dashboard := jor (default JUndef (results !! 0%nat)) (JObj []) in
  let live := jor (default JUndef (results !! 1%nat)) (JObj []) in
  let stats := jor (default JUndef (results !! 2%nat)) (JObj []) in
  clear wrap;;
  grid ← el "div" [("class"%string, str "stat-grid")] NoChildren;
  append grid (v ← lift (get_or stats "active_requests" (jnum 0)); makeStat "Active Requests" v);;
  append grid (v ← lift (live_stat live dashboard "rps" (jnum 0)); makeStat "RPS" v);;
  append grid (v ← lift (live_stat live dashboard "p50_ms" (str "n/a")); makeStat "p50 (ms)" v);;
  append grid (v ← lift (live_stat live dashboard "p95_ms" (str "n/a")); makeStat "p95 (ms)" v);;
  append grid (v ← lift (live_stat live dashboard "p99_ms" (str "n/a")); makeStat "p99 (ms)" v);;
  append grid (v ← lift (r ← get_or live "error_rate" (jnum 0); s ← jto_fixed r 2;
                         Ok (JStr (s ++ u "%"))); makeStat "Error Rate" v);;
  appendChild wrap grid;;
  chartCard ← el "div" [("class"%string, str "chart-card")] NoChildren;
  append chartCard (el_text "h3" (str "Latency Trend (ms)"));;
  canvas ← el "canvas" [] NoChildren;
  modify_data canvas (set_size 800 200);;
  setClassName canvas (str "live-chart");;
  appendChild chartCard canvas;;
  now ← date_now;
  pt ← lift (live_point live now);
  modify_app (λ a, set_history (push_history pt (history a)) a);;
  h ← gets (λ s, history (app s));
  drawLatencyChart canvas h;;
  appendChild wrap chartCard;;
  routes ← lift (jget live (u "routes"));
  when (truthy routes) (
    routesCard ← el "div" [("class"%string, str "chart-card")] NoChildren;
    append routesCard (el_text "h3" (str "Per-Route Live"));;
    append routesCard (table_with ["Route"; "RPS"; "p50 (ms)"; "p95 (ms)"; "Errors"]
      (λ tbody, match jor routes (JArr []) with
                | JArr l => for_each (live_row tbody) l
                | _ => mret tt
                end));;
    appendChild wrap routesCard);;
  setLastRefresh.

End host.
