(* ===== verification/ConsoleCrud.v ===== *)
(** The CRUD views (app.js lines 717 to 928): the entity table, deletion with
    confirmation, and the create and edit dialogs. *)

From S2P Require Import Prelude JsNumber JsValue Json ConsoleData Browser ConsoleViews ConsoleEditor.
Local Open Scope Z_scope.

Section host.
Context {H : Host}.

(** ['/' + entityName]. *)
Definition collection_path (env : crud_env) : jstr := u "/" ++ entityName env.

(** [loadTable()]. *)
Definition loadTable (env : crud_env) : M unit :=
  clear (tableWrap env);;
  append (tableWrap env) (loading "Loading...");;
  fetchJSON (collection_path env) (TCont (KLoadTable env)).

(** [renderCrudEntity(entityName, entityLabel, columns)]. *)
Definition renderCrudEntity (name label : jstr) (cols : list column) : M unit :=
  wrap ← open_view (JStr (label ++ u " (CRUD)")) (Some (VCrud name label cols));
  toolbar ← el "div" [("class"%string, str "crud-toolbar")] NoChildren;
  createBtn ← el_class "button" "btn primary" (JStr (u "+ Create " ++ label));
  appendChild toolbar createBtn;;
  appendChild wrap toolbar;;
  tw ← el "div" [] NoChildren;
  appendChild wrap tw;;
  let env := CrudEnv name label cols tw in
  addEventListener createBtn "click" (HCreate env);;
  loadTable env.

(** The cell of a column: objects print as JSON. *)
Definition cell_text (item : jsval) (c : column) : res jsval :=
  val ← jget item (c_field c);
  let val := if is_object val
             then match stringify val with Some s => JStr s | None => JUndef end
             else val in
  s ← to_str (jor val (JStr []));
  Ok (JStr s).

Definition action_cell (env : crud_env) (item : jsval) : M nid :=
  actionCell ← el "td" [] NoChildren;
  editBtn ← el_class "button" "btn small" (str "Edit");
  delBtn ← el_class "button" "btn small danger" (str "Delete");
  addEventListener editBtn "click" (HEdit env item);;
  addEventListener delBtn "click" (HDelete env item);;
  appendChild actionCell editBtn;;
  appendChild actionCell delBtn;;
  mret actionCell.

Definition item_row (env : crud_env) (tbody : nid) (item : jsval) : M unit :=
  cells ← mapM (λ c, td (cell_text item c)) (columns env);
  actionCell ← action_cell env item;
  append tbody (el "tr" [] (Nodes (cells ++ [actionCell]))).

(** [data[entityName] || data.items || data || []], when it is an array. *)
Definition items_of (env : crud_env) (d : jsval) : res (list jsval) :=
  a ← jget d (entityName env);
  items ← (if truthy a then Ok a
           else b ← jget d (u "items"); Ok (jor (jor b d) (JArr [])));
  Ok (match items with JArr l => l | _ => [] end).

(** The table of the entities: the columns, then an Actions column. *)
Definition entity_table (env : crud_env) (items : list jsval) : M nid :=
  table ← el "table" [] NoChildren;
  append table (
    ths ← mapM (λ c, el_text "th" (JStr (c_label c))) (columns env);
    act ← el_text "th" (str "Actions");
    tr ← el "tr" [] (Nodes (ths ++ [act]));
    el "thead" [] (One tr));;
  tbody ← el "tbody" [] NoChildren;
  for_each (item_row env tbody) items;;
  appendChild table tbody;;
  mret table.

Definition load_table_then (env : crud_env) (d : jsval) : M unit :=
  clear (tableWrap env);;
  items ← lift (items_of env d);
  match items with
  | [] => append (tableWrap env)
            (el_text "p" (JStr (u "No " ++ to_lower (entityLabel env) ++ u " configured.")))
  | _ =>
      append (tableWrap env) (entity_table env items);;
      setLastRefresh
  end.

(** * Errors *)

(** [showCrudError(container, msg)]: one error message at a time. *)
Definition showCrudError (container : nid) (msg : jstr) : M unit :=
  existing ← querySelector container "error-msg";
  match existing with
  | Some n => remove n
  | None => mret tt
  end;;
  append container (error_msg (JStr msg)).

(** [prefix + (result.data && result.data.error && result.data.error.message
    || 'Unknown')]. *)
Definition failure_text (prefix : string) (result : jsval) : res jstr :=
  d ← jget result (u "data");
  m ← error_message d "Unknown";
  s ← to_str m;
  Ok (u prefix ++ s).

(** * Delete *)

Definition on_delete (env : crud_env) (item : jsval) : M unit :=
  name ← lift (v ← jget item (u "name"); to_str v);
  yes ← confirm (u "Delete " ++ entityLabel env ++ [32; 34]%N ++ name ++ [34%N] ++ u "?");
  when yes (
    sendJSON (u "DELETE") (collection_path env ++ u "/" ++ name) JUndef (TCont (KDelete env))).

Definition delete_then (env : crud_env) (result : jsval) : M unit :=
  ok ← lift (jget result (u "ok"));
  if truthy ok then loadTable env
  else
    msg ← lift (failure_text "Delete failed: " result);
    showCrudError (tableWrap env) msg.

Definition delete_catch (env : crud_env) (e : jstr) : M unit :=
  showCrudError (tableWrap env) (u "Delete failed: " ++ e).

(** * Dialogs *)

(** A modal dialog: its title and the label of its save button; returns the
    overlay, the text area, the cancel and save buttons and the error line. *)
Definition open_dialog (title : jstr) (save : string) (init : nid → M unit)
    : M (nid * nid * nid * nid * nid) :=
  overlay ← el "div" [("class"%string, str "modal-overlay")] NoChildren;
  modal ← el "div" [("class"%string, str "modal")] NoChildren;
  append modal (el_text "h3" (JStr title));;
  textarea ← el "textarea" [("class"%string, str "editor-area")] NoChildren;
  setAttribute textarea "spellcheck" (str "false");;
  init textarea;;
  appendChild modal textarea;;
  btnRow ← el "div" [("class"%string, str "modal-buttons")] NoChildren;
  cancelBtn ← el_class "button" "btn" (str "Cancel");
  saveBtn ← el_class "button" "btn primary" (str save);
  appendChild btnRow cancelBtn;;
  appendChild btnRow saveBtn;;
  appendChild modal btnRow;;
  errorDiv ← el "div" [("class"%string, str "error-msg")] NoChildren;
  appendChild modal errorDiv;;
  appendChild overlay modal;;
  appendChild body_id overlay;;
  mret (overlay, textarea, cancelBtn, saveBtn, errorDiv).

Definition create_hint (label : jstr) : jstr :=
  u "Enter " ++ label ++ u " JSON here..." ++ [10%N] ++ u "Example:" ++ [10%N] ++
  [123; 34]%N ++ u "name" ++ [34%N] ++ u ": " ++ [34%N] ++ u "my-" ++ label ++ [34; 125]%N.

Definition openCreateDialog (env : crud_env) : M unit :=
  dlg ← open_dialog (u "Create " ++ entityLabel env) "Create"
          (λ textarea, modify_data textarea (set_placeholder (create_hint (entityLabel env))));
  let '(overlay, textarea, cancelBtn, saveBtn, errorDiv) := dlg in
  addEventListener cancelBtn "click" (HCancel overlay);;
  addEventListener saveBtn "click" (HCreateSave env overlay textarea errorDiv).

Definition openEditDialog (env : crud_env) (item : jsval) : M unit :=
  title ← lift (v ← get_or item "name" (JStr []); s ← to_str v;
                Ok (u "Edit " ++ entityLabel env ++ u ": " ++ s));
  dlg ← open_dialog title "Save"
          (λ textarea, setValue textarea (default (u "undefined") (stringify2 item)));
  let '(overlay, textarea, cancelBtn, saveBtn, errorDiv) := dlg in
  addEventListener cancelBtn "click" (HCancel overlay);;
  addEventListener saveBtn "click" (HEditSave env item overlay textarea errorDiv).

Definition on_cancel (overlay : nid) : M unit := remove_from_body overlay.

(** Parse the text area, or report it on the error line and stop. *)
Definition with_parsed (textarea errorDiv : nid) (k : jsval → M unit) : M unit :=
  text ← getValue textarea;
  match json_parse text with
  | Ok body => k body
  | Err e => setTextContent errorDiv (JStr (u "Invalid JSON: " ++ e))
  end.

Definition on_create_save (env : crud_env) (overlay textarea errorDiv : nid) : M unit :=
  with_parsed textarea errorDiv (λ body,
    sendJSON (u "POST") (collection_path env) body (TCont (KCreateSave env overlay errorDiv))).

Definition on_edit_save (env : crud_env) (item : jsval) (overlay textarea errorDiv : nid) : M unit :=
  with_parsed textarea errorDiv (λ body,
    name ← lift (v ← get_or item "name" (JStr []); to_str v);
    sendJSON (u "PUT") (collection_path env ++ u "/" ++ name) body
      (TCont (KEditSave env overlay errorDiv))).

(** The response of a save: close the dialog and reload, or report. *)
Definition save_then (prefix : string) (env : crud_env) (overlay errorDiv : nid) (result : jsval)
    : M unit :=
  ok ← lift (jget result (u "ok"));
  if truthy ok then
    remove_from_body overlay;;
    loadTable env
  else
    msg ← lift (failure_text prefix result);
    setTextContent errorDiv (JStr msg).

Definition save_catch (prefix : string) (errorDiv : nid) (e : jstr) : M unit :=
  setTextContent errorDiv (JStr (u prefix ++ e)).

(** * The entities *)

Definition col (field label : string) : column := Column (u field) (u label).

Definition renderRoutesCrud : view_fn :=
  VCrud (u "routes") (u "Route") [col "name" "Name"; col "service" "Service"; col "match" "Match"].
Definition renderUpstreamsCrud : view_fn :=
  VCrud (u "upstreams") (u "Upstream") [col "name" "Name"; col "endpoints" "Endpoints"].
Definition renderServicesCrud : view_fn :=
  VCrud (u "services") (u "Service") [col "name" "Name"; col "upstream" "Upstream"].
Definition renderConsumersCrud : view_fn :=
  VCrud (u "consumers") (u "Consumer") [col "name" "Name"].
Definition renderPoliciesCrud : view_fn :=
  VCrud (u "policies") (u "Policy") [col "name" "Name"].

End host.
