(* ===== verification/ConsoleAiOps.v ===== *)
(** The AI operations view (app.js lines 930 to 1062): four lists, each shown
    as a table or as a note when it is missing or empty. *)

From S2P Require Import Prelude JsNumber JsValue Json ConsoleData Browser ConsoleViews.
Local Open Scope Z_scope.

Section host.
Context {H : Host}.

Definition renderAiOps : M unit :=
  wrap ← open_view (str "AI Operations") (Some VAiOps);
  promise_all ["/ai/credential-pools"; "/mcp/sessions"; "/mcp/tools"; "/experiments/prompt-overrides"]
    true (KAiOps wrap).

(** [x.k || x || []]. *)
Definition list_under (x : jsval) (k : string) : res jsval :=
  y ← jget x (u k); Ok (jor (jor y x) (JArr [])).

(** A card of the view: a non-empty array becomes a table, anything else the
    note. *)
Definition list_card (title : string) (labels : list string) (row : jsval → M nid) (note : string)
    (l : res jsval) : M nid :=
  c ← el "div" [("class"%string, str "chart-card")] NoChildren;
  append c (el_text "h3" (str title));;
  v ← lift l;
  match v with
  | JArr (x :: xs) =>
      append c (table_with labels (λ tbody, for_each (λ r, append tbody (row r)) (x :: xs)))
  | _ => append c (el_text "p" (str note))
  end;;
  mret c.

(** [a.k1 || a.k2 || d] and its string. *)
Definition get_or2 (v : jsval) (k1 k2 : string) (d : jsval) : res jsval :=
  x ← jget v (u k1);
  if truthy x then Ok x else get_or v k2 d.

Definition str_or2 (v : jsval) (k1 k2 : string) (suffix : jstr) : res jsval :=
  x ← get_or2 v k1 k2 (jnum 0); s ← to_str x; Ok (JStr (s ++ suffix)).

Definition pool_row (p : jsval) : M nid :=
  el_of "tr" []
    [ td (get_or2 p "name" "pool" (JStr []));
      td (get_or p "provider" (JStr []));
      td (str_or2 p "active" "active_count" []);
      td (str_or2 p "exhausted" "exhausted_count" []);
      td (str_or2 p "cooldown" "cooldown_secs" (u "s")) ].

Definition session_row (s : jsval) : M nid :=
  el_of "tr" []
    [ td (get_or2 s "id" "session_id" (JStr []));
      td (get_or s "status" (str "active"));
      td (l ← get_or s "tools" (JArr []); n ← length_of l; t ← to_str n; Ok (JStr t)) ].

Definition tool_row (t : jsval) : M nid :=
  el_of "tr" []
    [ td (get_or t "name" (JStr [])); td (get_or t "description" (JStr [])) ].

Definition override_row (o : jsval) : M nid :=
  el_of "tr" []
    [ td (get_or2 o "route" "key" (JStr []));
      td (v ← get_or2 o "value" "override" (JStr []);
          Ok (match stringify v with Some s => JStr s | None => JUndef end)) ].

Definition aiops_then (wrap : nid) (results : list jsval) : M unit :=
  let pools := jor (default JUndef (results !! 0%nat)) (JObj []) in
  let sessions := jor (default JUndef (results !! 1%nat)) (JObj []) in
  let tools := jor (default JUndef (results !! 2%nat)) (JObj []) in
  let overrides := jor (default JUndef (results !! 3%nat)) (JObj []) in
  clear wrap;;
  append wrap (list_card "AI Credential Pools"
    ["Pool"; "Provider"; "Active"; "Exhausted"; "Cooldown"] pool_row
    "No AI credential pools configured." (list_under pools "pools"));;
  append wrap (list_card "MCP Sessions" ["Session ID"; "Status"; "Tools"] session_row
    "No active MCP sessions." (list_under sessions "sessions"));;
  append wrap (list_card "MCP Tools" ["Tool"; "Description"] tool_row
    "No MCP tools registered." (list_under tools "tools"));;
  append wrap (list_card "Experiment Prompt Overrides" ["Route"; "Override"] override_row
    "No experiment overrides active." (list_under overrides "overrides"));;
  setLastRefresh.

End host.
