(* ===== verification/ConsoleApp.v ===== *)
(** The console as an event-driven program (app.js lines 1064 to 1149): the
    workspace switcher, navigation, auto-refresh and start-up, the running of
    its callbacks, and the transition system of the page. *)

From S2P Require Import Prelude JsNumber JsValue Json ConsoleData Browser ConsoleViews.
From S2P Require Import ConsoleEditor ConsoleLive ConsoleCrud ConsoleAiOps.
Local Open Scope Z_scope.

Section host.
Context {H : Host}.

(** * Running a view *)

Definition run_view (v : view_fn) : M unit :=
  match v with
  | VOverview => renderOverview
  | VRoutes => renderRoutes
  | VUpstreams => renderUpstreams
  | VHealth => renderHealth
  | VAnalytics => renderAnalytics
  | VConfig => renderConfig
  | VFleet => renderFleet
  | VEditor => renderEditor
  | VLive => renderLive
  | VCrud name label cols => renderCrudEntity name label cols
  | VAiOps => renderAiOps
  end.

(** * Navigation *)

(** The [views] table. *)
Definition views (name : jstr) : option view_fn :=
  if bool_decide (name = u "overview") then Some VOverview
  else if bool_decide (name = u "live") then Some VLive
  else if bool_decide (name = u "routes") then Some renderRoutesCrud
  else if bool_decide (name = u "upstreams") then Some renderUpstreamsCrud
  else if bool_decide (name = u "health") then Some VHealth
  else if bool_decide (name = u "analytics") then Some VAnalytics
  else if bool_decide (name = u "aiops") then Some VAiOps
  else if bool_decide (name = u "fleet") then Some VFleet
  else if bool_decide (name = u "config") then Some VConfig
  else if bool_decide (name = u "editor") then Some VEditor
  else None.

(** [var renderer = views[name]; if (renderer) renderer();]. *)
Definition render_named (name : jstr) : M unit :=
  match views name with
  | Some v => run_view v
  | None => mret tt
  end.

(** [views[currentView]], rendered. *)
Definition render_current : M unit :=
  name ← gets (λ s, currentView (app s)); render_named name.

(** [btn.dataset.view]. *)
Definition dataset_view (h : gmap nid node) (btn : nid) : option jstr :=
  h !! btn ≫= attr "data-view".

Definition mark_active (view : jstr) (btn : nid) : M unit :=
  s ← get;
  modify_data btn (toggle_class (u "active") (bool_decide (dataset_view (dom s) btn = Some view))).

Definition switchView (view : jstr) : M unit :=
  modify_app (set_currentView view);;
  btns ← querySelectorAll body_id "nav-btn";
  for_each (mark_active view) btns;;
  render_named view.

(** * Auto-refresh *)

Definition stopAutoRefresh : M unit :=
  t ← gets (λ s, refreshTimer (app s));
  match t with
  | Some t => clearInterval t;; modify_app (set_refreshTimer None)
  | None => mret tt
  end.

Definition startAutoRefresh : M unit :=
  stopAutoRefresh;;
  t ← setInterval;
  modify_app (set_refreshTimer (Some t)).

(** * Workspaces *)

Definition workspace_option (select : nid) (ws : jsval) : M unit :=
  append select (
    n ← lift (jget ws (u "name"));
    i ← lift (jget ws (u "id"));
    el "option" [("value"%string, jor (jor n i) (JStr [])); ("text"%string, jor (jor n i) (str "unknown"))]
      NoChildren).

Definition default_option (select : nid) : M unit :=
  append select (el "option" [("value"%string, JStr []); ("text"%string, str "default")] NoChildren).

Definition workspaces_then (select : nid) (d : jsval) : M unit :=
  workspaces ← lift (get_or d "workspaces" (JArr []));
  clear select;;
  forEach workspaces (workspace_option select);;
  n ← lift (length_of workspaces);
  when (is_zero n) (default_option select).

Definition workspaces_catch (select : nid) (e : jstr) : M unit :=
  clear select;;
  default_option select.

Definition initWorkspaceSwitcher : M unit :=
  select ← getElementById "workspace-switcher";
  fetchJSON (u "/workspaces") (TCont (KWorkspaces select));;
  addEventListener select "change" HWorkspace.

(** The change listener reads [select.value] into a variable it does not use. *)
Definition on_workspace : M unit := render_current.

(** * Callbacks *)

Definition on_nav (btn : nid) : M unit :=
  s ← get;
  match dataset_view (dom s) btn with
  | Some v => switchView v
  | None => switchView (u "undefined")
  end.

Definition run_handler (h : handler) : M unit :=
  match h with
  | HRender v => run_view v
  | HValidate textarea preview => on_validate textarea preview
  | HPublish textarea preview => on_publish textarea preview
  | HReset textarea preview => on_reset textarea preview
  | HCreate env => openCreateDialog env
  | HEdit env item => openEditDialog env item
  | HDelete env item => on_delete env item
  | HCancel overlay => on_cancel overlay
  | HCreateSave env overlay textarea errorDiv => on_create_save env overlay textarea errorDiv
  | HEditSave env item overlay textarea errorDiv => on_edit_save env item overlay textarea errorDiv
  | HNav btn => on_nav btn
  | HWorkspace => on_workspace
  end.

(** The elements of a [Promise.all]'s result. *)
Definition elements (v : jsval) : list jsval :=
  match v with
  | JArr l => l
  | _ => []
  end.

(** The text of a [fetchText] result. *)
Definition text_of (v : jsval) : jstr :=
  match v with
  | JStr s => s
  | _ => []
  end.

Definition cont_then (k : cont) (v : jsval) : M unit :=
  match k with
  | KOverview grid => overview_then grid (elements v)
  | KRoutes wrap => routes_then wrap v
  | KUpstreams wrap => upstreams_then wrap v
  | KHealth wrap => health_then wrap v
  | KAnalytics wrap => analytics_then wrap v
  | KConfig wrap => config_then wrap v
  | KFleet wrap => fleet_then wrap (elements v)
  | KEditorLoad textarea => editor_load_then textarea (text_of v)
  | KValidate preview => validate_then preview v
  | KPublish preview body => publish_then preview body v
  | KReset textarea preview => reset_then textarea preview (text_of v)
  | KLive wrap => live_then wrap (elements v)
  | KLoadTable env => load_table_then env v
  | KDelete env => delete_then env v
  | KCreateSave env overlay errorDiv => save_then "Create failed: " env overlay errorDiv v
  | KEditSave env overlay errorDiv => save_then "Save failed: " env overlay errorDiv v
  | KAiOps wrap => aiops_then wrap (elements v)
  | KWorkspaces select => workspaces_then select v
  end.

Definition cont_catch (k : cont) (e : jstr) : M unit :=
  match k with
  | KOverview grid => overview_catch grid e
  | KRoutes wrap | KUpstreams wrap | KAnalytics wrap | KConfig wrap | KLive wrap | KAiOps wrap =>
      show_error wrap e
  | KHealth wrap => health_catch wrap e
  | KFleet wrap => fleet_catch wrap e
  | KEditorLoad textarea => editor_load_catch textarea e
  | KValidate preview => validate_catch preview e
  | KPublish preview _ => publish_catch preview e
  | KReset _ preview => reset_catch preview e
  | KLoadTable env => show_error (tableWrap env) e
  | KDelete env => delete_catch env e
  | KCreateSave _ _ errorDiv => save_catch "Create failed: " errorDiv e
  | KEditSave _ _ errorDiv => save_catch "Save failed: " errorDiv e
  | KWorkspaces select => workspaces_catch select e
  end.

(** [promise.then(k).catch(k)] on a settled promise. *)
Definition resume (k : cont) (r : res jsval) : M unit :=
  match r with
  | Ok v => catch (cont_then k v) (cont_catch k)
  | Err e => cont_catch k e
  end.

(** Fill a slot of a [Promise.all]: it resolves when the last slot is filled
    and rejects at the first failure; once settled it ignores the rest. *)
Definition settle_slot (j i : nat) (or_empty : bool) (r : res jsval) : M unit :=
  s ← get;
  match joins (net s) !! j with
  | None => mret tt
  | Some jn =>
      let drop := modify (λ s, let n := net s in
        set_net (Network (in_flight n) (next_req n) (delete j (joins n)) (next_join n)) s) in
      let fill v :=
        let slots := <[i := Some v]> (j_slots jn) in
        match mapM (λ o, o) slots with
        | Some vs => drop;; resume (j_cont jn) (Ok (JArr vs))
        | None => modify (λ s, let n := net s in
            set_net (Network (in_flight n) (next_req n)
                       (<[j := Join slots (j_cont jn)]> (joins n)) (next_join n)) s)
        end in
      match r with
      | Ok v => fill v
      | Err e => if or_empty then fill (JObj []) else drop;; resume (j_cont jn) (Err e)
      end
  end.

(** A request settles. *)
Definition settle (req : nat) (o : outcome) : M unit :=
  s ← get;
  match in_flight (net s) !! req with
  | None => mret tt
  | Some p =>
      modify (λ s, let n := net s in
        set_net (Network (delete req (in_flight n)) (next_req n) (joins n) (next_join n)) s);;
      let r := read_response (p_mode p) (rq_path (p_request p)) o in
      match p_target p with
      | TCont k => resume k r
      | TSlot j i or_empty => settle_slot j i or_empty r
      end
  end.

(** The [DOMContentLoaded] listener. *)
Definition on_load : M unit :=
  btns ← querySelectorAll body_id "nav-btn";
  for_each (λ btn, addEventListener btn "click" (HNav btn)) btns;;
  initWorkspaceSwitcher;;
  setStatusBadge "connecting";;
  switchView (u "overview");;
  startAutoRefresh.

(** * The transition system *)

(** What happens to the page: loading, a click (with the user's answer should
    the listener ask), a change of the select's value, text typed into a
    field, a timer, the response to a request, or time passing. *)
Inductive event : Type :=
  | EvLoad
  | EvClick (id : nid) (yes : bool)
  | EvChange (id : nid) (value : jstr)
  | EvInput (id : nid) (value : jstr)
  | EvTick (timer : nat)
  | EvSettle (req : nat) (o : outcome)
  | EvWait (ms : Z).

(** Run the listeners of an event on a node; an exception ends its listener. *)
Definition dispatch (id : nid) (ev : string) : M unit :=
  s ← get;
  match dom s !! id with
  | Some n =>
      for_each (λ '(t, h), when (bool_decide (t = u ev)) (catch (run_handler h) (λ _, mret tt)))
        (listeners (data n))
  | None => mret tt
  end.

Definition set_answer (b : bool) : M unit :=
  modify (λ s, St (dom s) (next_id s) (net s) (app s) (clock s) b).

Definition run_event (e : event) : M unit :=
  match e with
  | EvLoad => on_load
  | EvClick id yes => set_answer yes;; dispatch id "click"
  | EvChange id v => setValue id v;; dispatch id "change"
  | EvInput id v => setValue id v
  | EvTick t =>
      s ← get;
      when (bool_decide (t ∈ timers (app s))) render_current
  | EvSettle req o => settle req o
  | EvWait ms =>
      modify (λ s, St (dom s) (next_id s) (net s) (app s) (clock s + Z.max 0 ms) (answer s))
  end.

(** One step of the page: an uncaught exception leaves the state it reached. *)
Definition step (s : st) (e : event) : st := (run_event e s).2.

Definition steps (s : st) (es : list event) : st := foldl step s es.

End host.

(** The page before any script ran. *)
Definition initial (now : Z) : st :=
  St index_html first_free (Network ∅ 0 ∅ 0)
     (Vars (u "overview") None [] false [] ∅ 1) now false.

(** The states the page can reach once loaded. *)
Inductive reachable {H : Host} : st → Prop :=
  | reach_load now : reachable (step (initial now) EvLoad)
  | reach_step s e : reachable s → e ≠ EvLoad → reachable (step s e).
