(* ===== verification/ConsoleFrame.v ===== *)
(** What a callback may touch: a frame logic for the browser monad.

    A computation runs with a set of owned nodes that contains every node it
    will create.  The judgement [wb O lo m] says that, from a page whose
    unowned part holds no owned node, [m] changes owned nodes only, keeps the
    requests in flight, hands its callbacks owned nodes only, builds elements
    from the fixed vocabulary of tags, classes and attributes, keeps the latency
    history within its bound and the editor clean, and leaves the navigation
    state and the timers alone. *)

From S2P Require Import Prelude JsNumber JsValue Json ConsoleData Browser ConsoleViews.
From S2P Require Import ConsoleEditor ConsoleLive ConsoleCrud ConsoleAiOps.

(** * The vocabulary of the page *)

(** Every tag that index.html contains or that app.js creates. *)
Definition allowed_tags : list jstr := u <$>
  ["body"; "header"; "h1"; "nav"; "button"; "select"; "option"; "div"; "main"; "footer"; "span";
   "h2"; "h3"; "p"; "pre"; "table"; "thead"; "tbody"; "tr"; "th"; "td"; "ol"; "li"; "textarea";
   "canvas"]%string.

(** Every class. *)
Definition allowed_classes : list jstr := u <$>
  [""; "nav-btn"; "nav-btn active"; "healthy"; "unhealthy"; "connecting"; "refresh-btn"; "card";
   "error-msg"; "stat-grid"; "stat"; "stat-label"; "stat-value"; "health-ok"; "health-degraded";
   "health-down"; "fleet-card"; "fleet-grid"; "label"; "value"; "value skew-ok"; "value skew-bad";
   "version-badge current"; "version-badge skewed"; "editor-toolbar"; "editor-area"; "btn";
   "btn primary"; "btn small"; "btn small danger"; "validation-preview valid";
   "validation-preview invalid"; "validation-issue"; "field"; "chart-card"; "live-chart";
   "crud-toolbar"; "modal-overlay"; "modal"; "modal-buttons"]%string.

(** Every attribute, besides the class, that they set, with its value. *)
Definition fixed_attributes : list (jstr * jstr) := (λ kv, (u kv.1, u kv.2)) <$>
  ([("id", "topbar"); ("id", "nav"); ("id", "workspace-switcher"); ("id", "status-badge"); ("id", "content");
    ("id", "loading"); ("id", "footer"); ("id", "last-refresh"); ("title", "Workspace"); ("spellcheck", "false");
    ("data-view", "overview"); ("data-view", "live"); ("data-view", "routes"); ("data-view", "upstreams");
    ("data-view", "health"); ("data-view", "analytics"); ("data-view", "aiops"); ("data-view", "fleet");
    ("data-view", "config"); ("data-view", "editor")] : list (string * string)).

(** The one attribute whose value is not fixed is the [value] of an option. *)
Definition attribute_safe (t : jstr) (kv : jstr * jstr) : Prop :=
  kv ∈ fixed_attributes ∨ (kv.1 = u "value" ∧ t = u "option").

#[global] Instance attribute_safe_dec t kv : Decision (attribute_safe t kv).
Proof. unfold attribute_safe. apply _. Defined.

Definition node_safe (n : node) : Prop :=
  tag (data n) ∈ allowed_tags ∧
  className (data n) ∈ allowed_classes ∧
  Forall (attribute_safe (tag (data n))) (attributes (data n)).

Definition dom_safe (h : gmap nid node) : Prop := map_Forall (λ _ n, node_safe n) h.

(** * The nodes a callback captures *)

Definition env_nodes (env : crud_env) : list nid := [tableWrap env].

Definition handler_nodes (h : handler) : list nid :=
  match h with
  | HRender _ | HWorkspace | HNav _ => []
  | HValidate a b | HPublish a b | HReset a b => [a; b]
  | HCreate env | HEdit env _ | HDelete env _ => env_nodes env
  | HCancel a => [a]
  | HCreateSave env a b c | HEditSave env _ a b c => [a; b; c] ++ env_nodes env
  end.

Definition cont_nodes (k : cont) : list nid :=
  match k with
  | KOverview a | KRoutes a | KUpstreams a | KHealth a | KAnalytics a | KConfig a | KFleet a
  | KEditorLoad a | KValidate a | KPublish a _ | KLive a | KAiOps a => [a]
  | KWorkspaces _ => []
  | KReset a b => [a; b]
  | KLoadTable env | KDelete env => env_nodes env
  | KCreateSave env a b | KEditSave env a b => [a; b] ++ env_nodes env
  end.

(** What is left in place is left in place. *)
Ltac frame_triv := try done; try solve [intros; left; eauto | intros; lia | intros; eauto].

(** The workspace switcher's is the only listener of another event than a
    click. *)
Definition fires_ok (l : jstr * handler) : Prop := l.1 = u "click" ∨ l.2 = HWorkspace.

Section frame.
Variable O : nid → Prop.

(** An allocated node the computation owns, other than a static one. *)
Definition own (lo : nat) (c : nid) : Prop := O c ∧ first_free ≤ c ∧ c < lo.

Definition nodes_ok (lo : nat) (l : list nid) : Prop := Forall (own lo) l.

Definition listener_ok (lo : nat) (l : jstr * handler) : Prop :=
  nodes_ok lo (handler_nodes l.2) ∧ fires_ok l.

(** The workspace list is the one continuation that writes to a static node. *)
Definition cont_ok (lo : nat) (k : cont) : Prop :=
  match k with
  | KWorkspaces select => select = switcher_id
  | _ => nodes_ok lo (cont_nodes k)
  end.

Definition target_ok (s : st) (t : target) : Prop :=
  match t with
  | TCont k => cont_ok (next_id s) k
  | TSlot j _ _ => j < next_join (net s)
  end.

(** The children of a node that belong to the static page. *)
Definition static_kid (k : child) : Prop :=
  match k with
  | CElem c => c < first_free
  | CText _ => False
  end.
#[global] Instance static_kid_dec k : Decision (static_kid k).
Proof. destruct k; simpl; apply _. Defined.

Definition static_kids (h : gmap nid node) (id : nid) : option (list child) :=
  (λ n, filter static_kid (kids n)) <$> h !! id.

(** The states a computation starts from. *)
Record pre (lo : nat) (s : st) : Prop := Pre {
  pre_lo : lo ≤ next_id s;
  pre_static : first_free ≤ next_id s;
  pre_owned : ∀ id, next_id s ≤ id → O id;
  pre_fresh : ∀ id, next_id s ≤ id → dom s !! id = None;
  pre_sep : ∀ id n c, dom s !! id = Some n → ¬ O id → CElem c ∈ kids n → ¬ (O c ∧ first_free ≤ c);
  pre_down : ∀ id n c, dom s !! id = Some n → O id → first_free ≤ id → CElem c ∈ kids n →
               own (next_id s) c;
  pre_reqs : ∀ r, next_req (net s) ≤ r → in_flight (net s) !! r = None;
  pre_joins : ∀ j, next_join (net s) ≤ j → joins (net s) !! j = None;
}.

(** How a computation may change the page. *)
Record rel (s s' : st) : Prop := Rel {
  rel_next : next_id s ≤ next_id s';
  rel_fresh : ∀ id, next_id s' ≤ id → dom s' !! id = None;
  rel_unowned : ∀ id, ¬ O id → dom s' !! id = dom s !! id;
  rel_kids : ∀ id n' c, dom s' !! id = Some n' → CElem c ∈ kids n' →
    (∃ n, dom s !! id = Some n ∧ CElem c ∈ kids n) ∨ own (next_id s') c;
  rel_listeners : ∀ id n' l, dom s' !! id = Some n' → l ∈ listeners (data n') →
    (∃ n, dom s !! id = Some n ∧ l ∈ listeners (data n)) ∨ listener_ok (next_id s') l;
  rel_safe : dom_safe (dom s) → dom_safe (dom s');
  rel_tags : ∀ id n, dom s !! id = Some n → ∃ n', dom s' !! id = Some n' ∧ tag (data n') = tag (data n);
  rel_body : static_kids (dom s') body_id = static_kids (dom s) body_id;
  rel_next_req : next_req (net s) ≤ next_req (net s');
  rel_next_join : next_join (net s) ≤ next_join (net s');
  rel_reqs : ∀ r p, in_flight (net s) !! r = Some p → in_flight (net s') !! r = Some p;
  rel_new_reqs : ∀ r p, in_flight (net s') !! r = Some p →
    in_flight (net s) !! r = Some p ∨ (next_req (net s) ≤ r ∧ target_ok s' (p_target p));
  rel_fresh_reqs : ∀ r, next_req (net s') ≤ r → in_flight (net s') !! r = None;
  rel_joins : ∀ j jn, joins (net s) !! j = Some jn → joins (net s') !! j = Some jn;
  rel_new_joins : ∀ j jn, joins (net s') !! j = Some jn →
    joins (net s) !! j = Some jn ∨
    (next_join (net s) ≤ j ∧ cont_ok (next_id s') (j_cont jn));
  rel_fresh_joins : ∀ j, next_join (net s') ≤ j → joins (net s') !! j = None;
  rel_history : length (history (app s)) ≤ maxPoints → length (history (app s')) ≤ maxPoints;
  rel_dirty : editor_dirty (app s) = false → editor_dirty (app s') = false;
  rel_view : currentView (app s') = currentView (app s);
  rel_timers : (refreshTimer (app s'), timers (app s'), next_timer (app s'))
             = (refreshTimer (app s), timers (app s), next_timer (app s));
}.

Lemma own_mono lo lo' c : own lo c → lo ≤ lo' → own lo' c.
Proof. unfold own. intuition lia. Qed.

Lemma nodes_ok_mono lo lo' l : nodes_ok lo l → lo ≤ lo' → nodes_ok lo' l.
Proof. intros Hl ?. eapply list.Forall_impl; [exact Hl|]. intros c Hc. by eapply own_mono. Qed.

Lemma listener_ok_mono lo lo' l : listener_ok lo l → lo ≤ lo' → listener_ok lo' l.
Proof. intros [? ?] ?. split; [by eapply nodes_ok_mono|done]. Qed.

Lemma cont_ok_mono lo lo' k : cont_ok lo k → lo ≤ lo' → cont_ok lo' k.
Proof. destruct k; try apply nodes_ok_mono. done. Qed.

Lemma target_ok_mono s s' t :
  target_ok s t → next_id s ≤ next_id s' → next_join (net s) ≤ next_join (net s') →
  target_ok s' t.
Proof. destruct t; simpl; [intros ? ? ?; by eapply cont_ok_mono|lia]. Qed.

Lemma pre_rel lo s s' : pre lo s → rel s s' → pre (next_id s') s'.
Proof.
  intros Hp Hr. pose proof (rel_next _ _ Hr). constructor; try apply Hr.
  - done.
  - pose proof (pre_static _ _ Hp). lia.
  - intros id Hid. apply (pre_owned _ _ Hp). lia.
  - intros id n c Hn Ho Hc. rewrite (rel_unowned _ _ Hr) in Hn by done.
    by eapply (pre_sep _ _ Hp).
  - intros id n c Hn Ho Hid Hc. destruct (rel_kids _ _ Hr _ _ _ Hn Hc) as [(n0 & Hn0 & Hc0)|]; [|done].
    eapply own_mono; [by eapply (pre_down _ _ Hp)|done].
Qed.

Lemma pre_weaken lo lo' s : pre lo s → lo' ≤ lo → pre lo' s.
Proof. intros Hp ?. destruct Hp. constructor; try done. lia. Qed.

Lemma rel_refl lo s : pre lo s → rel s s.
Proof. intros Hp. constructor; try done; try apply Hp; frame_triv. Qed.

Lemma rel_trans s1 s2 s3 : rel s1 s2 → rel s2 s3 → rel s1 s3.
Proof.
  intros H1 H2. pose proof (rel_next _ _ H1). pose proof (rel_next _ _ H2).
  pose proof (rel_next_req _ _ H1). pose proof (rel_next_req _ _ H2).
  pose proof (rel_next_join _ _ H1). pose proof (rel_next_join _ _ H2).
  constructor; try apply H2; try lia.
  - intros id Ho. rewrite (rel_unowned _ _ H2), (rel_unowned _ _ H1); done.
  - intros id n' c Hn Hc. destruct (rel_kids _ _ H2 _ _ _ Hn Hc) as [(n & Hn2 & Hc2)|]; [|by right].
    destruct (rel_kids _ _ H1 _ _ _ Hn2 Hc2) as [|Ho]; [by left|]. right. by eapply own_mono.
  - intros id n' l Hn Hl. destruct (rel_listeners _ _ H2 _ _ _ Hn Hl) as [(n & Hn2 & Hl2)|]; [|by right].
    destruct (rel_listeners _ _ H1 _ _ _ Hn2 Hl2) as [|Ho]; [by left|]. right. by eapply listener_ok_mono.
  - intros Hs. by apply (rel_safe _ _ H2), (rel_safe _ _ H1).
  - intros id n Hn. destruct (rel_tags _ _ H1 _ _ Hn) as (n1 & Hn1 & E1). destruct (rel_tags _ _ H2 _ _ Hn1) as (n2 & Hn2 & E2).
    exists n2. split; [done|congruence].
  - by rewrite (rel_body _ _ H2), (rel_body _ _ H1).
  - intros r p Hp. by apply (rel_reqs _ _ H2), (rel_reqs _ _ H1).
  - intros r p Hp. destruct (rel_new_reqs _ _ H2 _ _ Hp) as [Hp2|[? ?]]; [|right; split; [lia|done]].
    destruct (rel_new_reqs _ _ H1 _ _ Hp2) as [|[? Ho]]; [by left|]. right. split; [done|].
    by eapply target_ok_mono.
  - intros j jn Hj. by apply (rel_joins _ _ H2), (rel_joins _ _ H1).
  - intros j jn Hj. destruct (rel_new_joins _ _ H2 _ _ Hj) as [Hj2|[? ?]]; [|right; split; [lia|done]].
    destruct (rel_new_joins _ _ H1 _ _ Hj2) as [|[? Ho]]; [by left|]. right. split; [done|].
    by eapply cont_ok_mono.
  - intros Hl. by apply (rel_history _ _ H2), (rel_history _ _ H1).
  - intros Hl. by apply (rel_dirty _ _ H2), (rel_dirty _ _ H1).
  - rewrite (rel_view _ _ H2). apply H1.
  - rewrite (rel_timers _ _ H2). apply H1.
Qed.

End frame.

(** * What a result of each type guarantees *)

Class Post (A : Type) : Type := post : (nid → Prop) → nat → A → Prop.
#[global] Instance post_nid : Post nid := own.
#[global] Instance post_list `{Post A} : Post (list A) := λ O lo, Forall (post O lo).
#[global] Instance post_option `{Post A} : Post (option A) := λ O lo o, ∀ x, o = Some x → post O lo x.
#[global] Instance post_prod `{Post A, Post B} : Post (A * B) :=
  λ O lo p, post O lo p.1 ∧ post O lo p.2.
#[global] Instance post_unit : Post unit := λ _ _ _, True.
#[global] Instance post_bool : Post bool := λ _ _ _, True.
#[global] Instance post_N : Post N := λ _ _ _, True.
#[global] Instance post_Z : Post Z := λ _ _ _, True.
#[global] Instance post_jsval : Post jsval := λ _ _ _, True.
#[global] Instance post_num : Post num := λ _ _ _, True.
#[global] Instance post_st : Post st := λ _ _ _, True.
#[global] Instance post_point : Post point := λ _ _ _, True.
#[global] Instance post_row : Post upstream_row := λ _ _ _, True.
#[global] Instance post_op : Post canvas_op := λ _ _ _, True.

(** The types of plain data, whose values guarantee nothing. *)
Class Plain (A : Type) `{Post A} : Prop := plain : ∀ O lo (a : A), post O lo a.
#[global] Instance plain_unit : Plain unit := λ _ _ _, I.
#[global] Instance plain_bool : Plain bool := λ _ _ _, I.
#[global] Instance plain_N : Plain N := λ _ _ _, I.
#[global] Instance plain_Z : Plain Z := λ _ _ _, I.
#[global] Instance plain_jsval : Plain jsval := λ _ _ _, I.
#[global] Instance plain_num : Plain num := λ _ _ _, I.
#[global] Instance plain_st : Plain st := λ _ _ _, I.
#[global] Instance plain_point : Plain point := λ _ _ _, I.
#[global] Instance plain_row : Plain upstream_row := λ _ _ _, I.
#[global] Instance plain_op : Plain canvas_op := λ _ _ _, I.
#[global] Instance plain_list `{Plain A} : Plain (list A).
Proof. intros O lo l. apply list.Forall_forall. intros x _. apply plain. Qed.

(** * The judgement *)

Section judgement.
Variable O : nid → Prop.
#[local] Abbreviation own := (own O).
#[local] Abbreviation nodes_ok := (nodes_ok O).
#[local] Abbreviation listener_ok := (listener_ok O).
#[local] Abbreviation cont_ok := (cont_ok O).
#[local] Abbreviation target_ok := (target_ok O).
#[local] Abbreviation pre := (pre O).
#[local] Abbreviation rel := (rel O).
#[local] Abbreviation post := (post O).

Definition wb {A} `{Post A} (lo : nat) (m : M A) : Prop :=
  ∀ s, pre lo s → rel s (m s).2 ∧ ∀ a, (m s).1 = Ok a → post (next_id (m s).2) a.

Lemma wb_ret `{Post A} lo (a : A) : (∀ lo', lo ≤ lo' → post lo' a) → wb lo (mret a).
Proof.
  intros Ha s Hs. split; [by eapply rel_refl|]. intros b [= <-]. apply Ha, (pre_lo _ _ _ Hs).
Qed.

Lemma wb_lift `{Plain A} lo (r : res A) : wb lo (lift r).
Proof. intros s Hs. split; [by eapply rel_refl|]. intros a _. apply plain. Qed.

Lemma wb_bind `{Post A, Post B} lo (m : M A) (f : A → M B) :
  wb lo m → (∀ a lo', lo ≤ lo' → post lo' a → wb lo' (f a)) → wb lo (m ≫= f).
Proof.
  intros Hm Hf s Hs. destruct (Hm s Hs) as [Hr Ha].
  unfold mbind, M_bind. destruct (m s) as [[a|e] s1]; simpl in *; [|done].
  destruct (Hf a (next_id s1)) with (s := s1) as [Hr2 Hb].
  - pose proof (rel_next _ _ _ Hr). pose proof (pre_lo _ _ _ Hs). lia.
  - by apply Ha.
  - by eapply pre_rel.
  - split; [by eapply rel_trans|done].
Qed.

Lemma wb_catch `{Post A} lo (m : M A) h :
  wb lo m → (∀ e lo', lo ≤ lo' → wb lo' (h e)) → wb lo (catch m h).
Proof.
  intros Hm Hh s Hs. destruct (Hm s Hs) as [Hr Ha].
  unfold catch. destruct (m s) as [[a|e] s1]; simpl in *; [done|].
  destruct (Hh e (next_id s1)) with (s := s1) as [Hr2 Hb].
  - pose proof (rel_next _ _ _ Hr). pose proof (pre_lo _ _ _ Hs). lia.
  - by eapply pre_rel.
  - split; [by eapply rel_trans|done].
Qed.

Lemma wb_for_each {A} lo (f : A → M unit) l :
  (∀ x lo', lo ≤ lo' → x ∈ l → wb lo' (f x)) → wb lo (for_each f l).
Proof.
  revert lo. induction l as [|x l IH]; intros lo Hf; simpl.
  - apply wb_ret. done.
  - apply wb_bind; [by apply Hf; [|constructor]|]. intros _ lo' Hlo _.
    apply IH. intros y lo'' ??. apply Hf; [lia|by constructor].
Qed.

Lemma post_list_mono `{Post A} lo lo' (l : list A) :
  (∀ a, post lo a → post lo' a) → post lo l → post lo' l.
Proof. intros Hm Hl. eapply list.Forall_impl; [exact Hl|done]. Qed.

Lemma wb_mapM {A} `{Post B} lo (f : A → M B) l :
  (∀ lo lo' (b : B), lo ≤ lo' → post lo b → post lo' b) →
  (∀ x lo', lo ≤ lo' → x ∈ l → wb lo' (f x)) → wb lo (mapM f l).
Proof.
  intros Hmono. revert lo. induction l as [|x l IH]; intros lo Hf; simpl.
  - apply wb_ret. constructor.
  - apply wb_bind; [by apply Hf; [|constructor]|]. intros y lo' Hlo Hy.
    apply wb_bind.
    + apply IH. intros z lo'' ??. apply Hf; [lia|by constructor].
    + intros ys lo'' Hlo' Hys. apply wb_ret. intros lo3 ?. constructor; [by eapply Hmono, Hy; lia|].
      eapply post_list_mono; [|exact Hys]. intros a. by apply Hmono.
Qed.

Lemma wb_when lo b m : wb lo m → wb lo (when b m).
Proof. destruct b; [done|]. intros _. apply wb_ret. done. Qed.

Lemma wb_gets `{Plain A} lo (f : st → A) : wb lo (gets f).
Proof. intros s Hs. split; [by eapply rel_refl|]. intros a _. apply plain. Qed.

Lemma wb_get lo : wb lo get.
Proof. apply (wb_gets lo (λ s, s)). Qed.

(** * The primitives *)

(** A change of the owned node [id] that keeps what [rel] restricts. *)
Lemma rel_alter lo s id (f : node → node) :
  pre lo s → O id →
  (∀ n c, CElem c ∈ kids (f n) → CElem c ∈ kids n ∨ own (next_id s) c) →
  (∀ n l, l ∈ listeners (data (f n)) →
     l ∈ listeners (data n) ∨ listener_ok (next_id s) l) →
  (∀ n, dom s !! id = Some n → node_safe n → node_safe (f n)) →
  (∀ n, tag (data (f n)) = tag (data n)) →
  (id = body_id → ∀ n, filter static_kid (kids (f n)) = filter static_kid (kids n)) →
  rel s (set_dom (alter f id (dom s)) s).
Proof.
  intros Hp Ho Hk Hl Hsafe Htag Hbody. constructor; simpl; try done; try apply Hp; frame_triv.
  - intros i Hi. rewrite lookup_alter_None. by apply (pre_fresh _ _ _ Hp).
  - intros i Hi. rewrite lookup_alter_ne; [done|]. by intros ->.
  - intros i n' c Hn Hc. rewrite lookup_alter in Hn. case_decide; subst; [|by left; eauto].
    destruct (dom s !! i) as [n|] eqn:E; [|done]. injection Hn as <-.
    destruct (Hk _ _ Hc); [left; eauto|by right].
  - intros i n' l Hn Hc. rewrite lookup_alter in Hn. case_decide; subst; [|by left; eauto].
    destruct (dom s !! i) as [n|] eqn:E; [|done]. injection Hn as <-.
    destruct (Hl _ _ Hc); [left; eauto|by right].
  - intros Hs i n' Hn. rewrite lookup_alter in Hn. case_decide; subst; [|by eapply Hs].
    destruct (dom s !! i) as [n|] eqn:E; [|done]. injection Hn as <-. apply Hsafe; [done|]. by eapply Hs.
  - intros i n Hn. rewrite lookup_alter. case_decide; [subst; rewrite Hn; simpl|]; eauto.
  - unfold static_kids. rewrite lookup_alter. case_decide as Hd; [|done].
    destruct (dom s !! id) eqn:E; simplify_eq; rewrite E; simpl; [|done]. f_equal. by apply Hbody.
Qed.

Lemma wb_mono `{Post A} lo lo' (m : M A) : wb lo m → lo ≤ lo' → wb lo' m.
Proof. intros Hm ? s Hs. apply Hm. by eapply pre_weaken. Qed.

Definition edata_safe (d : edata) : Prop := node_safe (Node d []).

Lemma wb_modify_data lo id f :
  O id →
  (∀ d lo' l, lo ≤ lo' → l ∈ listeners (f d) →
     l ∈ listeners d ∨ listener_ok lo' l) →
  (∀ d, edata_safe d → edata_safe (f d)) →
  (∀ d, tag (f d) = tag d) →
  wb lo (modify_data id f).
Proof.
  intros Ho Hl Hsafe Htag s Hs. split; [|done]. simpl. apply rel_alter with lo; try done.
  - auto.
  - intros n l. apply Hl, (pre_lo _ _ _ Hs).
  - intros n _ Hn. by apply Hsafe.
  - intros n. apply Htag.
Qed.

Lemma wb_set_kids lo id f :
  O id → id ≠ body_id → (∀ l c, CElem c ∈ f l → CElem c ∈ l) →
  wb lo (modify_node id (λ n, Node (data n) (f (kids n)))).
Proof.
  intros Ho Hb Hf s Hs. split; [|done]. simpl. apply rel_alter with lo; try done; simpl; auto.
Qed.

Lemma wb_clear lo id : O id → id ≠ body_id → wb lo (clear id).
Proof. intros Ho Hb. apply (wb_set_kids lo id (λ _, [])); [done|done|]. intros l c Hc. by apply elem_of_nil in Hc. Qed.

Lemma wb_setTextContent_str lo id t : O id → id ≠ body_id → wb lo (setTextContent_str id t).
Proof.
  intros Ho Hb. apply (wb_set_kids lo id (λ _, text_kids t)); [done|done|]. intros l c Hc.
  destruct t; simpl in Hc; [by apply elem_of_nil in Hc|]. by apply list_elem_of_singleton in Hc.
Qed.

Lemma wb_setValue lo id v : O id → wb lo (setValue id v).
Proof. intros Ho. apply wb_modify_data; [done|by left|by intros d [? ?]|done]. Qed.

Lemma wb_draw lo id op : O id → wb lo (draw id op).
Proof. intros Ho. apply wb_modify_data; [done|by left|by intros d [? ?]|done]. Qed.

Lemma wb_addEventListener lo id ev h :
  O id → nodes_ok lo (handler_nodes h) → fires_ok (u ev, h) → wb lo (addEventListener id ev h).
Proof.
  intros Ho Hh Hev. apply wb_modify_data; [done| |by intros d [? ?]|done].
  intros d lo' l Hlo Hl. simpl in Hl. apply elem_of_app in Hl as [?|Hl]; [by left|].
  apply list_elem_of_singleton in Hl as ->. right. split; [by eapply nodes_ok_mono|done].
Qed.

Lemma wb_createElement lo t : u t ∈ allowed_tags → wb lo (createElement (u t)).
Proof.
  intros Ht s Hs. unfold createElement; simpl. split.
  - constructor; simpl; try done; try apply Hs; frame_triv.
    + intros i Hi. rewrite lookup_insert_ne by lia. apply (pre_fresh _ _ _ Hs). lia.
    + intros i Hi. rewrite lookup_insert_ne; [done|]. intros <-. apply Hi, (pre_owned _ _ _ Hs). lia.
    + intros i n' c Hn Hc. apply lookup_insert_Some in Hn as [[<- <-]|[? Hn]]; [|by left; eauto].
      by apply elem_of_nil in Hc.
    + intros i n' c Hn Hc. apply lookup_insert_Some in Hn as [[<- <-]|[? Hn]]; [|by left; eauto].
      by apply elem_of_nil in Hc.
    + intros Hsafe. apply map_Forall_insert_2; [|done]. split; [done|]. split; [|constructor].
      apply (bool_decide_unpack _). by vm_compute.
    + intros i n Hn. rewrite lookup_insert_ne; [by eauto|]. intros <-. rewrite (pre_fresh _ _ _ Hs) in Hn; [done|lia].
    + unfold static_kids. rewrite lookup_insert_ne; [done|].
      pose proof (pre_static _ _ _ Hs) as Hf. unfold first_free, body_id in *. lia.
  - intros a Ha. injection Ha as <-. simpl. split; [apply (pre_owned _ _ _ Hs); lia|].
    split; [apply (pre_static _ _ _ Hs)|lia].
Qed.

(** Detaching an owned node changes owned nodes only. *)
Lemma drop_kid_id c n : CElem c ∉ kids n → drop_kid c n = n.
Proof.
  intros Hc. destruct n as [d ks]. unfold drop_kid; simpl in *. f_equal.
  apply list_filter_true. apply list.Forall_forall. intros [i|t] Hk; simpl; [|done].
  apply bool_decide_eq_false. by intros ->.
Qed.

Lemma rel_detach lo s c : pre lo s → O c → first_free ≤ c → rel s (set_dom (detach c (dom s)) s).
Proof.
  intros Hp Ho Hc. unfold detach. constructor; simpl; try done; try apply Hp; frame_triv.
  - intros i Hi. rewrite lookup_fmap, (pre_fresh _ _ _ Hp); done.
  - intros i Hi. rewrite lookup_fmap. destruct (dom s !! i) as [n|] eqn:E; [|done]. simpl. f_equal.
    apply drop_kid_id. intros Hk. by eapply (pre_sep _ _ _ Hp).
  - intros i n' k Hn Hk. rewrite lookup_fmap in Hn. destruct (dom s !! i) as [n|] eqn:E; [|done].
    injection Hn as <-. left. exists n. split; [done|]. by apply list_elem_of_filter in Hk as [_ ?].
  - intros i n' k Hn Hk. rewrite lookup_fmap in Hn. destruct (dom s !! i) as [n|] eqn:E; [|done].
    injection Hn as <-. left. exists n. done.
  - intros Hs. apply map_Forall_fmap. intros i n Hn. by apply Hs in Hn.
  - intros i n Hn. rewrite lookup_fmap, Hn. by eexists.
  - unfold static_kids. rewrite lookup_fmap. destruct (dom s !! body_id); simpl; [|done]. f_equal.
    rewrite list_filter_filter. apply list_filter_iff. intros [i|t]; simpl; [|tauto].
    destruct (decide (i = c)); [subst; split; [|lia]; tauto|].
    rewrite bool_decide_eq_false. tauto.
Qed.

Lemma wb_remove lo c : own lo c → wb lo (remove c).
Proof. intros (? & ? & ?) s Hs. split; [|done]. by eapply rel_detach. Qed.

Lemma wb_appendChild lo p c : O p → own lo c → wb lo (appendChild p c).
Proof.
  intros Hp Hc s Hs. split; [|done].
  pose proof (rel_detach lo s c Hs (proj1 Hc) (proj1 (proj2 Hc))) as Hr.
  eapply rel_trans; [exact Hr|]. simpl.
  apply (rel_alter (next_id s) (set_dom (detach c (dom s)) s) p).
  - exact (pre_rel O lo s _ Hs Hr).
  - done.
  - intros n k Hk. simpl in Hk. apply elem_of_app in Hk as [?|Hk]; [by left|].
    apply list_elem_of_singleton in Hk as [= ->]. right. eapply own_mono; [done|apply Hs].
  - by left.
  - done.
  - done.
  - intros _ n. simpl. rewrite list.filter_app, filter_cons_False by (simpl; destruct Hc; lia).
    by rewrite list.filter_nil, app_nil_r.
Qed.

Lemma wb_modify_app lo f :
  (∀ a, currentView (f a) = currentView a ∧
        (refreshTimer (f a), timers (f a), next_timer (f a))
        = (refreshTimer a, timers a, next_timer a) ∧
        (length (history a) ≤ maxPoints → length (history (f a)) ≤ maxPoints) ∧
        (editor_dirty a = false → editor_dirty (f a) = false)) →
  wb lo (modify_app f).
Proof.
  intros Hf s Hs. split; [|done]. destruct (Hf (app s)) as (? & ? & ? & ?).
  constructor; simpl; try done; try apply Hs; frame_triv; naive_solver.
Qed.

Lemma rel_fetch lo rq md t s :
  pre lo s → target_ok s t → rel s (fetch rq md t s).2.
Proof.
  intros Hs Ht. constructor; simpl; try done; try apply Hs; frame_triv.
  - intros r p Hp. rewrite lookup_insert_ne; [done|]. intros <-.
    by rewrite (pre_reqs _ _ _ Hs) in Hp.
  - intros r p Hp. apply lookup_insert_Some in Hp as [[<- <-]|[? Hp]]; [|by left].
    right. split; [done|]. eapply target_ok_mono; [exact Ht|simpl; lia..].
  - intros r Hr. rewrite lookup_insert_ne by lia. apply (pre_reqs _ _ _ Hs). lia.
Qed.

Lemma wb_fetch lo rq md k : cont_ok lo k → wb lo (fetch rq md (TCont k)).
Proof.
  intros Hk s Hs. split; [|done]. eapply rel_fetch; [done|]. eapply cont_ok_mono; [done|apply Hs].
Qed.

Lemma rel_new_join lo n k s : pre lo s → cont_ok lo k → rel s (new_join n k s).2.
Proof.
  intros Hs Hk. constructor; simpl; try done; try apply Hs; frame_triv.
  - intros r p Hp. rewrite lookup_insert_ne; [done|]. intros <-.
    by rewrite (pre_joins _ _ _ Hs) in Hp.
  - intros r p Hp. apply lookup_insert_Some in Hp as [[<- <-]|[? Hp]]; [|by left].
    right. split; [done|]. eapply cont_ok_mono; [done|apply Hs].
  - intros r Hr. rewrite lookup_insert_ne by lia. apply (pre_joins _ _ _ Hs). lia.
Qed.

(** The fetches of a [Promise.all] fill slots of a join that exists. *)
Lemma rel_fetch_slots j or_empty l s :
  pre (next_id s) s → j < next_join (net s) →
  rel s (for_each (λ '(i, p), fetchJSON (u p) (TSlot j i or_empty)) l s).2.
Proof.
  revert s. induction l as [|[i p] l IH]; intros s Hs Hj; simpl.
  - by eapply rel_refl.
  - assert (rel s (fetchJSON (u p) (TSlot j i or_empty) s).2) as Hr by (by eapply rel_fetch).
    eapply rel_trans; [exact Hr|]. apply IH; [|done]. by eapply (pre_rel O _ s).
Qed.

Lemma wb_promise_all lo paths or_empty k : cont_ok lo k → wb lo (promise_all paths or_empty k).
Proof.
  intros Hk s Hs. split; [|intros; exact I].
  assert (rel s (new_join (length paths) k s).2) as Hr by (by eapply rel_new_join).
  eapply rel_trans; [exact Hr|].
  refine (rel_fetch_slots (next_join (net s)) or_empty (imap pair paths) _ _ _).
  - exact (pre_rel O lo s _ Hs Hr).
  - simpl. lia.
Qed.

(** Searching below an owned node finds owned nodes. *)
Lemma descendants_own lo s fuel id c :
  pre lo s → O id → first_free ≤ id → c ∈ descendants fuel (dom s) id → own (next_id s) c.
Proof.
  intros Hp. revert id. induction fuel as [|fuel IH]; simpl; intros id Ho Hid Hc.
  - by apply elem_of_nil in Hc.
  - destruct (dom s !! id) as [n|] eqn:E; [|by apply elem_of_nil in Hc].
    apply list_elem_of_In, in_flat_map in Hc as (k & Hk & Hc).
    apply list_elem_of_In in Hk, Hc. destruct k as [i|t]; [|by apply elem_of_nil in Hc].
    pose proof (pre_down _ _ _ Hp _ _ _ E Ho Hid Hk) as (Hoi & Hi & _).
    apply elem_of_cons in Hc as [->|Hc]; [by eapply (pre_down _ _ _ Hp)|by eapply IH].
Qed.

Lemma wb_querySelector lo root c : O root → first_free ≤ root → wb lo (querySelector root c).
Proof.
  intros Ho Hroot. unfold querySelector. apply wb_bind.
  - intros s Hs. split; [by eapply rel_refl|]. intros l Hl. injection Hl as <-. apply list.Forall_forall.
    intros x Hx. apply list_elem_of_filter in Hx as [_ Hx]. by eapply descendants_own.
  - intros l lo' Hlo Hl. apply wb_ret. intros lo'' Hlo' x Hx.
    destruct l as [|y l]; [done|]. injection Hx as <-.
    apply Forall_inv in Hl. by eapply own_mono.
Qed.

Section host.
Context {H : Host}.

Lemma wb_setClassName lo id c :
  O id → c ∈ allowed_classes → wb lo (setClassName id (JStr c)).
Proof.
  intros Ho Hc. unfold setClassName. simpl. apply wb_modify_data; [done|by left| |done].
  by intros d (? & ? & ?).
Qed.

Lemma wb_setTextContent lo id v : O id → id ≠ body_id → wb lo (setTextContent id v).
Proof.
  intros Ho Hb. unfold setTextContent. apply wb_bind; [apply wb_lift; apply _|].
  intros t lo' _ _. by apply wb_setTextContent_str.
Qed.

(** An attribute set on an element of a known tag. *)
Lemma attribute_set_safe k t d : attribute_safe (tag d) (u k, t) → edata_safe d →
  edata_safe (set_attributes (filter (λ kv, kv.1 ≠ u k) (attributes d) ++ [(u k, t)]) d).
Proof.
  intros Hk (? & ? & Ha). split; [done|]. split; [done|]. simpl in *.
  apply Forall_app. split; [|constructor; [done|constructor]]. apply list.Forall_forall.
  intros kv Hkv. apply list_elem_of_filter in Hkv as [_ ?]. by eapply list.Forall_forall in Ha.
Qed.

Lemma wb_setAttribute lo id k t : O id → (u k, t) ∈ fixed_attributes → wb lo (setAttribute id k (JStr t)).
Proof.
  intros Ho Hk. unfold setAttribute. apply wb_modify_data; [done|by left| |done].
  intros d Hd. apply attribute_set_safe; [by left|done].
Qed.

(** * A new element's tag *)

(** [wb], where the element [id] has the tag [t]. *)
Definition wb_of (t : jstr) (id : nid) {A} `{Post A} (lo : nat) (m : M A) : Prop :=
  ∀ s, pre lo s → (∃ n, dom s !! id = Some n ∧ tag (data n) = t) →
    rel s (m s).2 ∧ ∀ a, (m s).1 = Ok a → post (next_id (m s).2) a.

Lemma wb_of_wb t id `{Post A} lo (m : M A) : wb lo m → wb_of t id lo m.
Proof. intros Hm s Hs _. by apply Hm. Qed.

Lemma wb_of_bind t id `{Post A, Post B} lo (m : M A) (f : A → M B) :
  wb_of t id lo m → (∀ a lo', lo ≤ lo' → post lo' a → wb_of t id lo' (f a)) → wb_of t id lo (m ≫= f).
Proof.
  intros Hm Hf s Hs Ht. destruct (Hm s Hs Ht) as [Hr Ha]. destruct Ht as (n & Hn & Et).
  unfold mbind, M_bind. destruct (m s) as [[a|e] s1]; simpl in *; [|done].
  destruct (Hf a (next_id s1)) with (s := s1) as [Hr2 Hb].
  - pose proof (rel_next _ _ _ Hr). pose proof (pre_lo _ _ _ Hs). lia.
  - by apply Ha.
  - by eapply pre_rel.
  - destruct (rel_tags _ _ _ Hr _ _ Hn) as (n' & Hn' & E). exists n'. split; [done|congruence].
  - split; [by eapply rel_trans|done].
Qed.

Lemma wb_of_for_each t id {A} lo (f : A → M unit) l :
  (∀ x lo', lo ≤ lo' → x ∈ l → wb_of t id lo' (f x)) → wb_of t id lo (for_each f l).
Proof.
  revert lo. induction l as [|x l IH]; intros lo Hf; simpl.
  - apply wb_of_wb, wb_ret. done.
  - eapply wb_of_bind; [by apply Hf; [|constructor]|]. intros _ lo' Hlo _.
    apply IH. intros y lo'' ??. apply Hf; [lia|by constructor].
Qed.

Lemma wb_of_setAttribute t id lo k v : O id → (∀ w, attribute_safe t (u k, w)) → wb_of t id lo (setAttribute id k v).
Proof.
  intros Ho Hk. unfold setAttribute. eapply wb_of_bind; [apply wb_of_wb, wb_lift; apply _|].
  intros w lo' _ _ s Hs (n & Hn & Et). split; [|done]. simpl. apply rel_alter with lo'; try done; [by left|by left|].
  intros n' Hn' Hsafe. simplify_eq. by apply attribute_set_safe.
Qed.

(** What follows the creation of an element knows its tag. *)
Lemma wb_create `{Post B} t lo (f : nid → M B) : u t ∈ allowed_tags →
  (∀ id lo', lo ≤ lo' → own lo' id → wb_of (u t) id lo' (f id)) → wb lo (createElement (u t) ≫= f).
Proof.
  intros Ht Hf s Hs. destruct (wb_createElement lo t Ht s Hs) as [Hr Ha].
  pose proof (rel_next _ _ _ Hr). pose proof (pre_lo _ _ _ Hs). pose proof (pre_rel _ _ _ _ Hs Hr) as Hp.
  set (s1 := (createElement (u t) s).2) in *. change ((createElement (u t) ≫= f) s) with (f (next_id s) s1).
  destruct (Hf (next_id s) (next_id s1) ltac:(lia) (Ha _ eq_refl) s1 Hp) as [Hr2 Hb].
  - eexists. split; [apply lookup_insert_eq|done].
  - split; [by eapply rel_trans|done].
Qed.

Lemma wb_remove_from_body lo c : own lo c → wb lo (remove_from_body c).
Proof.
  intros Hc. unfold remove_from_body. apply wb_bind; [apply wb_get|]. intros s lo' Hlo _.
  assert (wb lo' (remove c)) by (apply wb_remove; by eapply own_mono).
  destruct (dom s !! body_id); [destruct (existsb _ _)|]; [done|apply wb_lift; apply _..].
Qed.
End host.
End judgement.
