(* ===== verification/ConsoleSafe.v ===== *)
(** Every view, listener and continuation of the console satisfies the frame
    judgement of ConsoleFrame: it touches owned nodes only and stays within
    the vocabulary of the page. *)

From S2P Require Import Prelude JsNumber JsValue Json ConsoleData Browser ConsoleViews.
From S2P Require Import ConsoleEditor ConsoleLive ConsoleCrud ConsoleAiOps ConsoleApp.
From S2P Require Import ConsoleFrame.

Create HintDb wb discriminated.

(** An attribute that [el] may give an element with tag [t]: a class of the page,
    any text, the value of an option, or a fixed value. *)
Definition attr_ok (t : string) (kv : string * jsval) : bool :=
  if decide (kv.1 = "class"%string) then
    match kv.2 with JStr c => bool_decide (c ∈ allowed_classes) | _ => false end
  else if decide (kv.1 = "text"%string) then true
  else if decide (kv.1 = "value"%string) then bool_decide (t = "option"%string)
  else match kv.2 with JStr c => bool_decide ((u kv.1, c) ∈ fixed_attributes) | _ => false end.

Definition children_ok (O : nid → Prop) (lo : nat) (c : children) : Prop :=
  match c with
  | NoChildren | Value _ => True
  | One n => own O lo n
  | Nodes l => Forall (own O lo) l
  end.

(** Side conditions: ownership from the context, vocabulary by computation. *)
Ltac own_auto :=
  eapply own_mono; [first [eassumption | match goal with H : own _ _ _ |- _ => exact H end] | lia].
Ltac O_auto := first [assumption | match goal with H : own _ _ ?c |- _ ?c => exact (proj1 H) end].
Ltac vocab :=
  lazymatch goal with
  | |- u (String.append (String _ _) (String _ _)) ∈ _ => apply (bool_decide_unpack _); vm_compute; exact I
  | |- (u (String _ _), u (String _ _)) ∈ _ => apply (bool_decide_unpack _); vm_compute; exact I
  | |- u (String _ _) ∈ _ => apply (bool_decide_unpack _); vm_compute; exact I
  | |- context [if ?b then _ else _] => fail
  | |- _ = true => vm_compute; reflexivity
  end.
Ltac forall_own := repeat first [apply list.Forall_nil_2 | apply list.Forall_cons_2; [own_auto|]
                                | apply list.Forall_app_2 | assumption
                                | eapply list.Forall_impl; [eassumption|]; intros; own_auto].

#[export] Hint Extern 0 (own _ _ _) => own_auto : wb.
#[export] Hint Extern 1 (first_free ≤ _) =>
  match goal with H : own _ _ ?c |- _ ≤ ?c => exact (proj1 (proj2 H)) end : wb.
#[export] Hint Extern 0 (_ ∈ allowed_tags) => vocab : wb.
#[export] Hint Extern 0 (_ ∈ allowed_classes) => vocab : wb.
#[export] Hint Extern 0 (_ ∈ fixed_attributes) => vocab : wb.
#[export] Hint Extern 0 (_ = true) => vocab : wb.
#[export] Hint Extern 0 (nodes_ok _ _ _) => unfold nodes_ok; simpl; forall_own : wb.
#[export] Hint Extern 0 (fires_ok _) => left; reflexivity : wb.
#[export] Hint Extern 0 (cont_ok _ _ _) => unfold cont_ok, nodes_ok; simpl; forall_own : wb.
#[export] Hint Extern 1 (_ ≠ body_id) =>
  first [assumption | unfold body_id, switcher_id, badge_id, content_id, last_refresh_id; lia
        | match goal with H : own _ _ ?c |- ?c ≠ _ =>
            let Hf := fresh in let Hb := fresh in
            pose proof (proj1 (proj2 H)) as Hf; intros Hb; rewrite Hb in Hf;
            unfold first_free, body_id in Hf; lia end] : wb.
#[export] Hint Extern 0 (children_ok _ _ _) => unfold children_ok; first [exact I | own_auto | forall_own] : wb.
#[export] Hint Resolve wb_clear wb_setTextContent_str wb_setValue wb_draw wb_addEventListener
  wb_createElement wb_remove wb_appendChild wb_fetch wb_querySelector wb_setClassName
  wb_setTextContent wb_setAttribute wb_remove_from_body wb_get : wb.

(** What a returned value guarantees, unfolded. *)
Ltac post_simpl :=
  repeat match goal with
    | H : post _ _ _ |- _ =>
        progress cbv beta iota delta [post post_nid post_prod post_list post_option post_unit] in H
    | H : _ ∧ _ |- _ => destruct H
    | H : ∀ x, Some ?y = Some x → _ |- _ => specialize (H y eq_refl)
    end.

Ltac post_goal :=
  cbv beta iota delta [post post_nid post_prod post_list post_option post_unit fst snd];
  repeat first [exact I | own_auto | match goal with |- _ ∧ _ => split end].

Lemma wb_static {H : Host} O {B} `{Post B} lo name i (f : nid → M B) :
  static_id name = Some i → wb O lo (f i) → wb O lo (getElementById name ≫= f).
Proof. intros Hi Hf s Hs. unfold getElementById. rewrite Hi. exact (Hf s Hs). Qed.

(** The control structure of a computation; primitives by the database. *)
Ltac wb_step :=
  lazymatch goal with
  | |- wb _ _ (@mbind _ _ _ _ _ (@getElementById _ _)) => eapply wb_static; [reflexivity|]
  | |- wb _ _ (@mbind _ _ _ _ _ _) => eapply wb_bind; [|intros ? ? ? ?; post_simpl]
  | |- wb _ _ (for_each _ _) => apply wb_for_each; intros ? ? ? ?
  | |- wb _ _ (when _ _) => apply wb_when
  | |- wb _ _ (lift _) => apply wb_lift; apply _
  | |- wb _ _ (setStatusBadge (if ?b then _ else _)) => destruct b
  | |- wb _ _ date_now => unfold date_now
  | |- wb _ _ (getValue _) => unfold getValue
  | |- wb _ _ (confirm _) => unfold confirm
  | |- wb _ _ (gets _) => apply wb_gets; apply _
  | |- wb _ _ (@mret _ _ _ _) => apply wb_ret; intros ? ?; post_goal
  | |- wb _ _ (match ?x with _ => _ end) => destruct x eqn:?; post_simpl
  | |- wb _ _ _ => solve [auto with wb nocore]
  end.
Ltac wb_auto := repeat wb_step.

Section safe.
Context {H : Host}.
Variable O : nid → Prop.
#[local] Abbreviation wb := (wb O).

#[local] Hint Extern 1 (O _) => O_auto : wb.

(** * Construction *)

Lemma wb_el_attr t lo id kv : O id → id ≠ body_id → attr_ok t kv = true → wb_of O (u t) id lo (el_attr id kv).
Proof.
  intros Ho Hb Hk. destruct kv as [k v]. unfold el_attr, attr_ok in *; simpl in Hk.
  destruct (decide (k = "class"%string)) as [->|].
  { destruct v; try done. apply wb_of_wb, wb_setClassName; [done|by apply bool_decide_eq_true in Hk]. }
  case_decide; [by apply wb_of_wb, wb_setTextContent|]. destruct (decide (k = "value"%string)) as [->|].
  - apply bool_decide_eq_true in Hk as ->. apply wb_of_setAttribute; [done|]. by right.
  - destruct v; try done. apply wb_of_wb, wb_setAttribute; [done|by apply bool_decide_eq_true in Hk].
Qed.

Lemma wb_setAttribute_str lo id k t : O id → (u k, u t) ∈ fixed_attributes → wb lo (setAttribute id k (str t)).
Proof. apply wb_setAttribute. Qed.
#[local] Hint Resolve wb_setAttribute_str : wb.

Lemma wb_el_children lo id c : O id → id ≠ body_id → children_ok O lo c → wb lo (el_children id c).
Proof.
  intros Ho Hb Hc. unfold el_children. destruct c as [|n|l|v]; simpl in *; wb_auto.
  apply wb_appendChild; [done|]. eapply own_mono; [|done]. by eapply list.Forall_forall in Hc.
Qed.

Lemma wb_el lo t attrs c :
  u t ∈ allowed_tags → forallb (attr_ok t) attrs = true → children_ok O lo c →
  wb lo (el t attrs c).
Proof.
  intros Ht Ha Hc. unfold el. apply wb_create; [done|]. intros id lo' Hlo Hid.
  eapply wb_of_bind; [|intros [] lo2 Hlo2 _; apply wb_of_wb; wb_auto].
  - apply wb_of_for_each. intros kv lo3 Hlo3 Hkv. apply wb_el_attr; [O_auto|auto with wb nocore|].
    rewrite forallb_forall in Ha. by apply Ha, list_elem_of_In.
  - apply wb_el_children; [O_auto|auto with wb nocore|]. destruct c; simpl in *; [done|own_auto|forall_own|done].
Qed.
#[local] Hint Resolve wb_el : wb.

Lemma wb_append lo p m : O p → wb lo m → wb lo (append p m).
Proof. intros Hp Hm. unfold append. wb_step; [done|]. auto with wb nocore. Qed.

Lemma wb_el_of lo t attrs ks :
  u t ∈ allowed_tags → forallb (attr_ok t) attrs = true → Forall (wb lo) ks → wb lo (el_of t attrs ks).
Proof.
  intros Ht Ha Hk. unfold el_of. wb_step.
  - apply wb_mapM; [intros; own_auto|]. intros m lo' Hlo Hm. eapply wb_mono; [|done].
    by eapply list.Forall_forall in Hk.
  - by apply wb_el.
Qed.

(** The steps through the console's own combinators. *)
Ltac wb_step2 :=
  lazymatch goal with
  | |- wb _ (append _ _) => apply wb_append; [solve [auto with wb nocore]|]
  | |- wb _ (el_of _ _ _) => apply wb_el_of; [vocab|vocab|]
  | |- Forall _ [] => apply list.Forall_nil_2
  | |- Forall _ (_ :: _) => apply list.Forall_cons_2
  | |- _ => wb_step
  end.
Ltac wb_auto2 := repeat wb_step2.

Lemma wb_el_class lo t cls v :
  u t ∈ allowed_tags → u cls ∈ allowed_classes → wb lo (el_class t cls v).
Proof.
  intros Ht Hc. apply wb_el; try done. unfold attr_ok; simpl. by rewrite bool_decide_eq_true_2.
Qed.

Lemma wb_el_text lo t v : u t ∈ allowed_tags → wb lo (el_text t v).
Proof. intros Ht. by apply wb_el. Qed.
#[local] Hint Resolve wb_el_class wb_el_text : wb.

Lemma wb_td lo r : wb lo (td r).
Proof. unfold td. wb_auto2. Qed.
#[local] Hint Resolve wb_td : wb.

Lemma wb_thead lo labels : wb lo (thead labels).
Proof.
  unfold thead. wb_auto. apply wb_el_of; [vocab|vocab|]. apply list.Forall_fmap, list.Forall_forall.
  intros l _. simpl. auto with wb nocore.
Qed.
#[local] Hint Resolve wb_thead : wb.

Lemma wb_table_with lo labels fill :
  (∀ tbody lo', lo ≤ lo' → own O lo' tbody → wb lo' (fill tbody)) → wb lo (table_with labels fill).
Proof. intros Hf. unfold table_with. wb_auto2. apply Hf; [lia|own_auto]. Qed.

Lemma wb_card lo title body refresh : own O lo body → wb lo (card title body refresh).
Proof.
  intros Hb. unfold card. wb_step; [wb_auto2|]. destruct refresh; wb_auto2.
Qed.
#[local] Hint Resolve wb_card : wb.

Lemma wb_error_msg lo v : wb lo (error_msg v).
Proof. unfold error_msg. wb_auto2. Qed.
Lemma wb_loading lo t : wb lo (loading t).
Proof. unfold loading. wb_auto2. Qed.
#[local] Hint Resolve wb_error_msg wb_loading : wb.

Lemma wb_makeStat lo label v : wb lo (makeStat label v).
Proof. unfold makeStat. wb_auto2. Qed.
#[local] Hint Resolve wb_makeStat : wb.

Lemma wb_show_error lo wrap e : own O lo wrap → wb lo (show_error wrap e).
Proof. intros. unfold show_error. wb_auto2. Qed.
Lemma wb_append_pre lo wrap v : own O lo wrap → wb lo (append_pre wrap v).
Proof. intros. unfold append_pre. wb_auto2. Qed.
#[local] Hint Resolve wb_show_error wb_append_pre : wb.

Lemma wb_forEach lo v f : (∀ x lo', lo ≤ lo' → wb lo' (f x)) → wb lo (forEach v f).
Proof. intros Hf. unfold forEach. wb_auto2. apply Hf. lia. Qed.

#[local] Hint Resolve wb_promise_all : wb.

Lemma wb_setClassName_str lo id c :
  O id → u c ∈ allowed_classes → wb lo (setClassName id (str c)).
Proof. apply wb_setClassName. Qed.
#[local] Hint Resolve wb_setClassName_str : wb.

(** * Static nodes *)

#[local] Set Default Proof Using "Type*".
Hypothesis Ostatic : Forall O [body_id; switcher_id; badge_id; last_refresh_id].

Lemma O_body : O body_id. Proof. eapply list.Forall_forall; [exact Ostatic|]. set_solver. Qed.
Lemma O_switcher : O switcher_id. Proof. eapply list.Forall_forall; [exact Ostatic|]. set_solver. Qed.
Lemma O_badge : O badge_id. Proof. eapply list.Forall_forall; [exact Ostatic|]. set_solver. Qed.
Lemma O_last : O last_refresh_id. Proof. eapply list.Forall_forall; [exact Ostatic|]. set_solver. Qed.
#[local] Hint Resolve O_body O_switcher O_badge O_last : wb.

Lemma wb_setLastRefresh lo : wb lo setLastRefresh.
Proof. unfold setLastRefresh. wb_auto2. Qed.
Lemma wb_setStatusBadge lo t : u t ∈ allowed_classes → wb lo (setStatusBadge t).
Proof. intros. unfold setStatusBadge. wb_auto2. Qed.
#[local] Hint Resolve wb_setLastRefresh wb_setStatusBadge : wb.

Lemma wb_open_view lo title refresh : O content_id → wb lo (open_view title refresh).
Proof. intros. unfold open_view. wb_auto2. Qed.
#[local] Hint Resolve wb_open_view : wb.

(** The steps through tables and class expressions. *)
Ltac wb_step3 :=
  lazymatch goal with
  | |- wb _ (table_with _ _) => apply wb_table_with; intros
  | |- wb _ (forEach _ _) => apply wb_forEach; intros
  | |- wb _ (mapM _ _) => apply wb_mapM; [intros; own_auto|intros ? ? ? ?]
  | |- wb _ (el_class _ (if ?b then _ else _) _) => destruct b
  | |- wb _ (el _ [_; (_, if ?b then _ else _)] _) => destruct b
  | |- _ => wb_step2
  end.
Tactic Notation "wb_view" reference(f) := intros; unfold f; repeat wb_step3.

(** * The views of ConsoleViews *)

Lemma wb_overview_then lo grid rs : own O lo grid → wb lo (overview_then grid rs).
Proof. wb_view overview_then. Qed.

Lemma wb_overview_catch lo grid e : own O lo grid → wb lo (overview_catch grid e).
Proof. wb_view overview_catch. Qed.

Lemma wb_routes_row lo tbody r : own O lo tbody → wb lo (routes_row tbody r).
Proof. wb_view routes_row. Qed.
#[local] Hint Resolve wb_routes_row : wb.

Lemma wb_routes_then lo wrap v : own O lo wrap → wb lo (routes_then wrap v).
Proof. wb_view routes_then. Qed.

Lemma wb_upstreams_row lo tbody r : own O lo tbody → wb lo (upstreams_row tbody r).
Proof.
  wb_view upstreams_row.
  apply wb_el_class; [vocab|]. unfold health_class. repeat case_match; vocab.
Qed.
#[local] Hint Resolve wb_upstreams_row : wb.

Lemma wb_upstreams_then lo wrap v : own O lo wrap → wb lo (upstreams_then wrap v).
Proof. wb_view upstreams_then. Qed.

Lemma wb_health_then lo wrap v : own O lo wrap → wb lo (health_then wrap v).
Proof. wb_view health_then. Qed.

Lemma wb_health_catch lo wrap e : own O lo wrap → wb lo (health_catch wrap e).
Proof. wb_view health_catch. Qed.

Lemma wb_analytics_then lo wrap v : own O lo wrap → wb lo (analytics_then wrap v).
Proof. wb_view analytics_then. Qed.

Lemma wb_config_then lo wrap v : own O lo wrap → wb lo (config_then wrap v).
Proof. wb_view config_then. Qed.

Lemma wb_field_label lo t : wb lo (field_label t).
Proof. wb_view field_label. Qed.
#[local] Hint Resolve wb_field_label : wb.

Lemma wb_skew_card lo v : wb lo (skew_card v).
Proof. wb_view skew_card; destruct (truthy _); wb_auto2. Qed.

Lemma wb_order_item lo l v : own O lo l → wb lo (order_item l v).
Proof. wb_view order_item. Qed.
#[local] Hint Resolve wb_skew_card wb_order_item : wb.

Lemma wb_upgrade_fields lo c v : own O lo c → wb lo (upgrade_fields c v).
Proof. wb_view upgrade_fields. Qed.
#[local] Hint Resolve wb_upgrade_fields : wb.

Lemma wb_status_card lo v : wb lo (status_card v).
Proof. wb_view status_card. Qed.
#[local] Hint Resolve wb_status_card : wb.

Lemma wb_fleet_then lo wrap rs : own O lo wrap → wb lo (fleet_then wrap rs).
Proof. wb_view fleet_then. Qed.

Lemma wb_fleet_catch lo wrap e : own O lo wrap → wb lo (fleet_catch wrap e).
Proof. wb_view fleet_catch. Qed.

(** * The editor *)

Lemma wb_clean_editor lo y : wb lo (clean_editor y).
Proof. apply wb_modify_app. intros a. simpl. auto. Qed.
#[local] Hint Resolve wb_clean_editor : wb.

Lemma wb_preview_div lo cls t :
  u ("validation-preview " +:+ cls) ∈ allowed_classes → wb lo (preview_div cls t).
Proof. intros. apply wb_el_class; [vocab|done]. Qed.
#[local] Hint Extern 1 (wb _ (preview_div _ _)) => apply wb_preview_div; vocab : wb.

Lemma wb_editor_load_then lo t y : own O lo t → wb lo (editor_load_then t y).
Proof. wb_view editor_load_then. Qed.

Lemma wb_editor_load_catch lo t e : own O lo t → wb lo (editor_load_catch t e).
Proof. wb_view editor_load_catch. Qed.

Lemma wb_on_validate lo t p : own O lo t → own O lo p → wb lo (on_validate t p).
Proof. unfold on_validate, send_yaml. wb_view on_validate. Qed.

Lemma wb_issue_div lo i : wb lo (issue_div i).
Proof. wb_view issue_div. Qed.
#[local] Hint Resolve wb_issue_div : wb.

Lemma wb_renderValidationPreview lo c v : own O lo c → wb lo (renderValidationPreview c v).
Proof. wb_view renderValidationPreview; destruct (not_false _); wb_auto2. Qed.

Lemma wb_validate_catch lo p e : own O lo p → wb lo (validate_catch p e).
Proof. wb_view validate_catch. Qed.

Lemma wb_on_publish lo t p : own O lo t → own O lo p → wb lo (on_publish t p).
Proof. unfold on_publish, send_yaml. wb_view on_publish. Qed.

Lemma wb_publish_then lo p y v : own O lo p → wb lo (publish_then p y v).
Proof. wb_view publish_then. Qed.

Lemma wb_publish_catch lo p e : own O lo p → wb lo (publish_catch p e).
Proof. wb_view publish_catch. Qed.

Lemma wb_on_reset lo t p : own O lo t → own O lo p → wb lo (on_reset t p).
Proof. intros. unfold on_reset, fetchText. auto with wb nocore. Qed.

Lemma wb_reset_then lo t p y : own O lo t → own O lo p → wb lo (reset_then t p y).
Proof. wb_view reset_then. Qed.

Lemma wb_reset_catch lo p e : own O lo p → wb lo (reset_catch p e).
Proof. wb_view reset_catch. Qed.

(** * The live view *)

Lemma push_history_length p h :
  (length h ≤ maxPoints)%nat → (length (push_history p h) ≤ maxPoints)%nat.
Proof.
  intros Hh. unfold push_history. case_decide as Hd; [|lia].
  rewrite length_app in Hd. simpl in Hd.
  destruct h; simpl; rewrite ?length_app; simpl in *; lia.
Qed.

Lemma wb_draw_all lo c ops : own O lo c → wb lo (draw_all c ops).
Proof. wb_view draw_all. Qed.
#[local] Hint Resolve wb_draw_all : wb.

Lemma wb_draw_series lo c w h m l s : own O lo c → wb lo (draw_series c w h m l s).
Proof. wb_view draw_series. Qed.
#[local] Hint Resolve wb_draw_series : wb.

Lemma wb_drawLatencyChart lo c h : own O lo c → wb lo (drawLatencyChart c h).
Proof. wb_view drawLatencyChart. Qed.
#[local] Hint Resolve wb_drawLatencyChart : wb.

Lemma wb_live_row lo t r : own O lo t → wb lo (live_row t r).
Proof. wb_view live_row. Qed.
#[local] Hint Resolve wb_live_row : wb.

Lemma wb_push lo p : wb lo (modify_app (λ a, set_history (push_history p (history a)) a)).
Proof. apply wb_modify_app. intros a. simpl. auto using push_history_length. Qed.

Lemma wb_set_size lo c w h : own O lo c → wb lo (modify_data c (set_size w h)).
Proof. intros. apply wb_modify_data; [O_auto|by left|by intros d [? ?]|done]. Qed.
#[local] Hint Resolve wb_push wb_set_size : wb.

Lemma wb_live_then lo wrap rs : own O lo wrap → wb lo (live_then wrap rs).
Proof. wb_view live_then. Qed.

(** * The CRUD views *)

Lemma wb_loadTable lo env : own O lo (tableWrap env) → wb lo (loadTable env).
Proof. unfold loadTable, fetchJSON. wb_view loadTable. Qed.
#[local] Hint Resolve wb_loadTable : wb.

Lemma wb_action_cell lo env item : own O lo (tableWrap env) → wb lo (action_cell env item).
Proof. wb_view action_cell. Qed.
#[local] Hint Resolve wb_action_cell : wb.

Lemma wb_item_row lo env t item :
  own O lo t → own O lo (tableWrap env) → wb lo (item_row env t item).
Proof. wb_view item_row. Qed.
#[local] Hint Resolve wb_item_row : wb.

Lemma wb_entity_table lo env items : own O lo (tableWrap env) → wb lo (entity_table env items).
Proof. wb_view entity_table. Qed.
#[local] Hint Resolve wb_entity_table : wb.

Lemma wb_load_table_then lo env v : own O lo (tableWrap env) → wb lo (load_table_then env v).
Proof. wb_view load_table_then. Qed.

Lemma wb_showCrudError lo c msg : own O lo c → wb lo (showCrudError c msg).
Proof. wb_view showCrudError. Qed.
#[local] Hint Resolve wb_showCrudError : wb.

Lemma wb_on_delete lo env item : own O lo (tableWrap env) → wb lo (on_delete env item).
Proof. unfold on_delete, sendJSON. wb_view on_delete. Qed.

Lemma wb_delete_then lo env v : own O lo (tableWrap env) → wb lo (delete_then env v).
Proof. wb_view delete_then. Qed.

Lemma wb_delete_catch lo env e : own O lo (tableWrap env) → wb lo (delete_catch env e).
Proof. wb_view delete_catch. Qed.

Lemma wb_open_dialog lo title save init :
  (∀ t lo', lo ≤ lo' → own O lo' t → wb lo' (init t)) → wb lo (open_dialog title save init).
Proof. intros Hi. wb_view open_dialog. apply Hi; [lia|own_auto]. Qed.

Lemma wb_set_placeholder lo c t : own O lo c → wb lo (modify_data c (set_placeholder t)).
Proof. intros. apply wb_modify_data; [O_auto|by left|by intros d [? ?]|done]. Qed.
#[local] Hint Resolve wb_set_placeholder : wb.

Lemma wb_openCreateDialog lo env : own O lo (tableWrap env) → wb lo (openCreateDialog env).
Proof.
  intros. unfold openCreateDialog. wb_step.
  - apply wb_open_dialog. intros. wb_auto2.
  - repeat wb_step3.
Qed.

Lemma wb_openEditDialog lo env item :
  own O lo (tableWrap env) → wb lo (openEditDialog env item).
Proof.
  intros. unfold openEditDialog. wb_step; [wb_auto2|]. wb_step.
  - apply wb_open_dialog. intros. wb_auto2.
  - repeat wb_step3.
Qed.

Lemma wb_on_cancel lo overlay : own O lo overlay → wb lo (on_cancel overlay).
Proof. wb_view on_cancel. Qed.

Lemma wb_with_parsed lo t e k :
  own O lo t → own O lo e → (∀ v lo', lo ≤ lo' → wb lo' (k v)) → wb lo (with_parsed t e k).
Proof. intros ? ? Hk. unfold with_parsed. wb_step; [wb_auto2|]. case_match; [apply Hk; lia|wb_auto2]. Qed.

Lemma wb_on_create_save lo env ov t e :
  own O lo (tableWrap env) → own O lo ov → own O lo t → own O lo e →
  wb lo (on_create_save env ov t e).
Proof.
  intros. unfold on_create_save. apply wb_with_parsed; [done|done|]. intros.
  unfold sendJSON. auto with wb nocore.
Qed.

Lemma wb_on_edit_save lo env item ov t e :
  own O lo (tableWrap env) → own O lo ov → own O lo t → own O lo e →
  wb lo (on_edit_save env item ov t e).
Proof.
  intros. unfold on_edit_save. apply wb_with_parsed; [done|done|]. intros.
  unfold sendJSON. wb_auto2.
Qed.

Lemma wb_save_then lo p env ov e v :
  own O lo (tableWrap env) → own O lo ov → own O lo e → wb lo (save_then p env ov e v).
Proof. wb_view save_then. Qed.

Lemma wb_save_catch lo p d e : own O lo d → wb lo (save_catch p d e).
Proof. wb_view save_catch. Qed.

(** * The AI operations view *)

Lemma wb_list_card lo title labels row note l :
  (∀ lo' x, lo ≤ lo' → wb lo' (row x)) → wb lo (list_card title labels row note l).
Proof. intros Hr. wb_view list_card. apply Hr. lia. Qed.

Lemma wb_pool_row lo v : wb lo (pool_row v).
Proof. wb_view pool_row. Qed.
Lemma wb_session_row lo v : wb lo (session_row v).
Proof. wb_view session_row. Qed.
Lemma wb_tool_row lo v : wb lo (tool_row v).
Proof. wb_view tool_row. Qed.
Lemma wb_override_row lo v : wb lo (override_row v).
Proof. wb_view override_row. Qed.
#[local] Hint Resolve wb_pool_row wb_session_row wb_tool_row wb_override_row : wb.

Lemma wb_aiops_then lo wrap rs : own O lo wrap → wb lo (aiops_then wrap rs).
Proof.
  wb_view aiops_then; apply wb_list_card; intros; auto with wb nocore.
Qed.

(** * Listeners and continuations *)

Lemma wb_workspaces_then lo v : wb lo (workspaces_then switcher_id v).
Proof. unfold workspaces_then, workspace_option, default_option. wb_view workspaces_then. Qed.

Lemma wb_workspaces_catch lo e : wb lo (workspaces_catch switcher_id e).
Proof. unfold workspaces_catch, default_option. wb_view workspaces_catch. Qed.

#[local] Hint Resolve wb_overview_then wb_routes_then wb_upstreams_then wb_health_then
  wb_analytics_then wb_config_then wb_fleet_then wb_editor_load_then wb_renderValidationPreview
  wb_publish_then wb_reset_then wb_live_then wb_load_table_then wb_delete_then wb_save_then
  wb_aiops_then wb_workspaces_then wb_overview_catch wb_show_error wb_health_catch wb_fleet_catch
  wb_editor_load_catch wb_validate_catch wb_publish_catch wb_reset_catch wb_delete_catch
  wb_save_catch wb_workspaces_catch wb_on_validate wb_on_publish wb_on_reset wb_openCreateDialog
  wb_openEditDialog wb_on_delete wb_on_cancel wb_on_create_save wb_on_edit_save : wb.

(** A continuation whose captured nodes are owned behaves. *)
Lemma wb_cont_then lo k v : cont_ok O lo k → wb lo (cont_then k v).
Proof.
  intros Hk. destruct k; unfold cont_ok, nodes_ok, cont_nodes, env_nodes in Hk; cbn [Datatypes.app] in Hk;
    rewrite ?list.Forall_cons in Hk; simpl cont_then.
  all: subst; split_hyps.
  all: auto with wb nocore.
Qed.

Lemma wb_cont_catch lo k e : cont_ok O lo k → wb lo (cont_catch k e).
Proof.
  intros Hk. destruct k; unfold cont_ok, nodes_ok, cont_nodes, env_nodes in Hk; cbn [Datatypes.app] in Hk;
    rewrite ?list.Forall_cons in Hk; simpl cont_catch.
  all: subst; split_hyps.
  all: auto with wb nocore.
Qed.

Lemma wb_resume lo k r : cont_ok O lo k → wb lo (resume k r).
Proof.
  intros Hk. destruct r; simpl.
  - apply wb_catch; [by apply wb_cont_then|]. intros. apply wb_cont_catch. by eapply cont_ok_mono.
  - by apply wb_cont_catch.
Qed.

(** Listeners that do not replace the view. *)
Definition local_handler (h : handler) : bool :=
  match h with
  | HRender _ | HNav _ | HWorkspace => false
  | _ => true
  end.

Lemma wb_run_handler lo h :
  local_handler h = true → nodes_ok O lo (handler_nodes h) → wb lo (run_handler h).
Proof.
  intros Hl Hk. destruct h; try discriminate Hl; unfold nodes_ok, handler_nodes, env_nodes in Hk;
    cbn [Datatypes.app] in Hk; rewrite ?list.Forall_cons in Hk; simpl run_handler; split_hyps.
  all: auto with wb nocore.
Qed.

(** * Rendering a view *)

Lemma wb_run_view lo v : O content_id → wb lo (run_view v).
Proof.
  intros Hc. destruct v; simpl; unfold renderOverview, renderRoutes, renderUpstreams,
    renderHealth, renderAnalytics, renderConfig, renderFleet, renderEditor, renderLive,
    renderCrudEntity, renderAiOps, fetchJSON, fetchText; repeat wb_step3.
Qed.
End safe.
