(* ===== verification/ConsoleInv.v ===== *)
(** The invariant of the page, by regions.

    Every rendering of a view opens a region, and everything that the
    callbacks of that rendering create belongs to it.  The region of a node is
    ghost data: a function [reg] beside the state, with [cur] the region the
    content shows.  The invariant says that elements stay in their region,
    that a listener, a request and a [Promise.all] capture nodes of one
    region, and that the page stays within its vocabulary; every event
    preserves it. *)

From S2P Require Import Prelude JsNumber JsValue Json ConsoleData Browser ConsoleViews.
From S2P Require Import ConsoleEditor ConsoleLive ConsoleCrud ConsoleAiOps ConsoleApp.
From S2P Require Import ConsoleFrame ConsoleSafe.

(** The static nodes every callback may touch. *)
Definition statics : list nid := [body_id; switcher_id; badge_id; last_refresh_id].

(** The navigation buttons of index.html. *)
Definition nav_buttons : list nid := seq 4 10.

Definition nav_classes : list jstr := [u "nav-btn"; u "nav-btn active"].

(** The static nodes that no callback touches keep all but their listeners and
    the class of a navigation button. *)
Definition same_static (n0 n : node) : Prop :=
  kids n = kids n0 ∧ tag (data n) = tag (data n0) ∧ attributes (data n) = attributes (data n0) ∧
  (className (data n) = className (data n0) ∨
   (className (data n) ∈ nav_classes ∧ className (data n0) ∈ nav_classes)).

Definition fixed_static (id : nid) : Prop := (id < first_free) ∧ (id ∉ statics) ∧ id ≠ content_id.

#[global] Instance fixed_static_dec id : Decision (fixed_static id).
Proof. unfold fixed_static. apply _. Defined.

(** * Regions *)

Definition nodes_in (reg : nid → nat) (lo r : nat) (l : list nid) : Prop :=
  Forall (λ c, first_free ≤ c ∧ c < lo ∧ reg c = r) l.

Definition cont_in (reg : nid → nat) (lo r : nat) (k : cont) : Prop :=
  match k with
  | KWorkspaces select => select = switcher_id
  | _ => nodes_in reg lo r (cont_nodes k)
  end.

Definition target_in (reg : nid → nat) (s : st) (r : nat) (t : target) : Prop :=
  match t with
  | TCont k => cont_in reg (next_id s) r k
  | TSlot j _ _ => j < next_join (net s) ∧
      ∀ jn, joins (net s) !! j = Some jn → cont_in reg (next_id s) r (j_cont jn)
  end.

Definition kid_in (reg : nid → nat) (cur lo : nat) (id c : nid) : Prop :=
  (first_free ≤ id → first_free ≤ c) ∧
  (id = content_id → c < first_free → c = 18) ∧
  (first_free ≤ c → c < lo ∧
     (id ∈ statics ∨ (id = content_id ∧ reg c = cur) ∨ (first_free ≤ id ∧ reg c = reg id))).

Record inv (reg : nid → nat) (cur : nat) (s : st) : Prop := Inv {
  inv_next : first_free ≤ next_id s;
  inv_fresh : ∀ id, next_id s ≤ id → dom s !! id = None;
  inv_reg : ∀ id, reg id ≤ cur;
  inv_kids : ∀ id n c, dom s !! id = Some n → CElem c ∈ kids n →
    kid_in reg cur (next_id s) id c;
  inv_listeners : ∀ id n l, dom s !! id = Some n → l ∈ listeners (data n) →
    ∃ r, r ≤ cur ∧ nodes_in reg (next_id s) r (handler_nodes l.2) ∧ fires_ok l;
  inv_fresh_reqs : ∀ r, next_req (net s) ≤ r → in_flight (net s) !! r = None;
  inv_fresh_joins : ∀ j, next_join (net s) ≤ j → joins (net s) !! j = None;
  inv_reqs : ∀ q p, in_flight (net s) !! q = Some p →
    ∃ r, r ≤ cur ∧ target_in reg s r (p_target p);
  inv_joins : ∀ j jn, joins (net s) !! j = Some jn →
    ∃ r, r ≤ cur ∧ cont_in reg (next_id s) r (j_cont jn);
  inv_safe : dom_safe (dom s);
  inv_history : length (history (app s)) ≤ maxPoints;
  inv_dirty : editor_dirty (app s) = false;
  inv_timers : timers (app s) = match refreshTimer (app s) with Some t => {[t]} | None => ∅ end;
  inv_body : static_kids (dom s) body_id = static_kids index_html body_id;
  inv_static : ∀ id, fixed_static id →
    ∃ n0 n, index_html !! id = Some n0 ∧ dom s !! id = Some n ∧ same_static n0 n;
}.

(** What a later state keeps of an earlier one. *)
Record ext (reg : nid → nat) (cur : nat) (s : st) (reg' : nid → nat) (cur' : nat) (s' : st)
  : Prop := Ext {
  ext_cur : cur ≤ cur';
  ext_next : next_id s ≤ next_id s';
  ext_reg : ∀ id, id < next_id s → reg' id = reg id;
  ext_next_req : next_req (net s) ≤ next_req (net s');
  ext_next_join : next_join (net s) ≤ next_join (net s');
  ext_reqs : ∀ q p, q < next_req (net s) → in_flight (net s') !! q = Some p →
    in_flight (net s) !! q = Some p;
  ext_joins : ∀ j jn, j < next_join (net s) → joins (net s') !! j = Some jn →
    ∃ jn0, joins (net s) !! j = Some jn0 ∧ j_cont jn = j_cont jn0;
  ext_timer : is_Some (refreshTimer (app s)) → is_Some (refreshTimer (app s'));
}.

Lemma ext_refl reg cur s : ext reg cur s reg cur s.
Proof. constructor; eauto. Qed.

Lemma ext_trans r1 c1 s1 r2 c2 s2 r3 c3 s3 :
  ext r1 c1 s1 r2 c2 s2 → ext r2 c2 s2 r3 c3 s3 → ext r1 c1 s1 r3 c3 s3.
Proof.
  intros [] []. constructor; try lia.
  - intros id ?. rewrite ext_reg1 by lia. auto.
  - intros q p ??. apply ext_reqs0; [done|]. apply ext_reqs1; [lia|done].
  - intros j jn ? Hj. destruct (ext_joins1 j jn) as (jn1 & Hj1 & ->); [lia|done|]. eauto.
  - auto.
Qed.

Lemma nodes_in_ext reg cur s reg' cur' s' r l :
  ext reg cur s reg' cur' s' → nodes_in reg (next_id s) r l → nodes_in reg' (next_id s') r l.
Proof.
  intros [] Hl. eapply list.Forall_impl; [exact Hl|]. simpl. intros c (? & ? & <-).
  split; [done|]. split; [lia|]. by apply ext_reg0.
Qed.

Lemma cont_in_ext reg cur s reg' cur' s' r k :
  ext reg cur s reg' cur' s' → cont_in reg (next_id s) r k → cont_in reg' (next_id s') r k.
Proof. intros He. destruct k; try apply (nodes_in_ext _ _ _ _ _ _ _ _ He). done. Qed.

Lemma target_in_ext reg cur s reg' cur' s' r t :
  ext reg cur s reg' cur' s' → target_in reg s r t → target_in reg' s' r t.
Proof.
  intros He. destruct t as [k|j i b]; simpl; [by eapply cont_in_ext|].
  intros [Hj Hc]. pose proof (ext_next_join _ _ _ _ _ _ He). split; [lia|].
  intros jn Hjn. destruct (ext_joins _ _ _ _ _ _ He _ _ Hj Hjn) as (jn0 & ? & ->).
  eapply cont_in_ext; eauto.
Qed.

(** * Running a callback of one region *)

Definition in_region (reg : nid → nat) (cur lo r : nat) (id : nid) : Prop :=
  id ∈ statics ∨ (id = content_id ∧ r = cur) ∨ (first_free ≤ id ∧ (lo ≤ id ∨ reg id = r)).

Lemma in_region_dec reg cur lo r id :
  in_region reg cur lo r id ∨ ¬ in_region reg cur lo r id.
Proof.
  unfold in_region. destruct (decide (id ∈ statics)); [tauto|].
  destruct (decide (id = content_id)), (decide (r = cur)), (decide (first_free ≤ id)),
    (decide (lo ≤ id)), (decide (reg id = r)); tauto.
Qed.

Lemma in_region_static reg cur lo r : Forall (in_region reg cur lo r) statics.
Proof. apply list.Forall_forall. by left. Qed.

Lemma fixed_not_in_region reg cur lo r id : fixed_static id → ¬ in_region reg cur lo r id.
Proof. intros (? & ? & ?) [|[[]|[]]]; [done|done|lia]. Qed.

Lemma statics_lt id : id ∈ statics → id < first_free.
Proof.
  unfold statics, first_free, body_id, switcher_id, badge_id, last_refresh_id. set_solver by lia.
Qed.

Lemma content_lt : content_id < first_free.
Proof. unfold content_id, first_free. lia. Qed.

Lemma inv_pre reg cur s r : inv reg cur s → pre (in_region reg cur (next_id s) r) (next_id s) s.
Proof.
  intros Hi. pose proof (inv_next _ _ _ Hi) as Hn. constructor; try apply Hi; [done| | |].
  - intros id Hid. right; right. split; [lia|by left].
  - intros id n c Hd Ho Hc [Hoc Hf].
    destruct (inv_kids _ _ _ Hi _ _ _ Hd Hc) as (_ & _ & Hk). destruct (Hk Hf) as [Hlo Hcase].
    destruct Hoc as [Hst|[[-> _]|[_ [?|Hr]]]]; [|unfold first_free, content_id in *; lia|lia|].
    + apply statics_lt in Hst. lia.
    + apply Ho. destruct Hcase as [?|[[-> Hcur]|[? Hreg]]]; [by left| |].
      * right; left. split; [done|congruence].
      * right; right. split; [done|]. right. congruence.
  - intros id n c Hd Ho Hf Hc.
    destruct (inv_kids _ _ _ Hi _ _ _ Hd Hc) as (Hdyn & _ & Hk). specialize (Hdyn Hf).
    destruct (Hk Hdyn) as [Hlo Hcase]. split; [|done]. right; right. split; [done|]. right.
    assert (id < next_id s).
    { destruct (decide (id < next_id s)); [done|]. by rewrite (inv_fresh _ _ _ Hi) in Hd by lia. }
    pose proof content_lt.
    destruct Ho as [Hst%statics_lt|[[-> _]|[_ [?|Hr]]]]; [lia|lia|lia|].
    destruct Hcase as [Hst%statics_lt|[[-> _]|[_ ?]]]; [lia|lia|congruence].
Qed.

(** The region function after a callback of region [r] ran from [s]. *)
Definition extend (reg : nid → nat) (lo r : nat) : nid → nat :=
  λ id, if decide (id < lo) then reg id else r.

Lemma extend_old reg lo r id : id < lo → extend reg lo r id = reg id.
Proof. intros. unfold extend. by rewrite decide_True. Qed.

Lemma own_extend reg cur lo lo' r c :
  own (in_region reg cur lo r) lo' c → first_free ≤ c ∧ c < lo' ∧ extend reg lo r c = r.
Proof.
  intros (Ho & Hf & Hc). split; [done|]. split; [done|]. unfold extend. case_decide; [|done].
  pose proof content_lt.
  destruct Ho as [Hst%statics_lt|[[-> _]|[_ [?|?]]]]; [lia|lia|lia|done].
Qed.

Lemma nodes_ok_extend reg cur lo lo' r l :
  nodes_ok (in_region reg cur lo r) lo' l → nodes_in (extend reg lo r) lo' r l.
Proof. intros Hl. eapply list.Forall_impl; [exact Hl|]. intros c. apply own_extend. Qed.

Lemma cont_ok_extend reg cur lo lo' r k :
  cont_ok (in_region reg cur lo r) lo' k → cont_in (extend reg lo r) lo' r k.
Proof. destruct k; try apply nodes_ok_extend. done. Qed.

Section run.
Context {H : Host}.
Context (reg : nid → nat) (cur r : nat) (s s' : st).
Context (Hi : inv reg cur s) (Hr : r ≤ cur).
Context (Hrel : rel (in_region reg cur (next_id s) r) s s').
Let reg' := extend reg (next_id s) r.

Lemma run_ext : ext reg cur s reg' cur s'.
Proof using Hi Hr Hrel.
  constructor; try apply Hrel; [done| | | |].
  - intros id ?. by apply extend_old.
  - intros q p Hq Hp. destruct (rel_new_reqs _ _ _ Hrel _ _ Hp) as [|[? _]]; [done|lia].
  - intros j jn Hj Hjn. destruct (rel_new_joins _ _ _ Hrel _ _ Hjn) as [|[? _]]; [eauto|lia].
  - pose proof (rel_timers _ _ _ Hrel) as Ht. injection Ht as -> _ _. done.
Qed.

Lemma run_kid id n' c :
  dom s' !! id = Some n' → CElem c ∈ kids n' → kid_in reg' cur (next_id s') id c.
Proof using Hi Hr Hrel.
  intros Hn Hc. pose proof (rel_next _ _ _ Hrel) as Hlo. pose proof content_lt.
  assert (id < next_id s').
  { destruct (decide (id < next_id s')); [done|].
    by rewrite (rel_fresh _ _ _ Hrel) in Hn by lia. }
  assert (Hold : ∀ n, dom s !! id = Some n → CElem c ∈ kids n → kid_in reg' cur (next_id s') id c).
  { intros n Hd Hk. destruct (inv_kids _ _ _ Hi _ _ _ Hd Hk) as (? & ? & Hcase).
    assert (id < next_id s).
    { destruct (decide (id < next_id s)); [done|]. by rewrite (inv_fresh _ _ _ Hi) in Hd by lia. }
    split; [done|]. split; [done|]. intros Hf. destruct (Hcase Hf) as [? Hcase'].
    split; [lia|]. unfold reg'. by rewrite !extend_old by lia. }
  destruct (rel_kids _ _ _ Hrel _ _ _ Hn Hc) as [(n & Hd & Hk)|Ho]; [by eapply Hold|].
  destruct (in_region_dec reg cur (next_id s) r id) as [Hin|Hin].
  - pose proof (own_extend _ _ _ _ _ _ Ho) as (Hf & Hc' & Hreg).
    split; [done|]. split; [lia|]. intros _. split; [done|]. unfold reg'. rewrite Hreg.
    destruct Hin as [|[[-> ->]|[Hid Hrid]]]; [by left|by right; left|].
    right; right. split; [done|]. unfold extend. case_decide; [|done].
    destruct Hrid; [lia|done].
  - rewrite (rel_unowned _ _ _ Hrel _ Hin) in Hn. by eapply Hold.
Qed.

Lemma run_inv : inv reg' cur s'.
Proof using Hi Hr Hrel.
  pose proof (rel_next _ _ _ Hrel) as Hlo. pose proof run_ext as He.
  constructor; try apply Hrel.
  - pose proof (inv_next _ _ _ Hi). lia.
  - intros id. unfold reg', extend. case_decide; [apply Hi|done].
  - apply run_kid.
  - intros id n l Hn Hl. destruct (rel_listeners _ _ _ Hrel _ _ _ Hn Hl) as [(n0 & Hd & Hl0)|[Ho ?]].
    + destruct (inv_listeners _ _ _ Hi _ _ _ Hd Hl0) as (r0 & ? & ? & ?). exists r0.
      split; [done|]. split; [by eapply nodes_in_ext|done].
    + exists r. split; [done|]. split; [by eapply nodes_ok_extend|done].
  - intros q p Hp. destruct (rel_new_reqs _ _ _ Hrel _ _ Hp) as [Hq|[_ Ho]].
    + destruct (inv_reqs _ _ _ Hi _ _ Hq) as (r0 & ? & ?). exists r0.
      split; [done|]. by eapply target_in_ext.
    + destruct (p_target p) as [k|j i b]; simpl in *.
      * exists r. split; [done|]. by eapply cont_ok_extend.
      * destruct (joins (net s') !! j) as [jn|] eqn:E; [|by exists r].
        destruct (rel_new_joins _ _ _ Hrel _ _ E) as [Hj|[_ Hj]].
        -- destruct (inv_joins _ _ _ Hi _ _ Hj) as (r0 & ? & ?). exists r0. split; [done|].
           split; [done|]. intros ? [= <-]. by eapply cont_in_ext.
        -- exists r. split; [done|]. split; [done|]. intros ? [= <-]. by eapply cont_ok_extend.
  - intros j jn Hj. destruct (rel_new_joins _ _ _ Hrel _ _ Hj) as [Hj0|[_ Ho]].
    + destruct (inv_joins _ _ _ Hi _ _ Hj0) as (r0 & ? & ?). exists r0. split; [done|].
      by eapply cont_in_ext.
    + exists r. split; [done|]. by eapply cont_ok_extend.
  - apply Hi.
  - apply Hi.
  - apply Hi.
  - pose proof (rel_timers _ _ _ Hrel) as Ht. injection Ht as Ht1 Ht2 _. rewrite Ht1, Ht2. apply Hi.
  - rewrite (rel_body _ _ _ Hrel). apply Hi.
  - intros id Hid. rewrite (rel_unowned _ _ _ Hrel) by (by apply fixed_not_in_region).
    by apply (inv_static _ _ _ Hi).
Qed.
End run.

(** * Preservation *)

Definition preserves {A} (m : M A) : Prop := ∀ reg cur s, inv reg cur s →
  ∃ reg' cur', inv reg' cur' (m s).2 ∧ ext reg cur s reg' cur' (m s).2.

Lemma preserves_pure {A} (m : M A) : (∀ s, (m s).2 = s) → preserves m.
Proof. intros Hm reg cur s Hi. rewrite Hm. eauto using ext_refl. Qed.

Lemma preserves_bind {A B} (m : M A) (f : A → M B) :
  preserves m → (∀ a, preserves (f a)) → preserves (m ≫= f).
Proof.
  intros Hm Hf reg cur s Hi. destruct (Hm _ _ _ Hi) as (reg1 & cur1 & Hi1 & He1).
  unfold mbind, M_bind. destruct (m s) as [[a|e] s1]; simpl in *; [|by eauto].
  destruct (Hf a _ _ _ Hi1) as (reg2 & cur2 & Hi2 & He2). eauto using ext_trans.
Qed.

Lemma preserves_catch {A} (m : M A) (h : jstr → M A) :
  preserves m → (∀ e, preserves (h e)) → preserves (catch m h).
Proof.
  intros Hm Hh reg cur s Hi. destruct (Hm _ _ _ Hi) as (reg1 & cur1 & Hi1 & He1).
  unfold catch. destruct (m s) as [[a|e] s1]; simpl in *; [by eauto|].
  destruct (Hh e _ _ _ Hi1) as (reg2 & cur2 & Hi2 & He2). eauto using ext_trans.
Qed.

Lemma preserves_for_each {A} (f : A → M unit) l :
  (∀ x, x ∈ l → preserves (f x)) → preserves (for_each f l).
Proof.
  induction l as [|x l IH]; intros Hf; simpl; [by apply preserves_pure|].
  apply preserves_bind; [apply Hf; constructor|]. intros _. apply IH. intros y ?.
  apply Hf. by constructor.
Qed.

(** A callback that keeps to one region. *)
Lemma preserves_wb `{Post A} (m : M A) :
  (∀ reg cur s, inv reg cur s → ∃ r, r ≤ cur ∧ wb (in_region reg cur (next_id s) r) (next_id s) m) →
  preserves m.
Proof.
  intros Hm reg cur s Hi. destruct (Hm _ _ _ Hi) as (r & Hr & Hwb).
  destruct (Hwb s) as [Hrel _]; [by apply inv_pre|].
  eexists _, cur. split; [by eapply run_inv|by eapply run_ext].
Qed.

(** A change of the nodes' data that stays within the vocabulary. *)
Definition data_only (n n' : node) : Prop :=
  kids n' = kids n ∧
  (node_safe n → node_safe n') ∧
  (∀ l, l ∈ listeners (data n') → l ∈ listeners (data n) ∨ (handler_nodes l.2 = [] ∧ fires_ok l)) ∧
  (∀ n0, same_static n0 n → same_static n0 n').

Lemma inv_map reg cur s (g : nid → node → node) h' :
  inv reg cur s →
  (∀ id, h' !! id = g id <$> dom s !! id) →
  (∀ id n, dom s !! id = Some n → data_only n (g id n)) →
  inv reg cur (set_dom h' s).
Proof.
  intros Hi Hd Hg.
  assert (Ha : ∀ i n', h' !! i = Some n' → ∃ n, dom s !! i = Some n ∧ n' = g i n).
  { intros i n'. rewrite Hd. destruct (dom s !! i); naive_solver. }
  constructor; simpl; try apply Hi.
  - intros i ?. rewrite Hd. by rewrite (inv_fresh _ _ _ Hi).
  - intros i n' c Hn Hc. destruct (Ha _ _ Hn) as (n & E & ->).
    rewrite (proj1 (Hg _ _ E)) in Hc. by eapply Hi.
  - intros i n' l Hn Hc. destruct (Ha _ _ Hn) as (n & E & ->).
    destruct (Hg _ _ E) as (_ & _ & Hl & _).
    destruct (Hl _ Hc) as [?|[-> ?]]; [by eapply Hi|]. exists 0.
    split; [lia|]. split; [constructor|done].
  - intros i n' Hn. destruct (Ha _ _ Hn) as (n & E & ->). apply (Hg _ _ E). by eapply Hi.
  - rewrite <- (inv_body _ _ _ Hi). unfold static_kids. rewrite Hd.
    destruct (dom s !! body_id) eqn:E; simpl; [|done]. by rewrite (proj1 (Hg _ _ E)).
  - intros i Hf. destruct (inv_static _ _ _ Hi _ Hf) as (n0 & n & ? & Hn & ?).
    exists n0, (g i n). rewrite Hd, Hn. split; [done|]. split; [done|]. by apply (Hg _ _ Hn).
Qed.

Lemma data_only_refl n : data_only n n.
Proof. split; [done|]. split; [done|]. split; auto. Qed.

Lemma inv_alter reg cur s f id :
  inv reg cur s → (∀ n, dom s !! id = Some n → data_only n (f n)) →
  inv reg cur (set_dom (alter f id (dom s)) s).
Proof.
  intros Hi Hf. apply inv_map with (g := λ i n, if decide (id = i) then f n else n); [done| |].
  - intros i. rewrite lookup_alter. case_decide; [by subst|]. by destruct (dom s !! i).
  - intros i n Hn. case_decide; subst; [by apply Hf|apply data_only_refl].
Qed.

Lemma ext_dom reg cur s h : ext reg cur s reg cur (set_dom h s).
Proof. constructor; simpl; eauto. Qed.

Lemma preserves_alter f id : (∀ n, data_only n (f n)) → preserves (modify_node id f).
Proof. intros Hf reg cur s Hi. exists reg, cur. split; [by apply inv_alter|apply ext_dom]. Qed.

Lemma preserves_setValue id v : preserves (setValue id v).
Proof. apply preserves_alter. intros n. split; [done|]. split; [done|]. split; auto. Qed.

Section host.
Context {H : Host}.

(** * Rendering: a new region *)

Lemma clear_twice id s : clear id (clear id s).2 = clear id s.
Proof.
  unfold clear, modify_node, modify, set_dom. simpl. do 2 f_equal. apply map_eq. intros i.
  rewrite !lookup_alter. repeat case_decide; subst; try done. by destruct (dom s !! i).
Qed.

(** Every view starts by emptying the content. *)
Definition absorbs_clear {A} (m : M A) : Prop := ∀ s, m (clear content_id s).2 = m s.

Lemma absorbs_bind {A B} (m : M A) (f : A → M B) : absorbs_clear m → absorbs_clear (m ≫= f).
Proof. intros Hm s. unfold mbind, M_bind. by rewrite Hm. Qed.

Lemma absorbs_content {B} (f : nid → M B) :
  absorbs_clear (content ← getElementById "content"; clear content;; f content).
Proof.
  intros s. change ((clear content_id ≫= λ _, f content_id) (clear content_id s).2 =
                    (clear content_id ≫= λ _, f content_id) s).
  unfold mbind, M_bind. by rewrite clear_twice.
Qed.

Lemma absorbs_open_view title refresh : absorbs_clear (open_view title refresh).
Proof. unfold open_view. apply absorbs_content. Qed.

Lemma run_view_clear v : absorbs_clear (run_view v).
Proof.
  destruct v; cbn [run_view]; unfold renderOverview, renderRoutes, renderUpstreams,
    renderHealth, renderAnalytics, renderConfig, renderFleet, renderEditor, renderLive,
    renderCrudEntity, renderAiOps;
  lazymatch goal with
  | |- absorbs_clear (@mbind _ _ _ _ _ (open_view _ _)) => apply absorbs_bind, absorbs_open_view
  | |- _ => apply absorbs_content
  end.
Qed.

(** An empty content can show a new region. *)
Lemma inv_clear reg cur s :
  inv reg cur s → inv reg (S cur) (clear content_id s).2 ∧ ext reg cur s reg (S cur) (clear content_id s).2.
Proof.
  intros Hi. split; [|constructor; simpl; eauto]. unfold clear, modify_node, modify; simpl.
  set (f := λ n : node, Node (data n) []).
  assert (Ha : ∀ i n', alter f content_id (dom s) !! i = Some n' →
    (i ≠ content_id ∧ dom s !! i = Some n') ∨
    (i = content_id ∧ ∃ n, dom s !! i = Some n ∧ n' = f n)).
  { intros i n' Hn. rewrite lookup_alter in Hn. case_decide; subst; [|by left].
    destruct (dom s !! content_id); simplify_eq/=; eauto. }
  constructor; simpl; try apply Hi.
  - intros i ?. apply lookup_alter_None. by apply Hi.
  - intros i. pose proof (inv_reg _ _ _ Hi i). lia.
  - intros i n' c Hn Hc. destruct (Ha _ _ Hn) as [[Hne Hd]|(-> & n & ? & ->)];
      [|by apply elem_of_nil in Hc].
    destruct (inv_kids _ _ _ Hi _ _ _ Hd Hc) as (? & ? & Hcase). split; [done|]. split; [done|].
    intros Hf. destruct (Hcase Hf) as [? Hcase']. split; [done|]. tauto.
  - intros i n' l Hn Hl. assert (∃ n, dom s !! i = Some n ∧ l ∈ listeners (data n)) as (n & Hd & Hl').
    { destruct (Ha _ _ Hn) as [[Hne Hd]|(-> & n & ? & ->)]; eauto. }
    destruct (inv_listeners _ _ _ Hi _ _ _ Hd Hl') as (r & ? & ?). exists r. split; [lia|done].
  - intros q p Hq. destruct (inv_reqs _ _ _ Hi _ _ Hq) as (r & ? & ?). exists r. split; [lia|done].
  - intros j jn Hj. destruct (inv_joins _ _ _ Hi _ _ Hj) as (r & ? & ?). exists r. split; [lia|done].
  - intros i n' Hn. destruct (Ha _ _ Hn) as [[Hne Hd]|(-> & n & Hd & ->)];
      exact (inv_safe _ _ _ Hi _ _ Hd).
  - rewrite <- (inv_body _ _ _ Hi). unfold static_kids. by rewrite lookup_alter_ne.
  - intros i Hf. rewrite lookup_alter_ne; [by apply Hi|]. intros <-. by destruct Hf as (? & ? & ?).
Qed.

Lemma preserves_run_view_new v reg cur s :
  inv reg cur s → ∃ reg', inv reg' (S cur) (run_view v s).2 ∧
    ext reg cur s reg' (S cur) (run_view v s).2.
Proof.
  intros Hi. destruct (inv_clear _ _ _ Hi) as [Hi1 He1]. rewrite <- run_view_clear.
  set (s1 := (clear content_id s).2) in *.
  destruct (wb_run_view (in_region reg (S cur) (next_id s1) (S cur)) (in_region_static _ _ _ _)
    (next_id s1) v) with (s := s1) as [Hrel _].
  - right; left. done.
  - by apply inv_pre.
  - eexists. split; [by eapply run_inv|]. eapply ext_trans; [done|]. by eapply run_ext.
Qed.

Lemma preserves_run_view v : preserves (run_view v).
Proof.
  intros reg cur s Hi. destruct (preserves_run_view_new v _ _ _ Hi) as (reg' & ? & ?). eauto.
Qed.

Lemma preserves_render_named name : preserves (render_named name).
Proof.
  unfold render_named. destruct (views name); [apply preserves_run_view|by apply preserves_pure].
Qed.

Lemma preserves_render_current : preserves render_current.
Proof.
  unfold render_current. apply preserves_bind; [by apply preserves_pure|].
  intros name. apply preserves_render_named.
Qed.

(** * Navigation *)

Definition nav_class (active : bool) : jstr := u (if active then "nav-btn active" else "nav-btn").

(** What [mark_active] does to a navigation button. *)
Definition mark (view : jstr) (n : node) : node :=
  Node (set_className (nav_class (bool_decide (attr "data-view" n = Some view))) (data n)) (kids n).

Lemma nav_class_in b : nav_class b ∈ nav_classes.
Proof. apply (bool_decide_unpack _). destruct b; vm_compute; exact I. Qed.

Lemma toggle_nav b d :
  className d ∈ nav_classes → toggle_class (u "active") b d = set_className (nav_class b) d.
Proof.
  intros Hd. unfold toggle_class. f_equal. unfold nav_classes in Hd.
  apply elem_of_cons in Hd as [->|Hd]; [|apply list_elem_of_singleton in Hd as ->];
    destruct b; vm_compute; reflexivity.
Qed.

(** Only the navigation buttons can have the class [nav-btn]. *)
Lemma has_nav_class n : node_safe n → has_class (u "nav-btn") n = true → className (data n) ∈ nav_classes.
Proof.
  intros (_ & Hc & _) Hn. unfold has_class in Hn. apply bool_decide_eq_true in Hn.
  assert (Hall : Forall (λ c, u "nav-btn" ∉ class_tokens c ∨ c ∈ nav_classes) allowed_classes).
  { apply (bool_decide_unpack _). vm_compute. exact I. }
  rewrite list.Forall_forall in Hall. destruct (Hall _ Hc); [done|done].
Qed.

Definition nav_node (h : gmap nid node) (b : nid) : Prop :=
  ∃ n, h !! b = Some n ∧ className (data n) ∈ nav_classes.

Lemma mark_active_run view b s :
  nav_node (dom s) b →
  mark_active view b s = (Ok tt, set_dom (alter (mark view) b (dom s)) s).
Proof.
  intros (n & Hn & Hc). unfold mark_active, modify_data, modify_node, modify, mbind, M_bind, get.
  do 2 f_equal. apply map_eq. intros i. rewrite !lookup_alter. case_decide; [|done]. subst i.
  unfold dataset_view. rewrite Hn. simpl. by rewrite toggle_nav.
Qed.

Lemma mark_data_only view n : className (data n) ∈ nav_classes → data_only n (mark view n).
Proof.
  intros Hc. pose proof nav_class_in as Hm.
  split; [done|]. split; [intros (? & _ & ?); split; [done|split; [|done]]|]; [|split; [by auto|]].
  - simpl. assert (Hall : Forall (λ c, c ∈ allowed_classes) nav_classes).
    { apply (bool_decide_unpack _). vm_compute. exact I. }
    rewrite list.Forall_forall in Hall. auto.
  - intros n0 (? & ? & ? & Hcl). split; [done|]. split; [done|]. split; [done|]. simpl. right.
    split; [done|]. destruct Hcl as [Heq|[_ ?]]; [|done]. by rewrite <- Heq.
Qed.

Lemma mark_all_run view btns s :
  Forall (nav_node (dom s)) btns →
  ∃ h, for_each (mark_active view) btns s = (Ok tt, set_dom h s) ∧
    ∀ id, h !! id = (λ n, if decide (id ∈ btns) then mark view n else n) <$> dom s !! id.
Proof.
  revert s. induction btns as [|b btns IH]; intros s Hb; simpl.
  - exists (dom s). split; [by destruct s|]. intros id. by destruct (dom s !! id).
  - apply list.Forall_cons in Hb as [Hb Hbs]. unfold mbind, M_bind. rewrite mark_active_run by done.
    destruct (IH (set_dom (alter (mark view) b (dom s)) s)) as (h & -> & Hh).
    { eapply list.Forall_impl; [exact Hbs|]. intros i (n & Hn & Hc). unfold nav_node. simpl.
      rewrite lookup_alter. case_decide; [subst|by eauto]. rewrite Hn. eexists. split; [done|].
      simpl. apply nav_class_in. }
    exists h. split; [done|]. intros id. rewrite Hh. simpl. rewrite lookup_alter.
    repeat case_decide; subst; try set_solver; by destruct (dom s !! _).
Qed.

(** A change of the program's variables. *)
Lemma preserves_modify_app f :
  (∀ a, length (history a) ≤ maxPoints → length (history (f a)) ≤ maxPoints) →
  (∀ a, editor_dirty a = false → editor_dirty (f a) = false) →
  (∀ a, refreshTimer (f a) = refreshTimer a ∧ timers (f a) = timers a) →
  preserves (modify_app f).
Proof.
  intros Hh Hd Ht reg cur s Hi. exists reg, cur. simpl. destruct (Ht (app s)) as [Hr Hts].
  split; [|constructor; simpl; rewrite ?Hr; eauto]. constructor; simpl; try apply Hi.
  - apply Hh, Hi.
  - apply Hd, Hi.
  - rewrite Hr, Hts. apply Hi.
Qed.

Lemma querySelectorAll_nav s :
  dom_safe (dom s) →
  ∃ btns, querySelectorAll body_id "nav-btn" s = (Ok btns, s) ∧ Forall (nav_node (dom s)) btns.
Proof.
  intros Hs. eexists. split; [reflexivity|]. apply list.Forall_forall. intros b Hb.
  apply list_elem_of_filter in Hb as [Hb _]. unfold has_class_at in Hb.
  destruct (dom s !! b) as [n|] eqn:E; [|done]. exists n. split; [done|].
  apply has_nav_class; [|done]. by eapply Hs.
Qed.

Definition mark_all (view : jstr) : M unit :=
  btns ← querySelectorAll body_id "nav-btn"; for_each (mark_active view) btns.

Lemma preserves_mark_all view : preserves (mark_all view).
Proof.
  intros reg cur s Hi. unfold mark_all, mbind, M_bind.
  destruct (querySelectorAll_nav s) as (btns & -> & Hb); [apply Hi|].
  destruct (mark_all_run view btns s Hb) as (h & -> & Hh).
  exists reg, cur. simpl. split; [|apply ext_dom].
  apply inv_map with (g := λ id n, if decide (id ∈ btns) then mark view n else n); [done|done|].
  intros id n Hn. case_decide as Hin; [|apply data_only_refl]. apply mark_data_only.
  rewrite list.Forall_forall in Hb. destruct (Hb _ Hin) as (n' & ? & ?). by simplify_eq.
Qed.

Lemma switchView_marks view s :
  switchView view s =
  (modify_app (set_currentView view);; mark_all view;; render_named view) s.
Proof.
  unfold switchView, mark_all, mbind, M_bind. simpl.
  by destruct (for_each _ _ _) as [[] ?].
Qed.

Lemma preserves_ext {A} (m m' : M A) : (∀ s, m s = m' s) → preserves m' → preserves m.
Proof. intros He Hm reg cur s Hi. rewrite He. by apply Hm. Qed.

Lemma preserves_switchView view : preserves (switchView view).
Proof.
  eapply preserves_ext; [apply switchView_marks|].
  apply preserves_bind; [by apply preserves_modify_app|]. intros _.
  apply preserves_bind; [apply preserves_mark_all|]. intros _. apply preserves_render_named.
Qed.

(** * Listeners *)

Lemma nodes_in_ok reg cur lo r l :
  nodes_in reg lo r l → nodes_ok (in_region reg cur lo r) lo l.
Proof.
  intros Hl. eapply list.Forall_impl; [exact Hl|]. intros c (? & ? & ?).
  split; [|done]. right; right. auto.
Qed.

Lemma cont_in_ok reg cur lo r k : cont_in reg lo r k → cont_ok (in_region reg cur lo r) lo k.
Proof. destruct k; try apply nodes_in_ok. done. Qed.

Lemma run_handler_inv reg cur s h r :
  inv reg cur s → r ≤ cur → nodes_in reg (next_id s) r (handler_nodes h) →
  ∃ reg' cur', inv reg' cur' (run_handler h s).2 ∧ ext reg cur s reg' cur' (run_handler h s).2.
Proof.
  intros Hi Hr Hh. destruct (local_handler h) eqn:Hl.
  - destruct (wb_run_handler (in_region reg cur (next_id s) r) (in_region_static _ _ _ _)
      (next_id s) h Hl) with (s := s) as [Hrel _].
    + by apply nodes_in_ok.
    + by apply inv_pre.
    + eexists _, cur. split; [by eapply run_inv|by eapply run_ext].
  - destruct h; try discriminate Hl; simpl.
    + by apply preserves_run_view.
    + revert reg cur s Hi Hr Hh. intros reg cur s Hi _ _. revert reg cur s Hi.
      apply preserves_bind; [by apply preserves_pure|]. intros s.
      destruct (dataset_view (dom s) btn); apply preserves_switchView.
    + by apply preserves_render_current.
Qed.

Lemma preserves_dispatch id ev : preserves (dispatch id ev).
Proof.
  intros reg cur s Hi. unfold dispatch. unfold mbind at 1 2, M_bind at 1 2, get. simpl.
  destruct (dom s !! id) as [n|] eqn:Hn; [|by eauto using ext_refl].
  assert (Hl : Forall (λ l, ∃ r, r ≤ cur ∧ nodes_in reg (next_id s) r (handler_nodes l.2))
    (listeners (data n))).
  { apply list.Forall_forall. intros l Hl.
    destruct (inv_listeners _ _ _ Hi _ _ _ Hn Hl) as (r & ? & ? & _). eauto. }
  clear Hn. revert reg cur s Hi Hl. induction (listeners (data n)) as [|[t h] l IH]; simpl;
    intros reg cur s Hi Hl; [by eauto using ext_refl|].
  apply list.Forall_cons in Hl as [(r & Hr & Hh) Hl].
  set (m := when _ _). assert (∃ reg' cur', inv reg' cur' (m s).2 ∧ ext reg cur s reg' cur' (m s).2)
    as (reg1 & cur1 & Hi1 & He1).
  { unfold m, when. case_bool_decide; [|by eauto using ext_refl].
    destruct (run_handler_inv _ _ _ _ _ Hi Hr Hh) as (reg' & cur' & ? & ?).
    exists reg', cur'. unfold catch. cbn [snd] in *. destruct (run_handler h s) as [[] ?]; simpl in *; auto. }
  unfold mbind, M_bind. destruct (m s) as [[a|e] s1]; simpl in *; [|by eauto].
  destruct (IH _ _ _ Hi1) as (reg2 & cur2 & ? & ?).
  - eapply list.Forall_impl; [exact Hl|]. intros x (r' & ? & ?). exists r'.
    pose proof (ext_cur _ _ _ _ _ _ He1). split; [lia|]. by eapply nodes_in_ext.
  - exists reg2, cur2. eauto using ext_trans.
Qed.

(** * Responses *)

(** A continuation of region [r] resumes. *)
Lemma resume_rel reg cur s k v r :
  inv reg cur s → cont_in reg (next_id s) r k →
  rel (in_region reg cur (next_id s) r) s (resume k v s).2.
Proof.
  intros Hi Hk. apply (wb_resume (in_region reg cur (next_id s) r) (in_region_static _ _ _ _)
    (next_id s) k v); [by apply cont_in_ok|by apply inv_pre].
Qed.

(** The network loses a request or a join, or changes the slots of one. *)
Definition net_shrinks (n n' : network) : Prop :=
  next_req n' = next_req n ∧ next_join n' = next_join n ∧
  (∀ q p, in_flight n' !! q = Some p → in_flight n !! q = Some p) ∧
  (∀ j jn, joins n' !! j = Some jn → ∃ jn0, joins n !! j = Some jn0 ∧ j_cont jn = j_cont jn0).

Lemma net_shrinks_inv reg cur s n' :
  inv reg cur s → net_shrinks (net s) n' →
  inv reg cur (set_net n' s) ∧ ext reg cur s reg cur (set_net n' s).
Proof.
  intros Hi (Hr & Hj & Hq & Hjn).
  assert (ext reg cur s reg cur (set_net n' s)) as He by (constructor; simpl; rewrite ?Hr, ?Hj; auto).
  split; [|done]. constructor; simpl; try apply Hi.
  - rewrite Hr. intros q ?. destruct (in_flight n' !! q) eqn:E; [|done].
    apply Hq in E. by rewrite (inv_fresh_reqs _ _ _ Hi) in E.
  - rewrite Hj. intros j ?. destruct (joins n' !! j) as [jn|] eqn:E; [|done].
    destruct (Hjn _ _ E) as (jn0 & E0 & _). by rewrite (inv_fresh_joins _ _ _ Hi) in E0.
  - intros q p Hp. destruct (inv_reqs _ _ _ Hi _ _ (Hq _ _ Hp)) as (r & ? & ?).
    exists r. split; [done|]. by eapply (target_in_ext _ _ _ _ _ _ _ _ He).
  - intros j jn Hp. destruct (Hjn _ _ Hp) as (jn0 & E0 & ->). by apply (inv_joins _ _ _ Hi) in E0.
Qed.

(** What settling a request of region [r] does: it changes the network and
    then, at most, resumes one continuation of that region. *)
Definition settles (reg : nid → nat) (cur r : nat) (s s' : st) : Prop :=
  ∃ n', net_shrinks (net s) n' ∧ rel (in_region reg cur (next_id s) r) (set_net n' s) s'.

Lemma settles_inv reg cur r s s' :
  inv reg cur s → r ≤ cur → settles reg cur r s s' →
  ∃ reg' cur', inv reg' cur' s' ∧ ext reg cur s reg' cur' s'.
Proof.
  intros Hi Hr (n' & Hn & Hrel). destruct (net_shrinks_inv _ _ _ _ Hi Hn) as [Hi1 He1].
  eexists _, cur. split; [by eapply (run_inv _ _ _ _ _ Hi1 Hr)|].
  eapply ext_trans; [exact He1|]. by eapply (run_ext _ _ _ _ _ Hi1 Hr).
Qed.

Lemma settles_net reg cur r s n' :
  inv reg cur s → net_shrinks (net s) n' → settles reg cur r s (set_net n' s).
Proof.
  intros Hi Hn. exists n'. split; [done|]. eapply rel_refl.
  apply (inv_pre reg cur (set_net n' s)). by apply (net_shrinks_inv _ _ _ _ Hi Hn).
Qed.

Lemma settles_resume reg cur r s n' k v :
  inv reg cur s → net_shrinks (net s) n' → cont_in reg (next_id s) r k →
  settles reg cur r s (resume k v (set_net n' s)).2.
Proof.
  intros Hi Hn Hk. exists n'. split; [done|].
  apply (resume_rel reg cur (set_net n' s)); [|done]. by apply (net_shrinks_inv _ _ _ _ Hi Hn).
Qed.

Lemma net_shrinks_drop n q :
  net_shrinks n (Network (delete q (in_flight n)) (next_req n) (joins n) (next_join n)).
Proof.
  split; [done|]. split; [done|]. split; simpl; [|by eauto].
  intros q' p Hp. by apply lookup_delete_Some in Hp as [_ ?].
Qed.

Lemma net_shrinks_trans n1 n2 n3 : net_shrinks n1 n2 → net_shrinks n2 n3 → net_shrinks n1 n3.
Proof.
  intros (? & ? & Hq & Hj) (? & ? & Hq' & Hj'). split; [congruence|]. split; [congruence|].
  split; [auto|]. intros j jn Hjn. destruct (Hj' _ _ Hjn) as (jn1 & Hjn1 & ->).
  destruct (Hj _ _ Hjn1) as (jn0 & ? & ->). eauto.
Qed.

Lemma net_shrinks_join n j jn slots :
  joins n !! j = Some jn →
  net_shrinks n (Network (in_flight n) (next_req n)
                   (<[j := Join slots (j_cont jn)]> (joins n)) (next_join n)).
Proof.
  intros Hj. split; [done|]. split; [done|]. split; simpl; [done|]. intros j' jn' Hjn.
  apply lookup_insert_Some in Hjn as [[<- <-]|[? ?]]; eauto.
Qed.

Lemma net_shrinks_drop_join n j :
  net_shrinks n (Network (in_flight n) (next_req n) (delete j (joins n)) (next_join n)).
Proof.
  split; [done|]. split; [done|]. split; simpl; [done|].
  intros j' jn' Hjn. apply lookup_delete_Some in Hjn as [_ ?]. eauto.
Qed.

Lemma settle_settles reg cur r s req p o :
  inv reg cur s → in_flight (net s) !! req = Some p → target_in reg s r (p_target p) →
  settles reg cur r s (settle req o s).2.
Proof.
  intros Hi Hp Ht. pose proof (net_shrinks_drop (net s) req) as Hd.
  unfold settle. unfold mbind, M_bind, get. simpl. rewrite Hp. simpl.
  set (v := read_response _ _ _). clearbody v.
  destruct (p_target p) as [k|j i b]; simpl in *; [by apply settles_resume|].
  destruct Ht as [_ Ht]. unfold settle_slot, mbind, M_bind, get. simpl.
  destruct (joins (net s) !! j) as [jn|] eqn:Ej; [|by apply settles_net].
  specialize (Ht _ eq_refl).
  pose proof (net_shrinks_trans _ _ _ Hd (net_shrinks_drop_join _ j)) as Hdj.
  assert (Hfill : ∀ w, settles reg cur r s
    (match mapM (λ o, o) (<[i := Some w]> (j_slots jn)) with
     | Some vs => modify (λ s, set_net (Network (in_flight (net s)) (next_req (net s))
                    (delete j (joins (net s))) (next_join (net s))) s);;
                  resume (j_cont jn) (Ok (JArr vs))
     | None => modify (λ s, set_net (Network (in_flight (net s)) (next_req (net s))
                    (<[j := Join (<[i := Some w]> (j_slots jn)) (j_cont jn)]> (joins (net s)))
                    (next_join (net s))) s)
     end (set_net (Network (delete req (in_flight (net s))) (next_req (net s)) (joins (net s))
            (next_join (net s))) s)).2).
  { intros w. destruct (mapM _ _) as [vs|].
    - exact (settles_resume _ _ _ _ _ _ (Ok (JArr vs)) Hi Hdj Ht).
    - refine (settles_net _ _ _ _ _ Hi _).
      refine (net_shrinks_trans _ _ _ Hd (net_shrinks_join (Network _ _ _ _) j jn _ _)). exact Ej. }
  destruct v as [w|e]; [exact (Hfill w)|]. destruct b; [exact (Hfill (JObj []))|].
  exact (settles_resume _ _ _ _ _ _ (Err e) Hi Hdj Ht).
Qed.

Lemma preserves_settle req o : preserves (settle req o).
Proof.
  intros reg cur s Hi. destruct (in_flight (net s) !! req) as [p|] eqn:Hp.
  - destruct (inv_reqs _ _ _ Hi _ _ Hp) as (r & Hr & Ht).
    eapply settles_inv; [done|exact Hr|]. by eapply settle_settles.
  - unfold settle, mbind, M_bind, get. simpl. rewrite Hp. simpl. eauto using ext_refl.
Qed.

(** * Events *)

Lemma preserves_set_clock f :
  (∀ s, ∃ c b, f s = St (dom s) (next_id s) (net s) (app s) c b) → preserves (modify f).
Proof.
  intros Hf reg cur s Hi. exists reg, cur. simpl. destruct (Hf s) as (c & b & ->).
  split; constructor; simpl; try apply Hi; eauto.
Qed.

Lemma preserves_event e : e ≠ EvLoad → preserves (run_event e).
Proof.
  intros He. destruct e; simpl; try done.
  - apply preserves_bind; [apply preserves_set_clock; eauto|]. intros _. apply preserves_dispatch.
  - apply preserves_bind; [apply preserves_setValue|]. intros _. apply preserves_dispatch.
  - apply preserves_setValue.
  - apply preserves_bind; [by apply preserves_pure|]. intros s. unfold when.
    case_match; [apply preserves_render_current|by apply preserves_pure].
  - apply preserves_settle.
  - apply preserves_set_clock. eauto.
Qed.

Lemma preserves_steps es reg cur s :
  inv reg cur s → Forall (λ e, e ≠ EvLoad) es →
  ∃ reg' cur', inv reg' cur' (steps s es) ∧ ext reg cur s reg' cur' (steps s es).
Proof.
  intros Hi Hes. revert reg cur s Hi. induction Hes as [|e es He _ IH]; intros reg cur s Hi; simpl.
  - eauto using ext_refl.
  - destruct (preserves_event e He _ _ _ Hi) as (reg1 & cur1 & Hi1 & He1).
    destruct (IH _ _ _ Hi1) as (reg2 & cur2 & ? & ?). eauto using ext_trans.
Qed.

(** * Start-up *)

(** A node of index.html: its elements are static, it has no listener, and it
    keeps to the vocabulary. *)
Definition page_node_ok (id : nid) (n : node) : bool :=
  bool_decide (id < first_free) &&
  forallb (λ k, match k with
                | CElem c => bool_decide (c < first_free) && (negb (bool_decide (id = content_id)) || bool_decide (c = 18))
                | CText _ => true
                end) (kids n) &&
  bool_decide (listeners (data n) = []) &&
  bool_decide (tag (data n) ∈ allowed_tags) &&
  bool_decide (className (data n) ∈ allowed_classes) &&
  forallb (λ kv, bool_decide (attribute_safe (tag (data n)) kv)) (attributes (data n)).

Lemma index_html_ok : map_Forall (λ id n, page_node_ok id n = true) index_html.
Proof. apply (bool_decide_unpack _). vm_compute. exact I. Qed.

Lemma index_html_static id : id < first_free → is_Some (index_html !! id).
Proof.
  intros Hid. assert (Hall : Forall (λ id, is_Some (index_html !! id)) (seq 0 first_free)).
  { apply (bool_decide_unpack _). vm_compute. exact I. }
  rewrite list.Forall_forall in Hall. apply Hall, elem_of_seq. lia.
Qed.

Lemma page_node id n : index_html !! id = Some n →
  id < first_free ∧ listeners (data n) = [] ∧ node_safe n ∧
  ∀ c, CElem c ∈ kids n → c < first_free ∧ (id = content_id → c = 18).
Proof.
  intros Hn. apply index_html_ok in Hn. unfold page_node_ok in Hn.
  rewrite !andb_true_iff, !forallb_forall, !bool_decide_eq_true in Hn.
  destruct Hn as (((((? & Hk) & ?) & ?) & ?) & Ha). split; [done|]. split; [done|].
  split; [split; [done|split; [done|]]|].
  - apply list.Forall_forall. intros kv Hkv%list_elem_of_In. by apply Ha, bool_decide_eq_true in Hkv.
  - intros c Hc%list_elem_of_In. apply Hk, andb_true_iff in Hc as [Hlt Hcont].
    apply bool_decide_eq_true in Hlt. split; [done|]. intros ->. by apply bool_decide_eq_true in Hcont.
Qed.

Lemma inv_initial now : inv (λ _, 0) 0 (initial now).
Proof.
  constructor; simpl; try done.
  - intros id Hid. destruct (index_html !! id) as [n|] eqn:E; [|done]. apply page_node in E. lia.
  - intros id n c Hn Hc. destruct (page_node _ _ Hn) as (? & _ & _ & Hk).
    destruct (Hk _ Hc) as [? Hcont]. split; [lia|]. split; [auto|lia].
  - intros id n l Hn Hl. destruct (page_node _ _ Hn) as (_ & E & _).
    rewrite E in Hl. by apply elem_of_nil in Hl.
  - intros id n Hn. by apply page_node in Hn as (_ & _ & ? & _).
  - unfold maxPoints. lia.
  - intros id (Hid & _). destruct (index_html_static _ Hid) as [n Hn]. exists n, n.
    split; [done|]. split; [done|]. split; [done|]. split; [done|]. split; [done|]. by left.
Qed.

(** The listener of a navigation button captures no node of a region. *)
Lemma preserves_add_nav btn : preserves (addEventListener btn "click" (HNav btn)).
Proof.
  apply preserves_alter. intros n. split; [done|]. split; [done|]. split; [|auto].
  intros l Hl. simpl in Hl. apply elem_of_app in Hl as [?|Hl]; [by left|].
  apply list_elem_of_singleton in Hl as ->. right. split; [done|by left].
Qed.

Lemma preserves_init_workspaces : preserves initWorkspaceSwitcher.
Proof.
  apply preserves_wb. intros reg cur s Hi. exists 0. split; [lia|].
  unfold initWorkspaceSwitcher. eapply wb_static; [reflexivity|].
  eapply wb_bind; [by apply wb_fetch|]. intros _ lo' _ _. apply wb_addEventListener;
    [left; by right; left|constructor|by right].
Qed.

Lemma preserves_setStatusBadge t : u t ∈ allowed_classes → preserves (setStatusBadge t).
Proof.
  intros Ht. apply preserves_wb. intros reg cur s Hi. exists 0. split; [lia|].
  apply wb_setStatusBadge; [apply in_region_static|done].
Qed.

Lemma preserves_startAutoRefresh : preserves startAutoRefresh.
Proof.
  intros reg cur s Hi. exists reg, cur. pose proof (inv_timers _ _ _ Hi) as Ht.
  unfold startAutoRefresh, stopAutoRefresh, setInterval, clearInterval, modify_app, modify, gets,
    mbind, M_bind; simpl.
  destruct (refreshTimer (app s)) as [t|]; simpl; (split; [|constructor; simpl; eauto]);
    constructor; simpl; try apply Hi; rewrite Ht; set_solver.
Qed.

Lemma preserves_on_load : preserves on_load.
Proof.
  unfold on_load. apply preserves_bind; [by apply preserves_pure|]. intros btns.
  apply preserves_bind; [apply preserves_for_each; intros; apply preserves_add_nav|]. intros _.
  apply preserves_bind; [apply preserves_init_workspaces|]. intros _.
  apply preserves_bind; [apply preserves_setStatusBadge; vocab|]. intros _.
  apply preserves_bind; [apply preserves_switchView|]. intros _. apply preserves_startAutoRefresh.
Qed.

(** Every state the page reaches satisfies the invariant. *)
Lemma reachable_inv s : reachable s → ∃ reg cur, inv reg cur s.
Proof.
  induction 1 as [now|s e _ (reg & cur & Hi) He].
  - destruct (preserves_on_load _ _ _ (inv_initial now)) as (reg & cur & ? & _). eauto.
  - destruct (preserves_event e He _ _ _ Hi) as (reg' & cur' & ? & _). eauto.
Qed.
End host.
