(* ===== verification/ConsoleSafety.v ===== *)
(** What holds of every state of the console: the page keeps to a fixed
    vocabulary whatever the server sends, no callback holds a dangling node,
    the history and the timers are bounded, the navigation is marked, and a
    late response never reaches the view that replaced its own. *)

From S2P Require Import Prelude JsNumber JsValue Json ConsoleData Browser ConsoleViews.
From S2P Require Import ConsoleEditor ConsoleLive ConsoleCrud ConsoleAiOps ConsoleApp.
From S2P Require Import ConsoleFrame ConsoleSafe ConsoleInv.

(** A host for concrete runs. *)
Definition sample_host : Host := {|
  te_message := λ _, u "TypeError";
  json_message := λ _, u "SyntaxError";
  function_text := λ _, u "function";
  locale_time := λ _, u "12:00:00";
|}.

(** What the content shows: the content node and the nodes below it. *)
Definition shown (s : st) : list nid := content_id :: descendants (next_id s) (dom s) content_id.

(** A view took the place of the one before: by navigation, or by a refresh
    (a button, the timer or the workspace switcher). *)
Definition replaces_view {H : Host} (s s' : st) : Prop :=
  (∃ name v, views name = Some v ∧ s' = (switchView name s).2) ∨ (∃ v, s' = (run_view v s).2).

(** The nodes that pending callbacks hold. *)
Definition captured (s : st) (c : nid) : Prop :=
  (∃ id n l, dom s !! id = Some n ∧ l ∈ listeners (data n) ∧ c ∈ handler_nodes l.2) ∨
  (∃ q p k, in_flight (net s) !! q = Some p ∧ p_target p = TCont k ∧ c ∈ cont_nodes k) ∨
  (∃ j jn, joins (net s) !! j = Some jn ∧ c ∈ cont_nodes (j_cont jn)).

Section host.
Context {H : Host}.

(** * What is shown belongs to the current region *)

Lemma region_descendants reg cur s fuel id i :
  inv reg cur s → first_free ≤ id → reg id = cur → i ∈ descendants fuel (dom s) id →
  first_free ≤ i ∧ i < next_id s ∧ reg i = cur.
Proof.
  intros Hi. revert id. induction fuel as [|fuel IH]; simpl; intros id Hid Hr Hin.
  - by apply elem_of_nil in Hin.
  - destruct (dom s !! id) as [n|] eqn:E; [|by apply elem_of_nil in Hin].
    apply list_elem_of_In, in_flat_map in Hin as (k & Hk & Hin). apply list_elem_of_In in Hk, Hin.
    destruct k as [c|t]; [|by apply elem_of_nil in Hin].
    destruct (inv_kids _ _ _ Hi _ _ _ E Hk) as (Hdyn & _ & Hc). specialize (Hdyn Hid).
    pose proof content_lt.
    destruct (Hc Hdyn) as [? [Hst%statics_lt|[[-> _]|[_ Hreg]]]]; [lia|lia|].
    apply elem_of_cons in Hin as [->|Hin]; [by rewrite Hreg|]. apply (IH c); [done|by rewrite Hreg|done].
Qed.

Lemma content_not_static : content_id ∉ statics.
Proof. apply (bool_decide_unpack _). vm_compute. exact I. Qed.

Lemma placeholder_fixed : fixed_static 18.
Proof. apply (bool_decide_unpack _). vm_compute. exact I. Qed.

(** The static placeholder of the content has no element below it. *)
Lemma placeholder_kids reg cur s fuel : inv reg cur s → descendants fuel (dom s) 18 = [].
Proof.
  intros Hi. destruct fuel; [done|]. simpl.
  destruct (inv_static _ _ _ Hi _ placeholder_fixed) as (n0 & n & H0 & -> & Hk & _).
  rewrite Hk. vm_compute in H0. by injection H0 as <-.
Qed.

Lemma shown_region reg cur s i :
  inv reg cur s → i ∈ shown s → i = content_id ∨ i = 18 ∨
    (first_free ≤ i ∧ i < next_id s ∧ reg i = cur).
Proof.
  intros Hi Hin. apply elem_of_cons in Hin as [->|Hin]; [by left|]. right.
  remember (next_id s) as fuel0 eqn:Hfuel. rewrite Hfuel. clear Hfuel.
  destruct fuel0 as [|fuel]; simpl in Hin; [by apply elem_of_nil in Hin|].
  destruct (dom s !! content_id) as [n|] eqn:E; [|by apply elem_of_nil in Hin].
  apply list_elem_of_In, in_flat_map in Hin as (k & Hk & Hin). apply list_elem_of_In in Hk, Hin.
  destruct k as [c|t]; [|by apply elem_of_nil in Hin].
  destruct (inv_kids _ _ _ Hi _ _ _ E Hk) as (_ & Hst & Hc).
  destruct (decide (first_free ≤ c)) as [Hf|Hf].
  - right. pose proof content_lt.
    destruct (Hc Hf) as [? [Hcs|[[_ Hreg]|[? _]]]]; [| |lia].
    + exfalso. revert Hcs. apply (bool_decide_unpack _). vm_compute. exact I.
    + apply elem_of_cons in Hin as [->|Hin]; [by auto|]. by eapply region_descendants.
  - left. rewrite (Hst eq_refl) in Hin by lia.
    apply elem_of_cons in Hin as [->|Hin]; [done|].
    rewrite (placeholder_kids _ _ _ _ Hi) in Hin. by apply elem_of_nil in Hin.
Qed.

(** Replacing the view opens a new region. *)
Lemma replaces_inv reg cur s s' :
  inv reg cur s → replaces_view s s' →
  ∃ reg' cur', inv reg' cur' s' ∧ ext reg cur s reg' cur' s' ∧ cur < cur'.
Proof.
  intros Hi [(name & v & Hv & ->)|(v & ->)].
  - rewrite switchView_marks.
    destruct (preserves_modify_app (set_currentView name)) with reg cur s as (reg1 & cur1 & Hi1 & He1);
      [done..|].
    destruct (preserves_mark_all name _ _ _ Hi1) as (reg2 & cur2 & Hi2 & He2).
    unfold mbind, M_bind. simpl in *.
    destruct (mark_all name _) as [[[]|e] s2] eqn:Em.
    + simpl in *. unfold render_named. rewrite Hv.
      destruct (preserves_run_view_new v _ _ _ Hi2) as (reg3 & Hi3 & He3).
      exists reg3, (S cur2). split; [done|]. split; [by eauto using ext_trans|].
      pose proof (ext_cur _ _ _ _ _ _ He1). pose proof (ext_cur _ _ _ _ _ _ He2). lia.
    + exfalso. unfold mark_all, mbind, M_bind in Em.
      destruct (querySelectorAll_nav (set_app (set_currentView name (app s)) s)) as (btns & Hq & Hb);
        [apply Hi1|].
      rewrite Hq in Em. destruct (mark_all_run name btns _ Hb) as (h & Hm & _). congruence.
  - destruct (preserves_run_view_new v _ _ _ Hi) as (reg' & ? & ?). exists reg', (S cur). auto.
Qed.

(** C1: once another view is shown (by navigation or a refresh), the response
    to a request issued before, however late it arrives and whatever it is,
    leaves the content and everything below it untouched. *)
Theorem stale_response s s1 es req p o :
  reachable s → in_flight (net s) !! req = Some p → replaces_view s s1 →
  Forall (λ e, e ≠ EvLoad) es →
  let s2 := steps s1 es in
  in_flight (net s2) !! req = Some p →
  ∀ id, id ∈ shown s2 → dom (step s2 (EvSettle req o)) !! id = dom s2 !! id.
Proof.
  intros Hs Hp Hv Hes s2 Hp2 id Hid.
  destruct (reachable_inv _ Hs) as (reg & cur & Hi).
  destruct (inv_reqs _ _ _ Hi _ _ Hp) as (r & Hr & Ht).
  destruct (replaces_inv _ _ _ _ Hi Hv) as (reg1 & cur1 & Hi1 & He1 & Hlt).
  destruct (preserves_steps es _ _ _ Hi1 Hes) as (reg2 & cur2 & Hi2 & He2). fold s2 in Hi2, He2.
  pose proof (ext_cur _ _ _ _ _ _ He2).
  apply (target_in_ext _ _ _ _ _ _ _ _ (ext_trans _ _ _ _ _ _ _ _ _ He1 He2)) in Ht.
  destruct (settle_settles _ _ _ _ _ _ o Hi2 Hp2 Ht) as (n' & _ & Hrel).
  change (step s2 (EvSettle req o)) with (settle req o s2).2.
  rewrite (rel_unowned _ _ _ Hrel); [done|]. simpl.
  destruct (shown_region _ _ _ _ Hi2 Hid) as [->|[->|(Hf & Hn & Hreg)]].
  - intros [Hst|[[_ ?]|[Hf _]]]; [by apply content_not_static in Hst|lia|].
    pose proof content_lt. lia.
  - apply fixed_not_in_region, placeholder_fixed.
  - pose proof content_lt. intros [Hst%statics_lt|[[-> _]|[_ [?|?]]]]; lia.
Qed.

(** C2: whatever the server sends, every element of the page has a tag and a
    class of the fixed vocabulary of index.html and app.js, and each attribute a
    name and a value of theirs, but for the [value] of an option.  So a response
    never chooses a tag, a class, an attribute or another attribute's value; what
    it does choose are texts, fields' contents, drawings and options' values. *)
Theorem page_vocabulary s : reachable s → dom_safe (dom s).
Proof. intros Hs. destruct (reachable_inv _ Hs) as (reg & cur & Hi). apply Hi. Qed.

(** The latency history never exceeds its 60 points. *)
Theorem history_bounded s : reachable s → length (history (app s)) ≤ maxPoints.
Proof. intros Hs. destruct (reachable_inv _ Hs) as (reg & cur & Hi). apply Hi. Qed.

(** No callback holds a dangling node, and no element has one for a child. *)
Theorem no_dangling s c :
  reachable s →
  captured s c ∨ (∃ id n, dom s !! id = Some n ∧ CElem c ∈ kids n) →
  c < next_id s.
Proof.
  intros Hs Hc. destruct (reachable_inv _ Hs) as (reg & cur & Hi).
  assert (Hin : ∀ r l, nodes_in reg (next_id s) r l → c ∈ l → c < next_id s).
  { intros r l Hl Hcl. unfold nodes_in in Hl. rewrite list.Forall_forall in Hl. by apply Hl. }
  assert (Hcont : ∀ r k, cont_in reg (next_id s) r k → c ∈ cont_nodes k → c < next_id s).
  { intros r k Hk. destruct k; try by eapply Hin. intros Hn. by apply elem_of_nil in Hn. }
  destruct Hc as [[(id & n & l & Hn & Hl & Hcl)|[(q & p & k & Hp & Hk & Hck)|(j & jn & Hj & Hck)]]|
    (id & n & Hn & Hk)].
  - destruct (inv_listeners _ _ _ Hi _ _ _ Hn Hl) as (r & _ & ? & _). by eapply Hin.
  - destruct (inv_reqs _ _ _ Hi _ _ Hp) as (r & _ & Ht). rewrite Hk in Ht. by eapply Hcont.
  - destruct (inv_joins _ _ _ Hi _ _ Hj) as (r & _ & ?). by eapply Hcont.
  - destruct (inv_kids _ _ _ Hi _ _ _ Hn Hk) as (_ & _ & Hlt). pose proof (inv_next _ _ _ Hi).
    destruct (decide (first_free ≤ c)); [by apply Hlt|lia].
Qed.

(** * Timers *)

Lemma load_timer now : is_Some (refreshTimer (app (step (initial now) EvLoad))).
Proof. vm_compute. eauto. Qed.

Lemma reachable_timer s : reachable s → is_Some (refreshTimer (app s)).
Proof.
  induction 1 as [now|s e Hs IH He]; [apply load_timer|].
  destruct (reachable_inv _ Hs) as (reg & cur & Hi).
  destruct (preserves_event e He _ _ _ Hi) as (reg' & cur' & _ & Hext). by apply Hext.
Qed.

(** Once loaded, the page always runs exactly one interval timer, the one
    [refreshTimer] holds: refreshes never pile up. *)
Theorem one_timer s : reachable s → ∃ t, refreshTimer (app s) = Some t ∧ timers (app s) = {[t]}.
Proof.
  intros Hs. destruct (reachable_timer _ Hs) as [t Ht]. exists t. split; [done|].
  destruct (reachable_inv _ Hs) as (reg & cur & Hi).
  rewrite (inv_timers _ _ _ Hi). by rewrite Ht.
Qed.

(** * Navigation *)

(** A render leaves the static page and the current view's name alone. *)
Lemma run_view_static reg cur s v id :
  inv reg cur s → fixed_static id →
  dom (run_view v s).2 !! id = dom s !! id ∧
  currentView (app (run_view v s).2) = currentView (app s).
Proof.
  intros Hi Hf. destruct (inv_clear _ _ _ Hi) as [Hi1 _]. rewrite <- run_view_clear.
  destruct (wb_run_view (in_region reg (S cur) (next_id s) (S cur)) (in_region_static _ _ _ _)
    (next_id s) v) with (s := (clear content_id s).2) as [Hrel _].
  - right; left. done.
  - by apply (inv_pre reg (S cur) (clear content_id s).2).
  - split; [|by apply (rel_view _ _ _ Hrel)].
    rewrite (rel_unowned _ _ _ Hrel) by (by apply fixed_not_in_region).
    simpl. rewrite lookup_alter_ne; [done|]. intros <-. by destruct Hf as (? & ? & ?).
Qed.

Lemma nav_fixed b : b ∈ nav_buttons → fixed_static b.
Proof.
  intros Hb. apply elem_of_seq in Hb. split; [unfold first_free; lia|].
  split; [|unfold content_id; lia].
  unfold statics, body_id, switcher_id, badge_id, last_refresh_id. set_solver by lia.
Qed.

(** A static node the callbacks leave alone, with its children. *)
Lemma fixed_kids reg cur s id ks :
  inv reg cur s → fixed_static id → (kids <$> index_html !! id) = Some ks →
  ∃ n, dom s !! id = Some n ∧ kids n = ks.
Proof.
  intros Hi Hf Hk. destruct (inv_static _ _ _ Hi _ Hf) as (n0 & n & H0 & Hn & Hsk & _).
  exists n. split; [done|]. rewrite H0 in Hk. simpl in Hk. congruence.
Qed.

Lemma descendants_kid h fuel id n k :
  h !! id = Some n → CElem k ∈ kids n → k ∈ descendants (S fuel) h id.
Proof.
  intros Hn Hk. simpl. rewrite Hn. apply list_elem_of_In, in_flat_map. exists (CElem k).
  split; [by apply list_elem_of_In|]. by left.
Qed.

Lemma descendants_below h fuel id n k i :
  h !! id = Some n → CElem k ∈ kids n → i ∈ descendants fuel h k → i ∈ descendants (S fuel) h id.
Proof.
  intros Hn Hk Hi. simpl. rewrite Hn. apply list_elem_of_In, in_flat_map. exists (CElem k).
  split; [by apply list_elem_of_In|]. right. by apply list_elem_of_In.
Qed.

Lemma body_static : static_kids index_html body_id = Some (map CElem [1; 17; 19]).
Proof. vm_compute. reflexivity. Qed.

(** The navigation buttons are in the document. *)
Lemma nav_found reg cur s b :
  inv reg cur s → b ∈ nav_buttons → b ∈ descendants (next_id s) (dom s) body_id.
Proof.
  intros Hi Hb.
  assert (∃ n, dom s !! body_id = Some n ∧ CElem 1 ∈ kids n) as (n0 & H0 & Hk0).
  { pose proof (inv_body _ _ _ Hi) as Hst. rewrite body_static in Hst. unfold static_kids in Hst.
    destruct (dom s !! body_id) as [n|]; [|done]. exists n. split; [done|].
    simpl in Hst. apply (inj Some) in Hst. assert (CElem 1 ∈ filter static_kid (kids n)) as Hin
      by (rewrite Hst; simpl; constructor). by apply list_elem_of_filter in Hin as [_ ?]. }
  assert (fixed_static 1 ∧ fixed_static 3) as [F1 F3]
    by (split; apply (bool_decide_unpack _); vm_compute; exact I).
  destruct (fixed_kids _ _ _ 1 (map CElem [2; 3; 14; 16]) Hi F1) as (n1 & H1 & Hk1); [reflexivity|].
  destruct (fixed_kids _ _ _ 3 (map CElem nav_buttons) Hi F3) as (n3 & H3 & Hk3); [reflexivity|].
  pose proof (inv_next _ _ _ Hi) as Hn. unfold first_free in Hn.
  destruct (next_id s) as [|[|[|fuel]]]; [lia..|].
  apply (descendants_below _ _ _ _ 1 _ H0 Hk0).
  apply (descendants_below _ _ _ _ 3 _ H1); [rewrite Hk1; simpl; set_solver|].
  apply (descendants_kid _ _ _ _ b H3). rewrite Hk3. by apply list_elem_of_fmap_2.
Qed.

Lemma nav_index_class b n0 :
  b ∈ nav_buttons → index_html !! b = Some n0 → className (data n0) ∈ nav_classes.
Proof.
  intros Hb Hn.
  assert (Hall : forallb (λ b, match index_html !! b with
    | Some m => bool_decide (className (data m) ∈ nav_classes) | None => true end) nav_buttons = true)
    by (vm_compute; reflexivity).
  rewrite forallb_forall in Hall. specialize (Hall _ (proj1 (list_elem_of_In _ _) Hb)).
  rewrite Hn in Hall. by apply bool_decide_eq_true in Hall.
Qed.

(** Switching to a view highlights the navigation button of that view, and
    only it; the buttons keep their labels. *)
Theorem navigation_marked s view b n0 :
  reachable s → b ∈ nav_buttons → index_html !! b = Some n0 →
  let s' := (switchView view s).2 in
  currentView (app s') = view ∧
  ∃ n, dom s' !! b = Some n ∧ kids n = kids n0 ∧
    className (data n) = nav_class (bool_decide (attr "data-view" n0 = Some view)).
Proof.
  intros Hs Hb H0 s'. destruct (reachable_inv _ Hs) as (reg & cur & Hi).
  destruct (preserves_modify_app (set_currentView view)) with reg cur s as (reg1 & cur1 & Hi1 & _);
    [done..|].
  simpl in Hi1. set (s1 := set_app (set_currentView view (app s)) s) in *.
  destruct (preserves_mark_all view _ _ _ Hi1) as (reg2 & cur2 & Hi2 & _).
  pose proof (nav_fixed _ Hb) as Hf.
  destruct (inv_static _ _ _ Hi1 _ Hf) as (n0' & n & H0' & Hn & Hk & _ & Ha & Hc).
  simplify_eq.
  destruct (querySelectorAll_nav s1) as (btns & Hq & Hbtns); [apply Hi1|].
  assert (Hcn : className (data n) ∈ nav_classes).
  { destruct Hc as [->|[? _]]; [by eapply nav_index_class|done]. }
  assert (b ∈ btns) as Hin.
  { injection Hq as <-. apply list_elem_of_filter. split; [|by eapply nav_found].
    unfold has_class_at, has_class. change (dom s1) with (dom s) in *. rewrite Hn. apply bool_decide_eq_true.
    unfold nav_classes in Hcn. apply elem_of_cons in Hcn as [->|Hcn];
      [|apply list_elem_of_singleton in Hcn as ->]; vm_compute; set_solver. }
  destruct (mark_all_run view btns s1 Hbtns) as (h & Hm & Hh).
  assert (Hmark : mark_all view s1 = (Ok tt, set_dom h s1)).
  { unfold mark_all, mbind, M_bind. by rewrite Hq. }
  assert (Hs' : s' = (render_named view (set_dom h s1)).2).
  { unfold s'. rewrite switchView_marks. unfold mbind, M_bind. simpl. fold s1. by rewrite Hmark. }
  rewrite Hmark in Hi2. simpl in Hi2.
  assert (Hfin : dom s' !! b = h !! b ∧ currentView (app s') = view).
  { rewrite Hs'. unfold render_named. destruct (views view) as [v|]; [|done].
    by apply (run_view_static _ _ _ v _ Hi2). }
  destruct Hfin as [Hd Hcv]. split; [done|]. exists (mark view n).
  assert (Hb' : h !! b = Some (mark view n)).
  { rewrite Hh. change (dom s1) with (dom s) in *. rewrite Hn. simpl. by rewrite decide_True. }
  rewrite Hd, Hb'. split; [done|]. split; [done|]. simpl. unfold attr. by rewrite Ha.
Qed.
End host.

(** * Concrete instances *)

(** The page after it loaded at time 0, on a sample host. *)
Definition sample_page : st := @step sample_host (initial 0) EvLoad.

Lemma sample_reachable : @reachable sample_host sample_page.
Proof. apply reach_load. Qed.

(** The overview waits for [/health] (request 1); the user moves to the
    configuration, and then the response arrives. *)
Lemma stale_response_witness :
  let s2 := (@switchView sample_host (u "config") sample_page).2 in
  dom (@step sample_host s2 (EvSettle 1 (Response 200 (Ok (u "{}"))))) !! content_id = dom s2 !! content_id.
Proof.
  intros s2.
  eapply (@stale_response sample_host sample_page s2 [] 1 _ _ sample_reachable).
  - vm_compute. reflexivity.
  - left. exists (u "config"), VConfig. split; reflexivity.
  - constructor.
  - vm_compute. reflexivity.
  - left.
Defined.

Lemma page_vocabulary_witness : dom_safe (dom sample_page).
Proof. apply (@page_vocabulary sample_host _ sample_reachable). Defined.

Lemma history_bounded_witness : length (history (app sample_page)) ≤ maxPoints.
Proof. apply (@history_bounded sample_host _ sample_reachable). Defined.

Lemma one_timer_witness : ∃ t, refreshTimer (app sample_page) = Some t ∧ timers (app sample_page) = {[t]}.
Proof. apply (@one_timer sample_host _ sample_reachable). Defined.

Lemma navigation_marked_witness :
  let s' := (@switchView sample_host (u "config") sample_page).2 in
  currentView (app s') = u "config" ∧
  ∃ n n0, index_html !! 4 = Some n0 ∧ dom s' !! 4 = Some n ∧ kids n = kids n0 ∧
    className (data n) = nav_class (bool_decide (attr "data-view" n0 = Some (u "config"))).
Proof.
  destruct (index_html !! 4) as [n0|] eqn:E; [|exfalso; revert E; vm_compute; discriminate].
  destruct (@navigation_marked sample_host sample_page (u "config") 4 n0 sample_reachable)
    as (Hv & n & Hn & Hk & Hc).
  - vm_compute. left.
  - exact E.
  - split; [exact Hv|]. exists n, n0. split; [reflexivity|]. split; [exact Hn|].
    split; [exact Hk|exact Hc].
Defined.

Lemma no_dangling_witness : 22 < next_id sample_page.
Proof.
  apply (@no_dangling sample_host sample_page 22 sample_reachable). left. right. right.
  exists 0. eexists. split; [vm_compute; reflexivity|]. vm_compute. left.
Defined.
