(* ===== verification/ConsoleSpec.v ===== *)
(** Specifications of two mechanisms of the console: the latency history is a
    bounded queue, and parallel requests deliver their results in order. *)

From S2P Require Import Prelude JsNumber JsValue Json JsonRoundtrip ConsoleData Browser.
From S2P Require Import ConsoleViews ConsoleEditor ConsoleLive ConsoleCrud ConsoleAiOps.
From S2P Require Import ConsoleApp ConsoleFrame ConsoleSafe ConsoleInv ConsoleSafety.

(** * The latency history *)

Lemma push_history_last p h :
  length h ≤ maxPoints → push_history p h = last_n maxPoints (h ++ [p]).
Proof.
  intros Hh. unfold push_history, last_n. rewrite length_app; simpl.
  case_decide.
  - assert (length h + 1 - maxPoints = 1) as -> by lia. by destruct h.
  - assert (length h + 1 - maxPoints = 0) as -> by lia. done.
Qed.

(** The history is a bounded queue: after any number of polls it holds the
    last 60 points received, oldest first. *)
Theorem history_fifo ps :
  foldl (λ h p, push_history p h) [] ps = last_n maxPoints ps.
Proof.
  induction ps as [|p ps IH] using rev_ind; [done|].
  rewrite foldl_app. simpl. rewrite IH, push_history_last by apply last_n_length.
  apply last_n_snoc.
Qed.

Section host.
Context {H : Host}.

(** * Joins of parallel requests *)

Definition drop_join (j : nat) (s : st) : st :=
  set_net (Network (in_flight (net s)) (next_req (net s)) (delete j (joins (net s)))
             (next_join (net s))) s.

Definition put_join (j : nat) (jn : join) (s : st) : st :=
  set_net (Network (in_flight (net s)) (next_req (net s)) (<[j := jn]> (joins (net s)))
             (next_join (net s))) s.

(** The value a settled element contributes, unless it rejects the whole. *)
Definition slot_value (or_empty : bool) (r : res jsval) : option jsval :=
  match r with
  | Ok v => Some v
  | Err _ => if or_empty then Some (JObj []) else None
  end.

Lemma mapM_all {A} (l : list A) : mapM (λ o, o) (Some <$> l) = Some l.
Proof. apply mapM_Some_2. induction l; by constructor. Qed.

Lemma mapM_hole {A} (l : list (option A)) i : l !! i = Some None → mapM (λ o, o) l = None.
Proof.
  intros Hi. apply mapM_None_2, list.Exists_exists. exists None.
  split; [by eapply list_elem_of_lookup_2|done].
Qed.

(** Filling one slot: the last one resumes the continuation. *)
Lemma settle_slot_fill s j i b r v slots k :
  joins (net s) !! j = Some (Join slots k) → slot_value b r = Some v →
  settle_slot j i b r s =
    match mapM (λ o, o) (<[i := Some v]> slots) with
    | Some vs => resume k (Ok (JArr vs)) (drop_join j s)
    | None => (Ok tt, put_join j (Join (<[i := Some v]> slots) k) s)
    end.
Proof.
  intros Hj Hv. unfold settle_slot, mbind, M_bind, get. rewrite Hj. simpl.
  destruct r as [w|e]; simpl in Hv; [|destruct b; [|done]]; injection Hv as <-;
    by destruct (mapM _ _).
Qed.

Definition slots_of (v : nat → jsval) (rem : list nat) (n : nat) : list (option jsval) :=
  (λ i, if decide (i ∈ rem) then None else Some (v i)) <$> seq 0 n.

Lemma slots_of_fill v i rem n :
  i < n → i ∉ rem → <[i := Some (v i)]> (slots_of v (i :: rem) n) = slots_of v rem n.
Proof.
  intros Hi Hr. apply list_eq. intros k. unfold slots_of.
  destruct (decide (k = i)) as [->|Hne].
  - rewrite list_lookup_insert_eq by (by rewrite length_fmap, length_seq).
    rewrite list_lookup_fmap, lookup_seq_lt by done. simpl. by rewrite decide_False.
  - rewrite list_lookup_insert_ne by done. rewrite !list_lookup_fmap.
    destruct (seq 0 n !! k) as [x|] eqn:E; [|done]. simpl. f_equal.
    apply lookup_seq in E as [-> ?]. repeat case_decide; set_solver.
Qed.

Lemma slots_of_nil v n : slots_of v [] n = Some <$> (v <$> seq 0 n).
Proof. unfold slots_of. rewrite <- list_fmap_compose. apply list_fmap_ext. intros i x _. done. Qed.

Lemma slots_of_hole v i rem n : i < n → i ∈ rem → mapM (λ o, o) (slots_of v rem n) = None.
Proof.
  intros Hi Hr. apply mapM_hole with i. unfold slots_of.
  rewrite list_lookup_fmap, lookup_seq_lt by done. simpl. by rewrite decide_True.
Qed.

Lemma settle_all_aux b rs v k n j ord s :
  (∀ i, slot_value b (rs i) = Some (v i)) →
  ord ≠ [] → NoDup ord → Forall (λ i, i < n) ord →
  joins (net s) !! j = Some (Join (slots_of v ord n) k) →
  for_each (λ i, settle_slot j i b (rs i)) ord s =
  resume k (Ok (JArr (v <$> seq 0 n))) (drop_join j s).
Proof.
  intros Hv. revert s. induction ord as [|i ord IH]; intros s Hne Hnd Hlt Hj; [done|].
  apply list.NoDup_cons in Hnd as [Hi Hnd]. apply list.Forall_cons in Hlt as [Hin Hlt].
  cbn [for_each]. unfold mbind, M_bind. rewrite (settle_slot_fill _ _ _ _ _ _ _ _ Hj (Hv i)).
  rewrite slots_of_fill by done. destruct ord as [|i' ord].
  - rewrite slots_of_nil, mapM_all. by destruct (resume _ _ _) as [[[]|] ?].
  - rewrite (slots_of_hole _ i') by (try constructor; by inversion Hlt).
    rewrite IH; [|done..|].
    + f_equal. unfold drop_join, put_join, set_net. simpl. by rewrite delete_insert_eq.
    + simpl. by rewrite lookup_insert_eq.
Qed.

(** A [Promise.all] delivers the results in the order of the requests,
    whatever order the responses arrive in; an element with a [.catch] never
    rejects it, a failure counting as an empty object. *)
Theorem all_in_order b (rs : nat → res jsval) v k n j ord s :
  (∀ i, slot_value b (rs i) = Some (v i)) →
  0 < n → ord ≡ₚ seq 0 n →
  joins (net s) !! j = Some (Join (replicate n None) k) →
  for_each (λ i, settle_slot j i b (rs i)) ord s =
  resume k (Ok (JArr (v <$> seq 0 n))) (drop_join j s).
Proof.
  intros Hv Hn Hperm Hj. apply settle_all_aux; [done| | | |].
  - intros ->. apply Permutation_nil_l in Hperm. destruct n; [lia|done].
  - rewrite Hperm. apply NoDup_seq.
  - rewrite Hperm. apply list.Forall_forall. intros i Hi%elem_of_seq. lia.
  - rewrite Hj. do 2 f_equal. apply list_eq. intros i. unfold slots_of.
    rewrite list_lookup_fmap. destruct (decide (i < n)) as [Hi|Hi].
    + rewrite lookup_replicate_2, lookup_seq_lt by done. simpl. rewrite decide_True; [done|].
      rewrite Hperm. apply elem_of_seq. lia.
    + rewrite lookup_seq_ge by lia. apply lookup_ge_None_2. rewrite length_replicate. lia.
Qed.
End host.

(** The three requests of the overview, answered last to first. *)
Lemma all_in_order_witness :
  let r i := Ok (JNum (num_of_Z (Z.of_nat i))) in
  for_each (λ i, @settle_slot sample_host 0 i false (r i)) [2; 1; 0] sample_page =
  @resume sample_host (KOverview 22)
    (Ok (JArr [JNum (num_of_Z 0); JNum (num_of_Z 1); JNum (num_of_Z 2)])) (drop_join 0 sample_page).
Proof.
  intros r. apply (@all_in_order sample_host false r (λ i, JNum (num_of_Z (Z.of_nat i))) (KOverview 22) 3).
  - intros i. reflexivity.
  - lia.
  - apply (bool_decide_unpack _). vm_compute. exact I.
  - vm_compute. reflexivity.
Defined.
