(* ===== verification/ConsoleRequests.v ===== *)
(** Which requests the console sends, and when: reads at any time, writes only
    from a click, and the destructive ones (deleting an entity, replacing the
    configuration) only after the user confirmed. *)

From S2P Require Import Prelude JsNumber JsValue Json ConsoleData Browser ConsoleViews.
From S2P Require Import ConsoleEditor ConsoleLive ConsoleCrud ConsoleAiOps ConsoleApp.
From S2P Require Import ConsoleFrame ConsoleSafe ConsoleInv ConsoleSafety.

Definition is_read (rq : request) : Prop := rq_method rq = u "GET".

(** The methods that a confirmation guards. *)
Definition destructive (rq : request) : Prop :=
  rq_method rq = u "DELETE" ∨ rq_method rq = u "PATCH".

Section issues.
Variable b : bool.
Variable P : request → Prop.

(** With [b] the answer to a confirmation, [m] only sends requests of [P]. *)
Definition issues {A} (m : M A) : Prop := ∀ s, answer s = b →
  answer (m s).2 = b ∧
  ∀ q p, in_flight (net (m s).2) !! q = Some p →
    in_flight (net s) !! q = Some p ∨ P (p_request p).

Lemma issues_same {A} (m : M A) :
  (∀ s, net (m s).2 = net s ∧ answer (m s).2 = answer s) → issues m.
Proof. intros Hm s Hs. destruct (Hm s) as [Hn Ha]. rewrite Hn, Ha. auto. Qed.

Lemma issues_bind {A B} (m : M A) (f : A → M B) :
  issues m → (∀ a, issues (f a)) → issues (m ≫= f).
Proof.
  intros Hm Hf s Hs. destruct (Hm s Hs) as [Ha Hr]. unfold mbind, M_bind.
  destruct (m s) as [[a|e] s1]; simpl in *; [|done].
  destruct (Hf a s1 Ha) as [Ha2 Hr2]. split; [done|]. intros q p Hq.
  destruct (Hr2 _ _ Hq); auto.
Qed.

Lemma issues_catch {A} (m : M A) h : issues m → (∀ e, issues (h e)) → issues (catch m h).
Proof.
  intros Hm Hh s Hs. destruct (Hm s Hs) as [Ha Hr]. unfold catch.
  destruct (m s) as [[a|e] s1]; simpl in *; [done|].
  destruct (Hh e s1 Ha) as [Ha2 Hr2]. split; [done|]. intros q p Hq.
  destruct (Hr2 _ _ Hq); auto.
Qed.

Lemma issues_for_each {A} (f : A → M unit) l : (∀ x, issues (f x)) → issues (for_each f l).
Proof.
  intros Hf. induction l as [|x l IH]; simpl; [by apply issues_same|]. by apply issues_bind.
Qed.

Lemma issues_mapM {A B} (f : A → M B) l : (∀ x, x ∈ l → issues (f x)) → issues (mapM f l).
Proof.
  induction l as [|x l IH]; intros Hf; simpl; [by apply issues_same|].
  apply issues_bind; [apply Hf; constructor|]. intros y.
  apply issues_bind; [apply IH; intros; apply Hf; by constructor|]. intros ys. by apply issues_same.
Qed.

Lemma issues_when c m : issues m → issues (when c m).
Proof. destruct c; [done|]. intros _. by apply issues_same. Qed.

Lemma issues_fetch rq md t : P rq → issues (fetch rq md t).
Proof.
  intros HP s Hs. split; [done|]. simpl. intros q p Hq.
  apply lookup_insert_Some in Hq as [[<- <-]|[? ?]]; auto.
Qed.

(** What follows a confirmation runs only when the user agrees. *)
Lemma issues_confirm msg (m : M unit) :
  (b = true → issues m) → issues (yes ← confirm msg; when yes m).
Proof.
  intros Hm s Hs. unfold confirm, gets, mbind, M_bind. rewrite Hs.
  destruct (decide (b = true)) as [Hb|Hb%not_true_is_false].
  - replace (when b m) with m by (by rewrite Hb). by apply Hm.
  - replace (when b m) with (mret (M := M) tt) by (by rewrite Hb). auto.
Qed.
End issues.

(** The structure of a computation; what is left sends something. *)
Ltac issues_step :=
  lazymatch goal with
  | |- issues _ _ (@mbind _ _ _ _ _ _) => apply issues_bind; [|intros ?]
  | |- issues _ _ (catch _ _) => apply issues_catch; [|intros ?]
  | |- issues _ _ (for_each _ _) => apply issues_for_each; intros ?
  | |- issues _ _ (when _ _) => apply issues_when
  | |- issues _ _ (match ?x with _ => _ end) => destruct x
  | |- issues _ _ (mapM id _) => apply issues_mapM; intros ? Hin; unfold id
  | |- issues _ _ (mapM _ _) => apply issues_mapM; intros ? _
  | |- issues _ _ (fetch _ _ _) => apply issues_fetch
  | |- issues _ _ (getElementById _) => apply issues_same; done
  | |- issues _ _ (lift _) => apply issues_same; done
  | |- issues _ _ (@mret _ _ _ _) => apply issues_same; done
  | |- issues _ _ (modify_data _ _) => apply issues_same; done
  | |- issues _ _ (modify_node _ _) => apply issues_same; done
  | |- issues _ _ (modify_app _) => apply issues_same; done
  | |- issues _ _ (gets _) => apply issues_same; done
  | |- issues _ _ get => apply issues_same; done
  | |- issues _ _ (createElement _) => apply issues_same; done
  | |- issues _ _ (appendChild _ _) => apply issues_same; done
  | |- issues _ _ (remove _) => apply issues_same; done
  | |- issues _ _ (clear _) => apply issues_same; done
  | |- issues _ _ (setTextContent_str _ _) => apply issues_same; done
  | |- issues _ _ (addEventListener _ _ _) => apply issues_same; done
  | |- issues _ _ (setValue _ _) => apply issues_same; done
  | |- issues _ _ (draw _ _) => apply issues_same; done
  | |- issues _ _ _ => solve [auto with issues nocore]
  end.
Create HintDb issues discriminated.
Ltac issues_auto := repeat issues_step.
Tactic Notation "issues_of" reference(f) := intros; unfold f; issues_auto.

Section host.
Context {H : Host}.
Variable b : bool.
Variable P : request → Prop.
Hypothesis P_read : ∀ rq, is_read rq → P rq.
#[local] Set Default Proof Using "Type*".
#[local] Abbreviation issues := (issues b P).

(** * Construction sends nothing *)

Lemma issues_setClassName id v : issues (setClassName id v).
Proof. issues_of setClassName. Qed.
Lemma issues_setTextContent id v : issues (setTextContent id v).
Proof. issues_of setTextContent. Qed.
Lemma issues_setAttribute id k v : issues (setAttribute id k v).
Proof. issues_of setAttribute. Qed.
#[local] Hint Resolve issues_setClassName issues_setTextContent issues_setAttribute : issues.

Lemma issues_el t attrs c : issues (el t attrs c).
Proof. unfold el, el_attr, el_children. issues_auto. Qed.
#[local] Hint Resolve issues_el : issues.

Lemma issues_append p m : issues m → issues (append p m).
Proof. intros Hm. unfold append. by issues_auto. Qed.

Lemma issues_el_of t attrs ks : Forall issues ks → issues (el_of t attrs ks).
Proof.
  intros Hk. unfold el_of. apply issues_bind; [|intros; issues_auto].
  apply issues_mapM. intros m Hm. by eapply list.Forall_forall in Hk.
Qed.

Lemma issues_table labels fill : (∀ t, issues (fill t)) → issues (table_with labels fill).
Proof.
  intros Hf. unfold table_with. issues_auto. apply issues_append. unfold thead. issues_auto.
  apply issues_el_of, list.Forall_fmap, list.Forall_forall. intros l _. simpl. unfold el_text. issues_auto.
Qed.

Lemma issues_forEach v f : (∀ x, issues (f x)) → issues (forEach v f).
Proof. intros Hf. unfold forEach. by issues_auto. Qed.

(** The steps through the console's combinators. *)
Ltac issues_step2 :=
  lazymatch goal with
  | |- issues (append _ _) => apply issues_append
  | |- issues (el_of _ _ _) => apply issues_el_of
  | |- issues (table_with _ _) => apply issues_table; intros ?
  | |- issues (forEach _ _) => apply issues_forEach; intros ?
  | |- issues (el_text _ _) => unfold el_text
  | |- issues (el_class _ _ _) => unfold el_class
  | |- issues (td _) => unfold td
  | |- issues (error_msg _) => unfold error_msg
  | |- issues (loading _) => unfold loading
  | |- issues (draw_all _ _) => unfold draw_all
  | |- issues (date_now) => unfold date_now
  | |- issues (getValue _) => unfold getValue
  | |- Forall _ [] => apply list.Forall_nil_2
  | |- Forall _ (_ :: _) => apply list.Forall_cons_2
  | |- P _ => solve [apply P_read; reflexivity]
  | |- _ => issues_step
  end.
Ltac issues_auto2 := repeat issues_step2.
Tactic Notation "issues_all" reference(f) := intros; unfold f; issues_auto2.

Lemma issues_card t c r : issues (card t c r).
Proof. issues_all card. Qed.
Lemma issues_setLastRefresh : issues setLastRefresh.
Proof. issues_all setLastRefresh. Qed.
Lemma issues_setStatusBadge t : issues (setStatusBadge t).
Proof. issues_all setStatusBadge. Qed.
Lemma issues_makeStat l v : issues (makeStat l v).
Proof. issues_all makeStat. Qed.
Lemma issues_show_error w e : issues (show_error w e).
Proof. issues_all show_error. Qed.
Lemma issues_append_pre w v : issues (append_pre w v).
Proof. issues_all append_pre. Qed.
#[local] Hint Resolve issues_card issues_setLastRefresh issues_setStatusBadge issues_makeStat
  issues_show_error issues_append_pre : issues.
Lemma issues_open_view t r : issues (open_view t r).
Proof. issues_all open_view. Qed.

Lemma issues_new_join n k : issues (new_join n k).
Proof. intros s Hs. split; [done|]. auto. Qed.
Lemma issues_promise_all ps e k : issues (promise_all ps e k).
Proof.
  unfold promise_all. apply issues_bind; [apply issues_new_join|]. intros j.
  apply issues_for_each. intros [i p]. unfold fetchJSON. issues_auto2.
Qed.
#[local] Hint Resolve issues_open_view issues_promise_all : issues.

(** * Rendering only reads *)

Lemma issues_loadTable env : issues (loadTable env).
Proof. unfold loadTable, fetchJSON. issues_auto2. Qed.
#[local] Hint Resolve issues_loadTable : issues.

Lemma issues_run_view v : issues (run_view v).
Proof.
  destruct v; cbn [run_view]; unfold renderOverview, renderRoutes, renderUpstreams,
    renderHealth, renderAnalytics, renderConfig, renderFleet, renderEditor, renderLive,
    renderCrudEntity, renderAiOps, fetchJSON, fetchText; issues_auto2.
Qed.
#[local] Hint Resolve issues_run_view : issues.

(** * Responses only cause reads *)

Lemma issues_field_label t : issues (field_label t).
Proof. issues_all field_label. Qed.
#[local] Hint Resolve issues_field_label : issues.
Lemma issues_skew_card v : issues (skew_card v).
Proof. issues_all skew_card. Qed.
Lemma issues_order_item l v : issues (order_item l v).
Proof. issues_all order_item. Qed.
#[local] Hint Resolve issues_order_item : issues.
Lemma issues_upgrade_fields c v : issues (upgrade_fields c v).
Proof. issues_all upgrade_fields. Qed.
#[local] Hint Resolve issues_upgrade_fields : issues.
Lemma issues_status_card v : issues (status_card v).
Proof. issues_all status_card. Qed.
Lemma issues_drawLatencyChart c h : issues (drawLatencyChart c h).
Proof. unfold drawLatencyChart, draw_series, draw_all. issues_auto2. Qed.
Lemma issues_list_card t ls row n l : (∀ v, issues (row v)) → issues (list_card t ls row n l).
Proof. intros Hr. unfold list_card. issues_auto2. Qed.
#[local] Hint Resolve issues_skew_card issues_status_card issues_drawLatencyChart : issues.

Lemma issues_entity_table env items : issues (entity_table env items).
Proof. unfold entity_table, item_row, action_cell. issues_auto2. Qed.
Lemma issues_showCrudError c m : issues (showCrudError c m).
Proof. unfold showCrudError, querySelector, querySelectorAll. issues_auto2. Qed.
Lemma issues_remove_from_body c : issues (remove_from_body c).
Proof. issues_all remove_from_body. Qed.
Lemma issues_clean_editor y : issues (clean_editor y).
Proof. issues_all clean_editor. Qed.
Lemma issues_preview_div c t : issues (preview_div c t).
Proof. issues_all preview_div. Qed.
Lemma issues_issue_div v : issues (issue_div v).
Proof. issues_all issue_div. Qed.
#[local] Hint Resolve issues_entity_table issues_showCrudError issues_remove_from_body
  issues_clean_editor issues_preview_div issues_issue_div : issues.

Lemma issues_aiops_then w rs : issues (aiops_then w rs).
Proof.
  unfold aiops_then; issues_auto2; apply issues_list_card; intros;
    unfold pool_row, session_row, tool_row, override_row; issues_auto2.
Qed.
#[local] Hint Resolve issues_aiops_then : issues.

Lemma issues_cont_then k v : issues (cont_then k v).
Proof.
  destruct k; cbn [cont_then];
    unfold overview_then, routes_then, routes_row, upstreams_then, upstreams_row, health_then,
      analytics_then, config_then, fleet_then, editor_load_then, validate_then,
      renderValidationPreview, publish_then, reset_then, live_then, live_row, load_table_then,
      delete_then, save_then, workspaces_then, workspace_option, default_option; issues_auto2.
Qed.

Lemma issues_cont_catch k e : issues (cont_catch k e).
Proof.
  destruct k; cbn [cont_catch];
    unfold overview_catch, health_catch, fleet_catch, editor_load_catch, validate_catch,
      publish_catch, reset_catch, delete_catch, save_catch, workspaces_catch, default_option;
    issues_auto2.
Qed.

Lemma issues_resume k r : issues (resume k r).
Proof.
  destruct r; cbn [resume]; [apply issues_catch; [apply issues_cont_then|intros e]|];
    apply issues_cont_catch.
Qed.

Lemma issues_switchView v : issues (switchView v).
Proof. unfold switchView, mark_active, render_named, querySelectorAll. issues_auto2. Qed.
Lemma issues_render_current : issues render_current.
Proof. unfold render_current, render_named. issues_auto2. Qed.

Lemma issues_open_dialog t sv init : (∀ x, issues (init x)) → issues (open_dialog t sv init).
Proof. intros Hi. unfold open_dialog. issues_auto2. Qed.

(** A listener only sends requests of [P] when [P] holds of the writes that
    the user's answer allows. *)
Lemma issues_run_handler h :
  (∀ rq, (destructive rq → b = true) → P rq) → issues (run_handler h).
Proof.
  intros HP. assert (Hn : ∀ m p hs bd, m ≠ u "DELETE" → m ≠ u "PATCH" → P (Request m p hs bd)).
  { intros m p hs bd ??. apply HP. intros [Hd|Hd]; simpl in Hd; contradiction. }
  destruct h; cbn [run_handler].
  - apply issues_run_view.
  - unfold on_validate, send_yaml. issues_auto2. apply Hn; vm_compute; discriminate.
  - unfold on_publish, send_yaml. apply issues_confirm.
    intros Hb. issues_auto2. by apply HP.
  - unfold on_reset, fetchText. issues_auto2.
  - unfold openCreateDialog. issues_auto2.
  - unfold openEditDialog. issues_auto2.
  - unfold on_delete, sendJSON. issues_step. issues_auto2. apply issues_confirm.
    intros Hb. issues_auto2. by apply HP.
  - unfold on_cancel. issues_auto2.
  - unfold on_create_save, with_parsed, sendJSON. issues_auto2. apply Hn; vm_compute; discriminate.
  - unfold on_edit_save, with_parsed, sendJSON. issues_auto2. apply Hn; vm_compute; discriminate.
  - unfold on_nav. issues_auto2; apply issues_switchView.
  - apply issues_render_current.
Qed.

(** * Responses *)

Lemma issues_modify f :
  (∀ s, answer (f s) = answer s ∧
        ∀ q p, in_flight (net (f s)) !! q = Some p → in_flight (net s) !! q = Some p) →
  issues (modify f).
Proof. intros Hf s Hs. destruct (Hf s) as [Ha Hq]. simpl. rewrite Ha. auto. Qed.

Lemma issues_settle_slot j i oe r : issues (settle_slot j i oe r).
Proof.
  unfold settle_slot. apply issues_bind; [by apply issues_same|]. intros s.
  destruct (joins (net s) !! j) as [jn|]; [|by apply issues_same].
  assert (Hdrop : issues (modify (λ s, set_net (Network (in_flight (net s)) (next_req (net s))
    (delete j (joins (net s))) (next_join (net s))) s))) by (by apply issues_modify).
  assert (Hfill : ∀ v, issues (match mapM (λ o, o) (<[i := Some v]> (j_slots jn)) with
    | Some vs => modify (λ s, set_net (Network (in_flight (net s)) (next_req (net s))
        (delete j (joins (net s))) (next_join (net s))) s);; resume (j_cont jn) (Ok (JArr vs))
    | None => modify (λ s, set_net (Network (in_flight (net s)) (next_req (net s))
        (<[j := Join (<[i := Some v]> (j_slots jn)) (j_cont jn)]> (joins (net s)))
        (next_join (net s))) s)
    end)).
  { intros v. destruct (mapM _ _); [|by apply issues_modify].
    apply issues_bind; [exact Hdrop|]. intros _. apply issues_resume. }
  destruct r as [v|e]; [apply Hfill|]. destruct oe; [apply Hfill|].
  apply issues_bind; [exact Hdrop|]. intros _. apply issues_resume.
Qed.

Lemma issues_settle q o : issues (settle q o).
Proof.
  unfold settle. apply issues_bind; [by apply issues_same|]. intros s.
  destruct (in_flight (net s) !! q) as [p|]; [|by apply issues_same].
  apply issues_bind.
  - apply issues_modify. intros s0. split; [done|]. simpl. intros q' p' Hq.
    by apply lookup_delete_Some in Hq as [_ ?].
  - intros _. destruct (p_target p); [apply issues_resume|apply issues_settle_slot].
Qed.

(** * Listeners *)

Lemma issues_listeners ev ls :
  (∀ l, l ∈ ls → l.1 = u ev → issues (run_handler l.2)) →
  issues (for_each (λ '(t, h), when (bool_decide (t = u ev))
                      (catch (run_handler h) (λ _, mret tt))) ls).
Proof using Type.
  induction ls as [|[t h] ls IH]; intros Hl; cbn [for_each]; [by apply issues_same|].
  apply issues_bind; [|intros _; apply IH; intros; apply Hl; [by constructor|done]].
  case_bool_decide as Ht; cbn [when]; [|by apply issues_same].
  apply issues_catch; [|by intros; apply issues_same]. apply (Hl (t, h)); [constructor|done].
Qed.
End host.

Section events.
Context {H : Host}.

Lemma dispatch_issues b P s id ev :
  answer s = b →
  (∀ n l, dom s !! id = Some n → l ∈ listeners (data n) → l.1 = u ev →
     issues b P (run_handler l.2)) →
  ∀ q p, in_flight (net (dispatch id ev s).2) !! q = Some p →
    in_flight (net s) !! q = Some p ∨ P (p_request p).
Proof.
  intros Hb Hl. unfold dispatch, mbind, M_bind, get. simpl.
  destruct (dom s !! id) as [n|] eqn:Hn; [|by auto].
  apply (issues_listeners b P ev); [|done]. intros l ??. by eapply Hl.
Qed.

(** C3: apart from reads, a request is sent only by a click; a deletion and the
    replacement of the configuration only when the user answered yes to the
    confirmation.  No timer, response, edit or change of workspace writes. *)
Theorem writes_by_click s e q p :
  reachable s → e ≠ EvLoad →
  in_flight (net s) !! q = None → in_flight (net (step s e)) !! q = Some p →
  is_read (p_request p) ∨
  ∃ id yes, e = EvClick id yes ∧ (destructive (p_request p) → yes = true).
Proof.
  intros Hs He Hq Hp. unfold step in Hp.
  assert (Hno : ∀ P, in_flight (net s) !! q = Some p ∨ P (p_request p) → P (p_request p)).
  { intros P [?|?]; [congruence|done]. }
  destruct e as [|id yes|id v|id v|t|r o|ms]; cbn [run_event] in Hp; [done|..].
  - right. exists id, yes. split; [done|]. apply Hno.
    unfold mbind, M_bind, set_answer, modify in Hp.
    refine (dispatch_issues yes (λ rq, destructive rq → yes = true) _ id "click" _ _ _ _ Hp);
      [done|].
    intros n l _ _ _. apply issues_run_handler; [|done].
    intros rq Hr [Hd|Hd]; unfold is_read in Hr; rewrite Hr in Hd; vm_compute in Hd; discriminate.
  - left. apply Hno. destruct (reachable_inv _ Hs) as (reg & cur & Hi).
    unfold mbind, M_bind in Hp.
    destruct (preserves_setValue id v _ _ _ Hi) as (reg' & cur' & Hi' & _).
    destruct (setValue id v s) as [[a|e] s1] eqn:E; simpl in Hp;
      (assert (net s1 = net s ∧ answer s1 = answer s) as [Hn1 Ha1] by (by injection E as _ <-)).
    + rewrite <- Hn1.
      refine (dispatch_issues _ is_read _ id "change" Ha1 _ _ _ Hp).
      intros n l Hn Hl Hch.
      destruct (inv_listeners _ _ _ Hi' _ _ _ Hn Hl) as (_ & _ & _ & [Hc|Hw]).
      * rewrite Hch in Hc. vm_compute in Hc. discriminate.
      * rewrite Hw. cbn [run_handler]. unfold on_workspace. by apply issues_render_current.
    + rewrite Hn1 in Hp. congruence.
  - left. simpl in Hp. congruence.
  - left. apply Hno. revert Hp. unfold mbind, M_bind, get. unfold when.
    case_bool_decide; [|simpl; congruence].
    apply (issues_render_current (answer s) is_read); done.
  - left. apply Hno. revert Hp. apply (issues_settle (answer s) is_read); done.
  - left. simpl in Hp. congruence.
Qed.
End events.

(** The refresh timer sends a read. *)
Lemma writes_by_click_witness :
  ∃ p, in_flight (net (@step sample_host sample_page (EvTick 1))) !! 4 = Some p ∧
    (is_read (p_request p) ∨
     ∃ id yes, EvTick 1 = EvClick id yes ∧ (destructive (p_request p) → yes = true)).
Proof.
  destruct (in_flight (net (@step sample_host sample_page (EvTick 1))) !! 4) as [p|] eqn:E;
    [|exfalso; revert E; vm_compute; discriminate].
  exists p. split; [reflexivity|].
  apply (@writes_by_click sample_host sample_page (EvTick 1) 4 p sample_reachable).
  - discriminate.
  - vm_compute. reflexivity.
  - exact E.
Defined.
