(* ===== verification/ConsoleDialog.v ===== *)
(** The edit dialog: what its text area holds, and that saving an entity
    without editing it sends the entity itself. *)

From S2P Require Import Prelude JsNumber JsValue Json JsonRoundtrip ConsoleData Browser.
From S2P Require Import ConsoleViews ConsoleEditor ConsoleCrud ConsoleApp ConsoleSafety.

(** The dialogs unfold before the monad they are written in. *)
#[local] Strategy expand [open_dialog openEditDialog].

(** The value of a field. *)
Definition value_of (s : st) (id : nid) : option jstr := (λ n, value (data n)) <$> dom s !! id.

(** [m] leaves the value of the existing field [c] alone. *)
Definition keeps {A} (c : nid) (m : M A) : Prop := ∀ s, c < next_id s →
  c < next_id (m s).2 ∧ value_of (m s).2 c = value_of s c.

Section keeps.
Variable c : nid.
#[local] Abbreviation keeps := (keeps c).

Lemma keeps_same {A} (m : M A) :
  (∀ s, next_id (m s).2 = next_id s ∧ value_of (m s).2 c = value_of s c) → keeps m.
Proof. intros Hm s Hs. destruct (Hm s) as [-> ->]. done. Qed.

Lemma keeps_bind {A B} (m : M A) (f : A → M B) : keeps m → (∀ a, keeps (f a)) → keeps (m ≫= f).
Proof.
  intros Hm Hf s Hs. destruct (Hm s Hs) as [Hn Hv]. unfold mbind, M_bind.
  destruct (m s) as [[a|e] s1]; simpl in *; [|done].
  destruct (Hf a s1 Hn) as [? ->]. done.
Qed.

Lemma keeps_for_each {A} (f : A → M unit) l : (∀ x, keeps (f x)) → keeps (for_each f l).
Proof.
  intros Hf. induction l as [|x l IH]; simpl; [by apply keeps_same|]. by apply keeps_bind.
Qed.

Lemma keeps_when b m : keeps m → keeps (when b m).
Proof. destruct b; [done|]. intros _. by apply keeps_same. Qed.

Lemma keeps_createElement t : keeps (createElement t).
Proof.
  intros s Hs. simpl. split; [lia|]. unfold value_of. simpl. by rewrite lookup_insert_ne by lia.
Qed.

Lemma keeps_node id f : (∀ n, value (data (f n)) = value (data n)) → keeps (modify_node id f).
Proof.
  intros Hf. apply keeps_same. intros s. split; [done|]. unfold value_of. simpl.
  rewrite lookup_alter. case_decide; [subst|done]. destruct (dom s !! c); [|done].
  simpl. by rewrite Hf.
Qed.

Lemma keeps_appendChild p k : keeps (appendChild p k).
Proof.
  apply keeps_same. intros s. split; [done|]. unfold value_of. simpl. unfold detach.
  rewrite lookup_alter. case_decide; subst; rewrite ?lookup_fmap; by destruct (dom s !! c).
Qed.

(** A fresh element starts with an empty value. *)
Lemma keeps_run {A} (m : M A) s r s1 :
  keeps m → m s = (r, s1) → c < next_id s → c < next_id s1 ∧ value_of s1 c = value_of s c.
Proof. intros Hm E Hs. specialize (Hm s Hs). by rewrite E in Hm. Qed.

Context {H : Host}.

Ltac keeps_step :=
  lazymatch goal with
  | |- ConsoleDialog.keeps _ (@mbind _ _ _ _ _ _) => apply keeps_bind; [|intros ?]
  | |- ConsoleDialog.keeps _ (for_each _ _) => apply keeps_for_each; intros ?
  | |- ConsoleDialog.keeps _ (when _ _) => apply keeps_when
  | |- ConsoleDialog.keeps _ (match ?x with _ => _ end) => destruct x
  | |- ConsoleDialog.keeps _ (createElement _) => apply keeps_createElement
  | |- ConsoleDialog.keeps _ (appendChild _ _) => apply keeps_appendChild
  | |- ConsoleDialog.keeps _ (setTextContent_str _ _) => apply keeps_node; done
  | |- ConsoleDialog.keeps _ (modify_data _ _) => apply keeps_node; done
  | |- ConsoleDialog.keeps _ (addEventListener _ _ _) => apply keeps_node; done
  | |- ConsoleDialog.keeps _ (lift _) => apply keeps_same; done
  | |- ConsoleDialog.keeps _ (@mret _ _ _ _) => apply keeps_same; done
  end.
Ltac keeps_auto := repeat keeps_step.

Lemma keeps_setAttribute id k v : keeps (setAttribute id k v).
Proof. unfold setAttribute. keeps_auto. Qed.

Lemma keeps_addEventListener id ev h : keeps (addEventListener id ev h).
Proof. keeps_auto. Qed.

Lemma keeps_attrs_children id attrs k :
  keeps (for_each (el_attr id) attrs;; el_children id k;; mret id).
Proof. unfold el_attr, el_children, setClassName, setTextContent, setAttribute. keeps_auto. Qed.

Lemma keeps_el t attrs k : keeps (el t attrs k).
Proof. unfold el. apply keeps_bind; [apply keeps_createElement|]. intros id. apply keeps_attrs_children. Qed.

Lemma keeps_append p m : keeps m → keeps (append p m).
Proof. intros Hm. unfold append. apply keeps_bind; [done|]. intros k. apply keeps_appendChild. Qed.

(** The same from one state to another. *)
Definition kept (s s' : st) : Prop := c < next_id s → c < next_id s' ∧ value_of s' c = value_of s c.

Lemma kept_trans s1 s2 s3 : kept s1 s2 → kept s2 s3 → kept s1 s3.
Proof. intros H1 H2 Hc. destruct (H1 Hc) as [Hc2 Hv]. destruct (H2 Hc2) as [? ->]. done. Qed.

Lemma keeps_kept {A} (m : M A) s r s1 : keeps m → m s = (r, s1) → kept s s1.
Proof. intros Hm E Hs. by eapply keeps_run. Qed.
End keeps.

Section dialog.
Context {H : Host}.

(** A fresh element has the next identity and an empty value. *)
Lemma el_fresh t attrs k s id s1 :
  el t attrs k s = (Ok id, s1) → id < next_id s1 ∧ value_of s1 id = Some [].
Proof.
  intros He. unfold el in He. apply bind_ok in He as (i & s0 & Hc & He).
  injection Hc as <- <-.
  assert (Hid : id = next_id s).
  { clear -He. apply bind_ok in He as (? & ? & _ & He). apply bind_ok in He as (? & ? & _ & He).
    by injection He. }
  subst id. destruct (keeps_run (next_id s) _ _ _ _ (keeps_attrs_children _ _ _ _) He); [simpl; lia|].
  split; [done|]. by rewrite H1; unfold value_of; simpl; rewrite lookup_insert_eq.
Qed.

Lemma setValue_value id v s r s1 :
  setValue id v s = (r, s1) → id < next_id s → is_Some (value_of s id) →
  id < next_id s1 ∧ value_of s1 id = Some v.
Proof.
  intros He Hid [w Hw]. injection He as _ <-. split; [done|]. unfold value_of in *. simpl.
  rewrite lookup_alter_eq. destruct (dom s !! id); [done|done].
Qed.

Lemma open_dialog_value title save v s ov ta cb sv err s' :
  open_dialog title save (λ t, setValue t v) s = (Ok (ov, ta, cb, sv, err), s') →
  value_of s' ta = Some v ∧ value_of s' sv = Some [] ∧ ta < next_id s' ∧ sv < next_id s'.
Proof.
  intros Hd. unfold open_dialog in Hd.
  apply bind_ok in Hd as (ov' & s1 & _ & Hd). apply bind_ok in Hd as (modal & s2 & _ & Hd).
  apply bind_ok in Hd as ([] & s3 & _ & Hd).
  apply bind_ok in Hd as (ta' & s4 & Hta & Hd). apply el_fresh in Hta as [Hlt Hv].
  apply bind_ok in Hd as ([] & s5 & Ha & Hd).
  apply (keeps_run ta') in Ha as [Hlt5 Hv5]; [|apply keeps_setAttribute|done].
  apply bind_ok in Hd as ([] & s6 & Hs & Hd).
  apply setValue_value in Hs as [Hlt6 Hv6]; [|done|rewrite Hv5; eauto].
  apply bind_ok in Hd as ([] & s7 & E7 & Hd). apply bind_ok in Hd as (row & s8 & E8 & Hd).
  apply bind_ok in Hd as (cb' & s9 & E9 & Hd).
  apply bind_ok in Hd as (sv' & s10 & E10 & Hd). pose proof (el_fresh _ _ _ _ _ _ E10) as [Hsv Hsv0].
  assert (Htail : ∀ c, kept c s10 s').
  { intros c. apply (keeps_kept c) in Hd; [done|].
    repeat (apply keeps_bind; [first [apply keeps_appendChild | apply keeps_el]|intros ?]).
    by apply keeps_same. }
  assert (kept ta' s6 s10) as Hmid.
  { eapply kept_trans; [eapply keeps_kept; [|exact E7]; apply keeps_appendChild|].
    eapply kept_trans; [eapply keeps_kept; [|exact E8]; apply keeps_el|].
    eapply kept_trans; [eapply keeps_kept; [|exact E9]; apply keeps_el|].
    eapply keeps_kept; [|exact E10]; apply keeps_el. }
  assert (Hout : ov' = ov ∧ ta' = ta ∧ cb' = cb ∧ sv' = sv).
  { clear -Hd. repeat (apply bind_ok in Hd as (? & ? & _ & Hd)). by injection Hd. }
  destruct Hout as (-> & -> & -> & ->).
  destruct (Hmid Hlt6) as [Hl1 Hv1]. destruct (Htail ta Hl1) as [Hl2 Hv2].
  destruct (Htail sv Hsv) as [Hl3 Hv3]. rewrite Hv2, Hv1, Hv3. done.
Qed.

Lemma addEventListener_added id ev h s r s' :
  addEventListener id ev h s = (r, s') → is_Some (value_of s id) →
  ∃ n, dom s' !! id = Some n ∧ (u ev, h) ∈ listeners (data n).
Proof.
  intros He [v Hv]. assert (s' = (addEventListener id ev h s).2) as -> by (by rewrite He).
  unfold value_of in Hv. destruct (dom s !! id) as [n|] eqn:E; [|done]. eexists. split.
  - simpl. rewrite lookup_alter_eq, E. reflexivity.
  - simpl. apply elem_of_app. right. by left.
Qed.

(** C4: saving the edit dialog without touching its text sends a PUT whose body
    is the entity that the dialog was opened on. *)
Theorem edit_unchanged env item s s' :
  openEditDialog env item s = (Ok tt, s') → json_ok item →
  ∃ saveBtn n overlay ta err,
    dom s' !! saveBtn = Some n ∧
    (u "click", HEditSave env item overlay ta err) ∈ listeners (data n) ∧
    run_handler (HEditSave env item overlay ta err) s' =
      (name ← lift (v ← get_or item "name" (JStr []); to_str v);
       sendJSON (u "PUT") (collection_path env ++ u "/" ++ name) item
         (TCont (KEditSave env overlay err))) s'.
Proof.
  intros He Hok. unfold openEditDialog in He.
  apply bind_ok in He as (title & s0 & _ & He). apply bind_ok in He as ([[[[ov ta] cb] sv] err] & s1 & Hd & He).
  apply open_dialog_value in Hd as (Hta & Hsv & Hlt & Hls).
  apply bind_ok in He as ([] & s2 & E2 & He).
  pose proof (keeps_run ta _ _ _ _ (keeps_addEventListener ta _ _ _) E2 Hlt) as [Hlt2 Hta2].
  pose proof (keeps_run sv _ _ _ _ (keeps_addEventListener sv _ _ _) E2 Hls) as [_ Hsv2].
  pose proof (keeps_run ta _ _ _ _ (keeps_addEventListener ta _ _ _) He Hlt2) as [_ Hta'].
  destruct (addEventListener_added _ _ _ _ _ _ He) as (n & Hn & Hl); [rewrite Hsv2, Hsv; eauto|].
  exists sv, n, ov, ta, err. split; [done|]. split; [done|].
  cbn [run_handler]. unfold on_edit_save, with_parsed, getValue, gets, mbind at 1, M_bind at 1.
  rewrite Hta2, Hta in Hta'. unfold value_of in Hta'.
  destruct (dom s' !! ta) as [m|] eqn:Em; [|done]. injection Hta' as Hval.
  unfold stringify2 in Hval. rewrite serialize_text in Hval by done.
  change (value (data m) = text (u "  ") [] item) in Hval. rewrite Hval.
  rewrite parse_text; [done| |done].
  apply (bool_decide_unpack _). vm_compute. exact I.
Qed.
End dialog.

(** The dialog of an upstream named [api]. *)
Lemma edit_unchanged_witness :
  let env := CrudEnv (u "upstreams") (u "Upstream") [] content_id in
  let item := JObj [(u "name", JStr (u "api")); (u "weight", JNum (num_of_Z 3))] in
  let s' := (@openEditDialog sample_host env item sample_page).2 in
  ∃ saveBtn n overlay ta err,
    dom s' !! saveBtn = Some n ∧
    (u "click", HEditSave env item overlay ta err) ∈ listeners (data n) ∧
    @run_handler sample_host (HEditSave env item overlay ta err) s' =
      (name ← lift (v ← @get_or sample_host item "name" (JStr []); @to_str sample_host v);
       sendJSON (u "PUT") (collection_path env ++ u "/" ++ name) item
         (TCont (KEditSave env overlay err))) s'.
Proof.
  intros env item s'. apply (@edit_unchanged sample_host env item sample_page s').
  - vm_compute. reflexivity.
  - vm_compute. repeat (split; [reflexivity|]). exact I.
Defined.
