(* ===== verification/ConsoleActions.v ===== *)
(** What the user's actions do: the bodies that saving sends, the dialogs when
    the text is not JSON and when the response comes after a cancel, declined
    confirmations, and the editor's state after publishing. *)

From S2P Require Import Prelude JsNumber JsValue Json JsonRoundtrip ConsoleData Browser.
From S2P Require Import ConsoleViews ConsoleEditor ConsoleCrud ConsoleApp ConsoleSafety.

Section actions.
Context {H : Host}.

(** * Requests on the wire *)

(** The request that [sendJSON] issues has the given method and path and a
    body that parses back to the value, when the value is truthy and JSON; no
    other request changes. *)
Theorem sent_body method path body t s :
  json_ok body → truthy body = true →
  ∃ txt, json_parse txt = Ok body ∧
    (sendJSON method path body t s).2 =
    set_net (Network
      (<[next_req (net s) := Pending (Request method path
           [(u "Content-Type", u "application/json")] (Some txt)) (ReadStatusJSON true) t]>
         (in_flight (net s)))
      (S (next_req (net s))) (joins (net s)) (next_join (net s))) s.
Proof.
  intros Hok Ht. exists (text [] [] body). split.
  - apply parse_text; [constructor|done].
  - unfold sendJSON. rewrite Ht. unfold stringify. by rewrite serialize_text.
Qed.

(** * Dialogs *)

(** What [textContent = msg] does to the error line. *)
Definition show_line (errorDiv : nid) (msg : jstr) (s : st) : st :=
  set_dom (alter (λ n, Node (data n) (text_kids msg)) errorDiv (dom s)) s.

Lemma setTextContent_line id msg s : setTextContent id (JStr msg) s = (Ok tt, show_line id msg s).
Proof. done. Qed.

(** Saving a dialog whose text is not JSON sends nothing: the error line says
    so and the dialog stays as it is. *)
Theorem invalid_json_stops env item overlay textarea errorDiv s n e h :
  dom s !! textarea = Some n → json_parse (value (data n)) = Err e →
  h = HCreateSave env overlay textarea errorDiv ∨ h = HEditSave env item overlay textarea errorDiv →
  run_handler h s = (Ok tt, show_line errorDiv (u "Invalid JSON: " ++ e) s).
Proof.
  intros Hn He [-> | ->]; cbn [run_handler]; unfold on_create_save, on_edit_save, with_parsed, mbind,
    M_bind, getValue, gets; by rewrite Hn, He.
Qed.

(** Which continuation a save resumes. *)
Definition saves (k : cont) (env : crud_env) (overlay errorDiv : nid) : Prop :=
  k = KCreateSave env overlay errorDiv ∨ k = KEditSave env overlay errorDiv.

(** [loadTable] never throws, and asks for the entities. *)
Lemma loadTable_asks env s :
  (loadTable env s).1 = Ok tt ∧
  in_flight (net (loadTable env s).2) =
    <[next_req (net s) := Pending (get_request accept_json (collection_path env)) ReadJSON
        (TCont (KLoadTable env))]> (in_flight (net s)).
Proof. split; reflexivity. Qed.

Lemma save_then_ok prefix env overlay errorDiv result s n :
  jget result (u "ok") = Ok (JBool true) → dom s !! body_id = Some n →
  save_then prefix env overlay errorDiv result s =
    if existsb (is_kid overlay) (kids n)
    then loadTable env (set_dom (detach overlay (dom s)) s)
    else (throw_te NotAChild, s).
Proof.
  intros Hok Hn. unfold save_then, lift, mbind, M_bind. rewrite Hok.
  unfold remove_from_body, get, mbind, M_bind. cbn [truthy]. rewrite Hn.
  by destruct (existsb (is_kid overlay) (kids n)).
Qed.

(** C5: a save that succeeds takes its dialog out of the page and asks for the
    entities again; when the dialog was cancelled meanwhile, removing it
    throws, so the table is not reloaded: the only effect is a message on the
    error line of the closed dialog. *)
Theorem save_outcome k env overlay errorDiv result s n :
  saves k env overlay errorDiv → jget result (u "ok") = Ok (JBool true) →
  dom s !! body_id = Some n →
  let s' := (resume k (Ok result) s).2 in
  if existsb (is_kid overlay) (kids n) then
    s' = (loadTable env (set_dom (detach overlay (dom s)) s)).2 ∧
    in_flight (net s') !! next_req (net s) =
      Some (Pending (get_request accept_json (collection_path env)) ReadJSON (TCont (KLoadTable env)))
  else ∃ msg, s' = show_line errorDiv msg s.
Proof.
  intros Hk Hok Hn s'.
  assert (∃ prefix, s' = (catch (save_then prefix env overlay errorDiv result)
    (save_catch prefix errorDiv) s).2) as [prefix ->] by (destruct Hk as [-> | ->]; by eexists).
  unfold catch. rewrite (save_then_ok _ _ _ _ _ _ _ Hok Hn). destruct (existsb (is_kid overlay) (kids n)).
  - destruct (loadTable_asks env (set_dom (detach overlay (dom s)) s)) as [Hr Hf].
    destruct (loadTable _ _) as [r s1]. simpl in Hr, Hf. subst r. simpl. split; [done|].
    rewrite Hf. apply lookup_insert_eq.
  - by eexists.
Qed.

(** * Confirmations *)

(** Answering no to a confirmation leaves the page as it is: nothing is sent
    and nothing is drawn. *)
Theorem declined_nothing h env item textarea preview s :
  h = HDelete env item ∨ h = HPublish textarea preview →
  answer s = false → (run_handler h s).2 = s.
Proof.
  intros [-> | ->] Ha; cbn [run_handler]; unfold on_delete, on_publish, confirm, lift, gets, mbind, M_bind.
  - rewrite Ha. by case_goal.
  - rewrite Ha. done.
Qed.

(** * Publishing *)

(** [m] leaves the program's variables alone. *)
Definition same_app {A} (m : M A) : Prop := ∀ s, app (m s).2 = app s.

Lemma same_app_preview preview cls txt : same_app (append preview (preview_div cls txt)).
Proof. intros s. reflexivity. Qed.

(** The statuses of HTTP as numbers. *)
Lemma status_2xx_spec z : (0 <= z < 1000)%Z → status_2xx (jnum z) = (200 <=? z)%Z && (z <? 300)%Z.
Proof.
  intros Hz. assert (Hall : forallb (λ z, Bool.eqb (status_2xx (jnum z)) ((200 <=? z)%Z && (z <? 300)%Z))
    (seqZ 0 1000) = true) by (vm_compute; reflexivity).
  rewrite forallb_forall in Hall. apply eqb_prop, Hall. apply list_elem_of_In, elem_of_seqZ. lia.
Qed.

Lemma lift_ok {A} (r : res A) s a s1 : lift r s = (Ok a, s1) → r = Ok a ∧ s1 = s.
Proof. unfold lift. by intros [= -> ->]. Qed.

(** After the response to a publication, with a JSON body, the editor holds
    the published text as its clean copy exactly when the status is 2xx;
    otherwise the variables of the program stay as they were. *)
Theorem publish_outcome preview body path status txt d s s' result :
  (0 <= status < 1000)%Z → json_parse txt = Ok d →
  read_response (ReadStatusJSON false) path (Response status (Ok txt)) = Ok result →
  publish_then preview body result s = (Ok tt, s') →
  app s' = if (200 <=? status)%Z && (status <? 300)%Z then set_editorState body false (app s) else app s.
Proof.
  intros Hst Hd Hr Hp. simpl in Hr. rewrite Hd in Hr.
  assert (Hv' : jget result (u "status") = Ok (jnum status)) by (injection Hr as <-; reflexivity).
  clear Hr. apply bind_ok in Hp as (v & s1 & [Hv ->]%lift_ok & Hp).
  rewrite Hv' in Hv. injection Hv as <-.
  apply bind_ok in Hp as (v & s1 & [_ ->]%lift_ok & Hp). rewrite status_2xx_spec in Hp by done.
  destruct ((200 <=? status)%Z && (status <? 300)%Z).
  - apply bind_ok in Hp as (gen & s1 & [_ ->]%lift_ok & Hp).
    apply bind_ok in Hp as ([] & s1 & Ha & Hp).
    pose proof (same_app_preview preview "valid"
      (u "Config published successfully (generation " ++ gen ++ u ").") s) as Hs.
    rewrite Ha in Hs. injection Hp as <-. simpl in *. by rewrite Hs.
  - apply bind_ok in Hp as (msg & s1 & [_ ->]%lift_ok & Hp).
    pose proof (same_app_preview preview "invalid" (u "Publish failed: " ++ msg) s) as Hs.
    rewrite Hp in Hs. done.
Qed.
End actions.

(** * Concrete instances *)

Definition sample_env : crud_env := CrudEnv (u "upstreams") (u "Upstream") [] content_id.

(** The page with the create dialog open: overlay 26, text area 29, error line
    33. *)
Definition sample_dialog : st := (@openCreateDialog sample_host sample_env sample_page).2.

Lemma sent_body_witness :
  let body := JObj [(u "name", JStr (u "api"))] in
  ∃ txt, @json_parse sample_host txt = Ok body ∧
    (sendJSON (u "POST") (u "/upstreams") body (TSlot 0 0 true) sample_page).2 =
    set_net (Network
      (<[next_req (net sample_page) := Pending (Request (u "POST") (u "/upstreams")
           [(u "Content-Type", u "application/json")] (Some txt)) (ReadStatusJSON true) (TSlot 0 0 true)]>
         (in_flight (net sample_page)))
      (S (next_req (net sample_page))) (joins (net sample_page)) (next_join (net sample_page))) sample_page.
Proof.
  intros body. apply (@sent_body sample_host (u "POST") (u "/upstreams") body (TSlot 0 0 true) sample_page).
  - vm_compute. repeat (split; [reflexivity|]). exact I.
  - reflexivity.
Defined.

(** Creating with an empty text area. *)
Lemma invalid_json_stops_witness :
  @run_handler sample_host (HCreateSave sample_env 26 29 33) sample_dialog =
    (Ok tt, show_line 33 (u "Invalid JSON: " ++ u "SyntaxError") sample_dialog).
Proof.
  destruct (dom sample_dialog !! 29) as [n|] eqn:E; [|exfalso; revert E; vm_compute; discriminate].
  apply (@invalid_json_stops sample_host sample_env JUndef 26 29 33 sample_dialog n).
  - exact E.
  - assert (value (data n) = []) as Hv.
    { assert (Hval : (λ n, value (data n)) <$> dom sample_dialog !! 29 = Some []) by (vm_compute; reflexivity).
      rewrite E in Hval. by injection Hval. }
    rewrite Hv. vm_compute. reflexivity.
  - left. reflexivity.
Defined.

(** A creation that succeeds while the dialog is open. *)
Lemma save_outcome_witness :
  let s' := (@resume sample_host (KCreateSave sample_env 26 33) (Ok (JObj [(u "ok", JBool true)]))
               sample_dialog).2 in
  in_flight (net s') !! next_req (net sample_dialog) =
    Some (Pending (get_request accept_json (collection_path sample_env)) ReadJSON
            (TCont (KLoadTable sample_env))).
Proof.
  intros s'.
  destruct (dom sample_dialog !! body_id) as [n|] eqn:E; [|exfalso; revert E; vm_compute; discriminate].
  pose proof (@save_outcome sample_host (KCreateSave sample_env 26 33) sample_env 26 33
    (JObj [(u "ok", JBool true)]) sample_dialog n (or_introl eq_refl) eq_refl E) as Hs.
  assert (existsb (is_kid 26) (kids n) = true) as Hk.
  { assert (Hd : (λ n, existsb (is_kid 26) (kids n)) <$> dom sample_dialog !! body_id = Some true)
      by (vm_compute; reflexivity).
    rewrite E in Hd. by injection Hd. }
  rewrite Hk in Hs. apply Hs.
Defined.

Lemma declined_nothing_witness :
  (@run_handler sample_host (HDelete sample_env (JObj [(u "name", JStr (u "api"))])) sample_page).2 = sample_page.
Proof.
  apply (@declined_nothing sample_host _ sample_env (JObj [(u "name", JStr (u "api"))]) 0 0).
  - left. reflexivity.
  - vm_compute. reflexivity.
Defined.

(** A publication answered with status 200 and an empty object. *)
Lemma publish_outcome_witness :
  let result := JObj [(u "status", jnum 200); (u "data", JObj [])] in
  app (@publish_then sample_host content_id (u "listeners: []") result sample_page).2 =
    set_editorState (u "listeners: []") false (app sample_page).
Proof.
  intros result.
  assert (Hr : ∃ s', @publish_then sample_host content_id (u "listeners: []") result sample_page = (Ok tt, s')).
  { eexists. vm_compute. reflexivity. }
  destruct Hr as [s' Hr]. rewrite Hr.
  apply (@publish_outcome sample_host content_id (u "listeners: []") (u "/config") 200 (u "{}") (JObj [])
    sample_page s' result).
  - lia.
  - vm_compute. reflexivity.
  - vm_compute. reflexivity.
  - exact Hr.
Defined.
