(* ===== verification/FreezeVersion.v ===== *)
(** Freezing a release of the documentation site
    (docs-site/scripts/freeze-version.mjs): the checks on the version, the copy
    of the site's content into versions/<version>, and the sidebar it writes,
    over a model of the file system. *)

From S2P Require Import Prelude JsNumber JsValue Json JsonRoundtrip Text.
Local Open Scope N_scope.

(** * The file system

    A flat map from paths, as lists of components, to what they name.
    Symbolic links are not modelled. *)
Inductive entry : Type :=
  | Dir
  | File (content : jstr).

Abbreviation path := (list jstr).
Abbreviation files := (gmap path entry).

(** Why the script ends early: [process.exit(1)] after a message, or an
    exception of node:fs. *)
Inductive failure : Type :=
  | Exit1 (message : jstr)
  | EEXIST
  | EISDIR
  | ENOENT.

(** A script that may fail; the files keep what it changed before. *)
Definition F (A : Type) : Type := files → result failure A * files.

#[global] Instance F_ret : MRet F := λ A a fs, (Ok a, fs).
#[global] Instance F_bind : MBind F := λ A B f m fs,
  match m fs with
  | (Ok a, fs) => f a fs
  | (Err e, fs) => (Err e, fs)
  end.

Definition fail {A} (e : failure) : F A := λ fs, (Err e, fs).

Definition existsSync (p : path) : F bool := λ fs, (Ok (bool_decide (is_Some (fs !! p))), fs).

(** [mkdirSync(p, { recursive: true })]: create every missing directory on
    the way, from the top. *)
Fixpoint mkdir_from (base p : path) : F unit := λ fs,
  match fs !! base with
  | Some (File _) => (Err EEXIST, fs)
  | d =>
      let fs := match d with None => <[base := Dir]> fs | Some _ => fs end in
      match p with
      | [] => (Ok tt, fs)
      | c :: p => mkdir_from (base ++ [c]) p fs
      end
  end.

Definition mkdirSync (p : path) : F unit := mkdir_from [] p.

(** The path below [src], if [p] is [src] or below it. *)
Fixpoint strip (src p : path) : option path :=
  match src, p with
  | [], _ => Some p
  | c :: src, d :: p => if bool_decide (c = d) then strip src p else None
  | _ :: _, [] => None
  end.

(** What a recursive copy of [src] to [dst] writes. *)
Definition copies (src dst : path) (fs : files) : files :=
  list_to_map (omap (λ '(p, e), q ← strip src p; Some (dst ++ q, e)) (map_to_list fs)).

Definition is_dir (e : entry) : bool :=
  match e with
  | Dir => true
  | File _ => false
  end.

(** A directory cannot replace a file nor a file a directory. *)
Definition conflict (new fs : files) : bool :=
  existsb (λ '(p, e), match fs !! p with
                      | Some e' => negb (Bool.eqb (is_dir e) (is_dir e'))
                      | None => false
                      end) (map_to_list new).

(** [cpSync(src, dst, { recursive: true })]. *)
Definition cpSync (src dst : path) : F unit := λ fs,
  match fs !! src with
  | None => (Err ENOENT, fs)
  | Some _ =>
      let new := copies src dst fs in
      if conflict new fs then (Err EISDIR, fs) else (Ok tt, new ∪ fs)
  end.

(** [writeFileSync(dir/name, content)]. *)
Definition writeFileSync (dir : path) (name content : jstr) : F unit := λ fs,
  match fs !! dir, fs !! (dir ++ [name]) with
  | Some Dir, Some Dir => (Err EISDIR, fs)
  | Some Dir, _ => (Ok tt, <[dir ++ [name] := File content]> fs)
  | _, _ => (Err ENOENT, fs)
  end.

(** * The version *)

Definition digits (s : jstr) : bool :=
  match s with
  | [] => false
  | _ => forallb is_digit s
  end.

(** [/^\d+\.\d+\.\d+$/.test(version)]: three runs of digits around two dots. *)
Definition bare_semver (s : jstr) : bool :=
  match split_on 46 s with
  | [a; b; c] => digits a && digits b && digits c
  | _ => false
  end.

(** * The sidebar *)

Definition item (text link : string) : jsval :=
  JObj [(u "text", jstr_of text); (u "link", jstr_of link)].

Definition group (text : string) (items : list jsval) : jsval :=
  JObj [(u "text", jstr_of text); (u "items", JArr items)].

Definition sidebar : jsval := JObj [
  (u "/guide/", JArr [group "Guide" [
    item "Getting started" "/guide/getting-started";
    item "Installation" "/guide/installation";
    item "Configuration" "/guide/configuration";
    item "Deployment" "/guide/deployment";
    item "Operations" "/guide/operations";
    item "Observability" "/guide/observability";
    item "Admin API" "/guide/admin-api";
    item "CLI" "/guide/cli"]]);
  (u "/architecture/", JArr [group "Architecture" [item "Overview" "/architecture/overview"]]);
  (u "/reference/", JArr [group "Reference" [
    item "Environment variables" "/reference/environment-variables";
    item "Configuration schema" "/reference/configuration-schema"]])
].

Definition sidebar_text : jstr := default (u "undefined") (stringify2 sidebar) ++ [10].

(** * The script *)

Definition CONTENT_ENTRIES : list jstr := [u "index.md"; u "guide"; u "architecture"; u "reference"].

Definition versions_dir (root : path) (version : jstr) : path := root ++ [u "versions"; version].
Definition sidebar_dir (root : path) : path := root ++ [u ".vitepress"; u "sidebars"; u "versioned"].

Definition usage : jstr :=
  u "usage: node scripts/freeze-version.mjs <version>  (e.g. 1.2.0, no leading v)".
Definition bad_version (version : jstr) : jstr :=
  u "version must be a bare semver (e.g. " ++ [34] ++ u "1.2.0" ++ [34] ++ u "), got: " ++ version.
Definition already_there (version : jstr) : jstr :=
  u "versions/" ++ version ++
  u " already exists; refusing to overwrite. Remove it first if you need to re-freeze.".

Fixpoint copy_entries (root dest : path) (l : list jstr) : F unit :=
  match l with
  | [] => mret tt
  | entry :: l =>
      there ← existsSync (root ++ [entry]);
      (if there : bool then cpSync (root ++ [entry]) (dest ++ [entry]) else mret tt);;
      copy_entries root dest l
  end.

(** The whole script, on [process.argv[2]]; it returns the lines it prints. *)
Definition freeze (root : path) (argv2 : option jstr) : F (list jstr) :=
  match argv2 with
  | None | Some [] => fail (Exit1 usage)
  | Some version =>
      if negb (bare_semver version) then fail (Exit1 (bad_version version))
      else
        let dest := versions_dir root version in
        there ← existsSync dest;
        if there : bool then fail (Exit1 (already_there version))
        else
          mkdirSync dest;;
          copy_entries root dest CONTENT_ENTRIES;;
          mkdirSync (sidebar_dir root);;
          writeFileSync (sidebar_dir root) (version ++ u ".json") sidebar_text;;
          mret [ u "Froze docs-site content into versions/" ++ version ++ u "/";
                 u "Wrote .vitepress/sidebars/versioned/" ++ version ++ u ".json";
                 u "Review the diff, commit it, then tag the release." ]
  end.

(** * What the file operations do *)

Lemma strip_app src q : strip src (src ++ q) = Some q.
Proof. induction src as [|c src IH]; simpl; [done|]. by rewrite bool_decide_eq_true_2. Qed.

Lemma strip_Some src p q : strip src p = Some q → p = src ++ q.
Proof.
  revert p. induction src as [|c src IH]; intros p Hp; [by injection Hp|].
  destruct p as [|d p]; [done|]. simpl in Hp. case_bool_decide; [subst|done].
  by rewrite (IH _ Hp).
Qed.

Lemma strip_None src p : strip src p = None → ¬ src `prefix_of` p.
Proof. intros Hn [q ->]. by rewrite strip_app in Hn. Qed.

Lemma copies_lookup src dst fs p :
  copies src dst fs !! p = q ← strip dst p; fs !! (src ++ q).
Proof.
  unfold copies. set (l := omap _ _).
  assert (Hl : ∀ e, (p, e) ∈ l ↔ ∃ q, p = dst ++ q ∧ fs !! (src ++ q) = Some e).
  { intros e. unfold l. rewrite list_elem_of_omap. split.
    - intros ([p' e'] & Hin & Hs). apply elem_of_map_to_list in Hin.
      destruct (strip src p') as [q|] eqn:E; [|done]. simplify_option_eq.
      apply strip_Some in E as ->. eauto.
    - intros (q & -> & Hq). exists (src ++ q, e). split; [by apply elem_of_map_to_list|].
      by rewrite strip_app. }
  destruct (strip dst p) as [q|] eqn:E; simpl.
  - apply strip_Some in E as ->. destruct (fs !! (src ++ q)) as [e|] eqn:Ef.
    + apply elem_of_list_to_map_1'; [|apply Hl; eauto].
      intros e' (q' & Hq & He')%Hl. apply (inj (app dst)) in Hq. congruence.
    + apply not_elem_of_list_to_map_1. intros Hin.
      apply list_elem_of_fmap in Hin as ([p' e] & Hp & Hin). simpl in Hp. rewrite <- Hp in Hin.
      apply Hl in Hin as (q' & Hq & He'). apply (inj (app dst)) in Hq. congruence.
  - apply not_elem_of_list_to_map_1. intros Hin.
    apply list_elem_of_fmap in Hin as ([p' e] & Hp & Hin). simpl in Hp. rewrite <- Hp in Hin.
    apply Hl in Hin as (q' & Hq & _). apply strip_None in E. apply E. rewrite Hq. by exists q'.
Qed.

(** No path on the way to [p] is a file. *)
Definition no_file_on (p : path) (fs : files) : Prop :=
  ∀ q c, q `prefix_of` p → fs !! q ≠ Some (File c).

(** Files and directories lie in directories. *)
Definition wf (fs : files) : Prop := ∀ p c e, fs !! (p ++ [c]) = Some e → fs !! p = Some Dir.

Definition ensure_dir (p : path) (fs : files) : files :=
  match fs !! p with
  | None => <[p := Dir]> fs
  | Some _ => fs
  end.

Lemma ensure_dir_lookup p fs q :
  (∀ x, fs !! p ≠ Some (File x)) →
  ensure_dir p fs !! q = if decide (q = p) then Some Dir else fs !! q.
Proof.
  intros Hp. unfold ensure_dir. destruct (fs !! p) as [[|x]|] eqn:E.
  - case_decide; by subst.
  - by destruct (Hp x).
  - case_decide; subst; [by rewrite lookup_insert_eq|by rewrite lookup_insert_ne].
Qed.

Lemma mkdir_step base p fs :
  (∀ x, fs !! base ≠ Some (File x)) →
  mkdir_from base p fs =
    match p with
    | [] => (Ok tt, ensure_dir base fs)
    | c :: p => mkdir_from (base ++ [c]) p (ensure_dir base fs)
    end.
Proof.
  intros Hb. unfold ensure_dir. destruct p; simpl; destruct (fs !! base) as [[|x]|] eqn:E; try done;
    by destruct (Hb x).
Qed.

(** [q] is on the way from [base] to [base ++ p]. *)
Definition between (base p q : path) : Prop := base `prefix_of` q ∧ q `prefix_of` base ++ p.

Lemma between_nil base q : between base [] q ↔ q = base.
Proof.
  unfold between. rewrite app_nil_r. split; [|by intros ->].
  intros [[a ->] [b Hb]]. rewrite <- app_assoc in Hb. symmetry in Hb.
  rewrite <- (app_nil_r base) in Hb at 2. apply (inj (app base)) in Hb.
  by destruct a; [rewrite app_nil_r|].
Qed.

Lemma between_cons base c p q : between base (c :: p) q ↔ q = base ∨ between (base ++ [c]) p q.
Proof.
  unfold between. rewrite <- app_assoc. simpl. split.
  - intros [[a ->] [b Hb]]. rewrite <- app_assoc in Hb. apply (inj (app base)) in Hb.
    destruct a as [|d a]; [left; by rewrite app_nil_r|right]. injection Hb as <- Hb. subst p.
    split; [exists a; by rewrite <- app_assoc|]. exists b. by rewrite <- app_assoc.
  - intros [->|[[a ->] ?]]; [by split; [done|eexists]|]. split; [|done].
    exists (c :: a). by rewrite <- app_assoc.
Qed.

#[global] Instance between_dec base p q : Decision (between base p q).
Proof. unfold between. apply _. Defined.

Lemma mkdir_from_ok base p fs :
  (∀ q x, between base p q → fs !! q ≠ Some (File x)) →
  ∃ fs', mkdir_from base p fs = (Ok tt, fs') ∧
    ∀ q, fs' !! q = if decide (between base p q) then Some Dir else fs !! q.
Proof.
  revert base fs. induction p as [|c p IH]; intros base fs Hno.
  - rewrite mkdir_step by (intros x; apply Hno, between_nil; done). eexists. split; [done|].
    intros q. rewrite ensure_dir_lookup by (intros x; apply Hno, between_nil; done).
    apply decide_ext. by rewrite between_nil.
  - assert (Hb : ∀ x, fs !! base ≠ Some (File x)) by (intros x; apply Hno, between_cons; by left).
    rewrite mkdir_step by done.
    destruct (IH (base ++ [c]) (ensure_dir base fs)) as (fs' & -> & Hfs').
    + intros q x Hq. rewrite ensure_dir_lookup by done. case_decide; [done|].
      apply Hno, between_cons. by right.
    + exists fs'. split; [done|]. intros q. rewrite Hfs', ensure_dir_lookup by done.
      repeat case_decide; try done; exfalso; rewrite between_cons in *; naive_solver.
Qed.

Lemma mkdirSync_ok p fs :
  no_file_on p fs →
  ∃ fs', mkdirSync p fs = (Ok tt, fs') ∧
    ∀ q, fs' !! q = if decide (q `prefix_of` p) then Some Dir else fs !! q.
Proof.
  intros Hno. destruct (mkdir_from_ok [] p fs) as (fs' & ? & Hfs').
  - intros q x [_ Hq]. by apply Hno.
  - exists fs'. split; [done|]. intros q. rewrite Hfs'. apply decide_ext. unfold between. simpl.
    split; [by intros [_ ?]|]. intros ?. split; [apply prefix_nil|done].
Qed.

(** Copying to a place where there is nothing. *)
Lemma cpSync_fresh src dst fs :
  is_Some (fs !! src) → (∀ q, fs !! (dst ++ q) = None) →
  ∃ fs', cpSync src dst fs = (Ok tt, fs') ∧
    (∀ q, fs' !! (dst ++ q) = fs !! (src ++ q)) ∧
    (∀ p, ¬ dst `prefix_of` p → fs' !! p = fs !! p).
Proof.
  intros [e He] Hd. unfold cpSync. rewrite He.
  assert (Hc : conflict (copies src dst fs) fs = false).
  { unfold conflict. apply not_true_is_false. intros Hex. apply existsb_exists in Hex as ([p e'] & Hin & Hp).
    apply list_elem_of_In, elem_of_map_to_list in Hin. rewrite copies_lookup in Hin.
    destruct (strip dst p) as [q|] eqn:E; [|done]. apply strip_Some in E as ->. by rewrite Hd in Hp. }
  rewrite Hc. eexists. split; [done|]. split.
  - intros q. rewrite lookup_union, copies_lookup, strip_app, Hd. simpl. by destruct (fs !! (src ++ q)).
  - intros p Hp. rewrite lookup_union, copies_lookup.
    destruct (strip dst p) as [q|] eqn:E; [|simpl; by destruct (fs !! p)].
    apply strip_Some in E as ->. by destruct Hp; exists q.
Qed.

Lemma wf_below fs p q : wf fs → fs !! p = None → fs !! (p ++ q) = None.
Proof.
  intros Hw Hp. induction q as [|c q IH] using rev_ind; [by rewrite app_nil_r|].
  destruct (fs !! (p ++ q ++ [c])) as [e|] eqn:E; [|done].
  rewrite app_assoc in E. apply Hw in E. congruence.
Qed.

Lemma copy_entries_ok root dest l fs :
  NoDup l →
  (∀ e q, e ∈ l → ¬ dest `prefix_of` root ++ e :: q) →
  (∀ e, e ∈ l → fs !! (root ++ [e]) = None → ∀ q, fs !! (root ++ e :: q) = None) →
  (∀ e q, e ∈ l → fs !! (dest ++ e :: q) = None) →
  ∃ fs', copy_entries root dest l fs = (Ok tt, fs') ∧
    (∀ e q, e ∈ l → fs' !! (dest ++ e :: q) = fs !! (root ++ e :: q)) ∧
    (∀ p, (∀ e q, e ∈ l → p ≠ dest ++ e :: q) → fs' !! p = fs !! p).
Proof.
  revert fs. induction l as [|e l IH]; intros fs Hnd Hout Hclosed Hfresh.
  - exists fs. split; [done|]. split; [|done]. intros e q He. by apply elem_of_nil in He.
  - apply list.NoDup_cons in Hnd as [He Hnd].
    assert (∃ fs1, (if bool_decide (is_Some (fs !! (root ++ [e])))
                    then cpSync (root ++ [e]) (dest ++ [e]) else mret tt) fs = (Ok tt, fs1) ∧
      (∀ q, fs1 !! (dest ++ e :: q) = fs !! (root ++ e :: q)) ∧
      (∀ p, (∀ q, p ≠ dest ++ e :: q) → fs1 !! p = fs !! p)) as (fs1 & Hrun & Hcp & Hrest).
    { case_bool_decide as Hx.
      - destruct (cpSync_fresh (root ++ [e]) (dest ++ [e]) fs Hx) as (fs1 & ? & Hcp & Hrest).
        + intros q. rewrite <- app_assoc. apply Hfresh. by left.
        + exists fs1. split; [done|]. split.
          * intros q. specialize (Hcp q). by rewrite <- !app_assoc in Hcp.
          * intros p Hp. apply Hrest. intros [q ->]. apply (Hp q). by rewrite <- app_assoc.
      - exists fs. split; [done|]. split; [|done]. intros q.
        rewrite Hfresh by (by left). symmetry. apply Hclosed; [by left|].
        by apply eq_None_not_Some. }
    assert (Hroot : ∀ e' q, e' ∈ e :: l → fs1 !! (root ++ e' :: q) = fs !! (root ++ e' :: q)).
    { intros e' q He'. apply Hrest. intros q' Hq. apply (Hout e' q He'). rewrite Hq. by eexists. }
    destruct (IH fs1 Hnd) as (fs' & Hrun' & Hcp' & Hrest').
    + intros e' q He'. apply Hout. by right.
    + intros e' He' Hn q. rewrite Hroot in * by (by right). apply Hclosed; [by right|done].
    + intros e' q He'. rewrite Hrest; [apply Hfresh; by right|].
      intros q' Hq. apply (inj (app dest)) in Hq. injection Hq as -> _. done.
    + exists fs'. split; [|split].
      * cbn [copy_entries]. unfold existsSync, mbind, F_bind. by rewrite Hrun.
      * intros e' q [->|He']%elem_of_cons; [|rewrite Hcp' by done; apply Hroot; by right].
        rewrite Hrest'; [apply Hcp|]. intros e' q' He' Hq. apply (inj (app dest)) in Hq.
        injection Hq as -> _. done.
      * intros p Hp. rewrite Hrest' by (intros e' q' ?; apply Hp; by right).
        apply Hrest. intros q. apply Hp. by left.
Qed.

Definition sidebar_file (root : path) (version : jstr) : path :=
  sidebar_dir root ++ [version ++ u ".json"].

(** The script past the check of the version. *)
Lemma freeze_semver root v :
  bare_semver v = true →
  freeze root (Some v) =
    (there ← existsSync (versions_dir root v);
     if there : bool then fail (Exit1 (already_there v))
     else
       mkdirSync (versions_dir root v);;
       copy_entries root (versions_dir root v) CONTENT_ENTRIES;;
       mkdirSync (sidebar_dir root);;
       writeFileSync (sidebar_dir root) (v ++ u ".json") sidebar_text;;
       mret [ u "Froze docs-site content into versions/" ++ v ++ u "/";
              u "Wrote .vitepress/sidebars/versioned/" ++ v ++ u ".json";
              u "Review the diff, commit it, then tag the release." ]).
Proof. intros Hv. unfold freeze. destruct v as [|c v]; [done|]. by rewrite Hv. Qed.

(** The entries, the sidebar and the snapshot lie in different places. *)
Lemma entry_not_versions root v e q :
  e ∈ CONTENT_ENTRIES → ¬ versions_dir root v `prefix_of` root ++ e :: q.
Proof.
  intros He [x Hx]. unfold versions_dir in Hx. rewrite <- app_assoc in Hx.
  apply (inj (app root)) in Hx. injection Hx as -> _. revert He.
  apply (bool_decide_unpack _). vm_compute. exact I.
Qed.

Lemma sidebar_not_versions root v q : ¬ versions_dir root v `prefix_of` sidebar_dir root ++ q.
Proof.
  intros [x Hx]. unfold versions_dir, sidebar_dir in Hx. rewrite <- !app_assoc in Hx.
  apply (inj (app root)) in Hx. discriminate.
Qed.

Lemma sidebar_file_not_dir root v v' :
  ¬ sidebar_file root v `prefix_of` sidebar_dir root ∧
  ¬ sidebar_file root v `prefix_of` versions_dir root v'.
Proof.
  unfold sidebar_file, sidebar_dir, versions_dir. split; intros [x Hx];
    rewrite <- !app_assoc in Hx; apply (inj (app root)) in Hx; discriminate.
Qed.

(** A successful freeze copies the content entry by entry, writes the
    sidebar, and changes nothing else: other versions and the unstable pages
    stay as they were. *)
Theorem freeze_snapshot root v fs :
  wf fs → bare_semver v = true → fs !! versions_dir root v = None →
  no_file_on (versions_dir root v) fs → no_file_on (sidebar_dir root) fs →
  fs !! sidebar_file root v ≠ Some Dir →
  ∃ out fs', freeze root (Some v) fs = (Ok out, fs') ∧
    (∀ e q, e ∈ CONTENT_ENTRIES → fs' !! (versions_dir root v ++ e :: q) = fs !! (root ++ e :: q)) ∧
    fs' !! sidebar_file root v = Some (File sidebar_text) ∧
    (∀ p, ¬ versions_dir root v `prefix_of` p → p ≠ sidebar_file root v →
       fs' !! p = fs !! p ∨
       (fs !! p = None ∧ fs' !! p = Some Dir ∧
        (p `prefix_of` versions_dir root v ∨ p `prefix_of` sidebar_dir root))).
Proof.
  intros Hw Hv Hnew Hnv Hns Hsf. set (dest := versions_dir root v) in *. set (sd := sidebar_dir root) in *.
  destruct (mkdirSync_ok dest fs Hnv) as (fs1 & H1 & L1).
  assert (Hroot : ∀ e q, e ∈ CONTENT_ENTRIES → fs1 !! (root ++ e :: q) = fs !! (root ++ e :: q)).
  { intros e q He. rewrite L1. rewrite decide_False; [done|]. intros [x Hx].
    unfold dest, versions_dir in Hx. rewrite <- app_assoc in Hx. apply (inj (app root)) in Hx.
    injection Hx as <- _. revert He. apply (bool_decide_unpack _). vm_compute. exact I. }
  destruct (copy_entries_ok root dest CONTENT_ENTRIES fs1) as (fs2 & H2 & C2 & R2).
  - apply (bool_decide_unpack _). vm_compute. exact I.
  - intros e q. apply entry_not_versions.
  - intros e He Hn q. rewrite Hroot in * by done.
    change (root ++ e :: q) with (root ++ [e] ++ q). rewrite app_assoc. by apply wf_below.
  - intros e q He. rewrite L1, decide_False; [by apply wf_below|].
    intros [x Hx]. rewrite <- app_assoc in Hx. rewrite <- (app_nil_r dest) in Hx at 1.
    by apply (inj (app dest)) in Hx.
  - assert (Hout : ∀ p, ¬ dest `prefix_of` p → fs2 !! p = fs1 !! p).
    { intros p Hp. apply R2. intros e q _ ->. apply Hp. by eexists. }
    assert (Hsd : ∀ q, q `prefix_of` sd → ¬ dest `prefix_of` q).
    { intros q Hq Hd. apply (sidebar_not_versions root v []). rewrite app_nil_r. by etrans. }
    destruct (mkdirSync_ok sd fs2) as (fs3 & H3 & L3).
    { intros q c Hq. rewrite Hout, L1 by auto. case_decide; [done|]. by apply Hns. }
    destruct (sidebar_file_not_dir root v v) as [Hf1 Hf2].
    assert (Hsf3 : fs3 !! sidebar_file root v = fs !! sidebar_file root v).
    { rewrite L3, decide_False, Hout, L1, decide_False; [done|done| |done].
      apply sidebar_not_versions. }
    assert (Hd3 : fs3 !! sd = Some Dir) by (rewrite L3; by rewrite decide_True).
    eexists _, (<[sidebar_file root v := File sidebar_text]> fs3). split; [|split; [|split]].
    + rewrite freeze_semver by done. fold dest sd.
      unfold existsSync, mbind, F_bind. rewrite Hnew, bool_decide_eq_false_2 by (by intros [? ?]).
      rewrite H1, H2, H3. unfold writeFileSync. rewrite Hd3.
      change (sd ++ [v ++ u ".json"]) with (sidebar_file root v). rewrite Hsf3.
      by destruct (fs !! sidebar_file root v) as [[|]|].
    + intros e q He. rewrite lookup_insert_ne, L3, decide_False.
      * rewrite C2 by done. by apply Hroot.
      * intros Hp. apply (Hsd _ Hp). by eexists.
      * intros Heq. apply (sidebar_not_versions root v [v ++ u ".json"]).
        change (sidebar_dir root ++ [v ++ u ".json"]) with (sidebar_file root v). rewrite Heq. by eexists.
    + by rewrite lookup_insert_eq.
    + intros p Hp Hne. rewrite lookup_insert_ne by done. rewrite L3. case_decide as Hps.
      * destruct (fs !! p) as [[|c]|] eqn:E; [by left| |by right; auto].
        by apply Hns in E.
      * rewrite Hout by done. rewrite L1. case_decide as Hpd; [|by left].
        destruct (fs !! p) as [[|c]|] eqn:E; [by left| |by right; auto]. by apply Hnv in E.
Qed.

(** * The checks *)

Lemma digits_no_dot a : digits a = true → 46 ∉ a.
Proof.
  intros Ha Hin. destruct a as [|c a]; [done|]. unfold digits in Ha. rewrite forallb_forall in Ha.
  by apply list_elem_of_In, Ha in Hin.
Qed.

(** The version test accepts exactly three non-empty runs of digits joined
    by dots. *)
Theorem bare_semver_spec v :
  bare_semver v = true ↔
  ∃ a b c, v = a ++ 46 :: b ++ 46 :: c ∧ digits a = true ∧ digits b = true ∧ digits c = true.
Proof.
  split.
  - unfold bare_semver. intros Hv. pose proof (join_split 46 v) as Hj.
    destruct (split_on 46 v) as [|a [|b [|c [|]]]]; try done.
    rewrite !andb_true_iff in Hv. destruct Hv as [[? ?] ?]. exists a, b, c. by rewrite <- Hj.
  - intros (a & b & c & -> & Ha & Hb & Hc). unfold bare_semver.
    rewrite split_join, split_join, split_field by (by apply digits_no_dot).
    by rewrite Ha, Hb, Hc.
Qed.

(** Without a bare semantic version, or when that version was frozen
    before, the script stops with a message and touches no file. *)
Theorem freeze_refuses root argv2 fs :
  match argv2 with
  | None => True
  | Some v => bare_semver v = false ∨ is_Some (fs !! versions_dir root v)
  end → ∃ m, freeze root argv2 fs = (Err (Exit1 m), fs).
Proof.
  intros Hv. destruct argv2 as [[|c v]|]; [by eexists| |by eexists].
  unfold freeze. destruct (bare_semver (c :: v)) eqn:E; simpl; [|by eexists].
  destruct Hv as [?|Hd]; [congruence|]. unfold existsSync, mbind, F_bind.
  rewrite bool_decide_eq_true_2 by done. by eexists.
Qed.

(** * Freezing again *)

(** No operation of the script removes anything. *)
Definition grows {A} (m : F A) : Prop := ∀ fs p, is_Some (fs !! p) → is_Some ((m fs).2 !! p).

Lemma grows_same {A} (m : F A) : (∀ fs, (m fs).2 = fs) → grows m.
Proof. intros Hm fs p Hp. by rewrite Hm. Qed.

Lemma grows_bind {A B} (m : F A) (f : A → F B) : grows m → (∀ a, grows (f a)) → grows (m ≫= f).
Proof.
  intros Hm Hf fs p Hp. specialize (Hm fs p Hp). unfold mbind, F_bind.
  destruct (m fs) as [[a|e] fs1]; [by apply Hf|done].
Qed.

Lemma grows_mkdirSync p : grows (mkdirSync p).
Proof.
  unfold mkdirSync. generalize (@nil jstr). induction p as [|c p IH]; intros base fs q Hq; simpl.
  - destruct (fs !! base) as [[]|]; [done..|]. simpl. apply lookup_insert_is_Some'. by right.
  - destruct (fs !! base) as [[]|]; [by apply IH|done|]. apply IH, lookup_insert_is_Some'. by right.
Qed.

Lemma grows_cpSync src dst : grows (cpSync src dst).
Proof.
  intros fs p Hp. unfold cpSync. destruct (fs !! src); [|done]. destruct (conflict _ fs); [done|].
  apply lookup_union_is_Some. by right.
Qed.

Lemma grows_writeFileSync dir name content : grows (writeFileSync dir name content).
Proof.
  intros fs p Hp. unfold writeFileSync. repeat case_match; try done; apply lookup_insert_is_Some'; by right.
Qed.

Lemma grows_copy_entries root dest l : grows (copy_entries root dest l).
Proof.
  induction l as [|e l IH]; [by apply grows_same|]. simpl.
  apply grows_bind; [by apply grows_same|]. intros there. apply grows_bind; [|done].
  destruct there; [apply grows_cpSync|by apply grows_same].
Qed.

(** A directory that was made is there. *)
Lemma mkdir_from_makes base p fs fs' : mkdir_from base p fs = (Ok tt, fs') → is_Some (fs' !! (base ++ p)).
Proof.
  revert base fs. induction p as [|c p IH]; intros base fs Hm; simpl in Hm.
  - rewrite app_nil_r. destruct (fs !! base) as [[]|] eqn:E; try done; injection Hm as <-; [by rewrite E|].
    by rewrite lookup_insert_eq.
  - rewrite (app_assoc base [c] p : base ++ c :: p = _).
    by destruct (fs !! base) as [[]|]; [apply IH in Hm|..|apply IH in Hm].
Qed.

(** Freezing the version that was just frozen stops with a message and
    leaves the snapshot as it is. *)
Theorem freeze_once root v fs out fs' :
  freeze root (Some v) fs = (Ok out, fs') → ∃ m, freeze root (Some v) fs' = (Err (Exit1 m), fs').
Proof.
  intros Hf. assert (Hv : bare_semver v = true).
  { destruct (bare_semver v) eqn:E; [done|]. unfold freeze in Hf. rewrite E in Hf. by destruct v. }
  assert (Hd : is_Some (fs' !! versions_dir root v)); [|exists (already_there v)].
  - rewrite freeze_semver in Hf by done. unfold existsSync, mbind at 1, F_bind at 1 in Hf.
    case_bool_decide; [done|]. unfold mbind at 1, F_bind at 1 in Hf.
    destruct (mkdirSync (versions_dir root v) fs) as [[[]|e] fs1] eqn:E; [|done].
    apply (mkdir_from_makes [] (versions_dir root v)) in E.
    match type of Hf with ?m _ = _ => assert (Hg : grows m) end.
    + apply grows_bind; [apply grows_copy_entries|]. intros _.
      apply grows_bind; [apply grows_mkdirSync|]. intros _.
      apply grows_bind; [apply grows_writeFileSync|]. intros _. by apply grows_same.
    + apply Hg in E. by rewrite Hf in E.
  - rewrite freeze_semver by done. unfold existsSync, mbind at 1, F_bind at 1.
    by rewrite bool_decide_eq_true_2.
Qed.

(** The sidebar file is JSON for the sidebar: it parses back to the object
    the script built, its final newline included. *)
Theorem sidebar_parses `{Host} : json_parse sidebar_text = Ok sidebar.
Proof. vm_compute. reflexivity. Qed.

(** * Concrete instances *)

#[local] Instance entry_eq_dec : EqDecision entry.
Proof. solve_decision. Defined.

Definition is_file (e : option entry) : bool :=
  match e with
  | Some (File _) => true
  | _ => false
  end.

Lemma wf_check fs :
  bool_decide (map_Forall (λ p _, p = [] ∨ fs !! removelast p = Some Dir) fs) = true → wf fs.
Proof.
  intros Hc%bool_decide_eq_true p c e He. apply Hc in He as [He|He]; [by destruct p|].
  by rewrite removelast_last in He.
Qed.

Lemma no_file_on_check p fs :
  forallb (λ n, negb (is_file (fs !! take n p))) (seq 0 (S (length p))) = true → no_file_on p fs.
Proof.
  intros Hc q c [x ->] He. rewrite forallb_forall in Hc. specialize (Hc (length q)).
  rewrite take_app_length, He in Hc. discriminate Hc. apply in_seq. rewrite length_app. lia.
Qed.

Definition sample_site : files := list_to_map [
  ([], Dir); ([u "site"], Dir);
  ([u "site"; u "index.md"], File (u "# dwara"));
  ([u "site"; u "guide"], Dir);
  ([u "site"; u "guide"; u "start.md"], File (u "start"))].

Lemma freeze_snapshot_witness :
  let root := [u "site"] in let v := u "1.2.0" in let fs := sample_site in
  ∃ out fs', freeze root (Some v) fs = (Ok out, fs') ∧
    (∀ e q, e ∈ CONTENT_ENTRIES → fs' !! (versions_dir root v ++ e :: q) = fs !! (root ++ e :: q)) ∧
    fs' !! sidebar_file root v = Some (File sidebar_text) ∧
    (∀ p, ¬ versions_dir root v `prefix_of` p → p ≠ sidebar_file root v →
       fs' !! p = fs !! p ∨
       (fs !! p = None ∧ fs' !! p = Some Dir ∧
        (p `prefix_of` versions_dir root v ∨ p `prefix_of` sidebar_dir root))).
Proof.
  apply (freeze_snapshot [u "site"] (u "1.2.0") sample_site).
  - apply wf_check. vm_compute. reflexivity.
  - vm_compute. reflexivity.
  - vm_compute. reflexivity.
  - apply no_file_on_check. vm_compute. reflexivity.
  - apply no_file_on_check. vm_compute. reflexivity.
  - vm_compute. discriminate.
Defined.

Lemma freeze_refuses_witness : ∃ m, freeze [u "site"] (Some (u "v1.2")) sample_site = (Err (Exit1 m), sample_site).
Proof. apply freeze_refuses. left. vm_compute. reflexivity. Defined.

Lemma freeze_once_witness :
  let fs' := (freeze [u "site"] (Some (u "1.2.0")) sample_site).2 in
  ∃ m, freeze [u "site"] (Some (u "1.2.0")) fs' = (Err (Exit1 m), fs').
Proof.
  intros fs'. destruct (freeze [u "site"] (Some (u "1.2.0")) sample_site) as [[out|e] fs1] eqn:E.
  - apply (freeze_once [u "site"] (u "1.2.0") sample_site out fs'). unfold fs'. rewrite E. reflexivity.
  - exfalso. apply (f_equal (λ r, is_ok r.1)) in E. revert E. vm_compute. discriminate.
Defined.
