(* ===== verification/Breaker.v ===== *)
(** The circuit breaker of an upstream
    (crates/dwara-core/src/resilience/breaker.rs): admission, reports, the
    rolling window, and the state machine they drive. *)

From S2P Require Import Prelude JsNumber.
Local Open Scope Z_scope.

(** * Parameters and state *)

Definition BREAKER_WINDOW_MS : Z := 60000.
Definition HALF_OPEN_RETRY_AFTER_MS : Z := 1000.

(** [u32] and [u64] fields as integers; the ratio is an [f64]. *)
Record BreakerParams : Type := Params {
  consecutive_failures : Z;
  error_ratio : num;
  error_volume : Z;
  open_ms : Z;
  half_open_probes : Z;
}.

Inductive BreakerDecision : Type :=
  | Allow
  | Reject (retry_after_ms : Z).

Inductive BreakerState : Type :=
  | Closed (consecutive : Z)
  | Open (until_ms : Z)
  | HalfOpen (probes_left : Z).

Record BreakerInner : Type := Breaker { state : BreakerState; window : list (Z * bool) }.

(** The transition events it emits: [breaker_half_open], [breaker_opened] with
    the rule that tripped, [breaker_closed]. *)
Inductive detail : Type := by_streak | by_ratio | probe_failed | probe_succeeded.
Inductive event : Type :=
  | BreakerHalfOpen
  | BreakerOpened (d : detail)
  | BreakerClosed (d : detail).

Definition new : BreakerInner := Breaker (Closed 0) [].

(** * Machine arithmetic *)

Definition u32_max : Z := 2 ^ 32 - 1.
Definition u64_max : Z := 2 ^ 64 - 1.

Definition saturating_sub (a b : Z) : Z := Z.max 0 (a - b).
Definition saturating_add (a b : Z) : Z := Z.min u64_max (a + b).

(** [a + b] on [u32] in a release build. *)
Definition add_u32 (a b : Z) : Z := (a + b) mod 2 ^ 32.

(** * Operations

    Each takes the time [now] that the clock returned. *)

Definition expired (now : Z) (o : Z * bool) : bool := BREAKER_WINDOW_MS <=? saturating_sub now o.1.

(** [prune_locked]: drop the expired observations at the front. *)
Fixpoint prune (now : Z) (w : list (Z * bool)) : list (Z * bool) :=
  match w with
  | o :: w' => if expired now o then prune now w' else w
  | [] => []
  end.

Definition check (params : BreakerParams) (now : Z) (b : BreakerInner)
    : BreakerDecision * BreakerInner * list event :=
  let w := prune now (window b) in
  match state b with
  | Closed _ => (Allow, Breaker (state b) w, [])
  | Open until_ms =>
      if now <? until_ms then (Reject (until_ms - now), Breaker (state b) w, [])
      else (Allow, Breaker (HalfOpen (saturating_sub (half_open_probes params) 1)) w,
            [BreakerHalfOpen])
  | HalfOpen probes_left =>
      if probes_left =? 0 then (Reject HALF_OPEN_RETRY_AFTER_MS, Breaker (state b) w, [])
      else (Allow, Breaker (HalfOpen (probes_left - 1)) w, [])
  end.

(** Failures among the observations. *)
Definition count_failures (w : list (Z * bool)) : nat := length (filter (λ o, o.2 = true) w).

Definition ratio_tripped (params : BreakerParams) (w : list (Z * bool)) : bool :=
  (error_volume params <=? Z.of_nat (length w)) &&
  nle (error_ratio params)
      (ndiv (num_of_Z (Z.of_nat (count_failures w))) (num_of_Z (Z.of_nat (length w)))).

Definition report (params : BreakerParams) (now : Z) (failed : bool) (b : BreakerInner)
    : BreakerInner * list event :=
  let w := prune now (window b) ++ [(now, failed)] in
  match state b with
  | Closed consecutive =>
      if negb failed then (Breaker (Closed 0) w, [])
      else
        let streak := add_u32 consecutive 1 in
        let streak_tripped := consecutive_failures params <=? streak in
        if streak_tripped || ratio_tripped params w then
          (Breaker (Open (saturating_add now (open_ms params))) w,
           [BreakerOpened (if streak_tripped then by_streak else by_ratio)])
        else (Breaker (Closed streak) w, [])
  | HalfOpen _ =>
      if failed then
        (Breaker (Open (saturating_add now (open_ms params))) w, [BreakerOpened probe_failed])
      else (Breaker (Closed 0) [], [BreakerClosed probe_succeeded])
  | Open _ => (Breaker (state b) w, [])
  end.

(** [state()], [totals()] and [failures()]: observers that prune. *)
Definition observe (now : Z) (b : BreakerInner) : BreakerInner :=
  Breaker (state b) (prune now (window b)).
Definition totals (now : Z) (b : BreakerInner) : nat := length (window (observe now b)).
Definition failures (now : Z) (b : BreakerInner) : nat := count_failures (window (observe now b)).

(** * Runs *)

(** A call with the time and the parameters of the moment: a reload may change
    the parameters between two calls. *)
Inductive op : Type :=
  | Check (params : BreakerParams) (now : Z)
  | Report (params : BreakerParams) (now : Z) (failed : bool)
  | Observe (now : Z).

Definition op_time (o : op) : Z :=
  match o with
  | Check _ now | Report _ now _ | Observe now => now
  end.

(** The breaker after a call, and the decision if it was a check. *)
Definition step (b : BreakerInner) (o : op) : BreakerInner * option BreakerDecision :=
  match o with
  | Check params now => let '(d, b', _) := check params now b in (b', Some d)
  | Report params now failed => ((report params now failed b).1, None)
  | Observe now => (observe now b, None)
  end.

Fixpoint run (b : BreakerInner) (os : list op) : BreakerInner * list BreakerDecision :=
  match os with
  | [] => (b, [])
  | o :: os =>
      let '(b, d) := step b o in
      let '(b, ds) := run b os in
      (b, match d with Some d => d :: ds | None => ds end)
  end.

Definition allowed (d : BreakerDecision) : bool :=
  match d with
  | Allow => true
  | Reject _ => false
  end.

(** How many requests the decisions admit. *)
Definition admitted (ds : list BreakerDecision) : Z := Z.of_nat (length (filter allowed ds)).

(** * The window *)

(** Observation times never decrease: the clock did not step back. *)
Definition sorted (w : list (Z * bool)) : Prop :=
  ∀ i j x y, (i < j)%nat → w !! i = Some x → w !! j = Some y → x.1 <= y.1.

Lemma sorted_cons o w : sorted (o :: w) → Forall (λ x, o.1 <= x.1) w ∧ sorted w.
Proof.
  intros Hs. split.
  - apply list.Forall_forall. intros x Hx. apply list_elem_of_lookup in Hx as [j Hj].
    by apply (Hs 0%nat (S j)); [lia|..].
  - intros i j x y Hij Hi Hj. by apply (Hs (S i) (S j)); [lia|..].
Qed.

Lemma expired_mono now x y : x.1 <= y.1 → expired now x = false → expired now y = false.
Proof. unfold expired, saturating_sub. rewrite !Z.leb_gt. lia. Qed.

(** On a sorted window, pruning keeps exactly the recent observations. *)
Lemma prune_filter now w : sorted w → prune now w = filter (λ o, expired now o = false) w.
Proof.
  induction w as [|o w IH]; intros Hs; [done|]. apply sorted_cons in Hs as [Ho Hs]. simpl.
  destruct (expired now o) eqn:E.
  - rewrite filter_cons_False by (by rewrite E). by apply IH.
  - rewrite filter_cons_True by done. f_equal. symmetry. apply list_filter_true.
    eapply list.Forall_impl; [exact Ho|]. intros x Hx. by apply (expired_mono now o).
Qed.

Lemma sorted_snoc w o : sorted w → Forall (λ x, x.1 <= o.1) w → sorted (w ++ [o]).
Proof.
  intros Hs Ho i j x y Hij Hi Hj. apply lookup_snoc_Some in Hj as [[Hlt Hj]|[-> <-]].
  - rewrite lookup_app_l in Hi by lia. by apply (Hs i j).
  - rewrite lookup_app_l in Hi by lia. rewrite list.Forall_forall in Ho.
    by eapply Ho, list_elem_of_lookup_2.
Qed.

Lemma sorted_filter P `{!∀ x, Decision (P x)} w : sorted w → sorted (filter P w).
Proof.
  induction w as [|o w IH]; intros Hs; [done|]. apply sorted_cons in Hs as [Ho Hs].
  rewrite filter_cons. case_decide; [|by apply IH].
  intros i j x y Hij Hi Hj. destruct j as [|j]; [lia|]. simpl in Hj. destruct i as [|i]; simpl in Hi.
  - injection Hi as <-. rewrite list.Forall_forall in Ho. apply Ho.
    by apply list_elem_of_lookup_2, list_elem_of_filter in Hj as [_ ?].
  - eapply (IH Hs i j); [lia|done..].
Qed.

(** The reports since the breaker last closed: the reference the window is
    compared with.  A report while half-open that succeeds starts afresh. *)
Definition log_step (b : BreakerInner) (log : list (Z * bool)) (o : op) : list (Z * bool) :=
  match o with
  | Report _ now failed =>
      match state b, failed with
      | HalfOpen _, false => []
      | _, _ => log ++ [(now, failed)]
      end
  | _ => log
  end.

Fixpoint log_run (b : BreakerInner) (log : list (Z * bool)) (os : list op) : list (Z * bool) :=
  match os with
  | [] => log
  | o :: os => log_run (step b o).1 (log_step b log o) os
  end.

(** Times never decrease along a run that starts at [t]. *)
Fixpoint monotone (t : Z) (os : list op) : Prop :=
  match os with
  | [] => True
  | o :: os => t <= op_time o ∧ monotone (op_time o) os
  end.

Definition last_time (t : Z) (os : list op) : Z :=
  match list.last os with
  | Some o => op_time o
  | None => t
  end.

(** The window and the log agree on the last minute. *)
Definition window_ok (t : Z) (b : BreakerInner) (log : list (Z * bool)) : Prop :=
  sorted log ∧ Forall (λ x, x.1 <= t) log ∧
  window b = filter (λ o, expired t o = false) log.

Lemma filter_expired t t' (l : list (Z * bool)) :
  t <= t' → filter (λ o, expired t' o = false) (filter (λ o, expired t o = false) l) =
  filter (λ o, expired t' o = false) l.
Proof.
  intros Ht. rewrite list_filter_filter. apply list_filter_iff. intros x. split; [by intros [? ?]|].
  intros Hx. split; [done|]. unfold expired, saturating_sub in *. rewrite Z.leb_gt in *. lia.
Qed.

Lemma window_ok_prune t t' b log :
  window_ok t b log → t <= t' →
  prune t' (window b) = filter (λ o, expired t' o = false) log.
Proof.
  intros (Hs & _ & ->) Ht. rewrite prune_filter by (by apply sorted_filter). by apply filter_expired.
Qed.

Lemma window_ok_step t b log o :
  window_ok t b log → t <= op_time o → window_ok (op_time o) (step b o).1 (log_step b log o).
Proof.
  intros Hok Ht. pose proof (window_ok_prune _ _ _ _ Hok Ht) as Hp. destruct Hok as (Hs & Hl & _).
  assert (Hle : Forall (λ x, x.1 <= op_time o) log).
  { eapply list.Forall_impl; [exact Hl|]. simpl. lia. }
  assert (Hgen : ∀ f, window_ok (op_time o)
    (Breaker (state b) (prune (op_time o) (window b) ++ [(op_time o, f)])) (log ++ [(op_time o, f)])).
  { intros f. split; [by apply sorted_snoc|]. split.
    - apply list.Forall_app. split; [done|]. constructor; [simpl; lia|constructor].
    - simpl. rewrite Hp, list.filter_app. f_equal. rewrite filter_cons_True; [done|].
      unfold expired, saturating_sub, BREAKER_WINDOW_MS. simpl. apply Z.leb_gt. lia. }
  destruct o as [params now|params now failed|now]; simpl in *.
  - unfold check. repeat case_match; simplify_eq/=; (split; [done|split; [done|exact Hp]]).
  - unfold report. specialize (Hgen failed) as (? & ? & Hw). simpl in Hw.
    destruct (state b); [|split; [done|split; done]|].
    + destruct failed; simpl; [|split; [done|split; done]].
      case_match; (split; [done|split; done]).
    + destruct failed; simpl; [split; [done|split; done]|].
      split; [by intros i j x y _ Hi|]. split; [constructor|done].
  - split; [done|]. split; [done|]. exact Hp.
Qed.

(** C6: as long as the clock does not step back, the window holds exactly the
    outcomes of the last 60 seconds reported since the breaker last closed, in
    order, whatever calls were made. *)
Theorem window_is_last_minute t os :
  os ≠ [] → monotone t os →
  window (run new os).1 = filter (λ o, expired (last_time t os) o = false) (log_run new [] os).
Proof.
  intros Hne Hm.
  assert (Hgen : ∀ b log, window_ok t b log →
    window_ok (last_time t os) (run b os).1 (log_run b log os)).
  { clear Hne. revert t Hm. induction os as [|o os IH]; intros t Hm b log Hok; [done|].
    destruct Hm as [Ht Hm]. apply (window_ok_step _ _ _ o) in Hok; [|done].
    specialize (IH _ Hm _ _ Hok). simpl.
    destruct (step b o) as [b' d] eqn:E. simpl in *. destruct (run b' os) as [b'' ds]. simpl in *.
    unfold last_time in *. rewrite last_cons. destruct (list.last os); done. }
  apply Hgen. split; [by intros i j x y _ Hi|]. split; [constructor|done].
Qed.

(** * The state machine *)

Definition is_report (o : op) : bool :=
  match o with
  | Report _ _ _ => true
  | _ => false
  end.

Definition u32 (z : Z) : Prop := 0 <= z <= u32_max.

Definition op_ok (o : op) : Prop :=
  match o with
  | Check params _ | Report params _ _ => u32 (consecutive_failures params) ∧ u32 (half_open_probes params)
  | Observe _ => True
  end.

Lemma run_cons b o os :
  run b (o :: os) =
  ((run (step b o).1 os).1,
   match (step b o).2 with Some d => d :: (run (step b o).1 os).2 | None => (run (step b o).1 os).2 end).
Proof. simpl. destruct (step b o) as [b' d]. simpl. by destruct (run b' os). Qed.

(** An open breaker fails fast until its cooling-off elapses: every request
    checked before then is rejected with the time left, and no outcome that
    still arrives, success or failure, changes the state. *)
Theorem open_fails_fast b until os :
  state b = Open until → Forall (λ o, op_time o < until) os →
  state (run b os).1 = Open until ∧
  (run b os).2 = omap (λ o, match o with Check _ now => Some (Reject (until - now)) | _ => None end) os.
Proof.
  intros Hb Hos. revert b Hb. induction Hos as [|o os Ho _ IH]; intros b Hb; [done|].
  rewrite run_cons. assert (state (step b o).1 = Open until ∧
    (step b o).2 = match o with Check _ now => Some (Reject (until - now)) | _ => None end) as [Hs Hd].
  { destruct o as [params now|params now failed|now]; simpl in *.
    - unfold check. rewrite Hb, (proj2 (Z.ltb_lt now until)) by done. done.
    - unfold report. by rewrite Hb.
    - done. }
  destruct (IH _ Hs) as [Hst Hds]. split; [done|]. simpl. rewrite Hd, Hds. by destruct o.
Qed.

Lemma admitted_cons d ds : admitted (d :: ds) = (if allowed d then 1 else 0) + admitted ds.
Proof. unfold admitted. rewrite filter_cons. destruct (allowed d); simpl; lia. Qed.

Lemma admitted_0 ds : admitted ds = 0 → Forall (λ d, allowed d = false) ds.
Proof.
  induction ds as [|d ds IH]; intros H; [constructor|]. rewrite admitted_cons in H.
  unfold admitted in *. destruct (allowed d) eqn:E; [lia|]. constructor; [done|]. by apply IH.
Qed.

(** While no outcome is reported, a half-open breaker with [k] probes left
    admits at most [k] requests. *)
Lemma half_open_bound b k os :
  0 <= k → state b = HalfOpen k → Forall (λ o, is_report o = false) os →
  ∃ k', state (run b os).1 = HalfOpen k' ∧ 0 <= k' ∧
    admitted (run b os).2 = k - k'.
Proof.
  intros Hk Hb Hos. revert b k Hk Hb. induction Hos as [|o os Ho _ IH]; intros b k Hk Hb.
  - exists k. simpl. split; [done|]. split; [done|]. rewrite Z.sub_diag. done.
  - rewrite run_cons. destruct o as [params now|params now failed|now]; [|done|].
    + simpl. unfold check. rewrite Hb. destruct (Z.eqb_spec k 0) as [->|Hne]; simpl.
      * destruct (IH (Breaker (state b) (prune now (window b))) 0) as (k' & ? & ? & Hc); [done | done | ].
        rewrite Hb in *. exists k'. done.
      * destruct (IH (Breaker (HalfOpen (k - 1)) (prune now (window b))) (k - 1)) as (k' & ? & ? & Hc);
          [lia | done | ].
        exists k'. split; [done|]. split; [done|]. rewrite admitted_cons. simpl. lia.
    + simpl. by apply IH.
Qed.

(** From the moment a breaker opened until an outcome is reported, at most
    [half_open_probes] requests are admitted (one when it is 0). *)
Theorem probes_bounded b until params os :
  state b = Open until → 0 <= half_open_probes params →
  Forall (λ o, match o with Check p _ => p = params | Report _ _ _ => False | Observe _ => True end) os →
  admitted (run b os).2 <= Z.max 1 (half_open_probes params).
Proof.
  intros Hb Hp Hos. revert b Hb. induction Hos as [|o os Ho Hos IH]; intros b Hb; [unfold admitted; simpl; lia|].
  rewrite run_cons. destruct o as [p now|p now failed|now]; [subst p|done|].
  - simpl. unfold check. rewrite Hb. destruct (Z.ltb_spec now until); simpl; [by apply IH|].
    destruct (half_open_bound (Breaker (HalfOpen (saturating_sub (half_open_probes params) 1))
      (prune now (window b))) (saturating_sub (half_open_probes params) 1) os) as (k' & _ & Hk' & Hc).
    + unfold saturating_sub. lia.
    + done.
    + eapply list.Forall_impl; [exact Hos|]. by intros [].
    + rewrite admitted_cons. simpl. unfold saturating_sub in *. lia.
  - simpl. by apply IH.
Qed.

(** A probe whose outcome is never reported is never given back: once all
    are out, the breaker rejects every request for ever, whatever time
    passes. *)
Theorem half_open_stuck b os :
  state b = HalfOpen 0 → Forall (λ o, is_report o = false) os →
  state (run b os).1 = HalfOpen 0 ∧ Forall (λ d, allowed d = false) (run b os).2.
Proof.
  intros Hb Hos. destruct (half_open_bound b 0 os) as (k' & Hs & Hk & Hc); [done..|].
  assert (k' = 0) as -> by (unfold admitted in Hc; lia). split; [done|]. apply admitted_0. lia.
Qed.

(** The streak stays below the threshold it was last compared with. *)
Lemma step_streak b o c :
  op_ok o → (∀ c, state b = Closed c → 0 <= c < u32_max) →
  state (step b o).1 = Closed c → 0 <= c < u32_max.
Proof.
  intros Ho Hb Hs. destruct o as [params now|params now failed|now]; simpl in *.
  - unfold check in Hs. destruct (state b) eqn:E; repeat case_match; simplify_eq/=; naive_solver.
  - unfold report in Hs. destruct (state b) as [c0|u|k] eqn:E.
    + specialize (Hb _ eq_refl). destruct failed; simpl in Hs; [|simplify_eq/=; unfold u32_max; lia].
      unfold add_u32 in Hs. rewrite Z.mod_small in Hs by (unfold u32_max in *; lia).
      destruct (consecutive_failures params <=? c0 + 1) eqn:Ec; simpl in Hs; [done|].
      destruct (ratio_tripped params _); simplify_eq/=. apply Z.leb_gt in Ec.
      destruct Ho as [[??] _]. lia.
    + done.
    + destruct failed; simplify_eq/=. unfold u32_max. lia.
  - rewrite Hs in Hb. by apply Hb.
Qed.

(** The failure streak never overflows its 32 bits, across any calls and
    parameter changes. *)
Theorem streak_no_overflow os c :
  Forall op_ok os → state (run new os).1 = Closed c → add_u32 c 1 = c + 1.
Proof.
  intros Hos Hs.
  assert (Hinv : ∀ b, (∀ c, state b = Closed c → 0 <= c < u32_max) →
    ∀ c, state (run b os).1 = Closed c → 0 <= c < u32_max).
  { clear Hs c. induction Hos as [|o os Ho _ IH]; intros b Hb c Hs; [by apply Hb|].
    rewrite run_cons in Hs. simpl in Hs. eapply IH; [|exact Hs]. intros c' Hc'.
    by eapply step_streak. }
  assert (0 <= c < u32_max) as Hc.
  { apply (Hinv new); [|done]. intros c' Hc'. injection Hc' as <-. unfold u32_max. lia. }
  unfold add_u32. rewrite Z.mod_small; [done|]. unfold u32_max in Hc. lia.
Qed.

Lemma open_stays b until params ts :
  state b = Open until → ∃ u, state (run b (map (λ t, Report params t true) ts)).1 = Open u.
Proof.
  revert b until. induction ts as [|t ts IH]; intros b until Hb; [by eauto|].
  cbn [map]. rewrite run_cons. simpl. unfold report. rewrite Hb. simpl. by eapply IH.
Qed.

(** Below the observation volume of the ratio rule, consecutive failures
    open the breaker exactly when they reach the threshold. *)
Theorem streak_trips params ts :
  1 <= consecutive_failures params <= u32_max → Z.of_nat (length ts) < error_volume params →
  match state (run new (map (λ t, Report params t true) ts)).1 with
  | Closed c => c = Z.of_nat (length ts) ∧ c < consecutive_failures params
  | Open _ => consecutive_failures params <= Z.of_nat (length ts)
  | HalfOpen _ => False
  end.
Proof.
  intros Hcf Hv.
  assert (Hgen : ∀ b c, state b = Closed c → 0 <= c < consecutive_failures params →
    Z.of_nat (length (window b)) + Z.of_nat (length ts) < error_volume params →
    match state (run b (map (λ t, Report params t true) ts)).1 with
    | Closed c' => c' = c + Z.of_nat (length ts) ∧ c' < consecutive_failures params
    | Open _ => consecutive_failures params <= c + Z.of_nat (length ts)
    | HalfOpen _ => False
    end); [|by apply (Hgen new 0); simpl; [done|lia|lia]].
  clear Hv. induction ts as [|t ts IH]; intros b c Hb Hc Hv.
  - simpl. rewrite Hb. lia.
  - cbn [map]. rewrite run_cons. simpl. unfold report. rewrite Hb. simpl negb. cbv match.
    unfold add_u32. rewrite Z.mod_small by (unfold u32_max in *; lia).
    set (w := prune t (window b) ++ [(t, true)]).
    assert (Hw : (length w <= length (window b) + 1)%nat).
    { unfold w. rewrite length_app. simpl. assert (length (prune t (window b)) <= length (window b))%nat; [|lia].
      clear. induction (window b) as [|x l IHl]; simpl; [done|]. destruct (expired t x); simpl; lia. }
    simpl in Hv. destruct (Z.leb_spec (consecutive_failures params) (c + 1)) as [Hle|Hgt]; simpl.
    + destruct (open_stays (Breaker (Open (saturating_add t (open_ms params))) w) _ params ts eq_refl)
        as [u' ->]. lia.
    + assert (ratio_tripped params w = false) as ->.
      { unfold ratio_tripped. rewrite (proj2 (Z.leb_gt _ _)); [done|]. lia. }
      specialize (IH (Breaker (Closed (c + 1)) w) (c + 1) eq_refl). simpl in IH.
      specialize (IH ltac:(lia) ltac:(lia)). simpl.
      destruct (state _); [destruct IH; split; lia|lia|done].
Qed.

(** The state a transition event announces. *)
Definition same_kind (a b : BreakerState) : bool :=
  match a, b with
  | Closed _, Closed _ | Open _, Open _ | HalfOpen _, HalfOpen _ => true
  | _, _ => false
  end.

Definition announces (e : event) (s : BreakerState) : bool :=
  match e, s with
  | BreakerHalfOpen, HalfOpen _ | BreakerOpened _, Open _ | BreakerClosed _, Closed _ => true
  | _, _ => false
  end.

(** A call emits an event exactly when it changes the kind of state, and
    the event names the new one. *)
Theorem events_match_transitions params now failed b :
  (let '(_, b', es) := check params now b in
   if same_kind (state b) (state b') then es = []
   else ∃ e, es = [e] ∧ announces e (state b') = true) ∧
  (let '(b', es) := report params now failed b in
   if same_kind (state b) (state b') then es = []
   else ∃ e, es = [e] ∧ announces e (state b') = true).
Proof.
  split.
  - unfold check. destruct (state b) as [c|u|k] eqn:E; simpl; rewrite ?E; [done| |].
    + destruct (now <? u); simpl; rewrite ?E; [done|]. by eexists.
    + destruct (k =? 0); simpl; rewrite ?E; done.
  - unfold report. destruct (state b) as [c|u|k] eqn:E; simpl; rewrite ?E; [|done|].
    + destruct failed; simpl; [|done]. destruct (_ || _); simpl; [by eexists|done].
    + destruct failed; simpl; by eexists.
Qed.

(** * Concrete instances *)

Definition sample_params : BreakerParams := Params 2 (num_of_Z 1) 10 1000 1.

(** Two failures a minute apart, and a look later on. *)
Definition sample_ops : list op :=
  [Report sample_params 0 true; Report sample_params 60000 false; Observe 60001].

Lemma window_is_last_minute_witness :
  window (run new sample_ops).1 =
  filter (λ o, expired (last_time 0 sample_ops) o = false) (log_run new [] sample_ops).
Proof.
  apply (window_is_last_minute 0 sample_ops); [discriminate|]. vm_compute. repeat split; discriminate.
Defined.

Definition sample_open : BreakerInner := Breaker (Open 1000) [].

Lemma open_fails_fast_witness :
  state (run sample_open [Check sample_params 400; Report sample_params 500 false]).1 = Open 1000 ∧
  (run sample_open [Check sample_params 400; Report sample_params 500 false]).2 = [Reject 600].
Proof.
  apply (open_fails_fast sample_open 1000 [Check sample_params 400; Report sample_params 500 false]).
  - reflexivity.
  - repeat constructor.
Defined.

Lemma probes_bounded_witness :
  admitted (run sample_open [Check sample_params 1000; Check sample_params 1001]).2 <= Z.max 1 1.
Proof.
  apply (probes_bounded sample_open 1000 sample_params).
  - reflexivity.
  - discriminate.
  - repeat constructor.
Defined.

Lemma half_open_stuck_witness :
  state (run (Breaker (HalfOpen 0) []) [Check sample_params 1000000]).1 = HalfOpen 0 ∧
  Forall (λ d, allowed d = false) (run (Breaker (HalfOpen 0) []) [Check sample_params 1000000]).2.
Proof. apply half_open_stuck; [reflexivity|repeat constructor]. Defined.

Lemma streak_no_overflow_witness : add_u32 1 1 = 1 + 1.
Proof.
  apply (streak_no_overflow [Report sample_params 0 true] 1); [|reflexivity].
  constructor; [|constructor]. repeat split; discriminate.
Defined.

Lemma streak_trips_witness :
  match state (run new (map (λ t, Report sample_params t true) [5; 6])).1 with
  | Closed c => c = 2 ∧ c < 2
  | Open _ => 2 <= 2
  | HalfOpen _ => False
  end.
Proof. apply (streak_trips sample_params [5; 6]); [split; discriminate|reflexivity]. Defined.
