(* ===== verification/Hash.v ===== *)
(** The hash of the data plane (crates/dwara-core/src/dataplane/balance.rs):
    64-bit FNV-1a with a murmur3-style finalizer, which the service split, the
    consistent-hash ring and the Maglev table share. *)

From S2P Require Import Prelude.
Local Open Scope Z_scope.

(** * 64-bit words *)

Definition u64 (z : Z) : Prop := 0 <= z < 2 ^ 64.

Definition wrapping_mul (a b : Z) : Z := (a * b) mod 2 ^ 64.

(** [a += b] on [u64] in a release build. *)
Definition add_u64 (a b : Z) : Z := (a + b) mod 2 ^ 64.

(** The bytes of a Rust string: UTF-8, so the characters of a Rocq string. *)
Fixpoint as_bytes (s : string) : list Z :=
  match s with
  | EmptyString => []
  | String c s => Z.of_N (Ascii.N_of_ascii c) :: as_bytes s
  end.

(** [port.to_be_bytes()] of a [u16]. *)
Definition to_be_bytes16 (port : Z) : list Z := [Z.shiftr port 8; Z.land port 255].

(** * FNV-1a *)

Module Fnv1a.
Definition new : Z := 0xcbf29ce484222325.

Fixpoint update (h : Z) (bytes : list Z) : Z :=
  match bytes with
  | [] => h
  | b :: bytes => update (wrapping_mul (Z.lxor h b) 0x100000001b3) bytes
  end.

(** [x ^= x >> n] *)
Definition xorshift (n x : Z) : Z := Z.lxor x (Z.shiftr x n).

Definition finish (h : Z) : Z :=
  let x := xorshift 33 h in
  let x := wrapping_mul x 0xff51afd7ed558ccd in
  let x := xorshift 33 x in
  let x := wrapping_mul x 0xc4ceb9fe1a85ec53 in
  xorshift 33 x.
End Fnv1a.

Definition key_hash (key : string) : Z := Fnv1a.finish (Fnv1a.update Fnv1a.new (as_bytes key)).

(** * Results stay 64-bit words *)

Lemma wrapping_mul_u64 a b : u64 (wrapping_mul a b).
Proof. apply Z.mod_pos_bound. lia. Qed.

Lemma lxor_u64 a b : u64 a → u64 b → u64 (Z.lxor a b).
Proof.
  intros [Ha Ha'] [Hb Hb']. assert (Hn : 0 <= Z.lxor a b) by (apply Z.lxor_nonneg; lia).
  split; [done|]. destruct (Z.eq_dec (Z.lxor a b) 0) as [->|Hne]; [lia|].
  apply Z.log2_lt_pow2; [lia|]. eapply Z.le_lt_trans; [by apply Z.log2_lxor|].
  assert (Hlog : ∀ x, 0 <= x < 2 ^ 64 → Z.log2 x < 64).
  { intros x Hx. destruct (Z.eq_dec x 0) as [->|]; [done|]. apply Z.log2_lt_pow2; lia. }
  apply Z.max_lub_lt; by apply Hlog.
Qed.

Lemma shiftr_u64 a n : u64 a → 0 <= n → u64 (Z.shiftr a n).
Proof.
  intros [Ha Ha'] Hn. split; [by apply Z.shiftr_nonneg|]. rewrite Z.shiftr_div_pow2 by done.
  eapply Z.le_lt_trans; [|exact Ha']. apply Z.div_le_upper_bound; [lia|].
  assert (0 < 2 ^ n) by lia. nia.
Qed.

Lemma xorshift_u64 n a : u64 a → 0 <= n → u64 (Fnv1a.xorshift n a).
Proof. intros Ha Hn. apply lxor_u64; [done|]. by apply shiftr_u64. Qed.

Lemma finish_u64 h : u64 h → u64 (Fnv1a.finish h).
Proof.
  intros Hh. unfold Fnv1a.finish. by repeat (apply xorshift_u64 || apply wrapping_mul_u64).
Qed.

Lemma update_u64 h bytes : u64 h → u64 (Fnv1a.update h bytes).
Proof.
  revert h. induction bytes as [|b bytes IH]; intros h Hh; [done|]. apply IH, wrapping_mul_u64.
Qed.

Lemma key_hash_u64 key : u64 (key_hash key).
Proof. apply finish_u64, update_u64. by split. Qed.

(** * The finalizer is a bijection on words *)

Lemma xorshift_inj a b :
  u64 a → u64 b → Fnv1a.xorshift 33 a = Fnv1a.xorshift 33 b → a = b.
Proof.
  intros Ha Hb Heq. unfold Fnv1a.xorshift in Heq.
  assert (Hhigh : ∀ x, u64 x → Z.shiftr (Z.lxor x (Z.shiftr x 33)) 33 = Z.shiftr x 33).
  { intros x [Hx Hx']. rewrite Z.shiftr_lxor, Z.shiftr_shiftr by lia. change (33 + 33) with 66.
    assert (Z.shiftr x 66 = 0) as ->; [|apply Z.lxor_0_r].
    rewrite Z.shiftr_div_pow2 by lia. apply Z.div_small. lia. }
  assert (Hs : Z.shiftr a 33 = Z.shiftr b 33) by (rewrite <- (Hhigh a), <- (Hhigh b), Heq; done).
  rewrite Hs in Heq. apply (f_equal (λ x, Z.lxor x (Z.shiftr b 33))) in Heq.
  by rewrite !Z.lxor_assoc, Z.lxor_nilpotent, !Z.lxor_0_r in Heq.
Qed.

(** Multiplication by [c] is undone by multiplication by an inverse [d]. *)
Lemma wrapping_mul_inj c d a b :
  (c * d) mod 2 ^ 64 = 1 → u64 a → u64 b → wrapping_mul a c = wrapping_mul b c → a = b.
Proof.
  intros Hcd Ha Hb Heq. unfold wrapping_mul in Heq.
  assert (Hinv : ∀ x, u64 x → ((x * c) mod 2 ^ 64 * d) mod 2 ^ 64 = x).
  { intros x Hx. rewrite Z.mul_mod_idemp_l, <- Z.mul_assoc, <- Z.mul_mod_idemp_r, Hcd, Z.mul_1_r by lia.
    by apply Z.mod_small. }
  by rewrite <- (Hinv a), <- (Hinv b), Heq.
Qed.

(** The finalizer loses nothing: two different FNV-1a states have different
    hashes, so it adds no collision of its own. *)
Theorem finish_injective a b : u64 a → u64 b → a ≠ b → Fnv1a.finish a ≠ Fnv1a.finish b.
Proof.
  intros Ha Hb Hne Heq. apply Hne.
  assert (Hx : ∀ x, u64 x → u64 (Fnv1a.xorshift 33 x)) by (intros x Hx; by apply xorshift_u64).
  apply xorshift_inj in Heq; [|apply wrapping_mul_u64..].
  apply (wrapping_mul_inj _ 11291846944257947611) in Heq; [|done|apply Hx, wrapping_mul_u64..].
  apply xorshift_inj in Heq; [|apply wrapping_mul_u64..].
  apply (wrapping_mul_inj _ 5725274745694666757) in Heq; [|done|by apply Hx..].
  by apply xorshift_inj in Heq.
Qed.

Lemma finish_injective_witness : Fnv1a.finish 1 ≠ Fnv1a.finish 2.
Proof.
  apply finish_injective; [split; [discriminate|reflexivity]..|discriminate].
Defined.
