(* ===== verification/Split.v ===== *)
(** The weighted traffic split of a service
    (crates/dwara-core/src/dataplane/split.rs): compiling the targets, the
    deterministic pick, and how much of the key space a change of weights
    moves. *)

From S2P Require Import Prelude Hash.
Local Open Scope Z_scope.

(** How a Rust expression panics here. *)
Inductive panic : Type :=
  | RemByZero
  | IndexOutOfBounds.

(** * Data and operations

    [H] stands for [Arc<UpstreamHandle>]. *)

Record SplitEntry (H : Type) : Type := Entry { handle : H; weight : Z; bound : Z }.
Arguments Entry {_} _ _ _.
Arguments handle {_} _.
Arguments weight {_} _.
Arguments bound {_} _.

Record ServiceSplit (H : Type) : Type := Split { entries : list (SplitEntry H); total : Z }.
Arguments Split {_} _ _.
Arguments entries {_} _.
Arguments total {_} _.

Section split.
Context {H : Type}.
Implicit Types (e : SplitEntry H) (s : ServiceSplit H) (ts : list (H * Z)).

(** The loop of [new]: the entries, and the running total. *)
Fixpoint compile (acc : Z) ts : list (SplitEntry H) * Z :=
  match ts with
  | [] => ([], acc)
  | (h, w) :: ts =>
      let acc := add_u64 acc w in
      let '(es, t) := compile acc ts in
      (Entry h w acc :: es, t)
  end.

Definition new ts : ServiceSplit H := let '(es, t) := compile 0 ts in Split es t.

Definition total_weight s : Z := total s.

Definition weights s : list Z := map weight (entries s).

(** The walk of [pick]: the first entry whose bound exceeds the slot. *)
Fixpoint walk (slot : Z) (es : list (SplitEntry H)) : option H :=
  match es with
  | [] => None
  | e :: es => if slot <? bound e then Some (handle e) else walk slot es
  end.

Definition pick s (key : string) : result panic H :=
  if total s =? 0 then Err RemByZero
  else
    match walk (key_hash key mod total s) (entries s) with
    | Some h => Ok h
    | None =>
        match entries s with
        | e :: _ => Ok (handle e)
        | [] => Err IndexOutOfBounds
        end
    end.

(** The walk of [pick_with_index], [i] being the index of the first entry. *)
Fixpoint walk_with_index (slot : Z) (i : nat) (es : list (SplitEntry H)) : option (H * nat) :=
  match es with
  | [] => None
  | e :: es => if slot <? bound e then Some (handle e, i) else walk_with_index slot (S i) es
  end.

Definition pick_with_index s (key : string) : result panic (H * nat) :=
  if total s =? 0 then Err RemByZero
  else
    match walk_with_index (key_hash key mod total s) 0 (entries s) with
    | Some r => Ok r
    | None =>
        match entries s with
        | e :: _ => Ok (handle e, 0%nat)
        | [] => Err IndexOutOfBounds
        end
    end.

(** * Specification: the slots of each target *)

Definition sum (ws : list Z) : Z := foldr Z.add 0 ws.

(** What validation guarantees: [u32] weights whose sum is positive and far
    from overflowing. *)
Definition valid ts : Prop := Forall (λ t, 0 <= t.2) ts ∧ 0 < sum (map snd ts) < 2 ^ 64.

(** The first slot of target [i]; target [i] owns [start ts i, start ts (S i)). *)
Definition start ts (i : nat) : Z := sum (map snd (take i ts)).

(** The target that serves a slot. *)
Definition slot_target s (slot : Z) : option nat := snd <$> walk_with_index slot 0 (entries s).

(** How many slots below [n] satisfy a predicate. *)
Definition count (n : Z) (P : Z → Prop) `{!∀ x, Decision (P x)} : Z :=
  Z.of_nat (length (filter P (seqZ 0 n))).

(** The slots, hence the share of the hash space, that target [i] serves. *)
Definition slots_of s (i : nat) : Z := count (total s) (λ x, slot_target s x = Some i).

(** The slots that two splits of the same total give to different targets. *)
Definition moved s s' : Z := count (total s) (λ x, slot_target s x ≠ slot_target s' x).

(** * Lemmas *)

Lemma sum_nonneg ts : Forall (λ t, 0 <= t.2) ts → 0 <= sum (map snd ts).
Proof. induction 1 as [|[h w] ts Hw _ IH]; simpl in *; lia. Qed.

Lemma compile_spec acc ts :
  0 <= acc → Forall (λ t, 0 <= t.2) ts → acc + sum (map snd ts) < 2 ^ 64 →
  (compile acc ts).2 = acc + sum (map snd ts) ∧
  ∀ i, (compile acc ts).1 !! i =
    (λ t : H * Z, Entry t.1 t.2 (acc + start ts (S i))) <$> ts !! i.
Proof.
  intros Ha Hts. revert acc Ha. induction Hts as [|[h w] ts Hw Hts IH]; intros acc Ha Hb.
  - split; [simpl; lia|]. by intros i.
  - pose proof (sum_nonneg _ Hts). simpl in *. unfold add_u64. rewrite Z.mod_small by lia.
    destruct (IH (acc + w)) as [Ht He]; [lia|lia|]. destruct (compile (acc + w) ts) as [es t].
    simpl in *. split; [lia|]. intros [|i]; simpl.
    + f_equal. f_equal. unfold start. simpl. lia.
    + rewrite He. destruct (ts !! i); simpl; [|done]. f_equal. f_equal. unfold start. simpl. lia.
Qed.

Lemma walk_with_index_spec slot es i :
  match walk_with_index slot i es with
  | Some (h, j) => ∃ k e, j = (i + k)%nat ∧ es !! k = Some e ∧ h = handle e ∧ slot < bound e ∧
      ∀ k' e', (k' < k)%nat → es !! k' = Some e' → bound e' <= slot
  | None => ∀ k e, es !! k = Some e → bound e <= slot
  end.
Proof.
  revert i. induction es as [|e es IH]; intros i; simpl; [done|].
  destruct (Z.ltb_spec slot (bound e)) as [Hlt|Hge].
  - exists 0%nat, e. split; [lia|]. repeat (split; [done|]). lia.
  - specialize (IH (S i)). destruct (walk_with_index slot (S i) es) as [[h j]|].
    + destruct IH as (k & e' & -> & Hk & -> & Hb & Hlow). exists (S k), e'. split; [lia|].
      repeat (split; [done|]). intros [|k'] e'' Hk' He''; simpl in He''; [by simplify_eq|].
      by apply (Hlow k'); [lia|].
    + intros [|k] e' He'; simpl in He'; [by simplify_eq|]. by eapply IH.
Qed.

Lemma walk_fst slot es i : walk slot es = fst <$> walk_with_index slot i es.
Proof. revert i. induction es as [|e es IH]; intros i; simpl; [done|]. by case_match. Qed.

Lemma new_total ts : valid ts → total (new ts) = sum (map snd ts).
Proof.
  intros [Hw Hs]. destruct (compile_spec 0 ts) as [Ht _]; [lia|done|lia|].
  unfold new. destruct (compile 0 ts). simpl in *. lia.
Qed.

Lemma new_entry ts i :
  valid ts → entries (new ts) !! i = (λ t : H * Z, Entry t.1 t.2 (start ts (S i))) <$> ts !! i.
Proof.
  intros [Hw Hs]. destruct (compile_spec 0 ts) as [_ He]; [lia|done|lia|].
  specialize (He i). unfold new. destruct (compile 0 ts). exact He.
Qed.

Lemma start_mono ts i j : Forall (λ t, 0 <= t.2) ts → (i <= j)%nat → start ts i <= start ts j.
Proof.
  intros Hts. revert i j. unfold start. induction Hts as [|[h w] ts Hw Hts IH]; intros i j Hij.
  - by rewrite !take_nil.
  - destruct i as [|i], j as [|j]; simpl; [done| |lia|].
    + pose proof (sum_nonneg (take j ts)). simpl in *. assert (0 <= sum (map snd (take j ts))); [|lia].
      by apply sum_nonneg, Forall_take.
    + specialize (IH i j). lia.
Qed.

Lemma start_S ts i t : ts !! i = Some t → start ts (S i) = start ts i + t.2.
Proof.
  unfold start. revert i. induction ts as [|t' ts IH]; intros i Hi; [done|].
  destruct i as [|i]; simpl in *; [simplify_eq; lia|].
  rewrite (IH _ Hi). lia.
Qed.

Lemma start_length ts i : (length ts <= i)%nat → start ts i = sum (map snd ts).
Proof. intros Hi. unfold start. by rewrite take_ge. Qed.

(** Target [i] serves exactly the slots of its interval. *)
Lemma slot_target_iff ts i x :
  valid ts → 0 <= x < total (new ts) →
  slot_target (new ts) x = Some i ↔ (i < length ts)%nat ∧ start ts i <= x < start ts (S i).
Proof.
  intros Hv Hx. pose proof (walk_with_index_spec x (entries (new ts)) 0) as Hw.
  rewrite new_total in Hx by done. unfold slot_target.
  pose proof (λ k, new_entry ts k Hv) as He. pose proof Hv as [Hp _].
  destruct (walk_with_index x 0 (entries (new ts))) as [[h j]|]; simpl.
  - destruct Hw as (k & e & -> & Hk & _ & Hb & Hlow). simpl. rewrite He in Hk.
    destruct (ts !! k) as [t|] eqn:Et; simplify_eq/=.
    assert (Hlt : (k < length ts)%nat) by (by eapply lookup_lt_Some).
    assert (Hle : start ts k <= x).
    { destruct k as [|k]; [unfold start; simpl; lia|].
      destruct (lookup_lt_is_Some_2 ts k) as [t' Ht']; [lia|].
      apply (Hlow k (Entry t'.1 t'.2 (start ts (S k)))); [lia|]. by rewrite He, Ht'. }
    split; [intros [= <-]; done|]. intros [Hi [Hge Hlt']]. f_equal.
    destruct (lt_eq_lt_dec k i) as [[Hki| ->]|Hik]; [|done|].
    + pose proof (start_mono ts (S k) i Hp). lia.
    + pose proof (start_mono ts (S i) k Hp). lia.
  - split; [done|]. intros [Hi [_ Hlt]].
    destruct (lookup_lt_is_Some_2 ts i Hi) as [t Ht].
    specialize (Hw i (Entry t.1 t.2 (start ts (S i)))). rewrite He, Ht in Hw.
    specialize (Hw eq_refl). simpl in Hw. lia.
Qed.

Lemma slot_target_some ts x :
  valid ts → 0 <= x < total (new ts) → ∃ i, slot_target (new ts) x = Some i.
Proof.
  intros Hv Hx. unfold slot_target. pose proof (walk_with_index_spec x (entries (new ts)) 0) as Hw.
  destruct (walk_with_index x 0 (entries (new ts))) as [[h j]|]; [by exists j|].
  rewrite new_total in Hx by done. destruct ts as [|t ts] using rev_ind; [simpl in Hx; lia|].
  specialize (Hw (length ts) (Entry t.1 t.2 (start (ts ++ [t]) (S (length ts))))).
  rewrite new_entry, lookup_app_r, Nat.sub_diag in Hw by done. specialize (Hw eq_refl). simpl in Hw.
  rewrite start_length in Hw by (rewrite length_app; simpl; lia). lia.
Qed.

(** ** Counting slots *)

Lemma count_ext n P Q `{!∀ x, Decision (P x), !∀ x, Decision (Q x)} :
  (∀ x, 0 <= x < n → P x ↔ Q x) → count n P = count n Q.
Proof.
  intros HPQ. unfold count. do 2 f_equal.
  assert (Hl : Forall (λ x, 0 <= x < n) (seqZ 0 n)).
  { apply list.Forall_forall. intros x Hx. apply elem_of_seqZ in Hx. lia. }
  induction Hl as [|x l Hx _ IH]; [done|]. rewrite !filter_cons, IH.
  by repeat case_decide; specialize (HPQ x Hx); naive_solver.
Qed.

Lemma count_interval n lo hi :
  0 <= lo <= hi → hi <= n → count n (λ x, lo <= x < hi) = hi - lo.
Proof.
  intros Hlo Hhi. unfold count. replace n with (lo + ((hi - lo) + (n - hi))) by lia.
  rewrite !seqZ_app, !list.filter_app by lia.
  rewrite (list_filter_none _ (seqZ 0 lo)), (list_filter_none _ (seqZ _ (n - hi))), list_filter_true.
  - rewrite !length_app, length_seqZ. simpl. lia.
  - apply list.Forall_forall. intros x Hx. apply elem_of_seqZ in Hx. lia.
  - apply list.Forall_forall. intros x Hx. apply elem_of_seqZ in Hx. lia.
  - apply list.Forall_forall. intros x Hx. apply elem_of_seqZ in Hx. lia.
Qed.

Lemma count_or n P Q `{!∀ x, Decision (P x), !∀ x, Decision (Q x)} :
  count n (λ x, P x ∨ Q x) <= count n P + count n Q.
Proof.
  unfold count. induction (seqZ 0 n) as [|x l IH]; [simpl; lia|]. rewrite !filter_cons.
  repeat case_decide; simpl; (lia || naive_solver).
Qed.

Lemma count_mono n P Q `{!∀ x, Decision (P x), !∀ x, Decision (Q x)} :
  (∀ x, 0 <= x < n → P x → Q x) → count n P <= count n Q.
Proof.
  intros HPQ. rewrite (count_ext n P (λ x, P x ∧ Q x)) by naive_solver.
  unfold count. induction (seqZ 0 n) as [|x l IH]; [simpl; lia|]. rewrite !filter_cons.
  repeat case_decide; simpl; (lia || naive_solver).
Qed.

(** ** Displacement *)

(** A slot that moved lies between the two positions of some boundary. *)
Lemma moved_between ts ts' x :
  valid ts → valid ts' → total (new ts) = total (new ts') → length ts = length ts' →
  0 <= x < total (new ts) → slot_target (new ts) x ≠ slot_target (new ts') x →
  Exists (λ k, Z.min (start ts k) (start ts' k) <= x < Z.max (start ts k) (start ts' k))
    (seq 1 (length ts - 1)).
Proof.
  intros Hv Hv' Ht Hl Hx Hne.
  destruct (slot_target_some ts x Hv Hx) as [i Hi].
  destruct (slot_target_some ts' x Hv') as [j Hj]; [by rewrite <- Ht|].
  apply slot_target_iff in Hi as (Hil & Hi1 & Hi2); [|done..].
  apply slot_target_iff in Hj as (Hjl & Hj1 & Hj2); [|done|by rewrite <- Ht].
  apply list.Exists_exists. pose proof Hv as [Hp _]. pose proof Hv' as [Hp' _].
  destruct (lt_eq_lt_dec i j) as [[Hij| ->]|Hij].
  - exists (S i). split; [apply elem_of_seq; lia|]. pose proof (start_mono ts' (S i) j Hp'). lia.
  - exfalso. apply Hne. transitivity (Some j); [|symmetry]; apply slot_target_iff; try done.
    by rewrite <- Ht.
  - exists (S j). split; [apply elem_of_seq; lia|]. pose proof (start_mono ts (S j) i Hp). lia.
Qed.

Lemma start_bounds ts k : valid ts → 0 <= start ts k <= total (new ts).
Proof.
  intros Hv. rewrite new_total by done. destruct Hv as [Hp _]. split; [by apply (start_mono ts 0); [|lia]|].
  rewrite <- (start_length ts (k + length ts)) by lia. apply start_mono; [done|lia].
Qed.

Lemma count_exists n (l : list nat) (lo hi : nat → Z) :
  (∀ k, 0 <= lo k <= hi k ∧ hi k <= n) →
  count n (λ x, Exists (λ k, lo k <= x < hi k) l) <= sum (map (λ k, hi k - lo k) l).
Proof.
  intros Hk. induction l as [|k l IH]; simpl.
  - rewrite (count_ext n _ (λ x, 0 <= x < 0)).
    + rewrite (count_interval n 0 0); specialize (Hk 0%nat); lia.
    + intros x _. rewrite List.Exists_nil. lia.
  - rewrite (count_ext n _ (λ x, lo k <= x < hi k ∨ Exists (λ k, lo k <= x < hi k) l)).
    + etransitivity; [apply count_or|]. rewrite count_interval by apply Hk. lia.
    + intros x _. apply List.Exists_cons.
Qed.

(** What [pick_with_index] returns. *)
Lemma pick_slot ts key :
  valid ts →
  ∃ i h w, pick_with_index (new ts) key = Ok (h, i) ∧ pick (new ts) key = Ok h ∧
    ts !! i = Some (h, w) ∧ slot_target (new ts) (key_hash key mod total (new ts)) = Some i.
Proof.
  intros Hv. pose proof (new_total ts Hv) as Ht. destruct Hv as [Hp Hs]. pose proof (conj Hp Hs) as Hv.
  assert (Hx : 0 <= key_hash key mod total (new ts) < total (new ts)) by (apply Z.mod_pos_bound; lia).
  destruct (slot_target_some ts _ Hv Hx) as [i Hi].
  pose proof (walk_with_index_spec (key_hash key mod total (new ts)) (entries (new ts)) 0) as Hw.
  unfold pick_with_index, pick. rewrite (proj2 (Z.eqb_neq (total (new ts)) 0)) by lia.
  rewrite (walk_fst _ _ 0). unfold slot_target in *.
  destruct (walk_with_index _ 0 _) as [[h j]|]; [|done]. simpl in Hi. simplify_eq.
  destruct Hw as (k & e & -> & Hk & -> & _). rewrite new_entry in Hk by done.
  destruct (ts !! k) as [[h w]|] eqn:E; simplify_eq/=. by exists k, h, w.
Qed.
End split.

(** * Properties *)

(** The pick of a validated split never panics and always serves a target
    with a positive weight, the one whose interval holds [hash % total]; the
    index [pick_with_index] adds is that target's, and a parked target (weight
    0) is never served. *)
Theorem pick_owner {H : Type} (ts : list (H * Z)) (key : string) :
  valid ts →
  ∃ i h w, pick (new ts) key = Ok h ∧ pick_with_index (new ts) key = Ok (h, i) ∧
    ts !! i = Some (h, w) ∧ 0 < w ∧
    start ts i <= key_hash key mod sum (map snd ts) < start ts i + w.
Proof.
  intros Hv. destruct (pick_slot ts key Hv) as (i & h & w & Hpi & Hp & Hl & Hs).
  pose proof (new_total ts Hv) as Ht. apply slot_target_iff in Hs as (_ & Hs); [|done|].
  - rewrite (start_S _ _ _ Hl), Ht in Hs. simpl in Hs.
    exists i, h, w. repeat (split; [done|]). lia.
  - rewrite Ht. apply Z.mod_pos_bound. destruct Hv. lia.
Qed.

(** The weights are exact: of the [total] slots, target [i] serves as many
    as its weight. *)
Theorem slots_exact {H : Type} (ts : list (H * Z)) i h w :
  valid ts → ts !! i = Some (h, w) → slots_of (new ts) i = w.
Proof.
  intros Hv Hl. pose proof Hv as [Hp _]. rewrite list.Forall_forall in Hp.
  specialize (Hp (h, w) (list_elem_of_lookup_2 _ _ _ Hl)).
  unfold slots_of. rewrite (count_ext _ _ (λ x, start ts i <= x < start ts (S i))).
  - rewrite count_interval.
    + rewrite (start_S _ _ _ Hl). simpl. lia.
    + pose proof (start_bounds ts i Hv). rewrite (start_S _ _ _ Hl). simpl in *. lia.
    + apply start_bounds. done.
  - intros x Hx. rewrite slot_target_iff by done. apply lookup_lt_Some in Hl. naive_solver.
Qed.

(** Re-balancing with the total kept moves at most as many slots as the
    boundaries between neighbours shift, all boundaries together. *)
Theorem rebalance_bound {H : Type} (ts ts' : list (H * Z)) :
  valid ts → valid ts' → total (new ts) = total (new ts') → length ts = length ts' →
  moved (new ts) (new ts') <=
  sum (map (λ k, Z.abs (start ts k - start ts' k)) (seq 1 (length ts - 1))).
Proof.
  intros Hv Hv' Ht Hl. unfold moved. etransitivity.
  - apply (count_mono _ _ (λ x, Exists (λ k, Z.min (start ts k) (start ts' k) <= x <
      Z.max (start ts k) (start ts' k)) (seq 1 (length ts - 1)))).
    intros x Hx Hne. by apply moved_between.
  - etransitivity; [apply count_exists|].
    + intros k. pose proof (start_bounds ts k Hv). pose proof (start_bounds ts' k Hv'). lia.
    + apply Z.eq_le_incl. f_equal. apply map_ext. lia.
Qed.

(** For a pair of targets whose total is kept, exactly the changed share
    moves: 95/5 to 90/10 moves 5 slots in 100, a blue-green flip all. *)
Theorem rebalance_pair {H : Type} (h0 h1 : H) a b a' b' :
  valid [(h0, a); (h1, b)] → valid [(h0, a'); (h1, b')] → a + b = a' + b' →
  moved (new [(h0, a); (h1, b)]) (new [(h0, a'); (h1, b')]) = Z.abs (a - a').
Proof.
  intros Hv Hv' Hab. pose proof (new_total _ Hv) as Ht. pose proof (new_total _ Hv') as Ht'.
  change (sum _) with (a + (b + 0)) in Ht. change (sum _) with (a' + (b' + 0)) in Ht'.
  pose proof (start_bounds _ 1 Hv) as H1. pose proof (start_bounds _ 1 Hv') as H1'.
  change (start [(h0, a); (h1, b)] 1) with (a + 0) in H1.
  change (start [(h0, a'); (h1, b')] 1) with (a' + 0) in H1'.
  unfold moved. rewrite (count_ext _ _ (λ x, Z.min a a' <= x < Z.max a a')).
  - rewrite count_interval; lia.
  - intros x Hx.
    assert (Hgen : ∀ c d, valid [(h0, c); (h1, d)] → c + d = a + b →
      slot_target (new [(h0, c); (h1, d)]) x = Some (if x <? c then 0%nat else 1%nat)).
    { intros c d Hv'' Hcd. apply slot_target_iff; [done| |].
      - rewrite (new_total _ Hv''). simpl. lia.
      - unfold start. destruct (Z.ltb_spec x c); simpl; lia. }
    rewrite (Hgen a b), (Hgen a' b') by (done || lia).
    destruct (Z.ltb_spec x a), (Z.ltb_spec x a'); split; intros; try congruence; lia.
Qed.

(** With three targets more than the changed share can move: taking 5 of 30
    from the first target and giving them to the third moves 10 slots, because
    the slots of the second shift. *)
Theorem three_targets_move_more :
  moved (new [("a", 10); ("b", 10); ("c", 10)]) (new [("a", 5); ("b", 10); ("c", 15)]) = 10.
Proof. vm_compute. reflexivity. Qed.

(** A split whose total weight is 0 panics on every pick: the modulus is
    taken before the fallthrough that the comment says would avoid it. *)
Theorem zero_total_panics {H : Type} (ts : list (H * Z)) (key : string) :
  Forall (λ t, t.2 = 0) ts →
  pick (new ts) key = Err RemByZero ∧ pick_with_index (new ts) key = Err RemByZero.
Proof.
  intros Hts. assert (total (new ts) = 0) as Ht.
  { unfold new. assert ((compile 0 ts).2 = 0) as Hc; [|by destruct (compile 0 ts)].
    induction Hts as [|[h w] ts Hw _ IH]; simpl in *; [done|]. subst w. change (add_u64 0 0) with 0.
    by destruct (compile 0 ts). }
  unfold pick, pick_with_index. by rewrite Ht.
Qed.

(** * Concrete instances *)

(** A 95/5 canary. *)
Definition canary : list (string * Z) := [("stable", 95); ("canary", 5)].


Lemma canary_valid : valid canary.
Proof. split; [|vm_compute; split; reflexivity]. repeat (constructor; [vm_compute; discriminate|]). constructor. Qed.

Lemma pick_owner_witness :
  ∃ i h w, pick (new canary) "session" = Ok h ∧ pick_with_index (new canary) "session" = Ok (h, i) ∧
    canary !! i = Some (h, w) ∧ 0 < w ∧
    start canary i <= key_hash "session" mod sum (map snd canary) < start canary i + w.
Proof. apply (pick_owner canary "session" canary_valid). Defined.

Lemma slots_exact_witness : slots_of (new canary) 1 = 5.
Proof. apply (slots_exact canary 1 "canary" 5 canary_valid). reflexivity. Defined.

Lemma rebalance_bound_witness :
  moved (new canary) (new canary) <=
  sum (map (λ k, Z.abs (start canary k - start canary k)) (seq 1 1)).
Proof. apply (rebalance_bound canary canary); [apply canary_valid..|reflexivity|reflexivity]. Defined.

Lemma rebalance_pair_witness :
  moved (new [("stable", 95); ("canary", 5)]) (new [("stable", 90); ("canary", 10)]) = Z.abs (95 - 90).
Proof.
  apply (rebalance_pair "stable" "canary" 95 5 90 10); [apply canary_valid| |reflexivity].
  split; [|vm_compute; split; reflexivity]. repeat (constructor; [vm_compute; discriminate|]). constructor.
Defined.

Lemma zero_total_panics_witness :
  pick (new [("a", 0); ("b", 0)]) "session" = Err RemByZero ∧
  pick_with_index (new [("a", 0); ("b", 0)]) "session" = Err RemByZero.
Proof. apply zero_total_panics. repeat constructor. Defined.
