(* ===== verification/Maglev.v ===== *)
(** The Maglev table of the load balancer
    (crates/dwara-core/src/dataplane/balance.rs, [build_maglev_table]): each
    endpoint walks its own sequence of slots, the endpoints take turns by
    weight, and every turn claims the first empty slot of the walk. *)

From S2P Require Import Prelude Hash.
From Stdlib Require Import Znumtheory.
Local Open Scope Z_scope.

(** * Data *)

(** The fields of an endpoint the table depends on: [u16] port, [u32] weight. *)
Record LbEndpoint : Type := Endpoint { address : string; port : Z; weight : Z }.

Definition MAGLEV_TABLE_SIZE : Z := 65537.

(** Why a computation gives no table: the fuel of a loop ran out, or an index
    was out of bounds (a panic). *)
Inductive stop : Type :=
  | OutOfFuel
  | OutOfBounds.

(** [table] with [None] for [usize::MAX], the cursors, and [filled]. *)
Record build : Type := Build {
  table : list (option nat);
  cursors : list Z;
  filled : Z;
}.

(** * The construction

    [m] is the size of the table.  [fuel] bounds the turns of each loop. *)

Section construction.
Variable m : Z.

Definition permutation (e : LbEndpoint) : Z * Z :=
  let h := Fnv1a.update Fnv1a.new (as_bytes (address e)) in
  let raw := Fnv1a.finish (Fnv1a.update h (to_be_bytes16 (port e))) in
  (raw mod m, (raw / m mod (m - 1) + 1) mod (m - 1)).

(** [repeat_n(i, e.weight.max(1))] for each endpoint, from index [i] on. *)
Fixpoint weighted_indices (i : nat) (eps : list LbEndpoint) : list nat :=
  match eps with
  | [] => []
  | e :: eps => replicate (Z.to_nat (Z.max (weight e) 1)) i ++ weighted_indices (S i) eps
  end.

(** The slot under a cursor. *)
Definition slot_at (p : Z * Z) (cursor : Z) : Z := add_u64 p.1 (wrapping_mul cursor p.2) mod m.

(** [v[i]]. *)
Definition index {A} (v : list A) (i : nat) : result stop A :=
  match v !! i with
  | Some x => Ok x
  | None => Err OutOfBounds
  end.

(** The inner [loop]: the first empty slot from the cursor on, and the cursor
    after it. *)
Fixpoint find_slot (fuel : nat) (t : list (option nat)) (p : Z * Z) (cursor : Z)
    : result stop (nat * Z) :=
  match fuel with
  | O => Err OutOfFuel
  | S fuel =>
      let slot := Z.to_nat (slot_at p cursor) in
      let cursor := add_u64 cursor 1 in
      owner ← index t slot;
      match owner with
      | None => Ok (slot, cursor)
      | Some _ => find_slot fuel t p cursor
      end
  end.

(** One turn of endpoint [ep_idx]. *)
Definition place (fuel : nat) (perms : list (Z * Z)) (ep_idx : nat) (b : build) : result stop build :=
  p ← index perms ep_idx;
  cursor ← index (cursors b) ep_idx;
  r ← find_slot fuel (table b) p cursor;
  Ok (Build (<[r.1 := Some ep_idx]> (table b)) (<[ep_idx := r.2]> (cursors b)) (filled b + 1)).

(** The [for] loop: one round of turns, left as soon as the table is full. *)
Fixpoint round (fuel : nat) (perms : list (Z * Z)) (turns : list nat) (b : build)
    : result stop build :=
  match turns with
  | [] => Ok b
  | ep_idx :: turns =>
      b ← place fuel perms ep_idx b;
      if m <=? filled b then Ok b else round fuel perms turns b
  end.

(** The [while] loop. *)
Fixpoint fill (rounds fuel : nat) (perms : list (Z * Z)) (turns : list nat) (b : build)
    : result stop build :=
  if m <=? filled b then Ok b
  else
    match rounds with
    | O => Err OutOfFuel
    | S rounds =>
        b ← round fuel perms turns b;
        fill rounds fuel perms turns b
    end.

Definition initial (n : nat) : build := Build (replicate (Z.to_nat m) None) (replicate n 0) 0.

Definition build_table (fuel : nat) (eps : list LbEndpoint) : result stop (list (option nat)) :=
  match eps with
  | [] => Ok []
  | _ =>
      let turns := weighted_indices 0 eps in
      match turns with
      | [] => Ok []
      | _ =>
          b ← fill fuel fuel (map permutation eps) turns (initial (length eps));
          Ok (table b)
      end
  end.
End construction.

Definition build_maglev_table : nat → list LbEndpoint → result stop (list (option nat)) :=
  build_table MAGLEV_TABLE_SIZE.

(** How many entries of a list are [x]. *)
Definition occurrences {A} `{EqDecision A} (x : A) (l : list A) : nat :=
  length (filter (λ y, y = x) l).

(** The slots of endpoint [i]. *)
Definition share (i : nat) (t : list (option nat)) : nat := occurrences (Some i) t.

(** * Generic lemmas *)

Section lists.
Context {A : Type} `{EqDecision A}.

Lemma occurrences_cons (x y : A) l :
  occurrences x (y :: l) = ((if decide (y = x) then 1 else 0) + occurrences x l)%nat.
Proof. unfold occurrences. rewrite filter_cons. by case_decide. Qed.

Lemma occurrences_app (x : A) l l' : occurrences x (l ++ l') = (occurrences x l + occurrences x l')%nat.
Proof. unfold occurrences. by rewrite list.filter_app, length_app. Qed.

Lemma occurrences_replicate (x y : A) n :
  occurrences x (replicate n y) = if decide (y = x) then n else 0%nat.
Proof.
  induction n as [|n IH]; simpl; [by case_decide|]. rewrite occurrences_cons, IH. by case_decide.
Qed.

Lemma occurrences_concat (x : A) n l : occurrences x (concat (replicate n l)) = (n * occurrences x l)%nat.
Proof. induction n as [|n IH]; simpl; [done|]. by rewrite occurrences_app, IH. Qed.

Lemma occurrences_take (x : A) n l : (occurrences x (take n l) <= occurrences x l)%nat.
Proof. rewrite <- (take_drop n l) at 2. rewrite occurrences_app. lia. Qed.

Lemma occurrences_insert (x y z : A) k l :
  l !! k = Some z →
  (occurrences x (<[k := y]> l) + (if decide (z = x) then 1 else 0) =
   occurrences x l + (if decide (y = x) then 1 else 0))%nat.
Proof.
  revert k. induction l as [|y' l IH]; intros k Hk; [done|]. destruct k as [|k]; simpl in *.
  - simplify_eq. rewrite !occurrences_cons. lia.
  - rewrite !occurrences_cons. specialize (IH _ Hk). lia.
Qed.

Lemma occurrences_pos (x : A) l : x ∈ l → (1 <= occurrences x l)%nat.
Proof.
  intros [k Hk]%list_elem_of_lookup. pose proof (occurrences_insert x x x k l Hk) as Hi.
  rewrite <- (take_drop_middle l k x Hk), occurrences_app, occurrences_cons, decide_True by done. lia.
Qed.

(** At most one place when all occurrences coincide. *)
Lemma occurrences_le_1 (x : A) l k0 : (∀ k, l !! k = Some x → k = k0) → (occurrences x l <= 1)%nat.
Proof.
  revert k0. induction l as [|y l IH]; intros k0 Hk; [unfold occurrences; simpl; lia|].
  rewrite occurrences_cons. case_decide as Hy.
  - subst y. assert (k0 = 0%nat) as -> by (symmetry; by apply Hk).
    assert (occurrences x l = 0%nat) as ->; [|lia]. unfold occurrences.
    rewrite list_filter_none; [done|]. apply list.Forall_forall. intros y [k Hl]%list_elem_of_lookup ->.
    by specialize (Hk (S k) Hl).
  - apply (IH (pred k0)). intros k Hl. specialize (Hk (S k) Hl). lia.
Qed.

(** The first [k] elements of a repeated list: whole copies and a rest. *)
Lemma take_concat_replicate (l : list A) n k :
  (0 < length l)%nat → (k <= n * length l)%nat →
  take k (concat (replicate n l)) =
  concat (replicate (k / length l) l) ++ take (k mod length l) l.
Proof.
  intros Hl. revert k. induction n as [|n IH]; intros k Hk; simpl in *.
  - replace k with 0%nat by lia. rewrite Nat.Div0.div_0_l, Nat.Div0.mod_0_l. by rewrite !take_0.
  - destruct (decide (k < length l)%nat) as [Hlt|Hge].
    + rewrite take_app_le by lia. by rewrite Nat.div_small, Nat.mod_small by done.
    + rewrite take_app_ge, IH by lia. rewrite app_assoc. f_equal.
      * replace k with ((k - length l) + 1 * length l)%nat at 2 by lia.
        rewrite Nat.div_add, Nat.add_comm by lia. done.
      * f_equal. replace k with ((k - length l) + 1 * length l)%nat at 2 by lia.
        by rewrite Nat.Div0.mod_add.
Qed.
End lists.

Lemma length_concat_replicate {A} (l : list A) n : length (concat (replicate n l)) = (n * length l)%nat.
Proof. induction n as [|n IH]; simpl; [done|]. by rewrite length_app, IH. Qed.

(** * The turns

    [fill] gives its turns in order, and one turn claims one slot. *)

Section turns.
Variable m : Z.
Variable perms : list (Z * Z).

(** The turns [xs] in a row. *)
Fixpoint place_all (fuel : nat) (xs : list nat) (b : build) : result stop build :=
  match xs with
  | [] => Ok b
  | x :: xs => place m fuel perms x b ≫= place_all fuel xs
  end.

Lemma place_all_app fuel xs ys b :
  place_all fuel (xs ++ ys) b = place_all fuel xs b ≫= place_all fuel ys.
Proof.
  revert b. induction xs as [|x xs IH]; intros b; simpl; [done|].
  destruct (place m fuel perms x b); simpl; [apply IH|done].
Qed.

Lemma index_ok {A} (v : list A) i x : index v i = Ok x ↔ v !! i = Some x.
Proof. unfold index. destruct (v !! i); naive_solver. Qed.

Lemma find_slot_ok fuel t p c s c' :
  find_slot m fuel t p c = Ok (s, c') →
  t !! s = Some None ∧ ∃ k, s = Z.to_nat (slot_at m p k).
Proof.
  revert c. induction fuel as [|fuel IH]; intros c Hf; [done|]. simpl in Hf.
  apply result_bind_ok in Hf as (o & Ho & Hf). apply index_ok in Ho.
  destruct o as [i|]; [by eapply IH|]. injection Hf as <- <-. by eauto.
Qed.

(** What one turn does. *)
Lemma place_ok fuel x b b' :
  place m fuel perms x b = Ok b' →
  ∃ s p k, perms !! x = Some p ∧ s = Z.to_nat (slot_at m p k) ∧ table b !! s = Some None ∧
    table b' = <[s := Some x]> (table b) ∧ filled b' = filled b + 1.
Proof.
  unfold place. intros Hp. apply result_bind_ok in Hp as (p & Hx & Hp). apply index_ok in Hx.
  apply result_bind_ok in Hp as (c & _ & Hp). apply result_bind_ok in Hp as ([s c'] & Hf & Hp).
  apply find_slot_ok in Hf as (Hs & k & Hk). injection Hp as <-. exists s, p, k. done.
Qed.

Lemma place_all_filled fuel xs b b' :
  place_all fuel xs b = Ok b' → filled b' = filled b + Z.of_nat (length xs).
Proof.
  revert b. induction xs as [|x xs IH]; intros b Hp; simpl in *; [simplify_eq; lia|].
  apply result_bind_ok in Hp as (b1 & Hb & Hp). apply place_ok in Hb as (_ & _ & _ & _ & _ & _ & _ & Hf).
  rewrite (IH _ Hp), Hf. lia.
Qed.

(** Every turn gives its endpoint one slot. *)
Lemma place_all_share fuel xs b b' i :
  place_all fuel xs b = Ok b' → share i (table b') = (share i (table b) + occurrences i xs)%nat.
Proof.
  revert b. induction xs as [|x xs IH]; intros b Hp; simpl in *.
  - simplify_eq. unfold occurrences at 1. simpl. lia.
  - apply result_bind_ok in Hp as (b1 & Hb & Hp).
    apply place_ok in Hb as (s & p & k & _ & _ & Hs & Ht & _).
    rewrite (IH _ Hp), Ht, occurrences_cons. unfold share.
    pose proof (occurrences_insert (Some i) (Some x) None s (table b) Hs) as Hi.
    rewrite (decide_False (P := None = Some i)) in Hi by done.
    destruct (decide (x = i)) as [->|Hne]; [rewrite decide_True in Hi by done|].
    + lia.
    + rewrite decide_False in Hi by naive_solver. lia.
Qed.

(** An endpoint's slots are slots of its walk. *)
Definition owners_ok (b : build) : Prop :=
  ∀ s i, table b !! s = Some (Some i) → ∃ p k, perms !! i = Some p ∧ s = Z.to_nat (slot_at m p k).

Lemma place_all_owners fuel xs b b' : place_all fuel xs b = Ok b' → owners_ok b → owners_ok b'.
Proof.
  revert b. induction xs as [|x xs IH]; intros b Hp Hb; simpl in *; [by simplify_eq|].
  apply result_bind_ok in Hp as (b1 & Hpl & Hp). apply (IH b1 Hp).
  apply place_ok in Hpl as (s & p & k & Hx & Hs & _ & Ht & _). intros s' i Hi. rewrite Ht in Hi.
  destruct (decide (s = s')) as [<-|Hne].
  - rewrite list_lookup_insert in Hi. case_decide; simplify_eq; [by exists p, k|]. by apply Hb.
  - rewrite list_lookup_insert_ne in Hi by done. by apply Hb.
Qed.

(** A round is its turns, up to the one that fills the table. *)
Lemma round_turns fuel xs b :
  filled b < m → round m fuel perms xs b = place_all fuel (take (Z.to_nat (m - filled b)) xs) b.
Proof.
  revert b. induction xs as [|x xs IH]; intros b Hb; simpl; [by rewrite take_nil|].
  replace (Z.to_nat (m - filled b)) with (S (Z.to_nat (m - (filled b + 1)))) by lia. simpl.
  destruct (place m fuel perms x b) as [b1|e] eqn:Hp; simpl; [|done].
  apply place_ok in Hp as (_ & _ & _ & _ & _ & _ & _ & Hf).
  rewrite <- Hf. destruct (Z.leb_spec m (filled b1)).
  - by replace (Z.to_nat (m - filled b1)) with 0%nat by lia.
  - by rewrite IH.
Qed.

(** So the whole loop is the turns, repeated until the table is full. *)
Lemma fill_turns rounds fuel xs b b' :
  filled b <= m → fill m rounds fuel perms xs b = Ok b' →
  (Z.to_nat (m - filled b) <= rounds * length xs)%nat ∧ filled b' = m ∧
  place_all fuel (take (Z.to_nat (m - filled b)) (concat (replicate rounds xs))) b = Ok b'.
Proof.
  revert b. induction rounds as [|rounds IH]; intros b Hb Hf; simpl in Hf;
    destruct (Z.leb_spec m (filled b)) as [Hle|Hlt]; try done.
  - injection Hf as <-. replace (Z.to_nat (m - filled b)) with 0%nat by lia. simpl. split; [lia|]. split; [lia|done].
  - injection Hf as <-. replace (Z.to_nat (m - filled b)) with 0%nat by lia. simpl. split; [lia|]. split; [lia|done].
  - apply result_bind_ok in Hf as (b1 & Hr & Hf). rewrite round_turns in Hr by done.
    pose proof (place_all_filled _ _ _ _ Hr) as Hfill. rewrite length_take in Hfill.
    apply IH in Hf as (Hrounds & Hm & Hp); [|lia]. simpl.
    split; [lia|]. split; [done|].
    destruct (decide (Z.to_nat (m - filled b) <= length xs)%nat) as [Hin|Hout].
    + rewrite take_app_le by done. rewrite Hr.
      replace (Z.to_nat (m - filled b1)) with 0%nat in Hp by lia. by rewrite <- Hp.
    + rewrite take_app_ge by lia. rewrite take_ge in Hr by lia.
      rewrite place_all_app, Hr. simpl. by replace (Z.to_nat (m - filled b) - length xs)%nat with
        (Z.to_nat (m - filled b1)) by lia.
Qed.
End turns.

(** * No index is out of bounds *)

Section bounds.
Variable m : Z.
Variable perms : list (Z * Z).
Hypothesis m_pos : 0 < m.

Definition shaped (b : build) : Prop :=
  length (table b) = Z.to_nat m ∧ length (cursors b) = length perms.

Lemma index_lt {A} (v : list A) i : (i < length v)%nat → ∃ x, index v i = Ok x ∧ v !! i = Some x.
Proof. intros [x Hx]%lookup_lt_is_Some_2. exists x. unfold index. by rewrite Hx. Qed.

Lemma slot_at_lt p k : (Z.to_nat (slot_at m p k) < Z.to_nat m)%nat.
Proof using m_pos. pose proof (Z.mod_pos_bound (add_u64 p.1 (wrapping_mul k p.2)) m m_pos). unfold slot_at. lia. Qed.

Lemma find_slot_bounds fuel t p c e :
  length t = Z.to_nat m → find_slot m fuel t p c = Err e → e = OutOfFuel.
Proof using m_pos.
  intros Ht. revert c. induction fuel as [|fuel IH]; intros c Hf; simpl in Hf; [by injection Hf|].
  destruct (index_lt t (Z.to_nat (slot_at m p c))) as (o & Ho & _); [rewrite Ht; apply slot_at_lt|].
  rewrite Ho in Hf. simpl in Hf. destruct o; [by eapply IH|done].
Qed.

Lemma place_shaped fuel x b b' : place m fuel perms x b = Ok b' → shaped b → shaped b'.
Proof.
  unfold place. intros Hp [Ht Hc]. apply result_bind_ok in Hp as (p & _ & Hp).
  apply result_bind_ok in Hp as (c & _ & Hp). apply result_bind_ok in Hp as (r & _ & Hp).
  injection Hp as <-. split; simpl; by rewrite length_insert.
Qed.

Lemma place_bounds fuel x b e :
  (x < length perms)%nat → shaped b → place m fuel perms x b = Err e → e = OutOfFuel.
Proof using m_pos.
  intros Hx [Ht Hc] Hp. unfold place in Hp.
  destruct (index_lt perms x Hx) as (p & Hi & _). rewrite Hi in Hp. simpl in Hp.
  destruct (index_lt (cursors b) x) as (c & Hc' & _); [lia|]. rewrite Hc' in Hp. simpl in Hp.
  apply result_bind_err in Hp as [Hf|(r & _ & Hp)]; [|done]. by eapply find_slot_bounds.
Qed.

Lemma round_shaped fuel xs b b' : round m fuel perms xs b = Ok b' → shaped b → shaped b'.
Proof.
  revert b. induction xs as [|x xs IH]; intros b Hr Hb; simpl in Hr; [by injection Hr as <-|].
  apply result_bind_ok in Hr as (b1 & Hp & Hr). apply place_shaped in Hp; [|done].
  destruct (m <=? filled b1); [by injection Hr as <-|]. by eapply IH.
Qed.

Lemma round_bounds fuel xs b e :
  Forall (λ x, x < length perms)%nat xs → shaped b →
  round m fuel perms xs b = Err e → e = OutOfFuel.
Proof using m_pos.
  intros Hxs. revert b. induction Hxs as [|x xs Hx _ IH]; intros b Hb Hr; simpl in Hr; [done|].
  apply result_bind_err in Hr as [Hp|(b1 & Hp & Hr)]; [by eapply place_bounds|].
  apply place_shaped in Hp; [|done]. destruct (m <=? filled b1); [done|]. by eapply IH.
Qed.

Lemma fill_shaped rounds fuel xs b b' : fill m rounds fuel perms xs b = Ok b' → shaped b → shaped b'.
Proof.
  revert b. induction rounds as [|rounds IH]; intros b Hf Hb; simpl in Hf;
    destruct (m <=? filled b); try done; try by injection Hf as <-.
  apply result_bind_ok in Hf as (b1 & Hr & Hf). apply round_shaped in Hr; [|done]. by eapply IH.
Qed.

Lemma fill_bounds rounds fuel xs b e :
  Forall (λ x, x < length perms)%nat xs → shaped b →
  fill m rounds fuel perms xs b = Err e → e = OutOfFuel.
Proof using m_pos.
  intros Hxs. revert b. induction rounds as [|rounds IH]; intros b Hb Hf; simpl in Hf;
    destruct (m <=? filled b); try done; [by injection Hf|].
  apply result_bind_err in Hf as [Hr|(b1 & Hr & Hf)]; [by eapply round_bounds|].
  apply round_shaped in Hr; [|done]. by eapply IH.
Qed.
End bounds.

(** * A walk with a coprime skip visits every slot *)

Section walk.
Variable m : Z.
Hypothesis m_prime : prime m.
Hypothesis m_small : m * m < 2 ^ 63.

(** A permutation of the code whose skip is not 0. *)
Definition walk_ok (p : Z * Z) : Prop := 0 <= p.1 < m ∧ 0 < p.2 < m.

Lemma walk_visits p s : walk_ok p → 0 <= s < m → ∃ j, 0 <= j < m ∧ (p.1 + j * p.2) mod m = s.
Proof using m_prime.
  intros [Ho Hk] Hs.
  assert (rel_prime p.2 m) as Hr%rel_prime_bezout by (apply rel_prime_le_prime; [done|lia]).
  destruct Hr as [x y Hxy]. exists (((s - p.1) * x) mod m). split; [apply Z.mod_pos_bound; lia|].
  rewrite <- (Z.mod_small s m Hs) at 2.
  rewrite Z.add_mod, Z.mul_mod_idemp_l, <- Z.add_mod by lia.
  replace (p.1 + (s - p.1) * x * p.2) with (s + (- (s - p.1) * y) * m).
  - apply Z.mod_add. lia.
  - transitivity (s - (s - p.1) * (y * m)); [lia|]. replace (y * m) with (1 - x * p.2) by lia. lia.
Qed.

(** No wrap-around on the way. *)
Lemma slot_at_walk p j : walk_ok p → 0 <= j <= m → slot_at m p j = (p.1 + j * p.2) mod m.
Proof using m_small.
  intros [Ho Hk] Hj. unfold slot_at, add_u64, wrapping_mul.
  assert (0 <= j * p.2 <= m * m) by nia. assert (m <= m * m) by nia.
  change (2 ^ 63) with 9223372036854775808 in m_small.
  change (2 ^ 64) with 18446744073709551616.
  rewrite (Z.mod_small (j * p.2)) by lia. by rewrite (Z.mod_small (p.1 + j * p.2)) by lia.
Qed.

(** The inner loop stops at an empty slot that lies ahead of the cursor, and
    everything it passes is occupied. *)
Lemma find_slot_total fuel t p c j :
  walk_ok p → 0 <= c <= j → j < m → length t = Z.to_nat m →
  t !! Z.to_nat (slot_at m p j) = Some None → (Z.to_nat (j - c) < fuel)%nat →
  ∃ c', find_slot m fuel t p c = Ok (Z.to_nat (slot_at m p (c' - 1)), c') ∧ c < c' <= j + 1 ∧
    ∀ k, c <= k < c' - 1 → ∃ i, t !! Z.to_nat (slot_at m p k) = Some (Some i).
Proof using m_small m_prime.
  intros Hp Hc Hj Ht He. revert c Hc. induction fuel as [|fuel IH]; intros c Hc Hf; [lia|]. simpl.
  assert (Hm : m <= m * m) by nia. change (2 ^ 63) with 9223372036854775808 in m_small.
  assert (add_u64 c 1 = c + 1) as Hadd.
  { unfold add_u64. change (2 ^ 64) with 18446744073709551616. apply Z.mod_small. lia. }
  assert (Hlt : 0 < m) by lia.
  destruct (index_lt t (Z.to_nat (slot_at m p c))) as (o & -> & Ho); [rewrite Ht; by apply slot_at_lt|].
  simpl. rewrite Hadd. destruct o as [i|].
  - assert (c ≠ j) by (intros ->; by rewrite He in Ho).
    destruct (IH (c + 1)) as (c' & -> & Hc' & Hk); [lia|lia|]. exists c'. split; [done|]. split; [lia|].
    intros k Hck. destruct (decide (k = c)) as [->|]; [by exists i|]. apply Hk. lia.
  - exists (c + 1). replace (c + 1 - 1) with c by lia. split; [done|]. split; [lia|]. intros k. lia.
Qed.
End walk.

(** * The construction ends *)

Section total.
Variable m : Z.
Variable perms : list (Z * Z).
Variable fuel : nat.
Hypothesis m_prime : prime m.
Hypothesis m_small : m * m < 2 ^ 63.
Hypothesis perms_ok : Forall (walk_ok m) perms.
Hypothesis enough : (Z.to_nat m <= fuel)%nat.

(** Everything behind a cursor is occupied, and [filled] counts the occupied
    slots. *)
Definition wf (b : build) : Prop :=
  shaped m perms b ∧ 0 <= filled b ∧ filled b + Z.of_nat (occurrences None (table b)) = m ∧
  ∀ i p c, perms !! i = Some p → cursors b !! i = Some c →
    0 <= c <= m ∧ ∀ k, 0 <= k < c → ∃ i', table b !! Z.to_nat (slot_at m p k) = Some (Some i').

Lemma free_slot b p c :
  wf b → walk_ok m p → filled b < m →
  (∀ k, 0 <= k < c → ∃ i', table b !! Z.to_nat (slot_at m p k) = Some (Some i')) →
  0 <= c → ∃ j, c <= j < m ∧ table b !! Z.to_nat (slot_at m p j) = Some None.
Proof using m_prime m_small enough.
  intros ([Ht _] & _ & Hn & _) Hp Hf Hc Hc0.
  assert (None ∈ table b) as [s Hs]%list_elem_of_lookup.
  { destruct (decide (None ∈ table b)) as [|Hni]; [done|]. exfalso.
    assert (occurrences None (table b) = 0%nat); [|lia]. unfold occurrences.
    rewrite list_filter_none; [done|]. apply list.Forall_forall. intros o Ho ->. done. }
  pose proof (lookup_lt_Some _ _ _ Hs) as Hlt.
  destruct (walk_visits m m_prime p (Z.of_nat s)) as (j & Hj & Hjs); [done|lia|].
  rewrite <- (slot_at_walk m m_small p j) in Hjs by (done || lia).
  assert (Hsj : table b !! Z.to_nat (slot_at m p j) = Some None) by (by rewrite Hjs, Nat2Z.id).
  exists j. split; [|done]. split; [|lia]. destruct (decide (c <= j)); [done|].
  destruct (Hc j) as [i' Hi']; [lia|]. by rewrite Hsj in Hi'.
Qed.

Lemma place_total x b :
  wf b → filled b < m → (x < length perms)%nat →
  ∃ b', place m fuel perms x b = Ok b' ∧ wf b' ∧ filled b' = filled b + 1.
Proof using m_prime m_small perms_ok enough.
  intros Hwf Hf Hx. pose proof Hwf as ([Ht Hcl] & H0 & Hn & Hcur).
  destruct (index_lt perms x Hx) as (p & Hpi & Hp).
  destruct (index_lt (cursors b) x) as (c & Hci & Hc); [lia|].
  destruct (Hcur x p c Hp Hc) as [Hcm Hbehind].
  assert (Hwp : walk_ok m p) by (rewrite list.Forall_forall in perms_ok; by eapply perms_ok, list_elem_of_lookup_2).
  destruct (free_slot b p c) as (j & Hj & Hfree); [done..|lia|].
  destruct (find_slot_total m m_prime m_small fuel (table b) p c j) as (c' & Hfind & Hc' & Hpass);
    [done|lia|lia|done|done|lia|].
  pose proof (find_slot_ok _ _ _ _ _ _ _ Hfind) as [Hempty _].
  unfold place. rewrite Hpi. simpl. rewrite Hci. simpl. rewrite Hfind. simpl.
  eexists. split; [done|]. split; [|done]. split; [by split; simpl; rewrite length_insert|].
  pose proof (occurrences_insert None (Some x) None _ (table b) Hempty) as Hocc.
  rewrite decide_True, decide_False in Hocc by done. simpl. split; [lia|]. split; [lia|].
  (* occupied slots stay occupied *)
  assert (Hkeep : ∀ s, (∃ i', table b !! s = Some (Some i')) →
    ∃ i', <[Z.to_nat (slot_at m p (c' - 1)) := Some x]> (table b) !! s = Some (Some i')).
  { intros s [i' Hi']. rewrite list_lookup_insert. case_decide; eauto. }
  intros i p' c'' Hp' Hc''. rewrite list_lookup_insert in Hc''. case_decide as Hxi.
  - destruct Hxi as [<- _]. simplify_eq. split; [lia|]. intros k Hk.
    destruct (decide (k = c'' - 1)) as [->|Hne].
    + exists x. apply list_lookup_insert_eq. by eapply lookup_lt_Some.
    + apply Hkeep. destruct (decide (k < c)); [apply Hbehind; lia|apply Hpass; lia].
  - destruct (Hcur i p' c'' Hp' Hc'') as [? Hb]. split; [done|]. intros k Hk. by apply Hkeep, Hb.
Qed.

Lemma round_total xs b :
  Forall (λ x, x < length perms)%nat xs → wf b → filled b < m →
  ∃ b', round m fuel perms xs b = Ok b' ∧ wf b' ∧
    (filled b' = m ∨ filled b' = filled b + Z.of_nat (length xs)).
Proof using m_prime m_small perms_ok enough.
  intros Hxs. revert b. induction Hxs as [|x xs Hx _ IH]; intros b Hwf Hf; simpl.
  - exists b. split; [done|]. split; [done|]. lia.
  - destruct (place_total x b Hwf Hf Hx) as (b1 & -> & Hwf1 & Hf1). simpl.
    destruct (Z.leb_spec m (filled b1)).
    + exists b1. split; [done|]. split; [done|]. destruct Hwf1 as (_ & _ & ? & _). lia.
    + destruct (IH b1) as (b' & -> & Hwf' & Hd); [done..|]. exists b'. split; [done|]. split; [done|]. lia.
Qed.

Lemma fill_total rounds xs b :
  Forall (λ x, x < length perms)%nat xs → xs ≠ [] → wf b → (Z.to_nat (m - filled b) <= rounds)%nat →
  ∃ b', fill m rounds fuel perms xs b = Ok b' ∧ wf b'.
Proof using m_prime m_small perms_ok enough.
  intros Hxs Hne. revert b. induction rounds as [|rounds IH]; intros b Hwf Hr; simpl;
    destruct (Z.leb_spec m (filled b)); [by exists b|lia|by exists b|].
  destruct (round_total xs b Hxs Hwf) as (b1 & -> & Hwf1 & Hd); [lia|]. simpl.
  apply IH; [done|]. destruct xs; [done|]. simpl in Hd. lia.
Qed.

Lemma initial_wf : wf (initial m (length perms)).
Proof using m_prime enough.
  assert (0 < m) by (destruct m_prime; lia).
  split; [split; simpl; by rewrite length_replicate|]. simpl. split; [lia|]. split.
  - rewrite occurrences_replicate, decide_True by done. lia.
  - intros i p c _ Hc. apply lookup_replicate in Hc as [-> _]. split; [lia|]. intros k Hk. lia.
Qed.
End total.

(** * The turns of the endpoints *)

Lemma weighted_indices_occ i n eps :
  occurrences i (weighted_indices n eps) =
  match eps !! (i - n)%nat with
  | Some e => if decide (n <= i)%nat then Z.to_nat (Z.max (weight e) 1) else 0%nat
  | None => 0%nat
  end.
Proof.
  revert n. induction eps as [|e eps IH]; intros n; simpl; [done|].
  rewrite occurrences_app, occurrences_replicate, IH. destruct (decide (n = i)) as [<-|Hne].
  - rewrite Nat.sub_diag. simpl. rewrite decide_True by lia.
    destruct (eps !! _); [rewrite decide_False by lia|]; lia.
  - destruct (decide (n <= i)%nat).
    + replace (i - n)%nat with (S (i - S n)) by lia. simpl. destruct (eps !! _); [|done].
      rewrite decide_True by lia. done.
    + destruct (eps !! (i - S n)%nat), ((e :: eps) !! (i - n)%nat); try rewrite decide_False by lia; lia.
Qed.

Lemma weighted_indices_lt n eps : Forall (λ x, x < n + length eps)%nat (weighted_indices n eps).
Proof.
  revert n. induction eps as [|e eps IH]; intros n; simpl; [constructor|]. apply list.Forall_app. split.
  - apply list.Forall_forall. intros x [-> _]%elem_of_replicate. lia.
  - eapply list.Forall_impl; [apply IH|]. simpl. lia.
Qed.

Lemma weighted_indices_nonempty n e eps : ∃ x xs, weighted_indices n (e :: eps) = x :: xs.
Proof. simpl. destruct (Z.to_nat (Z.max (weight e) 1)) eqn:E; [lia|]. simpl. eauto. Qed.

(** ** The size of the table is prime *)

(** None of the [k] numbers from [n] on divides [p]. *)
Fixpoint no_divisor (k : nat) (n p : Z) : bool :=
  match k with
  | O => true
  | S k => negb (p mod n =? 0) && no_divisor k (n + 1) p
  end.

Lemma no_divisor_spec k n p i :
  no_divisor k n p = true → 0 < n → n <= i < n + Z.of_nat k → ¬ (i | p).
Proof.
  revert n. induction k as [|k IH]; intros n Hr Hn Hi; [lia|].
  simpl in Hr. apply andb_prop in Hr as [Hg Hr]. destruct (decide (i = n)) as [->|].
  - intros Hd. apply Z.mod_divide in Hd; [|lia]. by rewrite Hd in Hg.
  - apply (IH (n + 1)); [done|lia..].
Qed.

Lemma no_small_divisor : no_divisor 256 2 MAGLEV_TABLE_SIZE = true.
Proof. reflexivity. Qed.

(** Trial division up to the square root. *)
Lemma table_size_prime : prime MAGLEV_TABLE_SIZE.
Proof.
  destruct (prime_dec MAGLEV_TABLE_SIZE) as [|Hnp]; [done|]. exfalso.
  apply not_prime_divide in Hnp as (n & Hn & [q Hq]); [|done].
  assert (Hdiv : ∀ i, 2 <= i < 2 + Z.of_nat 256 → ¬ (i | MAGLEV_TABLE_SIZE)).
  { intros i. by apply no_divisor_spec; [apply no_small_divisor|]. }
  unfold MAGLEV_TABLE_SIZE in *. destruct (decide (n < 258)).
  - apply (Hdiv n); [lia|]. by exists q.
  - apply (Hdiv q); [nia|]. exists n. lia.
Qed.

Lemma table_size_small : MAGLEV_TABLE_SIZE * MAGLEV_TABLE_SIZE < 2 ^ 63.
Proof. done. Qed.

Lemma table_size_large : 1 < MAGLEV_TABLE_SIZE - 1.
Proof. done. Qed.

Lemma table_size_pos : 0 < MAGLEV_TABLE_SIZE.
Proof. done. Qed.

#[local] Opaque MAGLEV_TABLE_SIZE.

(** The skip of an endpoint; 0 breaks its walk. *)
Definition skip (m : Z) (e : LbEndpoint) : Z := (permutation m e).2.

Lemma slot_at_stuck m e k k' :
  skip m e = 0 → slot_at m (permutation m e) k = slot_at m (permutation m e) k'.
Proof. unfold skip, slot_at, wrapping_mul. intros ->. by rewrite !Z.mul_0_r. Qed.

Lemma permutation_ok m e : 1 < m - 1 → skip m e ≠ 0 → walk_ok m (permutation m e).
Proof.
  intros Hm. unfold skip, permutation. generalize (Fnv1a.finish (Fnv1a.update
    (Fnv1a.update Fnv1a.new (as_bytes (address e))) (to_be_bytes16 (port e)))). simpl.
  intros raw Hs. split; simpl; [apply Z.mod_pos_bound; lia|].
  pose proof (Z.mod_pos_bound (raw / m mod (m - 1) + 1) (m - 1)). lia.
Qed.

(** The table of an upstream is the final state of [fill]. *)
Lemma build_table_fill m fuel e eps :
  build_table m fuel (e :: eps) =
  table <$> fill m fuel fuel (map (permutation m) (e :: eps)) (weighted_indices 0 (e :: eps))
    (initial m (length (e :: eps))).
Proof.
  unfold build_table. destruct (weighted_indices_nonempty 0 e eps) as (x & xs & ->).
  by destruct (fill _ _ _ _ _ _).
Qed.

(** The turns of [e :: eps] name endpoints. *)
Lemma turns_lt m eps :
  Forall (λ x, x < length (map (permutation m) eps))%nat (weighted_indices 0 eps).
Proof. rewrite length_map. apply (weighted_indices_lt 0). Qed.

(** A table that was built gave every endpoint its turns. *)
Lemma build_table_turns m fuel e eps t :
  0 < m → build_table m fuel (e :: eps) = Ok t →
  let W := length (weighted_indices 0 (e :: eps)) in
  (∀ i, share i t =
     (Z.to_nat m / W * occurrences i (weighted_indices 0 (e :: eps)) +
      occurrences i (take (Z.to_nat m mod W) (weighted_indices 0 (e :: eps))))%nat) ∧
  ∀ s i, t !! s = Some (Some i) →
    ∃ e' k, (e :: eps) !! i = Some e' ∧ s = Z.to_nat (slot_at m (permutation m e') k).
Proof.
  intros Hm Hb W. rewrite build_table_fill in Hb.
  destruct (fill _ _ _ _ _ _) as [b|err] eqn:Hf; [|done]. injection Hb as <-.
  apply fill_turns in Hf as (Hn & _ & Hp); [|simpl; lia].
  simpl filled in Hn, Hp. rewrite Z.sub_0_r in Hn, Hp. split.
  - intros i. rewrite (place_all_share _ _ _ _ _ _ i Hp).
    assert (share i (table (initial m (length (e :: eps)))) = 0%nat) as ->.
    { unfold share. simpl. by rewrite occurrences_replicate, decide_False by done. }
    rewrite take_concat_replicate.
    + by rewrite occurrences_app, occurrences_concat.
    + destruct (weighted_indices_nonempty 0 e eps) as (x & xs & ->). simpl. lia.
    + done.
  - intros s i Hs. eapply place_all_owners in Hp.
    + destruct (Hp s i Hs) as (p & k & Hpi & ->). change (map ?f ?l) with (f <$> l) in Hpi. rewrite list_lookup_fmap in Hpi.
      apply fmap_Some in Hpi as (e' & He & ->). eauto.
    + intros s' i' Hs'. simpl in Hs'. by apply lookup_replicate in Hs' as [? _].
Qed.

Lemma build_table_bounds fuel eps err : build_maglev_table fuel eps = Err err → err = OutOfFuel.
Proof.
  destruct eps as [|e eps]; [done|]. unfold build_maglev_table. rewrite build_table_fill. intros Hb.
  destruct (fill _ _ _ _ _ _) as [b|err'] eqn:Hf; [done|]. injection Hb as <-.
  eapply fill_bounds in Hf; [done|done|apply turns_lt|].
  split; simpl; [apply length_replicate|]. by rewrite length_replicate, length_map.
Qed.

(** The length of a round: every endpoint counts for its weight, at least 1. *)
Definition total_weight (eps : list LbEndpoint) : Z := foldr (λ e acc, Z.max (weight e) 1 + acc) 0 eps.

Lemma weighted_indices_length n eps : Z.of_nat (length (weighted_indices n eps)) = total_weight eps.
Proof.
  revert n. induction eps as [|e eps IH]; intros n; simpl; [done|].
  rewrite length_app, length_replicate, Nat2Z.inj_add, IH. lia.
Qed.

(** The slots of an endpoint: its weight in every whole round, and its turns
    [r] in the last one. *)
Lemma share_turns fuel eps t i e :
  build_maglev_table fuel eps = Ok t → eps !! i = Some e →
  ∃ r, 0 <= r <= Z.max (weight e) 1 ∧
    Z.of_nat (share i t) = MAGLEV_TABLE_SIZE / total_weight eps * Z.max (weight e) 1 + r.
Proof.
  intros Hb He. destruct eps as [|e0 eps]; [done|].
  destruct (build_table_turns _ _ _ _ _ table_size_pos Hb) as [Hs _]. rewrite (Hs i).
  rewrite <- (weighted_indices_length 0). set (turns := weighted_indices 0 (e0 :: eps)).
  assert (Hocc : occurrences i turns = Z.to_nat (Z.max (weight e) 1)).
  { unfold turns. rewrite weighted_indices_occ, Nat.sub_0_r, He. by rewrite decide_True by lia. }
  pose proof (occurrences_take i (Z.to_nat MAGLEV_TABLE_SIZE mod length turns) turns) as Ht.
  assert (Hm : Z.of_nat (Z.to_nat MAGLEV_TABLE_SIZE) = MAGLEV_TABLE_SIZE) by (by apply Z2Nat.id).
  rewrite Nat2Z.inj_add, Nat2Z.inj_mul, Nat2Z.inj_div, Hm, Hocc.
  rewrite Hocc in Ht. exists (Z.of_nat (occurrences i (take (Z.to_nat MAGLEV_TABLE_SIZE mod length turns) turns))). lia.
Qed.

(** Without a skip of 0 the loops end, in a well-formed state. *)
Lemma fill_ends fuel e eps :
  Forall (λ e, skip MAGLEV_TABLE_SIZE e ≠ 0) (e :: eps) → MAGLEV_TABLE_SIZE <= Z.of_nat fuel →
  ∃ b, build_maglev_table fuel (e :: eps) = Ok (table b) ∧
    wf MAGLEV_TABLE_SIZE (map (permutation MAGLEV_TABLE_SIZE) (e :: eps)) b ∧
    filled b = MAGLEV_TABLE_SIZE.
Proof.
  intros Hskip Hfuel. assert (Hfuel' : (Z.to_nat MAGLEV_TABLE_SIZE <= fuel)%nat) by lia.
  assert (Hpos : 0 <= MAGLEV_TABLE_SIZE) by done.
  assert (Hwalk : Forall (walk_ok MAGLEV_TABLE_SIZE) (map (permutation MAGLEV_TABLE_SIZE) (e :: eps))).
  { apply Forall_fmap. eapply list.Forall_impl; [exact Hskip|]. intros e' He'.
    apply permutation_ok; [exact table_size_large|exact He']. }
  pose proof (initial_wf _ (map (permutation MAGLEV_TABLE_SIZE) (e :: eps)) _ table_size_prime Hfuel') as Hwf.
  rewrite (length_map (permutation _)) in Hwf.
  destruct (fill_total _ _ fuel table_size_prime table_size_small Hwalk Hfuel' fuel
    (weighted_indices 0 (e :: eps)) (initial MAGLEV_TABLE_SIZE (length (e :: eps)))) as (b & Hf & Hwf').
  - apply turns_lt.
  - by destruct (weighted_indices_nonempty 0 e eps) as (x & xs & ->).
  - exact Hwf.
  - simpl filled. by rewrite Z.sub_0_r.
  - exists b. unfold build_maglev_table. rewrite build_table_fill, Hf. split; [done|]. split; [done|].
    by apply fill_turns in Hf as (_ & Hfull & _).
Qed.

(** * Properties *)

(** C7: when no endpoint has a skip of 0 the construction ends, within as many
    turns of each loop as the table has slots, and the table is full: every
    slot holds the index of an endpoint. *)
Theorem maglev_total fuel eps :
  eps ≠ [] → Forall (λ e, skip MAGLEV_TABLE_SIZE e ≠ 0) eps → MAGLEV_TABLE_SIZE <= Z.of_nat fuel →
  ∃ t, build_maglev_table fuel eps = Ok t ∧ Z.of_nat (length t) = MAGLEV_TABLE_SIZE ∧
    Forall (λ o, ∃ i, o = Some i ∧ i < length eps)%nat t.
Proof.
  intros Hne Hskip Hfuel. destruct eps as [|e eps]; [done|].
  destruct (fill_ends fuel e eps Hskip Hfuel) as (b & Hb & ([Hl _] & _ & Hn & _) & Hfull).
  exists (table b). split; [done|]. split; [pose proof table_size_pos; lia|].
  destruct (build_table_turns _ _ _ _ _ table_size_pos Hb) as [_ Hown].
  apply list.Forall_forall. intros [i|] Ho.
  - apply list_elem_of_lookup in Ho as [s Hs]. destruct (Hown s i Hs) as (e' & _ & He & _).
    exists i. split; [done|]. by eapply lookup_lt_Some.
  - apply occurrences_pos in Ho. lia.
Qed.

(** Slots are shared by weight: with rounds of total weight [W], an endpoint
    of weight [w] owns between [w * (65537 / W)] and [w * (65537 / W + 1)]
    slots. *)
Theorem maglev_shares fuel eps t i e :
  build_maglev_table fuel eps = Ok t → eps !! i = Some e →
  MAGLEV_TABLE_SIZE / total_weight eps * Z.max (weight e) 1 <= Z.of_nat (share i t) <=
  (MAGLEV_TABLE_SIZE / total_weight eps + 1) * Z.max (weight e) 1.
Proof. intros Hb He. destruct (share_turns _ _ _ _ _ Hb He) as (r & Hr & ->). lia. Qed.

(** An endpoint whose skip is 0 never leaves its first slot, so its second
    turn never ends: no amount of fuel builds the table of an upstream that has
    one (with total weight up to half the table). *)
Theorem maglev_hangs fuel eps i e :
  eps !! i = Some e → skip MAGLEV_TABLE_SIZE e = 0 → 2 * total_weight eps <= MAGLEV_TABLE_SIZE →
  build_maglev_table fuel eps = Err OutOfFuel.
Proof.
  intros He Hskip HW. destruct (build_maglev_table fuel eps) as [t|err] eqn:Hb;
    [|by apply build_table_bounds in Hb as ->]. exfalso.
  destruct (share_turns _ _ _ _ _ Hb He) as (r & Hr & Hshare).
  assert (0 < total_weight eps) as HW0.
  { rewrite <- (weighted_indices_length 0). destruct eps as [|e0 eps]; [done|].
    destruct (weighted_indices_nonempty 0 e0 eps) as (x & xs & ->). simpl. lia. }
  assert (2 <= MAGLEV_TABLE_SIZE / total_weight eps) by (apply Z.div_le_lower_bound; lia).
  assert (share i t <= 1)%nat; [|nia].
  destruct eps as [|e0 eps]; [done|].
  destruct (build_table_turns _ _ _ _ _ table_size_pos Hb) as [_ Hown].
  apply (occurrences_le_1 _ _ (Z.to_nat (slot_at MAGLEV_TABLE_SIZE (permutation MAGLEV_TABLE_SIZE e) 0))).
  intros s Hs. destruct (Hown s i Hs) as (e' & k & He' & ->). rewrite He in He'. injection He' as <-.
  rewrite (slot_at_stuck _ e k 0 Hskip). reflexivity.
Qed.

(** * Concrete instances *)

Definition sample_endpoints : list LbEndpoint :=
  [Endpoint "10.0.0.1" 8080 1; Endpoint "10.0.0.2" 8080 2].

Lemma sample_skips : Forall (λ e, skip MAGLEV_TABLE_SIZE e ≠ 0) sample_endpoints.
Proof. repeat (constructor; [vm_compute; discriminate|]). constructor. Qed.

Lemma maglev_hangs_witness :
  skip MAGLEV_TABLE_SIZE (Endpoint "10.0.59.82" 8080 1) = 0 ∧
  ∀ fuel, build_maglev_table fuel [Endpoint "10.0.59.82" 8080 1] = Err OutOfFuel.
Proof.
  split; [vm_compute; reflexivity|]. intros fuel.
  apply (maglev_hangs fuel _ 0 (Endpoint "10.0.59.82" 8080 1)); [reflexivity|vm_compute; reflexivity|].
  vm_compute. discriminate.
Defined.

Lemma maglev_total_witness :
  ∃ t, build_maglev_table (Z.to_nat MAGLEV_TABLE_SIZE) sample_endpoints = Ok t ∧
    Z.of_nat (length t) = MAGLEV_TABLE_SIZE ∧ Forall (λ o, ∃ i, o = Some i ∧ i < 2)%nat t.
Proof.
  apply (maglev_total _ sample_endpoints); [discriminate|apply sample_skips|].
  rewrite Z2Nat.id; [apply Z.le_refl|]. vm_compute. discriminate.
Defined.

(** Weights 1 and 2 share the 65537 slots 21845 (or 21846) to 43690 (or 43692). *)
Lemma maglev_shares_witness :
  ∃ t, build_maglev_table (Z.to_nat MAGLEV_TABLE_SIZE) sample_endpoints = Ok t ∧
    21845 * 2 <= Z.of_nat (share 1 t) <= 21846 * 2.
Proof.
  destruct (fill_ends (Z.to_nat MAGLEV_TABLE_SIZE) (Endpoint "10.0.0.1" 8080 1)
    [Endpoint "10.0.0.2" 8080 2] sample_skips) as (b & Hb & _).
  - rewrite Z2Nat.id; [apply Z.le_refl|]. vm_compute. discriminate.
  - exists (table b). split; [exact Hb|].
    apply (maglev_shares _ _ _ 1 (Endpoint "10.0.0.2" 8080 2) Hb). reflexivity.
Defined.
