(* ===== verification/MermaidSvg.v ===== *)
(** Making room for the labels of a diagram
    (docs-site/.vitepress/theme/Mermaid.vue): the rewriting of the SVG text
    that mermaid returns, [fixSvgClipping], and of the nodes once they are in
    the document, [fixNodeClipping]. *)

From S2P Require Import Prelude JsNumber JsValue Json JsonRoundtrip.
Local Open Scope N_scope.

(** * Strings *)

(** The number a text starts with after a sign, as [parseFloat] reads it. *)
Definition float_prefix (neg : bool) (s : jstr) : num :=
  if bool_decide (u "Infinity" `prefix_of` s) then S754_infinity neg
  else
    let '(ip, s) := span_digits s in
    let '(fp, s) := scan_fraction s in
    match ip ++ fp with
    | [] => S754_nan
    | ds =>
        let e := match scan_exponent s with Some (e, _) => e | None => 0%Z end in
        dec_to_num neg (digits_value ds) (e - Z.of_nat (length fp))
    end.

(** [parseFloat(s)]: the longest numeric prefix, after white space. *)
Definition parseFloat (s : jstr) : num :=
  match trim_left s with
  | 45 :: s => float_prefix true s
  | 43 :: s => float_prefix false s
  | s => float_prefix false s
  end.

(** [s.replace(re, by)] for a global [re]: [m] gives the length of the match
    at the head of a string, [skip] counts the units of the current match that
    are still to be passed over. *)
Fixpoint replace_from (m : jstr → option nat) (by_ : jstr) (skip : nat) (s : jstr) : jstr :=
  match s with
  | [] => []
  | c :: s' =>
      match skip with
      | S k => replace_from m by_ k s'
      | O =>
          match m s with
          | Some (S n) => by_ ++ replace_from m by_ n s'
          | _ => c :: replace_from m by_ O s'
          end
      end
  end.

Definition replace_all (m : jstr → option nat) (by_ s : jstr) : jstr := replace_from m by_ O s.

(** The longest prefix of units satisfying [p]. *)
Fixpoint span (p : N → bool) (s : jstr) : jstr * jstr :=
  match s with
  | c :: s' => if p c then let '(a, b) := span p s' in (c :: a, b) else ([], s)
  | [] => ([], [])
  end.

(** What follows [w], in any case of its letters, at the head of [s]. *)
Fixpoint after_word (w s : jstr) : option jstr :=
  match w, s with
  | [], _ => Some s
  | c :: w, d :: s => if lower_unit d =? c then after_word w s else None
  | _ :: _, [] => None
  end.

(** [/max-width\s*:\s*[^;]+;?/i] at the head of [s]: the second [\s*] matches
    units that [[^;]+] matches as well, so the declaration extends to the first
    semicolon and needs one unit before it. *)
Definition max_width_match (s : jstr) : option nat :=
  match after_word (u "max-width") s with
  | Some r =>
      match trim_left r with
      | 58 :: r =>
          match span (λ c, negb (c =? 59)) r with
          | ([], _) => None
          | (_, rest) =>
              let rest := match rest with 59 :: rest => rest | _ => rest end in
              Some (length s - length rest)%nat
          end
      | _ => None
      end
  | None => None
  end.

(** [/\s{2,}/] at the head of [s]. *)
Definition blanks_match (s : jstr) : option nat :=
  let n := length (span is_space s).1 in
  if (2 <=? n)%nat then Some n else None.

(** The style attribute without its max-width declarations. *)
Definition clean_style (style : jstr) : jstr :=
  trim (replace_all blanks_match (u " ") (replace_all max_width_match [] style)).

(** [/[\s,]/]. *)
Definition is_separator (c : N) : bool := is_space c || (c =? 44).

(** [s.split(/[\s,]+/)]: [cur] is the reversed field in progress, [insep] says
    that the units just read are separators. *)
Fixpoint split_from (cur : jstr) (insep : bool) (s : jstr) : list jstr :=
  match s with
  | [] => [reverse cur]
  | c :: s =>
      if is_separator c then
        if insep then split_from cur true s else reverse cur :: split_from [] true s
      else split_from (c :: cur) false s
  end.

Definition split_fields (s : jstr) : list jstr := split_from [] false s.

(** * The SVG text *)

(** The root of the parsed document: its attributes in order and, opaque, all
    that is inside it. *)
Record svg_root : Type := Svg { tagName : jstr; attributes : list (jstr * jstr); inside : jstr }.

Fixpoint getAttribute (k : jstr) (l : list (jstr * jstr)) : option jstr :=
  match l with
  | [] => None
  | (k', v) :: l => if bool_decide (k = k') then Some v else getAttribute k l
  end.

Fixpoint setAttribute (k v : jstr) (l : list (jstr * jstr)) : list (jstr * jstr) :=
  match l with
  | [] => [(k, v)]
  | (k', v') :: l => if bool_decide (k = k') then (k', v) :: l else (k', v') :: setAttribute k v l
  end.

Fixpoint removeAttribute (k : jstr) (l : list (jstr * jstr)) : list (jstr * jstr) :=
  match l with
  | [] => []
  | (k', v) :: l => if bool_decide (k = k') then l else (k', v) :: removeAttribute k l
  end.

Definition PAD : num := num_of_Z 24.

(** [if (attr)]: present and not empty. *)
Definition filled (a : option jstr) : option jstr :=
  match a with
  | Some [] | None => None
  | Some s => Some s
  end.

(** [${vbX} ${vbY} ${vbW} ${vbH + PAD}]. *)
Definition viewBox_text (x y w h : num) : jstr :=
  num_to_jstr x ++ u " " ++ num_to_jstr y ++ u " " ++ num_to_jstr w ++ u " "
  ++ num_to_jstr (nadd h PAD).

(** The four numbers of a viewBox, zeros when it does not have four fields. *)
Definition padded_viewBox (s : jstr) : jstr :=
  match str_to_num <$> split_fields s with
  | [x; y; w; h] => viewBox_text x y w h
  | _ => let zero := S754_zero false in viewBox_text zero zero zero zero
  end.

Definition padded_height (s : jstr) : option jstr :=
  let h := parseFloat s in
  if is_nan h then None else Some (num_to_jstr (nadd h PAD)).

(** What happens to the attributes of the root. *)
Definition fix_attributes (l : list (jstr * jstr)) : list (jstr * jstr) :=
  let l :=
    match filled (getAttribute (u "style") l) with
    | Some style =>
        match clean_style style with
        | [] => removeAttribute (u "style") l
        | cleaned => setAttribute (u "style") cleaned l
        end
    | None => l
    end in
  let l := setAttribute (u "overflow") (u "visible") l in
  let viewBoxAttr := getAttribute (u "viewBox") l in
  let heightAttr := getAttribute (u "height") l in
  let l :=
    match filled viewBoxAttr with
    | Some v => setAttribute (u "viewBox") (padded_viewBox v) l
    | None => l
    end in
  match filled heightAttr with
  | Some h =>
      match padded_height h with
      | Some h => setAttribute (u "height") h l
      | None => l
      end
  | None => l
  end.

Section svg.
(** The browser's DOMParser, which may find no root, and XMLSerializer; both
    may throw. *)
Context (parseFromString : jstr → result jstr (option svg_root)).
Context (serializeToString : svg_root → result jstr jstr).

Definition fixSvgClipping (svgCode : jstr) : jstr :=
  let body : result jstr jstr :=
    doc ← parseFromString svgCode;
    match doc with
    | None => Ok svgCode
    | Some svgEl =>
        if bool_decide (to_lower (tagName svgEl) = u "svg") then
          serializeToString (Svg (tagName svgEl) (fix_attributes (attributes svgEl)) (inside svgEl))
        else Ok svgCode
    end in
  match body with
  | Ok s => s
  | Err _ => svgCode
  end.
End svg.

(** * Reading back printed numbers *)

Lemma parse_fraction_scan s fp rest :
  parse_fraction s = Some (fp, rest) → scan_fraction s = (fp, rest).
Proof.
  unfold parse_fraction, scan_fraction. intros H.
  repeat case_match; simplify_eq; done.
Qed.

Lemma int_part_head s ip rest :
  span_digits s = (ip, rest) → int_part_ok ip = true →
  ∃ c l, s = c :: l ∧ is_digit c = true.
Proof.
  destruct s as [|c l]; simpl; [intros [= <- <-]; done|].
  destruct (is_digit c) eqn:E; [eauto|]. intros [= <- <-]. done.
Qed.

Lemma not_infinity c l : is_digit c = true → ¬ u "Infinity" `prefix_of` (c :: l).
Proof. intros Hc [k E]. by injection E as -> _. Qed.

Lemma float_prefix_number neg s n rest :
  parse_unsigned neg s = Some (n, rest) → float_prefix neg s = n.
Proof.
  unfold parse_unsigned, float_prefix. destruct (span_digits s) as [ip r] eqn:E.
  destruct (int_part_ok ip) eqn:Hok; [|done].
  destruct (int_part_head _ _ _ E Hok) as (c & l & -> & Hc).
  rewrite bool_decide_false by (by apply not_infinity).
  destruct (parse_fraction r) as [[fp r']|] eqn:Ef; [|done].
  rewrite (parse_fraction_scan _ _ _ Ef).
  destruct (scan_exponent r') as [[e r'']|]; [|done]. intros [= <- _].
  destruct ip; [done|]. done.
Qed.

Lemma decimal_literal_number neg s n :
  parse_unsigned neg s = Some (n, []) → decimal_literal neg s = n.
Proof.
  unfold parse_unsigned, decimal_literal. destruct (span_digits s) as [ip r] eqn:E.
  destruct (int_part_ok ip) eqn:Hok; [|done].
  destruct (int_part_head _ _ _ E Hok) as (c & l & -> & Hc).
  rewrite bool_decide_false by (intros H; eapply not_infinity; [done|by rewrite H]).
  destruct (parse_fraction r) as [[fp r']|] eqn:Ef; [|done].
  rewrite (parse_fraction_scan _ _ _ Ef).
  destruct (scan_exponent r') as [[e r'']|]; [|done]. intros [= <- ->].
  destruct ip; [done|]. done.
Qed.

(** The units a printed number is made of. *)
Definition number_unit (c : N) : bool := is_digit c || bool_decide (c ∈ [43; 45; 46; 101]).

Lemma number_unit_separator c : number_unit c = true → is_separator c = false.
Proof.
  unfold number_unit. rewrite orb_true_iff, bool_decide_eq_true. intros [H|H].
  - unfold is_digit in H. apply andb_true_iff in H as [H1%N.leb_le H2%N.leb_le].
    unfold is_separator, is_space. rewrite !orb_false_iff, bool_decide_eq_false.
    split_and!; [|apply andb_false_iff; left; apply N.leb_gt; lia|apply N.eqb_neq; lia].
    rewrite !elem_of_cons, elem_of_nil. lia.
  - rewrite !elem_of_cons, elem_of_nil in H.
    destruct H as [->|[->|[->|[->|[]]]]]; reflexivity.
Qed.

Lemma is_space_separator c : is_separator c = false → is_space c = false.
Proof. unfold is_separator. rewrite orb_false_iff. tauto. Qed.

Lemma number_units_digits s : all_digits s → Forall (λ c, number_unit c = true) s.
Proof. apply Forall_impl. intros c Hc. unfold number_unit. by rewrite Hc. Qed.

Lemma exponent_units e : Forall (λ c, number_unit c = true) (exponent_text e).
Proof.
  destruct (Z_digits_spec (Z.abs e)) as (He%number_units_digits & _); [lia|].
  unfold exponent_text. apply Forall_app. split; [|done].
  destruct (e <? 0)%Z; repeat constructor.
Qed.

Lemma layout_units d q : (0 < d)%Z → Forall (λ c, number_unit c = true) (layout d q).
Proof.
  intros Hd. destruct (Z_digits_spec d) as (Had%number_units_digits & _); [lia|].
  unfold layout. fold (exponent_text (Z.of_nat (length (Z_digits d)) + q - 1)).
  pose proof (exponent_units (Z.of_nat (length (Z_digits d)) + q - 1)) as Hx.
  assert (Hz : ∀ n, Forall (λ c, number_unit c = true) (replicate n 48))
    by (intros n; by apply Forall_replicate).
  destruct (_ && _); [by apply Forall_app|].
  destruct (_ && _).
  { rewrite !Forall_app. split_and!; [by apply Forall_take|repeat constructor|by apply Forall_drop]. }
  destruct (_ && _).
  { rewrite !Forall_app. split_and!; [repeat constructor|done|done]. }
  destruct (Z_digits d) as [|c [|c' ds]]; inversion Had; subst; rewrite ?Forall_app;
    [done|split|split_and!]; try done; by repeat constructor.
Qed.

Lemma number_units n :
  num_printable n = true → Forall (λ c, number_unit c = true) (num_to_jstr n).
Proof.
  destruct n as [s| | |s m e]; try done; simpl.
  - by repeat constructor.
  - destruct (num_to_dec m e) as [[d q]|] eqn:E; [|done]. intros _.
    apply num_to_dec_spec in E as [Hd _]. apply Forall_app. split; [|by apply layout_units].
    destruct s; by repeat constructor.
Qed.

Lemma trim_left_units s : Forall (λ c, number_unit c = true) s → trim_left s = s.
Proof.
  destruct s as [|c s]; [done|]. intros H. inversion H as [|? ? Hc]; subst. simpl.
  by rewrite is_space_separator by (by apply number_unit_separator).
Qed.

Lemma trim_units s : Forall (λ c, number_unit c = true) s → trim s = s.
Proof.
  intros H. unfold trim. rewrite (trim_left_units s H), trim_left_units; [apply reverse_involutive|].
  by apply Forall_reverse.
Qed.

(** Without a sign or a radix prefix a text is read as a decimal literal. *)
Lemma str_to_num_digit c s :
  is_digit c = true → Forall (λ c, number_unit c = true) (c :: s) →
  str_to_num (c :: s) = decimal_literal false (c :: s).
Proof.
  intros Hc H. unfold str_to_num. rewrite trim_units by done.
  inversion H as [|? ? _ Hs]; subst.
  repeat (case_match; subst; try done); inversion Hs; subst; try done.
Qed.

Lemma str_to_num_minus s :
  Forall (λ c, number_unit c = true) s → str_to_num (45 :: s) = decimal_literal true s.
Proof. intros H. unfold str_to_num. by rewrite trim_units by (by constructor). Qed.

(** [Number(String(x))] and [parseFloat(String(x))] are [x]. *)
Lemma parse_number_cases n : num_printable n = true →
  (∃ s, num_to_jstr n = 45 :: s ∧ parse_unsigned true s = Some (n, [])) ∨
  (∃ c s, num_to_jstr n = c :: s ∧ is_digit c = true ∧
          parse_unsigned false (c :: s) = Some (n, [])).
Proof.
  intros Hn. destruct (parse_number_print n [] Hn) as (_ & Hp & c & s & E & Hc); [done|].
  rewrite app_nil_r, E in Hp. rewrite E. destruct Hc as [Hc| ->]; [|by left; eauto].
  right. exists c, s. split; [done|]. split; [done|]. rewrite <- Hp. unfold parse_number.
  repeat (case_match; subst; try done).
Qed.

Lemma str_to_num_print n : num_printable n = true → str_to_num (num_to_jstr n) = n.
Proof.
  intros Hn. pose proof (number_units n Hn) as Hu.
  destruct (parse_number_cases n Hn) as [(s & E & Hp)|(c & s & E & Hc & Hp)]; rewrite E in *.
  - inversion Hu; subst. rewrite str_to_num_minus by done. by apply decimal_literal_number.
  - rewrite str_to_num_digit by done. by apply decimal_literal_number.
Qed.

Lemma parseFloat_print n : num_printable n = true → parseFloat (num_to_jstr n) = n.
Proof.
  intros Hn. pose proof (number_units n Hn) as Hu. unfold parseFloat.
  rewrite trim_left_units by done.
  destruct (parse_number_cases n Hn) as [(s & E & Hp)|(c & s & E & Hc & Hp)]; rewrite E.
  - by eapply float_prefix_number.
  - apply float_prefix_number in Hp.
    repeat (case_match; subst; try done).
Qed.

(** * Fields *)

Definition field (s : jstr) : Prop := s ≠ [] ∧ Forall (λ c, is_separator c = false) s.

Lemma split_from_field s cur insep rest :
  Forall (λ c, is_separator c = false) s → s ≠ [] →
  split_from cur insep (s ++ rest) = split_from (reverse s ++ cur) false rest.
Proof.
  intros H. revert cur insep. induction H as [|c s Hc H IH]; intros cur insep Hne; [done|].
  simpl. rewrite Hc. destruct s as [|d s]; [done|]. rewrite IH by done.
  by rewrite !reverse_cons, <- !app_assoc.
Qed.

Lemma split_from_last s insep : field s → split_from [] insep s = [s].
Proof.
  intros [Hne H]. rewrite <- (app_nil_r s) at 1. rewrite split_from_field by done. simpl.
  by rewrite app_nil_r, reverse_involutive.
Qed.

Lemma split_from_space s insep rest :
  field s → split_from [] insep (s ++ u " " ++ rest) = s :: split_from [] true rest.
Proof.
  intros [Hne H]. rewrite split_from_field by done. simpl.
  by rewrite app_nil_r, reverse_involutive.
Qed.

Lemma field_print n : num_printable n = true → field (num_to_jstr n).
Proof.
  intros Hn. split.
  - destruct (parse_number_cases n Hn) as [(s & -> & _)|(c & s & -> & _)]; done.
  - eapply list.Forall_impl; [by apply number_units|]. apply number_unit_separator.
Qed.

Lemma padded_viewBox_print x y w h :
  num_printable x = true → num_printable y = true → num_printable w = true →
  num_printable h = true →
  padded_viewBox (num_to_jstr x ++ u " " ++ num_to_jstr y ++ u " " ++ num_to_jstr w ++ u " "
                  ++ num_to_jstr h)
  = viewBox_text x y w h.
Proof.
  intros Hx Hy Hw Hh. unfold padded_viewBox, split_fields.
  rewrite !split_from_space, split_from_last by (by apply field_print). simpl.
  by rewrite !str_to_num_print.
Qed.

Lemma padded_height_print h :
  num_printable h = true → padded_height (num_to_jstr h) = Some (num_to_jstr (nadd h PAD)).
Proof.
  intros Hh. unfold padded_height. rewrite parseFloat_print by done.
  by destruct h as [[]| | |].
Qed.

(** * Attributes *)

Lemma get_set k v l : getAttribute k (setAttribute k v l) = Some v.
Proof.
  induction l as [|[k' v'] l IH]; simpl; [by rewrite bool_decide_true|].
  by case_bool_decide as E; simpl; [rewrite bool_decide_true|rewrite bool_decide_false].
Qed.

Lemma get_set_ne k k' v l : k ≠ k' → getAttribute k (setAttribute k' v l) = getAttribute k l.
Proof.
  intros Hne. induction l as [|[k1 v1] l IH]; simpl; [by rewrite bool_decide_false|].
  case_bool_decide as E; simpl; [|by rewrite IH]. subst. by rewrite bool_decide_false.
Qed.

Lemma get_remove_ne k k' l : k ≠ k' → getAttribute k (removeAttribute k' l) = getAttribute k l.
Proof.
  intros Hne. induction l as [|[k1 v1] l IH]; simpl; [done|].
  case_bool_decide as E; simpl; [|by rewrite IH]. subst. by rewrite bool_decide_false.
Qed.

Lemma get_none k l : k ∉ l.*1 → getAttribute k l = None.
Proof.
  induction l as [|[k1 v1] l IH]; csimpl; [done|]. rewrite not_elem_of_cons. intros [Hne H].
  rewrite bool_decide_false by done. auto.
Qed.

Lemma get_remove k l : NoDup l.*1 → getAttribute k (removeAttribute k l) = None.
Proof.
  induction l as [|[k1 v1] l IH]; csimpl; [done|]. rewrite list.NoDup_cons. intros [Hn H].
  case_bool_decide as E; simpl; [subst; by apply get_none|]. rewrite bool_decide_false by done.
  auto.
Qed.

(** The attributes [fix_attributes] may write. *)
Definition touched (k : jstr) : Prop :=
  k = u "style" ∨ k = u "overflow" ∨ k = u "viewBox" ∨ k = u "height".

Lemma fix_untouched k l : ¬ touched k → getAttribute k (fix_attributes l) = getAttribute k l.
Proof.
  unfold touched. intros Hk. unfold fix_attributes.
  repeat case_match; rewrite ?get_set_ne, ?get_remove_ne by tauto; done.
Qed.

Ltac attr_ne := match goal with |- ?a ≠ ?b => by vm_compute end.

(** The attributes after the style and the overflow have been dealt with. *)
Definition restyled (l : list (jstr * jstr)) : list (jstr * jstr) :=
  setAttribute (u "overflow") (u "visible")
    match filled (getAttribute (u "style") l) with
    | Some style =>
        match clean_style style with
        | [] => removeAttribute (u "style") l
        | cleaned => setAttribute (u "style") cleaned l
        end
    | None => l
    end.

Lemma restyled_ne k l : k ≠ u "style" → k ≠ u "overflow" →
  getAttribute k (restyled l) = getAttribute k l.
Proof.
  intros H1 H2. unfold restyled. rewrite get_set_ne by done.
  repeat case_match; rewrite ?get_set_ne, ?get_remove_ne by done; done.
Qed.

Lemma fix_overflow l : getAttribute (u "overflow") (fix_attributes l) = Some (u "visible").
Proof.
  unfold fix_attributes. fold (restyled l).
  assert (H : getAttribute (u "overflow") (restyled l) = Some (u "visible"))
    by (unfold restyled; apply get_set).
  repeat case_match; rewrite ?get_set_ne by attr_ne; done.
Qed.

Lemma fix_viewBox l v : getAttribute (u "viewBox") l = Some v → v ≠ [] →
  getAttribute (u "viewBox") (fix_attributes l) = Some (padded_viewBox v).
Proof.
  intros H Hv. unfold fix_attributes. fold (restyled l).
  rewrite (restyled_ne (u "viewBox")), H by attr_ne. destruct v as [|c v]; [done|]. simpl filled.
  cbv iota beta. repeat case_match; rewrite ?(get_set_ne (u "viewBox") (u "height")) by attr_ne;
    apply get_set.
Qed.

Lemma fix_height l h h' : getAttribute (u "height") l = Some h → h ≠ [] →
  padded_height h = Some h' → getAttribute (u "height") (fix_attributes l) = Some h'.
Proof.
  intros H Hv E. unfold fix_attributes. fold (restyled l).
  rewrite (restyled_ne (u "height")), H by attr_ne. destruct h as [|c h]; [done|].
  simpl filled. cbv iota beta. rewrite E. apply get_set.
Qed.

Lemma fix_style l style : NoDup l.*1 → getAttribute (u "style") l = Some style →
  style ≠ [] → clean_style style = [] → getAttribute (u "style") (fix_attributes l) = None.
Proof.
  intros Hnd H Hne E. unfold fix_attributes. fold (restyled l).
  assert (Hr : getAttribute (u "style") (restyled l) = None).
  { unfold restyled. rewrite get_set_ne by attr_ne. rewrite H.
    destruct style as [|c s]; simpl filled; cbv iota; [done|].
    rewrite E. by apply get_remove. }
  repeat case_match; rewrite ?get_set_ne by attr_ne; done.
Qed.

(** * The style *)

Lemma replace_from_skip m by_ t rest :
  replace_from m by_ (length t) (t ++ rest) = replace_all m by_ rest.
Proof. induction t as [|c t IH]; [|done]. by destruct rest. Qed.

Lemma span_stop p t c rest :
  forallb p t = true → p c = false → span p (t ++ c :: rest) = (t, c :: rest).
Proof.
  intros H Hc. induction t as [|d t IH]; simpl in *; [by rewrite Hc|].
  apply andb_true_iff in H as [-> H]. by rewrite IH.
Qed.

(** A value of a declaration: not empty and without a semicolon. *)
Definition style_value (v : jstr) : Prop := v ≠ [] ∧ forallb (λ c, negb (c =? 59)) v = true.

Lemma max_width_found v rest : style_value v →
  max_width_match (u "max-width:" ++ v ++ u ";" ++ rest)
  = Some (length (u "max-width:" ++ v ++ u ";")).
Proof.
  intros [Hne Hv]. unfold max_width_match.
  change (after_word (u "max-width") (u "max-width:" ++ v ++ u ";" ++ rest))
    with (Some (58 :: (v ++ 59 :: rest))).
  cbv iota. cbn [trim_left]. change (is_space 58) with false. cbv iota.
  rewrite span_stop by done. destruct v as [|c v]; [done|]. f_equal.
  rewrite !length_app. simpl. lia.
Qed.

(** A max-width declaration goes, with its semicolon. *)
Lemma clean_style_max_width v rest : style_value v →
  clean_style (u "max-width:" ++ v ++ u ";" ++ rest) = clean_style rest.
Proof.
  intros Hv. unfold clean_style. do 2 f_equal. unfold replace_all at 1.
  pose proof (max_width_found v rest Hv) as H.
  replace (u "max-width:" ++ v ++ u ";" ++ rest) with ((u "max-width:" ++ v ++ u ";") ++ rest) in *
    by (by rewrite <- !app_assoc).
  set (t := u "max-width:" ++ v ++ u ";") in *.
  destruct t as [|c t'] eqn:E; [done|]. cbn [app replace_from]. cbn [app] in H. rewrite H.
  cbn [length app]. apply replace_from_skip.
Qed.

(** * Properties of [fixSvgClipping] *)

(** For the SVG texts that mermaid returns, a root whose viewBox lists four
    printed numbers, the text that comes out serialises the same root with 24
    units more in the height of the viewBox, and in the height attribute when
    there is one, with the overflow visible and without the maximal width that
    the style set; the other attributes and the content are kept. *)
Theorem svg_padded parse ser code tag l body x y w h
    (Hp : parse code = Ok (Some (Svg tag l body))) (Ht : to_lower tag = u "svg")
    (Hl : NoDup l.*1)
    (Hx : num_printable x = true) (Hy : num_printable y = true)
    (Hw : num_printable w = true) (Hh : num_printable h = true)
    (Hv : getAttribute (u "viewBox") l = Some (num_to_jstr x ++ u " " ++ num_to_jstr y ++ u " "
                                                ++ num_to_jstr w ++ u " " ++ num_to_jstr h)) :
  ∃ l', fixSvgClipping parse ser code
        = match ser (Svg tag l' body) with Ok s => s | Err _ => code end ∧
    getAttribute (u "viewBox") l' = Some (viewBox_text x y w h) ∧
    getAttribute (u "overflow") l' = Some (u "visible") ∧
    (∀ z, num_printable z = true → getAttribute (u "height") l = Some (num_to_jstr z) →
          getAttribute (u "height") l' = Some (num_to_jstr (nadd z PAD))) ∧
    (∀ v, style_value v → getAttribute (u "style") l = Some (u "max-width:" ++ v ++ u ";") →
          getAttribute (u "style") l' = None) ∧
    (∀ k, ¬ touched k → getAttribute k l' = getAttribute k l).
Proof.
  exists (fix_attributes l). split_and!.
  - unfold fixSvgClipping. rewrite Hp. simpl. by rewrite bool_decide_true.
  - rewrite <- padded_viewBox_print by done. apply fix_viewBox; [done|].
    destruct (field_print x Hx) as [Hne _]. by destruct (num_to_jstr x).
  - apply fix_overflow.
  - intros z Hz E. apply (fix_height _ (num_to_jstr z)); [done|by apply field_print|].
    by apply padded_height_print.
  - intros v Hv' E. apply (fix_style _ _ Hl E); [done|].
    rewrite <- (app_nil_r (u ";")). by rewrite clean_style_max_width.
  - intros k. apply fix_untouched.
Qed.

(** A root as mermaid writes it. *)
Definition sample_root : svg_root :=
  Svg (u "svg") [(u "id", u "d1"); (u "width", u "100%"); (u "style", u "max-width: 512.5px;");
                 (u "viewBox", u "-8 0 512.5 174"); (u "role", u "img")] (u "<g/>").

Lemma svg_padded_witness :
  ∃ l', fixSvgClipping (λ _, Ok (Some sample_root)) (λ r, Ok (intersperse (u ";") (attributes r).*2))
                       (u "<svg/>")
        = intersperse (u ";") l'.*2 ∧
    getAttribute (u "viewBox") l' = Some (u "-8 0 512.5 198") ∧
    getAttribute (u "style") l' = None ∧
    getAttribute (u "role") l' = Some (u "img").
Proof.
  destruct (svg_padded (λ _, Ok (Some sample_root)) (λ r, Ok (intersperse (u ";") (attributes r).*2))
              (u "<svg/>") (u "svg") (attributes sample_root) (u "<g/>")
              (num_of_Z (-8)) (S754_zero false) (dec_to_num false 5125 (-1)) (num_of_Z 174))
    as (l' & H1 & H2 & _ & _ & H5 & H6);
    [reflexivity|reflexivity| |reflexivity|reflexivity|reflexivity|reflexivity|vm_compute; reflexivity|].
  - apply (bool_decide_eq_true (NoDup _)). vm_compute. reflexivity.
  - exists l'. split; [exact H1|]. split; [rewrite H2; vm_compute; reflexivity|]. split.
    + apply (H5 (u " 512.5px")); [split; [discriminate|reflexivity]|reflexivity].
    + rewrite H6; [reflexivity|]. intros [E|[E|[E|E]]]; discriminate E.
Defined.

(** A text that does not parse to an svg root, or cannot be serialised again,
    is returned as it came. *)
Lemma svg_kept parse ser code :
  (∀ r, parse code = Ok (Some r) → to_lower (tagName r) ≠ u "svg") ∨ (∀ r, is_ok (ser r) = false) →
  fixSvgClipping parse ser code = code.
Proof.
  intros H. unfold fixSvgClipping. destruct (parse code) as [[r|]|e] eqn:E; simpl; try done.
  case_bool_decide as Ht; [|done]. destruct H as [H|H]; [by destruct (H r eq_refl)|].
  specialize (H (Svg (tagName r) (fix_attributes (attributes r)) (inside r))).
  by destruct (ser _).
Qed.

(** A viewBox that starts with a separator, or lacks a number, is replaced by
    an empty one, and a relative height loses its unit. *)
Example viewBox_lost : padded_viewBox (u " 0 0 100 50") = u "0 0 0 24".
Proof. vm_compute. reflexivity. Qed.

Example height_unit_lost : padded_height (u "100%") = Some (u "124").
Proof. vm_compute. reflexivity. Qed.
