(* ===== verification/MermaidNodes.v ===== *)
(** The nodes of a diagram in the document
    (docs-site/.vitepress/theme/Mermaid.vue, [fixNodeClipping]): enlarging the
    labels that are cut off and the shapes around them. *)

From S2P Require Import Prelude JsNumber JsValue Json JsonRoundtrip MermaidSvg.
Local Open Scope N_scope.

(** * Elements

    An element with its identity, its tag and its element children.  Only
    attributes change while the function runs, so they are kept apart. *)
Inductive elem : Type :=
  | Elem (id : N) (tag : jstr) (kids : list elem).

Section elem_ind.
Variable P : elem → Prop.
Hypothesis Pelem : ∀ id tag kids, Forall P kids → P (Elem id tag kids).

(** Induction with the hypothesis for every child. *)
Fixpoint elem_ind_nested (e : elem) : P e :=
  match e with
  | Elem id tag kids =>
      Pelem id tag kids
        ((fix go l : Forall P l :=
          match l with
          | [] => Forall_nil_2 _
          | e :: l => Forall_cons_2 _ e l (elem_ind_nested e) (go l)
          end) kids)
  end.
End elem_ind.

Definition eid (e : elem) : N := let '(Elem i _ _) := e in i.
Definition etag (e : elem) : jstr := let '(Elem _ t _) := e in t.
Definition ekids (e : elem) : list elem := let '(Elem _ _ l) := e in l.

(** The height and the y attributes of the elements that have them. *)
Abbreviation store := (gmap N jstr).

(** The descendants of an element in document order, each with its parent. *)
Fixpoint below (e : elem) : list (elem * elem) :=
  concat (map (λ k, (k, e) :: below k) (ekids e)).

Definition tagged (tags : list jstr) (e : elem) : bool := bool_decide (etag e ∈ tags).

(** [e.querySelectorAll(tags)], each match with its parent element. *)
Definition querySelectorAll (tags : list jstr) (e : elem) : list (elem * elem) :=
  List.filter (λ '(k, _), tagged tags k) (below e).

(** [e.querySelector(tags)]. *)
Definition querySelector (tags : list jstr) (e : elem) : option elem :=
  fst <$> head (querySelectorAll tags e).

(** [parseFloat(e.getAttribute(..) || "0")]. *)
Definition attr_number (s : store) (i : N) : num :=
  parseFloat (default (u "0") (filled (s !! i))).

(** [a || b] on numbers. *)
Definition num_or (a b : num) : num := if num_truthy a then a else b.

Definition two : num := num_of_Z 2.

Section layout.
(** What the browser's layout says of an element under the current heights:
    its scroll and offset heights, and the top and the height of its bounding
    box, which it may refuse to compute.  [y] holds the y attributes, which
    nothing writes. *)
Context (scrollHeight offsetHeight : store → N → num).
Context (getBBox : store → N → option (num * num)).
Context (y : store).

Definition content_height (s : store) (inner : elem) : num :=
  num_or (scrollHeight s (eid inner)) (num_or (offsetHeight s (eid inner)) (S754_zero false)).

(** One foreignObject: an HTML label. *)
Definition fix_foreign (s : store) (fo_parent : elem * elem) : store :=
  let '(fo, parent) := fo_parent in
  match ekids fo with
  | [] => s
  | inner :: _ =>
      let contentH := content_height s inner in
      let foH := attr_number s (eid fo) in
      if nlt foH contentH then
        let newH := nadd contentH two in
        let dy := nsub newH foH in
        let s := <[eid fo := num_to_jstr newH]> s in
        match querySelector [u "rect"; u "polygon"; u "circle"; u "path"] parent with
        | Some shape =>
            let sh := attr_number s (eid shape) in
            if nlt (S754_zero false) sh then <[eid shape := num_to_jstr (nadd sh dy)]> s else s
        | None => s
        end
      else s
  end.

(** One text element: an SVG label. *)
Definition fix_text (s : store) (text_parent : elem * elem) : store :=
  let '(textEl, parent) := text_parent in
  match getBBox s (eid textEl) with
  | None => s
  | Some (bbox_y, bbox_height) =>
      match querySelector [u "rect"; u "polygon"; u "circle"] parent with
      | None => s
      | Some shape =>
          let sh := attr_number s (eid shape) in
          let sy := attr_number y (eid shape) in
          if nle sh (S754_zero false) then s
          else
            let textBottom := nadd bbox_y bbox_height in
            let shapeBottom := nadd sy sh in
            if nlt shapeBottom textBottom then
              let dy := nadd (nsub textBottom shapeBottom) two in
              <[eid shape := num_to_jstr (nadd sh dy)]> s
            else s
      end
  end.

(** [root] may be absent, and may hold no diagram. *)
Definition fixNodeClipping (root : option elem) (s : store) : store :=
  match root with
  | None => s
  | Some root =>
      match querySelector [u "svg"] root with
      | None => s
      | Some svgEl =>
          let s := fold_left fix_foreign (querySelectorAll [u "foreignObject"] svgEl) s in
          fold_left fix_text (querySelectorAll [u "text"] svgEl) s
      end
  end.

(** * Facts *)

Lemma below_unfold e : below e = concat (map (λ k, (k, e) :: below k) (ekids e)).
Proof. by destruct e. Qed.

(** The elements a pass works on. *)
Definition shape_tags : list jstr := [u "rect"; u "polygon"; u "circle"; u "path"].

Lemma querySelector_tag tags e k : querySelector tags e = Some k → etag k ∈ tags.
Proof.
  unfold querySelector, querySelectorAll. intros H.
  apply fmap_Some in H as ([k' p] & H & ->). apply head_Some_elem_of in H.
  apply list_elem_of_In, filter_In in H as [_ H]. by apply bool_decide_eq_true in H.
Qed.

Lemma querySelector_below tags e k : querySelector tags e = Some k → k ∈ (below e).*1.
Proof.
  unfold querySelector, querySelectorAll. intros H.
  apply fmap_Some in H as ([k' p] & H & ->). apply head_Some_elem_of in H.
  apply list_elem_of_In, filter_In in H as [H _].
  apply list_elem_of_fmap. exists (k', p). split; [done|]. by apply list_elem_of_In.
Qed.

(** The descendants of a parent found below [e] are below [e]. *)
Lemma below_closed e : ∀ k p, (k, p) ∈ below e → ∀ q, q ∈ below p → q ∈ below e.
Proof.
  induction e as [id tag kids IH] using elem_ind_nested. intros k p Hk q Hq.
  rewrite below_unfold in Hk. apply list_elem_of_In, in_concat in Hk as (l & Hl & Hk).
  apply in_map_iff in Hl as (c & <- & Hc).
  apply list_elem_of_In, elem_of_cons in Hk as [[= -> ->]|Hk]; [done|].
  rewrite list.Forall_forall in IH. apply list_elem_of_In in Hc.
  pose proof (IH c Hc k p Hk q Hq) as H.
  rewrite below_unfold. apply list_elem_of_In, in_concat.
  exists ((c, Elem id tag kids) :: below c). split.
  - apply in_map_iff. exists c. split; [done|]. by apply list_elem_of_In.
  - apply list_elem_of_In, elem_of_cons. by right.
Qed.

Lemma NoDup_inj {A B} (f : A → B) l a b :
  NoDup (f <$> l) → a ∈ l → b ∈ l → f a = f b → a = b.
Proof.
  intros Hnd [i Ha]%list_elem_of_lookup [j Hb]%list_elem_of_lookup E.
  assert (i = j) as <-; [|congruence].
  eapply NoDup_lookup; [done| |]; rewrite list_lookup_fmap; [by rewrite Ha|by rewrite Hb, E].
Qed.

(** * What a pass may write *)

Lemma fix_foreign_frame s fo p i :
  i ≠ eid fo → (∀ k, querySelector shape_tags p = Some k → i ≠ eid k) →
  fix_foreign s (fo, p) !! i = s !! i.
Proof.
  intros Hfo Hk. unfold fix_foreign. destruct (ekids fo) as [|inner l]; [done|].
  destruct (nlt _ _); [|done]. fold shape_tags.
  destruct (querySelector shape_tags p) as [k|]; [|by rewrite lookup_insert_ne].
  specialize (Hk k eq_refl).
  destruct (nlt _ _); by rewrite !lookup_insert_ne.
Qed.

Lemma fix_text_frame s t p i :
  (∀ k, querySelector [u "rect"; u "polygon"; u "circle"] p = Some k → i ≠ eid k) →
  fix_text s (t, p) !! i = s !! i.
Proof.
  intros Hk. unfold fix_text. destruct (getBBox _ _) as [[? ?]|]; [|done].
  destruct (querySelector _ p) as [k|]; [|done]. specialize (Hk k eq_refl).
  destruct (nle _ _); [done|]. destruct (nlt _ _); [|done]. by rewrite lookup_insert_ne.
Qed.

(** * Labels that fit *)

(** The label of a foreignObject is not higher than the element. *)
Definition fits (s : store) (fo : elem) : Prop :=
  match ekids fo with
  | [] => True
  | inner :: _ => nlt (attr_number s (eid fo)) (content_height s inner) = false
  end.

(** The content of a label is measured alike whatever the heights, and adding
    two pixels to it is exact enough to print and not to lose height. *)
Definition measured (inner : elem) : Prop :=
  (∀ s s', content_height s inner = content_height s' inner) ∧
  let c := content_height ∅ inner in
  num_printable (nadd c two) = true ∧ nlt (nadd c two) c = false.

Lemma fits_same s s' fo inner l : ekids fo = inner :: l → measured inner →
  s' !! eid fo = s !! eid fo → fits s fo → fits s' fo.
Proof.
  intros E [Hc _] H. unfold fits, attr_number. rewrite E, H. by rewrite (Hc s' s).
Qed.

Lemma attr_number_insert s i n :
  num_printable n = true → attr_number (<[i := num_to_jstr n]> s) i = n.
Proof.
  intros Hn. unfold attr_number. rewrite lookup_insert_eq.
  destruct (field_print n Hn) as [Hne _]. destruct (num_to_jstr n) as [|c t] eqn:E; [done|].
  simpl. rewrite <- E. by apply parseFloat_print.
Qed.

Lemma fix_foreign_fits s fo p :
  (∀ k, querySelector shape_tags p = Some k → eid fo ≠ eid k) →
  (∀ inner l, ekids fo = inner :: l → measured inner) →
  fits (fix_foreign s (fo, p)) fo.
Proof.
  intros Hk Hm. unfold fix_foreign, fits. destruct (ekids fo) as [|inner l]; [done|].
  destruct (Hm inner l eq_refl) as (Hc & Hp & Hn).
  destruct (nlt (attr_number s (eid fo)) (content_height s inner)) eqn:E; [|done].
  fold shape_tags. rewrite (Hc ∅ s) in Hp, Hn. set (c := content_height s inner) in *.
  rewrite (Hc _ s). fold c.
  destruct (querySelector shape_tags p) as [k|]; [|by rewrite attr_number_insert].
  specialize (Hk k eq_refl).
  destruct (nlt (S754_zero false) _); [|by rewrite attr_number_insert].
  unfold attr_number at 1. rewrite lookup_insert_ne by done.
  fold (attr_number (<[eid fo := num_to_jstr (nadd c two)]> s) (eid fo)).
  by rewrite attr_number_insert.
Qed.

(** * The two passes *)

Section tree.
(** The diagram, whose elements have different identities. *)
Context (svgEl : elem) (Hids : NoDup (eid <$> (below svgEl).*1)).

Lemma same_elem a b :
  a ∈ (below svgEl).*1 → b ∈ (below svgEl).*1 → eid a = eid b → a = b.
Proof using Hids. by apply NoDup_inj. Qed.

Lemma shape_in_tree tags e p k :
  (e, p) ∈ below svgEl → querySelector tags p = Some k → k ∈ (below svgEl).*1.
Proof.
  intros He Hk. apply querySelector_below in Hk.
  apply list_elem_of_fmap in Hk as (q & -> & Hq). apply list_elem_of_fmap. exists q.
  split; [done|]. by eapply below_closed.
Qed.

(** A label of the diagram. *)
Definition label (fo p : elem) : Prop := (fo, p) ∈ querySelectorAll [u "foreignObject"] svgEl.

Lemma selected tags e p :
  (e, p) ∈ querySelectorAll tags svgEl → (e, p) ∈ below svgEl ∧ etag e ∈ tags.
Proof.
  intros [H1 H2]%list_elem_of_In%filter_In. apply bool_decide_eq_true in H2.
  split; [by apply list_elem_of_In|done].
Qed.

Lemma in_tree e p : (e, p) ∈ below svgEl → e ∈ (below svgEl).*1.
Proof. intros H. apply list_elem_of_fmap. by exists (e, p). Qed.

(** No shape is a label. *)
Lemma label_not_shape tags fo p e q k : (∀ t, t ∈ tags → t ∈ shape_tags) →
  label fo p → (e, q) ∈ below svgEl → querySelector tags q = Some k → eid fo ≠ eid k.
Proof using Hids.
  intros Ht Hfo He Hk E. apply selected in Hfo as [Hfo Htag].
  assert (fo = k) as <-.
  { apply same_elem; [by eapply in_tree|by eapply shape_in_tree|done]. }
  apply querySelector_tag, Ht in Hk. apply list_elem_of_singleton in Htag.
  rewrite Htag in Hk. revert Hk. apply (bool_decide_eq_false (_ ∈ _)). vm_compute. reflexivity.
Qed.

Context (Hm : ∀ fo p inner l, label fo p → ekids fo = inner :: l → measured inner).

Lemma foreign_step s fo p fo' p' : label fo p → label fo' p' →
  fits s fo ∨ fo = fo' → fits (fix_foreign s (fo', p')) fo.
Proof using Hids Hm.
  intros Hfo Hfo' H. pose proof (selected _ _ _ Hfo) as [Hb _].
  pose proof (selected _ _ _ Hfo') as [Hb' _].
  destruct (decide (eid fo = eid fo')) as [E|Hne].
  - apply same_elem in E as ->; [|by eapply in_tree|by eapply in_tree].
    apply fix_foreign_fits; [|by eauto]. intros k. by eapply label_not_shape.
  - destruct H as [H| ->]; [|done]. destruct (ekids fo) as [|inner l] eqn:E.
    + unfold fits. by rewrite E.
    + eapply fits_same; [done|by eauto| |done]. apply fix_foreign_frame; [done|].
      intros k. by eapply label_not_shape.
Qed.

Lemma text_step s fo p t q : label fo p → (t, q) ∈ below svgEl →
  fits s fo → fits (fix_text s (t, q)) fo.
Proof using Hids Hm.
  intros Hfo Hb H. destruct (ekids fo) as [|inner l] eqn:E; [unfold fits; by rewrite E|].
  eapply fits_same; [done|by eauto| |done]. apply fix_text_frame. intros k.
  eapply label_not_shape; [|done|done].
  intros t' Ht'. change shape_tags with ([u "rect"; u "polygon"; u "circle"] ++ [u "path"]).
  apply elem_of_app. by left.
Qed.

Lemma foreign_pass l s fo p : label fo p → (∀ x, x ∈ l → label x.1 x.2) →
  fits s fo ∨ (fo, p) ∈ l → fits (fold_left fix_foreign l s) fo.
Proof using Hids Hm.
  intros Hfo. revert s. induction l as [|[fo' p'] l IH]; intros s Hl H; simpl.
  - destruct H as [H|H]; [done|]. by apply elem_of_nil in H.
  - pose proof (Hl (fo', p') ltac:(left)) as Hl'. apply IH; [intros x Hx; apply Hl; by right|].
    rewrite elem_of_cons in H. destruct H as [H|[[= -> ->]|H]].
    + left. eapply foreign_step; eauto.
    + left. eapply foreign_step; eauto.
    + by right.
Qed.

Lemma text_pass l s fo p : label fo p → (∀ x, x ∈ l → x ∈ below svgEl) →
  fits s fo → fits (fold_left fix_text l s) fo.
Proof using Hids Hm.
  intros Hfo. revert s. induction l as [|[t q] l IH]; intros s Hl H; simpl; [done|].
  apply IH; [intros x Hx; apply Hl; by right|].
  eapply text_step; [done| |done]. apply Hl. left.
Qed.

Lemma passes_fit s fo p : label fo p →
  fits (fold_left fix_text (querySelectorAll [u "text"] svgEl)
         (fold_left fix_foreign (querySelectorAll [u "foreignObject"] svgEl) s)) fo.
Proof using Hids Hm.
  intros Hfo. eapply text_pass; [done| |].
  - intros [t q] Hx. by apply selected in Hx as [? _].
  - eapply foreign_pass; [done| |by right]. by intros [? ?].
Qed.
End tree.

(** Only labels and shapes are written. *)
Lemma foreign_pass_frame l s i :
  (∀ fo p, (fo, p) ∈ l → i ≠ eid fo ∧ ∀ k, querySelector shape_tags p = Some k → i ≠ eid k) →
  fold_left fix_foreign l s !! i = s !! i.
Proof.
  revert s. induction l as [|[fo p] l IH]; intros s H; simpl; [done|].
  rewrite IH by (intros fo' p' Hin; apply H; by right).
  destruct (H fo p) as [H1 H2]; [by left|]. by apply fix_foreign_frame.
Qed.

Lemma text_pass_frame l s i :
  (∀ t p, (t, p) ∈ l →
     ∀ k, querySelector [u "rect"; u "polygon"; u "circle"] p = Some k → i ≠ eid k) →
  fold_left fix_text l s !! i = s !! i.
Proof.
  revert s. induction l as [|[t p] l IH]; intros s H; simpl; [done|].
  rewrite IH by (intros t' p' Hin; apply (H t'); by right).
  apply fix_text_frame. apply (H t). by left.
Qed.
End layout.

(** The identities of the elements the function may resize. *)
Definition resizable (svgEl : elem) (i : N) : Prop :=
  ∃ e p, (e, p) ∈ below svgEl ∧ eid e = i ∧ etag e ∈ u "foreignObject" :: shape_tags.

Lemma shape_resizable svgEl tags e p k : (∀ t, t ∈ tags → t ∈ shape_tags) →
  (e, p) ∈ below svgEl → querySelector tags p = Some k → resizable svgEl (eid k).
Proof.
  intros Ht He Hk. pose proof (shape_in_tree _ _ _ _ _ He Hk) as Hin.
  apply list_elem_of_fmap in Hin as ([k' q] & -> & Hq). exists k', q.
  split; [done|]. split; [done|]. right. by eapply Ht, querySelector_tag.
Qed.

(** * Property *)

(** In a document whose diagram has distinct elements, after
    [fixNodeClipping] every HTML label fits in its foreignObject, whatever the
    order in which labels and shapes share parents, as long as the browser
    measures the contents alike before and after; and nothing but the heights
    of foreignObjects and of rect, polygon, circle and path shapes of that
    diagram has changed. *)
Theorem nodes_fit scrollHeight offsetHeight getBBox y root svgEl s
    (Hq : querySelector [u "svg"] root = Some svgEl)
    (Hids : NoDup (eid <$> (below svgEl).*1))
    (Hm : ∀ fo p inner l, label svgEl fo p → ekids fo = inner :: l →
          measured scrollHeight offsetHeight inner) :
  let s' := fixNodeClipping scrollHeight offsetHeight getBBox y (Some root) s in
  (∀ fo p, label svgEl fo p → fits scrollHeight offsetHeight s' fo) ∧
  (∀ i, ¬ resizable svgEl i → s' !! i = s !! i).
Proof.
  cbv zeta. unfold fixNodeClipping. rewrite Hq. split; [intros fo p Hfo; by eapply passes_fit|].
  intros i Hi. rewrite text_pass_frame, foreign_pass_frame; [done| |].
  - intros fo p [Hb Ht]%selected. split.
    + intros ->. apply Hi. exists fo, p. split; [done|]. split; [done|].
      apply list_elem_of_singleton in Ht. rewrite Ht. by left.
    + intros k Hk ->. apply Hi. by eapply shape_resizable.
  - intros t p [Hb _]%selected k Hk ->. apply Hi. eapply shape_resizable; [|done|done].
    intros t' Ht'. change shape_tags with ([u "rect"; u "polygon"; u "circle"] ++ [u "path"]).
    apply elem_of_app. by left.
Qed.

(** A node of a flowchart whose label is one line too long. *)
Definition sample_svg : elem :=
  Elem 1 (u "svg") [Elem 2 (u "g") [Elem 3 (u "rect") [];
    Elem 4 (u "foreignObject") [Elem 5 (u "div") []]; Elem 6 (u "text") []]].

Definition sample_heights : store := {[3 := u "34"; 4 := u "24"]}.

Definition sample_scroll (s : store) (i : N) : num := num_of_Z (if i =? 5 then 40 else 0).

Lemma nodes_fit_witness :
  let s' := fixNodeClipping sample_scroll sample_scroll (λ _ _, None) ∅
              (Some (Elem 0 (u "div") [sample_svg])) sample_heights in
  fits sample_scroll sample_scroll s' (Elem 4 (u "foreignObject") [Elem 5 (u "div") []]) ∧
  s' !! 6 = None ∧ s' !! 4 = Some (u "42") ∧ s' !! 3 = Some (u "52").
Proof.
  destruct (nodes_fit sample_scroll sample_scroll (λ _ _, None) ∅
              (Elem 0 (u "div") [sample_svg]) sample_svg sample_heights) as [H1 H2].
  - reflexivity.
  - apply (bool_decide_eq_true (NoDup _)). vm_compute. reflexivity.
  - intros fo p inner l Hfo E. apply list_elem_of_In in Hfo. simpl in Hfo.
    destruct Hfo as [[= <- <-]|[]]. simpl in E. injection E as <- <-.
    split; [reflexivity|split; reflexivity].
  - split; [|split; [|split; vm_compute; reflexivity]].
    + apply (H1 _ (Elem 2 (u "g") [Elem 3 (u "rect") [];
        Elem 4 (u "foreignObject") [Elem 5 (u "div") []]; Elem 6 (u "text") []])).
      apply list_elem_of_In. left. reflexivity.
    + rewrite H2; [reflexivity|]. intros (e & p & He & Ei & Ht). apply list_elem_of_In in He.
      simpl in He. destruct He as [[= <- <-]|[[= <- <-]|[[= <- <-]|[[= <- <-]|[[= <- <-]|[]]]]]];
        try discriminate Ei. apply (bool_decide_eq_true (_ ∈ _)) in Ht. vm_compute in Ht. discriminate Ht.
Defined.
