(* ===== verification/MermaidZoom.v ===== *)
(** Zooming and the full-screen overlay of a diagram
    (docs-site/.vitepress/theme/Mermaid.vue): the reactive state, one
    definition per handler, and the integer scale the floating-point one
    implements. *)

From S2P Require Import Prelude JsNumber JsValue.
Local Open Scope Z_scope.

(** * State *)

(** The scroll offsets of a viewport element. *)
Record view : Type := View { scrollTop : Z; scrollLeft : Z }.

Definition origin : view := View 0 0.

(** [overlayViewport] is the template ref, filled and cleared when Vue flushes
    the DOM; [awaiting] counts the calls of [openFullscreen] waiting for that
    flush; [focused] says that the focus is inside the overlay; [overflow] is
    [document.body.style.overflow]. *)
Record zoom : Type := Zoom {
  scale : num;
  savedScale : num;
  fullscreen : bool;
  overflow : jstr;
  viewport : view;
  overlayViewport : option view;
  awaiting : nat;
  focused : bool;
  mounted : bool;
}.

(** The number written [z / 10] in the source. *)
Definition tenths (z : Z) : num := dec_to_num false z (-1).

Definition MIN_SCALE : num := tenths 3.
Definition MAX_SCALE : num := tenths 50.

Definition setup : zoom :=
  Zoom (tenths 10) (tenths 10) false [] origin None 0 false true.

Definition set_scale (x : num) (z : zoom) : zoom :=
  Zoom x (savedScale z) (fullscreen z) (overflow z) (viewport z)
       (overlayViewport z) (awaiting z) (focused z) (mounted z).

(** * Handlers *)

Definition clamp (v : num) : num := nmin MAX_SCALE (nmax MIN_SCALE v).

(** [clamp(+(scale.value + delta).toFixed(2))]. *)
Definition scaled_by (delta x : num) : num :=
  clamp (str_to_num (to_fixed 2 (nadd x delta))).

Definition zoomIn (z : zoom) : zoom := set_scale (scaled_by (tenths 2) (scale z)) z.

(** [x - 0.2] is [x + -0.2]. *)
Definition zoomOut (z : zoom) : zoom :=
  set_scale (clamp (str_to_num (to_fixed 2 (nsub (scale z) (tenths 2))))) z.

(** The viewport on show goes back to the top left, if it is in the DOM. *)
Definition zoomReset (z : zoom) : zoom :=
  let z := set_scale (tenths 10) z in
  if fullscreen z then
    Zoom (scale z) (savedScale z) true (overflow z) (viewport z)
         ((λ _, origin) <$> overlayViewport z) (awaiting z) (focused z) (mounted z)
  else
    Zoom (scale z) (savedScale z) false (overflow z) origin
         (overlayViewport z) (awaiting z) (focused z) (mounted z).

Definition onWheel (ctrlKey metaKey : bool) (deltaY : num) (z : zoom) : zoom :=
  if negb ctrlKey && negb metaKey then z
  else
    let delta := if nlt (S754_zero false) deltaY then dec_to_num true 1 (-1) else tenths 1 in
    set_scale (scaled_by delta (scale z)) z.

(** Up to [await nextTick()]. *)
Definition openFullscreen (z : zoom) : zoom :=
  Zoom (scale z) (scale z) true (u "hidden") (viewport z)
       (overlayViewport z) (S (awaiting z)) (focused z) (mounted z).

Definition closeFullscreen (z : zoom) : zoom :=
  Zoom (savedScale z) (savedScale z) false [] (viewport z)
       (overlayViewport z) (awaiting z) (focused z) (mounted z).

(** Vue's flush: the overlay enters the DOM with its viewport at the origin,
    stays, or leaves with the focus it held. *)
Definition flush (z : zoom) : zoom :=
  let overlay := if fullscreen z then Some (default origin (overlayViewport z)) else None in
  Zoom (scale z) (savedScale z) (fullscreen z) (overflow z) (viewport z)
       overlay (awaiting z) (focused z && fullscreen z) (mounted z).

(** A tick: the flush, then what the waiting calls of [openFullscreen] do,
    which moves the focus to the overlay if the document has one. *)
Definition tick (z : zoom) : zoom :=
  let z := flush z in
  Zoom (scale z) (savedScale z) (fullscreen z) (overflow z) (viewport z) (overlayViewport z) 0
       (focused z || (negb (awaiting z =? 0)%nat && bool_decide (is_Some (overlayViewport z))))
       (mounted z).

(** [@keydown.esc] on the overlay hears only what is typed inside it. *)
Definition escape (z : zoom) : zoom := if focused z then closeFullscreen z else z.

(** The reader scrolls the viewport on show. *)
Definition scroll (v : view) (z : zoom) : zoom :=
  let inline := match overlayViewport z with Some _ => viewport z | None => v end in
  Zoom (scale z) (savedScale z) (fullscreen z) (overflow z) inline
       ((λ _, v) <$> overlayViewport z) (awaiting z) (focused z) (mounted z).

(** The focus enters or leaves the overlay, by click or by keyboard. *)
Definition refocus (b : bool) (z : zoom) : zoom :=
  Zoom (scale z) (savedScale z) (fullscreen z) (overflow z) (viewport z) (overlayViewport z)
       (awaiting z) (b && bool_decide (is_Some (overlayViewport z))) (mounted z).

(** The page goes away: the observer is disconnected and the elements leave
    the document; nothing else is undone. *)
Definition onUnmounted (z : zoom) : zoom :=
  Zoom (scale z) (savedScale z) (fullscreen z) (overflow z) (viewport z) None 0 false false.

(** The style of the diagram, and the label [{{ Math.round(scale * 100) }}%]. *)
Definition innerStyle (z : zoom) : list (jstr * jstr) := [
  (u "transform", u "scale(" ++ num_to_jstr (scale z) ++ u ")");
  (u "transformOrigin", u "top left")].
Definition zoom_label (z : zoom) : jstr :=
  num_to_jstr (math_round (nmul (scale z) (num_of_Z 100))) ++ u "%".

(** * Runs *)

Inductive event : Type :=
  | ZoomIn
  | ZoomOut
  | ZoomReset
  | Wheel (ctrlKey metaKey : bool) (deltaY : num)
  | Open
  | Close
  | Escape
  | Scroll (v : view)
  | Focus (b : bool)
  | Tick
  | Unmount.

(** What an event does; a component that is gone hears none. *)
Definition step (z : zoom) (e : event) : zoom :=
  if mounted z then
    match e with
    | ZoomIn => zoomIn z
    | ZoomOut => zoomOut z
    | ZoomReset => zoomReset z
    | Wheel c m d => onWheel c m d z
    | Open => openFullscreen z
    | Close => closeFullscreen z
    | Escape => escape z
    | Scroll v => scroll v z
    | Focus b => refocus b z
    | Tick => tick z
    | Unmount => onUnmounted z
    end
  else z.

Definition run : zoom → list event → zoom := foldl step.

(** * The abstract viewer

    A level in tenths, the level to come back to, and whether the overlay is
    open. *)
Record spec : Type := Spec { level : Z; saved : Z; opened : bool }.

Definition spec_setup : spec := Spec 10 10 false.

Definition bounded (k : Z) : Z := Z.min 50 (Z.max 3 k).

(** [live] tells whether Escape reaches the overlay. *)
Definition spec_step (live : bool) (s : spec) (e : event) : spec :=
  match e with
  | ZoomIn => Spec (bounded (level s + 2)) (saved s) (opened s)
  | ZoomOut => Spec (bounded (level s - 2)) (saved s) (opened s)
  | ZoomReset => Spec 10 (saved s) (opened s)
  | Wheel c m d =>
      if c || m then
        Spec (bounded (level s + (if nlt (S754_zero false) d then -1 else 1))) (saved s) (opened s)
      else s
  | Open => Spec (level s) (level s) true
  | Close => Spec (saved s) (saved s) false
  | Escape => if live then Spec (saved s) (saved s) false else s
  | Scroll _ | Focus _ | Tick | Unmount => s
  end.

(** The abstract run beside the concrete one. *)
Fixpoint spec_run (z : zoom) (s : spec) (es : list event) : spec :=
  match es with
  | [] => s
  | e :: es => spec_run (step z e) (if mounted z then spec_step (focused z) s e else s) es
  end.

Definition in_range (k : Z) : Prop := 3 ≤ k ≤ 50.

(** The state holds exactly what the abstract one says. *)
Definition refines (z : zoom) (s : spec) : Prop :=
  in_range (level s) ∧ in_range (saved s) ∧
  scale z = tenths (level s) ∧ savedScale z = tenths (saved s) ∧ fullscreen z = opened s.

(** * One step of the scale

    The 48 levels, each with the three distances the handlers move. *)
Definition levels : list Z := seqZ 3 48.

Lemma levels_spec k : in_range k → k ∈ levels.
Proof. intros [??]. apply elem_of_seqZ. lia. Qed.

(** [k / 10] in decimal notation. *)
Definition tenths_text (k : Z) : jstr :=
  Z_digits (k / 10) ++ if k mod 10 =? 0 then [] else u "." ++ Z_digits (k mod 10).

Definition level_ok (k : Z) : bool :=
  bool_decide (scaled_by (tenths 2) (tenths k) = tenths (bounded (k + 2)))
  && bool_decide (clamp (str_to_num (to_fixed 2 (nsub (tenths k) (tenths 2))))
                  = tenths (bounded (k - 2)))
  && bool_decide (scaled_by (dec_to_num true 1 (-1)) (tenths k) = tenths (bounded (k + -1)))
  && bool_decide (scaled_by (tenths 1) (tenths k) = tenths (bounded (k + 1)))
  && bool_decide (num_to_jstr (math_round (nmul (tenths k) (num_of_Z 100))) = Z_digits (10 * k))
  && bool_decide (num_to_jstr (tenths k) = tenths_text k).

Lemma levels_ok : forallb level_ok levels = true.
Proof. vm_compute. reflexivity. Qed.

Lemma level_steps k : in_range k → level_ok k = true.
Proof.
  intros Hk. pose proof levels_ok as H. rewrite forallb_forall in H.
  apply H, list_elem_of_In, levels_spec, Hk.
Qed.

Lemma bounded_range k : in_range (bounded k).
Proof. unfold in_range, bounded. lia. Qed.

Ltac use_level k Hk :=
  let H := fresh in
  pose proof (level_steps k Hk) as H; unfold level_ok in H;
  rewrite !andb_true_iff, !bool_decide_eq_true in H; destruct H as [[[[[? ?] ?] ?] ?] ?].

Lemma zoom_label_level z k : in_range k → scale z = tenths k →
  zoom_label z = Z_digits (10 * k) ++ u "%".
Proof. intros Hk E. use_level k Hk. unfold zoom_label. rewrite E. congruence. Qed.

Lemma innerStyle_level z k : in_range k → scale z = tenths k →
  (u "transform", u "scale(" ++ tenths_text k ++ u ")") ∈ innerStyle z.
Proof.
  intros Hk E. use_level k Hk. unfold innerStyle. rewrite E.
  replace (num_to_jstr (tenths k)) with (tenths_text k). left.
Qed.

Lemma refines_setup : refines setup spec_setup.
Proof. unfold refines, in_range. simpl. repeat split; lia. Qed.

Lemma refines_step z s e : mounted z = true →
  refines z s → refines (step z e) (spec_step (focused z) s e).
Proof.
  intros Hm (Hl & Hs & E & E' & Ef). unfold step. rewrite Hm. use_level (level s) Hl.
  unfold refines. destruct e as [| | |c m d| | | |v|b| |]; simpl.
  - rewrite E. auto using bounded_range.
  - rewrite E. auto using bounded_range.
  - unfold zoomReset. simpl. destruct (fullscreen z); simpl;
      (refine (conj _ (conj Hs (conj _ (conj E' _)))); [split; lia | done | done]).
  - unfold onWheel. destruct c, m; simpl; rewrite ?E; auto 10;
      (destruct (nlt _ d); auto 10 using bounded_range).
  - auto.
  - auto.
  - unfold escape. destruct (focused z); simpl; auto 10.
  - auto 10.
  - auto 10.
  - auto 10.
  - auto 10.
Qed.

Lemma refines_run z s es : refines z s → refines (run z es) (spec_run z s es).
Proof.
  revert z s. induction es as [|e es IH]; intros z s H; simpl; [done|].
  apply IH. destruct (mounted z) eqn:Hm; [by apply refines_step|].
  unfold step. by rewrite Hm.
Qed.

(** * Well-formed states *)

(** The body is locked exactly while the viewer is full screen, the focus is
    inside an overlay that exists, and a viewer that is gone has no overlay. *)
Definition well_formed (z : zoom) : Prop :=
  (mounted z = true → overflow z = if fullscreen z then u "hidden" else []) ∧
  (focused z = true → is_Some (overlayViewport z)) ∧
  (mounted z = false → overlayViewport z = None ∧ awaiting z = 0%nat).

Lemma well_formed_step z e : well_formed z → well_formed (step z e).
Proof.
  intros W. unfold step. destruct (mounted z) eqn:Hm; [|done].
  destruct W as (Ho & Hf & Hu). specialize (Ho Hm). unfold well_formed.
  destruct e as [| | |c m d| | | |v|b| |]; simpl; rewrite ?Hm.
  - done.
  - done.
  - unfold zoomReset. simpl. destruct (fullscreen z), (overlayViewport z); simpl; rewrite Hm;
      (split; [done|]); (split; [|congruence]); eauto.
  - unfold onWheel. destruct c, m; simpl; rewrite ?Hm; done.
  - done.
  - done.
  - unfold escape. destruct (focused z) eqn:E; simpl; rewrite ?Hm, ?E; done.
  - split; [done|]. split; [|congruence]. destruct (overlayViewport z); simpl; eauto.
  - split; [done|]. split; [|congruence]. intros [_ H]%andb_true_iff.
    by apply bool_decide_eq_true in H.
  - split; [done|]. split; [|congruence]. destruct (fullscreen z); simpl; eauto.
    rewrite andb_false_r. simpl. rewrite andb_false_r. done.
  - done.
Qed.

Lemma well_formed_run es z : well_formed z → well_formed (run z es).
Proof.
  revert z. induction es as [|e es IH]; intros z H; simpl; [done|].
  by apply IH, well_formed_step.
Qed.

(** * Inside the overlay *)

(** The events that neither open nor leave the overlay. *)
Definition stays (e : event) : bool :=
  match e with
  | Open | Close | Escape | Unmount => false
  | _ => true
  end.

(** What the overlay keeps until it is closed. *)
Definition holds (x : num) (v : view) (z : zoom) : Prop :=
  mounted z = true ∧ fullscreen z = true ∧ savedScale z = x ∧ viewport z = v ∧
  is_Some (overlayViewport z).

Lemma holds_step x v z e : stays e = true → holds x v z → holds x v (step z e).
Proof.
  intros He (Hm & Hf & Hx & Hv & w & Hw). unfold step. rewrite Hm.
  destruct e as [| | |c m d| | | |v'|b| |]; try discriminate He.
  - by exact (conj Hm (conj Hf (conj Hx (conj Hv (mk_is_Some _ _ Hw))))).
  - by exact (conj Hm (conj Hf (conj Hx (conj Hv (mk_is_Some _ _ Hw))))).
  - unfold holds, zoomReset. simpl. rewrite Hf. simpl. rewrite Hw. simpl. eauto 8.
  - unfold onWheel. destruct (negb c && negb m);
      by exact (conj Hm (conj Hf (conj Hx (conj Hv (mk_is_Some _ _ Hw))))).
  - unfold holds, scroll. simpl. rewrite Hw. simpl. eauto 8.
  - by exact (conj Hm (conj Hf (conj Hx (conj Hv (mk_is_Some _ _ Hw))))).
  - unfold holds, tick. simpl. rewrite Hf. eauto 8.
Qed.

Lemma holds_run x v es z : forallb stays es = true → holds x v z → holds x v (run z es).
Proof.
  revert z. induction es as [|e es IH]; intros z He H; simpl in *; [done|].
  apply andb_true_iff in He as [He Hes]. by apply IH; [|apply holds_step].
Qed.

Lemma holds_open z : mounted z = true → holds (scale z) (viewport z) (step (step z Open) Tick).
Proof.
  intros Hm. unfold step at 2. rewrite Hm. unfold step, openFullscreen. simpl. rewrite Hm.
  unfold holds. simpl. eauto 8.
Qed.

Lemma closes x v z : holds x v z →
  let z' := step z Close in
  scale z' = x ∧ fullscreen z' = false ∧ overflow z' = [] ∧ viewport z' = v.
Proof. intros (Hm & _ & Hx & Hv & _). unfold step. rewrite Hm. simpl. auto. Qed.

Lemma run_overlay z es :
  run z (Open :: Tick :: es ++ [Close]) = step (run (step (step z Open) Tick) es) Close.
Proof. unfold run. cbn [foldl]. rewrite foldl_app. reflexivity. Qed.

Lemma run_gone es z : mounted z = false → run z es = z.
Proof.
  intros Hm. induction es as [|e es IH]; simpl; [done|]. unfold step. by rewrite Hm.
Qed.

(** * Properties *)

(** C26: however the reader zooms, wheels, opens and closes the overlay, the
    viewer is at a whole number of tenths between 0.3 and 5, the very double
    that the source's literal for it denotes: it follows an integer counter
    that moves by one or two and stays in range, its label reads ten times the
    counter, and its transform shows the tenths with at most one decimal. *)
Theorem zoom_refines es :
  let z := run setup es in
  let s := spec_run setup spec_setup es in
  refines z s ∧ zoom_label z = Z_digits (10 * level s) ++ u "%" ∧
  (u "transform", u "scale(" ++ tenths_text (level s) ++ u ")") ∈ innerStyle z.
Proof.
  cbv zeta. pose proof (refines_run _ _ es refines_setup) as H.
  split; [done|]. destruct H as (Hl & _ & E & _).
  split; [by apply zoom_label_level|by apply innerStyle_level].
Qed.

(** C27: as long as the viewer is mounted, the page behind is locked exactly
    while it is full screen; in every state a run can reach, the focus is only
    ever held by an overlay that is in the document, and an unmounted viewer has
    no overlay left and leaves the page for good as it was: locked, if it was
    full screen. *)
Theorem zoom_well_formed es :
  well_formed (run setup es) ∧
  ∀ es', overflow (run setup (es ++ Unmount :: es')) = overflow (run setup es).
Proof.
  split; [by apply well_formed_run|]. intros es'.
  assert (E : run setup (es ++ Unmount :: es') = run (step (run setup es) Unmount) es')
    by (unfold run; by rewrite foldl_app).
  rewrite E. unfold step. destruct (mounted (run setup es)) eqn:Hm; by rewrite run_gone.
Qed.

(** Whatever is done inside the overlay, closing it brings back the scale
    the diagram had when it was opened, unlocks the page and leaves the inline
    diagram scrolled where it was. *)
Theorem close_restores z es (Hm : mounted z = true) (Hes : forallb stays es = true) :
  let z' := run z (Open :: Tick :: es ++ [Close]) in
  scale z' = scale z ∧ fullscreen z' = false ∧ overflow z' = [] ∧ viewport z' = viewport z.
Proof.
  rewrite run_overlay. by apply closes, holds_run, holds_open.
Qed.

Lemma close_restores_witness :
  let z' := run setup (ZoomIn :: Open :: Tick :: [ZoomReset; ZoomOut; Wheel true false (tenths 5)]
                       ++ [Close]) in
  scale z' = tenths 12 ∧ overflow z' = [].
Proof.
  pose proof (close_restores (zoomIn setup) [ZoomReset; ZoomOut; Wheel true false (tenths 5)]
                eq_refl eq_refl) as H.
  simpl in H. destruct H as (Hs & _ & Ho & _).
  split; [exact Hs | exact Ho].
Defined.

(** A page left while its diagram is full screen stays locked: unmounting
    removes the overlay, and no later event restores the body's overflow. *)
Lemma unmount_stays_locked es :
  let z := run setup (Open :: Tick :: Unmount :: es) in
  overflow z = u "hidden" ∧ overlayViewport z = None.
Proof. simpl. by rewrite run_gone. Qed.
