(* ===== verification/MermaidChart.v ===== *)
(** Rendering a diagram (docs-site/.vitepress/theme/Mermaid.vue): the life of
    the component, from the settings it imports to its unmounting, and
    [renderChart], whose runs may overlap. *)

From S2P Require Import Prelude JsNumber JsValue Json MermaidSvg.
Local Open Scope N_scope.

(** * decodeURIComponent *)

(** One escaped byte at the head of a string. *)
Definition escaped_byte (s : jstr) : option (N * jstr) :=
  match s with
  | 37 :: a :: b :: s => a ← hex_value a; b ← hex_value b; Some (16 * a + b, s)
  | _ => None
  end.

(** [n] escaped continuation bytes, most significant first. *)
Fixpoint continuation (n : nat) (acc : N) (s : jstr) : option (N * jstr) :=
  match n with
  | O => Some (acc, s)
  | S n =>
      '(b, s) ← escaped_byte s;
      if b / 64 =? 2 then continuation n (64 * acc + b mod 64) s else None
  end.

(** The number of bytes after a leading byte and the payload of that byte. *)
Definition leading (b : N) : option (nat * N) :=
  if (192 <=? b) && (b <? 224) then Some (1%nat, b mod 32)
  else if (224 <=? b) && (b <? 240) then Some (2%nat, b mod 16)
  else if (240 <=? b) && (b <? 248) then Some (3%nat, b mod 8)
  else None.

(** The least code point that needs [n] continuation bytes. *)
Definition least (n : nat) : N :=
  match n with
  | 1%nat => 128
  | 2%nat => 2048
  | _ => 65536
  end.

(** The code units of a scalar value in UTF-16. *)
Definition utf16 (c : N) : jstr :=
  if c <? 65536 then [c] else [55296 + (c - 65536) / 1024; 56320 + (c - 65536) mod 1024].

Definition scalar (c : N) : bool := (c <? 55296) || ((57344 <=? c) && (c <? 1114112)).

(** The character an escape sequence at the head of a string stands for. *)
Definition escaped_char (s : jstr) : option (jstr * jstr) :=
  '(b, s) ← escaped_byte s;
  if b <? 128 then Some ([b], s)
  else
    '(n, payload) ← leading b;
    '(c, s) ← continuation n payload s;
    if (least n <=? c) && scalar c then Some (utf16 c, s) else None.

(** Every step consumes a unit, so the length is enough fuel; [None] is an
    URIError. *)
Fixpoint decode_from (fuel : nat) (s : jstr) : option jstr :=
  match s, fuel with
  | [], _ => Some []
  | _, O => None
  | 37 :: _, S fuel => '(c, s) ← escaped_char s; app c <$> decode_from fuel s
  | c :: s, S fuel => cons c <$> decode_from fuel s
  end.

Definition decodeURIComponent (s : jstr) : option jstr := decode_from (length s) s.

Example decode_text : decodeURIComponent (u "a%20-%3E%E2%82%AC") = Some (u "a ->" ++ [8364]).
Proof. vm_compute. reflexivity. Qed.

Example decode_truncated : decodeURIComponent (u "%E2%82") = None.
Proof. vm_compute. reflexivity. Qed.

(** Whether a string has an image: a less-than sign and [img], at least one
    more unit, then a greater-than sign. *)
Fixpoint has_image (s : jstr) : bool :=
  match s with
  | [] => false
  | _ :: s' =>
      match s with
      | 60 :: 105 :: 109 :: 103 :: _ :: r => bool_decide (62 ∈ r) || has_image s'
      | _ => has_image s'
      end
  end.

(** * State *)

(** The configuration object given to mermaid. *)
Abbreviation settings := (list (jstr * jsval)).

Definition default_settings : settings := [
  (u "securityLevel", jstr_of "loose");
  (u "startOnLoad", JBool false);
  (u "externalDiagrams", JArr [])].

(** Where [onMounted] stands: awaiting the import, awaiting the first
    rendering, or done. *)
Inductive phase : Type :=
  | Importing
  | FirstRender
  | Done.

(** A call of [mermaid.render] under way, and whether [onMounted] awaits it. *)
Record rendering : Type := Rendering { theme_config : settings; first : bool }.

Inductive clip : Type :=
  | Inline
  | Overlay.

(** [dark] and [full] are read from the document and from the viewer of
    MermaidZoom; [clipped] lists the calls of [fixNodeClipping], whose effect
    is in MermaidNodes; [image_timer] says that a further rendering is awaiting
    the images of the page. *)
Record chart : Type := Chart {
  pluginSettings : settings;
  svg : option jstr;
  dark : bool;
  full : bool;
  observing : bool;
  unmounted : bool;
  mount_phase : phase;
  renderings : list rendering;
  clipped : list clip;
  image_timer : bool;
}.

Section chart.
(** The diagram's source as the page escapes it and the theme of the page;
    mermaid, which may refuse a configuration and renders or rejects; the
    browser's parser and serialiser; the texts of exceptions. *)
Context (graph mermaidPageTheme : jstr).
Context (initialize : settings → result jstr ()).
Context (render : settings → jstr → result jstr jstr).
Context (parseFromString : jstr → result jstr (option svg_root)).
Context (serializeToString : svg_root → result jstr jstr).
Context (uri_error : jstr).

(** The configuration of a rendering: the page's theme, and dark over it. *)
Definition mermaidConfig (c : chart) : settings :=
  let l := pluginSettings c in
  let l := match mermaidPageTheme with
           | [] => l
           | theme => obj_set l (u "theme", JStr theme)
           end in
  if dark c then obj_set l (u "theme", jstr_of "dark") else l.

(** What is shown for an SVG text and for an exception. *)
Definition shown (salt svgCode : jstr) : jstr :=
  fixSvgClipping parseFromString serializeToString svgCode
  ++ u " <span style=" ++ [34] ++ u "display: none" ++ [34] ++ u ">" ++ salt ++ u "</span>".

Definition failed (e : jstr) : jstr :=
  u "<pre style=" ++ [34] ++ u "color:var(--vp-c-danger-1)" ++ [34] ++ u ">" ++ e ++ u "</pre>".

Definition set_svg (s : jstr) (c : chart) : chart :=
  Chart (pluginSettings c) (Some s) (dark c) (full c) (observing c) (unmounted c) (mount_phase c)
        (renderings c) (clipped c) (image_timer c).

Definition set_phase (p : phase) (timer : bool) (c : chart) : chart :=
  Chart (pluginSettings c) (svg c) (dark c) (full c) (observing c) (unmounted c) p
        (renderings c) (clipped c) timer.

(** The rest of [onMounted] after the first rendering: look for images, which
    throws on a source that does not decode. *)
Definition first_done (c : chart) : chart :=
  let images := match decodeURIComponent graph with Some s => has_image s | None => false end in
  set_phase Done images c.

(** [renderChart] up to [await mermaid.render]; the exceptions of
    [initialize] and of the decoding are caught at once. *)
Definition renderChart (is_first : bool) (c : chart) : chart :=
  let config := mermaidConfig c in
  let outcome : result jstr () :=
    initialize config;;
    match decodeURIComponent graph with
    | Some _ => Ok ()
    | None => Err uri_error
    end in
  match outcome with
  | Err e =>
      let c := set_svg (failed e) c in
      if is_first then first_done c else c
  | Ok _ =>
      Chart (pluginSettings c) (svg c) (dark c) (full c) (observing c) (unmounted c)
            (mount_phase c) (renderings c ++ [Rendering config is_first]) (clipped c)
            (image_timer c)
  end.

(** The rest of [renderChart] when the rendering of a configuration settles. *)
Definition rendered (salt : jstr) (r : rendering) (c : chart) : chart :=
  let c :=
    match render (theme_config r) (default [] (decodeURIComponent graph)) with
    | Ok svgCode =>
        let c := set_svg (shown salt svgCode) c in
        Chart (pluginSettings c) (svg c) (dark c) (full c) (observing c) (unmounted c)
              (mount_phase c) (renderings c)
              (clipped c ++ Inline :: (if full c then [Overlay] else [])) (image_timer c)
    | Err e => set_svg (failed e) c
    end in
  if first r then first_done c else c.

Definition set_renderings (l : list rendering) (c : chart) : chart :=
  Chart (pluginSettings c) (svg c) (dark c) (full c) (observing c) (unmounted c)
        (mount_phase c) l (clipped c) (image_timer c).

(** [onMounted] when the import settles, with the module's default export if
    it has one: the observer is set up and the first rendering starts. *)
Definition imported (s : option settings) (c : chart) : chart :=
  let c := Chart (default (pluginSettings c) s) (svg c) (dark c) (full c) true (unmounted c)
                 FirstRender (renderings c) (clipped c) (image_timer c) in
  renderChart true c.

(** An attribute of the root element changes, its class among them. *)
Definition mutated (d : bool) (c : chart) : chart :=
  let c := Chart (pluginSettings c) (svg c) d (full c) (observing c) (unmounted c)
                 (mount_phase c) (renderings c) (clipped c) (image_timer c) in
  if observing c then renderChart false c else c.

(** [mut?.disconnect()]. *)
Definition on_unmounted (c : chart) : chart :=
  Chart (pluginSettings c) (svg c) (dark c) (full c) false true (mount_phase c) (renderings c)
        (clipped c) (image_timer c).

Definition set_full (b : bool) (c : chart) : chart :=
  Chart (pluginSettings c) (svg c) (dark c) b (observing c) (unmounted c) (mount_phase c)
        (renderings c) (clipped c) (image_timer c).

Inductive event : Type :=
  | Imported (s : option settings)
  | Mutated (d : bool)
  | Rendered (i : nat) (salt : jstr)
  | ImagesLoaded
  | Fullscreen (b : bool)
  | Unmounted.

Definition step (c : chart) (e : event) : chart :=
  match e with
  | Imported s => match mount_phase c with Importing => imported s c | _ => c end
  | Mutated d => mutated d c
  | Rendered i salt =>
      match renderings c !! i with
      | Some r => rendered salt r (set_renderings (delete i (renderings c)) c)
      | None => c
      end
  | ImagesLoaded => if image_timer c then renderChart false (set_phase (mount_phase c) false c) else c
  | Fullscreen b => set_full b c
  | Unmounted => on_unmounted c
  end.

Definition mounting (d : bool) : chart :=
  Chart default_settings None d false false false Importing [] [] false.

Definition run : chart → list event → chart := foldl step.
End chart.

(** * What is on show *)

Section follows.
Context (graph mermaidPageTheme : jstr).
Context (initialize : settings → result jstr ()).
Context (render : settings → jstr → result jstr jstr).
Context (parse : jstr → result jstr (option svg_root)).
Context (ser : svg_root → result jstr jstr).
Context (uri_error : jstr).

Let config := mermaidConfig mermaidPageTheme.
Let stepc := step graph mermaidPageTheme initialize render parse ser uri_error.
Let runc := run graph mermaidPageTheme initialize render parse ser uri_error.

(** The viewer shows what mermaid makes of the source under a configuration. *)
Definition displays (l : settings) (c : chart) : Prop :=
  ∃ salt, svg c = Some
    match render l (default [] (decodeURIComponent graph)) with
    | Ok s => shown parse ser salt s
    | Err e => failed e
    end.

(** Renderings settle in the order in which they were asked for. *)
Definition in_turn (e : event) : bool :=
  match e with
  | Rendered (S _) _ => false
  | _ => true
  end.

(** The last rendering under way, or what is shown when none is, is for the
    current configuration. *)
Definition current (c : chart) : Prop :=
  (mount_phase c = Importing → image_timer c = false ∧ observing c = false) ∧
  (observing c = true →
    match list.last (renderings c) with
    | None => displays (config c) c
    | Some r => theme_config r = config c
    end).

Context (Hinit : ∀ l, initialize l = Ok ()).
Context (g : jstr) (Hg : decodeURIComponent graph = Some g).

Lemma renderChart_pending b c :
  renderChart graph mermaidPageTheme initialize uri_error b c
  = set_renderings (renderings c ++ [Rendering (config c) b]) c.
Proof using Hinit Hg. unfold renderChart. rewrite Hinit, Hg. reflexivity. Qed.

Lemma current_render b c : mount_phase c ≠ Importing →
  current (renderChart graph mermaidPageTheme initialize uri_error b c).
Proof using Hinit Hg.
  intros Hp. rewrite renderChart_pending. split; [by intros ?|]. intros _. simpl.
  by rewrite last_snoc.
Qed.

Lemma rendered_fields salt r c :
  let c' := rendered graph render parse ser salt r c in
  displays (theme_config r) c' ∧ config c' = config c ∧ renderings c' = renderings c ∧
  observing c' = observing c ∧ (mount_phase c ≠ Importing → mount_phase c' ≠ Importing).
Proof.
  unfold rendered, displays. destruct (render _ _) as [s|e], (first r); simpl;
    (split; [by exists salt|]); auto.
Qed.

Lemma current_settle c salt r : mount_phase c ≠ Importing → renderings c !! 0%nat = Some r →
  current c → current (rendered graph render parse ser salt r
                         (set_renderings (delete 0%nat (renderings c)) c)).
Proof.
  intros Hp Hr [_ H]. destruct (renderings c) as [|r' l] eqn:E; [done|].
  injection Hr as ->. simpl.
  destruct (rendered_fields salt r (set_renderings l c)) as (Hd & Hc & Hl & Ho & Hm).
  split; [intros Hi; by destruct (Hm Hp)|]. rewrite Ho, Hl. simpl. intros Hobs.
  specialize (H Hobs). rewrite Hc. destruct l as [|r' l].
  - simpl in H. by rewrite H in Hd.
  - destruct (list.last (r' :: l)) eqn:El; [|by apply last_None in El].
    by rewrite last_cons, El in H.
Qed.

(** No rendering starts before the import settles. *)
Definition quiet (c : chart) : Prop := mount_phase c = Importing → renderings c = [].

Lemma quiet_current_step c e : in_turn e = true → quiet c → current c →
  quiet (stepc c e) ∧ current (stepc c e).
Proof using Hinit Hg.
  intros He Hq H. destruct e as [s|d|[|i] salt| |b|]; try discriminate He; unfold stepc, step.
  - destruct (mount_phase c) eqn:E; [|done|done]. unfold imported. split.
    + intros Hp. by rewrite renderChart_pending in Hp.
    + by apply current_render.
  - unfold mutated. destruct (observing c) eqn:Eo.
    + assert (mount_phase c ≠ Importing) by (intros E; by destruct (proj1 H E) as [_ ?]; congruence).
      split; [by rewrite renderChart_pending; intros ?|]. by apply current_render.
    + split; [done|]. destruct H as [H _]. split; [intros E; by destruct (H E)|]. simpl. congruence.
  - destruct (renderings c !! 0%nat) as [r|] eqn:Er; [|done].
    assert (mount_phase c ≠ Importing) as Hp by (intros E; by rewrite (Hq E) in Er).
    split; [|by apply current_settle]. intros E. exfalso.
    by apply (proj2 (proj2 (proj2 (proj2
      (rendered_fields salt r (set_renderings (delete 0%nat (renderings c)) c)))))) in E.
  - destruct (image_timer c) eqn:Et; [|done].
    assert (mount_phase c ≠ Importing) by (intros E; by destruct (proj1 H E) as [? _]; congruence).
    split; [by rewrite renderChart_pending; intros ?|]. by apply current_render.
  - done.
  - split; [done|]. destruct H as [H _]. split; [intros E; by destruct (H E)|done].
Qed.

Lemma current_run es c : forallb in_turn es = true → quiet c → current c →
  current (runc c es).
Proof using Hinit Hg.
  revert c. induction es as [|e es IH]; intros c He Hq H; simpl; [done|].
  cbn [forallb] in He. apply andb_true_iff in He as [He Hes].
  destruct (quiet_current_step c e He Hq H) as [Hq' H']. by apply IH.
Qed.
End follows.

(** * Properties *)

(** As long as mermaid accepts its configurations and settles renderings in
    the order it was asked for them, the diagram catches up with the page:
    whenever the viewer observes the page and no rendering is under way, it
    shows what mermaid makes of the source under the settings that were
    imported, the theme of the page, and the dark theme if the page is dark
    now, however often that changed meanwhile. *)
Theorem theme_follows graph theme initialize render parse ser uri_error d es g
    (Hinit : ∀ l, initialize l = Ok ()) (Hg : decodeURIComponent graph = Some g)
    (Hes : forallb in_turn es = true) :
  let c := run graph theme initialize render parse ser uri_error (mounting d) es in
  observing c = true → renderings c = [] →
  displays graph render parse ser (mermaidConfig theme c) c.
Proof.
  cbv zeta. intros Ho Hr.
  assert (H : current graph theme render parse ser
                (run graph theme initialize render parse ser uri_error (mounting d) es)).
  { eapply current_run; [done|done|done|done|]. split; done. }
  destruct H as [_ H]. specialize (H Ho). by rewrite Hr in H.
Qed.

(** A renderer that prints the theme of its configuration. *)
Definition sample_render (l : settings) (s : jstr) : result jstr jstr :=
  Ok (match assoc l (u "theme") with Some (JStr t) => t | _ => u "default" end).

Definition sample_run (es : list event) : chart :=
  run (u "graph") [] (λ _, Ok ()) sample_render (λ s, Err s) (λ _, Err []) [] (mounting false) es.

Lemma theme_follows_witness :
  let c := sample_run [Imported None; Mutated true; Rendered 0 []; Rendered 0 []] in
  observing c = true ∧ renderings c = [] ∧
  displays (u "graph") sample_render (λ s, Err s) (λ _, Err []) (mermaidConfig [] c) c.
Proof.
  split; [reflexivity|]. split; [reflexivity|].
  apply (theme_follows (u "graph") [] (λ _, Ok ()) sample_render (λ s, Err s) (λ _, Err []) [] false
           [Imported None; Mutated true; Rendered 0 []; Rendered 0 []] (u "graph")); reflexivity.
Defined.

(** Renderings that settle out of turn leave the old theme on show. *)
Example overtaken :
  svg (sample_run [Imported None; Mutated true; Rendered 1 []; Rendered 0 []])
  = Some (shown (λ s, Err s) (λ _, Err []) [] (u "default")).
Proof. vm_compute. reflexivity. Qed.

(** A component unmounted while its import is under way starts to observe the
    page afterwards, and nothing stops it. *)
Lemma late_import_observes graph theme initialize render parse ser uri_error d s :
  let c := run graph theme initialize render parse ser uri_error (mounting d) [Unmounted; Imported s] in
  unmounted c = true ∧ observing c = true.
Proof. unfold run. simpl. unfold imported, renderChart. by destruct (mbind _ _). Qed.
