(* ===== verification/DocsSite.v ===== *)
(** The documentation site (docs-site/.vitepress/config.mts): its settings, its
    navigation and sidebar, and the rendering of terminal code fences. *)

From Stdlib Require Import String.
From S2P Require Import Prelude JsNumber JsValue FreezeVersion.
Local Open Scope string_scope.
Local Open Scope list_scope.

(** * Navigation *)

(** An entry of the sidebar: a page has a link and no items, a section has
    items and no link, a group has both and starts collapsed. *)
Inductive sidebar_item : Type :=
  | Sidebar (text : string) (link : option string) (collapsed : option bool)
            (items : list sidebar_item).

Definition page (text link : string) : sidebar_item := Sidebar text (Some link) None [].
Definition section (text : string) (items : list sidebar_item) : sidebar_item :=
  Sidebar text None None items.
Definition group (text link : string) (items : list sidebar_item) : sidebar_item :=
  Sidebar text (Some link) (Some true) items.

Definition quote : string := String (Ascii.ascii_of_nat 34) EmptyString.

(** The badge some titles end with. *)
Definition badge (kind : string) : string :=
  "<span class=" +:+ quote +:+ "vp-sb-badge " +:+ kind +:+ quote +:+ ">" +:+ kind +:+ "</span>".

Definition guide_getting_started : sidebar_item :=
  group "Getting started" "/guide/getting-started" [
    page "Getting started" "/guide/getting-started";
    page "Installation" "/guide/installation";
    page "Concepts and taxonomy" "/guide/concepts";
    page "Configuration" "/guide/configuration";
    page "First scenarios" "/guide/first-scenarios"].

Definition guide_proxying_and_transport : sidebar_item :=
  group "Proxying and transport" "/guide/proxying-transport" [
    page "Overview" "/guide/proxying-transport";
    page "Routing and matching" "/guide/routing";
    page "Load balancing and traffic splitting" "/guide/traffic-splitting";
    page "Dynamic upstream discovery" "/guide/dynamic-discovery";
    page "gRPC proxying" "/guide/grpc";
    page "WebSockets" "/guide/websockets";
    page "HTTP/3 ingress" "/guide/http3";
    page "H3/QUIC upstream transport" "/guide/h3-quic-upstream";
    page ("L4 TCP/UDP proxying" +:+ badge "partial") "/guide/l4-proxying";
    page "Post-quantum TLS" "/guide/post-quantum-tls";
    page "SPIFFE/SPIRE workload identity" "/guide/spiffe-spire"].

Definition guide_request_and_response_control : sidebar_item :=
  group "Request and response control" "/guide/request-response-control" [
    page "Overview" "/guide/request-response-control";
    page "CORS" "/guide/cors";
    page "Compression" "/guide/compression";
    page "Request limits and validation" "/guide/request-limits";
    page "Transforms" "/guide/transforms";
    page "Security headers" "/guide/security-headers";
    page "Response field masking" "/guide/masking";
    page "Response caching" "/guide/caching";
    page "API versioning" "/guide/api-versioning";
    page "Filter-chain ordering" "/guide/filter-chain-ordering"].

Definition guide_protocol_translation_and_api_management : sidebar_item :=
  group "Protocol translation and API management" "/guide/protocol-translation" [
    page "Overview" "/guide/protocol-translation";
    page "gRPC-Web and transcoding" "/guide/grpc-web";
    page "Protocol translation (REST, gRPC, GraphQL, SOAP)" "/guide/protocol-translation";
    page ("GraphQL awareness" +:+ badge "partial") "/guide/graphql";
    page "API aggregation" "/guide/api-aggregation";
    page "OpenAPI import and mock mode" "/guide/openapi-import";
    page "OpenAPI response validation" "/guide/openapi-response-validation";
    page ("API lifecycle and dev portal" +:+ badge "partial") "/guide/api-lifecycle"].

Definition guide_traffic_policy_and_resilience : sidebar_item :=
  group "Traffic policy and resilience" "/guide/traffic-policy" [
    page "Overview" "/guide/traffic-policy";
    page "Timeouts" "/guide/timeouts";
    page "Retries" "/guide/retries";
    page "Circuit breaking" "/guide/circuit-breaking";
    page "Health checks" "/guide/health-checks";
    page "Rate limiting" "/guide/rate-limiting";
    page "Admission queues" "/guide/admission-queue";
    page "Request hedging" "/guide/request-hedging";
    page "Consumer quotas" "/guide/quotas";
    page "WAF-lite filtering" "/guide/waf-lite";
    page "Maintenance mode and dry-run" "/guide/maintenance";
    page "Mirroring" "/guide/mirroring";
    page "Fault injection" "/guide/fault-injection"].

Definition guide_security_and_identity : sidebar_item :=
  group "Security and identity" "/guide/security" [
    page "Overview" "/guide/security";
    page "Authentication methods" "/guide/authentication-methods";
    page "HMAC request signing" "/guide/hmac-signing";
    page "OAuth2" "/guide/oauth2";
    page "mTLS" "/guide/mtls";
    page "OpenID Connect" "/guide/oidc";
    page "Authorization rules" "/guide/authorization";
    page "Cedar authorization" "/guide/cedar-authz";
    page "OPA authorization" "/guide/opa-authz";
    page "CEL expressions" "/guide/cel-expressions";
    page "Secrets and references" "/guide/secrets";
    page ("ACME certificate automation" +:+ badge "experimental") "/guide/acme";
    page "FIPS mode" "/guide/fips-mode"].

Definition guide_ai_gateway : sidebar_item :=
  group "AI gateway" "/guide/ai-gateway" [
    page "Overview" "/guide/ai-gateway";
    page "Routing policies" "/guide/ai-routing-policies";
    page "Prompt experimentation" "/guide/ai-prompt-experimentation";
    page "Token budgets and cost attribution" "/guide/ai-token-budgets";
    page "Prompt and response logging" "/guide/ai-prompt-logging";
    page "Governance and agent principals" "/guide/ai-governance";
    page "Guardrails" "/guide/ai-guardrails";
    page "Semantic caching" "/guide/ai-semantic-caching";
    page ("MCP gateway" +:+ badge "experimental") "/guide/ai-mcp-gateway";
    page ("A2A protocol" +:+ badge "partial") "/guide/a2a-protocol"].

Definition guide_extensibility_and_plugins : sidebar_item :=
  group "Extensibility and plugins" "/guide/extensibility-overview" [
    page "Overview" "/guide/extensibility-overview";
    page "Getting started" "/guide/extensibility-getting-started";
    group "Use cases and recipes" "/guide/use-cases/" [
      page "Overview" "/guide/use-cases/";
      page "User-subset API migration" "/guide/use-cases/user-subset-migration";
      page "Response PII redaction" "/guide/use-cases/response-pii-redaction";
      page "Custom request authentication" "/guide/use-cases/custom-request-auth";
      page "Zero-upstream feature flags" "/guide/use-cases/zero-upstream-feature-flags";
      page "Tenant-aware routing" "/guide/use-cases/tenant-aware-routing";
      page "Custom backends (extension traits)" "/guide/use-cases/custom-backends-traits";
      page "Per-request external decisions" "/guide/use-cases/per-request-external-decisions"];
    group "Proxy-Wasm plugins" "/guide/proxy-wasm-plugins" [
      page "Overview" "/guide/proxy-wasm-plugins";
      page "Plugin SDK" "/guide/plugin-sdk";
      page "Hostcall API reference" "/guide/proxy-wasm-hostcalls"];
    group "Native plugin filters" "/guide/native-plugins" [
      page "Overview" "/guide/native-plugins";
      page "Building a native filter" "/guide/building-native-filter";
      page "Native filter API" "/guide/native-filter-api"];
    group "Nano-services" "/guide/nano-services" [
      page "Overview" "/guide/nano-services";
      page "Building a nano-service" "/guide/building-nano-service";
      page "Nano-service ABI" "/guide/nano-service-abi"];
    page "Plugin lifecycle" "/guide/plugin-lifecycle";
    page "Plugin registry" "/guide/plugin-registry";
    page "Plugin compatibility" "/guide/plugin-compat";
    page "Plugin testing" "/guide/plugin-testing";
    group "Extension traits" "/guide/extension-traits" [
      page "Overview" "/guide/extension-traits";
      page "Building an extension" "/guide/building-extension";
      page "Extension trait API" "/guide/extension-trait-api"]].

Definition guide_observability_and_analytics : sidebar_item :=
  group "Observability and analytics" "/guide/observability-analytics" [
    page "Overview" "/guide/observability-analytics";
    page "Observability" "/guide/observability";
    page "Analytics" "/guide/analytics";
    page "Analytics stream" "/guide/analytics-stream";
    page "Alert and event webhooks" "/guide/webhooks";
    page "OTel metrics export" "/guide/otel-metrics-export";
    page "Synthetic monitoring" "/guide/synthetic-monitoring"].

Definition guide_operations_and_management : sidebar_item :=
  group "Operations and management" "/guide/deployment-operations" [
    page "Overview" "/guide/deployment-operations";
    page "Deployment" "/guide/deployment";
    page "Operations" "/guide/operations";
    page "Performance metrics" "/guide/performance-metrics";
    page "Zero-downtime upgrade" "/guide/zero-downtime-upgrade";
    page "CLI" "/guide/cli";
    page "Admin API" "/guide/admin-api";
    page "Web console" "/guide/web-console";
    page "Agent-operable administration" "/guide/agent-operable-admin";
    page "Terraform state tool" "/guide/terraform-state";
    page "Replay time-travel debugging" "/guide/replay-debugging";
    page "Config import (NGINX, Kong, Envoy)" "/guide/config-import";
    page "Kubernetes Gateway API" "/guide/kubernetes-gateway-api"].

Definition guide_troubleshooting : sidebar_item :=
  group "Troubleshooting" "/guide/troubleshooting/" [
    page "Overview" "/guide/troubleshooting/";
    page "503 Service Unavailable" "/guide/troubleshooting/503-upstream-health";
    page "429 Too Many Requests" "/guide/troubleshooting/429-rate-limit-quota-budget";
    page "Config reload failure" "/guide/troubleshooting/config-reload-failure";
    page "High latency" "/guide/troubleshooting/high-latency";
    page "AI request failures" "/guide/troubleshooting/ai-request-failures";
    page "mTLS handshake failures" "/guide/troubleshooting/mtls-handshake-failures"].

Definition guide_enterprise_and_fleet : sidebar_item :=
  group "Enterprise and fleet" "/guide/enterprise" [
    page "Overview" "/guide/enterprise";
    page "Editions: OSS vs Enterprise" "/guide/editions";
    page "Feature reference and maturity" "/guide/feature-reference";
    page "Enterprise licensing" "/guide/licensing";
    page "Distributed Redis rate limiter" "/guide/redis-rate-limiter";
    page "Distributed cache" "/guide/distributed-cache";
    page "Config convergence" "/guide/config-convergence";
    page "Vault secrets" "/guide/vault-secrets";
    page "KMS secrets" "/guide/kms-secrets";
    page "Workspaces" "/guide/workspaces";
    page "RBAC" "/guide/rbac";
    page "Audit log" "/guide/audit-log";
    page "CP/DP split" "/guide/cp-dp-split";
    page "Cluster sync (GA)" "/guide/cluster-sync";
    page "Ent controller persistence" "/guide/ent-controller-persistence";
    page ("Service mesh mode" +:+ badge "experimental") "/guide/service-mesh"].

Definition guide_research_and_roadmap : sidebar_item :=
  group "Research and roadmap" "/guide/ebpf-hooks" [
    page "eBPF hooks (research spike)" "/guide/ebpf-hooks"].

Definition architecture_architecture : sidebar_item :=
  section "Architecture" [
    page "Overview" "/architecture/overview";
    page "Request pipeline" "/architecture/request-pipeline";
    page "Connection and TLS" "/architecture/connection-and-tls";
    page "Config, state, and extensions" "/architecture/config-and-state";
    page "Error handling" "/architecture/error-handling";
    page "Resilience" "/architecture/resilience";
    page "Security" "/architecture/security";
    page "AI gateway" "/architecture/ai-gateway";
    page "Plugins and extensibility" "/architecture/plugins-and-extensibility";
    page "Observability" "/architecture/observability"].

Definition reference_reference : sidebar_item :=
  section "Reference" [
    page "Environment variables" "/reference/environment-variables";
    page "Configuration schema" "/reference/configuration-schema";
    page "Extension API" "/reference/extension-api"].

Definition demos_demos : sidebar_item :=
  section "Demos" [
    page "OSS quickstart" "/demos/oss-quickstart";
    page "Enterprise quickstart" "/demos/enterprise-quickstart"].

Definition root_sidebar : list (string * list sidebar_item) := [
  ("/guide/", [
    guide_getting_started; guide_proxying_and_transport; guide_request_and_response_control;
    guide_protocol_translation_and_api_management; guide_traffic_policy_and_resilience;
    guide_security_and_identity; guide_ai_gateway; guide_extensibility_and_plugins;
    guide_observability_and_analytics; guide_operations_and_management; guide_troubleshooting;
    guide_enterprise_and_fleet; guide_research_and_roadmap]);
  ("/architecture/", [architecture_architecture]);
  ("/reference/", [reference_reference]);
  ("/demos/", [demos_demos])].

(** The Markdown files of docs-site, relative to it: what the site is built
    from. *)
Definition markdown_files : list string := [
  "README.md"; "architecture/ai-gateway.md"; "architecture/config-and-state.md";
  "architecture/connection-and-tls.md"; "architecture/error-handling.md";
  "architecture/observability.md"; "architecture/overview.md";
  "architecture/plugins-and-extensibility.md"; "architecture/request-pipeline.md";
  "architecture/resilience.md"; "architecture/security.md"; "demos/enterprise-quickstart.md";
  "demos/oss-quickstart.md"; "guide/a2a-protocol.md"; "guide/acme.md"; "guide/admin-api.md";
  "guide/admission-queue.md"; "guide/agent-operable-admin.md"; "guide/ai-gateway.md";
  "guide/ai-governance.md"; "guide/ai-guardrails.md"; "guide/ai-mcp-gateway.md";
  "guide/ai-prompt-experimentation.md"; "guide/ai-prompt-logging.md";
  "guide/ai-routing-policies.md"; "guide/ai-semantic-caching.md"; "guide/ai-token-budgets.md";
  "guide/analytics-stream.md"; "guide/analytics.md"; "guide/api-aggregation.md";
  "guide/api-lifecycle.md"; "guide/api-versioning.md"; "guide/audit-log.md";
  "guide/authentication-methods.md"; "guide/authorization.md"; "guide/building-extension.md";
  "guide/building-nano-service.md"; "guide/building-native-filter.md"; "guide/caching.md";
  "guide/cedar-authz.md"; "guide/cel-expressions.md"; "guide/circuit-breaking.md"; "guide/cli.md";
  "guide/cluster-sync.md"; "guide/compression.md"; "guide/concepts.md";
  "guide/config-convergence.md"; "guide/config-import.md"; "guide/configuration.md";
  "guide/cors.md"; "guide/cp-dp-split.md"; "guide/deployment-operations.md";
  "guide/deployment.md"; "guide/distributed-cache.md"; "guide/dynamic-discovery.md";
  "guide/ebpf-hooks.md"; "guide/editions.md"; "guide/ent-controller-persistence.md";
  "guide/enterprise.md"; "guide/extensibility-getting-started.md";
  "guide/extensibility-overview.md"; "guide/extension-trait-api.md"; "guide/extension-traits.md";
  "guide/fault-injection.md"; "guide/feature-reference.md"; "guide/filter-chain-ordering.md";
  "guide/fips-mode.md"; "guide/first-scenarios.md"; "guide/getting-started.md";
  "guide/graphql.md"; "guide/grpc-web.md"; "guide/grpc.md"; "guide/h3-quic-upstream.md";
  "guide/health-checks.md"; "guide/hmac-signing.md"; "guide/http3.md"; "guide/installation.md";
  "guide/kms-secrets.md"; "guide/kubernetes-gateway-api.md"; "guide/l4-proxying.md";
  "guide/licensing.md"; "guide/maintenance.md"; "guide/masking.md"; "guide/mirroring.md";
  "guide/mtls.md"; "guide/nano-service-abi.md"; "guide/nano-services.md";
  "guide/native-filter-api.md"; "guide/native-plugins.md"; "guide/oauth2.md";
  "guide/observability-analytics.md"; "guide/observability.md"; "guide/oidc.md";
  "guide/opa-authz.md"; "guide/openapi-import.md"; "guide/openapi-response-validation.md";
  "guide/operations.md"; "guide/otel-metrics-export.md"; "guide/performance-metrics.md";
  "guide/plugin-compat.md"; "guide/plugin-lifecycle.md"; "guide/plugin-registry.md";
  "guide/plugin-sdk.md"; "guide/plugin-testing.md"; "guide/post-quantum-tls.md";
  "guide/protocol-translation.md"; "guide/proxy-wasm-hostcalls.md"; "guide/proxy-wasm-plugins.md";
  "guide/proxying-transport.md"; "guide/quotas.md"; "guide/rate-limiting.md"; "guide/rbac.md";
  "guide/redis-rate-limiter.md"; "guide/replay-debugging.md"; "guide/request-hedging.md";
  "guide/request-limits.md"; "guide/request-response-control.md"; "guide/retries.md";
  "guide/routing.md"; "guide/secrets.md"; "guide/security-headers.md"; "guide/security.md";
  "guide/service-mesh.md"; "guide/spiffe-spire.md"; "guide/synthetic-monitoring.md";
  "guide/terraform-state.md"; "guide/timeouts.md"; "guide/traffic-policy.md";
  "guide/traffic-splitting.md"; "guide/transforms.md";
  "guide/troubleshooting/429-rate-limit-quota-budget.md";
  "guide/troubleshooting/503-upstream-health.md"; "guide/troubleshooting/ai-request-failures.md";
  "guide/troubleshooting/config-reload-failure.md"; "guide/troubleshooting/high-latency.md";
  "guide/troubleshooting/index.md"; "guide/troubleshooting/mtls-handshake-failures.md";
  "guide/use-cases/custom-backends-traits.md"; "guide/use-cases/custom-request-auth.md";
  "guide/use-cases/index.md"; "guide/use-cases/per-request-external-decisions.md";
  "guide/use-cases/response-pii-redaction.md"; "guide/use-cases/tenant-aware-routing.md";
  "guide/use-cases/user-subset-migration.md"; "guide/use-cases/zero-upstream-feature-flags.md";
  "guide/vault-secrets.md"; "guide/waf-lite.md"; "guide/web-console.md"; "guide/webhooks.md";
  "guide/websockets.md"; "guide/workspaces.md"; "guide/zero-downtime-upgrade.md"; "index.md";
  "reference/configuration-schema.md"; "reference/environment-variables.md";
  "reference/extension-api.md"].

(** * Settings *)

Record head_tag : Type := Head { head_name : string; head_attributes : list (string * string) }.

(** A link of the top bar. *)
Record nav_item : Type := Nav { nav_text : string; nav_link : string }.

(** What config.mts passes to VitePress and to its two plugins, the function
    [markdown.config] apart. *)
Record site : Type := Site {
  title : string;
  description : string;
  lastUpdated : bool;
  cleanUrls : bool;
  base : string;
  head : list head_tag;
  srcExclude : list string;
  latestVersion : string;
  versionSwitcher : bool;
  logo : string;
  nav : list nav_item;
  sidebar : list (string * list sidebar_item);
  socialLinks : list (string * string);
  editLink : string * string;
  search_provider : string;
}.

Definition head_tags : list head_tag := [
  Head "link" [("rel", "icon"); ("href", "/dwara/favicon.ico"); ("sizes", "any")];
  Head "link" [("rel", "icon"); ("type", "image/png"); ("sizes", "32x32");
               ("href", "/dwara/favicon-32x32.png")];
  Head "link" [("rel", "icon"); ("type", "image/png"); ("sizes", "16x16");
               ("href", "/dwara/favicon-16x16.png")];
  Head "link" [("rel", "apple-touch-icon"); ("sizes", "180x180");
               ("href", "/dwara/apple-touch-icon.png")];
  Head "link" [("rel", "manifest"); ("href", "/dwara/site.webmanifest")];
  Head "meta" [("name", "theme-color"); ("content", "#1B1650")]].

Definition nav_items : list nav_item := [
  Nav "Guide" "/guide/getting-started";
  Nav "Demos" "/demos/oss-quickstart";
  Nav "Architecture" "/architecture/overview";
  Nav "Reference" "/reference/environment-variables"].

Definition social_links : list (string * string) := [("github", "https://github.com/shristilabs/dwara")].

Definition edit_link : string * string :=
  ("https://github.com/shristilabs/dwara/edit/main/docs-site/:path", "Edit this page on GitHub").

Definition config : site := {|
  title := "Dwara";
  description := "API gateway documentation";
  lastUpdated := true;
  cleanUrls := true;
  base := "/dwara/";
  head := head_tags;
  srcExclude := ["README.md"];
  latestVersion := "unstable";
  versionSwitcher := false;
  logo := "/mark-icon.svg";
  nav := nav_items;
  sidebar := root_sidebar;
  socialLinks := social_links;
  editLink := edit_link;
  search_provider := "local" |}.

(** * Links and pages *)

Fixpoint links (i : sidebar_item) : list string :=
  let '(Sidebar _ link _ items) := i in
  option_list link ++ concat (map links items).

Definition section_links (s : string * list sidebar_item) : list string :=
  concat (map links s.2).

Definition all_links (l : list (string * list sidebar_item)) : list string :=
  concat (map section_links l).

Definition starts_with (p s : string) : bool := String.prefix p s.

(** Whether the last character is a slash. *)
Fixpoint ends_in_slash (s : string) : bool :=
  match s with
  | EmptyString => false
  | String c EmptyString => bool_decide (c = Ascii.ascii_of_nat 47)
  | String _ s => ends_in_slash s
  end.

(** The Markdown file a site-absolute link without extension denotes under
    [cleanUrls]: a link to a directory is to its index. *)
Definition page_of (link : string) : string :=
  match link with
  | String _ path => if ends_in_slash path then path +:+ "index.md" else path +:+ ".md"
  | EmptyString => "index.md"
  end.

(** The pages of the site. *)
Definition published (c : site) : list string :=
  filter (λ f, f ∉ srcExclude c) markdown_files.

(** The links of the sidebar a frozen version gets, as FreezeVersion builds
    it. *)
Fixpoint json_links (v : jsval) : list jstr :=
  match v with
  | JObj l =>
      (fix go l :=
         match l with
         | [] => []
         | (k, w) :: l =>
             match w with
             | JStr s => if bool_decide (k = u "link") then s :: go l else go l
             | w => json_links w ++ go l
             end
         end) l
  | JArr l => (fix go l := match l with [] => [] | v :: l => json_links v ++ go l end) l
  | _ => []
  end.

Definition frozen_links : list jstr := json_links FreezeVersion.sidebar.

(** The links of [l] each name a page of [pages]. *)
Definition all_resolve (pages : list string) (l : list string) : bool :=
  forallb (λ link, bool_decide (page_of link ∈ pages)) l.

(** An entry that has both a link and items repeats the link among them, and
    only such an entry starts collapsed. *)
Fixpoint item_ok (i : sidebar_item) : bool :=
  let '(Sidebar _ link collapsed items) := i in
  match link, collapsed, items with
  | Some _, None, [] => true
  | None, None, _ :: _ => forallb item_ok items
  | Some l, Some c, _ :: _ => c && bool_decide (l ∈ concat (map links items)) && forallb item_ok items
  | _, _, _ => false
  end.

(** * Terminal code fences *)

Local Open Scope N_scope.

(** A token of markdown-it: its info string, absent for some kinds, and the
    rest of it, opaque. *)
Record token : Type := Token { token_info : option jstr; token_rest : jstr }.

Definition set_info (info : jstr) (t : token) : token := Token (Some info) (token_rest t).

(** The units [.] does not match. *)
Definition line_end (c : N) : bool := bool_decide (c ∈ [10; 13; 8232; 8233]).

(** The end of the pattern after the marker: optionally a colon, white space
    and the captured title, which stays on one line, then the closing bracket
    at the end of the string. *)
Definition title_match (s : jstr) : option (option jstr) :=
  match s with
  | [93] => Some None
  | 58 :: s =>
      match reverse (trim_left s) with
      | 93 :: t => if existsb line_end t then None else Some (Some (reverse t))
      | _ => None
      end
  | _ => None
  end.

(** What follows [t] at the head of [s]. *)
Fixpoint after (t s : jstr) : option jstr :=
  match t, s with
  | [], _ => Some s
  | c :: t, d :: s => if c =? d then after t s else None
  | _ :: _, [] => None
  end.

Definition marker : jstr := u "[terminal".

(** What [info.match] captures: the shortest non-empty run of units without
    white space before a marker whose end closes the string; [lang] is the
    reversed run so far. *)
Fixpoint terminal_from (lang s : jstr) : option (jstr * option jstr) :=
  match s with
  | [] => None
  | c :: s =>
      if is_space c then None
      else
        match r ← after marker s; title_match r with
        | Some title => Some (reverse (c :: lang), title)
        | None => terminal_from (c :: lang) s
        end
  end.

Definition terminal_match (info : jstr) : option (jstr * option jstr) := terminal_from [] info.

Definition html_open (tag class : string) : jstr :=
  u "<" ++ u tag ++ u " class=" ++ [34] ++ u class ++ [34] ++ u ">".

Section fence.
(** The rule of VitePress, which may rewrite the tokens, and markdown-it's
    [escapeHtml]. *)
Context (fence : list token → nat → jstr * list token).
Context (escapeHtml : jstr → jstr).

(** [md.renderer.rules.fence] as the site sets it; [None] when there is no
    such token, on which the read of its info throws. *)
Definition fence_rule (tokens : list token) (idx : nat) : option (jstr * list token) :=
  token ← tokens !! idx;
  let info := default [] (token_info token) in
  match terminal_match info with
  | None => Some (fence tokens idx)
  | Some (lang, title) =>
      let '(inner, tokens) := fence (alter (set_info lang) idx tokens) idx in
      let tokens := alter (set_info info) idx tokens in
      let title := match title with Some (c :: t) => c :: t | _ => u "terminal" end in
      Some (html_open "div" "custom-block terminal"
            ++ html_open "p" "custom-block-title" ++ escapeHtml title ++ u "</p>"
            ++ inner
            ++ u "</div>", tokens)
  end.

(** ** Facts *)

Lemma after_app t s : after t (t ++ s) = Some s.
Proof. induction t as [|c t IH]; simpl; [done|]. by rewrite N.eqb_refl. Qed.

Lemma after_Some t s r : after t s = Some r → s = t ++ r.
Proof.
  revert s. induction t as [|c t IH]; intros s; simpl; [by intros [= ->]|].
  destruct s as [|d s]; [done|]. destruct (N.eqb_spec c d) as [->|]; [|done].
  by intros ->%IH.
Qed.

Lemma contains_prefix t s : contains t s = false → after t s = None.
Proof.
  intros H. destruct (after t s) as [r|] eqn:E; [|done]. apply after_Some in E as ->.
  pose proof (contains_app t [] r) as Hc. simpl in Hc. congruence.
Qed.

Lemma contains_tail t c s : contains t (c :: s) = false → contains t s = false.
Proof. simpl. by intros [_ H]%orb_false_iff. Qed.

(** Without a marker nothing matches. *)
Lemma terminal_from_plain lang s : contains marker s = false → terminal_from lang s = None.
Proof.
  revert lang. induction s as [|c s IH]; intros lang H; [done|].
  apply contains_tail in H. cbn [terminal_from].
  destruct (is_space c); [done|]. rewrite (contains_prefix _ _ H). by apply IH.
Qed.

(** A language: no white space and no bracket. *)
Definition plain_unit (c : N) : bool := negb (is_space c) && negb (c =? 91).

Lemma terminal_from_lang l lang r title :
  forallb plain_unit l = true → l ≠ [] → title_match r = Some title →
  terminal_from lang (l ++ marker ++ r) = Some (reverse lang ++ l, title).
Proof.
  intros Hl Hne Hr. revert lang Hl. induction l as [|c l IH]; intros lang Hl; [done|].
  cbn [forallb] in Hl. apply andb_true_iff in Hl as [Hc Hl].
  unfold plain_unit in Hc. apply andb_true_iff in Hc as [Hc%negb_true_iff _].
  cbn [app terminal_from]. rewrite Hc. destruct l as [|d l].
  - cbn [app]. rewrite after_app. cbn [mbind option_bind]. rewrite Hr.
    by rewrite reverse_cons.
  - assert (Hd : after marker ((d :: l) ++ marker ++ r) = None).
    { cbn [forallb] in Hl. apply andb_true_iff in Hl as [Hd _]. unfold plain_unit in Hd.
      apply andb_true_iff in Hd as [_ Hd%negb_true_iff]. cbn [app]. unfold marker at 1.
      change (u "[terminal") with (91 :: u "terminal"). cbn [after].
      by rewrite N.eqb_sym, Hd. }
    rewrite Hd. cbn [mbind option_bind]. rewrite IH by done.
    by rewrite reverse_cons, <- app_assoc.
Qed.

(** A title as an author writes it: not empty, not starting with white space,
    on one line. *)
Definition title_text (t : jstr) : Prop :=
  t ≠ [] ∧ trim_left t = t ∧ forallb (λ c, negb (line_end c)) t = true.

Lemma title_match_text t : title_text t → title_match (u ": " ++ t ++ u "]") = Some (Some t).
Proof.
  intros (Hne & Ht & Hl). unfold title_match.
  change (u ": " ++ t ++ u "]") with (58 :: 32 :: (t ++ [93])). cbv iota.
  assert (E : trim_left (32 :: t ++ [93]) = t ++ [93]).
  { destruct t as [|c t]; [done|]. cbn [trim_left app] in *. change (is_space 32) with true. cbv iota.
    destruct (is_space c) eqn:Hc; [|done].
    exfalso. assert (length (trim_left t) ≤ length t)%nat as Hlen.
    { clear. induction t as [|d t IH]; simpl; [lia|]. destruct (is_space d); simpl; lia. }
    rewrite Ht in Hlen. simpl in Hlen. lia. }
  rewrite E, reverse_snoc.
  assert (Hx : existsb line_end (reverse t) = false).
  { apply not_true_is_false. intros (c & Hin & Hc)%existsb_exists.
    rewrite forallb_forall in Hl. specialize (Hl c). rewrite Hc in Hl. simpl in Hl.
    discriminate Hl. apply list_elem_of_In, elem_of_reverse. by apply list_elem_of_In. }
  rewrite Hx. by rewrite reverse_involutive.
Qed.
End fence.

Lemma terminal_match_lang l r title :
  forallb plain_unit l = true → l ≠ [] → title_match r = Some title →
  terminal_match (l ++ marker ++ r) = Some (l, title).
Proof. intros. unfold terminal_match. by rewrite (terminal_from_lang _ _ _ title). Qed.

(** The chrome around a terminal. *)
Definition window (escapeHtml : jstr → jstr) (title inner : jstr) : jstr :=
  html_open "div" "custom-block terminal"
  ++ html_open "p" "custom-block-title" ++ escapeHtml title ++ u "</p>"
  ++ inner
  ++ u "</div>".

(** * Properties *)

(** A code fence whose info string does not carry the marker is rendered
    by VitePress's own rule, untouched; one that names a language and a title
    is rendered by that rule under the bare language, then wrapped with its
    title escaped, and the token gets its info string back; without a title
    the window is called terminal. *)
Theorem terminal_fences fence escapeHtml tokens idx t (Ht : tokens !! idx = Some t) :
  (contains marker (default [] (token_info t)) = false →
   fence_rule fence escapeHtml tokens idx = Some (fence tokens idx)) ∧
  (∀ lang end_ title,
     lang ≠ [] → forallb plain_unit lang = true →
     end_ = u "]" ∧ title = u "terminal" ∨ title_text title ∧ end_ = u ": " ++ title ++ u "]" →
     let info := lang ++ marker ++ end_ in
     token_info t = Some info →
     let '(inner, tokens') := fence (<[idx := Token (Some lang) (token_rest t)]> tokens) idx in
     fence_rule fence escapeHtml tokens idx
     = Some (window escapeHtml title inner, alter (set_info info) idx tokens')).
Proof.
  unfold fence_rule. rewrite Ht. cbn [mbind option_bind]. split.
  - intros Hn. unfold terminal_match. by rewrite terminal_from_plain.
  - intros lang end_ title Hne Hl Hend Hi. rewrite Hi. cbn [default from_option id].
    assert (Ha : alter (set_info lang) idx tokens
                 = <[idx := Token (Some lang) (token_rest t)]> tokens).
    { apply list_eq. intros i. destruct (decide (i = idx)) as [->|].
      - rewrite list_lookup_alter, decide_True, Ht, list_lookup_insert_eq
          by (done || by eapply lookup_lt_Some). done.
      - by rewrite list_lookup_alter, decide_False, list_lookup_insert_ne. }
    destruct (fence _ idx) as [inner tokens'] eqn:E.
    destruct Hend as [[-> ->]|[Htt ->]].
    + rewrite (terminal_match_lang _ _ None) by done. by rewrite Ha, E.
    + rewrite (terminal_match_lang _ _ _ Hl Hne (title_match_text _ Htt)).
      rewrite Ha, E. destruct Htt as [Hnt _]. by destruct title.
Qed.

(** A renderer that prints the info string between tags and forgets it. *)
Definition sample_fence (tokens : list token) (idx : nat) : jstr * list token :=
  (u "<pre>" ++ default [] (tokens !! idx ≫= token_info) ++ u "</pre>",
   alter (set_info []) idx tokens).

Lemma terminal_fences_witness :
  fence_rule sample_fence (λ s, s) [Token (Some (u "sh[terminal: dwara]")) (u "ls")] 0
  = Some (window (λ s, s) (u "dwara") (u "<pre>sh</pre>"),
          [Token (Some (u "sh[terminal: dwara]")) (u "ls")]).
Proof.
  destruct (terminal_fences sample_fence (λ s, s) [Token (Some (u "sh[terminal: dwara]")) (u "ls")] 0
              (Token (Some (u "sh[terminal: dwara]")) (u "ls")) eq_refl) as [_ H].
  assert (Ht : title_text (u "dwara")) by (split; [discriminate|split; reflexivity]).
  assert (Hne : u "sh" ≠ []) by discriminate.
  exact (H (u "sh") (u ": dwara]") (u "dwara") Hne eq_refl (or_intror (conj Ht eq_refl)) eq_refl).
Defined.

(** The navigation is complete and has no dead link.  Every link of the
    sidebar lies under the prefix that shows it and denotes a page of the
    site; every page but the home page is listed; the links of the top bar and
    of a frozen version's sidebar are among them; an entry that can be folded
    repeats its own link inside; and what the head loads is under the base
    path, where the site is published. *)
Theorem navigation_complete :
  (∀ key items link, (key, items) ∈ sidebar config → link ∈ section_links (key, items) →
     starts_with key link = true ∧ page_of link ∈ published config) ∧
  (∀ p, p ∈ published config → p ≠ "index.md" → p ∈ map page_of (all_links (sidebar config))) ∧
  (∀ n, n ∈ nav config → nav_link n ∈ all_links (sidebar config)) ∧
  (∀ l, l ∈ frozen_links → l ∈ map u (all_links (sidebar config))) ∧
  (∀ key items i, (key, items) ∈ sidebar config → i ∈ items → item_ok i = true) ∧
  (∀ h k v, h ∈ head config → (k, v) ∈ head_attributes h → k = "href" →
     starts_with (base config) v = true).
Proof.
  assert (Hs : Forall (λ s, Forall (λ l, starts_with s.1 l = true ∧ page_of l ∈ published config)
                                   (section_links s)) (sidebar config))
    by (apply (bool_decide_unpack _); vm_compute; exact I).
  assert (Hp : Forall (λ p, p ≠ "index.md" → p ∈ map page_of (all_links (sidebar config)))
                      (published config)) by (apply (bool_decide_unpack _); vm_compute; exact I).
  assert (Hn : Forall (λ n, nav_link n ∈ all_links (sidebar config)) (nav config))
    by (apply (bool_decide_unpack _); vm_compute; exact I).
  assert (Hf : Forall (λ l, l ∈ map u (all_links (sidebar config))) frozen_links)
    by (apply (bool_decide_unpack _); vm_compute; exact I).
  assert (Hi : Forall (λ s, Forall (λ i, item_ok i = true) s.2) (sidebar config))
    by (apply (bool_decide_unpack _); vm_compute; exact I).
  assert (Hh : Forall (λ h, Forall (λ a, a.1 = "href" → starts_with (base config) a.2 = true)
                                   (head_attributes h)) (head config))
    by (apply (bool_decide_unpack _); vm_compute; exact I).
  repeat match goal with H : Forall _ _ |- _ => rewrite list.Forall_forall in H end.
  split_and!; [ |done|done|done| | ].
  - intros key items link Hin Hl. specialize (Hs _ Hin). rewrite list.Forall_forall in Hs. by apply Hs.
  - intros key items i Hin Hii. specialize (Hi _ Hin). simpl in Hi.
    rewrite list.Forall_forall in Hi. by apply Hi.
  - intros h k v Hin Ha. specialize (Hh _ Hin). rewrite list.Forall_forall in Hh.
    apply (Hh _ Ha).
Qed.
