(* ===== verification/Home.v ===== *)
(** The home page of the documentation site (docs-site/.vitepress/theme):
    the entrance and scroll-reveal motion of HomeLayout.vue and the accordion
    of HomeFAQ.vue. *)

From S2P Require Import Prelude JsNumber JsValue MermaidNodes.
Local Open Scope N_scope.

(** * Motion *)

(** The page: its elements, which keep the classes their templates give them,
    the classes and the animation delays the script added, and for each
    IntersectionObserver the elements it watches.  An observer is never
    disconnected. *)
Record page : Type := Page {
  document : elem;
  added : gmap N (gset jstr);
  delays : gmap N jstr;
  observers : list (gset N);
}.

Definition classes_of (i : N) (p : page) : gset jstr := default ∅ (added p !! i).

(** [el.classList.add(c)]. *)
Definition add_class (c : jstr) (i : N) (p : page) : page :=
  Page (document p) (<[i := {[c]} ∪ classes_of i p]> (added p)) (delays p) (observers p).

(** [Math.min(i, 11) * 45] milliseconds. *)
Definition delay (i : nat) : jstr := Z_digits (Z.min (Z.of_nat i) 11 * 45) ++ u "ms".

(** The callback of [features.forEach]. *)
Definition enter (p : page) (i_el : nat * elem) : page :=
  let '(i, el) := i_el in
  let p := add_class (u "feature-enter") (eid el) p in
  Page (document p) (added p) (<[eid el := delay i]> (delays p)) (observers p).

(** From the content's element down to the first one that has not exactly one
    child. *)
Fixpoint content_root (e : elem) : elem :=
  match e with
  | Elem _ _ [k] => content_root k
  | _ => e
  end.

Section motion.
(** The classes of the templates. *)
Context (template : N → gset jstr).

Definition has_class (c : jstr) (p : page) (e : elem) : bool :=
  bool_decide (c ∈ template (eid e) ∪ classes_of (eid e) p).

Definition by_class (c : jstr) (p : page) (root : elem) : list elem :=
  List.filter (has_class c p) (below root).*1.

(** [targets.forEach]: marked and watched by the observer just made. *)
Definition watch (p : page) (el : elem) : page :=
  let p := add_class (u "reveal") (eid el) p in
  match observers p with
  | o :: os => Page (document p) (added p) (delays p) (({[eid el]} ∪ o) :: os)
  | [] => p
  end.

(** [ssr] tells that there is no document, [reduced] that the reader prefers
    reduced motion.  A new observer goes to the head of the list. *)
Definition applyHomeMotion (ssr reduced : bool) (p : page) : page :=
  if ssr || reduced then p
  else
    match by_class (u "VPHome") p (document p) with
    | [] => p
    | home :: _ =>
        let p := fold_left enter (imap pair (by_class (u "VPFeature") p home)) p in
        let contentRoot := content_root <$> head (by_class (u "vp-doc") p home) in
        let targets :=
          match contentRoot with
          | Some r => ekids r ++ by_class (u "home-band") p home
          | None => []
          end in
        match targets with
        | [] => p
        | _ =>
            let p := add_class (u "motion-ready") (eid home) p in
            let p := Page (document p) (added p) (delays p) (∅ :: observers p) in
            fold_left watch targets p
        end
    end.

(** The callback of an observer for one entry. *)
Definition on_entry (k : nat) (isIntersecting : bool) (i : N) (p : page) : page :=
  match observers p !! k with
  | Some o =>
      if isIntersecting && bool_decide (i ∈ o) then
        let p := add_class (u "revealed") i p in
        Page (document p) (added p) (delays p) (<[k := o ∖ {[i]}]> (observers p))
      else p
  | None => p
  end.

(** The layout stays mounted: the motion is applied when it mounts and, after
    the document has changed, on every change of route. *)
Inductive event : Type :=
  | Mounted (ssr reduced : bool)
  | Route (d : elem) (reduced : bool)
  | Entry (k : nat) (isIntersecting : bool) (i : N).

Definition step (p : page) (e : event) : page :=
  match e with
  | Mounted ssr reduced => applyHomeMotion ssr reduced p
  | Route d reduced =>
      applyHomeMotion false reduced (Page d (added p) (delays p) (observers p))
  | Entry k b i => on_entry k b i p
  end.

Definition run : page → list event → page := foldl step.

Definition loaded (d : elem) : page := Page d ∅ ∅ [].

(** ** Nothing stays hidden *)

(** A marked element has been revealed or is still watched, and the delays are
    among the twelve of the entrance. *)
Definition visible_later (p : page) : Prop :=
  (∀ i, u "reveal" ∈ classes_of i p →
        u "revealed" ∈ classes_of i p ∨ ∃ o, o ∈ observers p ∧ i ∈ o) ∧
  (∀ i v, delays p !! i = Some v → ∃ n : nat, (n ≤ 11)%nat ∧ v = delay n).

Lemma classes_add c i p j :
  classes_of j (add_class c i p) = if decide (j = i) then {[c]} ∪ classes_of i p else classes_of j p.
Proof.
  unfold classes_of at 1, add_class. simpl. case_decide as E; subst.
  - by rewrite lookup_insert_eq.
  - by rewrite lookup_insert_ne.
Qed.

Lemma classes_same p q j : added p = added q → classes_of j p = classes_of j q.
Proof. unfold classes_of. by intros ->. Qed.

Lemma delay_bound i : ∃ n : nat, (n ≤ 11)%nat ∧ delay i = delay n.
Proof.
  exists (Nat.min i 11). split; [lia|]. unfold delay. do 2 f_equal. lia.
Qed.

(** Adding another class than [reveal] keeps the property. *)
Lemma add_class_visible c i p : c ≠ u "reveal" → visible_later p → visible_later (add_class c i p).
Proof.
  intros Hc [H1 H2]. split; [|done]. intros j. rewrite classes_add. case_decide as E; [subst|apply H1].
  rewrite !elem_of_union, elem_of_singleton. intros [Hr|Hr]; [by symmetry in Hr|].
  destruct (H1 i Hr); auto.
Qed.

Lemma enter_visible p x : visible_later p → visible_later (enter p x).
Proof.
  destruct x as [i el]. intros H. apply (add_class_visible (u "feature-enter") (eid el)) in H as [H1 H2];
    [|by vm_compute].
  split; [exact H1|]. simpl. intros j v. rewrite lookup_insert_Some.
  intros [[<- <-]|[_ Hv]]; [apply delay_bound|by eapply H2].
Qed.

Lemma fold_visible {A} (f : page → A → page) l p :
  (∀ q x, visible_later q → visible_later (f q x)) → visible_later p →
  visible_later (fold_left f l p).
Proof. intros Hf. revert p. induction l as [|x l IH]; intros p H; simpl; auto. Qed.

Lemma watch_visible p el : observers p ≠ [] →
  visible_later p → visible_later (watch p el) ∧ observers (watch p el) ≠ [].
Proof.
  clear template. intros Hne [H1 H2]. unfold watch. destruct (observers p) as [|o os] eqn:Eo; [done|]. clear Hne.
  cbn [add_class observers]. rewrite Eo. split; [|done]. split; [|done].
  intros j. rewrite !(classes_same _ (add_class (u "reveal") (eid el) p)) by done.
  rewrite classes_add. case_decide as E; [subst|].
  - intros _. right. eexists. split; [left|]. set_solver.
  - intros Hr. destruct (H1 j Hr) as [?|(o' & Ho & Hj)]; [by left|right].
    apply elem_of_cons in Ho as [->|Ho].
    + eexists. split; [left|]. set_solver.
    + exists o'. split; [by right|done].
Qed.

Lemma watch_all_visible l p : observers p ≠ [] →
  visible_later p → visible_later (fold_left watch l p).
Proof.
  revert p. induction l as [|el l IH]; intros p Hne H; simpl; [done|].
  destruct (watch_visible p el Hne H). by apply IH.
Qed.

Lemma new_observer_visible p :
  visible_later p → visible_later (Page (document p) (added p) (delays p) (∅ :: observers p)).
Proof.
  intros [H1 H2]. split; [|done]. intros i Hi.
  destruct (H1 i Hi) as [?|(o & Ho & Hj)]; [by left|right]. exists o. split; [by right|done].
Qed.

Lemma motion_visible ssr reduced p :
  visible_later p → visible_later (applyHomeMotion ssr reduced p).
Proof.
  intros H. unfold applyHomeMotion. destruct (ssr || reduced); [done|].
  destruct (by_class _ _ _) as [|home l]; [done|].
  set (q := fold_left enter _ p). assert (Hq : visible_later q)
    by (apply fold_visible; [apply enter_visible|done]).
  destruct (match _ <$> _ with Some _ => _ | None => _ end) as [|t ts]; [done|].
  apply watch_all_visible; [done|].
  by apply (new_observer_visible (add_class _ _ _)), add_class_visible; [vm_compute|].
Qed.

Lemma entry_visible k b i p : visible_later p → visible_later (on_entry k b i p).
Proof.
  clear template. intros H. unfold on_entry. destruct (observers p !! k) as [o|] eqn:Eo; [|done].
  destruct (b && bool_decide (i ∈ o)) eqn:Eb; [|done].
  destruct H as [H1 H2]. split; [|done]. intros j.
  rewrite !(classes_same _ (add_class (u "revealed") i p)) by done.
  rewrite classes_add. destruct (decide (j = i)) as [->|Hji].
  { intros _. left. apply elem_of_union. left. by apply elem_of_singleton. }
  intros Hr. destruct (H1 j Hr) as [?|(o' & Ho & Hj)]; [by left|right].
  apply list_elem_of_lookup in Ho as [k' Hk']. destruct (decide (k' = k)) as [->|Hne].
  - exists (o ∖ {[i]}). split; [|by apply elem_of_difference; split; [congruence|rewrite elem_of_singleton]]. apply list_elem_of_lookup. exists k. cbn [observers].
    rewrite list_lookup_insert_eq; [done|by eapply lookup_lt_Some].
  - exists o'. split; [|done]. apply list_elem_of_lookup. exists k'. cbn [observers].
    by rewrite list_lookup_insert_ne.
Qed.

(** C28: whatever pages the reader visits and however they scroll, an element the
    script has hidden has been revealed or is watched by an observer that will
    reveal it when it is scrolled into view; entrance delays never exceed the
    eleventh, 495 milliseconds. *)
Theorem nothing_stays_hidden d es : visible_later (run (loaded d) es).
Proof.
  assert (H : ∀ es p, visible_later p → visible_later (run p es)).
  { clear. intros es. unfold run. induction es as [|e es IH]; intros p H; simpl; [done|].
    apply IH. destruct e as [ssr r|d r|k b i]; simpl.
    - by apply motion_visible.
    - apply motion_visible. exact H.
    - by apply entry_visible. }
  apply H. split; [|done]. intros i Hi. unfold classes_of in Hi. simpl in Hi.
  rewrite lookup_empty in Hi. by apply elem_of_empty in Hi.
Qed.
End motion.

(** The descent ends at an element that has no child or several. *)
Lemma content_root_spec e : length (ekids (content_root e)) ≠ 1%nat.
Proof.
  induction e as [i t kids IH] using elem_ind_nested.
  destruct kids as [|k [|k' l]]; simpl; [lia| |lia].
  by inversion IH.
Qed.

(** * The accordion *)

(** [openIndex], the first item at the start. *)
Definition openIndex : Z := 0.

Definition toggle (i openIndex : Z) : Z := if (openIndex =? i)%Z then -1 else i.

(** The class and the [aria-expanded] of an item. *)
Definition is_open (openIndex i : Z) : bool := (openIndex =? i)%Z.

Lemma toggle_spec o i j : (0 ≤ j)%Z → (0 ≤ i)%Z →
  is_open (toggle i o) j = bool_decide (j = i) && negb (is_open o i).
Proof.
  intros Hj Hi. unfold toggle, is_open. destruct (Z.eqb_spec o i) as [->|Hne].
  - rewrite andb_false_r. apply Z.eqb_neq. lia.
  - rewrite andb_true_r. case_bool_decide as E; [subst; apply Z.eqb_refl|]. apply Z.eqb_neq. lia.
Qed.
