(* ===== verification/Retries.v ===== *)
(** Upstream retries (crates/dwara-core/src/resilience/retries.rs): the resolved
    parameters, the retry budget over a rolling window, the backoff with full
    jitter and the deadline across attempts. *)

From S2P Require Import Prelude JsNumber Hash Breaker.
Local Open Scope Z_scope.

(** * Parameters *)

Definition RETRY_BUDGET_WINDOW_MS : Z := 10000.
Definition DEFAULT_RETRY_STATUSES : list Z := [502; 503; 504].

(** Durations in milliseconds. *)
Record HedgeParams : Type := Hedge { hedge_after : Z; hedge_max : Z }.

Definition hedge_default : HedgeParams := Hedge 0 1.

Definition hedge_enabled (h : HedgeParams) : bool := 0 <? hedge_after h.

(** The configuration has the same two fields. *)
Definition hedge_from_config (cfg : option HedgeParams) : HedgeParams :=
  match cfg with
  | None => hedge_default
  | Some c => Hedge (hedge_after c) (hedge_max c)
  end.

Record RetryParams : Type := RetryP {
  attempts : Z;
  retry_post : bool;
  backoff_base_ms : Z;
  backoff_cap_ms : Z;
  retry_statuses : list Z;
  retry_transport : bool;
  budget_percent : Z;
  buffer_max_bytes : Z;
  hedge : HedgeParams;
  total_deadline : option Z;
  buffer_first_frame_bytes : Z;
}.

Definition params_default : RetryParams :=
  RetryP 0 false 25 250 DEFAULT_RETRY_STATUSES true 10 0 hedge_default None 0.

Definition retries_status (p : RetryParams) (status : Z) : bool :=
  bool_decide (status ∈ retry_statuses p).

(** * The budget

    The events of the window, oldest first: the time and whether it is a
    retry.  Every operation holds the lock, so it is one step on them; [now]
    is what the clock returned. *)
Definition events : Type := list (Z * bool).

Definition budget_new : events := [].

(** How often [b] occurs. *)
Fixpoint count (b : bool) (l : list bool) : Z :=
  match l with
  | [] => 0
  | x :: l => (if Bool.eqb x b then 1 else 0) + count b l
  end.

Section budget.
Context (window_ms : Z).

Definition stale (now : Z) (e : Z * bool) : bool := window_ms <=? saturating_sub now e.1.

Fixpoint prune_locked (now : Z) (es : events) : events :=
  match es with
  | e :: es' => if stale now e then prune_locked now es' else es
  | [] => []
  end.

Definition record_request (now : Z) (es : events) : events :=
  prune_locked now es ++ [(now, false)].

Definition count_requests (es : events) : Z := count false es.*2.
Definition count_retries (es : events) : Z := count true es.*2.

(** The arithmetic is on [u64]. *)
Definition try_reserve_retry (percent now : Z) (es : events) : bool * events :=
  let es := prune_locked now es in
  let requests := count_requests es in
  let retries := Z.of_nat (length es) - requests in
  if wrapping_mul (add_u64 retries 1) 100 <=? wrapping_mul percent requests
  then (true, es ++ [(now, true)])
  else (false, es).

Definition budget_totals (now : Z) (es : events) : Z := Z.of_nat (length (prune_locked now es)).
Definition budget_retries (now : Z) (es : events) : Z := count_retries (prune_locked now es).

(** A call, with the time and the percentage of the moment. *)
Inductive op : Type :=
  | Record_ (now : Z)
  | Reserve (percent now : Z)
  | Observe (now : Z).

(** What a call adds to the history of the upstream: a request, a retry that
    was granted, or nothing. *)
Definition step (es : events) (o : op) : events * list bool :=
  match o with
  | Record_ now => (record_request now es, [false])
  | Reserve percent now =>
      let '(ok, es) := try_reserve_retry percent now es in (es, if ok then [true] else [])
  | Observe now => (prune_locked now es, [])
  end.

Fixpoint run (es : events) (os : list op) : events * list bool :=
  match os with
  | [] => (es, [])
  | o :: os =>
      let '(es, l) := step es o in
      let '(es, h) := run es os in
      (es, l ++ h)
  end.

(** ** Facts *)

Lemma prune_suffix now es : ∃ old, es = old ++ prune_locked now es.
Proof.
  induction es as [|e es [old IH]]; simpl; [by exists []|].
  destruct (stale now e); [|by exists []]. exists (e :: old). simpl. by rewrite <- IH.
Qed.

Lemma count_app b l l' : count b (l ++ l') = count b l + count b l'.
Proof. induction l as [|x l IH]; simpl; lia. Qed.

Lemma count_nonneg b l : 0 <= count b l.
Proof. induction l as [|x l IH]; simpl; [lia|]. destruct (Bool.eqb x b); lia. Qed.

Lemma count_length l : count false l + count true l = Z.of_nat (length l).
Proof. induction l as [|[] l IH]; simpl; lia. Qed.

(** Retries are at most [p] percent of the requests. *)
Definition within (p : Z) (h : list bool) : Prop := 100 * count true h <= p * count false h.

(** Every past of the history is within the percentage, and the window is its
    end. *)
Definition accounted (p : Z) (es : events) (h : list bool) : Prop :=
  (∀ past, past `prefix_of` h → within p past) ∧ ∃ old, h = old ++ es.*2.

Lemma accounted_prune p now es h : accounted p es h → accounted p (prune_locked now es) h.
Proof.
  intros [Hp [old ->]]. split; [done|]. destruct (prune_suffix now es) as [gone E].
  exists (old ++ gone.*2). by rewrite <- app_assoc, <- fmap_app, <- E.
Qed.

Lemma prefix_snoc {A} (l : list A) x past :
  past `prefix_of` l ++ [x] → past `prefix_of` l ∨ past = l ++ [x].
Proof.
  intros [k E]. destruct k as [|y k _] using rev_ind; [right; by rewrite app_nil_r in E|].
  left. rewrite app_assoc in E. apply app_inj_tail in E as [-> _]. by exists k.
Qed.

Lemma accounted_snoc p es h e : accounted p es h → within p (h ++ [e.2]) →
  accounted p (es ++ [e]) (h ++ [e.2]).
Proof.
  intros [Hp [old ->]] Hw. split.
  - intros past [?| ->]%prefix_snoc; [by apply Hp|done].
  - exists old. by rewrite fmap_app, <- app_assoc.
Qed.

Lemma within_request p h : 0 <= p → within p h → within p (h ++ [false]).
Proof. unfold within. rewrite !count_app. simpl. nia. Qed.

(** A granted retry keeps the whole history within the percentage: what left
    the window was within it when it was the history. *)
Lemma within_retry p percent old w :
  percent <= p → within p old → 100 * (count true w + 1) <= percent * count false w →
  within p ((old ++ w) ++ [true]).
Proof.
  unfold within. rewrite !count_app. simpl. pose proof (count_nonneg false w). nia.
Qed.

(** No overflow while the window has fewer than [2 ^ 57] events. *)
Lemma reserve_condition percent es :
  0 <= percent <= 100 → Z.of_nat (length es) < 2 ^ 57 →
  (wrapping_mul (add_u64 (Z.of_nat (length es) - count_requests es) 1) 100
     <=? wrapping_mul percent (count_requests es)) = true →
  100 * (count true es.*2 + 1) <= percent * count false es.*2.
Proof.
  intros Hp Hl. unfold count_requests. pose proof (count_length es.*2) as Hc.
  rewrite length_fmap in Hc. pose proof (count_nonneg true es.*2).
  pose proof (count_nonneg false es.*2).
  replace (Z.of_nat (length es) - count false es.*2) with (count true es.*2) by lia.
  set (a := count true es.*2) in *. set (b := count false es.*2) in *.
  assert (percent * b <= 100 * b) by (apply Z.mul_le_mono_nonneg_r; lia).
  assert (0 <= percent * b) by (apply Z.mul_nonneg_nonneg; lia).
  unfold wrapping_mul, add_u64. rewrite (Z.mod_small (a + 1)), !Z.mod_small, Z.leb_le by lia. lia.
Qed.

Lemma prune_length now es : (length (prune_locked now es) <= length es)%nat.
Proof. destruct (prune_suffix now es) as [old E%(f_equal length)]. rewrite length_app in E. lia. Qed.

(** The percentage a call asks for. *)
Definition percent_ok (p : Z) (o : op) : Prop :=
  match o with
  | Reserve percent _ => 0 <= percent <= p
  | _ => True
  end.

Lemma accounted_step p es h o : 0 <= p <= 100 → percent_ok p o →
  Z.of_nat (length es) < 2 ^ 57 → accounted p es h →
  accounted p (step es o).1 (h ++ (step es o).2) ∧
  (length (step es o).1 <= S (length es))%nat.
Proof.
  intros Hp Ho Hl H. pose proof (prune_length) as Hpl. destruct o as [now|percent now|now]; simpl.
  - pose proof (accounted_prune p now _ _ H) as H'. split.
    + apply (accounted_snoc _ _ _ (now, false)); [done|].
      apply within_request; [lia|]. by apply H.
    + unfold record_request. rewrite length_app. simpl. specialize (Hpl now es). lia.
  - pose proof (accounted_prune p now _ _ H) as H'. unfold try_reserve_retry.
    specialize (Hpl now es). destruct (_ <=? _) eqn:E; simpl.
    + split; [|rewrite length_app; simpl; lia].
      apply (accounted_snoc _ _ _ (now, true)); [done|].
      apply reserve_condition in E; [|simpl in Ho; lia|lia].
      destruct H' as [Hpast [old ->]]. simpl in Ho.
      eapply within_retry; [apply Ho|apply Hpast; by eexists|done].
    + rewrite app_nil_r. split; [done|lia].
  - rewrite app_nil_r. split; [by apply accounted_prune|]. specialize (Hpl now es). lia.
Qed.

Lemma accounted_run p os es h : 0 <= p <= 100 → Forall (percent_ok p) os →
  Z.of_nat (length es + length os) <= 2 ^ 57 → accounted p es h →
  accounted p (run es os).1 (h ++ (run es os).2).
Proof.
  intros Hp. revert es h. induction os as [|o os IH]; intros es h Hos Hl H; simpl.
  - by rewrite app_nil_r.
  - apply list.Forall_cons in Hos as [Ho Hos]. simpl in Hl.
    destruct (accounted_step p es h o) as [Hs Hsl]; [done|done|lia|done|].
    destruct (step es o) as [es' l]. simpl in *.
    specialize (IH es' (h ++ l) Hos). destruct (run es' os) as [es'' h']. simpl in *.
    rewrite app_assoc. apply IH; [lia|done].
Qed.
End budget.

(** * Backoff *)

Definition saturating_mul (a b : Z) : Z := Z.min u64_max (a * b).

(** [retry] counts from 1; [retry - 1] is on [u32]. *)
Definition nominal_backoff_ms (base_ms cap_ms retry : Z) : Z :=
  let shift := Z.min ((retry - 1) mod 2 ^ 32) 63 in
  Z.min (saturating_mul base_ms (Z.shiftl 1 shift)) (Z.max cap_ms base_ms).

(** [None]: the remainder by zero panics, when [nominal + 1] wraps. *)
Definition backoff_with_full_jitter (base_ms cap_ms retry rand : Z) : option Z :=
  let nominal := nominal_backoff_ms base_ms cap_ms retry in
  let d := add_u64 nominal 1 in
  if d =? 0 then None else Some (rand mod d).

(** * The deadline across attempts *)

Definition retry_sleep_under_total_deadline (total_deadline : option Z) (elapsed delay : Z)
    : option Z :=
  match total_deadline with
  | None => Some delay
  | Some deadline =>
      if deadline <=? elapsed then None else Some (Z.min delay (deadline - elapsed))
  end.

(** The delay before a retry, as the dispatch loop computes it from the two:
    [None] when the retry is abandoned, or inside the result when the draw
    panics. *)
Definition next_sleep (p : RetryParams) (retry rand elapsed : Z) : option (option Z) :=
  delay ← backoff_with_full_jitter (backoff_base_ms p) (backoff_cap_ms p) retry rand;
  Some (retry_sleep_under_total_deadline (total_deadline p) elapsed delay).

(** ** Facts *)

Lemma nominal_spec base cap retry :
  0 <= base <= cap → cap <= 2 ^ 63 → 1 <= retry < 2 ^ 32 →
  nominal_backoff_ms base cap retry = Z.min (base * 2 ^ (retry - 1)) cap.
Proof.
  intros Hb Hc Hr. unfold nominal_backoff_ms, saturating_mul, u64_max.
  rewrite (Z.mod_small (retry - 1)), Z.shiftl_1_l, Z.max_l by lia.
  destruct (Z.le_gt_cases (retry - 1) 63) as [Hle|Hgt]; [rewrite (Z.min_l (retry - 1)) by lia; lia|].
  rewrite (Z.min_r (retry - 1)) by lia. destruct (Z.eq_dec base 0) as [->|Hne]; [lia|].
  assert (2 ^ 63 <= 2 ^ (retry - 1)) by (apply Z.pow_le_mono_r; lia).
  assert (2 ^ 63 <= base * 2 ^ 63) by nia. assert (2 ^ 63 <= base * 2 ^ (retry - 1)) by nia. lia.
Qed.

(** ** Properties *)

(** C18: over the whole life of a budget, whatever the clock does and however
    requests, retries and observations are interleaved, the retries it has
    granted are at most the given percentage of the requests it has recorded:
    a window that forgets old requests never lets more through. *)
Theorem budget_global window_ms p os
    (Hp : 0 <= p <= 100) (Hos : Forall (percent_ok p) os)
    (Hl : Z.of_nat (length os) <= 2 ^ 57) :
  let h := (run window_ms budget_new os).2 in
  100 * count true h <= p * count false h.
Proof.
  cbv zeta.
  destruct (accounted_run window_ms p os budget_new [] Hp Hos) as [H _]; [done| |by apply H].
  split; [|by exists []]. intros past ->%prefix_nil_inv. unfold within. simpl. lia.
Qed.

Lemma budget_global_witness :
  let os := replicate 10 (Record_ 0) ++ [Reserve 10 9999; Reserve 10 9999] in
  let h := (run RETRY_BUDGET_WINDOW_MS budget_new os).2 in
  count true h = 1 ∧ 100 * count true h <= 10 * count false h.
Proof.
  split; [reflexivity|].
  apply (budget_global RETRY_BUDGET_WINDOW_MS 10); [lia| |vm_compute; discriminate].
  repeat (constructor; [simpl; lia|]). constructor.
Defined.

(** Inside the window the share is not kept: when the requests that paid for a
    retry have aged out before it, the window holds a retry and no request. *)
Example window_over_budget :
  let es := (run RETRY_BUDGET_WINDOW_MS budget_new
               (replicate 10 (Record_ 0) ++ [Reserve 10 9999; Observe 10000])).1 in
  (count_requests es, count_retries es) = (0, 1).
Proof. reflexivity. Qed.

(** With a base below the cap and a cap of at most [2 ^ 63] milliseconds,
    the sleep before the n-th retry is drawn without panic, is at most the base
    doubled n - 1 times and at most the cap, and never reaches past the
    deadline; the retry is abandoned exactly when the deadline has passed. *)
Theorem sleep_bounded p retry rand elapsed
    (Hb : 0 <= backoff_base_ms p <= backoff_cap_ms p) (Hc : backoff_cap_ms p <= 2 ^ 63)
    (Hr : 1 <= retry < 2 ^ 32) (Hrand : u64 rand) :
  ∃ sleep, next_sleep p retry rand elapsed = Some sleep ∧
    (sleep = None ↔ ∃ d, total_deadline p = Some d ∧ d <= elapsed) ∧
    ∀ s, sleep = Some s →
      0 <= s <= Z.min (backoff_base_ms p * 2 ^ (retry - 1)) (backoff_cap_ms p) ∧
      ∀ d, total_deadline p = Some d → elapsed + s <= d.
Proof.
  unfold next_sleep, backoff_with_full_jitter. rewrite nominal_spec by done.
  set (n := Z.min _ _). assert (Hn : 0 <= n <= 2 ^ 63) by (unfold n; lia).
  unfold add_u64. rewrite Z.mod_small by lia.
  destruct (Z.eqb_spec (n + 1) 0) as [|_]; [lia|]. cbn [mbind option_bind].
  pose proof (Z.mod_pos_bound rand (n + 1)) as Hd. set (delay := rand mod (n + 1)) in *.
  eexists. split; [done|]. unfold retry_sleep_under_total_deadline.
  destruct (total_deadline p) as [d|].
  - destruct (Z.leb_spec d elapsed); split.
    + split; [intros _; by exists d|done].
    + done.
    + split; [done|]. intros (d' & [= <-] & ?). lia.
    + intros s [= <-]. split; [lia|]. intros d' [= <-]. lia.
  - split; [split; [done|by intros (? & ? & _)]|].
    intros s [= <-]. split; [lia|done].
Qed.

Lemma sleep_bounded_witness :
  ∃ sleep, next_sleep params_default 3 12345 100 = Some sleep ∧
    ∀ s, sleep = Some s → 0 <= s <= 100.
Proof.
  destruct (sleep_bounded params_default 3 12345 100) as (sleep & H & _ & Hs);
    [simpl; lia|vm_compute; discriminate|lia|split; [lia|reflexivity]|].
  exists sleep. split; [exact H|]. intros s E. exact (proj1 (Hs s E)).
Defined.

(** The validation accepts any cap, and with the largest one the draw divides
    by zero. *)
Example largest_cap_panics rand : backoff_with_full_jitter u64_max u64_max 1 rand = None.
Proof. reflexivity. Qed.

(** With a base above the cap, which the validation refuses, the delay is the
    base: the cap alone does not bound it. *)
Example base_above_cap : nominal_backoff_ms 400 250 1 = 400.
Proof. reflexivity. Qed.
