(* ===== verification/Affinity.v ===== *)
(** Session affinity of a split (crates/dwara-core/src/dataplane/split.rs):
    reading the cookie that pins a session, and minting its value. *)

From S2P Require Import Prelude JsNumber Text Hash.
Local Open Scope N_scope.

(** * Reading a cookie *)

(** [char::is_whitespace]. *)
Definition is_whitespace (c : N) : bool :=
  ((9 <=? c) && (c <=? 13)) || ((8192 <=? c) && (c <=? 8202))
  || bool_decide (c ∈ [32; 133; 160; 5760; 8232; 8233; 8239; 8287; 12288]).

Abbreviation trim := (trim_both is_whitespace).

(** The inner loop: the pairs of one line. *)
Fixpoint find_pair (name : jstr) (pairs : list jstr) : option jstr :=
  match pairs with
  | [] => None
  | p :: pairs =>
      match split_once 61 (trim p) with
      | Some (k, v) =>
          if bool_decide (trim k = name) then
            match trim v with
            | [] => find_pair name pairs
            | v => Some v
            end
          else find_pair name pairs
      | None => find_pair name pairs
      end
  end.

(** The values of the Cookie headers, each as [to_str] returns it: [None] for a
    value that is not visible ASCII. *)
Fixpoint read_cookie (headers : list (option jstr)) (name : jstr) : option jstr :=
  match headers with
  | [] => None
  | None :: headers => read_cookie headers name
  | Some line :: headers =>
      match find_pair name (split_on 59 line) with
      | Some v => Some v
      | None => read_cookie headers name
      end
  end.

(** * Minting a handle *)

Definition hex_unit (d : Z) : N := Z.to_N (if (d <? 10)%Z then 48 + d else 87 + d).

(** The hexadecimal digits of a [u64], at least [width] of them. *)
Fixpoint hex_digits (fuel : nat) (z : Z) (acc : jstr) : jstr :=
  match fuel with
  | O => acc
  | S fuel =>
      let acc := hex_unit (z mod 16) :: acc in
      if (z <? 16)%Z then acc else hex_digits fuel (z / 16) acc
  end.

Definition format_hex (width : nat) (z : Z) : jstr :=
  let ds := hex_digits 16 z [] in
  replicate (width - length ds) 48 ++ ds.

(** [now] is the clock in milliseconds; the counter is a process-wide
    [AtomicU64]. *)
Definition mint_affinity_id (now seq : Z) : jstr * Z :=
  (format_hex 12 now ++ format_hex 6 seq, add_u64 seq 1).

(** The handles of successive calls, with the clock of each. *)
Fixpoint mint_all (seq : Z) (clocks : list Z) : list jstr :=
  match clocks with
  | [] => []
  | now :: clocks =>
      let '(id, seq) := mint_affinity_id now seq in
      id :: mint_all seq clocks
  end.

(** * Cookies as a client writes them *)

(** A pair that survives the trip: a name without separators, a value without
    semicolons, neither with blanks at its ends. *)
Definition pair_ok (kv : jstr * jstr) : Prop :=
  (59 ∉ kv.1) ∧ (61 ∉ kv.1) ∧ tidy is_whitespace kv.1 = true ∧
  (59 ∉ kv.2) ∧ tidy is_whitespace kv.2 = true.

Definition pair_text (kv : jstr * jstr) : jstr := kv.1 ++ 61 :: kv.2.

(** Pairs joined by a semicolon and a blank. *)
Fixpoint line_text (kvs : list (jstr * jstr)) : jstr :=
  match kvs with
  | [] => []
  | [kv] => pair_text kv
  | kv :: kvs => pair_text kv ++ 59 :: 32 :: line_text kvs
  end.

(** The first value that is not empty under a name. *)
Fixpoint first_value (name : jstr) (kvs : list (jstr * jstr)) : option jstr :=
  match kvs with
  | [] => None
  | (k, v) :: kvs =>
      if bool_decide (k = name ∧ v ≠ []) then Some v else first_value name kvs
  end.

Lemma first_value_app name l l' :
  first_value name (l ++ l') = match first_value name l with
                               | Some v => Some v
                               | None => first_value name l'
                               end.
Proof. induction l as [|[k v] l IH]; simpl; [done|]. by case_bool_decide. Qed.

Lemma trim_pair kv : pair_ok kv →
  trim (pair_text kv) = pair_text kv ∧ trim (32 :: pair_text kv) = pair_text kv.
Proof.
  intros (_ & _ & Hk & _ & Hv). rewrite trim_blank by done.
  by rewrite trim_tidy by (by apply tidy_app).
Qed.

Lemma find_pair_ok name kv blank pairs : pair_ok kv →
  find_pair name ((if blank : bool then 32 :: pair_text kv else pair_text kv) :: pairs)
  = if bool_decide (kv.1 = name ∧ kv.2 ≠ []) then Some kv.2 else find_pair name pairs.
Proof.
  intros Hok. destruct (trim_pair kv Hok) as [H1 H2]. destruct Hok as (_ & He & Hk & _ & Hv).
  cbn [find_pair]. replace (trim (if blank then _ else _)) with (pair_text kv) by (by destruct blank).
  unfold pair_text. rewrite split_once_app by done. rewrite !trim_tidy by done.
  destruct kv as [k v]. simpl. destruct (decide (k = name)) as [->|Hne].
  - rewrite bool_decide_true by done. destruct v as [|c v].
    + by rewrite bool_decide_false by naive_solver.
    + by rewrite bool_decide_true.
  - rewrite bool_decide_false by done. by rewrite bool_decide_false by naive_solver.
Qed.

Lemma pair_no_semicolon kv : pair_ok kv → 59 ∉ pair_text kv.
Proof.
  intros (Hk & _ & _ & Hv & _). unfold pair_text. rewrite elem_of_app, elem_of_cons.
  intros [?|[?|?]]; done.
Qed.

Lemma find_line name kvs (blank : bool) : Forall pair_ok kvs → kvs ≠ [] →
  find_pair name (split_on 59 (if blank then 32 :: line_text kvs else line_text kvs))
  = first_value name kvs.
Proof.
  intros H. revert blank. induction H as [|kv kvs Hkv H IH]; intros blank Hne; [done|].
  pose proof (pair_no_semicolon kv Hkv) as Hs.
  assert (Hb : 59 ∉ (32 :: pair_text kv)) by (rewrite elem_of_cons; naive_solver).
  destruct kvs as [|kv' kvs].
  - simpl line_text. rewrite split_field by (by destruct blank).
    rewrite find_pair_ok by done. destruct kv. simpl. by case_bool_decide.
  - replace (if blank then 32 :: line_text (kv :: kv' :: kvs) else line_text (kv :: kv' :: kvs))
      with ((if blank then 32 :: pair_text kv else pair_text kv) ++ 59 :: 32 :: line_text (kv' :: kvs))
      by (by destruct blank).
    rewrite split_join by (by destruct blank). rewrite find_pair_ok by done.
    destruct kv as [k v]. cbn [first_value fst snd]. case_bool_decide; [done|].
    apply (IH true). done.
Qed.

(** * Hexadecimal *)

Definition hex_unit_value (c : N) : Z :=
  if c <? 58 then Z.of_N c - 48 else Z.of_N c - 87.

Definition hex_number (s : jstr) : Z := fold_left (λ a c, 16 * a + hex_unit_value c)%Z s 0%Z.

Lemma hex_unit_spec d : (0 ≤ d < 16)%Z → hex_unit_value (hex_unit d) = d.
Proof.
  intros Hd. unfold hex_unit, hex_unit_value.
  destruct (Z.ltb_spec d 10); (rewrite Z2N.id by lia);
    match goal with |- context [?a <? ?b] => destruct (N.ltb_spec a b) end; lia.
Qed.

Lemma hex_number_app s t :
  hex_number (s ++ t) = fold_left (λ a c, 16 * a + hex_unit_value c)%Z t (hex_number s).
Proof. apply fold_left_app. Qed.

Lemma fold_hex_add t a : fold_left (λ a c, 16 * a + hex_unit_value c)%Z t a
  = (a * 16 ^ Z.of_nat (length t) + hex_number t)%Z.
Proof.
  unfold hex_number. revert a. induction t as [|c t IH]; intros a; [simpl; lia|].
  cbn [fold_left length]. rewrite IH, (IH (16 * 0 + _)%Z).
  rewrite Nat2Z.inj_succ, Z.pow_succ_r by lia. lia.
Qed.

(** The digits printed before [acc] denote the number and are few. *)
Lemma hex_digits_spec fuel z acc : (0 ≤ z < 16 ^ Z.of_nat fuel)%Z → (0 < fuel)%nat →
  ∃ ds, hex_digits fuel z acc = ds ++ acc ∧ hex_number ds = z ∧ (0 < length ds)%nat ∧
        ∀ w, (z < 16 ^ Z.of_nat w)%Z → (0 < w)%nat → (length ds ≤ w)%nat.
Proof.
  revert z acc. induction fuel as [|fuel IH]; intros z acc Hz Hf; [lia|].
  cbn [hex_digits]. destruct (Z.ltb_spec z 16) as [Hlt|Hge].
  - exists [hex_unit (z mod 16)]. split; [done|]. rewrite (Z.mod_small z 16) by lia.
    split; [unfold hex_number; simpl; rewrite hex_unit_spec; lia|]. simpl. split; [lia|]. lia.
  - rewrite Nat2Z.inj_succ, Z.pow_succ_r in Hz by lia.
    assert (Hq : (0 ≤ z / 16 < 16 ^ Z.of_nat fuel)%Z).
    { split; [apply Z.div_pos; lia|apply Z.div_lt_upper_bound; lia]. }
    assert (0 < fuel)%nat by (destruct fuel; [simpl in Hz; lia|lia]).
    destruct (IH (z / 16)%Z (hex_unit (z mod 16) :: acc) Hq) as (ds & -> & Hn & Hl & Hw); [done|].
    exists (ds ++ [hex_unit (z mod 16)]). rewrite <- app_assoc. split; [done|].
    pose proof (Z.mod_pos_bound z 16 ltac:(lia)).
    rewrite hex_number_app, Hn. cbn [fold_left]. rewrite hex_unit_spec by lia.
    split; [pose proof (Z.div_mod z 16 ltac:(lia)); lia|]. rewrite length_app. simpl.
    split; [lia|]. intros w Hzw Hw0. destruct w as [|w]; [lia|].
    rewrite Nat2Z.inj_succ, Z.pow_succ_r in Hzw by lia.
    assert (z / 16 < 16 ^ Z.of_nat w)%Z by (apply Z.div_lt_upper_bound; lia).
    assert (0 < w)%nat by (destruct w; [simpl in *; lia|lia]).
    specialize (Hw w). lia.
Qed.

Lemma hex_number_zeros n s : hex_number (replicate n 48 ++ s) = hex_number s.
Proof.
  rewrite hex_number_app, fold_hex_add.
  assert (hex_number (replicate n 48) = 0%Z) as ->; [|lia].
  unfold hex_number. induction n as [|n IH]; [done|]. cbn [replicate fold_left].
  by change (16 * 0 + hex_unit_value 48)%Z with 0%Z.
Qed.

Lemma format_hex_spec w z : (0 ≤ z < 2 ^ 64)%Z →
  hex_number (format_hex w z) = z ∧
  (w ≤ length (format_hex w z))%nat ∧
  ((z < 16 ^ Z.of_nat w)%Z → (0 < w)%nat → length (format_hex w z) = w).
Proof.
  intros Hz. unfold format_hex.
  destruct (hex_digits_spec 16 z []) as (ds & -> & Hn & Hl & Hw); [by simpl|lia|].
  rewrite app_nil_r, hex_number_zeros, length_app, length_replicate.
  split; [done|]. split; [lia|]. intros Hzw Hw0. specialize (Hw w Hzw Hw0). lia.
Qed.

Lemma format_hex_inj w z z' : (0 ≤ z < 2 ^ 64)%Z → (0 ≤ z' < 2 ^ 64)%Z →
  format_hex w z = format_hex w z' → z = z'.
Proof.
  intros Hz Hz' E. rewrite <- (proj1 (format_hex_spec w z Hz)), E. by apply format_hex_spec.
Qed.

(** Two handles with different counters differ, whatever the clocks. *)
Lemma mint_inj now now' n n' :
  (0 ≤ now < 2 ^ 48)%Z → (0 ≤ now' < 2 ^ 48)%Z → u64 n → u64 n' →
  (mint_affinity_id now n).1 = (mint_affinity_id now' n').1 → now = now' ∧ n = n'.
Proof.
  intros Hc Hc' Hn Hn' E. simpl in E.
  destruct (format_hex_spec 12 now) as (_ & _ & L); [lia|].
  destruct (format_hex_spec 12 now') as (_ & _ & L'); [lia|].
  apply app_inj_1 in E as [E1 E2]; [|by rewrite L, L'; simpl; try lia].
  split; (eapply format_hex_inj; [| |eassumption]); unfold u64 in *; lia.
Qed.

(** * Properties *)

(** A cookie header read back gives what the client was told: over any
    header lines written as name=value pairs, with lines that are not visible
    ASCII skipped, the value found is the first one that is not empty under
    that name. *)
Theorem cookie_roundtrip lines name
    (Hok : Forall (Forall pair_ok) lines) (Hne : Forall (λ l, l ≠ []) lines) (binary : nat) :
  read_cookie (replicate binary None ++ map (λ l, Some (line_text l)) lines) name
  = first_value name (concat lines).
Proof.
  induction binary as [|b IH]; simpl; [|done].
  induction Hok as [|l lines Hl Hok IH]; simpl; [done|].
  apply list.Forall_cons in Hne as [Hnl Hne].
  rewrite (find_line name l false) by done. rewrite first_value_app.
  destruct (first_value name l); [done|]. by apply IH.
Qed.

Lemma cookie_roundtrip_witness :
  read_cookie [None; Some (u "a=; dwara=x1; b=2"); Some (u "dwara=x2")] (u "dwara") = Some (u "x1").
Proof.
  refine (eq_trans (cookie_roundtrip [[(u "a", []); (u "dwara", u "x1"); (u "b", u "2")];
                                      [(u "dwara", u "x2")]] (u "dwara") _ _ 1) _).
  - repeat (constructor; [repeat (constructor; [apply (bool_decide_unpack _); vm_compute; exact I|]);
      constructor|]). constructor.
  - repeat (constructor; [discriminate|]). constructor.
  - reflexivity.
Defined.

(** The affinity handles a process mints are pairwise different, whatever
    the clock does, for clocks before the year 10889 and as long as the 64-bit
    counter has not wrapped. *)
Theorem mint_unique clocks
    (Hc : Forall (λ now, 0 ≤ now < 2 ^ 48)%Z clocks) (Hl : (Z.of_nat (length clocks) ≤ 2 ^ 64)%Z) :
  NoDup (mint_all 0 clocks).
Proof.
  assert (H : ∀ clocks n, (0 ≤ n)%Z → (n + Z.of_nat (length clocks) ≤ 2 ^ 64)%Z →
    Forall (λ now, 0 ≤ now < 2 ^ 48)%Z clocks →
    NoDup (mint_all n clocks) ∧
    ∀ id, id ∈ mint_all n clocks → ∃ now m, (0 ≤ now < 2 ^ 48)%Z ∧ (n ≤ m < 2 ^ 64)%Z ∧
                                           id = (mint_affinity_id now m).1).
  { clear. induction clocks as [|now clocks IH]; intros n Hn Hl Hc; simpl.
    - split; [by constructor|]. by intros id ?%elem_of_nil.
    - apply list.Forall_cons in Hc as [Hnow Hc]. simpl in Hl.
      destruct clocks as [|now' clocks'].
      + split; [by apply NoDup_singleton|]. intros id ->%list_elem_of_singleton.
        exists now, n. split; [done|]. split; [lia|done].
      + unfold add_u64 in *. rewrite Z.mod_small by (simpl in Hl; lia).
        destruct (IH (n + 1)%Z) as [Hnd Hin]; [lia|simpl in *; lia|done|]. split.
        * apply list.NoDup_cons. split; [|done]. intros (now1 & m & Hn1 & Hm & E)%Hin.
          apply (mint_inj now now1 n m) in E as [_ ->]; unfold u64; lia.
        * intros id [->|Hid]%elem_of_cons; [exists now, n; split; [done|]; split; [simpl in Hl; lia|done]|].
          destruct (Hin id Hid) as (now1 & m & ? & ? & ?). exists now1, m. split; [done|]. split; [lia|done]. }
  apply (H clocks 0%Z); [lia|lia|done].
Qed.

Lemma mint_unique_witness :
  NoDup (mint_all 0 [1750000000000; 1750000000000; 1749999999999]%Z).
Proof.
  apply mint_unique; [repeat (constructor; [lia|]); constructor|vm_compute; discriminate].
Defined.

(** A handle has 18 characters until the counter passes [2 ^ 24]. *)
Lemma mint_length now n : (0 ≤ now < 2 ^ 48)%Z → (0 ≤ n < 2 ^ 24)%Z →
  length (mint_affinity_id now n).1 = 18%nat.
Proof.
  intros Hc Hn. simpl. rewrite length_app.
  destruct (format_hex_spec 12 now) as (_ & _ & L); [lia|].
  destruct (format_hex_spec 6 n) as (_ & _ & L'); [lia|]. rewrite L, L'; simpl; lia.
Qed.
