(* ===== verification/Health.v ===== *)
(** Passive health of an endpoint (crates/dwara-core/src/resilience/health.rs):
    the tracker that picks consult through atomics while reports update it
    under a lock.  Every operation is a sequence of atomic steps, and a run is
    any interleaving of the operations of any number of threads. *)

From S2P Require Import Prelude JsNumber Hash Breaker.
Local Open Scope Z_scope.

(** * Parameters and state *)

Record HealthParams : Type := HParams {
  window_ms : Z;
  consecutive_failures : Z;
  failure_ratio : num;
  failure_min_volume : Z;
  eject_ms : Z;
  half_open_probes : Z;
  recovery_ramp_ms : Z;
}.

(** The three values of the status atomic. *)
Inductive status : Type := HEALTHY | EJECTED | HALF_OPEN.

#[global] Instance status_eq_dec : EqDecision status.
Proof. solve_decision. Defined.

(** The events it emits. *)
Inductive emission : Type := EndpointEjected | EndpointRecovered.

#[global] Instance emission_eq_dec : EqDecision emission.
Proof. solve_decision. Defined.

(** [streak] is [consecutive_failures] of the source; [emitted] is what the
    sink was given, oldest first. *)
Record EndpointHealth : Type := Health {
  state : status;
  ejected_until_ms : Z;
  probes_remaining : Z;
  streak : Z;
  observations : list (Z * bool);
  ejections : Z;
  recovered_at_ms : Z;
  emitted : list emission;
}.

Definition new : EndpointHealth := Health HEALTHY 0 0 0 [] 0 0 [].

Definition set_state (s : status) (h : EndpointHealth) : EndpointHealth :=
  Health s (ejected_until_ms h) (probes_remaining h) (streak h) (observations h) (ejections h)
         (recovered_at_ms h) (emitted h).
Definition set_until (t : Z) (h : EndpointHealth) : EndpointHealth :=
  Health (state h) t (probes_remaining h) (streak h) (observations h) (ejections h)
         (recovered_at_ms h) (emitted h).
Definition set_probes (n : Z) (h : EndpointHealth) : EndpointHealth :=
  Health (state h) (ejected_until_ms h) n (streak h) (observations h) (ejections h)
         (recovered_at_ms h) (emitted h).
Definition set_streak (n : Z) (h : EndpointHealth) : EndpointHealth :=
  Health (state h) (ejected_until_ms h) (probes_remaining h) n (observations h) (ejections h)
         (recovered_at_ms h) (emitted h).
Definition set_observations (w : list (Z * bool)) (h : EndpointHealth) : EndpointHealth :=
  Health (state h) (ejected_until_ms h) (probes_remaining h) (streak h) w (ejections h)
         (recovered_at_ms h) (emitted h).

(** [fetch_update]: one slot less, if there is one. *)
Definition consume_probe (h : EndpointHealth) : EndpointHealth :=
  if 0 <? probes_remaining h then set_probes (probes_remaining h - 1) h else h.

(** * Atomic steps

    Where an operation stands: each constructor is the next access to the
    shared state.  A pick is [is_candidate] or, with [take], [acquire]; [now]
    is the time it was given. *)
Inductive pc : Type :=
  | PickStatus (take : bool) (now : Z)
  | PickUntil (take : bool) (now : Z)
  | PickSwap (take : bool)
  | PickArm (take : bool)
  | PickProbes
  | TryLoad
  | TrySwap (seen : Z)
  | Consume
  | ReportLock (probe : bool) (now : Z) (is_failure : bool)
  | ReportStatus (now : Z) (is_failure : bool)
  | EjectUntil (now : Z)
  | EjectStatus
  | EjectFinish
  | RecoverStatus
  | RecoverFinish
  | Returned (b : bool)
  | Finished.

#[global] Instance pc_eq_dec : EqDecision pc.
Proof. solve_decision. Defined.

Section health.
Context (params : HealthParams).

(** The window keeps what is younger than [window_ms]. *)
Fixpoint trim_window (now : Z) (w : list (Z * bool)) : list (Z * bool) :=
  match w with
  | o :: w' => if window_ms params <=? saturating_sub now o.1 then trim_window now w' else w
  | [] => []
  end.

Definition should_eject_locked (h : EndpointHealth) : bool :=
  if consecutive_failures params <=? streak h then true
  else
    let volume := Z.of_nat (length (observations h)) in
    if volume mod 2 ^ 32 <? failure_min_volume params then false
    else
      let failures := Z.of_nat (length (List.filter snd (observations h))) in
      nle (nmul (failure_ratio params) (num_of_Z volume)) (num_of_Z failures).

(** One atomic step: the new state and where the operation stands then.
    [clock] is the system clock, which a recovery reads. *)
Definition micro (clock : Z) (h : EndpointHealth) (c : pc) : EndpointHealth * pc :=
  match c with
  | PickStatus take now =>
      match state h with
      | HEALTHY => (h, Returned true)
      | EJECTED => (h, PickUntil take now)
      | HALF_OPEN => (h, if take then TryLoad else PickProbes)
      end
  | PickUntil take now =>
      (h, if now <? ejected_until_ms h then Returned false else PickSwap take)
  | PickSwap take =>
      if bool_decide (state h = EJECTED) then (set_state HALF_OPEN h, PickArm take)
      else (h, if take then TryLoad else Returned true)
  | PickArm take =>
      (set_probes (half_open_probes params) h, if take then TryLoad else Returned true)
  | PickProbes => (h, Returned (0 <? probes_remaining h))
  | TryLoad =>
      let seen := probes_remaining h in
      (h, if seen =? 0 then Returned false else TrySwap seen)
  | TrySwap seen =>
      if probes_remaining h =? seen then (set_probes (seen - 1) h, Returned true)
      else (h, TryLoad)
  | Consume => (consume_probe h, Finished)
  | ReportLock probe now is_failure =>
      let h := if probe : bool then h
               else set_observations (trim_window now (observations h ++ [(now, is_failure)])) h in
      (set_streak (if is_failure : bool then add_u32 (streak h) 1 else 0) h,
       ReportStatus now is_failure)
  | ReportStatus now is_failure =>
      match state h with
      | HALF_OPEN => (h, if is_failure then EjectUntil now else RecoverStatus)
      | EJECTED => (h, if is_failure then Finished else RecoverStatus)
      | HEALTHY => (h, if is_failure && should_eject_locked h then EjectUntil now else Finished)
      end
  | EjectUntil now => (set_until (add_u64 now (eject_ms params)) h, EjectStatus)
  | EjectStatus => (set_state EJECTED h, EjectFinish)
  | EjectFinish =>
      (Health (state h) (ejected_until_ms h) (probes_remaining h) 0 [] (add_u64 (ejections h) 1)
              (recovered_at_ms h) (emitted h ++ [EndpointEjected]), Finished)
  | RecoverStatus => (set_state HEALTHY h, RecoverFinish)
  | RecoverFinish =>
      (Health (state h) (ejected_until_ms h) (probes_remaining h) 0 [] (ejections h)
              clock (emitted h ++ [EndpointRecovered]), Finished)
  | Returned _ | Finished => (h, c)
  end.

(** The operations that hold the events lock. *)
Definition locked_at (c : pc) : bool :=
  match c with
  | ReportStatus _ _ | EjectUntil _ | EjectStatus | EjectFinish | RecoverStatus | RecoverFinish =>
      true
  | _ => false
  end.

(** Whether the next step has to wait for the lock. *)
Definition needs_lock (c : pc) : bool :=
  match c with
  | ReportLock _ _ _ => true
  | _ => false
  end.

(** Observers, on a state read at once. *)
Definition is_available (h : EndpointHealth) (now : Z) : bool :=
  match state h with
  | HEALTHY => true
  | EJECTED => ejected_until_ms h <=? now
  | HALF_OPEN => 0 <? probes_remaining h
  end.

Definition state_label (h : EndpointHealth) (now : Z) : string :=
  match state h with
  | HEALTHY => "healthy"
  | EJECTED => if ejected_until_ms h <=? now then "half_open" else "ejected"
  | HALF_OPEN => "half_open"
  end.

(** An operation that nothing interrupts. *)
Fixpoint alone (fuel : nat) (clock : Z) (h : EndpointHealth) (c : pc) : EndpointHealth * pc :=
  match fuel with
  | O => (h, c)
  | S fuel' => let '(h', c') := micro clock h c in alone fuel' clock h' c'
  end.

(** The operations of [EndpointHealth], each run alone. *)
Definition answer (c : pc) : bool :=
  match c with
  | Returned b => b
  | _ => false
  end.

Definition is_candidate (now : Z) (h : EndpointHealth) : EndpointHealth * bool :=
  let '(h', c) := alone 6 0 h (PickStatus false now) in (h', answer c).
Definition acquire (now : Z) (h : EndpointHealth) : EndpointHealth * bool :=
  let '(h', c) := alone 6 0 h (PickStatus true now) in (h', answer c).
Definition report (clock now : Z) (is_failure : bool) (h : EndpointHealth) : EndpointHealth :=
  (alone 6 clock h (ReportLock false now is_failure)).1.
Definition report_probe (clock now : Z) (is_failure : bool) (h : EndpointHealth) : EndpointHealth :=
  (alone 6 clock h (ReportLock true now is_failure)).1.

(** * Interleavings

    Threads that may each be inside one operation; [due] remembers the expiry
    that was stored when an ejection last took effect. *)
Record sys : Type := Sys { tracker : EndpointHealth; threads : list pc; due : Z }.

Inductive event : Type :=
  | Spawn (c : pc)
  | Run (i : nat) (clock : Z).

(** The operations start at these steps. *)
Definition is_start (c : pc) : bool :=
  match c with
  | PickStatus _ _ | Consume | ReportLock _ _ _ => true
  | _ => false
  end.

Definition step (s : sys) (e : event) : sys :=
  match e with
  | Spawn c => if is_start c then Sys (tracker s) (threads s ++ [c]) (due s) else s
  | Run i clock =>
      match threads s !! i with
      | None => s
      | Some c =>
          if needs_lock c && existsb locked_at (threads s) then s
          else
            let '(h, c') := micro clock (tracker s) c in
            Sys h (<[i := c']> (threads s))
                (match c with EjectStatus => ejected_until_ms (tracker s) | _ => due s end)
      end
  end.

Definition run : sys → list event → sys := foldl step.

Definition started : sys := Sys new [] 0.
End health.

(** * The abstract tracker

    What the pick path can tell of an endpoint, and what each operation
    promises of it when it runs alone. *)
Inductive standing : Type :=
  | Serving
  | Out (until : Z)
  | Trial (slots : Z).

Definition standing_of (h : EndpointHealth) : standing :=
  match state h with
  | HEALTHY => Serving
  | EJECTED => Out (ejected_until_ms h)
  | HALF_OPEN => Trial (probes_remaining h)
  end.

(** An ejection that has expired is a trial with all its slots. *)
Definition due_standing (params : HealthParams) (now : Z) (v : standing) : standing :=
  match v with
  | Out until => if now <? until then v else Trial (half_open_probes params)
  | _ => v
  end.

Definition take_slot (v : standing) : standing * bool :=
  match v with
  | Serving => (v, true)
  | Out _ => (v, false)
  | Trial n => if n =? 0 then (v, false) else (Trial (n - 1), true)
  end.

Definition may_take (v : standing) : bool :=
  match v with
  | Serving => true
  | Out _ => false
  | Trial n => 0 <? n
  end.

(** A failure of a serving endpoint ejects it when [tripped]. *)
Definition observe_standing (params : HealthParams) (now : Z) (is_failure tripped : bool) (v : standing) : standing :=
  match v, is_failure with
  | Serving, true => if tripped then Out (add_u64 now (eject_ms params)) else v
  | Trial _, true => Out (add_u64 now (eject_ms params))
  | Out _, true => v
  | _, false => Serving
  end.

(** The streak and the window with one more outcome. *)
Definition observed (params : HealthParams) (probe : bool) (now : Z) (is_failure : bool)
    (h : EndpointHealth) : EndpointHealth :=
  (micro params 0 h (ReportLock probe now is_failure)).1.

(** * Facts *)

Section facts.
Context (params : HealthParams).

(** How many threads hold the lock. *)
Definition holders (l : list pc) : nat := length (List.filter locked_at l).

Lemma holders_app l l' : holders (l ++ l') = (holders l + holders l')%nat.
Proof. unfold holders. by rewrite List.filter_app, length_app. Qed.

Lemma holders_existsb l : existsb locked_at l = false → holders l = 0%nat.
Proof.
  unfold holders. induction l as [|c l IH]; simpl; [done|].
  intros [Hc Hl]%orb_false_iff. rewrite Hc. by apply IH.
Qed.

Lemma holders_insert l i c c' : l !! i = Some c →
  (holders (<[i := c']> l) + (if locked_at c then 1 else 0)
   = holders l + (if locked_at c' then 1 else 0))%nat.
Proof.
  revert i. induction l as [|d l IH]; intros [|i] H; simpl in *; try done.
  - injection H as ->. unfold holders. simpl. destruct (locked_at c), (locked_at c'); simpl; lia.
  - specialize (IH i H). unfold holders in *. simpl. destruct (locked_at d); simpl; lia.
Qed.

(** A thread inside the lock stays inside or leaves; only [ReportLock] enters. *)
Lemma micro_lock clock h c :
  locked_at (micro params clock h c).2 = true → locked_at c = true ∨ needs_lock c = true.
Proof. destruct c; simpl; repeat case_match; simpl; auto; by subst. Qed.

(** The value a thread is about to swap out was a free slot. *)
Definition slot_seen (c : pc) : Prop :=
  match c with
  | TrySwap seen => 0 < seen
  | _ => True
  end.

(** What every interleaving keeps. *)
Definition safe (s : sys) : Prop :=
  (holders (threads s) <= 1)%nat ∧
  0 <= probes_remaining (tracker s) <= half_open_probes params ∧
  Forall slot_seen (threads s) ∧
  (EjectStatus ∈ threads s ∨
   (state (tracker s) = EJECTED → ejected_until_ms (tracker s) = due s)).

(** Another thread's position survives a step. *)
Lemma elem_insert_other (l : list pc) i c c' x :
  l !! i = Some c → x ≠ c → x ∈ l → x ∈ <[i := c']> l.
Proof.
  intros Hi Hx [j Hj]%list_elem_of_lookup. apply list_elem_of_lookup. exists j.
  rewrite list_lookup_insert_ne; [done|]. congruence.
Qed.

Lemma elem_insert_self (l : list pc) i c c' : l !! i = Some c → c' ∈ <[i := c']> l.
Proof.
  intros Hi. apply list_elem_of_lookup. exists i. apply list_lookup_insert_eq. by eapply lookup_lt_Some.
Qed.

(** What a step does to the slots. *)
Lemma micro_probes clock h c : 0 <= half_open_probes params →
  0 <= probes_remaining h <= half_open_probes params → slot_seen c →
  0 <= probes_remaining (micro params clock h c).1 <= half_open_probes params ∧
  slot_seen (micro params clock h c).2.
Proof.
  intros Hp Hr Hs. destruct c; simpl in *; unfold consume_probe; repeat case_match; simpl;
    rewrite ?Z.eqb_eq, ?Z.eqb_neq, ?Z.ltb_lt in *; (split; [lia|]); try done; lia.
Qed.

(** Only three steps touch the expiry or make the state ejected. *)
Lemma micro_until clock h c : c ≠ EjectStatus →
  (∃ now, c = EjectUntil now ∧ (micro params clock h c).2 = EjectStatus) ∨
  (ejected_until_ms (micro params clock h c).1 = ejected_until_ms h ∧
   (state (micro params clock h c).1 = EJECTED → state h = EJECTED)).
Proof.
  intros Hc. destruct c; simpl; unfold consume_probe; repeat case_match; simpl; eauto; try done; right;
    (split; [done|congruence]).
Qed.

Lemma safe_step s e : 0 <= half_open_probes params → safe s → safe (step params s e).
Proof.
  intros Hp (Hh & Hr & Hs & Hd). destruct e as [c|i clock]; simpl.
  - destruct (is_start c) eqn:Ec; [|done]. unfold safe. simpl. split_and!; [|lia|lia| |].
    + rewrite holders_app. assert (H0 : holders [c] = 0%nat) by (by destruct c).
      rewrite H0. lia.
    + apply Forall_app. split; [done|]. by destruct c; try discriminate Ec; repeat constructor.
    + destruct Hd as [Hd|Hd]; [left; apply elem_of_app; by left|by right].
  - destruct (threads s !! i) as [c|] eqn:Ei; [|done].
    destruct (needs_lock c && existsb locked_at (threads s)) eqn:Eb; [done|].
    pose proof (micro_lock clock (tracker s) c) as Hlock.
    assert (Hsc : slot_seen c) by (eapply Forall_lookup_1; [exact Hs|exact Ei]).
    pose proof (micro_probes clock (tracker s) c Hp Hr Hsc) as [Hr' Hsc'].
    pose proof (micro_until clock (tracker s) c) as Hu.
    destruct (micro params clock (tracker s) c) as [h c'] eqn:Em. simpl in *.
    unfold safe. simpl. split_and!; [|lia|lia|by apply Forall_insert|].
    + pose proof (holders_insert (threads s) i c c' Ei) as Hi.
      destruct (locked_at c') eqn:Ec'; [|lia]. destruct (Hlock eq_refl) as [Hc|Hc]; [rewrite Hc in Hi; lia|].
      rewrite Hc in Eb. simpl in Eb. apply holders_existsb in Eb. lia.
    + destruct (decide (c = EjectStatus)) as [->|Hne].
      { right. injection Em as <- _. done. }
      destruct (Hu Hne) as [(now & -> & ->)|[Hun Hst]].
      * left. by eapply elem_insert_self.
      * destruct Hd as [Hd|Hd]; [left; by eapply elem_insert_other|].
        right. intros E. rewrite Hun. rewrite Hd by auto. by destruct c.
Qed.

Lemma safe_run es s : 0 <= half_open_probes params → safe s → safe (run params s es).
Proof.
  intros Hp. revert s. induction es as [|e es IH]; intros s H; simpl; [done|].
  by apply IH, safe_step.
Qed.

(** ** An ejection that nobody was racing *)

(** Picks before the expiry, and reports of failures. *)
Definition calm (u : Z) (e : event) : Prop :=
  match e with
  | Spawn (PickStatus _ now) => now < u
  | Spawn (ReportLock _ _ is_failure) => is_failure = true
  | _ => True
  end.

(** Where such operations can stand while the endpoint is ejected. *)
Definition kept_out (u : Z) (c : pc) : Prop :=
  match c with
  | PickStatus _ now | PickUntil _ now => now < u
  | ReportLock _ _ is_failure | ReportStatus _ is_failure => is_failure = true
  | Consume | Finished => True
  | Returned b => b = false
  | _ => False
  end.

Definition out (u : Z) (s : sys) : Prop :=
  state (tracker s) = EJECTED ∧ ejected_until_ms (tracker s) = u ∧ Forall (kept_out u) (threads s).

Lemma out_micro u clock h c : state h = EJECTED → ejected_until_ms h = u → kept_out u c →
  let '(h', c') := micro params clock h c in
  state h' = EJECTED ∧ ejected_until_ms h' = u ∧ kept_out u c'.
Proof.
  intros Hs Hu Hc. destruct c as [t now|t now|t|t| | |seen| |pr now f|now f|now| | | | |b|];
    simpl in *; try done.
  - by rewrite Hs.
  - rewrite Hu. by destruct (Z.ltb_spec now u); [|lia].
  - unfold consume_probe. by destruct (0 <? _).
  - by destruct pr.
  - rewrite Hs. by subst f.
Qed.

Lemma out_step u s e : calm u e → out u s → out u (step params s e).
Proof.
  intros He (Hs & Hu & Ht). destruct e as [c|i clock]; simpl.
  - destruct (is_start c) eqn:Ec; [|done]. unfold out. simpl. split_and!; [done|done|].
    apply Forall_app. split; [done|]. constructor; [|done]. by destruct c.
  - destruct (threads s !! i) as [c|] eqn:Ei; [|done].
    destruct (needs_lock c && existsb locked_at (threads s)); [done|].
    assert (Hc : kept_out u c) by (eapply Forall_lookup_1; [exact Ht|exact Ei]).
    pose proof (out_micro u clock (tracker s) c Hs Hu Hc) as H.
    destruct (micro params clock (tracker s) c) as [h c']. destruct H as (Hs' & Hu' & Hc').
    unfold out. simpl. split_and!; [done|done|]. by apply Forall_insert.
Qed.

Lemma out_run u es s : Forall (calm u) es → out u s → out u (run params s es).
Proof.
  intros He. revert s. induction He as [|e es He Hes IH]; intros s H; simpl; [done|].
  by apply IH, out_step.
Qed.

(** ** A half-open endpoint whose slots are spent *)

(** Anything but reports. *)
Definition no_report (e : event) : Prop :=
  match e with
  | Spawn (ReportLock _ _ _) => False
  | _ => True
  end.

Definition turned_away (c : pc) : Prop :=
  match c with
  | PickStatus _ _ | PickProbes | TryLoad | Consume | Finished => True
  | Returned b => b = false
  | _ => False
  end.

Definition spent (s : sys) : Prop :=
  state (tracker s) = HALF_OPEN ∧ probes_remaining (tracker s) = 0 ∧ Forall turned_away (threads s).

Lemma spent_step s e : no_report e → spent s → spent (step params s e).
Proof.
  intros He (Hs & Hp & Ht). destruct e as [c|i clock]; simpl.
  - destruct (is_start c) eqn:Ec; [|done]. unfold spent. simpl. split_and!; [done|done|].
    apply Forall_app. split; [done|]. constructor; [|done]. by destruct c.
  - destruct (threads s !! i) as [c|] eqn:Ei; [|done].
    destruct (needs_lock c && existsb locked_at (threads s)); [done|].
    assert (Hc : turned_away c) by (eapply Forall_lookup_1; [exact Ht|exact Ei]).
    assert (H : let '(h', c') := micro params clock (tracker s) c in
                state h' = HALF_OPEN ∧ probes_remaining h' = 0 ∧ turned_away c').
    { destruct c as [t now| | | | | | | | | | | | | | |b|]; simpl in *; try done.
      - rewrite Hs. by destruct t.
      - by rewrite Hp.
      - by rewrite Hp.
      - unfold consume_probe. by rewrite Hp. }
    destruct (micro params clock (tracker s) c) as [h c']. destruct H as (Hs' & Hp' & Hc').
    unfold spent. simpl. split_and!; [done|done|]. by apply Forall_insert.
Qed.

Lemma spent_run es s : Forall no_report es → spent s → spent (run params s es).
Proof.
  intros He. revert s. induction He as [|e es He Hes IH]; intros s H; simpl; [done|].
  by apply IH, spent_step.
Qed.
End facts.

(** * Properties *)

(** C20: run alone, every operation ends and implements the abstract tracker:
    [is_candidate] says whether the endpoint may be tried once an expired
    ejection has become a trial, provided a trial has a slot; [acquire] takes
    a slot of it; a report ejects, recovers or leaves the endpoint as the
    state, the outcome and the trip rule say. *)
Theorem tracker_refines params clock h now probe is_failure (Hp : 1 <= half_open_probes params) :
  (let '(h', c) := alone params 6 clock h (PickStatus false now) in
   standing_of h' = due_standing params now (standing_of h) ∧ c = Returned (may_take (standing_of h'))) ∧
  (let '(h', c) := alone params 6 clock h (PickStatus true now) in
   (standing_of h', c) = (let '(v, b) := take_slot (due_standing params now (standing_of h)) in (v, Returned b))) ∧
  (let '(h', c) := alone params 6 clock h (ReportLock probe now is_failure) in
   c = Finished ∧
   standing_of h' = observe_standing params now is_failure
                  (should_eject_locked params (observed params probe now is_failure h)) (standing_of h)).
Proof.
  split_and!.
  - unfold standing_of. simpl. destruct (state h) eqn:E; simpl; rewrite ?E; [done| |done].
    destruct (now <? ejected_until_ms h) eqn:El; simpl; rewrite ?E; simpl; rewrite ?El; [done|].
    split; [done|]. by destruct (Z.ltb_spec 0 (half_open_probes params)); [|lia].
  - unfold standing_of. simpl. destruct (state h) eqn:E; simpl; rewrite ?E; [done| |].
    + destruct (now <? ejected_until_ms h) eqn:El; simpl; rewrite ?E; [done|]. simpl.
      destruct (Z.eqb_spec (half_open_probes params) 0); [lia|]. simpl. by rewrite Z.eqb_refl.
    + destruct (Z.eqb_spec (probes_remaining h) 0); simpl; rewrite ?E; [done|].
      by rewrite Z.eqb_refl; simpl; rewrite ?E.
  - set (h1 := observed _ _ _ _ _).
    change (alone params 6 clock h (ReportLock probe now is_failure))
      with (alone params 5 clock h1 (ReportStatus now is_failure)).
    assert (Eu : standing_of h = standing_of h1) by (by destruct probe). rewrite Eu.
    clearbody h1. unfold standing_of. destruct (state h1) eqn:E1, is_failure;
      simpl; rewrite E1; simpl; rewrite ?E1; try done.
    destruct (should_eject_locked params h1); simpl; by rewrite ?E1.
Qed.

(** C19: under every interleaving of picks, probe consumptions and reports of
    any number of threads, at most one report is inside the lock, the slots of
    a half-open endpoint stay between 0 and the configured number, no thread
    ever takes a slot below 0, and an ejection becomes visible only with its
    own expiry in place, or while a newer one is being published. *)
Theorem interleaving_safe params es (Hp : 0 <= half_open_probes params) :
  safe params (run params started es).
Proof.
  apply safe_run; [done|]. unfold safe, holders. simpl. split_and!; [lia|lia|lia|done|by right].
Qed.

(** C21: once an endpoint is ejected and no operation is under way, it stays
    out of rotation until its expiry, whatever picks before that time and
    reports of failures are interleaved: no pick is let through, and the
    ejection is neither lifted nor moved. *)
Theorem ejected_stays_out params h d u es
    (Hs : state h = EJECTED) (Hu : ejected_until_ms h = u) (Hes : Forall (calm u) es) :
  let s := run params (Sys h [] d) es in
  state (tracker s) = EJECTED ∧ ejected_until_ms (tracker s) = u ∧ Returned true ∉ threads s.
Proof.
  destruct (out_run params u es (Sys h [] d) Hes) as (H1 & H2 & H3); [done|].
  cbv zeta. split; [done|]. split; [done|]. intros Hin.
  by rewrite list.Forall_forall in H3; apply H3 in Hin.
Qed.

(** A half-open endpoint whose slots are all taken is never picked again
    while no report arrives: nothing gives a slot back. *)
Theorem half_open_spent params h d es
    (Hs : state h = HALF_OPEN) (Hp : probes_remaining h = 0) (Hes : Forall no_report es) :
  let s := run params (Sys h [] d) es in
  state (tracker s) = HALF_OPEN ∧ Returned true ∉ threads s.
Proof.
  destruct (spent_run params es (Sys h [] d) Hes) as (H1 & _ & H3); [done|].
  cbv zeta. split; [done|]. intros Hin. by rewrite list.Forall_forall in H3; apply H3 in Hin.
Qed.

(** The surfaces for operators agree with what a pick would find: an endpoint
    is available when it would be a candidate, and the label says ejected
    exactly while the ejection stands. *)
Theorem observers_agree params now h (Hp : 1 <= half_open_probes params) :
  is_available h now = (is_candidate params now h).2 ∧
  (state_label h now = "ejected"%string ↔ state h = EJECTED ∧ now < ejected_until_ms h).
Proof.
  unfold is_available, state_label, is_candidate. simpl. destruct (state h) eqn:E; simpl; rewrite ?E; simpl.
  - split; [done|]. split; [done|]. by intros [? _].
  - destruct (Z.leb_spec (ejected_until_ms h) now), (Z.ltb_spec now (ejected_until_ms h)); try lia; simpl;
      rewrite ?E; simpl.
    + split; [done|]. split; [done|]. intros [_ ?]. lia.
    + by split.
  - split; [done|]. split; [done|]. by intros [? _].
Qed.

(** One failure ejects for 100 milliseconds, with one slot. *)
Definition sample_params : HealthParams := HParams 60000 1 (num_of_Z 1) 20 100 1 0.

(** Thread [i] takes [n] steps. *)
Definition turns (i n : nat) : list event := replicate n (Run i 0).

(** The first failure of a serving endpoint. *)
Lemma tracker_refines_witness :
  1 <= half_open_probes sample_params ∧
  let '(h', c) := alone sample_params 6 0 new (ReportLock false 7 true) in
  c = Finished ∧ standing_of h' = Out 107.
Proof.
  split; [simpl; lia|].
  destruct (tracker_refines sample_params 0 new 7 false true) as (_ & _ & H); [simpl; lia|].
  revert H. destruct (alone _ _ _ _ _) as [h' c]. intros [Hc Hv]. split; [exact Hc|].
  rewrite Hv. reflexivity.
Defined.

Lemma interleaving_safe_witness :
  let s := run sample_params started
             (Spawn (ReportLock false 0 true) :: Spawn (PickStatus true 100) :: turns 0 4
              ++ turns 1 2) in
  safe sample_params s ∧ state (tracker s) = EJECTED.
Proof. split; [apply interleaving_safe; simpl; lia|reflexivity]. Defined.

Definition sample_ejected : EndpointHealth := Health EJECTED 100 0 0 [] 1 0 [EndpointEjected].

Lemma ejected_stays_out_witness :
  let s := run sample_params (Sys sample_ejected [] 100)
             (Spawn (PickStatus true 99) :: Spawn (ReportLock false 99 true) :: turns 0 1 ++ turns 1 2
              ++ turns 0 1) in
  state (tracker s) = EJECTED ∧ threads s = [Returned false; Finished] ∧ Returned true ∉ threads s.
Proof.
  destruct (ejected_stays_out sample_params sample_ejected 100 100
    (Spawn (PickStatus true 99) :: Spawn (ReportLock false 99 true) :: turns 0 1 ++ turns 1 2
     ++ turns 0 1)) as (H1 & _ & H3);
    [reflexivity|reflexivity|repeat (constructor; [simpl; lia || reflexivity || exact I|]); constructor|].
  split; [exact H1|]. split; [reflexivity|exact H3].
Defined.

Lemma half_open_spent_witness :
  let s := run sample_params (Sys (Health HALF_OPEN 100 0 0 [] 1 0 []) [] 100)
             (Spawn (PickStatus true 1000000) :: turns 0 3) in
  threads s = [Returned false] ∧ Returned true ∉ threads s.
Proof.
  split; [reflexivity|].
  apply (half_open_spent sample_params (Health HALF_OPEN 100 0 0 [] 1 0 []) 100
           (Spawn (PickStatus true 1000000) :: turns 0 3));
    [reflexivity|reflexivity|repeat (constructor; [exact I|]); constructor].
Defined.

(** A pick that saw an ejection expire and is delayed until the endpoint has
    been probed and ejected again swaps the new ejection away: the endpoint is
    half-open, and the pick let through, a hundred milliseconds early. *)
Definition delayed_swap : sys := run sample_params started
  (Spawn (ReportLock false 0 true) :: turns 0 5
   ++ Spawn (PickStatus false 100) :: turns 1 2
   ++ Spawn (PickStatus false 100) :: turns 2 4
   ++ Spawn Consume :: turns 3 1
   ++ Spawn (ReportLock false 101 true) :: turns 4 5
   ++ turns 1 2).

Example delayed_swap_readmits :
  state (tracker delayed_swap) = HALF_OPEN ∧ ejected_until_ms (tracker delayed_swap) = 201 ∧
  threads delayed_swap !! 1%nat = Some (Returned true).
Proof. vm_compute. auto. Qed.
