(* ===== verification/Ring.v ===== *)
(** The consistent-hash ring of the load balancer
    (crates/dwara-core/src/dataplane/balance.rs, [build_ring] and the ring
    walk of [choose]): an ordered map from 64-bit positions to endpoints, and
    the first owner at or after the hash of a key. *)

From S2P Require Import Prelude Hash Maglev.
From Stdlib Require Import Sorted.
Local Open Scope Z_scope.

(** * Data *)

(** [BTreeMap<u64, usize>]: its entries, by increasing key. *)
Definition ring : Type := list (Z * nat).

Fixpoint btree_insert (k : Z) (i : nat) (r : ring) : ring :=
  match r with
  | [] => [(k, i)]
  | (k', i') :: r' =>
      match k ?= k' with
      | Lt => (k, i) :: r
      | Eq => (k, i) :: r'
      | Gt => (k', i') :: btree_insert k i r'
      end
  end.

(** Positions per unit of weight. *)
Definition KETAMA_VNODES : Z := 160.

(** [v.to_be_bytes()] of a [u64]. *)
Definition to_be_bytes64 (v : Z) : list Z :=
  map (λ n, Z.land (Z.shiftr v n) 255) [56; 48; 40; 32; 24; 16; 8; 0].

(** * Construction *)

(** The position of virtual node [v] of an endpoint. *)
Definition vnode_position (e : LbEndpoint) (v : Z) : Z :=
  let h := Fnv1a.update Fnv1a.new (as_bytes (address e)) in
  let h := Fnv1a.update h (to_be_bytes16 (port e)) in
  Fnv1a.finish (Fnv1a.update h (to_be_bytes64 v)).

Definition vnodes (e : LbEndpoint) : Z := Z.max (wrapping_mul KETAMA_VNODES (Z.max (weight e) 1)) 1.

(** The loop over [v]. *)
Definition add_endpoint (i : nat) (e : LbEndpoint) (r : ring) : ring :=
  foldl (λ r v, btree_insert (vnode_position e (Z.of_nat v)) i r) r (seq 0 (Z.to_nat (vnodes e))).

(** The loop over the endpoints, from index [i] on. *)
Fixpoint add_endpoints (i : nat) (eps : list LbEndpoint) (r : ring) : ring :=
  match eps with
  | [] => r
  | e :: eps => add_endpoints (S i) eps (add_endpoint i e r)
  end.

Definition build_ring (eps : list LbEndpoint) : ring := add_endpoints 0 eps [].

(** * The walk *)

(** [ring.range(h..)]. *)
Definition range_from (h : Z) (r : ring) : ring := List.filter (λ x, h <=? x.1) r.

(** The owner of [h] among the eligible endpoints: the first entry at or after
    it, or the first of the ring. *)
Definition owner (eligible : nat → bool) (r : ring) (h : Z) : option nat :=
  match List.find (λ x, eligible x.2) (range_from h r) with
  | Some x => Some x.2
  | None => snd <$> List.find (λ x, eligible x.2) r
  end.

(** * Ordered maps *)

Definition ordered : ring → Prop := StronglySorted (λ x y, x.1 < y.1).

Lemma elem_of_btree k i r x : ordered r →
  x ∈ btree_insert k i r ↔ x = (k, i) ∨ (x.1 ≠ k ∧ x ∈ r).
Proof.
  induction 1 as [|[k' i'] r Hr IH Hlt]; simpl.
  { rewrite list_elem_of_singleton. set_solver. }
  rewrite list.Forall_forall in Hlt. simpl in Hlt.
  destruct (Z.compare_spec k k') as [->|Hk|Hk]; rewrite !elem_of_cons, ?IH.
  - split; [|naive_solver]. intros [->|Hx]; [by left|right]. specialize (Hlt x Hx). split; [lia|by right].
  - split; [|naive_solver]. intros [->|[->|Hx]]; [by left| |]; right; simpl; [split; [lia|by left]|].
    specialize (Hlt x Hx). split; [lia|by right].
  - split; [|naive_solver]. intros [->|[->|[Hx Hin]]]; [|by left|]; right; simpl; [split; [lia|by left]|].
    split; [done|by right].
Qed.

Lemma btree_ordered k i r : ordered r → ordered (btree_insert k i r).
Proof.
  induction 1 as [|[k' i'] r Hr IH Hlt]; simpl; [repeat constructor|].
  pose proof Hlt as Hlt'. rewrite list.Forall_forall in Hlt'. simpl in Hlt'.
  destruct (Z.compare_spec k k') as [->|Hk|Hk].
  - by constructor.
  - constructor; [by constructor|]. constructor; [done|]. apply list.Forall_forall.
    intros x Hx. specialize (Hlt' x Hx). simpl. lia.
  - constructor; [done|]. apply list.Forall_forall. intros x [->|[_ Hx]]%elem_of_btree; [done| |done].
    by apply Hlt'.
Qed.

(** The first entry that satisfies a test is the one with the least key. *)
Lemma find_least (p : Z * nat → bool) r x : ordered r →
  List.find p r = Some x ↔ x ∈ r ∧ p x = true ∧ ∀ y, y ∈ r → p y = true → x.1 <= y.1.
Proof.
  induction 1 as [|a r Hr IH Hlt]; simpl.
  { split; [done|]. by intros [H%elem_of_nil _]. }
  rewrite list.Forall_forall in Hlt. destruct (p a) eqn:Ea.
  - split.
    + intros [= ->]. split_and!; [left|done|]. intros y [->|Hy]%elem_of_cons _; [lia|].
      specialize (Hlt y Hy). lia.
    + intros ([->|Hx]%elem_of_cons & _ & Hmin); [done|].
      specialize (Hlt x Hx). specialize (Hmin a (list_elem_of_here _ _) Ea). lia.
  - rewrite IH. split.
    + intros (Hx & Hp & Hmin). split_and!; [by right|done|].
      intros y [->|Hy]%elem_of_cons Hpy; [congruence|by apply Hmin].
    + intros ([->|Hx]%elem_of_cons & Hp & Hmin); [congruence|]. split_and!; [done|done|].
      intros y Hy. apply Hmin. by right.
Qed.

Lemma ordered_key_unique r x y : ordered r → x ∈ r → y ∈ r → x.1 = y.1 → x = y.
Proof.
  induction 1 as [|a r Hr IH Hlt]; [by intros H%elem_of_nil|].
  rewrite list.Forall_forall in Hlt.
  intros [->|Hx]%elem_of_cons [->|Hy]%elem_of_cons E; [done| | |by apply IH].
  - specialize (Hlt y Hy). lia.
  - specialize (Hlt x Hx). lia.
Qed.

Lemma range_ordered h r : ordered r → ordered (range_from h r).
Proof.
  induction 1 as [|a r Hr IH Hlt]; simpl; [constructor|]. destruct (h <=? a.1); [|done].
  constructor; [done|]. rewrite list.Forall_forall in *. intros x Hx. apply Hlt.
  apply list_elem_of_In in Hx. apply list_elem_of_In. by apply List.filter_In in Hx as [? _].
Qed.

Lemma elem_of_range h r x : x ∈ range_from h r ↔ x ∈ r ∧ h <= x.1.
Proof.
  unfold range_from. rewrite !list_elem_of_In, List.filter_In. by rewrite Z.leb_le.
Qed.

(** ** The owner, by its position

    [clockwise h x y]: from [h] on, [x] comes no later than [y]. *)
Definition clockwise (h : Z) (x y : Z) : Prop :=
  (h <= x ∧ (h <= y → x <= y)) ∨ (x < h ∧ y < h ∧ x <= y).

Lemma owner_spec eligible r h i : ordered r →
  owner eligible r h = Some i ↔
  ∃ k, (k, i) ∈ r ∧ eligible i = true ∧
       ∀ k' i', (k', i') ∈ r → eligible i' = true → clockwise h k k'.
Proof.
  intros Hr. unfold owner, clockwise.
  pose proof (range_ordered h r Hr) as Hr'.
  destruct (List.find _ (range_from h r)) as [[k0 i0]|] eqn:Ef.
  - apply find_least in Ef as (Hin & He & Hmin); [|done]. apply elem_of_range in Hin as [Hin Hk].
    simpl in *. assert (Hm : ∀ k' i', (k', i') ∈ r → eligible i' = true → h <= k' → k0 <= k').
    { intros k' i' Hin' He' Hk'. apply (Hmin (k', i')); [|done]. by apply elem_of_range. }
    split.
    + intros [= <-]. exists k0. split_and!; [done|done|]. intros k' i' H' He'. left. split; [done|].
      by eapply Hm.
    + intros (k & Hki & Hei & Hc). f_equal. specialize (Hm k i Hki Hei).
      destruct (Hc k0 i0 Hin He) as [[H1 H2]|?]; [|lia].
      assert (E : (k0, i0) = (k, i)); [|congruence].
      apply (ordered_key_unique r); try done. simpl. lia.
  - assert (Hn : ∀ k' i', (k', i') ∈ r → eligible i' = true → k' < h).
    { intros k' i' Hin' He'. apply Z.nle_gt. intros Hk'.
      assert (Hr0 : (k', i') ∈ range_from h r) by (by apply elem_of_range).
      apply list_elem_of_In in Hr0. apply (List.find_none _ _ Ef) in Hr0. simpl in Hr0. congruence. }
    split.
    + intros ([k0 i0] & Eg & ->)%fmap_Some. apply find_least in Eg as (Hin & He & Hmin); [|done].
      exists k0. split_and!; [done|done|]. intros k' i' H' He'. right.
      split_and!; [by eapply Hn|by eapply Hn|by apply (Hmin (k', i'))].
    + intros (k & Hki & Hei & Hc). apply fmap_Some. exists (k, i). split; [|done].
      apply find_least; [done|]. split_and!; [done|done|]. intros [k' i'] H' He'. simpl in *.
      specialize (Hn k i Hki Hei). destruct (Hc k' i' H' He') as [[H1 H2]|?]; lia.
Qed.

(** ** What construction puts on the ring *)

Lemma add_endpoint_ordered i e r : ordered r → ordered (add_endpoint i e r).
Proof.
  unfold add_endpoint. generalize (seq 0 (Z.to_nat (vnodes e))) as vs.
  intros vs. revert r. induction vs as [|v vs IH]; intros r Hr; simpl; [done|].
  by apply IH, btree_ordered.
Qed.

(** Entries of other endpoints come from the ring before; a position that was
    taken still is. *)
Lemma add_endpoint_inv i e r : ordered r →
  (∀ k j, (k, j) ∈ add_endpoint i e r → j ≠ i → (k, j) ∈ r) ∧
  (∀ k j, (k, j) ∈ r → ∃ j', (k, j') ∈ add_endpoint i e r) ∧
  ∃ k, (k, i) ∈ add_endpoint i e r.
Proof.
  unfold add_endpoint. assert (Hv : (0 < Z.to_nat (vnodes e))%nat) by (unfold vnodes; lia).
  set (vs := seq 0 (Z.to_nat (vnodes e))).
  assert (Hne : vs ≠ []) by (intros E%(f_equal length); subst vs; rewrite length_seq in E; simpl in E; lia).
  clearbody vs. clear Hv. intros Hr. split_and!.
  - clear Hne. revert r Hr. induction vs as [|v vs IH]; intros r Hr k j Hin Hj; simpl in *; [done|].
    apply IH in Hin; [|by apply btree_ordered|done].
    by apply elem_of_btree in Hin as [[= -> ->]|[_ ?]].
  - clear Hne. revert r Hr. induction vs as [|v vs IH]; intros r Hr k j Hin; simpl; [by exists j|].
    destruct (decide (k = vnode_position e (Z.of_nat v))) as [->|Hk].
    + apply (IH (btree_insert _ i r) (btree_ordered _ _ _ Hr) _ i). apply elem_of_btree; [done|by left].
    + apply (IH (btree_insert _ i r) (btree_ordered _ _ _ Hr) _ j). apply elem_of_btree; [done|by right].
  - destruct vs as [|v vs] using rev_ind; [done|]. rewrite foldl_app. simpl.
    eexists. apply elem_of_btree; [|by left]. clear IHvs Hne.
    revert r Hr. induction vs as [|w vs IH]; intros r Hr; simpl; [done|]. by apply IH, btree_ordered.
Qed.

Lemma add_endpoints_snoc i eps e r :
  add_endpoints i (eps ++ [e]) r = add_endpoint (i + length eps) e (add_endpoints i eps r).
Proof.
  revert i r. induction eps as [|e' eps IH]; intros i r; simpl; [by rewrite Nat.add_0_r|].
  rewrite IH. f_equal. lia.
Qed.

Lemma build_ring_snoc eps e : build_ring (eps ++ [e]) = add_endpoint (length eps) e (build_ring eps).
Proof. apply add_endpoints_snoc. Qed.

Lemma build_ring_ordered eps : ordered (build_ring eps).
Proof.
  induction eps as [|e eps IH] using rev_ind; [constructor|]. rewrite build_ring_snoc.
  by apply add_endpoint_ordered.
Qed.

(** The ring only names endpoints, and is not empty when there is one. *)
Lemma build_ring_range eps k i : (k, i) ∈ build_ring eps → (i < length eps)%nat.
Proof.
  revert k i. induction eps as [|e eps IH] using rev_ind; intros k i; [by intros H%elem_of_nil|].
  rewrite build_ring_snoc, length_app. simpl. intros Hin.
  destruct (decide (i = length eps)) as [->|Hne]; [lia|].
  apply add_endpoint_inv in Hin; [|apply build_ring_ordered|done]. apply IH in Hin. lia.
Qed.

(** * Properties *)

Definition any (_ : nat) : bool := true.

(** C24: consistency of the ring: adding an endpoint moves a key only to that
    endpoint, and leaves every other key where it was; this holds of every
    hash, colliding positions included. *)
Theorem ring_stable eps e h i (Hi : owner any (build_ring (eps ++ [e])) h = Some i) :
  i = length eps ∨ owner any (build_ring eps) h = Some i.
Proof.
  destruct (decide (i = length eps)) as [|Hne]; [by left|right].
  pose proof (build_ring_ordered eps) as Ho.
  rewrite build_ring_snoc in Hi. destruct (add_endpoint_inv (length eps) e _ Ho) as (Hold & Hkeys & _).
  apply owner_spec in Hi as (k & Hin & _ & Hc); [|by apply add_endpoint_ordered].
  apply owner_spec; [done|]. exists k. split_and!; [by apply Hold|done|].
  intros k' i' Hin' _. destruct (Hkeys k' i' Hin') as [j' Hj']. by eapply Hc.
Qed.

(** When an endpoint becomes ineligible, only the keys it owned move. *)
Theorem ejection_moves_own eps eligible j h i
    (Hi : owner eligible (build_ring eps) h = Some i) (Hj : i ≠ j) :
  owner (λ x, eligible x && bool_decide (x ≠ j)) (build_ring eps) h = Some i.
Proof.
  apply owner_spec in Hi as (k & Hin & He & Hc); [|apply build_ring_ordered].
  apply owner_spec; [apply build_ring_ordered|]. exists k. split_and!; [done| |].
  - rewrite He. by apply bool_decide_eq_true.
  - intros k' i' Hin' [He' _]%andb_true_iff. by eapply Hc.
Qed.

Definition old_endpoint : LbEndpoint := Endpoint "10.0.0.1" 80 1.
Definition new_endpoint : LbEndpoint := Endpoint "10.0.0.3" 80 1.

Lemma ring_stable_witness :
  let i := 0%nat in
  owner any (build_ring [old_endpoint; new_endpoint]) (key_hash "client-7") = Some i ∧
  (i = length [old_endpoint] ∨ owner any (build_ring [old_endpoint]) (key_hash "client-7") = Some i).
Proof.
  assert (H : owner any (build_ring [old_endpoint; new_endpoint]) (key_hash "client-7") = Some 0%nat)
    by (vm_compute; reflexivity).
  split; [exact H|exact (ring_stable [old_endpoint] new_endpoint _ _ H)].
Defined.

Lemma ejection_moves_own_witness :
  owner (λ x, any x && bool_decide (x ≠ 1%nat)) (build_ring [old_endpoint; new_endpoint]) (key_hash "client-7")
  = Some 0%nat.
Proof.
  refine (ejection_moves_own [old_endpoint; new_endpoint] any 1 (key_hash "client-7") 0 _ _);
    [vm_compute; reflexivity|discriminate].
Defined.
