(* ===== verification/LbState.v ===== *)
(** The state of an upstream's load balancer
    (crates/dwara-core/src/dataplane/balance.rs): the endpoint rows of a
    generation, the counters and trackers that generations share, and the
    weights of the round-robin. *)

From S2P Require Import Prelude JsNumber Hash Breaker Health Maglev Ring.
Local Open Scope Z_scope.

(** * Configuration (crates/dwara-core/src/config/mod.rs) *)

Inductive LoadBalancer : Type :=
  | RoundRobin
  | LeastRequests
  | Random
  | IpHash
  | MaglevHash
  | PeakEwma.

#[global] Instance load_balancer_eq_dec : EqDecision LoadBalancer.
Proof. solve_decision. Defined.

Inductive LocalityMode : Type := Prefer | Strict | Failover.

Record UpstreamLocality : Type := ULocality {
  mode : LocalityMode;
  enforce_data_residency : bool;
  allowed_regions : list string;
  denied_regions : list string;
}.

(** The edge's own place. *)
Record LocalityContext : Type := LContext { ctx_region : option string; ctx_zone : option string }.

Definition is_set (ctx : LocalityContext) : bool :=
  bool_decide (is_Some (ctx_region ctx)) || bool_decide (is_Some (ctx_zone ctx)).

Definition region_matches (ctx : LocalityContext) (endpoint_region : option string) : bool :=
  match ctx_region ctx, endpoint_region with
  | Some r, Some r' => String.eqb r r'
  | _, _ => true
  end.

Definition zone_matches (ctx : LocalityContext) (endpoint_zone : option string) : bool :=
  match ctx_zone ctx, endpoint_zone with
  | Some z, Some z' => String.eqb z z'
  | _, _ => true
  end.

(** An endpoint of the configuration. *)
Record Endpoint : Type := EndpointConfig {
  node : LbEndpoint;
  node_region : option string;
  node_zone : option string;
}.

(** [decay_ms] and [default_rtt_ms]. *)
Definition PeakEwmaConfig : Type := option Z * option Z.

(** * Rows and shared cells

    An [Arc] is an index into one of the balancer's stores, so that the rows
    of two generations can share what it points to. *)

Record row : Type := Row {
  target : LbEndpoint;
  region : option string;
  zone : option string;
  entered : Z;
  cell : nat;
  health : option nat;
  peak_ewma : option nat;
}.

(** [inflight] and [current_weight], which are always carried together. *)
Record Cell : Type := MkCell { inflight : Z; current_weight : Z }.

(** [cost_ns] and [stamp]. *)
Record PeakEwmaTracker : Type := Ewma { cost_ns : Z; stamp : Z }.

Record LbState : Type := MkState {
  endpoints : list row;
  algorithm : LoadBalancer;
  slow_start : Z;
  lb_ring : ring;
  maglev_table : list nat;
  lb_health : option HealthParams;
  peak_ewma_tau_ns : Z;
  locality : option UpstreamLocality;
}.

Record UpstreamLb : Type := Lb {
  lb_state : LbState;
  cells : list Cell;
  trackers : list EndpointHealth;
  ewmas : list PeakEwmaTracker;
  rng : Z;
  fail_open_picks : Z;
  locality_ctx : LocalityContext;
}.

(** The clocks an operation reads: [Instant::now] and the Unix time in
    nanoseconds, and the balancer's health clock in milliseconds. *)
Record Clock : Type := MkClock { instant : Z; unix_ns : Z; now_ms : Z }.

Definition system_now_ms (clk : Clock) : Z := unix_ns clk / 1000000.

(** * Faults and effects *)

(** A panic, or a construction that does not end. *)
Inductive fault : Type :=
  | IndexOutOfBounds
  | RemainderByZero
  | Unfinished.

(** [v[i]]. *)
Definition at_index {A} (v : list A) (i : nat) : result fault A :=
  match v !! i with
  | Some x => Ok x
  | None => Err IndexOutOfBounds
  end.

Definition M (A : Type) : Type := UpstreamLb → result fault (UpstreamLb * A).

#[global] Instance M_ret : MRet M := λ A a lb, Ok (lb, a).
#[global] Instance M_bind : MBind M := λ A B f m lb,
  match m lb with
  | Ok (lb', a) => f a lb'
  | Err e => Err e
  end.

#[global] Instance M_fmap : FMap M := λ A B f m, a ← m; mret (f a).

Definition get : M UpstreamLb := λ lb, Ok (lb, lb).
Definition modify (f : UpstreamLb → UpstreamLb) : M unit := λ lb, Ok (f lb, tt).
Definition lift {A} (r : result fault A) : M A := λ lb,
  match r with
  | Ok a => Ok (lb, a)
  | Err e => Err e
  end.

(** Through an [Arc]. *)
Definition cell_at (lb : UpstreamLb) (c : nat) : Cell := default (MkCell 0 0) (cells lb !! c).
Definition tracker_at (lb : UpstreamLb) (t : nat) : EndpointHealth :=
  default Health.new (trackers lb !! t).
Definition ewma_at (lb : UpstreamLb) (t : nat) : PeakEwmaTracker := default (Ewma 0 0) (ewmas lb !! t).

Definition set_cells (l : list Cell) (lb : UpstreamLb) : UpstreamLb :=
  Lb (lb_state lb) l (trackers lb) (ewmas lb) (rng lb) (fail_open_picks lb) (locality_ctx lb).
Definition set_trackers (l : list EndpointHealth) (lb : UpstreamLb) : UpstreamLb :=
  Lb (lb_state lb) (cells lb) l (ewmas lb) (rng lb) (fail_open_picks lb) (locality_ctx lb).
Definition set_ewmas (l : list PeakEwmaTracker) (lb : UpstreamLb) : UpstreamLb :=
  Lb (lb_state lb) (cells lb) (trackers lb) l (rng lb) (fail_open_picks lb) (locality_ctx lb).
Definition set_rng (x : Z) (lb : UpstreamLb) : UpstreamLb :=
  Lb (lb_state lb) (cells lb) (trackers lb) (ewmas lb) x (fail_open_picks lb) (locality_ctx lb).
Definition set_fail_open (n : Z) (lb : UpstreamLb) : UpstreamLb :=
  Lb (lb_state lb) (cells lb) (trackers lb) (ewmas lb) (rng lb) n (locality_ctx lb).
Definition set_lb_state (st : LbState) (lb : UpstreamLb) : UpstreamLb :=
  Lb st (cells lb) (trackers lb) (ewmas lb) (rng lb) (fail_open_picks lb) (locality_ctx lb).

Definition on_cell (f : Cell → Cell) (c : nat) (lb : UpstreamLb) : UpstreamLb :=
  set_cells (alter f c (cells lb)) lb.
Definition on_tracker (f : EndpointHealth → EndpointHealth) (t : nat) (lb : UpstreamLb) : UpstreamLb :=
  set_trackers (alter f t (trackers lb)) lb.
Definition on_ewma (f : PeakEwmaTracker → PeakEwmaTracker) (t : nat) (lb : UpstreamLb) : UpstreamLb :=
  set_ewmas (alter f t (ewmas lb)) lb.

Definition add_inflight (c : Cell) : Cell := MkCell (add_u64 (inflight c) 1) (current_weight c).
Definition sub_inflight (c : Cell) : Cell := MkCell ((inflight c - 1) mod 2 ^ 64) (current_weight c).
Definition set_current (w : Z) (c : Cell) : Cell := MkCell (inflight c) w.

(** * Weights *)

(** Addition and subtraction on [i64]. *)
Definition wrap_i64 (z : Z) : Z := (z + 2 ^ 63) mod 2 ^ 64 - 2 ^ 63.

(** [x.round() as i64]: the nearest integer, ties away from zero, clamped. *)
Definition round_to_i64 (x : num) : Z :=
  match x with
  | S754_finite s m e =>
      let '(nu, de) := frac_of (Z.pos m) e in
      let r := (2 * nu + de) / (2 * de) in
      Z.max (- 2 ^ 63) (Z.min (2 ^ 63 - 1) (if s : bool then - r else r))
  | S754_infinity s => if s : bool then - 2 ^ 63 else 2 ^ 63 - 1
  | S754_zero _ | S754_nan => 0
  end.

Definition effective_weight (st : LbState) (clk : Clock) (e : row) : Z :=
  if slow_start st =? 0 then weight (target e)
  else
    let elapsed := Z.max 0 (instant clk - entered e) in
    if slow_start st <=? elapsed then weight (target e)
    else
      let ramped := weight (target e) * (elapsed / 1000000) / Z.max (slow_start st / 1000000) 1 in
      Z.max ramped 1.

Definition one : num := num_of_Z 1.
Definition tenths (n : Z) : num := ndiv (num_of_Z n) (num_of_Z 10).

Definition recovery_ramp_factor (st : LbState) (clk : Clock) (lb : UpstreamLb) (e : row) : num :=
  match lb_health st with
  | None => one
  | Some params =>
      if recovery_ramp_ms params =? 0 then one
      else
        match health e with
        | None => one
        | Some t =>
            let recovered_at := recovered_at_ms (tracker_at lb t) in
            if recovered_at =? 0 then one
            else
              let elapsed := saturating_sub (system_now_ms clk) recovered_at in
              if recovery_ramp_ms params <=? elapsed then one
              else nadd (tenths 1) (nmul (tenths 9) (ndiv (num_of_Z elapsed) (num_of_Z (recovery_ramp_ms params))))
        end
  end.

(** The weight a pick gives an endpoint. *)
Definition pick_weight (st : LbState) (clk : Clock) (lb : UpstreamLb) (e : row) : Z :=
  let w := effective_weight st clk e in
  let w := if 0 <? w then round_to_i64 (nmul (num_of_Z w) (recovery_ramp_factor st clk lb e)) else w in
  Z.max w 1.
