(* ===== verification/Locality.v ===== *)
(** Locality-aware routing and data residency
    (crates/dwara-core/src/dataplane/balance.rs, [apply_locality]): which
    candidates of a pick the region and zone of the edge leave. *)

From S2P Require Import Prelude LbState.
Local Open Scope Z_scope.

Inductive LocalityResult : Type :=
  | Restricted (set : list nat)
  | Unchanged (orig : option (list nat))
  | Denied.

(** [.filter(p).collect()] where the test indexes the endpoints. *)
Fixpoint retain (p : nat → result fault bool) (l : list nat) : result fault (list nat) :=
  match l with
  | [] => Ok []
  | i :: l =>
      b ← p i;
      l ← retain p l;
      Ok (if b : bool then i :: l else l)
  end.

Definition contains (l : list string) (s : string) : bool := existsb (String.eqb s) l.

(** The residency constraint on one endpoint. *)
Definition resident (loc : UpstreamLocality) (e : row) : bool :=
  match region e with
  | None => true
  | Some r =>
      if contains (denied_regions loc) r then false
      else if enforce_data_residency loc then contains (allowed_regions loc) r
      else true
  end.

(** A test of the endpoint at an index. *)
Definition test_row (eps : list row) (p : row → bool) (i : nat) : result fault bool :=
  e ← at_index eps i;
  Ok (p e).

Definition apply_locality (eps : list row) (loc : UpstreamLocality) (ctx : LocalityContext)
    (health_cand : option (list nat)) : result fault LocalityResult :=
  let base := default (seq 0 (length eps)) health_cand in
  residency_filtered ← retain (test_row eps (resident loc)) base;
  if bool_decide (residency_filtered = []) && enforce_data_residency loc then Ok Denied
  else
    let after_residency :=
      if (length residency_filtered <? length base)%nat then residency_filtered else base in
    local ← retain (test_row eps (λ e, region_matches ctx (region e))) after_residency;
    zone_refined ←
      match ctx_zone ctx with
      | Some _ =>
          zoned ← retain (test_row eps (λ e, zone_matches ctx (zone e))) local;
          Ok (if negb (bool_decide (zoned = [])) && (length zoned <? length local)%nat then zoned else local)
      | None => Ok local
      end;
    let smaller := (length zone_refined <? length after_residency)%nat in
    match mode loc with
    | Strict =>
        if bool_decide (zone_refined = []) then Ok Denied
        else if smaller then Ok (Restricted zone_refined)
        else Ok (Unchanged health_cand)
    | Prefer =>
        if negb (bool_decide (zone_refined = [])) && smaller then Ok (Restricted zone_refined)
        else Ok (Unchanged health_cand)
    | Failover =>
        if negb (bool_decide (zone_refined = [])) then
          if smaller then Ok (Restricted zone_refined) else Ok (Unchanged health_cand)
        else if (length residency_filtered <? length base)%nat then Ok (Restricted residency_filtered)
        else Ok (Unchanged health_cand)
    end.

(** * Candidates that satisfy a test *)

Definition row_satisfies (eps : list row) (p : row → bool) (i : nat) : bool :=
  match eps !! i with
  | Some e => p e
  | None => false
  end.

Definition base_of (eps : list row) (cand : option (list nat)) : list nat :=
  default (seq 0 (length eps)) cand.

(** Every candidate is an endpoint. *)
Definition valid (eps : list row) (l : list nat) : Prop := Forall (λ i, i < length eps)%nat l.

Lemma retain_ok eps p l : valid eps l →
  retain (test_row eps p) l = Ok (List.filter (row_satisfies eps p) l).
Proof.
  induction 1 as [|i l Hi Hl IH]; [done|]. simpl. unfold test_row, at_index, row_satisfies.
  destruct (lookup_lt_is_Some_2 _ _ Hi) as [e He]. rewrite He. simpl.
  unfold test_row, at_index in IH. rewrite IH. by destruct (p e).
Qed.

Lemma valid_filter eps q l : valid eps l → valid eps (List.filter q l).
Proof.
  intros H. apply list.Forall_forall. intros i Hi. apply list_elem_of_In, List.filter_In in Hi as [Hi _].
  apply list_elem_of_In in Hi. unfold valid in H. rewrite list.Forall_forall in H. by apply H.
Qed.

Lemma valid_seq (eps : list row) : valid eps (seq 0 (length eps)).
Proof. apply list.Forall_forall. intros i Hi. apply elem_of_seq in Hi. lia. Qed.

Lemma elem_of_filter_bool (q : nat → bool) l i : i ∈ List.filter q l ↔ i ∈ l ∧ q i = true.
Proof. by rewrite !list_elem_of_In, List.filter_In. Qed.

(** A filter that drops nothing by length keeps everything. *)
Lemma filter_full (q : nat → bool) l :
  (length (List.filter q l) <? length l)%nat = false → List.filter q l = l.
Proof.
  rewrite Nat.ltb_ge. induction l as [|i l IH]; simpl; [done|].
  pose proof (List.filter_length_le q l). destruct (q i); simpl; [|lia].
  intros. f_equal. apply IH. lia.
Qed.

Section result.
Context (eps : list row) (loc : UpstreamLocality) (ctx : LocalityContext) (cand : option (list nat)).

Definition residents : list nat :=
  List.filter (row_satisfies eps (resident loc)) (base_of eps cand).

(** The candidates in the edge's region, and those of them in its zone when
    that is a proper part. *)
Definition in_region : list nat :=
  List.filter (row_satisfies eps (λ e, region_matches ctx (region e))) residents.
Definition in_zone : list nat :=
  List.filter (row_satisfies eps (λ e, zone_matches ctx (zone e))) in_region.
Definition nearest : list nat :=
  match ctx_zone ctx with
  | Some _ =>
      if negb (bool_decide (in_zone = [])) && (length in_zone <? length in_region)%nat
      then in_zone else in_region
  | None => in_region
  end.

(** What the function computes, without the indexing. *)
Definition outcome : LocalityResult :=
  if bool_decide (residents = []) && enforce_data_residency loc then Denied
  else
    let smaller := (length nearest <? length residents)%nat in
    match mode loc with
    | Strict =>
        if bool_decide (nearest = []) then Denied
        else if smaller then Restricted nearest else Unchanged cand
    | Prefer =>
        if negb (bool_decide (nearest = [])) && smaller then Restricted nearest else Unchanged cand
    | Failover =>
        if negb (bool_decide (nearest = [])) then
          if smaller then Restricted nearest else Unchanged cand
        else if (length residents <? length (base_of eps cand))%nat then Restricted residents
        else Unchanged cand
    end.

Lemma apply_locality_outcome : valid eps (base_of eps cand) →
  apply_locality eps loc ctx cand = Ok outcome.
Proof.
  intros Hv. unfold apply_locality, outcome. fold (base_of eps cand).
  rewrite (retain_ok _ _ _ Hv). fold residents. cbn [mbind result_bind].
  destruct (bool_decide (residents = []) && enforce_data_residency loc); [done|].
  assert (Ha : (if (length residents <? length (base_of eps cand))%nat then residents
                else base_of eps cand) = residents).
  { destruct (length residents <? _)%nat eqn:E; [done|]. symmetry. by apply filter_full. }
  rewrite Ha. assert (Hr : valid eps residents) by (by apply valid_filter).
  rewrite (retain_ok _ _ _ Hr). fold in_region. cbn [mbind result_bind].
  assert (Hi : valid eps in_region) by (by apply valid_filter).
  assert (Hz : (match ctx_zone ctx with
    | Some _ =>
        zoned ← retain (test_row eps (λ e, zone_matches ctx (zone e))) in_region;
        Ok (if negb (bool_decide (zoned = [])) && (length zoned <? length in_region)%nat
            then zoned else in_region)
    | None => Ok in_region
    end : result fault (list nat)) = Ok nearest).
  { unfold nearest. destruct (ctx_zone ctx); [|done]. by rewrite (retain_ok _ _ _ Hi). }
  rewrite Hz. cbn [mbind result_bind]. by destruct (mode loc); repeat case_match.
Qed.

Lemma nearest_resident i : i ∈ nearest → i ∈ residents.
Proof.
  assert (H : i ∈ in_region → i ∈ residents) by (by intros [? _]%elem_of_filter_bool).
  unfold nearest. destruct (ctx_zone ctx); [|done]. case_match; [|done].
  intros [? _]%elem_of_filter_bool. auto.
Qed.

Lemma nearest_nil i : nearest = [] → i ∉ in_region.
Proof.
  intros E Hin. revert E. unfold nearest. destruct (ctx_zone ctx).
  - case_match eqn:Eb; intros E; [by rewrite E in Eb|]. rewrite E in Hin. by apply elem_of_nil in Hin.
  - intros E. rewrite E in Hin. by apply elem_of_nil in Hin.
Qed.
End result.

(** * Properties *)

(** Locality routing is total; a restricted candidate set is a part of the
    candidates the residency constraint allows; a refusal means that no
    candidate is allowed, or that the mode is strict and none of the allowed
    ones is in the edge's region. *)
Theorem locality_sound eps loc ctx cand (Hv : valid eps (base_of eps cand)) :
  ∃ r, apply_locality eps loc ctx cand = Ok r ∧
  match r with
  | Restricted s => ∀ i, i ∈ s → i ∈ base_of eps cand ∧ row_satisfies eps (resident loc) i = true
  | Unchanged c => c = cand
  | Denied =>
      (enforce_data_residency loc = true ∧
       ∀ i, i ∈ base_of eps cand → row_satisfies eps (resident loc) i = false) ∨
      (mode loc = Strict ∧
       ∀ i, i ∈ base_of eps cand → row_satisfies eps (resident loc) i = true →
            row_satisfies eps (λ e, region_matches ctx (region e)) i = false)
  end.
Proof.
  exists (outcome eps loc ctx cand). split; [by apply apply_locality_outcome|].
  assert (Hres : ∀ i, i ∈ residents eps loc cand →
    i ∈ base_of eps cand ∧ row_satisfies eps (resident loc) i = true)
    by (intros i; by rewrite <- elem_of_filter_bool).
  pose proof (nearest_resident eps loc ctx cand) as Hn.
  assert (Hd : bool_decide (nearest eps loc ctx cand = []) = true → ∀ i,
    i ∈ base_of eps cand → row_satisfies eps (resident loc) i = true →
    row_satisfies eps (λ e, region_matches ctx (region e)) i = false).
  { intros E%bool_decide_eq_true i Hi Hs.
    destruct (row_satisfies eps (λ e, region_matches ctx (region e)) i) eqn:Er; [|done].
    destruct (nearest_nil eps loc ctx cand i E). unfold in_region, residents.
    by rewrite !elem_of_filter_bool. }
  unfold outcome. destruct (bool_decide (residents eps loc cand = [])
                            && enforce_data_residency loc) eqn:E.
  - left. apply andb_true_iff in E as [E%bool_decide_eq_true He]. split; [done|]. intros i Hi.
    destruct (row_satisfies eps (resident loc) i) eqn:Es; [|done].
    assert (Hin : i ∈ residents eps loc cand) by (by apply elem_of_filter_bool).
    rewrite E in Hin. by apply elem_of_nil in Hin.
  - destruct (mode loc); repeat case_match; simplify_eq; simpl; auto.
Qed.

(** The residency constraint is lost when locality has nothing left to
    narrow: if every allowed candidate is in the edge's region and zone, the
    result is the candidate set from before the constraint, with the endpoints
    that it had dropped, in every mode. *)
Theorem residency_lost eps loc ctx cand
    (Hv : valid eps (base_of eps cand))
    (Hsome : ∃ i, i ∈ base_of eps cand ∧ row_satisfies eps (resident loc) i = true)
    (Hnear : ∀ i, i ∈ base_of eps cand → row_satisfies eps (resident loc) i = true →
       row_satisfies eps (λ e, region_matches ctx (region e) && zone_matches ctx (zone e)) i = true) :
  apply_locality eps loc ctx cand = Ok (Unchanged cand).
Proof.
  rewrite apply_locality_outcome by done. f_equal.
  assert (Hnear' : ∀ i, i ∈ residents eps loc cand →
    row_satisfies eps (λ e, region_matches ctx (region e)) i = true ∧
    row_satisfies eps (λ e, zone_matches ctx (zone e)) i = true).
  { intros i [Hi Hr]%elem_of_filter_bool. specialize (Hnear i Hi Hr). unfold row_satisfies in *.
    destruct (eps !! i); [|done]. by apply andb_true_iff. }
  assert (Hreg : in_region eps loc ctx cand = residents eps loc cand).
  { apply List.forallb_filter_id, List.forallb_forall. intros i Hi%list_elem_of_In. by apply Hnear'. }
  assert (Hzone : in_zone eps loc ctx cand = in_region eps loc ctx cand).
  { apply List.forallb_filter_id, List.forallb_forall. intros i Hi%list_elem_of_In.
    rewrite Hreg in Hi. by apply Hnear'. }
  assert (Hn : nearest eps loc ctx cand = residents eps loc cand).
  { unfold nearest. rewrite Hzone, Hreg, Nat.ltb_irrefl, andb_false_r. by destruct (ctx_zone ctx). }
  assert (Hne : residents eps loc cand ≠ []).
  { destruct Hsome as (i & Hi & Hr). intros E.
    assert (Hin : i ∈ residents eps loc cand) by (by apply elem_of_filter_bool).
    rewrite E in Hin. by apply elem_of_nil in Hin. }
  unfold outcome. rewrite Hn, Nat.ltb_irrefl, bool_decide_eq_false_2 by done. simpl.
  by destruct (mode loc).
Qed.

(** In failover mode, denied regions that rule out every candidate, with
    residency not enforced, leave an empty candidate set instead of a
    refusal. *)
Lemma failover_leaves_none eps loc ctx cand
    (Hv : valid eps (base_of eps cand)) (Hm : mode loc = Failover)
    (He : enforce_data_residency loc = false) (Hb : base_of eps cand ≠ [])
    (Hnone : ∀ i, i ∈ base_of eps cand → row_satisfies eps (resident loc) i = false) :
  apply_locality eps loc ctx cand = Ok (Restricted []).
Proof.
  rewrite apply_locality_outcome by done. f_equal.
  assert (Hr : residents eps loc cand = []).
  { unfold residents. destruct (List.filter _ (base_of eps cand)) as [|i l] eqn:E; [done|].
    assert (Hi : i ∈ List.filter (row_satisfies eps (resident loc)) (base_of eps cand))
      by (rewrite E; left).
    apply elem_of_filter_bool in Hi as [Hi Hs]. rewrite Hnone in Hs by done. done. }
  assert (Hn : nearest eps loc ctx cand = []).
  { unfold nearest, in_zone, in_region. rewrite Hr. simpl. by destruct (ctx_zone ctx). }
  unfold outcome. rewrite Hn, Hr, He, Hm. simpl. by destruct (base_of eps cand).
Qed.

(** An edge in "eu" whose traffic must stay there, and an endpoint elsewhere. *)
Definition place_of (r : string) : row := Row (Maglev.Endpoint r 80 1) (Some r) None 0 0 None None.
Definition eu_policy : UpstreamLocality := ULocality Prefer true ["eu"%string] [].
Definition eu_edge : LocalityContext := LContext (Some "eu"%string) None.

Lemma locality_sound_witness : ∃ r,
  apply_locality [place_of "eu"; place_of "us"; place_of "eu"] eu_policy eu_edge (Some [1%nat]) = Ok r ∧
  r = Denied.
Proof.
  destruct (locality_sound [place_of "eu"; place_of "us"; place_of "eu"] eu_policy eu_edge (Some [1%nat]))
    as (r & E & _); [repeat constructor|].
  exists r. split; [exact E|]. vm_compute in E. injection E as <-. reflexivity.
Defined.

Lemma residency_lost_witness :
  row_satisfies [place_of "eu"; place_of "us"] (resident eu_policy) 1 = false ∧
  apply_locality [place_of "eu"; place_of "us"] eu_policy eu_edge None = Ok (Unchanged None).
Proof.
  split; [reflexivity|]. apply residency_lost.
  - repeat constructor.
  - exists 0%nat. split; [left|reflexivity].
  - intros i Hi Hr. destruct i as [|[|i]]; [reflexivity|discriminate Hr|].
    apply elem_of_seq in Hi. simpl in Hi. lia.
Defined.
