(* ===== verification/Balance.v ===== *)
(** The load balancer of an upstream
    (crates/dwara-core/src/dataplane/balance.rs): building and rebuilding a
    generation, the pick of an endpoint by every algorithm over the candidates
    that health and locality leave, and the in-flight guards. *)

From S2P Require Import Prelude JsNumber Hash Breaker Health Maglev Ring LbState Locality.
Local Open Scope Z_scope.

(** * Smooth weighted round-robin *)

(** [resolve(i)]: an index into the candidates. *)
Definition resolve (cand : option (list nat)) (i : nat) : result fault nat :=
  match cand with
  | None => Ok i
  | Some c => at_index c i
  end.

Definition row_at (st : LbState) (i : nat) : result fault row := at_index (endpoints st) i.

(** The variables of the loop. *)
Record scan : Type := Scan { total : Z; best : nat; best_cw : Z }.

Definition wrr_visit (st : LbState) (clk : Clock) (cand : option (list nat)) (i : nat) (sc : scan)
    : M scan :=
  idx ← lift (resolve cand i);
  e ← lift (row_at st idx);
  lb ← get;
  let w := pick_weight st clk lb e in
  let cw := wrap_i64 (current_weight (cell_at lb (cell e)) + w) in
  modify (on_cell (set_current cw) (cell e));;
  let total := wrap_i64 (total sc + w) in
  mret (if best_cw sc <? cw then Scan total idx cw else Scan total (best sc) (best_cw sc)).

Fixpoint wrr_loop (st : LbState) (clk : Clock) (cand : option (list nat)) (ixs : list nat) (sc : scan)
    : M scan :=
  match ixs with
  | [] => mret sc
  | i :: ixs => sc ← wrr_visit st clk cand i sc; wrr_loop st clk cand ixs sc
  end.

Definition cand_len (st : LbState) (cand : option (list nat)) : nat :=
  match cand with
  | None => length (endpoints st)
  | Some c => length c
  end.

Definition smooth_weighted_rr (st : LbState) (clk : Clock) (cand : option (list nat)) : M nat :=
  first ← lift (resolve cand 0);
  sc ← wrr_loop st clk cand (seq 0 (cand_len st cand)) (Scan 0 first (- 2 ^ 63));
  if total sc <=? 0 then mret (best sc)
  else
    e ← lift (row_at st (best sc));
    lb ← get;
    modify (on_cell (set_current (wrap_i64 (current_weight (cell_at lb (cell e)) - total sc))) (cell e));;
    mret (best sc).

(** * Candidates *)

(** The test of one endpoint, which may turn an expired ejection into a trial. *)
Definition ask (params : HealthParams) (now : Z) (e : row) : M bool :=
  match health e with
  | None => mret true
  | Some t =>
      lb ← get;
      let '(h, ok) := Health.is_candidate params now (tracker_at lb t) in
      modify (on_tracker (λ _, h) t);;
      mret ok
  end.

Fixpoint available (params : HealthParams) (now : Z) (i : nat) (eps : list row) : M (list nat) :=
  match eps with
  | [] => mret []
  | e :: eps =>
      ok ← ask params now e;
      rest ← available params now (S i) eps;
      mret (if ok : bool then i :: rest else rest)
  end.

Definition health_candidates (st : LbState) (clk : Clock) : M (option (list nat)) :=
  match lb_health st with
  | None => mret None
  | Some params =>
      avail ← available params (now_ms clk) 0 (endpoints st);
      match avail with
      | [] => modify (λ lb, set_fail_open (add_u64 (fail_open_picks lb) 1) lb);; mret None
      | _ => mret (Some avail)
      end
  end.

(** [None] for a refusal. *)
Definition locality_candidates (st : LbState) (cand : option (list nat))
    : M (option (option (list nat))) :=
  match locality st with
  | None => mret (Some cand)
  | Some loc =>
      lb ← get;
      if is_set (locality_ctx lb) then
        r ← lift (apply_locality (endpoints st) loc (locality_ctx lb) cand);
        mret match r with
             | Restricted s => Some (Some s)
             | Unchanged c => Some c
             | Denied => None
             end
      else mret (Some cand)
  end.

Definition consume (st : LbState) (idx : nat) : M unit :=
  e ← lift (row_at st idx);
  match health e with
  | None => mret tt
  | Some t => modify (on_tracker Health.consume_probe t)
  end.

(** * The algorithms *)

(** [min_by_key]: the first of the least. *)
Definition less (a b : Z * nat) : bool := (a.1 <? b.1) || ((a.1 =? b.1) && (a.2 <? b.2)%nat).

Definition min_by_key (l : list (Z * nat)) : option nat :=
  match l with
  | [] => None
  | x :: l => Some (foldl (λ b y, if less y b then y else b) x l).2
  end.

(** The candidates with their keys. *)
Fixpoint keyed (st : LbState) (cand : option (list nat)) (key : row → Z) (ixs : list nat)
    : result fault (list (Z * nat)) :=
  match ixs with
  | [] => Ok []
  | i :: ixs =>
      idx ← resolve cand i;
      e ← row_at st idx;
      rest ← keyed st cand key ixs;
      Ok ((key e, idx) :: rest)
  end.

Definition pick_least (st : LbState) (cand : option (list nat)) (key : row → Z) : M nat :=
  l ← lift (keyed st cand key (seq 0 (cand_len st cand)));
  match min_by_key l with
  | Some i => mret i
  | None => lift (resolve cand 0)
  end.

Definition inflight_of (lb : UpstreamLb) (e : row) : Z := inflight (cell_at lb (cell e)).

(** [cost * (inflight + 1)], in 128 bits. *)
Definition peak_score (lb : UpstreamLb) (e : row) : Z :=
  match peak_ewma e with
  | Some t => cost_ns (ewma_at lb t)
  | None => 0
  end * (inflight_of lb e + 1).

Definition xorshift (x : Z) : Z :=
  let x := add_u64 x 0x9E3779B97F4A7C15 in
  let x := Z.lxor x (Z.shiftr x 12) in
  let x := Z.lxor x (Z.shiftl x 25 mod 2 ^ 64) in
  let x := Z.lxor x (Z.shiftr x 27) in
  wrapping_mul x 0x2545F4914F6CDD1D.

Definition next_rand : M Z :=
  lb ← get;
  let nx := xorshift (rng lb) in
  modify (set_rng nx);;
  mret nx.

Definition remainder (x : Z) (n : nat) : result fault nat :=
  match n with
  | O => Err RemainderByZero
  | _ => Ok (Z.to_nat (x mod Z.of_nat n))
  end.

Definition pick_random (st : LbState) (cand : option (list nat)) : M nat :=
  let n := cand_len st cand in
  r ← next_rand;
  a ← lift (remainder r n);
  r ← next_rand;
  b ← lift (remainder r (n - 1));
  let b := if (a <=? b)%nat then S b else b in
  ia ← lift (resolve cand a);
  ib ← lift (resolve cand b);
  ea ← lift (row_at st ia);
  eb ← lift (row_at st ib);
  lb ← get;
  let fa := inflight_of lb ea in
  let fb := inflight_of lb eb in
  mret (if fa <? fb then ia else if fb <? fa then ib else Nat.min ia ib).

(** [set[i] = true] for each candidate. *)
Fixpoint mark (set : list bool) (c : list nat) : result fault (list bool) :=
  match c with
  | [] => Ok set
  | i :: c => _ ← at_index set i; mark (<[i := true]> set) c
  end.

Definition eligible_set (st : LbState) (cand : option (list nat)) : result fault (list bool) :=
  mark (replicate (length (endpoints st)) false) (default [] cand).

(** [find(|(_, i)| eligible(i))]. *)
Fixpoint find_eligible (set : option (list bool)) (l : ring) : result fault (option nat) :=
  match l with
  | [] => Ok None
  | (_, i) :: l =>
      ok ← match set with
           | None => Ok true
           | Some set => at_index set i
           end;
      if ok : bool then Ok (Some i) else find_eligible set l
  end.

Definition pick_ring (st : LbState) (clk : Clock) (cand : option (list nat)) (filtered : bool)
    (k : string) : M nat :=
  let h := key_hash k in
  set ← lift (if filtered then Some <$> eligible_set st cand else Ok None);
  first ← lift (find_eligible set (range_from h (lb_ring st)));
  found ← match first with
          | Some i => mret (Some i)
          | None => lift (find_eligible set (lb_ring st))
          end;
  match found with
  | Some i => mret i
  | None => smooth_weighted_rr st clk cand
  end.

(** The linear probe of the Maglev table. *)
Fixpoint probe_table (table : list nat) (set : list bool) (start : nat) (offsets : list nat)
    : result fault (option nat) :=
  match offsets with
  | [] => Ok None
  | o :: offsets =>
      idx ← at_index table ((start + o) mod length table);
      ok ← at_index set idx;
      if ok : bool then Ok (Some idx) else probe_table table set start offsets
  end.

(** How an algorithm ends: with the selected index, or with a [return]. *)
Inductive flow : Type :=
  | Selected (idx : nat)
  | Return (idx : nat).

Definition pick_maglev (st : LbState) (clk : Clock) (cand : option (list nat)) (filtered : bool)
    (k : string) : M flow :=
  match maglev_table st with
  | [] => Return <$> smooth_weighted_rr st clk cand
  | table =>
      start ← lift (remainder (key_hash k) (length table));
      if negb filtered then idx ← lift (at_index table start); mret (Return idx)
      else
        set ← lift (eligible_set st cand);
        found ← lift (probe_table table set start (seq 0 (length table)));
        match found with
        | Some idx => mret (Return idx)
        | None => Selected <$> smooth_weighted_rr st clk cand
        end
  end.

Definition run_algorithm (st : LbState) (clk : Clock) (cand : option (list nat)) (filtered : bool)
    (key : option string) : M flow :=
  match algorithm st, key with
  | RoundRobin, _ | IpHash, None | MaglevHash, None => Selected <$> smooth_weighted_rr st clk cand
  | LeastRequests, _ => lb ← get; Selected <$> pick_least st cand (inflight_of lb)
  | Random, _ => Selected <$> pick_random st cand
  | IpHash, Some k => Selected <$> pick_ring st clk cand filtered k
  | MaglevHash, Some k => pick_maglev st clk cand filtered k
  | PeakEwma, _ => lb ← get; Selected <$> pick_least st cand (peak_score lb)
  end.

(** * The pick *)

(** From the candidates on. *)
Definition choose_among (st : LbState) (clk : Clock) (key : option string) (cand : option (list nat))
    : M (option nat) :=
  let filtered :=
    match cand with
    | Some c => (length c <? length (endpoints st))%nat
    | None => false
    end in
  if (cand_len st cand =? 1)%nat then
    idx ← lift (match cand with None => Ok 0%nat | Some c => at_index c 0 end);
    consume st idx;;
    mret (Some idx)
  else
    r ← run_algorithm st clk cand filtered key;
    match r with
    | Return idx => mret (Some idx)
    | Selected idx =>
        (if bool_decide (is_Some (lb_health st)) then consume st idx else mret tt);;
        mret (Some idx)
    end.

Definition choose (st : LbState) (clk : Clock) (key : option string) : M (option nat) :=
  match endpoints st with
  | [] => mret None
  | _ =>
      cand ← health_candidates st clk;
      cand ← locality_candidates st cand;
      match cand with
      | None => mret None
      | Some cand => choose_among st clk key cand
      end
  end.

Definition pick (clk : Clock) (key : option string) : M (option nat) :=
  lb ← get; choose (lb_state lb) clk key.

(** * In-flight guards *)

(** A guard and a report handle outlive the generation they came from: they
    hold the row's cell and tracker. *)
Record Dispatch : Type := MkDispatch {
  d_idx : nat;
  d_address : string;
  d_port : Z;
  d_health : option nat;
  d_guard : nat;
}.

Definition pick_for_dispatch (clk : Clock) (key : option string) : M (option Dispatch) :=
  lb ← get;
  let st := lb_state lb in
  idx ← choose st clk key;
  match idx ≫= λ i, (i,.) <$> endpoints st !! i with
  | None => mret None
  | Some (i, e) =>
      modify (on_cell add_inflight (cell e));;
      mret (Some (MkDispatch i (address (target e)) (port (target e))
                    (match lb_health st with Some _ => health e | None => None end) (cell e)))
  end.

(** [acquire_inflight(idx)]: the guard. *)
Definition acquire_inflight (idx : nat) : M (option nat) :=
  lb ← get;
  match endpoints (lb_state lb) !! idx with
  | None => mret None
  | Some e => modify (on_cell add_inflight (cell e));; mret (Some (cell e))
  end.

(** [drop] of a guard. *)
Definition drop_guard (guard : nat) : M unit := modify (on_cell sub_inflight guard).

(** * Generations *)

Definition same_target (r : row) (e : Endpoint) : bool :=
  String.eqb (address (target r)) (address (node e)) && (port (target r) =? port (node e)).

Definition clamped (e : Endpoint) : LbEndpoint :=
  Maglev.Endpoint (address (node e)) (port (node e)) (Z.max (weight (node e)) 1).

Definition new_row (clk : Clock) (e : Endpoint) : M row :=
  lb ← get;
  modify (set_cells (cells lb ++ [MkCell 0 0]));;
  mret (Row (clamped e) (node_region e) (node_zone e) (instant clk) (length (cells lb)) None None).

Definition carried_from (old : row) (e : Endpoint) : row :=
  Row (clamped e) (node_region e) (node_zone e) (entered old) (cell old) (health old) (peak_ewma old).

Fixpoint build_rows (clk : Clock) (previous : list row) (eps : list Endpoint) : M (list row) :=
  match eps with
  | [] => mret []
  | e :: eps =>
      r ← match List.find (λ old, same_target old e) previous with
          | Some old => mret (carried_from old e)
          | None => new_row clk e
          end;
      rest ← build_rows clk previous eps;
      mret (r :: rest)
  end.

(** Every row of a generation with health has a tracker. *)
Definition with_tracker (r : row) : M row :=
  match health r with
  | Some _ => mret r
  | None =>
      lb ← get;
      modify (set_trackers (trackers lb ++ [Health.new]));;
      mret (Row (target r) (region r) (zone r) (entered r) (cell r) (Some (length (trackers lb)))
                (peak_ewma r))
  end.

Definition saturating_mul (a b : Z) : Z := Z.min (a * b) (2 ^ 64 - 1).

(** Every row of a generation that picks by latency has a cost. *)
Definition with_ewma (clk : Clock) (initial_cost_ns : Z) (r : row) : M row :=
  match peak_ewma r with
  | Some _ => mret r
  | None =>
      lb ← get;
      modify (set_ewmas (ewmas lb ++ [Ewma initial_cost_ns (unix_ns clk)]));;
      mret (Row (target r) (region r) (zone r) (entered r) (cell r) (health r) (Some (length (ewmas lb))))
  end.

Fixpoint each {A B} (f : A → M B) (l : list A) : M (list B) :=
  match l with
  | [] => mret []
  | a :: l => b ← f a; l ← each f l; mret (b :: l)
  end.

(** The Maglev table of the rows; the construction may not end. *)
Definition table_of (fuel : nat) (eps : list row) : result fault (list nat) :=
  match build_maglev_table fuel (map target eps) with
  | Ok t => match mapM id t with Some t => Ok t | None => Err Unfinished end
  | Err OutOfFuel => Err Unfinished
  | Err OutOfBounds => Err IndexOutOfBounds
  end.

Definition build_state (fuel : nat) (clk : Clock) (previous : list row) (eps : list Endpoint)
    (alg : LoadBalancer) (slow : Z) (params : option HealthParams) (cfg : option PeakEwmaConfig)
    (loc : option UpstreamLocality) : M LbState :=
  rows ← build_rows clk previous eps;
  rows ← (match params with Some _ => each with_tracker rows | None => mret rows end);
  let decay_ms := default 10000 (cfg ≫= fst) in
  let default_rtt_ms := default 250 (cfg ≫= snd) in
  rows ← (if bool_decide (alg = PeakEwma)
          then each (with_ewma clk (saturating_mul default_rtt_ms 1000000)) rows
          else mret rows);
  let tau := if bool_decide (alg = PeakEwma) then saturating_mul decay_ms 1000000 else 0 in
  let r := if bool_decide (alg = IpHash) then build_ring (map target rows) else [] in
  table ← (if bool_decide (alg = MaglevHash) then lift (table_of fuel rows) else mret []);
  mret (MkState rows alg slow r table params tau loc).

Definition rebuild (fuel : nat) (clk : Clock) (eps : list Endpoint) (alg : LoadBalancer) (slow : Z)
    (params : option HealthParams) (cfg : option PeakEwmaConfig) (loc : option UpstreamLocality)
    : M unit :=
  lb ← get;
  st ← build_state fuel clk (endpoints (lb_state lb)) eps alg slow params cfg loc;
  modify (set_lb_state st).

(** Before the first generation: [seed] is the random seed of the process. *)
Definition unbuilt (seed : Z) : UpstreamLb :=
  Lb (MkState [] RoundRobin 0 [] [] None 0 None) [] [] [] (Z.lor seed 1) 0 (LContext None None).

Definition new_lb (fuel : nat) (clk : Clock) (seed : Z) (eps : list Endpoint) (alg : LoadBalancer)
    (slow : Z) (params : option HealthParams) (cfg : option PeakEwmaConfig)
    (loc : option UpstreamLocality) : result fault UpstreamLb :=
  match rebuild fuel clk eps alg slow params cfg loc (unbuilt seed) with
  | Ok (lb, _) => Ok lb
  | Err e => Err e
  end.

Definition set_locality_context (ctx : LocalityContext) (lb : UpstreamLb) : UpstreamLb :=
  Lb (lb_state lb) (cells lb) (trackers lb) (ewmas lb) (rng lb) (fail_open_picks lb) ctx.

(** ** Latencies

    [exp] is the exponential of the platform. *)
Section latency.
Variable exp : num → num.

(** [x as u64]: towards zero, clamped. *)
Definition num_to_u64 (x : num) : Z :=
  match x with
  | S754_finite false m e =>
      let '(nu, de) := frac_of (Z.pos m) e in Z.min (nu / de) (2 ^ 64 - 1)
  | S754_infinity false => 2 ^ 64 - 1
  | _ => 0
  end.

Definition new_cost (tau now rtt_ns : Z) (t : PeakEwmaTracker) : PeakEwmaTracker :=
  let td := num_of_Z (saturating_sub now (stamp t)) in
  let w := exp (ndiv (SFopp td) (num_of_Z (Z.max tau 1))) in
  Ewma (if cost_ns t <? rtt_ns then rtt_ns
        else num_to_u64 (nadd (nmul (num_of_Z (cost_ns t)) w) (nmul (num_of_Z rtt_ns) (nsub one w))))
       now.

Definition record_latency (clk : Clock) (idx : nat) (duration : Z) : M unit :=
  lb ← get;
  match endpoints (lb_state lb) !! idx ≫= peak_ewma with
  | None => mret tt
  | Some t =>
      modify (on_ewma (new_cost (peak_ewma_tau_ns (lb_state lb)) (unix_ns clk) (duration mod 2 ^ 64)) t)
  end.
End latency.
