(* ===== verification/Picks.v ===== *)
(** What a pick of the load balancer selects
    (crates/dwara-core/src/dataplane/balance.rs, [choose]): with every
    algorithm the result is one of the candidates, and candidates leave out
    the endpoints that are ejected. *)

From S2P Require Import Prelude JsNumber Hash Breaker Health Maglev Ring LbState Locality Balance.
Local Open Scope Z_scope.

(** * Computations that end with a value

    They leave the counter of the fail-open picks alone. *)

Definition gives {A} (m : M A) (Q : A → Prop) : Prop :=
  ∀ lb, ∃ lb' a, m lb = Ok (lb', a) ∧ fail_open_picks lb' = fail_open_picks lb ∧ Q a.

Lemma gives_ret {A} (a : A) (Q : A → Prop) : Q a → gives (mret a) Q.
Proof. intros H lb. by exists lb, a. Qed.

Lemma gives_bind {A B} (m : M A) (f : A → M B) (Q : A → Prop) (R : B → Prop) :
  gives m Q → (∀ a, Q a → gives (f a) R) → gives (m ≫= f) R.
Proof.
  intros Hm Hf lb. destruct (Hm lb) as (lb1 & a & E1 & F1 & Ha).
  destruct (Hf a Ha lb1) as (lb2 & b & E2 & F2 & Hb).
  exists lb2, b. split; [|by rewrite F2]. unfold mbind, M_bind. by rewrite E1.
Qed.

Lemma gives_fmap {A B} (m : M A) (f : A → B) (Q : B → Prop) :
  gives m (λ a, Q (f a)) → gives (f <$> m) Q.
Proof. intros Hm. eapply gives_bind; [exact Hm|]. intros a Ha. by apply gives_ret. Qed.

Lemma gives_lift {A} (r : result fault A) (a : A) (Q : A → Prop) : r = Ok a → Q a → gives (lift r) Q.
Proof. intros -> H lb. by exists lb, a. Qed.

Lemma gives_get : gives get (λ _, True).
Proof. intros lb. by exists lb, lb. Qed.

Lemma gives_modify f : (∀ lb, fail_open_picks (f lb) = fail_open_picks lb) →
  gives (modify f) (λ _, True).
Proof. intros H lb. by exists (f lb), tt. Qed.

Lemma gives_on_cell f c : gives (modify (on_cell f c)) (λ _, True).
Proof. by apply gives_modify. Qed.

Lemma gives_on_tracker f t : gives (modify (on_tracker f t)) (λ _, True).
Proof. by apply gives_modify. Qed.

Lemma gives_set_rng x : gives (modify (set_rng x)) (λ _, True).
Proof. by apply gives_modify. Qed.

Lemma at_index_ok {A} (v : list A) i x : v !! i = Some x → at_index v i = Ok x.
Proof. unfold at_index. by intros ->. Qed.

Create HintDb gives discriminated.
#[export] Hint Resolve gives_get gives_on_cell gives_on_tracker gives_set_rng gives_ret : gives.

(** One more step of a computation. *)
Ltac gives_step :=
  first [ eapply gives_bind; [solve [eauto with gives]|intros ? ?]
        | apply gives_fmap | apply gives_ret ].

(** * Candidates *)

Section picks.
Context (st : LbState) (cand : option (list nat)).

Definition pool : list nat := base_of (endpoints st) cand.

(** The pool is a set of endpoints. *)
Definition pool_ok : Prop := valid (endpoints st) pool ∧ NoDup pool ∧ pool ≠ [].

Lemma cand_len_pool : cand_len st cand = length pool.
Proof. unfold pool, base_of. destruct cand; simpl; [done|]. by rewrite length_seq. Qed.

Lemma resolve_pool i : (i < length pool)%nat → ∃ j, resolve cand i = Ok j ∧ j ∈ pool.
Proof.
  unfold pool, base_of, resolve, at_index. destruct cand as [c|]; simpl; intros Hi.
  - destruct (lookup_lt_is_Some_2 _ _ Hi) as [j Hj]. rewrite Hj. exists j. split; [done|].
    by eapply list_elem_of_lookup_2.
  - rewrite length_seq in Hi. exists i. split; [done|]. apply elem_of_seq. lia.
Qed.

Lemma row_pool j : pool_ok → j ∈ pool → ∃ e, row_at st j = Ok e.
Proof.
  intros (Hv & _ & _) Hj. unfold valid in Hv. rewrite list.Forall_forall in Hv.
  destruct (lookup_lt_is_Some_2 (endpoints st) j) as [e He]; [by apply Hv|].
  exists e. unfold row_at, at_index. by rewrite He.
Qed.

(** ** Round-robin *)

Lemma wrr_loop_gives clk ixs sc : pool_ok → Forall (λ i, i < length pool)%nat ixs → best sc ∈ pool →
  gives (wrr_loop st clk cand ixs sc) (λ sc', best sc' ∈ pool).
Proof.
  intros Hp Hi. revert sc. induction Hi as [|i ixs Hi Hixs IH]; intros sc Hb; cbn [wrr_loop].
  { by apply gives_ret. }
  eapply (gives_bind _ _ (λ sc', best sc' ∈ pool)); [|intros; by apply IH].
  destruct (resolve_pool i Hi) as (j & Ej & Hj). destruct (row_pool j Hp Hj) as (e & Ee).
  unfold wrr_visit.
  eapply gives_bind; [by eapply (gives_lift _ j (λ x, x = j))|intros ? ->].
  eapply gives_bind; [by eapply (gives_lift _ e (λ x, x = e))|intros ? ->].
  gives_step. gives_step. apply gives_ret. by case_match.
Qed.

Lemma wrr_gives clk : pool_ok → gives (smooth_weighted_rr st clk cand) (λ i, i ∈ pool).
Proof.
  intros Hp. unfold smooth_weighted_rr.
  assert (Hn : (0 < length pool)%nat) by (destruct Hp as (_ & _ & ?); destruct pool; simpl; [done|lia]).
  destruct (resolve_pool 0 Hn) as (j & Ej & Hj).
  eapply gives_bind; [by eapply (gives_lift _ j (λ x, x = j))|intros ? ->].
  eapply (gives_bind _ _ (λ sc, best sc ∈ pool)).
  { apply wrr_loop_gives; [done| |done]. rewrite cand_len_pool. apply list.Forall_forall.
    intros i Hi. apply elem_of_seq in Hi. lia. }
  intros sc Hb. destruct (total sc <=? 0); [by apply gives_ret|].
  destruct (row_pool (best sc) Hp Hb) as (e & Ee).
  eapply gives_bind; [by eapply (gives_lift _ e (λ x, x = e))|intros ? ->].
  gives_step. gives_step. by apply gives_ret.
Qed.

(** ** The least *)

Lemma keyed_gives key ixs : pool_ok → Forall (λ i, i < length pool)%nat ixs →
  ∃ l, keyed st cand key ixs = Ok l ∧ length l = length ixs ∧ Forall (λ x, x.2 ∈ pool) l.
Proof.
  intros Hp. induction 1 as [|i ixs Hi Hixs (l & El & Hl & Hin)]; simpl; [by exists []|].
  destruct (resolve_pool i Hi) as (j & Ej & Hj). destruct (row_pool j Hp Hj) as (e & Ee).
  rewrite Ej. simpl. rewrite Ee. simpl. rewrite El. simpl. eexists. split; [done|]. simpl.
  split; [by f_equal|]. by constructor.
Qed.

Lemma min_by_key_in l : l ≠ [] → ∃ x, x ∈ l ∧ min_by_key l = Some x.2.
Proof.
  destruct l as [|x l]; [done|]. intros _. simpl.
  assert (H : foldl (λ b y, if less y b then y else b) x l ∈ x :: l); [|eauto].
  revert x. induction l as [|y l IH]; intros x; simpl; [left|].
  specialize (IH (if less y x then y else x)). apply elem_of_cons in IH as [->|IH].
  - destruct (less y x); [right; left|left].
  - right. by right.
Qed.

Lemma least_gives key : pool_ok → gives (pick_least st cand key) (λ i, i ∈ pool).
Proof.
  intros Hp. unfold pick_least.
  assert (Hn : (0 < length pool)%nat) by (destruct Hp as (_ & _ & ?); destruct pool; simpl; [done|lia]).
  destruct (keyed_gives key (seq 0 (cand_len st cand)) Hp) as (l & El & Hl & Hin).
  { rewrite cand_len_pool. apply list.Forall_forall. intros i Hi. apply elem_of_seq in Hi. lia. }
  rewrite length_seq, cand_len_pool in Hl.
  eapply gives_bind; [by eapply (gives_lift _ l (λ x, x = l))|intros ? ->].
  destruct (min_by_key_in l) as (x & Hx & ->); [intros ->; simpl in Hl; lia|].
  apply gives_ret. rewrite list.Forall_forall in Hin. by apply Hin.
Qed.

(** ** Two at random *)

Lemma remainder_ok x n : (0 < n)%nat → ∃ r, remainder x n = Ok r ∧ (r < n)%nat.
Proof.
  destruct n as [|n]; [lia|]. intros _. eexists. split; [done|].
  pose proof (Z.mod_pos_bound x (Z.of_nat (S n)) ltac:(lia)). lia.
Qed.

Lemma next_rand_gives : gives next_rand (λ _, True).
Proof. unfold next_rand. gives_step. gives_step. by apply gives_ret. Qed.

Lemma random_gives : pool_ok → (2 <= length pool)%nat → gives (pick_random st cand) (λ i, i ∈ pool).
Proof.
  intros Hp Hn. unfold pick_random. rewrite cand_len_pool.
  eapply gives_bind; [apply next_rand_gives|intros r _].
  destruct (remainder_ok r (length pool)) as (a & Ea & Ha); [lia|].
  eapply gives_bind; [by eapply (gives_lift _ a (λ x, x = a))|intros ? ->].
  eapply gives_bind; [apply next_rand_gives|intros r' _].
  destruct (remainder_ok r' (length pool - 1)) as (b & Eb & Hb); [lia|].
  eapply gives_bind; [by eapply (gives_lift _ b (λ x, x = b))|intros ? ->]. cbv zeta.
  assert (Hb' : ((if a <=? b then S b else b) < length pool)%nat) by (case_match; lia).
  destruct (resolve_pool a Ha) as (i & Ei & Hi). destruct (resolve_pool _ Hb') as (j & Ej & Hj).
  destruct (row_pool i Hp Hi) as (e & Ee). destruct (row_pool j Hp Hj) as (e' & Ee').
  eapply gives_bind; [by eapply (gives_lift _ i (λ x, x = i))|intros ? ->].
  eapply gives_bind; [by eapply (gives_lift _ j (λ x, x = j))|intros ? ->].
  eapply gives_bind; [by eapply (gives_lift _ e (λ x, x = e))|intros ? ->].
  eapply gives_bind; [by eapply (gives_lift _ e' (λ x, x = e'))|intros ? ->].
  gives_step. apply gives_ret. destruct (_ <? _); [done|]. destruct (_ <? _); [done|].
  destruct (Nat.min_spec i j) as [[_ ->]|[_ ->]]; done.
Qed.

(** ** Consistent hashing *)

Lemma mark_ok (set : list bool) c : Forall (λ i, i < length set)%nat c →
  ∃ set', mark set c = Ok set' ∧ length set' = length set ∧
    ∀ i, set' !! i = Some true ↔ set !! i = Some true ∨ i ∈ c ∧ (i < length set)%nat.
Proof.
  revert set. induction c as [|i c IH]; intros set H; simpl.
  { exists set. split_and!; [done|done|]. intros i. split; [by left|].
    intros [?|[Hi%elem_of_nil _]]; done. }
  apply list.Forall_cons in H as [Hi Hc]. unfold at_index.
  destruct (lookup_lt_is_Some_2 _ _ Hi) as [b Eb]. rewrite Eb. simpl.
  destruct (IH (<[i := true]> set)) as (set' & E & Hl & Hs); [by rewrite length_insert|].
  exists set'. rewrite length_insert in Hl, Hs. split_and!; [done|done|]. intros j. rewrite Hs, elem_of_cons.
  destruct (decide (j = i)) as [->|Hne].
  - rewrite list_lookup_insert_eq by done. naive_solver.
  - rewrite list_lookup_insert_ne by done. naive_solver.
Qed.

Lemma eligible_set_ok : pool_ok →
  (∃ c, cand = Some c) →
  ∃ set, eligible_set st cand = Ok set ∧ length set = length (endpoints st) ∧
    ∀ i, set !! i = Some true ↔ i ∈ pool.
Proof.
  intros (Hv & _) [c Hc]. unfold pool, base_of, valid in *. rewrite Hc in *. simpl in Hv |- *.
  unfold eligible_set. simpl.
  destruct (mark_ok (replicate (length (endpoints st)) false) c) as (set & E & Hl & Hs).
  { by rewrite length_replicate. }
  rewrite length_replicate in Hl, Hs. exists set. split_and!; [done|done|]. intros i. rewrite Hs.
  rewrite list.Forall_forall in Hv. split.
  - intros [H%lookup_replicate|[? _]]; [by destruct H|done].
  - intros Hi. right. split; [done|by apply Hv].
Qed.

(** A pool that is not smaller than the set of endpoints is all of it. *)
Lemma pool_full i : pool_ok → (length (endpoints st) <= length pool)%nat →
  (i < length (endpoints st))%nat → i ∈ pool.
Proof.
  intros (Hv & Hn & _) Hl Hi.
  assert (Hsub : pool ⊆+ seq 0 (length (endpoints st))).
  { apply NoDup_submseteq; [done|]. intros j Hj. unfold valid in Hv. rewrite list.Forall_forall in Hv.
    apply elem_of_seq. specialize (Hv j Hj). lia. }
  apply submseteq_length_Permutation in Hsub; [|by rewrite length_seq].
  rewrite Hsub. apply elem_of_seq. lia.
Qed.

(** A search among valid indices finds an eligible one or says there is none. *)
Lemma find_eligible_ok set (l : ring) : (∀ s, set = Some s → Forall (λ x, x.2 < length s)%nat l) →
  ∃ r, find_eligible set l = Ok r ∧
  match r with
  | Some i => (∃ k, (k, i) ∈ l) ∧ ∀ s, set = Some s → s !! i = Some true
  | None => ∀ k i, (k, i) ∈ l → ∃ s, set = Some s ∧ s !! i ≠ Some true
  end.
Proof.
  induction l as [|[k i] l IH]; intros H; simpl.
  { exists None. split; [done|]. by intros k i Hi%elem_of_nil. }
  destruct IH as (r & Er & Hr); [intros s Hs; specialize (H s Hs); by apply list.Forall_cons in H as [_ ?]|].
  destruct set as [s|]; simpl.
  - unfold at_index. specialize (H s eq_refl). apply list.Forall_cons in H as [Hi _]. simpl in Hi.
    destruct (lookup_lt_is_Some_2 _ _ Hi) as [b Eb]. rewrite Eb. simpl. destruct b.
    + exists (Some i). split; [done|]. split; [exists k; left|]. intros s' [= <-]. done.
    + exists r. split; [done|]. destruct r as [j|].
      * destruct Hr as [[k' Hk'] Hr]. split; [exists k'; by right|done].
      * intros k' i' [[= -> ->]|Hin]%elem_of_cons; [|by eapply Hr]. exists s. split; [done|]. congruence.
  - exists (Some i). split; [done|]. split; [exists k; left|done].
Qed.

(** The tables of a generation only name its endpoints. *)
Definition tables_ok : Prop :=
  Forall (λ x, x.2 < length (endpoints st))%nat (lb_ring st) ∧
  Forall (λ i, i < length (endpoints st))%nat (maglev_table st).

(** [filtered] says that some endpoint is not in the pool. *)
Definition filtered_of : bool :=
  match cand with
  | Some c => (length c <? length (endpoints st))%nat
  | None => false
  end.

Lemma filtered_false i : pool_ok → filtered_of = false → (i < length (endpoints st))%nat → i ∈ pool.
Proof.
  intros Hp Hf Hi. apply pool_full; [done| |done]. unfold filtered_of, pool, base_of in *.
  destruct cand; simpl; [by apply Nat.ltb_ge in Hf|by rewrite length_seq].
Qed.

Lemma filtered_some : filtered_of = true → ∃ c, cand = Some c.
Proof. unfold filtered_of. destruct cand; [eauto|done]. Qed.

Lemma ring_gives clk k : pool_ok → tables_ok →
  gives (pick_ring st clk cand filtered_of k) (λ i, i ∈ pool).
Proof.
  intros Hp (Hr & _). unfold pick_ring. cbv zeta.
  assert (Hset : ∃ set, (if filtered_of then Some <$> eligible_set st cand else Ok None) = Ok set ∧
    (∀ s, set = Some s → length s = length (endpoints st)) ∧
    ∀ i, (i < length (endpoints st))%nat → (∀ s, set = Some s → s !! i = Some true) → i ∈ pool).
  { destruct filtered_of eqn:Ef.
    - destruct (eligible_set_ok Hp (filtered_some Ef)) as (s & -> & Hl & Hs). exists (Some s).
      split_and!; [done|by intros ? [= <-]|]. intros i _ H. apply Hs. by apply H.
    - exists None. split_and!; [done|done|]. intros i Hi _. by apply filtered_false. }
  destruct Hset as (set & Eset & Hl & Hs).
  eapply gives_bind; [by eapply (gives_lift _ set (λ x, x = set))|intros ? ->].
  assert (Hfind : ∀ l, (∀ x, x ∈ l → x ∈ lb_ring st) →
    ∃ r, find_eligible set l = Ok r ∧ ∀ i, r = Some i → i ∈ pool).
  { intros l Hsub. rewrite list.Forall_forall in Hr.
    destruct (find_eligible_ok set l) as (r & Er & Hr').
    - intros s Es. apply list.Forall_forall. intros x Hx. rewrite (Hl s Es). by apply Hr, Hsub.
    - exists r. split; [done|]. intros i ->. destruct Hr' as [[k' Hk'] Hr'].
      apply Hs; [|done]. exact (Hr _ (Hsub _ Hk')). }
  destruct (Hfind (range_from (key_hash k) (lb_ring st))) as (r1 & E1 & H1).
  { by intros x [? _]%elem_of_range. }
  destruct (Hfind (lb_ring st)) as (r2 & E2 & H2); [done|].
  eapply gives_bind; [by eapply (gives_lift _ r1 (λ x, x = r1))|intros ? ->].
  eapply (gives_bind _ _ (λ r, ∀ i, r = Some i → i ∈ pool)).
  { destruct r1; [by apply gives_ret|by eapply gives_lift]. }
  intros [i|] Hi; [apply gives_ret; by apply Hi|by apply wrr_gives].
Qed.

Lemma probe_table_ok table set start offsets : table ≠ [] →
  Forall (λ i, i < length set)%nat table →
  ∃ r, probe_table table set start offsets = Ok r ∧ ∀ i, r = Some i → set !! i = Some true.
Proof.
  intros Hne Ht. induction offsets as [|o offsets (r & Er & Hr)]; cbn [probe_table]; [by exists None|].
  assert (Hlt : ((start + o) mod length table < length table)%nat)
    by (apply Nat.mod_upper_bound; destruct table; simpl; [done|lia]).
  destruct (lookup_lt_is_Some_2 _ _ Hlt) as [i Ei].
  rewrite (at_index_ok _ _ _ Ei). cbn [mbind result_bind].
  rewrite list.Forall_forall in Ht.
  destruct (lookup_lt_is_Some_2 set i) as [b Eb]; [apply Ht; by eapply list_elem_of_lookup_2|].
  rewrite (at_index_ok _ _ _ Eb). cbn [mbind result_bind]. destruct b; [|by exists r].
  exists (Some i). split; [done|]. by intros ? [= <-].
Qed.

Definition flow_index (f : flow) : nat :=
  match f with
  | Selected i | Return i => i
  end.

Lemma maglev_gives clk k : pool_ok → tables_ok →
  gives (pick_maglev st clk cand filtered_of k) (λ f, flow_index f ∈ pool).
Proof.
  intros Hp (_ & Ht). unfold pick_maglev. destruct (maglev_table st) as [|i0 l0] eqn:Et.
  { apply gives_fmap. by apply wrr_gives. }
  set (table := i0 :: l0) in *. assert (Hne : table ≠ []) by done. clearbody table.
  destruct (remainder_ok (key_hash k) (length table)) as (start & Es & Hs).
  { destruct table; simpl; [done|lia]. }
  eapply gives_bind; [by eapply (gives_lift _ start (λ x, x = start))|intros ? ->].
  destruct filtered_of eqn:Ef; cbn [negb].
  - destruct (eligible_set_ok Hp (filtered_some Ef)) as (set & Eset & Hl & Hset).
    eapply gives_bind; [by eapply (gives_lift _ set (λ x, x = set))|intros ? ->].
    destruct (probe_table_ok table set start (seq 0 (length table)) Hne) as (r & Er & Hr).
    { by rewrite Hl. }
    eapply gives_bind; [by eapply (gives_lift _ r (λ x, x = r))|intros ? ->].
    destruct r as [i|]; [apply gives_ret, Hset; by apply Hr|apply gives_fmap; by apply wrr_gives].
  - destruct (lookup_lt_is_Some_2 _ _ Hs) as [i Ei].
    eapply (gives_bind _ _ (λ x, x = i)); [eapply gives_lift; [|done]; unfold at_index; by rewrite Ei|].
    intros ? ->. apply gives_ret. simpl. apply filtered_false; [done|done|].
    rewrite list.Forall_forall in Ht. apply Ht. by eapply list_elem_of_lookup_2.
Qed.

Lemma consume_gives i : pool_ok → i ∈ pool → gives (consume st i) (λ _, True).
Proof.
  intros Hp Hi. unfold consume. destruct (row_pool i Hp Hi) as (e & Ee).
  eapply gives_bind; [by eapply (gives_lift _ e (λ x, x = e))|intros ? ->].
  destruct (health e); eauto with gives.
Qed.

Lemma algorithm_gives clk key : pool_ok → tables_ok → (2 <= length pool)%nat →
  gives (run_algorithm st clk cand filtered_of key) (λ f, flow_index f ∈ pool).
Proof.
  intros Hp Ht Hn. unfold run_algorithm.
  assert (Hwrr : gives (Selected <$> smooth_weighted_rr st clk cand) (λ f, flow_index f ∈ pool))
    by (apply gives_fmap; by apply wrr_gives).
  assert (Hleast : ∀ key, gives (Selected <$> pick_least st cand key) (λ f, flow_index f ∈ pool))
    by (intros; apply gives_fmap; by apply least_gives).
  destruct (algorithm st), key as [k|]; try done.
  - gives_step. apply Hleast.
  - gives_step. apply Hleast.
  - apply gives_fmap. by apply random_gives.
  - apply gives_fmap. by apply random_gives.
  - apply gives_fmap. by apply ring_gives.
  - by apply maglev_gives.
  - gives_step. apply Hleast.
  - gives_step. apply Hleast.
Qed.

Lemma choose_among_gives clk key : pool_ok → tables_ok →
  gives (choose_among st clk key cand) (λ r, ∃ i, r = Some i ∧ i ∈ pool).
Proof.
  intros Hp Ht. unfold choose_among. fold filtered_of. cbv zeta. rewrite cand_len_pool.
  destruct (Nat.eqb_spec (length pool) 1) as [Hn|Hn].
  - assert (H0 : ∃ i, (match cand with None => Ok 0%nat | Some c => at_index c 0 end) = Ok i ∧ i ∈ pool).
    { destruct (resolve_pool 0) as (i & Ei & Hi); [lia|]. exists i. split; [|done].
      unfold resolve in Ei. by destruct cand. }
    destruct H0 as (i & Ei & Hi).
    eapply gives_bind; [by eapply (gives_lift _ i (λ x, x = i))|intros ? ->].
    eapply gives_bind; [by apply consume_gives|intros _ _]. apply gives_ret. eauto.
  - assert (Hn2 : (2 <= length pool)%nat).
    { destruct Hp as (_ & _ & Hne). destruct pool as [|x [|y l]]; simpl in *; [done|lia|lia]. }
    eapply gives_bind; [by apply algorithm_gives|]. intros [i|i] Hi; simpl in Hi.
    + eapply (gives_bind _ _ (λ _, True)); [|intros _ _; apply gives_ret; eauto].
      case_match; [by apply consume_gives|by apply gives_ret].
    + apply gives_ret. eauto.
Qed.
End picks.

(** * Endpoints that are out *)

(** Ejected until later than [now]. *)
Definition out_until (now : Z) (h : EndpointHealth) : Prop :=
  Health.state h = EJECTED ∧ now < ejected_until_ms h.

Lemma out_not_candidate params now h : out_until now h → Health.is_candidate params now h = (h, false).
Proof.
  intros [Hs Hu]. unfold Health.is_candidate. simpl. rewrite Hs. simpl.
  by destruct (Z.ltb_spec now (ejected_until_ms h)); [|lia].
Qed.

Lemma ask_run params now e lb : ∃ lb' ok,
  ask params now e lb = Ok (lb', ok) ∧
  (fail_open_picks lb' = fail_open_picks lb ∧ locality_ctx lb' = locality_ctx lb) ∧
  (∀ t, out_until now (tracker_at lb t) → tracker_at lb' t = tracker_at lb t) ∧
  ∀ t, health e = Some t → out_until now (tracker_at lb t) → ok = false.
Proof.
  unfold ask. destruct (health e) as [t|]; [|by exists lb, true].
  unfold mbind, M_bind, get, modify, mret, M_ret.
  destruct (Health.is_candidate params now (tracker_at lb t)) as [h ok] eqn:E.
  exists (on_tracker (λ _, h) t lb), ok. split_and!; [done|done|done| |].
  - intros t' Hout. destruct (decide (t = t')) as [<-|Hne].
    + rewrite (out_not_candidate _ _ _ Hout) in E. injection E as <- <-.
      unfold tracker_at, on_tracker. simpl. rewrite list_lookup_alter_eq.
      by destruct (trackers lb !! t).
    + unfold tracker_at, on_tracker. simpl. by rewrite list_lookup_alter_ne.
  - intros t' [= <-] Hout. rewrite (out_not_candidate _ _ _ Hout) in E. by injection E.
Qed.

(** The scan of the endpoints keeps every ejection that stands, and leaves
    those endpoints out. *)
Lemma available_run params now eps i lb : ∃ lb' l,
  available params now i eps lb = Ok (lb', l) ∧
  (fail_open_picks lb' = fail_open_picks lb ∧ locality_ctx lb' = locality_ctx lb) ∧
  l `sublist_of` seq i (length eps) ∧
  ∀ j e t, eps !! j = Some e → health e = Some t → out_until now (tracker_at lb t) → (i + j)%nat ∉ l.
Proof.
  revert i lb. induction eps as [|e eps IH]; intros i lb.
  { exists lb, []. by split_and!. }
  destruct (ask_run params now e lb) as (lb1 & ok & E1 & F1 & T1 & O1).
  destruct (IH (S i) lb1) as (lb2 & l & E2 & F2 & S2 & O2).
  exists lb2, (if ok then i :: l else l). split_and!.
  - cbn [available]. unfold mbind, M_bind. rewrite E1, E2. by destruct ok.
  - destruct F1, F2. congruence.
  - destruct F1, F2. congruence.
  - simpl. destruct ok; [by constructor|by constructor].
  - assert (Hge : ∀ j, j ∈ l → (i < j)%nat).
    { intros j Hj. eapply sublist_subseteq in S2. specialize (S2 _ Hj). apply elem_of_seq in S2. lia. }
    intros j e' t He' Ht Hout Hin. destruct j as [|j]; simpl in He'.
    + injection He' as ->. rewrite (O1 t Ht Hout) in Hin. specialize (Hge _ Hin). lia.
    + apply (O2 j e' t He' Ht); [by rewrite T1|].
      rewrite Nat.add_succ_r in Hin. destruct ok; [|done].
      apply elem_of_cons in Hin as [?|?]; [lia|done].
Qed.

Lemma sublist_pool eps l : l `sublist_of` seq 0 (length eps) →
  valid eps l ∧ NoDup l.
Proof.
  intros Hs. split.
  - apply list.Forall_forall. intros i Hi. eapply sublist_subseteq in Hs. specialize (Hs _ Hi).
    apply elem_of_seq in Hs. lia.
  - eapply sublist_NoDup; [apply NoDup_seq|exact Hs].
Qed.

(** What health leaves: every endpoint, or a set that no standing ejection is
    in; every endpoint because none was left is counted. *)
Lemma health_candidates_run st clk lb : endpoints st ≠ [] → ∃ lb' cand,
  health_candidates st clk lb = Ok (lb', cand) ∧ pool_ok st cand ∧ locality_ctx lb' = locality_ctx lb ∧
  ∀ i e t p, endpoints st !! i = Some e → health e = Some t → lb_health st = Some p →
    out_until (now_ms clk) (tracker_at lb t) → i ∈ pool st cand →
    fail_open_picks lb' = add_u64 (fail_open_picks lb) 1.
Proof.
  intros Hne. assert (Hall : pool_ok st None).
  { unfold pool_ok, pool, base_of. simpl. split_and!; [apply valid_seq|apply NoDup_seq|].
    by destruct (endpoints st). }
  unfold health_candidates. destruct (lb_health st) as [params|] eqn:Eh.
  2: { exists lb, None. split_and!; done. }
  destruct (available_run params (now_ms clk) (endpoints st) 0 lb) as (lb1 & l & E1 & [F1 C1] & S1 & O1).
  destruct (sublist_pool _ _ S1) as [Hv Hn].
  exists (match l with [] => set_fail_open (add_u64 (fail_open_picks lb1) 1) lb1 | _ => lb1 end),
         (match l with [] => None | _ => Some l end).
  split_and!.
  - unfold mbind, M_bind. rewrite E1. by destruct l.
  - destruct l; [done|]. by unfold pool_ok, pool, base_of.
  - by destruct l.
  - intros i e t p He Ht _ Hout Hin. destruct l as [|x l]; simpl; [by rewrite F1|].
    by destruct (O1 i e t He Ht Hout).
Qed.

(** ** Locality *)

(** Denied regions without a residency constraint, in failover mode: the case
    that leaves no candidate (see [failover_leaves_none]). *)
Definition may_empty (loc : UpstreamLocality) : Prop :=
  mode loc = Failover ∧ enforce_data_residency loc = false ∧ denied_regions loc ≠ [].

Lemma nodup_filter (q : nat → bool) l : NoDup l → NoDup (List.filter q l).
Proof. rewrite !NoDup_ListNoDup. apply List.NoDup_filter. Qed.

Lemma residents_all eps loc cand : valid eps (base_of eps cand) → enforce_data_residency loc = false →
  denied_regions loc = [] → residents eps loc cand = base_of eps cand.
Proof.
  intros Hv He Hd. apply List.forallb_filter_id, List.forallb_forall. intros i Hi%list_elem_of_In.
  unfold valid in Hv. rewrite list.Forall_forall in Hv. unfold row_satisfies.
  destruct (lookup_lt_is_Some_2 _ _ (Hv i Hi)) as [e Ee]. rewrite Ee. unfold resident.
  rewrite He, Hd. simpl. by destruct (region e).
Qed.

Lemma nearest_nodup eps loc ctx cand : NoDup (base_of eps cand) → NoDup (nearest eps loc ctx cand).
Proof.
  intros Hn. assert (Hr : NoDup (in_region eps loc ctx cand)) by (by do 2 apply nodup_filter).
  unfold nearest. destruct (ctx_zone ctx); [|done]. case_match; [by apply nodup_filter|done].
Qed.

Lemma outcome_pool st loc ctx cand : pool_ok st cand → ¬ may_empty loc →
  match outcome (endpoints st) loc ctx cand with
  | Restricted l => pool_ok st (Some l) ∧ ∀ i, i ∈ l → i ∈ pool st cand
  | Unchanged c => c = cand
  | Denied => enforce_data_residency loc = true ∨ mode loc = Strict
  end.
Proof.
  intros (Hv & Hn & Hne) Hhole.
  assert (Hsub : ∀ l, NoDup l → l ≠ [] → (∀ i, i ∈ l → i ∈ residents (endpoints st) loc cand) →
    pool_ok st (Some l) ∧ ∀ i, i ∈ l → i ∈ pool st cand).
  { intros l Hnd Hnil Hin.
    assert (Hin' : ∀ i, i ∈ l → i ∈ pool st cand).
    { intros i Hi. by apply Hin, elem_of_filter_bool in Hi as [? _]. }
    unfold pool_ok. split; [split_and!; [|done|done]|done].
    unfold valid, pool, base_of in *. simpl. rewrite list.Forall_forall in *. auto. }
  pose proof (nearest_nodup (endpoints st) loc ctx cand Hn) as Hnd.
  pose proof (nearest_resident (endpoints st) loc ctx cand) as Hres.
  unfold outcome. set (near := nearest (endpoints st) loc ctx cand) in *.
  destruct (bool_decide (residents (endpoints st) loc cand = []) && enforce_data_residency loc) eqn:E0.
  { apply andb_true_iff in E0 as [_ ?]. by left. }
  cbv zeta. destruct (bool_decide (near = [])) eqn:En; cbn [negb andb].
  - destruct (mode loc) eqn:Em; [done|by right|].
    destruct (_ <? _)%nat eqn:El; [|done]. apply Hsub; [by apply nodup_filter| |done]. intros Hnil. rewrite Hnil in E0. simpl in E0.
    apply Hhole. split; [done|]. split; [done|]. intros Hd.
    by rewrite residents_all in Hnil.
  - apply bool_decide_eq_false in En.
    by destruct (mode loc); destruct (_ <? _)%nat; try done; apply Hsub.
Qed.

Lemma locality_candidates_gives st cand : pool_ok st cand →
  (∀ loc, locality st = Some loc → ¬ may_empty loc) →
  gives (locality_candidates st cand) (λ r,
    match r with
    | Some c => pool_ok st c ∧ ∀ i, i ∈ pool st c → i ∈ pool st cand
    | None => ∃ loc, locality st = Some loc ∧ (enforce_data_residency loc = true ∨ mode loc = Strict)
    end).
Proof.
  intros Hp Hhole. unfold locality_candidates.
  destruct (locality st) as [loc|] eqn:El; [|by apply gives_ret]. specialize (Hhole loc eq_refl).
  eapply gives_bind; [apply gives_get|]. intros lb _.
  destruct (is_set (locality_ctx lb)); [|by apply gives_ret].
  eapply gives_bind.
  { eapply (gives_lift _ _ (λ r, r = outcome (endpoints st) loc (locality_ctx lb) cand));
      [by apply apply_locality_outcome, Hp|done]. }
  intros r ->. apply gives_ret.
  pose proof (outcome_pool st loc (locality_ctx lb) cand Hp Hhole) as H.
  destruct (outcome _ _ _ _) as [l|c|]; [exact H|by subst c|by exists loc].
Qed.

(** ** Generations that were built *)

Lemma table_of_range fuel eps t : table_of fuel eps = Ok t → Forall (λ i, i < length eps)%nat t.
Proof.
  unfold table_of. destruct (build_maglev_table fuel (map target eps)) as [t0|[]] eqn:Eb; try done.
  destruct (mapM id t0) as [t1|] eqn:Em; [|done]. intros [= <-]. apply mapM_Some_1 in Em.
  apply list.Forall_forall. intros i [s Hs]%list_elem_of_lookup.
  eapply Forall2_lookup_r in Em as (o & Ho & Hoi); [|exact Hs]. simpl in Hoi. subst o.
  destruct eps as [|e eps]; [unfold build_maglev_table in Eb; simpl in Eb; by injection Eb as <-|].
  destruct (build_table_turns _ _ _ _ _ table_size_pos Eb) as [_ Hown].
  destruct (Hown s i Ho) as (e' & k & He' & _). apply lookup_lt_Some in He'.
  change (i < length (map target (e :: eps)))%nat in He'. by rewrite length_map in He'.
Qed.

Lemma build_state_tables fuel clk previous eps alg slow params cfg loc lb :
  match build_state fuel clk previous eps alg slow params cfg loc lb with
  | Ok (_, st) => tables_ok st
  | Err _ => True
  end.
Proof.
  unfold build_state, mbind, M_bind.
  destruct (build_rows clk previous eps lb) as [[lb1 rows]|]; [|done].
  destruct (match params with Some _ => each with_tracker rows | None => mret rows end lb1)
    as [[lb2 rows2]|]; [|done]. cbv zeta.
  destruct ((if bool_decide (alg = PeakEwma) then each _ rows2 else mret rows2) lb2)
    as [[lb3 rows3]|]; [|done].
  assert (Hr : Forall (λ x, x.2 < length rows3)%nat
    (if bool_decide (alg = IpHash) then build_ring (map target rows3) else [])).
  { case_match; [|done]. apply list.Forall_forall. intros [k i] Hx%build_ring_range.
    by rewrite length_map in Hx. }
  destruct (bool_decide (alg = MaglevHash)); [|by split].
  unfold lift. destruct (table_of fuel rows3) as [t|] eqn:Et; [|done].
  split; [exact Hr|by eapply table_of_range].
Qed.

(** * Properties *)

(** The tables of every generation that a rebuild installs are sound, whatever
    the balancer was before. *)
Lemma rebuild_tables fuel clk eps alg slow params cfg loc lb lb'
    (H : rebuild fuel clk eps alg slow params cfg loc lb = Ok (lb', tt)) :
  tables_ok (lb_state lb').
Proof.
  revert H. unfold rebuild, mbind, M_bind, get.
  pose proof (build_state_tables fuel clk (endpoints (lb_state lb)) eps alg slow params cfg loc lb) as Hb.
  destruct (build_state _ _ _ _ _ _ _ _ _ lb) as [[lb1 st]|]; [|done].
  unfold modify. by intros [= <-].
Qed.

(** C22: a pick never fails and always selects an endpoint, with every
    algorithm, whatever the key; an endpoint whose ejection stands is only
    selected by a pick that found every endpoint out, which is counted; and a
    pick is only refused by a locality constraint.  The one case apart is a
    failover with denied regions and no residency constraint.  Every generation
    that was built has sound tables ([rebuild_tables]). *)
Theorem pick_sound st clk key lb (Hne : endpoints st ≠ []) (Ht : tables_ok st)
    (Hloc : ∀ loc, locality st = Some loc → ¬ may_empty loc) :
  ∃ lb' r, choose st clk key lb = Ok (lb', r) ∧
  match r with
  | None =>
      ∃ loc, locality st = Some loc ∧ (enforce_data_residency loc = true ∨ mode loc = Strict)
  | Some i =>
      (i < length (endpoints st))%nat ∧
      ∀ e t p, endpoints st !! i = Some e → health e = Some t → lb_health st = Some p →
        out_until (now_ms clk) (tracker_at lb t) →
        fail_open_picks lb' = add_u64 (fail_open_picks lb) 1
  end.
Proof.
  destruct (health_candidates_run st clk lb Hne) as (lb1 & cand & E1 & Hp & _ & Hout).
  destruct (locality_candidates_gives st cand Hp Hloc lb1) as (lb2 & r & E2 & F2 & Hr).
  assert (Ech : choose st clk key lb =
    match r with
    | None => Ok (lb2, None)
    | Some c => choose_among st clk key c lb2
    end).
  { unfold choose. destruct (endpoints st); [done|]. unfold mbind, M_bind. rewrite E1, E2. by destruct r. }
  rewrite Ech. destruct r as [c|]; [|by exists lb2, None].
  destruct Hr as [Hpc Hsub].
  destruct (choose_among_gives st c clk key Hpc Ht lb2) as (lb3 & r & E3 & F3 & i & -> & Hi).
  exists lb3, (Some i). split; [done|]. split.
  - destruct Hpc as (Hv & _). unfold valid in Hv. rewrite list.Forall_forall in Hv. by apply Hv.
  - intros e t p He Hh Hlh Ho. rewrite F3, F2. by eapply Hout, Hsub.
Qed.

(** ** When locality leaves nothing *)

Lemma wrr_empty st clk lb : smooth_weighted_rr st clk (Some []) lb = Err IndexOutOfBounds.
Proof. done. Qed.

Lemma mark_nil set : mark set [] = Ok set.
Proof. done. Qed.

Lemma find_none_eligible n (l : ring) : Forall (λ x, x.2 < n)%nat l →
  find_eligible (Some (replicate n false)) l = Ok None.
Proof.
  induction 1 as [|[k i] l Hi Hl IH]; [done|]. simpl in *.
  rewrite (at_index_ok _ _ false) by (by apply lookup_replicate_2). done.
Qed.

Lemma probe_none_eligible n table start offsets : table ≠ [] → Forall (λ i, i < n)%nat table →
  probe_table table (replicate n false) start offsets = Ok None.
Proof.
  intros Hne Ht. induction offsets as [|o offsets IH]; cbn [probe_table]; [done|].
  assert (Hlt : ((start + o) mod length table < length table)%nat)
    by (apply Nat.mod_upper_bound; destruct table; simpl; [done|lia]).
  destruct (lookup_lt_is_Some_2 _ _ Hlt) as [i Ei]. rewrite (at_index_ok _ _ _ Ei). cbn [mbind result_bind].
  rewrite (at_index_ok _ _ false); [done|]. apply lookup_replicate_2.
  rewrite list.Forall_forall in Ht. apply Ht. by eapply list_elem_of_lookup_2.
Qed.

Lemma range_tables h st : tables_ok st →
  Forall (λ x, x.2 < length (endpoints st))%nat (range_from h (lb_ring st)).
Proof.
  intros [Hr _]. rewrite list.Forall_forall in *. intros x [Hx _]%elem_of_range. by apply Hr.
Qed.

Lemma empty_pool_fails st clk key lb : endpoints st ≠ [] → tables_ok st →
  ∃ f, choose_among st clk key (Some []) lb = Err f.
Proof.
  intros Hne Ht. unfold choose_among, cand_len. simpl.
  assert (Hf : (0 <? length (endpoints st))%nat = true).
  { apply Nat.ltb_lt. destruct (endpoints st); simpl; [done|lia]. }
  rewrite Hf. unfold mbind, M_bind.
  assert (H : ∃ f, run_algorithm st clk (Some []) true key lb = Err f);
    [|destruct H as [f ->]; by exists f].
  unfold run_algorithm. destruct (algorithm st), key as [k|]; try (by eexists).
  - unfold fmap, M_fmap, mbind, M_bind, pick_ring, eligible_set. cbn [default id].
    rewrite mark_nil. unfold mbind, M_bind, lift. cbn [fmap result_fmap].
    rewrite find_none_eligible by (by apply range_tables).
    rewrite find_none_eligible by apply Ht. rewrite wrr_empty. by eexists.
  - unfold pick_maglev. destruct (maglev_table st) as [|i0 l0] eqn:Et; [by eexists|].
    assert (Htab : Forall (λ i, i < length (endpoints st))%nat (i0 :: l0)) by (rewrite <- Et; apply Ht).
    set (table := i0 :: l0) in *. assert (Htne : table ≠ []) by done. clearbody table.
    unfold mbind, M_bind. destruct (remainder _ _) as [start|f]; [|by eexists]. cbn [lift negb].
    unfold eligible_set. cbn [default id]. rewrite mark_nil. unfold lift.
    rewrite probe_none_eligible by done. unfold fmap, M_fmap, mbind, M_bind. rewrite wrr_empty. by eexists.
Qed.

(** A failover upstream whose endpoints are all in denied regions, with
    residency not enforced, panics on every pick made with a locality context,
    whatever the algorithm and the key. *)
Theorem failover_panics st clk key lb loc (Hne : endpoints st ≠ []) (Ht : tables_ok st)
    (Hl : locality st = Some loc) (Hctx : is_set (locality_ctx lb) = true)
    (Hm : mode loc = Failover) (He : enforce_data_residency loc = false)
    (Hnone : Forall (λ e, resident loc e = false) (endpoints st)) :
  ∃ f, choose st clk key lb = Err f.
Proof.
  destruct (health_candidates_run st clk lb Hne) as (lb1 & cand & E1 & (Hv & _ & Hp) & Hc & _).
  assert (E2 : locality_candidates st cand lb1 = Ok (lb1, Some (Some []))).
  { unfold locality_candidates. rewrite Hl. unfold mbind, M_bind, get, lift. rewrite Hc, Hctx.
    rewrite (failover_leaves_none _ _ _ _ Hv Hm He Hp); [done|].
    intros i _. unfold row_satisfies. destruct (endpoints st !! i) as [e|] eqn:Ei; [|done].
    rewrite list.Forall_forall in Hnone. apply Hnone. by eapply list_elem_of_lookup_2. }
  destruct (empty_pool_fails st clk key lb1 Hne Ht) as [f Ef]. exists f.
  unfold choose. destruct (endpoints st); [done|]. unfold mbind, M_bind. by rewrite E1, E2.
Qed.

(** A Maglev pick by key over all the endpoints changes nothing: in
    particular the trial slots of a half-open endpoint are never used up. *)
Theorem maglev_takes_no_slot st clk k lb i
    (Ha : algorithm st = MaglevHash) (Hn : length (endpoints st) ≠ 1%nat) (Ht : maglev_table st ≠ [])
    (Hi : maglev_table st !! Z.to_nat (key_hash k mod Z.of_nat (length (maglev_table st))) = Some i) :
  choose_among st clk (Some k) None lb = Ok (lb, Some i).
Proof.
  unfold choose_among, cand_len. rewrite (proj2 (Nat.eqb_neq _ _) Hn).
  unfold mbind, M_bind, run_algorithm, pick_maglev. rewrite Ha.
  destruct (maglev_table st) as [|i0 l0]; [done|]. cbn [negb].
  unfold mbind, M_bind, lift, remainder. cbn [length]. cbn [length] in Hi.
  by rewrite (at_index_ok _ _ _ Hi).
Qed.

(** * Runs on concrete upstreams *)

Definition clock0 : Clock := MkClock 0 0 0.
Definition located (a : string) (r : string) : Endpoint :=
  EndpointConfig (Maglev.Endpoint a 80 1) (Some r) None.

(** A balancer with the given endpoints, seen from the region "eu". *)
Definition lb_in_eu (eps : list Endpoint) (params : option HealthParams) (loc : UpstreamLocality)
    : UpstreamLb :=
  match new_lb 0 clock0 7 eps RoundRobin 0 params None (Some loc) with
  | Ok lb => set_locality_context (LContext (Some "eu"%string) None) lb
  | Err _ => unbuilt 7
  end.

(** Traffic that must stay in the region "eu". *)
Definition eu_only : UpstreamLocality := ULocality Prefer true ["eu"%string] [].
Definition eu_us : list Endpoint := [located "10.0.0.1" "eu"; located "10.0.0.2" "us"].

(** The second request goes to the endpoint in "us". *)
Example eu_traffic_leaves :
  match each (λ c, pick c None) [clock0; clock0] (lb_in_eu eu_us None eu_only) with
  | Ok (_, picks) => picks = [Some 0%nat; Some 1%nat]
  | Err _ => False
  end.
Proof. vm_compute. reflexivity. Qed.

(** One endpoint is ejected, the other takes the request. *)
Definition prefer_eu : UpstreamLocality := ULocality Prefer false [] [].
Definition one_out : UpstreamLb :=
  on_tracker (λ _, sample_ejected) 0 (lb_in_eu eu_us (Some sample_params) prefer_eu).

Lemma pick_sound_witness :
  out_until 0 (tracker_at one_out 0) ∧
  ∃ lb' r, choose (lb_state one_out) clock0 None one_out = Ok (lb', r) ∧ r = Some 1%nat.
Proof.
  split; [split; reflexivity|].
  destruct (pick_sound (lb_state one_out) clock0 None one_out) as (lb' & r & E & _).
  - discriminate.
  - split; constructor.
  - intros loc [= <-] (H & _). discriminate H.
  - exists lb', r. split; [exact E|]. vm_compute in E. injection E as _ <-. reflexivity.
Defined.

Definition no_us : UpstreamLocality := ULocality Failover false [] ["us"%string].
Definition us_only : list Endpoint := [located "10.0.0.2" "us"; located "10.0.0.3" "us"].

Lemma failover_panics_witness : ∃ f,
  choose (lb_state (lb_in_eu us_only None no_us)) clock0 (Some "10.9.9.9"%string)
    (lb_in_eu us_only None no_us) = Err f.
Proof.
  apply (failover_panics _ _ _ _ no_us);
    [discriminate|split; constructor|reflexivity|reflexivity|reflexivity|reflexivity|].
  repeat constructor.
Defined.

Definition two_slots : LbState :=
  MkState (endpoints (lb_state (lb_in_eu us_only None no_us))) MaglevHash 0 [] [0; 1]%nat None 0 None.

Lemma maglev_takes_no_slot_witness :
  choose_among two_slots clock0 (Some "k"%string) None (unbuilt 7) = Ok (unbuilt 7, Some 1%nat).
Proof.
  refine (maglev_takes_no_slot two_slots clock0 "k" (unbuilt 7) 1 _ _ _ _);
    [reflexivity|discriminate|discriminate|vm_compute; reflexivity].
Defined.
