(* ===== verification/Fairness.v ===== *)
(** Fairness of the smooth weighted round-robin of
    crates/dwara-core/src/dataplane/balance.rs: the accumulators never exceed
    their bounds, and every endpoint is picked in proportion to its weight. *)

From S2P Require Import Prelude JsNumber Hash Breaker Health Maglev Ring LbState Locality Balance.
Local Open Scope Z_scope.

(** * Sums *)

Fixpoint sumZ (l : list Z) : Z :=
  match l with
  | [] => 0
  | x :: l => x + sumZ l
  end.

Lemma sumZ_add l l' : length l = length l' → sumZ (zip_with Z.add l l') = sumZ l + sumZ l'.
Proof.
  revert l'. induction l as [|x l IH]; intros [|y l'] H; simpl in *; try done. rewrite IH; lia.
Qed.

Lemma sumZ_gt l b : Forall (λ x, - b < x) l → - b * Z.of_nat (length l) <= sumZ l.
Proof. induction 1; simpl; [lia|]. nia. Qed.

(** An element is bounded by the sum and the bound of the others. *)
Lemma sumZ_elem l b x : 0 <= b → Forall (λ x, - b < x) l → x ∈ l →
  x <= sumZ l + b * Z.of_nat (length l).
Proof.
  intros Hb Hl. induction Hl as [|y l Hy Hl IH]; [by intros H%elem_of_nil|].
  intros [->|Hx]%elem_of_cons; simpl.
  - pose proof (sumZ_gt l b Hl). nia.
  - specialize (IH Hx). nia.
Qed.

(** Smaller everywhere with the same sum: equal. *)
Lemma sumZ_eq l l' : Forall2 Z.le l l' → sumZ l = sumZ l' → l = l'.
Proof.
  assert (H : ∀ l l', Forall2 Z.le l l' → sumZ l <= sumZ l').
  { induction 1; simpl; lia. }
  induction 1 as [|x y l0 l0' Hxy Hl IH]; simpl; intros E; [done|].
  specialize (H _ _ Hl). assert (x = y) by lia. subst. f_equal. apply IH. lia.
Qed.

(** * Picks *)

Definition occurrences (i : nat) (picks : list nat) : Z :=
  Z.of_nat (length (List.filter (Nat.eqb i) picks)).

Lemma occurrences_snoc i picks b :
  occurrences i (picks ++ [b]) = occurrences i picks + (if (i =? b)%nat then 1 else 0).
Proof. unfold occurrences. rewrite List.filter_app, length_app. simpl. case_match; simpl; lia. Qed.

Lemma sum_indicator b i n : (i <= b < i + n)%nat →
  sumZ (map (λ j, if (j =? b)%nat then 1 else 0) (seq i n)) = 1.
Proof.
  assert (H0 : ∀ n i, (b < i)%nat → sumZ (map (λ j, if (j =? b)%nat then 1 else 0) (seq i n)) = 0).
  { intros m. induction m as [|m IH]; intros j H; simpl; [done|]. rewrite IH by lia.
    destruct (Nat.eqb_spec j b); lia. }
  revert i. induction n as [|n IH]; intros i H; [lia|]. simpl. destruct (Nat.eqb_spec i b).
  - rewrite H0 by lia. lia.
  - rewrite IH by lia. lia.
Qed.

(** Every pick is of some endpoint. *)
Lemma sum_occurrences picks n : Forall (λ b, b < n)%nat picks →
  sumZ (map (λ i, occurrences i picks) (seq 0 n)) = Z.of_nat (length picks).
Proof.
  induction picks as [|b picks IH] using rev_ind; intros H.
  - generalize (seq 0 n). intros l. induction l as [|i l IHl]; [done|]. exact IHl.
  - apply Forall_app in H as [H Hb]. apply list.Forall_cons in Hb as [Hb _].
    assert (E : ∀ l, sumZ (map (λ i, occurrences i (picks ++ [b])) l) =
      sumZ (map (λ i, occurrences i picks) l) + sumZ (map (λ j, if (j =? b)%nat then 1 else 0) l)).
    { intros l. induction l as [|j l IHl]; simpl; [done|]. rewrite IHl, occurrences_snoc. lia. }
    rewrite E, IH, sum_indicator by (done || lia). rewrite length_app. simpl. lia.
Qed.

(** * One pick *)

Section wrr.
Context (st : LbState) (ws : list Z).

Definition currents (lb : UpstreamLb) : list Z :=
  map (λ e, current_weight (cell_at lb (cell e))) (endpoints st).

(** The rows have cells of their own. *)
Definition separate (lb : UpstreamLb) : Prop :=
  NoDup (map cell (endpoints st)) ∧ Forall (λ e, cell e < length (cells lb))%nat (endpoints st).

(** The weights of a pick at [clk]. *)
Definition weighs (lb : UpstreamLb) (clk : Clock) : Prop :=
  Forall2 (λ e w, pick_weight st clk lb e = w) (endpoints st) ws.

(** Only accumulators changed. *)
Definition same_but_cells (lb lb' : UpstreamLb) : Prop :=
  trackers lb' = trackers lb ∧ lb_state lb' = lb_state lb ∧ length (cells lb') = length (cells lb).

Lemma pick_weight_trackers clk lb lb' e : trackers lb' = trackers lb →
  pick_weight st clk lb' e = pick_weight st clk lb e.
Proof. intros H. unfold pick_weight, recovery_ramp_factor, tracker_at. by rewrite H. Qed.

Lemma weighs_same lb lb' clk : trackers lb' = trackers lb → weighs lb clk → weighs lb' clk.
Proof.
  intros H Hw. eapply list.Forall2_impl; [exact Hw|]. intros e w <-. by apply pick_weight_trackers.
Qed.

Lemma same_trans lb lb' lb'' :
  same_but_cells lb lb' → same_but_cells lb' lb'' → same_but_cells lb lb''.
Proof. intros (H1 & H2 & H3) (H1' & H2' & H3'). split_and!; congruence. Qed.

Lemma separate_same lb lb' : same_but_cells lb lb' → separate lb → separate lb'.
Proof. intros (_ & _ & Hl) [Hn Hc]. split; [done|]. by rewrite Hl. Qed.

Lemma set_current_same x c lb : same_but_cells lb (on_cell (set_current x) c lb).
Proof. split_and!; [done|done|]. unfold on_cell. simpl. apply length_alter. Qed.

Lemma currents_set lb i e x : separate lb → endpoints st !! i = Some e →
  currents (on_cell (set_current x) (cell e) lb) = <[i := x]> (currents lb).
Proof.
  intros [Hn Hc] He. apply list_eq. intros j. unfold currents.
  assert (Hlt : (cell e < length (cells lb))%nat) by (rewrite list.Forall_forall in Hc; by apply Hc, list_elem_of_lookup_2 with i).
  destruct (decide (j = i)) as [->|Hne].
  - rewrite list_lookup_insert_eq by (rewrite length_map; by eapply lookup_lt_Some).
    rewrite list_lookup_fmap, He. simpl. f_equal. unfold cell_at, on_cell. simpl.
    rewrite list_lookup_alter_eq. destruct (lookup_lt_is_Some_2 _ _ Hlt) as [c Hc']. by rewrite Hc'.
  - rewrite list_lookup_insert_ne by done. rewrite !list_lookup_fmap.
    destruct (endpoints st !! j) as [e'|] eqn:Ej; [|done]. simpl. f_equal. unfold cell_at, on_cell. simpl.
    rewrite list_lookup_alter_ne; [done|]. intros E. apply Hne.
    eapply (NoDup_lookup (map cell (endpoints st))); [done| |].
    + by rewrite list_lookup_fmap, Ej.
    + rewrite list_lookup_fmap, He. simpl. congruence.
Qed.

Lemma wrap_small z : - 2 ^ 63 <= z < 2 ^ 63 → wrap_i64 z = z.
Proof. intros H. unfold wrap_i64. rewrite Z.mod_small; lia. Qed.

Definition small (z : Z) : Prop := - 2 ^ 63 <= z < 2 ^ 63.

Lemma wrr_visit_run clk lb i sc e c w : separate lb → weighs lb clk →
  endpoints st !! i = Some e → currents lb !! i = Some c → ws !! i = Some w →
  small (c + w) → small (total sc + w) →
  wrr_visit st clk None i sc lb =
    Ok (on_cell (set_current (c + w)) (cell e) lb,
        if best_cw sc <? c + w then Scan (total sc + w) i (c + w)
        else Scan (total sc + w) (best sc) (best_cw sc)).
Proof.
  intros Hs Hw He Hc Hws Hsm Ht. unfold wrr_visit, row_at, at_index. simpl.
  unfold mbind, M_bind, lift, get, modify, mret, M_ret, resolve. rewrite He.
  assert (Ew : pick_weight st clk lb e = w)
    by (eapply (Forall2_lookup_lr _ _ _ _ _ _ Hw); done).
  assert (Ec : current_weight (cell_at lb (cell e)) = c).
  { unfold currents in Hc. rewrite list_lookup_fmap, He in Hc. by injection Hc. }
  by rewrite Ew, Ec, !wrap_small.
Qed.

(** What the loop has done from index [i] on. *)
Definition looped (i : nat) (lb lb' : UpstreamLb) (sc sc' : scan) : Prop :=
  same_but_cells lb lb' ∧
  currents lb' = take i (currents lb) ++ zip_with Z.add (drop i (currents lb)) (drop i ws) ∧
  total sc' = total sc + sumZ (drop i ws) ∧
  best_cw sc <= best_cw sc' ∧
  (sc' = Scan (total sc') (best sc) (best_cw sc) ∨ currents lb' !! best sc' = Some (best_cw sc')) ∧
  ∀ j c, (i <= j)%nat → currents lb' !! j = Some c → c <= best_cw sc'.

Lemma wrr_loop_run clk k i lb sc : separate lb → weighs lb clk → Forall (λ w, 0 <= w) ws →
  (i + k = length ws)%nat → 0 <= total sc → total sc + sumZ (drop i ws) < 2 ^ 63 →
  Forall small (zip_with Z.add (drop i (currents lb)) (drop i ws)) →
  ∃ lb' sc', wrr_loop st clk None (seq i k) sc lb = Ok (lb', sc') ∧ looped i lb lb' sc sc'.
Proof.
  revert i lb sc. induction k as [|k IH]; intros i lb sc Hs Hw H0 Hik Ht Htot Hsm.
  { exists lb, sc. split; [done|]. unfold looped.
    assert (Hl : length (currents lb) = length ws).
    { unfold currents. rewrite length_map. by eapply Forall2_length. }
    rewrite !drop_ge, take_ge by lia. simpl. rewrite app_nil_r.
    split_and!; [by repeat split|done|lia|lia|left; by destruct sc|].
    intros j c Hj Hc%lookup_lt_Some. lia. }
  assert (Hl : length (endpoints st) = length ws) by (by eapply Forall2_length).
  destruct (lookup_lt_is_Some_2 (endpoints st) i) as [e He]; [lia|].
  destruct (lookup_lt_is_Some_2 ws i) as [w Hwi]; [lia|].
  set (c := current_weight (cell_at lb (cell e))).
  assert (Hc : currents lb !! i = Some c) by (unfold currents; by rewrite list_lookup_fmap, He).
  assert (Hw0 : 0 <= w) by (rewrite list.Forall_forall in H0; apply H0, list_elem_of_lookup; eauto).
  assert (Hdrop : drop i ws = w :: drop (S i) ws) by (by apply drop_S).
  assert (Hd0 : 0 <= sumZ (drop (S i) ws)).
  { assert (Hd : Forall (λ w, 0 <= w) (drop (S i) ws)) by (by apply Forall_drop).
    clear -Hd. induction Hd; simpl; lia. }
  assert (Hdropc : drop i (currents lb) = c :: drop (S i) (currents lb)) by (by apply drop_S).
  rewrite Hdrop in Htot, Hsm. rewrite Hdropc in Hsm. simpl in Htot, Hsm.
  apply list.Forall_cons in Hsm as [Hcw Hsm].
  set (lb1 := on_cell (set_current (c + w)) (cell e) lb).
  set (sc1 := if best_cw sc <? c + w then Scan (total sc + w) i (c + w)
              else Scan (total sc + w) (best sc) (best_cw sc)).
  assert (Hsame : same_but_cells lb lb1) by apply set_current_same.
  assert (Hcur : currents lb1 = <[i := c + w]> (currents lb)) by (by apply currents_set).
  assert (Ht1 : total sc1 = total sc + w) by (subst sc1; by case_match).
  destruct (IH (S i) lb1 sc1) as (lb' & sc' & Hrun & Hsame' & Hcur' & Htot' & Hge & Hbest & Hmax).
  - by eapply separate_same.
  - eapply weighs_same; [|done]. apply Hsame.
  - done.
  - lia.
  - lia.
  - lia.
  - by rewrite Hcur, drop_insert_lt by lia.
  - exists lb', sc'.
    assert (Hi : currents lb' !! i = Some (c + w)).
    { rewrite Hcur', Hcur. rewrite lookup_app_l.
      - rewrite lookup_take_lt by lia. apply list_lookup_insert_eq. by eapply lookup_lt_Some.
      - rewrite length_take, length_insert. apply lookup_lt_Some in Hc. lia. }
    split.
    { change (seq i (S k)) with (i :: seq (S i) k). cbn [wrr_loop].
      unfold mbind, M_bind. by rewrite (wrr_visit_run clk lb i sc e c w) by (done || unfold small; lia). }
    split_and!.
    + by eapply same_trans.
    + rewrite Hcur', Hcur, Hdropc, Hdrop, drop_insert_lt by lia. simpl.
      rewrite (take_S_r _ _ (c + w)) by (apply list_lookup_insert_eq; by eapply lookup_lt_Some).
      rewrite take_insert_ge by lia. by rewrite <- app_assoc.
    + rewrite Hdrop. simpl. lia.
    + subst sc1. destruct (Z.ltb_spec (best_cw sc) (c + w)); simpl in *; lia.
    + destruct Hbest as [Hb|Hb]; [|by right]. rewrite Hb in *. simpl in *. subst sc1.
      destruct (best_cw sc <? c + w); simpl in *; [right|by left]. exact Hi.
    + intros j x Hj Hx. destruct (decide (j = i)) as [->|]; [|apply (Hmax j x); [lia|done]].
      rewrite Hi in Hx. injection Hx as <-. subst sc1.
      destruct (Z.ltb_spec (best_cw sc) (c + w)); simpl in *; lia.
Qed.

(** One pick: every accumulator grows by its weight, the largest is picked and
    gives the total back. *)
Definition added (lb : UpstreamLb) : list Z := zip_with Z.add (currents lb) ws.

Lemma wrr_pick_run clk lb : separate lb → weighs lb clk → Forall (λ w, 1 <= w) ws →
  0 < sumZ ws < 2 ^ 63 → 0 < sumZ (added lb) →
  Forall (λ x, small x ∧ small (x - sumZ ws)) (added lb) →
  ∃ lb' b, smooth_weighted_rr st clk None lb = Ok (lb', b) ∧ same_but_cells lb lb' ∧
    (b < length ws)%nat ∧ currents lb' = alter (λ x, x + - sumZ ws) b (added lb) ∧
    ∃ cb, added lb !! b = Some cb ∧ 0 < cb.
Proof.
  intros Hs Hw H1 HW Hpos Hsm.
  assert (Hl : length (endpoints st) = length ws) by (by eapply Forall2_length).
  assert (H0 : Forall (λ w, 0 <= w) ws) by (eapply list.Forall_impl; [exact H1|simpl; lia]).
  assert (Hsm' : Forall small (added lb)) by (eapply list.Forall_impl; [exact Hsm|by intros ? [??]]).
  destruct (wrr_loop_run clk (length ws) 0 lb (Scan 0 0 (- 2 ^ 63))) as (lb1 & sc & Hrun & Hloop);
    try done; [rewrite drop_0; simpl; lia|].
  destruct Hloop as (Hsame & Hcur & Htot & _ & Hbest & Hmax). simpl in Hcur, Htot.
  rewrite !drop_0 in Hcur. rewrite drop_0 in Htot. fold (added lb) in Hcur.
  assert (Hp : ∃ j c, added lb !! j = Some c ∧ 0 < c).
  { clear -Hpos. induction (added lb) as [|x l IH]; simpl in Hpos; [lia|].
    destruct (Z.lt_ge_cases 0 x); [by exists 0%nat, x|].
    destruct IH as (j & c & ? & ?); [lia|]. by exists (S j), c. }
  destruct Hp as (j & c & Hj & Hc0).
  assert (Hcb : c <= best_cw sc) by (apply (Hmax j); [lia|by rewrite Hcur]).
  destruct Hbest as [Hb|Hb]; [rewrite Hb in Hcb; simpl in Hcb; lia|]. rewrite Hcur in Hb.
  assert (Hlt : (best sc < length ws)%nat).
  { apply lookup_lt_Some in Hb. unfold added in Hb. rewrite length_zip_with in Hb. lia. }
  destruct (lookup_lt_is_Some_2 (endpoints st) (best sc)) as [e He]; [lia|].
  assert (Hcell : current_weight (cell_at lb1 (cell e)) = best_cw sc).
  { unfold currents in Hcur. apply (f_equal (.!! best sc)) in Hcur.
    rewrite list_lookup_fmap, He, Hb in Hcur. by injection Hcur. }
  exists (on_cell (set_current (best_cw sc + - sumZ ws)) (cell e) lb1), (best sc). split.
  { unfold smooth_weighted_rr, mbind, M_bind, lift, resolve, cand_len. rewrite Hl, Hrun.
    destruct (Z.leb_spec (total sc) 0); [lia|]. unfold row_at, at_index. rewrite He.
    unfold get, modify, mret, M_ret. rewrite Hcell, Htot, Z.add_0_l, wrap_small; [done|].
    rewrite list.Forall_forall in Hsm. apply (Hsm (best_cw sc)). by apply list_elem_of_lookup_2 with (best sc). }
  split; [eapply same_trans; [done|apply set_current_same]|]. split; [done|]. split.
  - rewrite (currents_set lb1 (best sc)), Hcur by (done || by eapply separate_same).
    apply list_eq. intros k. destruct (decide (k = best sc)) as [->|Hne].
    + rewrite list_lookup_alter_eq, Hb. apply list_lookup_insert_eq. by eapply lookup_lt_Some.
    + by rewrite list_lookup_alter_ne, list_lookup_insert_ne by done.
  - exists (best_cw sc). split; [done|lia].
Qed.

(** ** Runs *)

(** The accumulators after the given picks. *)
Definition phases (picks : list nat) : list Z :=
  imap (λ i w, Z.of_nat (length picks) * w - sumZ ws * occurrences i picks) ws.

Lemma phases_snoc picks b :
  phases (picks ++ [b]) = alter (λ x, x + - sumZ ws) b (zip_with Z.add (phases picks) ws).
Proof.
  apply list_eq. intros i. unfold phases. rewrite list_lookup_imap.
  destruct (decide (b = i)) as [->|Hne];
    rewrite ?list_lookup_alter_eq, ?list_lookup_alter_ne by done;
    rewrite lookup_zip_with, list_lookup_imap; destruct (ws !! i) as [w|]; simpl; try done; f_equal;
    rewrite occurrences_snoc, length_app; simpl.
  - rewrite Nat.eqb_refl. lia.
  - destruct (Nat.eqb_spec i b); [congruence|]. lia.
Qed.

Lemma length_phases picks : length (phases picks) = length ws.
Proof. apply length_imap. Qed.

Lemma sum_phases picks : Forall (λ b, b < length ws)%nat picks → sumZ (phases picks) = 0.
Proof.
  intros Hp. assert (E : sumZ (phases picks) =
    Z.of_nat (length picks) * sumZ ws
    - sumZ ws * sumZ (map (λ i, occurrences i picks) (seq 0 (length ws)))).
  { assert (G : ∀ m W (l : list Z) k,
      sumZ (imap (λ i w, m * w - W * occurrences (k + i) picks) l) =
      m * sumZ l - W * sumZ (map (λ i, occurrences i picks) (seq k (length l)))).
    { intros m W l. induction l as [|w l IH]; intros k; simpl; [lia|]. rewrite Nat.add_0_r.
      rewrite (imap_ext _ (λ i w, m * w - W * occurrences (S k + i) picks)), IH; [lia|].
      intros i x _. simpl. by rewrite Nat.add_succ_r. }
    exact (G (Z.of_nat (length picks)) (sumZ ws) ws 0%nat). }
  rewrite E, sum_occurrences by done. lia.
Qed.

(** What every run of picks keeps. *)
Definition fair (lb : UpstreamLb) (picks : list nat) : Prop :=
  separate lb ∧ currents lb = phases picks ∧ Forall (λ b, b < length ws)%nat picks ∧
  Forall (λ x, - sumZ ws < x) (phases picks).

Lemma fair_pick clk lb picks : fair lb picks → weighs lb clk → Forall (λ w, 1 <= w) ws →
  ws ≠ [] → sumZ ws * Z.of_nat (length ws + 2) < 2 ^ 63 →
  ∃ lb' b, smooth_weighted_rr st clk None lb = Ok (lb', b) ∧ same_but_cells lb lb' ∧
    fair lb' (picks ++ [b]).
Proof.
  intros (Hs & Hcur & Hp & Hlow) Hw H1 Hne Hbig.
  assert (Hge : ∀ w, w ∈ ws → 1 <= w <= sumZ ws).
  { clear -H1. induction H1 as [|w l Hw Hl IH]; [by intros w H%elem_of_nil|].
    assert (0 <= sumZ l) by (clear -Hl; induction Hl; simpl; lia).
    intros x [->|Hx]%elem_of_cons; simpl; [lia|]. specialize (IH x Hx). lia. }
  assert (HW : 0 < sumZ ws).
  { destruct ws as [|w l]; [done|]. assert (H : 1 <= w <= sumZ (w :: l)) by (apply Hge; left). lia. }
  assert (Hlen : Z.of_nat (length ws) > 0) by (destruct ws; simpl; [done|lia]).
  assert (Hsum : sumZ (added lb) = sumZ ws).
  { unfold added. rewrite sumZ_add by (rewrite Hcur; apply length_phases).
    rewrite Hcur, sum_phases by done. lia. }
  assert (Hadd : Forall (λ x, - sumZ ws < x - 1 ∧ x <= sumZ ws * Z.of_nat (length ws) + sumZ ws) (added lb)).
  { unfold added. rewrite Hcur. apply list.Forall_forall. intros x Hx.
    apply elem_of_zip_with in Hx as (c & w & -> & Hc & Hw'). specialize (Hge w Hw').
    assert (Hup : c <= sumZ (phases picks) + sumZ ws * Z.of_nat (length (phases picks)))
      by (apply sumZ_elem; [lia|done|done]).
    rewrite sum_phases, length_phases in Hup by done.
    rewrite list.Forall_forall in Hlow. specialize (Hlow c Hc). lia. }
  destruct (wrr_pick_run clk lb) as (lb' & b & Hrun & Hsame & Hb & Hcur' & cb & Hcb & Hpos); try done.
  - split; [lia|nia].
  - lia.
  - eapply list.Forall_impl; [exact Hadd|]. simpl. intros x [Hx Hx']. unfold small. nia.
  - exists lb', b. split; [done|]. split; [done|].
    assert (Hph : currents lb' = phases (picks ++ [b])).
    { rewrite Hcur', phases_snoc. unfold added. by rewrite Hcur. }
    split_and!; [by eapply separate_same|done|by apply list.Forall_app_2; [|by apply list.Forall_singleton]|].
    rewrite <- Hph, Hcur'. apply Forall_lookup. intros i x Hi.
    destruct (decide (b = i)) as [<-|Hne'].
    + rewrite list_lookup_alter_eq, Hcb in Hi. injection Hi as <-. lia.
    + rewrite list_lookup_alter_ne in Hi by done. rewrite list.Forall_forall in Hadd.
      destruct (Hadd x) as [? _]; [by eapply list_elem_of_lookup_2|lia].
Qed.
End wrr.

(** * Picks of the balancer *)

(** A balancer that only rotates. *)
Definition rotates (st : LbState) : Prop :=
  algorithm st = RoundRobin ∧ lb_health st = None ∧ locality st = None ∧
  (2 <= length (endpoints st))%nat.

Lemma pick_rotates lb clk key : rotates (lb_state lb) →
  pick clk key lb =
    match smooth_weighted_rr (lb_state lb) clk None lb with
    | Ok (lb', i) => Ok (lb', Some i)
    | Err e => Err e
    end.
Proof.
  intros (Ha & Hh & Hl & Hn). unfold pick, choose, get, mbind, M_bind.
  destruct (endpoints (lb_state lb)) as [|e [|e' l]] eqn:E; simpl in Hn; try lia.
  unfold health_candidates, locality_candidates. rewrite Hh, Hl.
  unfold mret, M_ret, choose_among, cand_len, run_algorithm. rewrite E, Ha. simpl.
  unfold fmap, M_fmap, mbind, M_bind. destruct (smooth_weighted_rr _ _ _ lb) as [[lb' i]|]; [|done].
  unfold mret, M_ret. by rewrite Hh.
Qed.

Definition pick_all (reqs : list (Clock * option string)) : M (list (option nat)) :=
  each (λ r, pick r.1 r.2) reqs.

Lemma pick_all_fair st ws reqs lb picks : lb_state lb = st → rotates st →
  fair st ws lb picks → Forall (λ r, weighs st ws lb r.1) reqs → Forall (λ w, 1 <= w) ws →
  sumZ ws * Z.of_nat (length ws + 2) < 2 ^ 63 →
  ∃ lb' more, pick_all reqs lb = Ok (lb', map Some more) ∧ length more = length reqs ∧
    fair st ws lb' (picks ++ more).
Proof.
  intros Hst Hrot Hf Hw H1 Hbig. revert lb picks Hst Hf Hw.
  induction reqs as [|[clk key] reqs IH]; intros lb picks Hst Hf Hw.
  { exists lb, []. rewrite app_nil_r. by split_and!. }
  apply list.Forall_cons in Hw as [Hw Hws]. simpl in Hw.
  assert (Hne : ws ≠ []).
  { apply Forall2_length in Hw. destruct Hrot as (_ & _ & _ & ?). intros ->. simpl in *. lia. }
  destruct (fair_pick st ws clk lb picks) as (lb1 & b & Hrun & Hsame & Hf1); try done.
  destruct (IH lb1 (picks ++ [b])) as (lb2 & more & Hrun2 & Hlen & Hf2).
  - destruct Hsame as (_ & -> & _). done.
  - done.
  - eapply list.Forall_impl; [exact Hws|]. intros r. simpl. apply weighs_same. apply Hsame.
  - exists lb2, (b :: more). split_and!; [|simpl; by f_equal|by rewrite <- app_assoc in Hf2].
    unfold pick_all in *. cbn [each fst snd]. unfold mbind, M_bind.
    rewrite pick_rotates by (by rewrite Hst). rewrite Hst, Hrun, Hrun2. done.
Qed.

Lemma fair_counts st ws lb picks : fair st ws lb picks → ws ≠ [] →
  (∀ i w, ws !! i = Some w →
     sumZ ws * occurrences i picks < Z.of_nat (length picks) * w + sumZ ws) ∧
  ∀ k, Z.of_nat (length picks) = k * sumZ ws → 0 < sumZ ws →
    (∀ i w, ws !! i = Some w → occurrences i picks = k * w) ∧ Forall (λ x, x = 0) (currents st lb).
Proof.
  intros (_ & Hcur & Hp & Hlow) Hne.
  assert (Hph : ∀ i w, ws !! i = Some w →
    - sumZ ws < Z.of_nat (length picks) * w - sumZ ws * occurrences i picks).
  { intros i w Hi. rewrite list.Forall_forall in Hlow. apply Hlow, list_elem_of_lookup. exists i.
    unfold phases. by rewrite list_lookup_imap, Hi. }
  split; [intros i w Hi; specialize (Hph i w Hi); lia|].
  intros k Hk HW.
  assert (E : map (λ i, occurrences i picks) (seq 0 (length ws)) = map (λ w, k * w) ws).
  { apply sumZ_eq.
    - apply Forall2_fmap_2, Forall2_same_length_lookup_2; [by rewrite length_seq|].
      intros i j w Hj Hi. apply lookup_seq in Hj as [-> _]. simpl. specialize (Hph i w Hi). nia.
    - rewrite sum_occurrences, Hk by done. clear. induction ws as [|w l IH]; simpl; lia. }
  assert (Hocc : ∀ i w, ws !! i = Some w → occurrences i picks = k * w).
  { intros i w Hi. apply (f_equal (.!! i)) in E. rewrite !list_lookup_fmap, Hi in E.
    rewrite lookup_seq_lt in E by (by eapply lookup_lt_Some). by injection E. }
  split; [done|]. rewrite Hcur. apply Forall_lookup. intros i x Hx. unfold phases in Hx.
  rewrite list_lookup_imap in Hx. destruct (ws !! i) as [w|] eqn:Hi; [|done]. injection Hx as <-.
  rewrite (Hocc i w Hi). lia.
Qed.

(** C23: smooth weighted round-robin is fair: from rest, whatever the keys, no
    pick fails, an endpoint never gets a whole pick more than its share so
    far, and over any whole number of periods (the sum of the weights) every
    endpoint is picked exactly its weight many times per period, after which
    the balancer is at rest again. *)
Theorem wrr_fair lb ws reqs
    (Hrot : rotates (lb_state lb)) (Hsep : separate (lb_state lb) lb)
    (Hrest : Forall (λ x, x = 0) (currents (lb_state lb) lb))
    (Hw : Forall (λ r, weighs (lb_state lb) ws lb r.1) reqs)
    (Hlen : length ws = length (endpoints (lb_state lb))) (H1 : Forall (λ w, 1 <= w) ws)
    (Hbig : sumZ ws * Z.of_nat (length ws + 2) < 2 ^ 63) :
  ∃ lb' picks, pick_all reqs lb = Ok (lb', map Some picks) ∧ length picks = length reqs ∧
  (∀ i w, ws !! i = Some w →
     sumZ ws * occurrences i picks < Z.of_nat (length picks) * w + sumZ ws) ∧
  ∀ k, Z.of_nat (length picks) = k * sumZ ws →
    (∀ i w, ws !! i = Some w → occurrences i picks = k * w) ∧
    Forall (λ x, x = 0) (currents (lb_state lb) lb').
Proof.
  assert (Hne : ws ≠ []).
  { destruct Hrot as (_ & _ & _ & ?). intros ->. simpl in *. lia. }
  assert (HW : 0 < sumZ ws).
  { destruct H1 as [|w l Hw1 Hl]; [done|]. simpl. clear -Hw1 Hl.
    assert (0 <= sumZ l) by (induction Hl; simpl; lia). lia. }
  destruct (pick_all_fair (lb_state lb) ws reqs lb []) as (lb' & picks & Hrun & Hl & Hf); try done.
  - split_and!; [done| |done|].
    + apply list_eq_same_length with (length ws); [by rewrite length_phases| |].
      { unfold currents. by rewrite length_map. }
      intros i x y Hi Hx Hy. rewrite list.Forall_forall in Hrest.
      rewrite (Hrest x) by (by eapply list_elem_of_lookup_2). unfold phases in Hy.
      rewrite list_lookup_imap in Hy. destruct (ws !! i); [|done]. injection Hy as <-. 
      unfold occurrences. simpl. lia.
    + apply Forall_lookup. intros i x Hx. unfold phases in Hx. rewrite list_lookup_imap in Hx.
      destruct (ws !! i); [|done]. injection Hx as <-. unfold occurrences. simpl. lia.
  - exists lb', picks. destruct (fair_counts _ _ _ _ Hf Hne) as [H2 H3]. split_and!; try done.
    intros k Hk. by apply H3.
Qed.

(** Three endpoints of weights 5, 1 and 2. *)
Definition sample_clock : Clock := MkClock 0 0 0.
Definition sample_endpoints : list Endpoint :=
  [EndpointConfig (Maglev.Endpoint "10.0.0.1" 80 5) None None;
   EndpointConfig (Maglev.Endpoint "10.0.0.2" 80 1) None None;
   EndpointConfig (Maglev.Endpoint "10.0.0.3" 80 2) None None].
Definition sample_lb : UpstreamLb :=
  match new_lb 0 sample_clock 7 sample_endpoints RoundRobin 0 None None None with
  | Ok lb => lb
  | Err _ => unbuilt 7
  end.

Lemma wrr_fair_witness : ∃ lb' picks,
  pick_all (replicate 8 (sample_clock, Some "10.9.9.9"%string)) sample_lb = Ok (lb', map Some picks) ∧
  occurrences 0 picks = 5 ∧ occurrences 1 picks = 1 ∧ occurrences 2 picks = 2.
Proof.
  destruct (wrr_fair sample_lb [5; 1; 2] (replicate 8 (sample_clock, Some "10.9.9.9"%string)))
    as (lb' & picks & Hrun & Hlen & _ & Hk).
  - split; [reflexivity|]. split; [reflexivity|]. split; [reflexivity|]. apply Nat.leb_le. reflexivity.
  - split; [|apply (bool_decide_unpack _); vm_compute; exact I].
    apply (bool_decide_unpack _); vm_compute; exact I.
  - apply (bool_decide_unpack _); vm_compute; exact I.
  - simpl. repeat (apply list.Forall_cons_2; [repeat constructor; vm_compute; reflexivity|]). constructor.
  - reflexivity.
  - repeat constructor; lia.
  - simpl. lia.
  - exists lb', picks. split; [exact Hrun|].
    destruct (Hk 1) as [Hocc _]; [rewrite Hlen; reflexivity|].
    split; [exact (Hocc 0%nat 5 eq_refl)|]. split; [exact (Hocc 1%nat 1 eq_refl)|exact (Hocc 2%nat 2 eq_refl)].
Defined.
