(* ===== verification/Inflight.v ===== *)
(** In-flight accounting of the load balancer
    (crates/dwara-core/src/dataplane/balance.rs): across picks, guards that are
    dropped and rebuilds of the endpoint set, every counter is the number of
    guards that are out on it. *)

From S2P Require Import Prelude JsNumber Hash Breaker Health Maglev Ring LbState Locality Balance.
Local Open Scope Z_scope.

(** * Computations that leave the counters alone *)

Definition counters (lb : UpstreamLb) : list Z := map inflight (cells lb).

Definition quiet {A} (m : M A) : Prop := ∀ lb,
  match m lb with
  | Ok (lb', _) => counters lb' = counters lb ∧ lb_state lb' = lb_state lb
  | Err _ => True
  end.

Lemma quiet_ret {A} (a : A) : quiet (mret a).
Proof. by intros lb. Qed.

Lemma quiet_bind {A B} (m : M A) (f : A → M B) : quiet m → (∀ a, quiet (f a)) → quiet (m ≫= f).
Proof.
  intros Hm Hf lb. unfold mbind, M_bind. specialize (Hm lb). destruct (m lb) as [[lb1 a]|]; [|done].
  specialize (Hf a lb1). destruct (f a lb1) as [[lb2 b]|]; [|done]. destruct Hm, Hf. split; congruence.
Qed.

Lemma quiet_fmap {A B} (m : M A) (f : A → B) : quiet m → quiet (f <$> m).
Proof. intros Hm. apply quiet_bind; [done|]. intros a. apply quiet_ret. Qed.

Lemma quiet_lift {A} (r : result fault A) : quiet (lift r).
Proof. intros lb. unfold lift. by destruct r. Qed.

Lemma quiet_get : quiet get.
Proof. by intros lb. Qed.

Lemma quiet_modify f : (∀ lb, counters (f lb) = counters lb ∧ lb_state (f lb) = lb_state lb) →
  quiet (modify f).
Proof. intros H lb. exact (H lb). Qed.

Lemma counters_current w c lb : counters (on_cell (set_current w) c lb) = counters lb.
Proof.
  unfold counters, on_cell. simpl. apply list_eq. intros i. rewrite !list_lookup_fmap.
  destruct (decide (c = i)) as [->|Hne]; [rewrite list_lookup_alter_eq|by rewrite list_lookup_alter_ne].
  by destruct (cells lb !! i).
Qed.

Create HintDb quiet discriminated.
#[export] Hint Resolve quiet_ret quiet_lift quiet_get : quiet.

Ltac keep := repeat first
  [ solve [auto with quiet] | apply quiet_bind; [|intros ?] | apply quiet_fmap | progress cbv zeta | case_goal
  | apply quiet_modify; intros ?; split; [apply counters_current || done|done] ].

Lemma wrr_visit_quiet st clk cand i sc : quiet (wrr_visit st clk cand i sc).
Proof. unfold wrr_visit. keep. Qed.
#[export] Hint Resolve wrr_visit_quiet : quiet.

Lemma wrr_loop_quiet st clk cand ixs sc : quiet (wrr_loop st clk cand ixs sc).
Proof. revert sc. induction ixs as [|i ixs IH]; intros sc; cbn [wrr_loop]; keep. Qed.
#[export] Hint Resolve wrr_loop_quiet : quiet.

Lemma wrr_quiet st clk cand : quiet (smooth_weighted_rr st clk cand).
Proof. unfold smooth_weighted_rr. keep. Qed.
#[export] Hint Resolve wrr_quiet : quiet.

Lemma ask_quiet params now e : quiet (ask params now e).
Proof. unfold ask. keep. Qed.
#[export] Hint Resolve ask_quiet : quiet.

Lemma available_quiet params now i eps : quiet (available params now i eps).
Proof. revert i. induction eps as [|e eps IH]; intros i; cbn [available]; keep. Qed.
#[export] Hint Resolve available_quiet : quiet.

Lemma health_candidates_quiet st clk : quiet (health_candidates st clk).
Proof. unfold health_candidates. keep. Qed.

Lemma locality_candidates_quiet st cand : quiet (locality_candidates st cand).
Proof. unfold locality_candidates. keep. Qed.

Lemma consume_quiet st i : quiet (consume st i).
Proof. unfold consume. keep. Qed.

Lemma next_rand_quiet : quiet next_rand.
Proof. unfold next_rand. keep. Qed.
#[export] Hint Resolve health_candidates_quiet locality_candidates_quiet consume_quiet next_rand_quiet : quiet.

Lemma pick_least_quiet st cand key : quiet (pick_least st cand key).
Proof. unfold pick_least. keep. Qed.
#[export] Hint Resolve pick_least_quiet : quiet.

Lemma run_algorithm_quiet st clk cand filtered key : quiet (run_algorithm st clk cand filtered key).
Proof.
  unfold run_algorithm, pick_maglev, pick_ring, pick_random.
  destruct (algorithm st), key; keep.
Qed.
#[export] Hint Resolve run_algorithm_quiet : quiet.

Lemma choose_quiet st clk key : quiet (choose st clk key).
Proof. unfold choose, choose_among. destruct (endpoints st); keep. Qed.

(** * Guards *)

(** How many guards are out on a cell. *)
Definition guards_on (c : nat) (guards : list nat) : Z := Z.of_nat (length (List.filter (Nat.eqb c) guards)).

Lemma guards_on_cons c g guards :
  guards_on c (g :: guards) = guards_on c guards + (if (c =? g)%nat then 1 else 0).
Proof. unfold guards_on. simpl. destruct (c =? g)%nat; simpl; lia. Qed.

Lemma guards_on_delete c i g guards : guards !! i = Some g →
  guards_on c guards = guards_on c (delete i guards) + (if (c =? g)%nat then 1 else 0).
Proof.
  intros Hi. rewrite <- (take_drop_middle _ _ _ Hi) at 1. rewrite delete_take_drop.
  unfold guards_on. rewrite !List.filter_app, !length_app. simpl. destruct (c =? g)%nat; simpl; lia.
Qed.

(** The operations that touch the counters; [Drop n] drops the [n]th guard. *)
Inductive op : Type :=
  | DoDispatch (clk : Clock) (key : option string)
  | DoAcquire (idx : nat)
  | DoPick (clk : Clock) (key : option string)
  | DoDrop (n : nat)
  | DoRebuild (fuel : nat) (clk : Clock) (eps : list Endpoint) (alg : LoadBalancer) (slow : Z)
      (params : option HealthParams) (cfg : option PeakEwmaConfig) (loc : option UpstreamLocality).

(** One operation on a balancer and the guards that are out. *)
Definition perform (o : op) (lb : UpstreamLb) (guards : list nat)
    : result fault (UpstreamLb * list nat) :=
  match o with
  | DoDispatch clk key =>
      r ← pick_for_dispatch clk key lb;
      Ok (r.1, match r.2 with Some d => d_guard d :: guards | None => guards end)
  | DoAcquire idx =>
      r ← acquire_inflight idx lb;
      Ok (r.1, match r.2 with Some g => g :: guards | None => guards end)
  | DoPick clk key => r ← pick clk key lb; Ok (r.1, guards)
  | DoDrop n =>
      match guards !! n with
      | None => Ok (lb, guards)
      | Some g => r ← drop_guard g lb; Ok (r.1, delete n guards)
      end
  | DoRebuild fuel clk eps alg slow params cfg loc =>
      r ← rebuild fuel clk eps alg slow params cfg loc lb; Ok (r.1, guards)
  end.

Fixpoint perform_all (os : list op) (lb : UpstreamLb) (guards : list nat)
    : result fault (UpstreamLb * list nat) :=
  match os with
  | [] => Ok (lb, guards)
  | o :: os => r ← perform o lb guards; perform_all os r.1 r.2
  end.

(** Every counter is the number of its guards; rows and guards point to cells. *)
Definition accounted (lb : UpstreamLb) (guards : list nat) : Prop :=
  Forall (λ e, cell e < length (cells lb))%nat (endpoints (lb_state lb)) ∧
  Forall (λ g, g < length (cells lb))%nat guards ∧
  ∀ c n, counters lb !! c = Some n → n = guards_on c guards mod 2 ^ 64.

Lemma length_counters lb : length (counters lb) = length (cells lb).
Proof. apply length_map. Qed.

Lemma accounted_quiet lb lb' guards : counters lb' = counters lb → lb_state lb' = lb_state lb →
  accounted lb guards → accounted lb' guards.
Proof.
  intros Hc Hs. unfold accounted. rewrite Hs, Hc.
  assert (Hl : length (cells lb') = length (cells lb)) by (by rewrite <- !length_counters, Hc).
  by rewrite Hl.
Qed.

Lemma counters_cell (f : Cell → Cell) (d : Z → Z) g lb :
  (∀ c, inflight (f c) = d (inflight c)) → counters (on_cell f g lb) = alter d g (counters lb).
Proof.
  intros Hf. unfold counters, on_cell. simpl. apply list_eq. intros i.
  destruct (decide (g = i)) as [->|Hne].
  - rewrite list_lookup_alter_eq, !list_lookup_fmap, list_lookup_alter_eq.
    destruct (cells lb !! i); simpl; [by rewrite Hf|done].
  - by rewrite list_lookup_alter_ne, !list_lookup_fmap, list_lookup_alter_ne.
Qed.

Lemma length_on_cell f g lb : length (cells (on_cell f g lb)) = length (cells lb).
Proof. unfold on_cell. simpl. apply length_alter. Qed.

(** A guard taken on a cell. *)
Lemma accounted_take lb g guards : (g < length (cells lb))%nat → accounted lb guards →
  accounted (on_cell add_inflight g lb) (g :: guards).
Proof.
  intros Hg (He & Hgs & Hc). unfold accounted. rewrite length_on_cell. split_and!; [done|by constructor|].
  rewrite (counters_cell _ (λ n, add_u64 n 1)) by done. intros c n Hn. rewrite guards_on_cons.
  destruct (Nat.eqb_spec c g) as [->|Hne].
  - rewrite list_lookup_alter_eq in Hn. destruct (counters lb !! g) as [m|] eqn:Em; [|done].
    injection Hn as <-. rewrite (Hc g m Em). unfold add_u64. by rewrite Zplus_mod_idemp_l.
  - rewrite list_lookup_alter_ne in Hn by done. rewrite Z.add_0_r. by apply Hc.
Qed.

(** A guard dropped. *)
Lemma accounted_drop lb i g guards : guards !! i = Some g → accounted lb guards →
  accounted (on_cell sub_inflight g lb) (delete i guards).
Proof.
  intros Hi (He & Hgs & Hc). unfold accounted. rewrite length_on_cell. split_and!; [done| |].
  { rewrite list.Forall_forall in *. intros x Hx. apply Hgs. rewrite delete_take_drop in Hx.
    rewrite <- (take_drop_middle _ _ _ Hi). apply elem_of_app in Hx as [?|?]; apply elem_of_app;
      [by left|right; by right]. }
  rewrite (counters_cell _ (λ n, (n - 1) mod 2 ^ 64)) by done. intros c n Hn.
  pose proof (guards_on_delete c i g guards Hi) as Hd. destruct (Nat.eqb_spec c g) as [->|Hne].
  - rewrite list_lookup_alter_eq in Hn. destruct (counters lb !! g) as [m|] eqn:Em; [|done].
    injection Hn as <-. rewrite (Hc g m Em), Zminus_mod_idemp_l. f_equal. lia.
  - rewrite list_lookup_alter_ne in Hn by done. rewrite (Hc c n Hn). f_equal. lia.
Qed.

(** ** Rebuilding *)

(** New cells, with nothing in flight. *)
Definition grown (lb lb' : UpstreamLb) : Prop :=
  (∃ k, counters lb' = counters lb ++ replicate k 0) ∧ lb_state lb' = lb_state lb.

Lemma grown_trans lb lb1 lb2 : grown lb lb1 → grown lb1 lb2 → grown lb lb2.
Proof.
  intros [[k Ek] H1] [[k' Ek'] H2]. split; [|congruence]. exists (k + k')%nat.
  by rewrite Ek', Ek, replicate_add, app_assoc.
Qed.

Lemma grown_same lb lb' : counters lb' = counters lb → lb_state lb' = lb_state lb → grown lb lb'.
Proof. intros H1 H2. split; [|done]. exists 0%nat. by rewrite H1, app_nil_r. Qed.

Lemma grown_length lb lb' : grown lb lb' → (length (cells lb) <= length (cells lb'))%nat.
Proof. intros [[k E] _]. rewrite <- !length_counters, E, length_app. lia. Qed.

Definition rows_ok (lb : UpstreamLb) (rows : list row) : Prop :=
  Forall (λ e, cell e < length (cells lb))%nat rows.

Lemma rows_ok_grown lb lb' rows : grown lb lb' → rows_ok lb rows → rows_ok lb' rows.
Proof.
  intros Hg%grown_length H. eapply list.Forall_impl; [exact H|]. simpl. intros. lia.
Qed.

Lemma build_rows_grown clk previous eps lb : rows_ok lb previous →
  match build_rows clk previous eps lb with
  | Ok (lb', rows) => grown lb lb' ∧ rows_ok lb' rows
  | Err _ => True
  end.
Proof.
  revert lb. induction eps as [|e eps IH]; intros lb Hp; cbn [build_rows].
  { split; [by apply grown_same|constructor]. }
  set (head := match List.find _ previous with Some old => _ | None => _ end : M row).
  assert (Hhead : match head lb with
    | Ok (lb', r) => grown lb lb' ∧ (cell r < length (cells lb'))%nat
    | Err _ => True end).
  { subst head. destruct (List.find _ previous) as [old|] eqn:Ef.
    - split; [by apply grown_same|]. apply List.find_some in Ef as [Hin _]. apply list_elem_of_In in Hin.
      unfold rows_ok in Hp. rewrite list.Forall_forall in Hp. exact (Hp old Hin).
    - split; [split; [exists 1%nat|done]|].
      + unfold counters. simpl. by rewrite map_app.
      + simpl. rewrite length_app. simpl. lia. }
  unfold mbind, M_bind. destruct (head lb) as [[lb1 r]|]; [|done]. destruct Hhead as [Hg Hr].
  specialize (IH lb1 (rows_ok_grown _ _ _ Hg Hp)).
  destruct (build_rows clk previous eps lb1) as [[lb2 rows]|]; [|done]. destruct IH as [Hg2 Hrows].
  split; [by eapply grown_trans|]. constructor; [|done]. apply grown_length in Hg2. simpl. lia.
Qed.

(** A stage that adds trackers or costs to the rows touches no cell. *)
Definition stage (m : M (list row)) (rows : list row) : Prop := ∀ lb,
  match m lb with
  | Ok (lb', rows') =>
      counters lb' = counters lb ∧ lb_state lb' = lb_state lb ∧ map cell rows' = map cell rows
  | Err _ => True
  end.

Lemma stage_ret rows : stage (mret rows) rows.
Proof. by intros lb. Qed.

Lemma stage_each (f : row → M row) rows :
  (∀ r lb, match f r lb with
           | Ok (lb', r') => counters lb' = counters lb ∧ lb_state lb' = lb_state lb ∧ cell r' = cell r
           | Err _ => True
           end) → stage (each f rows) rows.
Proof.
  intros Hf. induction rows as [|r l IH]; intros lb; cbn [each]; [done|].
  unfold mbind, M_bind. specialize (Hf r lb). destruct (f r lb) as [[lb1 r']|]; [|done].
  specialize (IH lb1). destruct (each f l lb1) as [[lb2 l']|]; [|done].
  destruct Hf as (? & ? & ?), IH as (? & ? & ?). simpl. split_and!; congruence.
Qed.

Lemma stage_trackers (params : option HealthParams) rows :
  stage (match params with Some _ => each with_tracker rows | None => mret rows end)
        rows.
Proof.
  destruct params as [p|]; [|apply stage_ret]. apply stage_each. intros r lb. unfold with_tracker.
  by destruct (health r).
Qed.

Lemma stage_ewmas clk cost (b : bool) rows :
  stage (if b then each (with_ewma clk cost) rows else mret rows) rows.
Proof.
  destruct b; [|apply stage_ret]. apply stage_each. intros r lb. unfold with_ewma.
  by destruct (peak_ewma r).
Qed.

Lemma stage_run m rows lb lb1 : stage m rows → grown lb lb1 → rows_ok lb1 rows →
  match m lb1 with
  | Ok (lb', rows') => grown lb lb' ∧ rows_ok lb' rows'
  | Err _ => True
  end.
Proof.
  intros Hm Hg Hr. specialize (Hm lb1). destruct (m lb1) as [[lb2 rows']|]; [|done].
  destruct Hm as (Hc & Hs & Hmap). split.
  - eapply grown_trans; [exact Hg|by apply grown_same].
  - unfold rows_ok in *. rewrite <- !length_counters in *. rewrite Hc.
    apply (List.Forall_map cell (λ c, c < length (counters lb1))%nat). rewrite Hmap.
    by apply (List.Forall_map cell (λ c, c < length (counters lb1))%nat).
Qed.

Lemma build_state_grown fuel clk previous eps alg slow params cfg loc lb : rows_ok lb previous →
  match build_state fuel clk previous eps alg slow params cfg loc lb with
  | Ok (lb', st) => grown lb lb' ∧ rows_ok lb' (endpoints st)
  | Err _ => True
  end.
Proof.
  intros Hp. unfold build_state, mbind, M_bind. pose proof (build_rows_grown clk previous eps lb Hp) as H1.
  destruct (build_rows clk previous eps lb) as [[lb1 rows]|]; [|done]. destruct H1 as [Hg1 Hr1].
  pose proof (stage_run _ rows lb lb1 (stage_trackers params rows) Hg1 Hr1) as H2.
  destruct (match params with Some _ => each with_tracker rows | None => mret rows end lb1)
    as [[lb2 rows2]|]; [|done]. destruct H2 as [Hg2 Hr2]. cbv zeta.
  pose proof (stage_run _ rows2 lb lb2 (stage_ewmas clk
    (saturating_mul (default 250 (cfg ≫= snd)) 1000000) (bool_decide (alg = PeakEwma)) rows2) Hg2 Hr2) as H3.
  destruct ((if bool_decide (alg = PeakEwma) then each _ rows2 else mret rows2) lb2)
    as [[lb3 rows3]|]; [|done]. destruct H3 as [Hg3 Hr3].
  destruct (bool_decide (alg = MaglevHash)); [|done]. unfold lift. by destruct (table_of fuel rows3).
Qed.

Lemma accounted_rebuild fuel clk eps alg slow params cfg loc lb guards : accounted lb guards →
  match rebuild fuel clk eps alg slow params cfg loc lb with
  | Ok (lb', _) => accounted lb' guards
  | Err _ => True
  end.
Proof.
  intros (He & Hgs & Hc). unfold rebuild, mbind, M_bind, get.
  pose proof (build_state_grown fuel clk _ eps alg slow params cfg loc lb He) as H.
  destruct (build_state _ _ _ _ _ _ _ _ _ lb) as [[lb1 st]|]; [|done]. destruct H as [Hg Hr].
  pose proof (grown_length _ _ Hg) as Hlen. unfold modify, accounted. simpl. split_and!; [exact Hr| |].
  - eapply list.Forall_impl; [exact Hgs|]. simpl. intros. lia.
  - destruct Hg as [[k E] _]. intros c n Hn. change (counters (set_lb_state st lb1)) with (counters lb1) in Hn.
    rewrite E in Hn. apply lookup_app_Some in Hn as [Hn|[Hlt Hn]]; [by apply Hc|].
    apply lookup_replicate in Hn as [-> _]. symmetry.
    assert (E0 : guards_on c guards = 0); [|by rewrite E0].
    unfold guards_on. rewrite length_counters in Hlt. rewrite list.Forall_forall in Hgs.
    destruct (List.filter (Nat.eqb c) guards) as [|g l] eqn:Ef; [done|].
    assert (Hin : List.In g (List.filter (Nat.eqb c) guards)) by (rewrite Ef; by left).
    apply List.filter_In in Hin as [Hin ->%Nat.eqb_eq]. apply list_elem_of_In in Hin.
    specialize (Hgs _ Hin). lia.
Qed.

(** ** One operation *)

Lemma accounted_kept {A} (m : M A) lb guards : quiet m → accounted lb guards →
  match m lb with
  | Ok (lb', _) => accounted lb' guards
  | Err _ => True
  end.
Proof.
  intros Hm Ha. specialize (Hm lb). destruct (m lb) as [[lb' a]|]; [|done].
  destruct Hm. by eapply accounted_quiet.
Qed.

Lemma accounted_row lb guards i e : accounted lb guards → endpoints (lb_state lb) !! i = Some e →
  (cell e < length (cells lb))%nat.
Proof.
  intros (He & _) Hi. rewrite list.Forall_forall in He. apply He. by eapply list_elem_of_lookup_2.
Qed.

Lemma accounted_dispatch clk key lb guards : accounted lb guards →
  match pick_for_dispatch clk key lb with
  | Ok (lb', r) => accounted lb' (match r with Some d => d_guard d :: guards | None => guards end)
  | Err _ => True
  end.
Proof.
  intros Ha. unfold pick_for_dispatch, mbind, M_bind, get.
  pose proof (choose_quiet (lb_state lb) clk key lb) as Hk.
  destruct (choose (lb_state lb) clk key lb) as [[lb1 r]|]; [|done]. destruct Hk as [Hc Hs].
  pose proof (accounted_quiet _ _ _ Hc Hs Ha) as Ha1. destruct r as [i|]; simpl; [|done].
  rewrite <- Hs. destruct (endpoints (lb_state lb1) !! i) as [e|] eqn:Ei; simpl; [|done].
  apply accounted_take; [by eapply accounted_row|done].
Qed.

Lemma perform_accounted o lb guards lb' guards' : accounted lb guards →
  perform o lb guards = Ok (lb', guards') → accounted lb' guards'.
Proof.
  intros Ha. destruct o as [clk key|i|clk key|n|fuel clk eps alg slow params cfg loc]; simpl.
  - pose proof (accounted_dispatch clk key lb guards Ha) as H.
    destruct (pick_for_dispatch clk key lb) as [[lb1 r]|]; simpl; [|done]. by intros [= <- <-].
  - unfold acquire_inflight, mbind, M_bind, get.
    destruct (endpoints (lb_state lb) !! i) as [e|] eqn:Ei; simpl; intros [= <- <-]; [|done].
    apply accounted_take; [by eapply accounted_row|done].
  - pose proof (accounted_kept (pick clk key) lb guards) as H. specialize (H ltac:(unfold pick;
      apply quiet_bind; [apply quiet_get|intros; apply choose_quiet]) Ha).
    destruct (pick clk key lb) as [[lb1 r]|]; simpl; [|done]. by intros [= <- <-].
  - destruct (guards !! n) as [g|] eqn:Eg; [|by intros [= <- <-]]. intros [= <- <-].
    by apply (accounted_drop lb n g).
  - pose proof (accounted_rebuild fuel clk eps alg slow params cfg loc lb guards Ha) as H.
    destruct (rebuild _ _ _ _ _ _ _ _ lb) as [[lb1 r]|]; simpl; [|done]. by intros [= <- <-].
Qed.

Lemma perform_all_accounted os lb guards lb' guards' : accounted lb guards →
  perform_all os lb guards = Ok (lb', guards') → accounted lb' guards'.
Proof.
  revert lb guards. induction os as [|o os IH]; intros lb guards Ha; simpl; [by intros [= <- <-]|].
  destruct (perform o lb guards) as [[lb1 guards1]|] eqn:E; simpl; [|done].
  apply IH. by eapply perform_accounted.
Qed.

(** * Properties *)

(** C25: in-flight accounting is exact: after any operations on a new balancer
    (dispatches, guards taken and dropped, picks, rebuilds of the endpoint set
    that carry, drop or re-add endpoints), the counter of every cell is the
    number of guards that are out on it, so dropping one never takes a counter
    below zero; guards of endpoints that were removed are counted too. *)
Theorem inflight_exact seed os lb guards c n
    (Hrun : perform_all os (unbuilt seed) [] = Ok (lb, guards))
    (Hfew : Z.of_nat (length guards) < 2 ^ 64) (Hc : counters lb !! c = Some n) :
  n = guards_on c guards.
Proof.
  assert (H0 : accounted (unbuilt seed) []) by (split_and!; [constructor|constructor|done]).
  destruct (perform_all_accounted _ _ _ _ _ H0 Hrun) as (_ & _ & H).
  rewrite (H c n Hc). apply Z.mod_small. unfold guards_on.
  pose proof (List.filter_length_le (Nat.eqb c) guards). lia.
Qed.

Definition ip (a : string) (w : Z) : Endpoint := EndpointConfig (Maglev.Endpoint a 80 w) None None.
Definition rotate_on (eps : list Endpoint) : op :=
  DoRebuild 0 (MkClock 0 0 0) eps RoundRobin 0 None None None.

(** Two dispatches, then the second endpoint is removed while its request is
    out, and the first one's request ends. *)
Definition sample_ops : list op :=
  [rotate_on [ip "10.0.0.1" 1; ip "10.0.0.2" 1]; DoDispatch (MkClock 0 0 0) None;
   DoDispatch (MkClock 0 0 0) None; rotate_on [ip "10.0.0.3" 1; ip "10.0.0.1" 2]; DoDrop 1].

Lemma inflight_exact_witness :
  match perform_all sample_ops (unbuilt 7) [] with
  | Ok (lb, guards) =>
      guards = [1%nat] ∧ counters lb = [0; 1; 0] ∧
      ∀ c n, counters lb !! c = Some n → n = guards_on c guards
  | Err _ => False
  end.
Proof.
  destruct (perform_all sample_ops (unbuilt 7) []) as [[lb guards]|f] eqn:E.
  - assert (Hg : guards = [1%nat] ∧ counters lb = [0; 1; 0]).
    { vm_compute in E. injection E as <- <-. split; reflexivity. }
    destruct Hg as [Hg Hl]. split; [exact Hg|]. split; [exact Hl|]. intros c n Hc.
    refine (inflight_exact 7 sample_ops lb guards c n E _ Hc). rewrite Hg. simpl. lia.
  - vm_compute in E. discriminate E.
Defined.
