(* ===== verification/FloatOrder.v ===== *)
(** Rounding of binary64 against the order: what a product or a quotient of
    doubles is at most, and at least.  Shared by the models of the data plane
    that compute with [f64]. *)

From S2P Require Import Prelude.
From S2P Require Import JsNumber.
Local Open Scope Z_scope.

Abbreviation fexp := (SpecFloat.fexp prec emax).
Abbreviation digits := Zdigits2.

(** * Digits *)

Lemma digits_pos_spec p : 2 ^ (Z.pos (digits2_pos p) - 1) ≤ Z.pos p < 2 ^ Z.pos (digits2_pos p).
Proof.
  induction p as [p IH|p IH|]; simpl; [| |lia].
  all: rewrite Pos2Z.inj_succ; replace (Z.succ (Z.pos (digits2_pos p)) - 1) with (Z.pos (digits2_pos p)) by lia.
  all: replace (2 ^ Z.pos (digits2_pos p)) with (2 * 2 ^ (Z.pos (digits2_pos p) - 1)) in *
    by (rewrite <- Z.pow_succ_r by lia; f_equal; lia).
  all: rewrite Z.pow_succ_r by lia.
  all: replace (2 ^ Z.pos (digits2_pos p)) with (2 * 2 ^ (Z.pos (digits2_pos p) - 1)) in *
    by (rewrite <- Z.pow_succ_r by lia; f_equal; lia).
  all: lia.
Qed.

Lemma digits_nonneg m : 0 ≤ m → 0 ≤ digits m.
Proof. destruct m; simpl; lia. Qed.

Lemma digits_spec m : 0 < m → 1 ≤ digits m ∧ 2 ^ (digits m - 1) ≤ m < 2 ^ digits m.
Proof. destruct m as [|p|p]; try lia. intros _. pose proof (digits_pos_spec p). simpl. lia. Qed.

Lemma digits_le m n : 0 ≤ m → 0 ≤ n → m < 2 ^ n → digits m ≤ n.
Proof.
  intros Hm Hn Hlt. destruct (decide (m = 0)) as [->|]; [done|].
  destruct (digits_spec m) as (? & Hlo & _); [lia|].
  destruct (decide (digits m ≤ n)); [done|].
  assert (2 ^ n ≤ 2 ^ (digits m - 1)) by (apply Z.pow_le_mono_r; lia). lia.
Qed.

Lemma digits_ge m n : 0 ≤ n → 2 ^ n ≤ m → n + 1 ≤ digits m.
Proof.
  intros Hn Hle. assert (0 < 2 ^ n) by (apply Z.pow_pos_nonneg; lia).
  destruct (digits_spec m) as (? & _ & Hhi); [lia|].
  destruct (decide (n + 1 ≤ digits m)); [done|].
  assert (2 ^ digits m ≤ 2 ^ n) by (apply Z.pow_le_mono_r; lia). lia.
Qed.

Lemma digits_mono m n : 0 ≤ m ≤ n → digits m ≤ digits n.
Proof.
  intros [Hm Hle]. destruct (decide (m = 0)) as [->|]; [apply digits_nonneg; lia|].
  destruct (digits_spec n) as (? & _ & Hhi); [lia|]. apply digits_le; lia.
Qed.

Lemma digits_shift m k : 0 < m → 0 ≤ k → digits (m * 2 ^ k) = digits m + k.
Proof.
  intros Hm Hk. destruct (digits_spec m Hm) as (? & Hlo & Hhi).
  assert (0 < 2 ^ k) by (apply Z.pow_pos_nonneg; lia).
  apply Z.le_antisymm.
  - apply digits_le; [nia|lia|]. rewrite Z.pow_add_r by lia. nia.
  - replace (digits m + k) with (digits m - 1 + k + 1) by lia.
    apply digits_ge; [lia|]. rewrite Z.pow_add_r by lia. nia.
Qed.

Lemma fexp_mono a b : a ≤ b → fexp a ≤ fexp b.
Proof. unfold SpecFloat.fexp. lia. Qed.

(** * Shifts *)

Definition exact (r : shr_record) : Prop := loc_of_shr_record r = loc_Exact.

Lemma exact_dec r : {exact r} + {¬ exact r}.
Proof. unfold exact. destruct r as [m [|] [|]]; simpl; [by right..|by left]. Defined.

(** [r'] is [r] shifted right by [n], its bits lost recorded. *)
Definition shifted (n : Z) (r r' : shr_record) : Prop :=
  0 ≤ shr_m r → shr_m r' = shr_m r / 2 ^ n ∧ (exact r' ↔ exact r ∧ shr_m r' * 2 ^ n = shr_m r).

Lemma shr_1_m r : 0 ≤ shr_m r → shr_m (shr_1 r) = shr_m r / 2.
Proof.
  destruct r as [m b s]. destruct m as [|[p|p|]|p]; simpl; intros Hm; try done; try lia.
  - rewrite Pos2Z.inj_xI. apply Z.div_unique with 1; lia.
  - rewrite Pos2Z.inj_xO. apply Z.div_unique with 0; lia.
Qed.

Lemma shr_1_exact r :
  0 ≤ shr_m r → exact (shr_1 r) ↔ exact r ∧ shr_m (shr_1 r) * 2 = shr_m r.
Proof.
  destruct r as [m b s]. unfold exact.
  destruct m as [|[p|p|]|p]; simpl; intros Hm; try lia; destruct b, s; simpl; split;
    intros He; try done; try (split; [done|lia]); destruct He; try done; lia.
Qed.

Lemma shifted_1 r : shifted 1 r (shr_1 r).
Proof.
  intros Hm. rewrite Z.pow_1_r. split; [by apply shr_1_m|]. by apply shr_1_exact.
Qed.

Lemma shifted_trans a b r r' r'' :
  0 ≤ a → 0 ≤ b → shifted a r r' → shifted b r' r'' → shifted (a + b) r r''.
Proof.
  intros Ha Hb H1 H2 Hm. destruct (H1 Hm) as [Hm' He'].
  assert (0 < 2 ^ a) by (apply Z.pow_pos_nonneg; lia).
  assert (0 ≤ shr_m r') as Hr' by (rewrite Hm'; apply Z.div_pos; lia).
  destruct (H2 Hr') as [Hm'' He'']. rewrite Z.pow_add_r by lia. split.
  - rewrite Hm'', Hm', Z.div_div; [done|lia|]. apply Z.pow_pos_nonneg; lia.
  - rewrite He'', He'. split.
    + intros [[? Heq'] Heq]. split; [done|]. rewrite <- Heq', <- Heq. ring.
    + intros [? Heq]. assert (shr_m r' = shr_m r'' * 2 ^ b) as Heq'.
      { rewrite Hm'. symmetry. apply Z.div_unique_exact; [lia|]. rewrite <- Heq. ring. }
      rewrite Heq'. split; [|done]. split; [done|]. rewrite <- Heq. ring.
Qed.

Lemma shifted_iter p r : shifted (Z.pos p) r (iter_pos shr_1 p r).
Proof.
  revert r. induction p as [p IH|p IH|]; intros r; simpl.
  - rewrite Pos2Z.inj_xI. replace (2 * Z.pos p + 1) with (1 + (Z.pos p + Z.pos p)) by lia.
    eapply shifted_trans; [lia|lia|apply shifted_1|]. by eapply shifted_trans; [lia|lia| |].
  - rewrite Pos2Z.inj_xO. replace (2 * Z.pos p) with (Z.pos p + Z.pos p) by lia.
    by eapply shifted_trans; [lia|lia| |].
  - apply shifted_1.
Qed.

Lemma shifted_0 r : shifted 0 r r.
Proof. intros Hm. change (2 ^ 0) with 1. rewrite Z.div_1_r, Z.mul_1_r. tauto. Qed.

Lemma shr_spec r e n :
  (shr r e n).2 = Z.max e (e + n) ∧ shifted (Z.max 0 n) r (shr r e n).1.
Proof.
  destruct n as [|p|p]; simpl; (split; [lia|]); try apply shifted_0. apply shifted_iter.
Qed.

Lemma shr_record_m m l : shr_m (shr_record_of_loc m l) = m.
Proof. by destruct l as [|[| |]]. Qed.

Lemma shr_record_exact m l : exact (shr_record_of_loc m l) → l = loc_Exact.
Proof. by destruct l as [|[| |]]. Qed.

Lemma round_nearest_bounds m l :
  m ≤ round_nearest_even m l ≤ m + 1 ∧ (l = loc_Exact → round_nearest_even m l = m).
Proof. destruct l as [|[| |]]; simpl; try destruct (Z.even m); split; lia || done. Qed.

(** * What rounding does

    [binary_round_aux] shifts the mantissa to the precision, rounds it to
    [r1], and shifts once more in case [r1] has outgrown the precision. *)

Lemma pow2_pos k : 0 ≤ k → 0 < 2 ^ k.
Proof. intros. apply Z.pow_pos_nonneg; lia. Qed.

Lemma round_aux_eq s m e l :
  0 ≤ m →
  let e1 := Z.max e (fexp (digits m + e)) in
  ∃ r1, let e2 := Z.max e1 (fexp (digits r1 + e1)) in
    binary_round_aux prec emax s m e l =
      match r1 / 2 ^ (e2 - e1) with
      | Z0 => S754_zero s
      | Zpos p => if e2 <=? emax - prec then S754_finite s p e2 else S754_infinity s
      | Zneg _ => S754_nan
      end ∧
    m / 2 ^ (e1 - e) ≤ r1 ∧
    (∀ X, m ≤ X * 2 ^ (e1 - e) → (l ≠ loc_Exact → m < X * 2 ^ (e1 - e)) → r1 ≤ X).
Proof.
  intros Hm e1. unfold binary_round_aux, shr_fexp.
  destruct (shr_spec (shr_record_of_loc m l) e (fexp (digits m + e) - e)) as [He1 Hs1].
  destruct (shr _ e _) as [rec1 e1'] eqn:Hshr1; simpl in *. subst e1'.
  replace (e + (fexp (digits m + e) - e)) with (fexp (digits m + e)) by lia. fold e1.
  replace (Z.max 0 (fexp (digits m + e) - e)) with (e1 - e) in Hs1 by (unfold e1; lia).
  destruct Hs1 as [Hm1 Hex1]; [by rewrite shr_record_m|]. rewrite shr_record_m in Hm1, Hex1.
  set (r1 := round_nearest_even (shr_m rec1) (loc_of_shr_record rec1)).
  destruct (round_nearest_bounds (shr_m rec1) (loc_of_shr_record rec1)) as [Hr1 Hr1'].
  fold r1 in Hr1, Hr1'. exists r1. set (e2 := Z.max e1 (fexp (digits r1 + e1))).
  pose proof (pow2_pos (e1 - e) ltac:(unfold e1; lia)) as Hpow.
  pose proof (Z.div_pos m (2 ^ (e1 - e)) Hm Hpow).
  destruct (shr_spec (shr_record_of_loc r1 loc_Exact) e1 (fexp (digits r1 + e1) - e1)) as [He2 Hs2].
  destruct (shr _ e1 _) as [rec2 e2'] eqn:Hshr2; simpl in *. subst e2'.
  replace (e1 + (fexp (digits r1 + e1) - e1)) with (fexp (digits r1 + e1)) by lia. fold e2.
  replace (Z.max 0 (fexp (digits r1 + e1) - e1)) with (e2 - e1) in Hs2 by (unfold e2; lia).
  destruct Hs2 as [-> _]; [simpl; lia|]. simpl. split; [done|]. split; [lia|].
  intros X HX HX'. destruct (exact_dec rec1) as [Hex|Hex].
  - rewrite Hr1' by done. destruct (proj1 Hex1 Hex) as [_ Heq]. nia.
  - assert (m < X * 2 ^ (e1 - e)).
    { destruct l as [|c]; [|by apply HX']. apply Z.le_lteq in HX as [?|Heq]; [done|].
      destruct Hex. apply Hex1. split; [done|]. rewrite Hm1, Heq, Z.div_mul by lia. done. }
    assert (shr_m rec1 < X) by (rewrite Hm1; apply Z.div_lt_upper_bound; lia). lia.
Qed.

(** * Consequences *)

Lemma fexp_ge_emin a : emin prec emax ≤ fexp a.
Proof. unfold SpecFloat.fexp. lia. Qed.

Lemma digits_div_ge m k r : 0 ≤ m → 0 ≤ k → m / 2 ^ k ≤ r → digits m - k ≤ digits r.
Proof.
  intros Hm Hk Hr. pose proof (pow2_pos k Hk) as Hp. pose proof (Z.div_pos m (2 ^ k) Hm Hp).
  destruct (decide (digits m - 1 < k)) as [Hsmall|Hbig].
  { pose proof (digits_nonneg r ltac:(lia)). lia. }
  assert (0 < m) as Hpos.
  { destruct m; simpl in Hbig; lia. }
  destruct (digits_spec m Hpos) as (_ & Hlo & _).
  replace (digits m - k) with (digits m - 1 - k + 1) by lia. apply digits_ge; [lia|].
  etrans; [|exact Hr]. apply Z.div_le_lower_bound; [done|].
  rewrite <- Z.pow_add_r by lia. by replace (k + (digits m - 1 - k)) with (digits m - 1) by lia.
Qed.

(** The result of rounding a mantissa that fills the precision is canonical. *)
Lemma round_aux_valid s m e l :
  0 ≤ m → e ≤ fexp (digits m + e) → valid_binary prec emax (binary_round_aux prec emax s m e l) = true.
Proof.
  intros Hm He. destruct (round_aux_eq s m e l Hm) as (r1 & Heq & Hlo & _). rewrite Heq. clear Heq.
  replace (Z.max e (fexp (digits m + e))) with (fexp (digits m + e)) in * by lia.
  set (e1 := fexp (digits m + e)) in *.
  pose proof (digits_div_ge m (e1 - e) r1 Hm ltac:(lia) Hlo) as Hdg.
  assert (e1 ≤ fexp (digits r1 + e1)) as He2 by (unfold e1; apply fexp_mono; lia).
  replace (Z.max e1 (fexp (digits r1 + e1))) with (fexp (digits r1 + e1)) in * by lia.
  set (e2 := fexp (digits r1 + e1)) in *.
  assert (0 ≤ r1) as Hr1.
  { etrans; [|exact Hlo]. apply Z.div_pos; [done|]. apply pow2_pos. lia. }
  destruct (r1 / 2 ^ (e2 - e1)) as [|p|p] eqn:Hm2; [done| |done].
  destruct (Z.leb_spec e2 (emax - prec)) as [Hmax|]; [|done]. simpl.
  unfold bounded. apply andb_true_intro. split; [|by apply Z.leb_le].
  apply Z.eqb_eq. change (Z.pos (digits2_pos p)) with (digits (Z.pos p)). rewrite <- Hm2.
  destruct (decide (e2 = e1)) as [Heq|Hne].
  { rewrite Heq, Z.sub_diag. change (2 ^ 0) with 1. rewrite Z.div_1_r. exact Heq. }
  pose proof (fexp_ge_emin (digits m + e)) as Hemin. fold e1 in Hemin.
  assert (e2 = digits r1 + e1 - prec) as Hd by (unfold e2, SpecFloat.fexp in *; lia).
  assert (0 < r1) as Hpos.
  { destruct (decide (r1 = 0)) as [->|]; [|lia]. simpl in Hd. unfold prec in Hd. lia. }
  destruct (digits_spec r1 Hpos) as (_ & Hd1 & Hd2).
  assert (digits (r1 / 2 ^ (e2 - e1)) = prec) as ->.
  { pose proof (pow2_pos (e2 - e1) ltac:(lia)). unfold prec in *. apply Z.le_antisymm.
    - apply digits_le; [apply Z.div_pos; lia|lia|]. apply Z.div_lt_upper_bound; [lia|].
      rewrite <- Z.pow_add_r by lia. by replace (e2 - e1 + 53) with (digits r1) by lia.
    - change 53 with (52 + 1). apply digits_ge; [lia|]. apply Z.div_le_lower_bound; [lia|].
      rewrite <- Z.pow_add_r by lia. by replace (e2 - e1 + 52) with (digits r1 - 1) by lia. }
  unfold SpecFloat.fexp. unfold emin in *. lia.
Qed.

Lemma bounded_spec m e :
  bounded prec emax m e = true → fexp (digits (Z.pos m) + e) = e ∧ e ≤ emax - prec.
Proof. unfold bounded. intros [H1%Z.eqb_eq H2%Z.leb_le]%andb_prop. done. Qed.

Lemma nle_finite m1 e1 m2 e2 :
  e1 < e2 ∨ e1 = e2 ∧ (m1 ≤ m2)%positive →
  nle (S754_finite false m1 e1) (S754_finite false m2 e2) = true.
Proof.
  unfold nle, SFleb. simpl. intros [Hlt|[-> Hle]].
  - by apply Z.compare_lt_iff in Hlt as ->.
  - rewrite Z.compare_refl. change (Pos.compare_cont Eq m1 m2) with (Pos.compare m1 m2).
    destruct (Pos.compare_spec m1 m2); [done|done|lia].
Qed.

(** A mantissa below that of a double rounds below it. *)
Lemma round_aux_le m e l mx ex :
  bounded prec emax mx ex = true → 0 ≤ m → e ≤ ex →
  m ≤ Z.pos mx * 2 ^ (ex - e) → (l ≠ loc_Exact → m < Z.pos mx * 2 ^ (ex - e)) →
  nle (binary_round_aux prec emax false m e l) (S754_finite false mx ex) = true.
Proof.
  intros [Hcan Hmax]%bounded_spec Hm Hex Hle Hlt.
  destruct (round_aux_eq false m e l Hm) as (r1 & Heq & Hlo & Hup). rewrite Heq. clear Heq.
  set (e1 := Z.max e (fexp (digits m + e))) in *.
  assert (digits m + e ≤ digits (Z.pos mx) + ex) as Hdm.
  { pose proof (digits_mono m (Z.pos mx * 2 ^ (ex - e)) ltac:(lia)) as Hd.
    rewrite digits_shift in Hd by lia. lia. }
  pose proof (fexp_mono _ _ Hdm) as He1. rewrite Hcan in He1.
  assert (e ≤ e1 ≤ ex) as He1' by (unfold e1; lia). clearbody e1.
  assert (r1 ≤ Z.pos mx * 2 ^ (ex - e1)) as Hr1.
  { apply Hup; intros; rewrite <- Z.mul_assoc, <- Z.pow_add_r by lia;
      replace (ex - e1 + (e1 - e)) with (ex - e) by lia; auto. }
  assert (0 ≤ r1) as Hr0 by (etrans; [|exact Hlo]; apply Z.div_pos; [done|]; apply pow2_pos; lia).
  assert (fexp (digits r1 + e1) ≤ ex) as He2.
  { rewrite <- Hcan. apply fexp_mono.
    pose proof (digits_mono _ _ (conj Hr0 Hr1)) as Hd. rewrite digits_shift in Hd by lia. lia. }
  set (e2 := Z.max e1 (fexp (digits r1 + e1))) in *.
  assert (e1 ≤ e2 ≤ ex) as He2' by (unfold e2; lia). clearbody e2.
  pose proof (pow2_pos (e2 - e1) ltac:(lia)) as Hpow.
  destruct (r1 / 2 ^ (e2 - e1)) as [|p|p] eqn:Hq; [done| |pose proof (Z.div_pos r1 _ Hr0 Hpow); lia].
  destruct (Z.leb_spec e2 (emax - prec)); [|lia]. apply nle_finite.
  destruct (decide (e2 = ex)) as [->|]; [right|left; lia]. split; [done|].
  assert (Z.pos p ≤ Z.pos mx); [|lia]. rewrite <- Hq. apply Z.div_le_upper_bound; lia.
Qed.

(** The second shift loses no leading bit. *)
Lemma second_shift_pos r e :
  0 < r → emin prec emax ≤ e → 0 < r / 2 ^ (Z.max e (fexp (digits r + e)) - e).
Proof.
  intros Hr He. destruct (digits_spec r Hr) as (Hd & Hlo & _).
  set (k := Z.max e (fexp (digits r + e)) - e).
  assert (0 ≤ k ≤ digits r - 1) as Hk by (unfold k, SpecFloat.fexp, prec in *; lia).
  pose proof (pow2_pos k ltac:(lia)).
  assert (1 ≤ r / 2 ^ k); [|lia]. apply Z.div_le_lower_bound; [done|]. rewrite Z.mul_1_r.
  etrans; [|exact Hlo]. apply Z.pow_le_mono_r; lia.
Qed.

(** A mantissa above that of a double rounds above it. *)
Lemma round_aux_ge m e l mx ex :
  bounded prec emax mx ex = true → 0 ≤ m → e ≤ ex → Z.pos mx * 2 ^ (ex - e) ≤ m →
  nle (S754_finite false mx ex) (binary_round_aux prec emax false m e l) = true.
Proof.
  intros [Hcan Hmax]%bounded_spec Hm Hex Hle.
  destruct (round_aux_eq false m e l Hm) as (r1 & Heq & Hlo & _). rewrite Heq. clear Heq.
  pose proof (fexp_ge_emin (digits m + e)) as Hemin.
  destruct (decide (Z.max e (fexp (digits m + e)) ≤ ex)) as [Hle1|Hgt1].
  - set (e1 := Z.max e (fexp (digits m + e))) in *.
    assert (e ≤ e1 ∧ emin prec emax ≤ e1) as [He1 Hmin] by (unfold e1; lia). clearbody e1.
    assert (Z.pos mx * 2 ^ (ex - e1) ≤ r1) as Hr1.
    { etrans; [|exact Hlo]. apply Z.div_le_lower_bound; [apply pow2_pos; lia|].
      rewrite (Z.mul_comm (2 ^ _)), <- Z.mul_assoc, <- Z.pow_add_r by lia.
      by replace (ex - e1 + (e1 - e)) with (ex - e) by lia. }
    pose proof (pow2_pos (ex - e1) ltac:(lia)).
    assert (ex ≤ fexp (digits r1 + e1)) as He2.
    { rewrite <- Hcan at 1. apply fexp_mono.
      pose proof (digits_mono (Z.pos mx * 2 ^ (ex - e1)) r1 ltac:(lia)) as Hd.
      rewrite digits_shift in Hd by lia. lia. }
    pose proof (second_shift_pos r1 e1 ltac:(lia) Hmin) as Hpos.
    replace (Z.max e1 (fexp (digits r1 + e1))) with (fexp (digits r1 + e1)) in * by lia.
    set (e2 := fexp (digits r1 + e1)) in *. clearbody e2.
    destruct (r1 / 2 ^ (e2 - e1)) as [|p|p] eqn:Hq; [lia| |lia].
    destruct (Z.leb_spec e2 (emax - prec)); [|done]. apply nle_finite.
    destruct (decide (e2 = ex)) as [->|]; [right|left; lia]. split; [done|].
    assert (Z.pos mx ≤ Z.pos p); [|lia]. rewrite <- Hq. apply Z.div_le_lower_bound; lia.
  - set (e1 := Z.max e (fexp (digits m + e))) in *.
    assert (0 < r1) as Hr1.
    { assert (e1 = digits m + e - prec) as Hd by (unfold e1, SpecFloat.fexp, prec, emax, emin in *; lia).
      destruct (digits_spec m) as (_ & Hm1 & _).
      { pose proof (pow2_pos (ex - e) ltac:(lia)). nia. }
      assert (1 ≤ m / 2 ^ (e1 - e)); [|lia]. apply Z.div_le_lower_bound; [apply pow2_pos; lia|].
      rewrite Z.mul_1_r. etrans; [|exact Hm1]. apply Z.pow_le_mono_r; unfold prec in *; lia. }
    pose proof (second_shift_pos r1 e1 Hr1 ltac:(unfold e1; lia)) as Hpos.
    set (e2 := Z.max e1 (fexp (digits r1 + e1))) in *.
    destruct (r1 / 2 ^ (e2 - e1)) as [|p|p] eqn:Hq; [lia| |lia].
    destruct (Z.leb_spec e2 (emax - prec)); [|done]. apply nle_finite. left. unfold e2. lia.
Qed.

(** * The order of doubles *)

(** The order is lexicographic: sign and kind, exponent, mantissa. *)
Definition rank (x : num) : Z * Z * Z :=
  match x with
  | S754_infinity s => (if s : bool then -2 else 2, 0, 0)
  | S754_finite true m e => (-1, - e, - Z.pos m)
  | S754_finite false m e => (1, e, Z.pos m)
  | S754_zero _ | S754_nan => (0, 0, 0)
  end.

Definition lex_le (a b : Z * Z * Z) : Prop :=
  a.1.1 < b.1.1 ∨ a.1.1 = b.1.1 ∧ (a.1.2 < b.1.2 ∨ a.1.2 = b.1.2 ∧ a.2 ≤ b.2).

Lemma nle_rank x y :
  nle x y = true ↔ is_nan x = false ∧ is_nan y = false ∧ lex_le (rank x) (rank y).
Proof.
  unfold nle, SFleb, lex_le.
  destruct x as [[|]|[|]| |[|] m1 e1], y as [[|]|[|]| |[|] m2 e2]; simpl;
    try (split; [intros; split_and!; done || lia|]; intros (? & ? & ?); done || lia).
  all: change (Pos.compare_cont Eq m1 m2) with (Pos.compare m1 m2).
  all: destruct (Z.compare_spec e1 e2) as [->|?|?], (Pos.compare_spec m1 m2) as [->|?|?]; simpl;
    (split; [intros; split_and!; done || lia|]; intros (? & ? & ?); done || lia).
Qed.

Lemma nle_trans x y z : nle x y = true → nle y z = true → nle x z = true.
Proof. rewrite !nle_rank. unfold lex_le. intros (? & ? & ?) (? & ? & ?). split_and!; [done..|lia]. Qed.

Lemma nle_refl x : is_nan x = false → nle x x = true.
Proof. rewrite nle_rank. unfold lex_le. intros. split_and!; [done..|lia]. Qed.

Lemma nlt_nle x y : is_nan x = false → is_nan y = false → nlt x y = negb (nle y x).
Proof.
  unfold nlt, nle, SFltb, SFleb.
  destruct x as [[|]|[|]| |[|] m1 e1], y as [[|]|[|]| |[|] m2 e2]; simpl; try done; intros _ _.
  all: change (Pos.compare_cont Eq) with Pos.compare.
  all: rewrite (Z.compare_antisym e1 e2), (Pos.compare_antisym m1 m2);
    destruct (Z.compare_spec e1 e2) as [->|?|?], (Pos.compare m1 m2); done.
Qed.

Lemma nlt_le x y : nlt x y = true → nle x y = true.
Proof. unfold nlt, nle, SFltb, SFleb. by destruct (SFcompare x y) as [[]|]. Qed.

Lemma nge_le x y : is_nan x = false → is_nan y = false → nlt x y = false → nle y x = true.
Proof. intros Hx Hy. rewrite nlt_nle by done. by destruct (nle y x). Qed.

(** Rust's [f64::max] and [f64::min] return the other operand of a NaN. *)
Definition f64_max (x y : num) : num :=
  if is_nan x then y else if is_nan y then x else if nlt x y then y else x.
Definition f64_min (x y : num) : num :=
  if is_nan x then y else if is_nan y then x else if nlt y x then y else x.

Definition one : num := num_of_Z 1.

(** The normal form of positive finite doubles. *)
Definition pos_double (x : num) : bool :=
  match x with
  | S754_finite false m e => bounded prec emax m e
  | _ => false
  end.

Lemma pos_double_not_nan x : pos_double x = true → is_nan x = false.
Proof. by destruct x. Qed.

(** * Products and quotients *)

(** Multiplying by at most 1 does not increase a double. *)
Lemma nmul_le x mc :
  pos_double x = true → Z.pos mc ≤ 2 ^ 53 → nle (nmul x (S754_finite false mc (-53))) x = true.
Proof.
  destruct x as [| | |[|] mx ex]; try done. simpl. intros Hx Hc. unfold nmul. simpl.
  apply round_aux_le; [done|lia|lia| |done].
  replace (ex - (ex + -53)) with 53 by lia. rewrite Pos2Z.inj_mul. nia.
Qed.

(** Multiplying by at least 1 does not decrease a double. *)
Lemma nmul_ge x mc :
  pos_double x = true → 2 ^ 52 ≤ Z.pos mc → nle x (nmul x (S754_finite false mc (-52))) = true.
Proof.
  destruct x as [| | |[|] mx ex]; try done. simpl. intros Hx Hc. unfold nmul. simpl.
  apply round_aux_ge; [done|lia|lia|].
  replace (ex - (ex + -52)) with 52 by lia. rewrite Pos2Z.inj_mul. nia.
Qed.

Lemma round_aux_sign m e l :
  0 ≤ m →
  match binary_round_aux prec emax false m e l with
  | S754_zero s | S754_infinity s | S754_finite s _ _ => s = false
  | S754_nan => False
  end.
Proof.
  intros Hm. destruct (round_aux_eq false m e l Hm) as (r1 & -> & Hlo & _).
  set (e1 := Z.max e (fexp (digits m + e))) in *. set (e2 := Z.max e1 (fexp (digits r1 + e1))).
  pose proof (pow2_pos (e1 - e) ltac:(unfold e1; lia)).
  pose proof (pow2_pos (e2 - e1) ltac:(unfold e2; lia)).
  assert (0 ≤ r1) by (etrans; [|exact Hlo]; apply Z.div_pos; lia).
  pose proof (Z.div_pos r1 (2 ^ (e2 - e1)) ltac:(lia) ltac:(lia)).
  destruct (r1 / 2 ^ (e2 - e1)); [done|by destruct (_ <=? _)|lia].
Qed.

(** A product with a normal double is zero, infinite, or a positive double. *)
Lemma nmul_kind x mc ec :
  pos_double x = true → 2 ^ 52 ≤ Z.pos mc →
  let y := nmul x (S754_finite false mc ec) in
  y = S754_zero false ∨ y = S754_infinity false ∨ pos_double y = true.
Proof.
  destruct x as [| | |[|] mx ex]; try done. intros Hx Hc. unfold nmul. simpl.
  pose proof (round_aux_sign (Z.pos (mx * mc)) (ex + ec) loc_Exact ltac:(lia)) as Hs.
  pose proof (round_aux_valid false (Z.pos (mx * mc)) (ex + ec) loc_Exact ltac:(lia)) as Hv.
  assert (ex + ec ≤ fexp (digits (Z.pos (mx * mc)) + (ex + ec))) as He.
  { pose proof (digits_ge (Z.pos (mx * mc)) 52 ltac:(lia) ltac:(rewrite Pos2Z.inj_mul; nia)).
    unfold SpecFloat.fexp, prec in *. lia. }
  specialize (Hv He). destruct (binary_round_aux _ _ _ _ _ _) as [s|s| |s m e]; subst; auto; done.
Qed.

Lemma one_eq : one = S754_finite false 4503599627370496 (-52).
Proof. vm_compute. reflexivity. Qed.

(** A double of at least 1, as an integer bound on its mantissa. *)
Lemma ge_one_mantissa my ey :
  pos_double (S754_finite false my ey) = true → nle one (S754_finite false my ey) = true →
  -52 ≤ ey ∧ 2 ^ 52 ≤ Z.pos my.
Proof.
  rewrite one_eq, nle_rank. unfold lex_le. simpl. intros Hb (_ & _ & Hle).
  apply bounded_spec in Hb as [Hcan _]. simpl in Hcan.
  destruct (decide (ey = -52)) as [->|]; [lia|]. split; [lia|].
  assert (Z.pos (digits2_pos my) = 53) as Hd by (unfold SpecFloat.fexp, prec, emax, emin in *; lia).
  pose proof (digits_pos_spec my) as [Hlo _]. rewrite Hd in Hlo. exact Hlo.
Qed.

(** The quotient of 1 by a double, before rounding. *)
Lemma recip_core my ey :
  pos_double (S754_finite false my ey) = true → nle one (S754_finite false my ey) = true →
  let '(q, e, l) := SFdiv_core_binary prec emax (Z.pos 4503599627370496) (-52) (Z.pos my) ey in
  0 ≤ q ∧ e ≤ -53 ∧ e ≤ fexp (digits q + e) ∧
  q ≤ 2 ^ 52 * 2 ^ (-52 - e) ∧ (l ≠ loc_Exact → q < 2 ^ 52 * 2 ^ (-52 - e)).
Proof.
  intros Hb H1. destruct (ge_one_mantissa my ey Hb H1) as [Hey Hmy].
  unfold SFdiv_core_binary. change (digits (Z.pos 4503599627370496)) with 53.
  set (D := 53 + -52 - (digits (Z.pos my) + ey)).
  set (e := Z.min (fexp D) (-52 - ey)).
  pose proof (digits_ge (Z.pos my) 52 ltac:(lia) Hmy) as Hdy.
  assert (e ≤ -53 ∧ e ≤ -52 - ey) as [He1 He2] by (unfold e, D, SpecFloat.fexp, prec, emax, emin in *; lia).
  set (s := -52 - ey - e). assert (0 ≤ s) as Hs by (unfold s; lia).
  assert (match s with Z0 => Z.pos 4503599627370496 | Zpos _ => Z.shiftl (Z.pos 4503599627370496) s | Zneg _ => 0 end
          = 2 ^ (52 + s)) as ->.
  { rewrite Z.pow_add_r by lia. change (Z.pos 4503599627370496) with (2 ^ 52).
    destruct s as [|p|p] eqn:Hsp; [done| |lia]. rewrite Z.shiftl_mul_pow2 by lia. done. }
  destruct (Z.div_eucl (2 ^ (52 + s)) (Z.pos my)) as [q r] eqn:Hqr.
  pose proof (Z_div_mod (2 ^ (52 + s)) (Z.pos my) ltac:(lia)) as Hdm. rewrite Hqr in Hdm.
  destruct Hdm as [Hdm Hr]. pose proof (pow2_pos (52 + s) ltac:(lia)) as Hp.
  assert (2 ^ (52 + s) ≤ Z.pos my * 2 ^ (- e)) as Hup.
  { destruct (decide (0 ≤ ey)).
    - assert (2 ^ (52 + s) ≤ 2 ^ (- e)) by (apply Z.pow_le_mono_r; unfold s; lia). nia.
    - assert (2 ^ (- ey) ≤ 2 ^ 52) by (apply Z.pow_le_mono_r; lia).
      replace (52 + s) with (- ey + - e) by (unfold s; lia). rewrite Z.pow_add_r by lia.
      pose proof (pow2_pos (- e) ltac:(lia)). nia. }
  assert (2 ^ 52 * 2 ^ (-52 - e) = 2 ^ (- e)) as -> by (rewrite <- Z.pow_add_r by lia; f_equal; lia).
  assert (0 ≤ q) as Hq0 by nia.
  split; [done|]. split; [done|]. split; [|split; [nia|]].
  - assert (D ≤ digits q + e).
    { destruct (digits_spec (Z.pos my) ltac:(lia)) as (_ & _ & Hhi).
      assert (digits (Z.pos my) ≤ 52 + s ∧ 2 ^ (52 + s - digits (Z.pos my)) ≤ q ∨
              52 + s < digits (Z.pos my)) as [[Hle Hq]|Hq].
      { destruct (decide (52 + s < digits (Z.pos my))); [by right|left]. split; [lia|].
        assert (2 ^ (52 + s) = 2 ^ (52 + s - digits (Z.pos my)) * 2 ^ digits (Z.pos my)) as Hsplit
          by (rewrite <- Z.pow_add_r by lia; f_equal; lia).
        pose proof (pow2_pos (52 + s - digits (Z.pos my)) ltac:(lia)). nia. }
      - apply digits_ge in Hq; [|lia]. unfold D, s in *. lia.
      - pose proof (digits_nonneg q Hq0). unfold D, s in *. lia. }
    etrans; [|by apply fexp_mono]. unfold e. lia.
  - intros Hl. assert (r ≠ 0) as Hr0.
    { intros ->. apply Hl. unfold new_location. by destruct (Z.even (Z.pos my)). }
    apply (Z.mul_lt_mono_pos_l (Z.pos my)); lia.
Qed.

(** The inverse of a double of at least 1 is a canonical number of at most 1. *)
Lemma recip_le_one f :
  pos_double f = true → nle one f = true →
  nle (ndiv one f) one = true ∧ valid_binary prec emax (ndiv one f) = true ∧
  match ndiv one f with S754_zero s | S754_finite s _ _ => s = false | _ => False end.
Proof.
  destruct f as [| | |[|] my ey]; try done. intros Hb H1. pose proof (recip_core my ey Hb H1) as Hc.
  rewrite one_eq in *. unfold ndiv. simpl.
  destruct (SFdiv_core_binary _ _ _ _ _ _) as [[q e] l]. destruct Hc as (Hq & He & Hv & Hle & Hlt).
  pose proof (round_aux_le q e l 4503599627370496 (-52) ltac:(done) Hq ltac:(lia) Hle Hlt) as Hr.
  pose proof (round_aux_sign q e l Hq) as Hs. split; [done|]. split; [by apply round_aux_valid|].
  destruct (binary_round_aux _ _ _ _ _ _) as [s|s| |s m e']; subst; done.
Qed.
