(* ===== verification/RateStore.v ===== *)
(** The keyed store behind the request rate limiter
    (src/crates/dwara-core/src/extensions/rate_limiter.rs): sixteen maps from
    keys to cells, each of bounded size, swept inline when one is full.

    governor's decision is the closure that [measure_and_replace] receives, so
    it is an argument of the model; [RandomState], the standard library's
    keyed hasher, is one too.  A shard's mutex makes an operation on it atomic,
    so concurrent calls are a sequence of operations. *)

From S2P Require Import Prelude.
From S2P Require Import Breaker.
From stdpp Require Import sorting gmap strings pretty.
Local Open Scope Z_scope.

(** * Constants and data *)

(** [config::limits::MAX_RATE_LIMITER_KEYS_PER_SHARD]. *)
Definition MAX_RATE_LIMITER_KEYS_PER_SHARD : nat := 4096.
Definition GCRA_STORE_SHARDS : nat := 16.

Record GcraCell : Type := Cell { tat : Z; last_touch_ms : Z }.

#[global] Instance GcraCell_eq_dec : EqDecision GcraCell.
Proof. solve_decision. Defined.

(** [ShardCells]: keys are the bytes of Rust strings. *)
Abbreviation ShardCells := (gmap string GcraCell).

(** The clock and the hasher of a [GcraShardStore] are arguments of its
    operations; the counter is shared with the window that owns the store. *)
Record GcraShardStore : Type := Store {
  shards : list ShardCells;
  max_idle_ms : Z;
  evictions : Z;
}.

(** [GcraShardStore::new]. *)
Definition new_store (max_idle : Z) : GcraShardStore :=
  Store (replicate GCRA_STORE_SHARDS ∅) max_idle 0.

(** [AtomicU64::fetch_add]. *)
Definition fetch_add (c n : Z) : Z := (c + n) mod 2 ^ 64.

(** * The sweep *)

(** The order of [(u64, String)] pairs: [Ord] on tuples, then on bytes. *)
Definition victim_le (a b : Z * string) : Prop :=
  a.1 < b.1 ∨ a.1 = b.1 ∧ String.le a.2 b.2.

#[global] Instance victim_le_dec : RelDecision victim_le.
Proof. unfold victim_le. solve_decision. Defined.

(** The idle pass: [retain]. *)
Definition is_fresh (max_idle now : Z) (cell : GcraCell) : bool :=
  saturating_sub now (last_touch_ms cell) <? max_idle.

Definition retain_fresh (max_idle now : Z) (cells : ShardCells) : ShardCells :=
  filter (λ kc, is_fresh max_idle now kc.2 = true) cells.

(** The size pass: the victims in order, and their removal. *)
Definition victims (cells : ShardCells) : list (Z * string) :=
  merge_sort victim_le ((λ kc, (last_touch_ms kc.2, kc.1)) <$> map_to_list cells).

Definition evict (vs : list (Z * string)) (cells : ShardCells) : ShardCells :=
  foldl (λ m v, delete v.2 m) cells vs.

Definition excess (cells : ShardCells) : nat :=
  (size cells - MAX_RATE_LIMITER_KEYS_PER_SHARD / 2)%nat.

(** [sweep_if_crowded]: the shard and the counter after it. *)
Definition sweep_if_crowded (max_idle now : Z) (cells : ShardCells) (ev : Z)
    : ShardCells * Z :=
  if (size cells <? MAX_RATE_LIMITER_KEYS_PER_SHARD)%nat then (cells, ev)
  else
    let before := size cells in
    let cells := retain_fresh max_idle now cells in
    let dropped := Z.of_nat (before - size cells) in
    let '(cells, dropped) :=
      if (MAX_RATE_LIMITER_KEYS_PER_SHARD <=? size cells)%nat
      then (evict (take (excess cells) (victims cells)) cells, dropped + Z.of_nat (excess cells))
      else (cells, dropped) in
    (cells, if 0 <? dropped then fetch_add ev dropped else ev).

(** * The reservation *)

(** governor's [Nanos] of a cell: 0 stands for an absent one. *)
Definition prev_of (cell : GcraCell) : option Z :=
  if tat cell =? 0 then None else Some (tat cell).

Section Reservation.
Context {T E : Type}.

(** The critical section of [measure_and_replace], under the shard's lock. *)
Definition reserve (max_idle now : Z) (key : string) (f : option Z → result E (T * Z))
    (cells : ShardCells) (ev : Z) : result E T * ShardCells * Z :=
  let '(cells, ev) := sweep_if_crowded max_idle now cells ev in
  match cells !! key with
  | Some cell =>
      match f (prev_of cell) with
      | Ok (outcome, new_tat) => (Ok outcome, <[key := Cell new_tat now]> cells, ev)
      | Err e => (Err e, <[key := Cell (tat cell) now]> cells, ev)
      end
  | None =>
      match f None with
      | Ok (outcome, new_tat) => (Ok outcome, <[key := Cell new_tat now]> cells, ev)
      | Err e => (Err e, cells, ev)
      end
  end.

(** [shard_for]: the low bits of the hash. *)
Definition shard_for (hash_one : string → Z) (key : string) : nat :=
  Z.to_nat (Z.land (hash_one key) (Z.of_nat GCRA_STORE_SHARDS - 1)).

(** [StateStore::measure_and_replace].  The index is in range for every hash
    ([shard_for_lt]), so the default below is never taken. *)
Definition measure_and_replace (hash_one : string → Z) (now : Z) (key : string)
    (f : option Z → result E (T * Z)) (s : GcraShardStore) : result E T * GcraShardStore :=
  let i := shard_for hash_one key in
  let '(r, cells, ev) := reserve (max_idle_ms s) now key f (shards s !!! i) (evictions s) in
  (r, Store (<[i := cells]> (shards s)) (max_idle_ms s) ev).
End Reservation.

(** * Housekeeping *)

Definition retain_recent (drop_below : Z) (s : GcraShardStore) : GcraShardStore :=
  Store (filter (λ kc, drop_below < tat kc.2) <$> shards s) (max_idle_ms s) (evictions s).

Definition len (s : GcraShardStore) : nat := sum_list_with size (shards s).

Definition is_empty (s : GcraShardStore) : bool := (len s =? 0)%nat.

(** The cell of a key. *)
Definition cell_of (hash_one : string → Z) (s : GcraShardStore) (key : string) : option GcraCell :=
  (shards s !!! shard_for hash_one key) !! key.

(** * The sweep drops what it says *)

Section VictimOrder.
#[local] Instance victim_le_trans : Transitive victim_le.
Proof.
  intros [t1 k1] [t2 k2] [t3 k3]. unfold victim_le; simpl.
  intros [?|[-> ?]] [?|[-> ?]]; [left; lia|left; lia|left; lia|right].
  split; [done|]. by etrans.
Qed.

#[local] Instance victim_le_total : Total victim_le.
Proof.
  intros [t1 k1] [t2 k2]. unfold victim_le; simpl.
  destruct (Z.lt_trichotomy t1 t2) as [?|[->|?]]; [by left; left| |by right; left].
  destruct (total String.le k1 k2); [left|right]; by right.
Qed.

Lemma victims_perm cells :
  victims cells ≡ₚ (λ kc, (last_touch_ms kc.2, kc.1)) <$> map_to_list cells.
Proof. apply merge_sort_Permutation. Qed.

Lemma victims_sorted cells : StronglySorted victim_le (victims cells).
Proof. apply (StronglySorted_merge_sort _). Qed.
End VictimOrder.

Lemma elem_of_victims t k cells :
  (t, k) ∈ victims cells ↔ ∃ c, cells !! k = Some c ∧ t = last_touch_ms c.
Proof.
  rewrite victims_perm, list_elem_of_fmap. split.
  - intros ([k' c] & Heq & Hin). simplify_eq/=. exists c.
    by rewrite elem_of_map_to_list in Hin.
  - intros (c & Hc & ->). exists (k, c). by rewrite elem_of_map_to_list.
Qed.

Lemma victims_keys_nodup cells : NoDup (victims cells).*2.
Proof.
  rewrite victims_perm, <- list_fmap_compose. apply NoDup_fst_map_to_list.
Qed.

Lemma length_victims cells : length (victims cells) = size cells.
Proof. by rewrite victims_perm, length_fmap, length_map_to_list. Qed.

Lemma lookup_evict vs cells k :
  evict vs cells !! k = if decide (k ∈ vs.*2) then None else cells !! k.
Proof.
  revert cells. induction vs as [|[t k'] vs IH]; intros cells; simpl; [done|].
  rewrite IH. destruct (decide (k = k')) as [->|].
  - rewrite lookup_delete_eq. by case_decide; rewrite decide_True by set_solver.
  - rewrite lookup_delete_ne by done.
    destruct (decide (k ∈ vs.*2)); [rewrite decide_True by set_solver|
      rewrite decide_False by set_solver]; done.
Qed.

Lemma evict_subseteq vs cells : evict vs cells ⊆ cells.
Proof.
  apply map_subseteq_spec. intros k c. rewrite lookup_evict. by case_decide.
Qed.

Lemma size_evict vs cells :
  NoDup vs.*2 → (∀ v, v ∈ vs → is_Some (cells !! v.2)) →
  (size (evict vs cells) + length vs = size cells)%nat.
Proof.
  revert cells. induction vs as [|[t k] vs IH]; intros cells Hnd Hin; simpl; [lia|].
  apply NoDup_cons in Hnd as [Hk Hnd].
  destruct (Hin (t, k)) as [c Hc]; [set_solver|]; simpl in Hc.
  rewrite <- (insert_delete_id cells k c Hc) at 2.
  rewrite map_size_insert_None by apply lookup_delete_eq.
  rewrite <- (IH (delete k cells)); [lia|done|].
  intros [t' k'] Hv. simpl. rewrite lookup_delete_ne.
  - apply (Hin (t', k')). set_solver.
  - intros ->. apply Hk. apply list_elem_of_fmap. by exists (t', k').
Qed.

Lemma size_evict_victims n cells :
  (n ≤ size cells)%nat → (size (evict (take n (victims cells)) cells) + n = size cells)%nat.
Proof.
  intros Hn. rewrite <- (size_evict (take n (victims cells)) cells).
  - rewrite length_take, length_victims. lia.
  - rewrite fmap_take. eapply sublist_NoDup; [apply victims_keys_nodup|apply sublist_take].
  - intros [t k] Hv. apply elem_of_take in Hv as (i & Hi & _).
    apply list_elem_of_lookup_2, elem_of_victims in Hi as (c & Hc & _). by exists c.
Qed.

(** * Bounds *)

Abbreviation CAP := MAX_RATE_LIMITER_KEYS_PER_SHARD.

Lemma cap_halves : (CAP = CAP / 2 + CAP / 2 ∧ 0 < CAP / 2)%nat.
Proof. split; [by apply Nat.eqb_eq; vm_compute|apply Nat.ltb_lt; vm_compute; done]. Qed.

#[local] Opaque MAX_RATE_LIMITER_KEYS_PER_SHARD.

(** What a sweep leaves, and why each missing cell is missing. *)
Definition dropped_rightly (max_idle now : Z) (cells cells' : ShardCells) (k : string) : Prop :=
  ∀ c, cells !! k = Some c → cells' !! k = None →
    is_fresh max_idle now c = false ∨
    (size cells' = CAP / 2)%nat ∧
    ∀ k' c', cells' !! k' = Some c' → victim_le (last_touch_ms c, k) (last_touch_ms c', k').

Lemma retain_fresh_subseteq max_idle now cells : retain_fresh max_idle now cells ⊆ cells.
Proof. apply map_filter_subseteq. Qed.

Lemma lookup_retain_fresh max_idle now cells k c :
  retain_fresh max_idle now cells !! k = Some c ↔
  cells !! k = Some c ∧ is_fresh max_idle now c = true.
Proof. apply map_lookup_filter_Some. Qed.

Lemma taken_before_rest n cells t k t' k' :
  (t, k) ∈ take n (victims cells) → (t', k') ∈ drop n (victims cells) →
  victim_le (t, k) (t', k').
Proof.
  intros H1 H2. pose proof (victims_sorted cells) as Hs.
  rewrite <- (take_drop n (victims cells)) in Hs.
  by eapply StronglySorted_app_1_elem_of.
Qed.

Lemma size_pass_survivor n cells k c :
  evict (take n (victims cells)) cells !! k = Some c →
  (last_touch_ms c, k) ∈ drop n (victims cells).
Proof.
  rewrite lookup_evict. case_decide as Hk; [done|]. intros Hc.
  assert ((last_touch_ms c, k) ∈ victims cells) as Hv by (apply elem_of_victims; eauto).
  rewrite <- (take_drop n (victims cells)) in Hv.
  apply elem_of_app in Hv as [Hv|Hv]; [|done].
  destruct Hk. apply list_elem_of_fmap. by eexists (_, _).
Qed.

Lemma size_pass_victim n cells k c :
  cells !! k = Some c → evict (take n (victims cells)) cells !! k = None →
  (last_touch_ms c, k) ∈ take n (victims cells).
Proof.
  rewrite lookup_evict. case_decide as Hk; [|congruence]. intros Hc _.
  apply list_elem_of_fmap in Hk as ([t k'] & -> & Hv); simpl in *.
  assert ((t, k') ∈ victims cells) as Hv'.
  { rewrite <- (take_drop n (victims cells)). apply elem_of_app. by left. }
  apply elem_of_victims in Hv' as (c' & Hc' & ->). by simplify_eq.
Qed.

Lemma size_subseteq (m m' : ShardCells) : m ⊆ m' → (size m ≤ size m')%nat.
Proof. apply map_subseteq_size. Qed.

Lemma fetch_add_0 ev : 0 ≤ ev < 2 ^ 64 → fetch_add ev 0 = ev.
Proof. unfold fetch_add. intros. rewrite Z.add_0_r. by apply Z.mod_small. Qed.

Lemma counted ev d :
  0 ≤ ev < 2 ^ 64 → 0 ≤ d → (if 0 <? d then fetch_add ev d else ev) = fetch_add ev d.
Proof.
  intros Hev Hd. destruct (Z.ltb_spec 0 d); [done|].
  replace d with 0 by lia. by rewrite fetch_add_0.
Qed.

Lemma retain_idle max_idle now cells k c :
  cells !! k = Some c → retain_fresh max_idle now cells !! k = None →
  is_fresh max_idle now c = false.
Proof.
  intros Hc Hno. destruct (is_fresh max_idle now c) eqn:Hf; [|done].
  assert (retain_fresh max_idle now cells !! k = Some c) by by apply lookup_retain_fresh.
  congruence.
Qed.

(** The sweep of a shard.  It does nothing below the cap, and otherwise
    leaves fewer cells than the cap, so that the key that triggered it fits;
    it only removes cells, and counts every one; and a cell it removes was
    idle, or the sweep left exactly half a shard, each survivor at least as
    recently touched as the cell (ties by key). *)
Theorem sweep_spec max_idle now cells ev cells' ev' :
  (size cells ≤ CAP)%nat → 0 ≤ ev < 2 ^ 64 →
  sweep_if_crowded max_idle now cells ev = (cells', ev') →
  cells' ⊆ cells ∧ (size cells' < CAP)%nat ∧
  ev' = fetch_add ev (Z.of_nat (size cells - size cells')) ∧
  ((size cells < CAP)%nat → cells' = cells) ∧
  (∀ k, dropped_rightly max_idle now cells cells' k).
Proof.
  intros Hcap Hev. unfold sweep_if_crowded.
  destruct (Nat.ltb_spec (size cells) CAP) as [Hlt|Hge].
  { intros [= <- <-]. rewrite Nat.sub_diag, fetch_add_0 by done.
    repeat split; [done..|]. intros k c Hc Hno. congruence. }
  pose proof (retain_fresh_subseteq max_idle now cells) as Hsub.
  pose proof (retain_idle max_idle now cells) as Hidle.
  set (kept := retain_fresh max_idle now cells) in *.
  pose proof (size_subseteq _ _ Hsub). pose proof cap_halves.
  destruct (Nat.leb_spec CAP (size kept)) as [Hfull|Hfit]; intros [= <- <-].
  2: { rewrite counted by lia. repeat split; [done|lia|intros; lia|]. intros k c Hc Hno. left. by eapply Hidle. }
  pose proof (size_evict_victims (excess kept) kept) as Hsz.
  pose proof (evict_subseteq (take (excess kept) (victims kept)) kept) as Hev'.
  assert (excess kept = size kept - CAP / 2)%nat as Hex by done.
  specialize (Hsz ltac:(lia)). rewrite counted by lia.
  repeat split; [by etrans|lia|f_equal; lia|intros; lia|].
  intros k c Hc Hno. destruct (kept !! k) as [c'|] eqn:Hk; [|by left; eapply Hidle].
  right. assert (c' = c) as ->.
  { pose proof (lookup_weaken _ _ _ _ Hk Hsub). congruence. }
  split; [lia|]. intros k' c' Hk'.
  eapply taken_before_rest; [by apply size_pass_victim|by apply size_pass_survivor].
Qed.

(** * The store as a whole *)

Lemma sum_insert {A} (g : A → nat) (l : list A) i x y :
  l !! i = Some x → (sum_list_with g (<[i:=y]> l) + g x = sum_list_with g l + g y)%nat.
Proof.
  revert i. induction l as [|z l IH]; intros [|i] Hi; simplify_eq/=; [lia|].
  specialize (IH _ Hi). lia.
Qed.

Lemma sum_le_length {A} (g : A → nat) (l : list A) n :
  Forall (λ x, (g x ≤ n)%nat) l → (sum_list_with g l ≤ length l * n)%nat.
Proof. induction 1; simpl; lia. Qed.

Lemma shard_for_lt hash_one key : (shard_for hash_one key < GCRA_STORE_SHARDS)%nat.
Proof.
  unfold shard_for, GCRA_STORE_SHARDS. change (Z.of_nat 16 - 1) with (Z.ones 4).
  rewrite Z.land_ones by lia. pose proof (Z.mod_pos_bound (hash_one key) (2 ^ 4)). lia.
Qed.

(** The invariant: sixteen shards, none over the cap, and a 64-bit counter. *)
Definition bounded (s : GcraShardStore) : Prop :=
  length (shards s) = GCRA_STORE_SHARDS ∧ Forall (λ c, (size c ≤ CAP)%nat) (shards s) ∧
  0 ≤ evictions s < 2 ^ 64.

Lemma new_store_bounded mi : bounded (new_store mi).
Proof.
  split; [done|]. split; [|done]. apply Forall_replicate. rewrite map_size_empty. lia.
Qed.

Lemma bounded_shard hash_one key s :
  bounded s → shards s !! shard_for hash_one key = Some (shards s !!! shard_for hash_one key) ∧
              (size (shards s !!! shard_for hash_one key) ≤ CAP)%nat.
Proof.
  intros (Hlen & Hall & _).
  destruct (lookup_lt_is_Some_2 (shards s) (shard_for hash_one key)) as [c Hc].
  { rewrite Hlen. apply shard_for_lt. }
  rewrite (list_lookup_total_correct _ _ _ Hc). split; [done|].
  by eapply list.Forall_lookup in Hall.
Qed.

Section Run.
Context {T E : Type} (hash_one : string → Z).

(** What a caller does to a store. *)
Inductive store_op : Type :=
  | Reserve (now : Z) (key : string) (f : option Z → result E (T * Z))
  | RetainRecent (drop_below : Z).

Definition store_step (o : store_op) (s : GcraShardStore) : GcraShardStore :=
  match o with
  | Reserve now key f => (measure_and_replace hash_one now key f s).2
  | RetainRecent t => retain_recent t s
  end.

Definition swept (now : Z) (key : string) (s : GcraShardStore) : ShardCells :=
  (sweep_if_crowded (max_idle_ms s) now (shards s !!! shard_for hash_one key) (evictions s)).1.

(** The cells an operation adds, and those that [retain_recent] takes away. *)
Definition added (o : store_op) (s : GcraShardStore) : nat :=
  match o with
  | Reserve now key f =>
      if bool_decide (swept now key s !! key = None) && is_ok (f None) then 1 else 0
  | RetainRecent _ => 0
  end.

Definition retired (o : store_op) (s : GcraShardStore) : nat :=
  match o with
  | Reserve _ _ _ => 0
  | RetainRecent t => len s - len (retain_recent t s)
  end.

Fixpoint run (os : list store_op) (s : GcraShardStore) : GcraShardStore * Z :=
  match os with
  | [] => (s, 0)
  | o :: os =>
      let '(s', n) := run os (store_step o s) in
      (s', Z.of_nat (added o s) - Z.of_nat (retired o s) + n)
  end.

Lemma reserve_spec max_idle now key (f : option Z → result E (T * Z)) cells ev :
  (size cells ≤ CAP)%nat → 0 ≤ ev < 2 ^ 64 →
  let cells1 := (sweep_if_crowded max_idle now cells ev).1 in
  let n := if bool_decide (cells1 !! key = None) && is_ok (f None) then 1%nat else 0%nat in
  let '(_, cells', ev') := reserve max_idle now key f cells ev in
  (size cells' = size cells1 + n)%nat ∧ (size cells1 < CAP)%nat ∧ (size cells1 ≤ size cells)%nat ∧
  ev' = fetch_add ev (Z.of_nat (size cells - size cells1)).
Proof.
  intros Hcap Hev. unfold reserve.
  destruct (sweep_if_crowded max_idle now cells ev) as [cells1 ev1] eqn:Hs.
  apply sweep_spec in Hs as (Hsub & Hlt & Hcnt & _ & _); [|done..].
  apply size_subseteq in Hsub. simpl.
  destruct (cells1 !! key) as [cell|] eqn:Hk; simpl.
  - destruct (f (prev_of cell)) as [[r t]|e];
      rewrite map_size_insert_Some by (by eexists); repeat split; lia || done.
  - destruct (f None) as [[r t]|e]; simpl;
      rewrite ?map_size_insert_None by done; repeat split; lia || done.
Qed.

Lemma retain_recent_bounded t s : bounded s → bounded (retain_recent t s).
Proof.
  intros (Hlen & Hall & Hev). split; [by simpl; rewrite length_fmap|]. split; [|done].
  apply list.Forall_fmap. eapply list.Forall_impl; [done|]. intros c Hc. simpl.
  etrans; [|exact Hc]. apply size_subseteq, map_filter_subseteq.
Qed.

Lemma retain_recent_len t s : (len (retain_recent t s) ≤ len s)%nat.
Proof.
  unfold len. simpl. induction (shards s) as [|c cs IH]; csimpl; [done|].
  pose proof (size_subseteq _ _ (map_filter_subseteq (λ kc, t < tat kc.2) c)). lia.
Qed.

(** One operation keeps the invariant and the count of cells. *)
Lemma step_bounded o s :
  bounded s →
  bounded (store_step o s) ∧
  ∃ d : Z, 0 ≤ d ∧ evictions (store_step o s) = fetch_add (evictions s) d ∧
    Z.of_nat (len (store_step o s)) + d =
      Z.of_nat (len s) + Z.of_nat (added o s) - Z.of_nat (retired o s).
Proof.
  intros Hb. destruct o as [now key f|t]; simpl.
  2: { split; [by apply retain_recent_bounded|]. exists 0. destruct Hb as (_ & _ & Hev).
       rewrite fetch_add_0 by done. pose proof (retain_recent_len t s). split_and!; lia. }
  destruct (bounded_shard hash_one key s Hb) as [Hi Hc].
  destruct Hb as (Hlen & Hall & Hev). unfold swept.
  pose proof (reserve_spec (max_idle_ms s) now key f (shards s !!! shard_for hash_one key)
    (evictions s) Hc Hev) as Hr.
  unfold measure_and_replace.
  destruct (reserve _ now key f _ _) as [[r cells'] ev'].
  simpl in *. destruct Hr as (Hsz & Hlt & Hle & ->).
  set (n := if bool_decide _ && _ then 1%nat else 0%nat) in *.
  assert (n ≤ 1)%nat by (unfold n; destruct (_ && _); lia).
  pose proof (sum_insert size _ _ _ cells' Hi) as Hsum.
  split.
  - split; [by simpl; rewrite length_insert|]. split; [|apply Z.mod_pos_bound; lia].
    simpl. apply Forall_insert; [done|lia].
  - eexists. split; [|split; [done|]]; [lia|]. unfold len in *. simpl. lia.
Qed.

Lemma fetch_add_assoc ev a b : fetch_add (fetch_add ev a) b = fetch_add ev (a + b).
Proof. unfold fetch_add. rewrite Zplus_mod_idemp_l. f_equal. lia. Qed.

(** The memory bound of a window's keyed store, over any sequence of
    reservations and retentions from its creation, whatever the decisions, the
    clock and the hash: no shard ever exceeds its cap, so the store holds at
    most 16 * 4096 keys; and no cell is lost unseen: the cells added are the
    ones that live, the ones [retain_recent] took, and the eviction counter. *)
Theorem store_bounded mi os :
  let '(s, net) := run os (new_store mi) in
  Forall (λ c, (size c ≤ CAP)%nat) (shards s) ∧
  (len s ≤ GCRA_STORE_SHARDS * CAP)%nat ∧
  evictions s = (net - Z.of_nat (len s)) mod 2 ^ 64.
Proof.
  assert (∀ s, bounded s → let '(s', net) := run os s in bounded s' ∧ ∃ d,
    evictions s' = fetch_add (evictions s) d ∧
    Z.of_nat (len s') + d = Z.of_nat (len s) + net) as Hrun.
  { induction os as [|o os IH]; intros s Hb; simpl.
    - split; [done|]. exists 0. destruct Hb as (_ & _ & ?). rewrite fetch_add_0 by done. lia.
    - destruct (step_bounded o s Hb) as (Hb' & d & Hd & Hev & Hlen).
      specialize (IH _ Hb'). destruct (run os _) as [s' n].
      destruct IH as (Hb'' & d' & Hev' & Hlen'). split; [done|]. exists (d + d').
      split; [by rewrite Hev', Hev, fetch_add_assoc|lia]. }
  specialize (Hrun _ (new_store_bounded mi)). destruct (run os (new_store mi)) as [s net].
  destruct Hrun as ((Hl & Hall & _) & d & Hev & Hlen). split; [done|]. split.
  - etrans; [by apply sum_le_length|]. by rewrite Hl.
  - rewrite Hev. unfold fetch_add. f_equal. simpl. change (len (new_store mi)) with 0%nat in Hlen. lia.
Qed.
End Run.

(** * Against a store that forgets nothing

    The specification of a keyed store is a map that keeps the arrival time
    of every key for ever. *)
Section Unbounded.
Context {T E : Type} (hash_one : string → Z).

(** One reservation: governor's instant [t0], the store's millisecond [ms],
    the key, and governor's closure. *)
Record reservation : Type := Request {
  rq_t0 : Z; rq_ms : Z; rq_key : string; rq_decide : option Z → result E (T * Z);
}.

Definition unbounded_reserve (r : reservation) (m : gmap string Z) : result E T * gmap string Z :=
  match rq_decide r (m !! rq_key r) with
  | Ok (outcome, new_tat) => (Ok outcome, <[rq_key r := new_tat]> m)
  | Err e => (Err e, m)
  end.

Definition bounded_reserve (r : reservation) (s : GcraShardStore) : result E T * GcraShardStore :=
  measure_and_replace hash_one (rq_ms r) (rq_key r) (rq_decide r) s.

Fixpoint unbounded_run (rs : list reservation) (m : gmap string Z) : list (result E T) :=
  match rs with
  | [] => []
  | r :: rs => let '(o, m) := unbounded_reserve r m in o :: unbounded_run rs m
  end.

Fixpoint bounded_run (rs : list reservation) (s : GcraShardStore) : list (result E T) :=
  match rs with
  | [] => []
  | r :: rs => let '(o, s) := bounded_reserve r s in o :: bounded_run rs s
  end.

(** No sweep of the run reaches its size pass: when a shard is full, some of
    its cells are idle. *)
Definition calm_at (r : reservation) (s : GcraShardStore) : bool :=
  (size (retain_fresh (max_idle_ms s) (rq_ms r) (shards s !!! shard_for hash_one (rq_key r))) <? CAP)%nat.

Fixpoint calm (rs : list reservation) (s : GcraShardStore) : bool :=
  match rs with
  | [] => true
  | r :: rs => calm_at r s && calm rs (bounded_reserve r s).2
  end.

(** What the store relies on.  GCRA, with a bucket that refills in [tau]: an
    arrival time in the past counts as none, and a new one is positive and at
    most a full refill ahead.  The clocks: time does not go back, and once the
    store's clock has advanced by the idle threshold since an earlier request,
    governor's has advanced by a full refill. *)
Definition gcra (tau : Z) (r : reservation) : Prop :=
  (∀ t, t ≤ rq_t0 r → rq_decide r (Some t) = rq_decide r None) ∧
  (∀ p o t, rq_decide r p = Ok (o, t) → 0 < t ≤ rq_t0 r + tau).

Definition clocks_agree (tau mi : Z) (r r' : reservation) : Prop :=
  rq_t0 r ≤ rq_t0 r' ∧ (mi ≤ saturating_sub (rq_ms r') (rq_ms r) → rq_t0 r + tau ≤ rq_t0 r').

(** The two stores agree on the keys the bounded one knows; a key it has
    dropped has its arrival time in the past of every request to come. *)
Definition cell_tracks (tau mi : Z) (rs : list reservation) (c : GcraCell) : Prop :=
  0 < tat c ∧ Forall (λ r, tat c ≤ rq_t0 r + tau ∧
    (mi ≤ saturating_sub (rq_ms r) (last_touch_ms c) → tat c ≤ rq_t0 r)) rs.

Definition key_tracks (tau mi : Z) (rs : list reservation) (oc : option GcraCell) (ot : option Z) : Prop :=
  match oc with
  | Some c => ot = Some (tat c) ∧ cell_tracks tau mi rs c
  | None => ∀ t, ot = Some t → Forall (λ r, t ≤ rq_t0 r) rs
  end.

Definition tracks (tau : Z) (rs : list reservation) (s : GcraShardStore) (m : gmap string Z) : Prop :=
  bounded s ∧ ∀ k, key_tracks tau (max_idle_ms s) rs (cell_of hash_one s k) (m !! k).

Lemma calm_sweep mi now cells ev :
  (size (retain_fresh mi now cells) < CAP)%nat →
  let cells' := (sweep_if_crowded mi now cells ev).1 in
  ∀ k, cells' !! k = cells !! k ∨
       cells' !! k = None ∧ ∃ c, cells !! k = Some c ∧ mi ≤ saturating_sub now (last_touch_ms c).
Proof.
  intros Hcalm. unfold sweep_if_crowded.
  destruct (Nat.ltb_spec (size cells) CAP); [by left|].
  destruct (Nat.leb_spec CAP (size (retain_fresh mi now cells))); [lia|]. simpl. intros k.
  destruct (retain_fresh mi now cells !! k) as [c|] eqn:Hk.
  - apply lookup_retain_fresh in Hk as [Hk _]. by left.
  - destruct (cells !! k) as [c|] eqn:Hc; [|by left]. right. split; [done|]. exists c.
    split; [done|]. eapply retain_idle in Hc; [|done]. unfold is_fresh in Hc.
    by apply Z.ltb_ge.
Qed.

Lemma cell_of_update s i cells mi ev k :
  (i < length (shards s))%nat →
  cell_of hash_one (Store (<[i:=cells]> (shards s)) mi ev) k =
    if decide (shard_for hash_one k = i) then cells !! k else cell_of hash_one s k.
Proof.
  intros Hi. unfold cell_of. simpl. case_decide as Hk.
  - by rewrite Hk, list_lookup_total_insert_eq.
  - by rewrite list_lookup_total_insert_ne.
Qed.

Lemma key_tracks_tail tau mi r rs oc ot :
  key_tracks tau mi (r :: rs) oc ot → key_tracks tau mi rs oc ot.
Proof.
  destruct oc as [c|]; simpl.
  - intros (-> & Hpos & Hall). split; [done|]. split; [done|]. by apply list.Forall_cons in Hall as [_ ?].
  - intros Hall t Ht. specialize (Hall t Ht). by apply list.Forall_cons in Hall as [_ ?].
Qed.

Lemma key_tracks_dropped tau mi r rs c ot :
  key_tracks tau mi (r :: rs) (Some c) ot → Forall (clocks_agree tau mi r) rs →
  mi ≤ saturating_sub (rq_ms r) (last_touch_ms c) → key_tracks tau mi (r :: rs) None ot.
Proof.
  intros (-> & _ & Hall) Hcl Hidle t [= <-]. apply list.Forall_cons in Hall as [[_ Hr] _].
  specialize (Hr Hidle). constructor; [done|]. eapply list.Forall_impl; [done|].
  intros r' [Hle _]. lia.
Qed.

Lemma touched_tracks tau mi r rs t :
  0 < t ≤ rq_t0 r + tau → Forall (clocks_agree tau mi r) rs →
  cell_tracks tau mi rs (Cell t (rq_ms r)).
Proof.
  intros Ht Hcl. split; [simpl; lia|]. eapply list.Forall_impl; [done|].
  intros r' [Hle Hidle]. simpl. split; [lia|]. intros Hi. specialize (Hidle Hi). lia.
Qed.

(** The decision the bounded store takes on a tracked cell. *)
Lemma tracked_decision tau mi r rs oc ot :
  gcra tau r → key_tracks tau mi (r :: rs) oc ot →
  rq_decide r ot = rq_decide r (match oc with Some c => prev_of c | None => None end).
Proof.
  intros [Hpast _]. destruct oc as [c|]; simpl.
  - intros (-> & Hpos & _). unfold prev_of. by destruct (Z.eqb_spec (tat c) 0); [lia|].
  - destruct ot as [t|]; [|done]. intros H. apply Hpast.
    specialize (H t eq_refl). by apply list.Forall_cons in H as [? _].
Qed.

(** Writing one key of a shard, the others as they were. *)
Lemma tracks_write tau r rs s (m : gmap string Z) k0 (cells1 cells2 : ShardCells) (m2 : gmap string Z) ev :
  let s2 := Store (<[shard_for hash_one k0 := cells2]> (shards s)) (max_idle_ms s) ev in
  bounded s → bounded s2 → tracks tau (r :: rs) s m →
  (∀ k, shard_for hash_one k = shard_for hash_one k0 →
    key_tracks tau (max_idle_ms s) (r :: rs) (cells1 !! k) (m !! k)) →
  (∀ k, k ≠ k0 → cells2 !! k = cells1 !! k ∧ m2 !! k = m !! k) →
  key_tracks tau (max_idle_ms s) rs (cells2 !! k0) (m2 !! k0) →
  tracks tau rs s2 m2.
Proof.
  intros s2 [Hlen _] Hb2 [_ Ht] H1 Hsame Hk0. split; [done|]. intros k. unfold s2.
  rewrite cell_of_update by (rewrite Hlen; apply shard_for_lt). simpl.
  destruct (decide (k = k0)) as [->|Hne]; [by rewrite decide_True|].
  destruct (Hsame k Hne) as [-> ->]. case_decide as Hi; apply (key_tracks_tail _ _ r).
  - by apply H1.
  - apply Ht.
Qed.

Lemma tracks_step tau r rs s (m : gmap string Z) :
  gcra tau r → Forall (clocks_agree tau (max_idle_ms s) r) rs → calm_at r s = true →
  tracks tau (r :: rs) s m →
  (bounded_reserve r s).1 = (unbounded_reserve r m).1 ∧
  max_idle_ms (bounded_reserve r s).2 = max_idle_ms s ∧
  tracks tau rs (bounded_reserve r s).2 (unbounded_reserve r m).2.
Proof.
  intros Hg Hcl Hcalm Ht. pose proof Ht as [Hb Ht'].
  pose proof (step_bounded hash_one (Reserve (rq_ms r) (rq_key r) (rq_decide r)) s Hb) as [Hb' _].
  simpl in Hb'. unfold bounded_reserve, unbounded_reserve, measure_and_replace in *.
  apply Nat.ltb_lt in Hcalm.
  pose proof (calm_sweep _ _ _ (evictions s) Hcalm) as Hsw. simpl in Hsw.
  unfold reserve in *. destruct (sweep_if_crowded _ _ _ _) as [cells1 ev1]; simpl in *.
  assert (∀ k, shard_for hash_one k = shard_for hash_one (rq_key r) →
    key_tracks tau (max_idle_ms s) (r :: rs) (cells1 !! k) (m !! k)) as Hk1.
  { intros k Hk. specialize (Ht' k). unfold cell_of in Ht'. rewrite Hk in Ht'.
    destruct (Hsw k) as [->|(-> & c & Hc & Hidle)]; [done|].
    rewrite Hc in Ht'. by eapply key_tracks_dropped. }
  pose proof (Hk1 (rq_key r) eq_refl) as Hkey. clear Hsw Ht'.
  rewrite (tracked_decision _ _ _ _ _ _ Hg Hkey).
  destruct (cells1 !! rq_key r) as [c|] eqn:Hc.
  - destruct (rq_decide r (prev_of c)) as [[o t]|e] eqn:Hd; simpl in *; (split_and!; [done..|]);
      eapply tracks_write; try done; try (intros k Hne; split; by rewrite ?lookup_insert_ne);
      rewrite ?lookup_insert_eq; simpl.
    + split; [done|]. eapply touched_tracks; [|done]. by eapply Hg.
    + destruct Hkey as (-> & Hpos & Hall). split; [done|].
      apply list.Forall_cons in Hall as [[Hle _] _]. by apply (touched_tracks tau _ r).
  - destruct (rq_decide r None) as [[o t]|e] eqn:Hd; simpl in *; (split_and!; [done..|]);
      eapply tracks_write; try done; try (intros k Hne; split; by rewrite ?lookup_insert_ne);
      rewrite ?lookup_insert_eq; simpl.
    + split; [done|]. eapply touched_tracks; [|done]. by eapply Hg.
    + rewrite Hc. by eapply key_tracks_tail.
Qed.

Lemma empty_cell mi k : cell_of hash_one (new_store mi) k = None.
Proof.
  unfold cell_of. destruct (lookup_lt_is_Some_2 (shards (new_store mi)) (shard_for hash_one k)) as [c Hc].
  { exact (shard_for_lt hash_one k). }
  rewrite (list_lookup_total_correct _ _ _ Hc).
  change (shards _) with (replicate GCRA_STORE_SHARDS (∅ : ShardCells)) in Hc. apply lookup_replicate in Hc as [-> _].
  apply lookup_empty.
Qed.

Lemma idle_simulation tau mi rs :
  Forall (gcra tau) rs → StronglySorted (clocks_agree tau mi) rs →
  calm rs (new_store mi) = true →
  bounded_run rs (new_store mi) = unbounded_run rs ∅.
Proof.
  assert (tracks tau rs (new_store mi) ∅) as Ht.
  { split; [apply new_store_bounded|]. intros k. by rewrite empty_cell. }
  change mi with (max_idle_ms (new_store mi)) at 1.
  revert Ht. generalize (new_store mi) as s, (∅ : gmap string Z) as m.
  induction rs as [|r rs IH]; intros s m Ht Hg Hcl Hcalm; simpl in *; [done|].
  apply list.Forall_cons in Hg as [Hg1 Hg]. apply StronglySorted_inv in Hcl as [Hcl Hcl1].
  apply andb_prop in Hcalm as [Hcalm1 Hcalm].
  destruct (tracks_step tau r rs s m) as (Ho & Hmi & Ht'); [done..|].
  destruct (bounded_reserve r s) as [o s'], (unbounded_reserve r m) as [o' m']; simpl in *.
  subst o'. f_equal. apply IH; [done..| |done]. by rewrite Hmi.
Qed.

(** C9: The idle pass cannot be observed.  As long as no sweep has to evict
    fresh keys, and the clocks agree (a key that the millisecond clock finds idle
    has a full bucket by the limiter's clock, which does not step back; the
    truncated threshold does not ensure it, see [zero_threshold_forgets_all]), the store of
    bounded size takes exactly the decisions of a store that forgets nothing,
    request by request. *)
Theorem idle_drops_unobservable tau mi rs :
  Forall (gcra tau) rs → StronglySorted (clocks_agree tau mi) rs →
  calm rs (new_store mi) = true →
  bounded_run rs (new_store mi) = unbounded_run rs ∅.
Proof. apply idle_simulation. Qed.
End Unbounded.

(** The threshold is in whole milliseconds: a bucket that refills in less has
    threshold 0, every cell is idle, and a crowded shard forgets all its
    keys, the throttled ones included. *)
Lemma zero_threshold_forgets_all max_idle now cells ev :
  max_idle ≤ 0 → (CAP ≤ size cells)%nat →
  (sweep_if_crowded max_idle now cells ev).1 = ∅.
Proof.
  intros Hmi Hfull. pose proof cap_halves.
  assert (retain_fresh max_idle now cells = ∅) as Hno.
  { apply map_empty. intros k. apply eq_None_not_Some. intros [c Hc].
    apply lookup_retain_fresh in Hc as [_ Hf]. unfold is_fresh, saturating_sub in Hf.
    apply Z.ltb_lt in Hf. lia. }
  unfold sweep_if_crowded. destruct (Nat.ltb_spec (size cells) CAP); [lia|].
  rewrite Hno, map_size_empty. by destruct (Nat.leb_spec CAP 0); [lia|].
Qed.

(** * A shard that stays full *)
Section Steady.
Context {T E : Type} (name : Z → string) (stamp_tat : Z → Z) (name_inj : ∀ i j, name i = name j → i = j).

(** One cell for each of the last [n] milliseconds. *)
Definition steady (n : nat) (now : Z) : ShardCells :=
  list_to_map ((λ j, (name j, Cell (stamp_tat j) j)) <$> seqZ (now - Z.of_nat n) (Z.of_nat n)).

Lemma steady_keys_nodup n now :
  NoDup ((λ j, (name j, Cell (stamp_tat j) j)) <$> seqZ (now - Z.of_nat n) (Z.of_nat n)).*1.
Proof using name_inj.
  rewrite <- list_fmap_compose. apply NoDup_fmap_2_strong, NoDup_seqZ.
  intros i j _ _ Hij. by apply name_inj.
Qed.

Lemma lookup_steady n now k c :
  steady n now !! k = Some c ↔
  ∃ j, now - Z.of_nat n ≤ j < now ∧ k = name j ∧ c = Cell (stamp_tat j) j.
Proof using name_inj.
  unfold steady. rewrite <- elem_of_list_to_map by apply steady_keys_nodup.
  rewrite list_elem_of_fmap. split.
  - intros (j & [= -> ->] & Hj). apply elem_of_seqZ in Hj. exists j. split; [lia|done].
  - intros (j & Hj & -> & ->). exists j. split; [done|]. apply elem_of_seqZ. lia.
Qed.

Lemma size_steady n now : size (steady n now) = n.
Proof using name_inj.
  unfold steady. rewrite map_size_list_to_map by apply steady_keys_nodup.
  rewrite length_fmap, length_seqZ. lia.
Qed.

(** At [now], the oldest cell is the only idle one. *)
Lemma retain_steady n now :
  retain_fresh (Z.of_nat n) now (steady n now) =
  delete (name (now - Z.of_nat n)) (steady n now).
Proof using name_inj.
  apply map_eq. intros k. apply option_eq. intros c.
  rewrite lookup_retain_fresh, lookup_delete_Some, lookup_steady.
  unfold is_fresh, saturating_sub. rewrite Z.ltb_lt. split.
  - intros ((j & Hj & -> & ->) & Hf'). simpl in Hf'. split; [|by exists j].
    intros Heq%name_inj. lia.
  - intros (Hne & j & Hj & -> & ->). simpl. split; [by exists j|].
    destruct (decide (j = now - Z.of_nat n)) as [->|]; [done|lia].
Qed.

(** Replacing the oldest cell by a new one advances the steady state. *)
Lemma insert_steady n now :
  (0 < n)%nat →
  <[name now := Cell (stamp_tat now) now]> (delete (name (now - Z.of_nat n)) (steady n now)) =
  steady n (now + 1).
Proof using name_inj.
  intros Hn. apply map_eq. intros k. apply option_eq. intros c'.
  rewrite lookup_insert_Some, lookup_delete_Some, !lookup_steady. split.
  - intros [[<- <-]|(Hne & Hne' & j & Hj & -> & ->)]; [exists now; split; [lia|done]|].
    exists j. split; [|done]. destruct (decide (j = now - Z.of_nat n)) as [->|]; [done|lia].
  - intros (j & Hj & -> & ->). destruct (decide (j = now)) as [->|]; [by left|right].
    split; [intros Heq%name_inj; lia|]. split; [intros Heq%name_inj; lia|].
    exists j. split; [lia|done].
Qed.

Lemma steady_oldest n now : (0 < n)%nat → is_Some (steady n now !! name (now - Z.of_nat n)).
Proof using name_inj. intros Hn. eexists. apply lookup_steady. eexists. split; [|done]. lia. Qed.

Lemma steady_fresh_name n now : steady n now !! name now = None.
Proof using name_inj.
  apply eq_None_not_Some. intros [c' (j & Hj & Heq%name_inj & _)%lookup_steady]. lia.
Qed.

(** A full shard can stay full.  When one new key arrives each millisecond
    and the idle threshold is [CAP] milliseconds, every insertion finds the
    shard at its cap, scans all of it, drops exactly the one cell that has
    just become idle, and fills it again: the sweep is not amortised over the
    insertions, it runs at each of them. *)
Theorem sweep_at_every_insertion now (f : option Z → result E (T * Z)) o ev :
  0 ≤ ev < 2 ^ 64 → f None = Ok (o, stamp_tat now) →
  reserve (Z.of_nat CAP) now (name now) f (steady CAP now) ev =
    (Ok o, steady CAP (now + 1), fetch_add ev 1).
Proof using name_inj.
  intros Hev Hf. pose proof cap_halves as Hcap. assert (0 < CAP)%nat as Hpos by lia.
  unfold reserve, sweep_if_crowded.
  rewrite size_steady, retain_steady, map_size_delete_Some by (by apply steady_oldest).
  rewrite size_steady, Nat.ltb_irrefl.
  destruct (Nat.leb_spec CAP (pred CAP)); [lia|]. simpl.
  rewrite counted by lia. replace (Z.of_nat (CAP - pred CAP)) with 1 by lia.
  rewrite (proj2 (lookup_delete_None _ _ _)) by (right; apply steady_fresh_name).
  by rewrite Hf, insert_steady by lia.
Qed.
End Steady.

(** * Concrete runs *)

(** A GCRA bucket of [tau] nanoseconds, each request taking [inc] of them. *)
Definition sample_gcra (tau inc now : Z) (p : option Z) : result Z (Z * Z) :=
  let tat := match p with Some t => Z.max t now | None => now end in
  if tat + inc - tau <=? now then Ok (now + tau - (tat + inc), tat + inc)
  else Err (tat + inc - tau - now).

Definition sample_hash (key : string) : Z := Z.of_nat (String.length key).

(** Ten milliseconds hold two requests; the third of the first burst is denied. *)
Definition sample_requests : list (@reservation Z Z) :=
  (λ '(t, k), Request (t * 1000000) t k (sample_gcra 10000000 5000000 (t * 1000000))) <$>
    [(1, "a"); (1, "a"); (2, "a"); (4, "bb"); (30, "a")].

Lemma sample_gcra_ok now : 0 ≤ now → ∀ ms key,
  gcra 10000000 (Request now ms key (sample_gcra 10000000 5000000 now)).
Proof.
  intros Hnow ms key. split; simpl; unfold sample_gcra.
  - intros t Ht. by rewrite Z.max_r.
  - intros p o t. case_match eqn:Hle; [|done]. intros [= _ <-]. destruct p; lia.
Qed.

Lemma sweep_spec_witness :
  ∃ cells' ev',
    sweep_if_crowded 10 100 {["a" := Cell 7 1]} 3 = (cells', ev') ∧ (size cells' < CAP)%nat.
Proof.
  eexists _, _. split; [reflexivity|].
  apply (sweep_spec 10 100 {["a" := Cell 7 1]} 3 _ 3); [|lia|reflexivity].
  rewrite map_size_singleton. pose proof cap_halves. lia.
Defined.

Lemma idle_drops_unobservable_witness :
  bounded_run sample_hash sample_requests (new_store 10) = unbounded_run sample_requests ∅ ∧
  is_ok <$> unbounded_run sample_requests ∅ = [true; true; false; true; true].
Proof.
  split; [|vm_compute; reflexivity].
  apply (idle_drops_unobservable sample_hash 10000000 10).
  - repeat apply list.Forall_cons_2; try (apply sample_gcra_ok; lia). apply list.Forall_nil_2.
  - repeat constructor; vm_compute; congruence.
  - vm_compute. reflexivity.
Defined.

Lemma sweep_at_every_insertion_witness :
  reserve (Z.of_nat CAP) 9 (pretty 9) (sample_gcra 10 1 9) (steady pretty (λ j, j + 1) CAP 9) 0 =
    (Ok 9, steady pretty (λ j, j + 1) CAP 10, 1).
Proof.
  refine (sweep_at_every_insertion (E := Z) pretty (λ j, j + 1) _ 9 (sample_gcra 10 1 9) 9 0 _ _);
    [intros i j; apply (inj pretty)|lia|reflexivity].
Defined.
