(* ===== verification/RateLimiter.v ===== *)
(** The limiters of src/crates/dwara-core/src/extensions/rate_limiter.rs: the
    fixed-window [InMemoryRateLimiter], and [GcraRateLimiter], which stacks
    windows of governor's cells, each over a store of RateStore.v.

    governor is a third-party crate: the class [Governor] lists what the code
    calls of it, and every definition and theorem is over any instance.  The
    clocks are arguments. *)

From S2P Require Import Prelude.
From S2P Require Import Breaker.
From S2P Require Import RateStore.
From stdpp Require Import sorting gmap strings.
Local Open Scope Z_scope.

(** * Decisions *)

Record RateDecision : Type := Decided {
  allowed : bool; remaining : Z; retry_after_ms : option Z;
}.

(** * The fixed window *)

Record WindowState : Type := Window { window_start_ms : Z; used : Z }.

Record InMemoryRateLimiter : Type := InMemory {
  limit : Z;              (* u64 *)
  window_ms : Z;          (* u64, widened to u128 *)
  windows : gmap string WindowState;
}.

Definition new_in_memory (lim win : Z) : InMemoryRateLimiter := InMemory lim win ∅.

Definition u64_wrap (z : Z) : Z := z mod 2 ^ 64.

(** The part of [check] under the mutex, on the key's window. *)
Definition check_window (lim win now cost : Z) (state : WindowState)
    : RateDecision * WindowState :=
  let state :=
    if win <=? saturating_sub now (window_start_ms state) then Window now 0 else state in
  if u64_wrap (used state + cost) <=? lim then
    let state := Window (window_start_ms state) (u64_wrap (used state + cost)) in
    (Decided true (u64_wrap (lim - used state)) None, state)
  else
    let wait := win - saturating_sub now (window_start_ms state) in
    (Decided false (u64_wrap (lim - used state)) (Some (if wait <? 2 ^ 64 then wait else 0)), state).

Definition check_in_memory (now : Z) (key : string) (cost : Z) (l : InMemoryRateLimiter)
    : RateDecision * InMemoryRateLimiter :=
  let state := default (Window now 0) (windows l !! key) in
  let '(d, state) := check_window (limit l) (window_ms l) now cost state in
  (d, InMemory (limit l) (window_ms l) (<[key := state]> (windows l))).

(** * Stacked windows *)

(** What the code calls of governor.  [check_n q n now] is [None] when [n]
    units can never fit the bucket, and otherwise the closure that
    [check_key_n] hands to the store: from the arrival time it reads to the
    remaining capacity and the arrival time it writes, or to a refusal. *)
Class Governor : Type := {
  Quota : Type;
  NotUntil : Type;
  with_period : Z → option Quota;
  per_second : Z → Quota;
  allow_burst : Z → Quota → Quota;
  burst_size_replenished_in : Quota → Z;
  check_n : Quota → Z → Z → option (option Z → result NotUntil (Z * Z));
  wait_time_from : NotUntil → Z → Z;
}.

Record GcraWindowSpec : Type := Spec {
  requests : Z;           (* NonZeroU32 *)
  window : Z;             (* Duration, in nanoseconds *)
  spec_burst : option Z;
}.

Record GcraOutcome : Type := Outcome {
  decision : RateDecision; outcome_limit : Z; refill_ms : Z;
}.

#[global] Instance GcraOutcome_eq_dec : EqDecision GcraOutcome.
Proof. unfold EqDecision, Decision. repeat decide equality. Defined.

(** The instants one window's check reads: governor's clock before, the
    store's, and governor's again for the wait. *)
Record Instants : Type := Ticks { gov_now : Z; store_ms : Z; gov_after : Z }.

(** [Duration::as_millis() as u64]. *)
Definition as_millis (ns : Z) : Z := u64_wrap (ns / 1000000).

Section Gcra.
Context `{Governor} (hash_one : string → Z).

(** The counter of evictions is a field of the store it is shared with. *)
Record GcraWindow : Type := GWindow {
  quota : Quota; store : GcraShardStore; burst : Z; full_refill_ms : Z;
}.

Abbreviation GcraRateLimiter := (list GcraWindow).

Definition build_window (spec : GcraWindowSpec) : GcraWindow :=
  let b := default (requests spec) (spec_burst spec) in
  let q := allow_burst b (default (per_second (requests spec)) (with_period (window spec / requests spec))) in
  let refill := as_millis (burst_size_replenished_in q) in
  GWindow q (new_store refill) b refill.

(** [sort_by_key]: a stable sort. *)
Definition by_window (a b : GcraWindowSpec) : Prop := window a ≤ window b.

#[global] Instance by_window_dec : RelDecision by_window.
Proof. unfold by_window. solve_decision. Defined.

Definition build (specs : list GcraWindowSpec) : option GcraRateLimiter :=
  match specs with
  | [] => None
  | _ => Some (build_window <$> merge_sort by_window specs)
  end.

Definition live_keys (l : GcraRateLimiter) : nat := sum_list_with (λ w, len (store w)) l.

Definition total_evictions (l : GcraRateLimiter) : Z :=
  foldr Z.add 0 ((λ w, evictions (store w)) <$> l).

Definition denied_outcome (lim retry : Z) : GcraOutcome :=
  Outcome (Decided false 0 (Some retry)) lim retry.

(** One window's answer: [Ok] with the candidate, or [Err] with the denial. *)
Definition check_window_n (w : GcraWindow) (key : string) (cost : Z) (t : Instants)
    : result GcraOutcome GcraOutcome * GcraWindow :=
  match check_n (quota w) cost (gov_now t) with
  | None => (Err (denied_outcome (burst w) (full_refill_ms w)), w)
  | Some f =>
      let '(r, s) := measure_and_replace hash_one (store_ms t) key f (store w) in
      let w' := GWindow (quota w) s (burst w) (full_refill_ms w) in
      match r with
      | Ok capacity =>
          (Ok (Outcome (Decided true capacity None) (burst w)
                 (as_millis (burst_size_replenished_in (quota w)))), w')
      | Err not_until =>
          (Err (denied_outcome (burst w) (as_millis (wait_time_from not_until (gov_after t)))), w')
      end
  end.

(** Keep the candidate only when strictly fewer units remain. *)
Definition bind_least (binding : option GcraOutcome) (candidate : GcraOutcome) : option GcraOutcome :=
  match binding with
  | None => Some candidate
  | Some b => if remaining (decision candidate) <? remaining (decision b) then Some candidate else binding
  end.

(** The loop of [check]: it returns at the first denial. *)
Fixpoint check_windows (ws : list GcraWindow) (key : string) (cost : Z) (ts : nat → Instants)
    (binding : option GcraOutcome) : option GcraOutcome * list GcraWindow :=
  match ws with
  | [] => (binding, [])
  | w :: ws =>
      match check_window_n w key cost (ts O) with
      | (Err o, w) => (Some o, w :: ws)
      | (Ok o, w) =>
          let '(r, ws) := check_windows ws key cost (ts ∘ S) (bind_least binding o) in
          (r, w :: ws)
      end
  end.

(** [GcraRateLimiter::check]; [None] is the panic of the last [expect]. *)
Definition check_gcra (l : GcraRateLimiter) (key : string) (cost : Z) (ts : nat → Instants)
    : option GcraOutcome * GcraRateLimiter :=
  check_windows l key (Z.max cost 1) ts None.

(** * What a check of stacked windows does

    Each window answers from its own store alone; the check is a fold over
    those answers. *)

Definition answers (ws : list GcraWindow) (key : string) (cost : Z) (ts : nat → Instants)
    : list (result GcraOutcome GcraOutcome * GcraWindow) :=
  imap (λ i w, check_window_n w key cost (ts i)) ws.

(** The position and outcome of the first denial. *)
Fixpoint first_denial {A} (rs : list (result GcraOutcome GcraOutcome * A)) : option (nat * GcraOutcome) :=
  match rs with
  | [] => None
  | (Err o, _) :: _ => Some (O, o)
  | (Ok _, _) :: rs => (λ '(i, o), (S i, o)) <$> first_denial rs
  end.

Definition candidates {A} (rs : list (result GcraOutcome GcraOutcome * A)) : list GcraOutcome :=
  omap (λ r, match r.1 with Ok o => Some o | Err _ => None end) rs.

(** The specification: the windows up to the first denial are charged, and
    the outcome is the first denial, or else the tightest candidate. *)
Definition check_spec (ws : list GcraWindow) (key : string) (cost : Z) (ts : nat → Instants)
    (binding : option GcraOutcome) : option GcraOutcome * list GcraWindow :=
  let rs := answers ws key cost ts in
  match first_denial rs with
  | Some (i, o) => (Some o, take (S i) rs.*2 ++ drop (S i) ws)
  | None => (foldl bind_least binding (candidates rs), rs.*2)
  end.

Lemma check_windows_spec ws key cost ts binding :
  check_windows ws key cost ts binding = check_spec ws key cost ts binding.
Proof.
  revert ts binding. induction ws as [|w ws IH]; intros ts binding; [done|].
  unfold check_spec, answers. rewrite imap_cons. simpl.
  destruct (check_window_n w key cost (ts O)) as [[o|o] w'] eqn:Hw; simpl; [|by rewrite drop_0].
  rewrite IH. unfold check_spec, answers, compose.
  by destruct (first_denial _) as [[i o']|].
Qed.

Lemma bind_least_spec rs b :
  ∃ o, foldl bind_least (Some b) rs = Some o ∧ o ∈ b :: rs ∧
    Forall (λ c, remaining (decision o) ≤ remaining (decision c)) (b :: rs).
Proof.
  revert b. induction rs as [|c rs IH]; intros b; simpl.
  - exists b. split; [done|]. split; [set_solver|]. by constructor.
  - destruct (Z.ltb_spec (remaining (decision c)) (remaining (decision b))) as [Hlt|Hge].
    + destruct (IH c) as (o & -> & Hin & Hall). exists o. split; [done|]. split; [set_solver|].
      apply list.Forall_cons in Hall as [Hc Hall]. repeat constructor; [lia|done..].
    + destruct (IH b) as (o & -> & Hin & Hall). exists o. split; [done|]. split; [set_solver|].
      apply list.Forall_cons in Hall as [Hc Hall]. repeat constructor; [lia|lia|done].
Qed.

Lemma first_denial_none {A} (rs : list (result GcraOutcome GcraOutcome * A)) :
  first_denial rs = None ↔ Forall (λ r, is_ok r.1 = true) rs.
Proof.
  induction rs as [|[[o|o] x] rs IH]; simpl.
  - by split; [constructor|].
  - rewrite list.Forall_cons, <- IH. simpl. destruct (first_denial rs) as [[i o']|]; naive_solver.
  - split; [done|]. intros H'. by inversion H'.
Qed.

Lemma candidate_allowed ws key cost ts o :
  o ∈ candidates (answers ws key cost ts) → allowed (decision o) = true.
Proof.
  unfold candidates, answers. intros (r & Hr & Ho)%list_elem_of_omap.
  apply elem_of_lookup_imap in Hr as (i & w & -> & _). revert Ho. unfold check_window_n.
  destruct (check_n _ _ _) as [f|]; [|done].
  destruct (measure_and_replace _ _ _ _ _) as [[c|e] s']; simpl; [|done]. by intros [= <-].
Qed.

Lemma window_refuses w key cost t o w' :
  check_window_n w key cost t = (Err o, w') →
  allowed (decision o) = false ∧ is_Some (retry_after_ms (decision o)).
Proof.
  unfold check_window_n. destruct (check_n _ _ _) as [f|]; [|intros [= <- <-]; by eauto].
  destruct (measure_and_replace _ _ _ _ _) as [[c|e] s']; [done|]. intros [= <- <-]. by eauto.
Qed.

Lemma denial_refuses ws key cost ts i o :
  first_denial (answers ws key cost ts) = Some (i, o) →
  allowed (decision o) = false ∧ is_Some (retry_after_ms (decision o)).
Proof.
  unfold answers. revert ts i. induction ws as [|w ws IH]; intros ts i; [done|].
  rewrite imap_cons. simpl.
  destruct (check_window_n w key cost (ts O)) as [[o'|o'] w'] eqn:Hw.
  - unfold compose. destruct (first_denial (imap _ ws)) as [[j d]|] eqn:Hd; [|done].
    simpl. intros [= _ <-]. by apply (IH (ts ∘ S) j).
  - intros [= _ <-]. by eapply window_refuses.
Qed.

(** A check of stacked windows.  It never panics on a limiter with a
    window.  Either every window admits: then all are charged, and the outcome
    is the answer of a window with the fewest units left.  Or the first window
    that refuses decides: the request is refused with that window's limit and
    wait, the windows before it stay charged, and those after it are not
    consulted at all. *)
Theorem stacked_check l key cost ts :
  l ≠ [] →
  let rs := answers l key (Z.max cost 1) ts in
  ∃ o, check_gcra l key cost ts =
         (Some o, match first_denial rs with
                  | Some (i, _) => take (S i) rs.*2 ++ drop (S i) l
                  | None => rs.*2
                  end) ∧
    match first_denial rs with
    | Some (_, d) => o = d ∧ allowed (decision o) = false ∧ is_Some (retry_after_ms (decision o))
    | None => o ∈ candidates rs ∧ allowed (decision o) = true ∧
              Forall (λ c, remaining (decision o) ≤ remaining (decision c)) (candidates rs)
    end.
Proof.
  intros Hl rs. unfold check_gcra. rewrite check_windows_spec. unfold check_spec. fold rs.
  destruct (first_denial rs) as [[i d]|] eqn:Hd.
  - exists d. pose proof (denial_refuses _ _ _ _ _ _ Hd). naive_solver.
  - assert (∃ c cs, candidates rs = c :: cs) as (c & cs & Hcs).
    { apply first_denial_none in Hd. unfold rs, answers in *.
      destruct l as [|w l]; [done|]. rewrite imap_cons in *. apply list.Forall_cons in Hd as [Hok _].
      unfold candidates. simpl. destruct (check_window_n _ _ _ _) as [[o|o] w']; [|done]. by eexists _, _. }
    rewrite Hcs. simpl. destruct (bind_least_spec cs c) as (o & Ho & Hin & Hall).
    exists o. rewrite Ho. split; [done|]. split; [done|]. split; [|done].
    eapply (candidate_allowed l key (Z.max cost 1) ts). fold rs. by rewrite Hcs.
Qed.

(** Every window of a limiter keeps the memory bound. *)
Definition limiter_bounded (l : GcraRateLimiter) : Prop := Forall (λ w, bounded (store w)) l.

Lemma build_bounded specs l : build specs = Some l → limiter_bounded l.
Proof.
  unfold build. destruct specs as [|s0 specs]; [done|]. intros [= <-].
  apply list.Forall_fmap, list.Forall_true. intros s. apply new_store_bounded.
Qed.

Lemma check_window_n_bounded w key cost t :
  bounded (store w) → bounded (store (check_window_n w key cost t).2).
Proof.
  intros Hb. unfold check_window_n. destruct (check_n _ _ _) as [f|]; [|done].
  pose proof (step_bounded hash_one (Reserve (store_ms t) key f) _ Hb) as [Hb' _]. simpl in Hb'.
  by destruct (measure_and_replace _ _ _ _ _) as [[c|e] s'].
Qed.

Lemma check_gcra_bounded l key cost ts :
  limiter_bounded l → limiter_bounded (check_gcra l key cost ts).2.
Proof.
  unfold check_gcra. generalize (@None GcraOutcome) as b. revert ts.
  induction l as [|w l IH]; intros ts b Hb; simpl; [done|].
  apply list.Forall_cons in Hb as [Hw Hb].
  pose proof (check_window_n_bounded w key (Z.max cost 1) (ts O) Hw) as Hw'.
  destruct (check_window_n _ _ _ _) as [[o|o] w']; simpl in *.
  - specialize (IH (ts ∘ S) (bind_least b o) Hb).
    destruct (check_windows _ _ _ _ _) as [r l']. by constructor.
  - by constructor.
Qed.

Lemma live_keys_bounded l :
  limiter_bounded l →
  (live_keys l ≤ length l * (GCRA_STORE_SHARDS * MAX_RATE_LIMITER_KEYS_PER_SHARD))%nat.
Proof.
  intros Hb. apply sum_le_length. eapply list.Forall_impl; [done|].
  intros w (Hlen & Hall & _). unfold len. rewrite <- Hlen. by apply sum_le_length.
Qed.
End Gcra.

(** * The rate a key is held to *)

Section RateBound.
Context {T E : Type} (hash_one : string → Z) (units : @reservation T E → Z).

(** What a key's admitted requests took, in governor's time. *)
Fixpoint spent (k : string) (rs : list reservation) (ds : list (result E T)) : Z :=
  match rs, ds with
  | r :: rs, d :: ds =>
      (if bool_decide (rq_key r = k) && is_ok d then units r else 0) + spent k rs ds
  | _, _ => 0
  end.

(** GCRA moves an arrival time on by the units taken, from the present at the
    earliest, and never past a full bucket from now. *)
Definition charges (tau : Z) (r : reservation) : Prop :=
  0 ≤ units r ∧
  ∀ p o t, rq_decide r p = Ok (o, t) →
    Z.max (default (rq_t0 r) p) (rq_t0 r) + units r ≤ t ≤ rq_t0 r + tau.

Fixpoint unbounded_state (rs : list reservation) (m : gmap string Z) : gmap string Z :=
  match rs with
  | [] => m
  | r :: rs => unbounded_state rs (@unbounded_reserve T E r m).2
  end.

Lemma unbounded_run_app rs rs' m :
  unbounded_run (rs ++ rs') m = unbounded_run rs m ++ unbounded_run rs' (unbounded_state rs m).
Proof.
  revert m. induction rs as [|r rs IH]; intros m; simpl; [done|].
  destruct (unbounded_reserve r m) as [o m']. simpl. by rewrite IH.
Qed.

Lemma length_unbounded_run rs m : length (@unbounded_run T E rs m) = length rs.
Proof.
  revert m. induction rs as [|r rs IH]; intros m; simpl; [done|].
  destruct (unbounded_reserve r m) as [o m']. simpl. by rewrite IH.
Qed.

(** The units left before the bucket of [k] is empty at time [b]. *)
Lemma spent_unbounded tau a b k rs m :
  a ≤ b → 0 ≤ tau → Forall (charges tau) rs → Forall (λ r, a ≤ rq_t0 r ≤ b) rs →
  spent k rs (unbounded_run rs m) ≤ Z.max 0 (b + tau - Z.max (default a (m !! k)) a).
Proof.
  intros Hab Htau. revert m. induction rs as [|r rs IH]; intros m Hch Hin; simpl; [lia|].
  apply list.Forall_cons in Hch as [[Hu Hr] Hch]. apply list.Forall_cons in Hin as [Hr0 Hin].
  unfold unbounded_reserve. specialize (IH (unbounded_reserve r m).2 Hch Hin).
  unfold unbounded_reserve in IH.
  destruct (rq_decide r (m !! rq_key r)) as [[o t]|e] eqn:Hd; simpl in *.
  - apply Hr in Hd. destruct (decide (rq_key r = k)) as [<-|Hne].
    + rewrite bool_decide_eq_true_2, lookup_insert_eq in * by done. simpl in *.
      destruct (m !! rq_key r); simpl in *; lia.
    + rewrite bool_decide_eq_false_2 by done. rewrite lookup_insert_ne in IH by done. simpl. lia.
  - rewrite andb_false_r. lia.
Qed.

(** C8: The rate limit.  In every run of the bounded store whose sweeps evict
    no fresh key and whose clocks agree (a key that the store's millisecond clock
    finds idle has a full bucket by the limiter's clock, which does not step
    back), and for every key: what the requests of an interval took is at most a
    full bucket and what the interval refills. *)
Theorem rate_bound tau mi a b k before during :
  Forall (gcra tau) (before ++ during) → Forall (charges tau) during →
  StronglySorted (clocks_agree tau mi) (before ++ during) →
  calm hash_one (before ++ during) (new_store mi) = true →
  a ≤ b → 0 ≤ tau → Forall (λ r, a ≤ rq_t0 r ≤ b) during →
  spent k during (drop (length before) (bounded_run hash_one (before ++ during) (new_store mi)))
    ≤ tau + (b - a).
Proof.
  intros Hg Hch Hcl Hcalm Hab Htau Hin.
  rewrite (idle_simulation hash_one tau mi) by done.
  rewrite unbounded_run_app, <- (length_unbounded_run before ∅), drop_app_length.
  etrans; [by apply (spent_unbounded tau a b)|]. lia.
Qed.
End RateBound.

(** * The fixed window against its ledger *)

(** What a key was granted since its window started. *)
Record ledger : Type := Ledger { opened : Z; granted : list Z }.

Definition ledger_step (win now cost : Z) (ok : bool) (g : ledger) : ledger :=
  let g := if win <=? saturating_sub now (opened g) then Ledger now [] else g in
  if ok then Ledger (opened g) (cost :: granted g) else g.

Definition sum_of (l : list Z) : Z := foldr Z.add 0 l.

(** The state of a window is the total of its ledger, within the limit. *)
Definition window_ok (lim : Z) (state : WindowState) (g : ledger) : Prop :=
  window_start_ms state = opened g ∧ used state = sum_of (granted g) ∧ 0 ≤ used state ≤ lim.

(** A check of the fixed-window limiter.  It admits exactly when the cost
    still fits what the window's ledger leaves of the limit, after starting a
    new window if the old one is over; an admitted cost enters the ledger, a
    refused one changes nothing, so the ledger never exceeds the limit; what
    remains is reported, and a refusal says when the window ends. *)
Theorem fixed_window_check lim win now cost state g :
  0 ≤ lim < 2 ^ 64 - 2 ^ 32 → 0 < win < 2 ^ 64 → 0 ≤ cost < 2 ^ 32 → window_ok lim state g →
  let '(d, state') := check_window lim win now cost state in
  let g0 := ledger_step win now cost false g in
  let g' := ledger_step win now cost (allowed d) g in
  allowed d = (sum_of (granted g0) + cost <=? lim) ∧
  window_ok lim state' g' ∧
  remaining d = lim - sum_of (granted g') ∧
  retry_after_ms d = (if allowed d then None
                      else Some (win - saturating_sub now (opened g0))).
Proof.
  intros Hlim Hwin Hcost (Hstart & Hused & Hle). unfold check_window, ledger_step, u64_wrap.
  rewrite <- Hstart.
  set (st := if win <=? saturating_sub now (window_start_ms state) then Window now 0 else state).
  set (g0 := if win <=? saturating_sub now (window_start_ms state) then Ledger now [] else g).
  assert (window_ok lim st g0 ∧ 0 ≤ saturating_sub now (opened g0) < win)
    as [(Hstart0 & Hused0 & Hle0) Hel].
  { unfold st, g0. destruct (Z.leb_spec win (saturating_sub now (window_start_ms state))); simpl.
    - split; [repeat split; simpl; lia|]. unfold saturating_sub. lia.
    - rewrite <- Hstart. split; [done|]. unfold saturating_sub in *. lia. }
  clearbody st g0. rewrite Hstart0, Hused0 in *.
  rewrite (Z.mod_small (sum_of (granted g0) + cost)) by lia.
  destruct (Z.leb_spec (sum_of (granted g0) + cost) lim) as [Hfit|Hno]; simpl.
  - rewrite Z.mod_small by lia. repeat split; simpl; lia.
  - rewrite Z.mod_small by lia. destruct (Z.ltb_spec (win - saturating_sub now (opened g0)) (2 ^ 64)); [|lia].
    repeat split; simpl; lia || done.
Qed.

(** * Concrete runs *)

(** An instance of governor: a quota is its period and its burst. *)
#[global] Instance sample_governor : Governor := {
  Quota := Z * Z;
  NotUntil := Z;
  with_period p := if p =? 0 then None else Some (p, 1);
  per_second n := (1000000000 / n, n);
  allow_burst b q := (q.1, b);
  burst_size_replenished_in q := q.1 * q.2;
  check_n q n now :=
    if q.2 <? n then None
    else Some (λ p,
      let tau := q.1 * q.2 in
      let tat := match p with Some t => Z.max t now | None => now end in
      if tat + n * q.1 - tau <=? now
      then Ok ((now + tau - (tat + n * q.1)) / q.1, tat + n * q.1)
      else Err (tat + n * q.1 - tau));
  wait_time_from until now := saturating_sub until now;
}.

Definition second : Z := 1000000000.

(** Two a second and three a minute. *)
Definition sample_limiter : list GcraWindow :=
  default [] (build [Spec 3 (60 * second) None; Spec 2 second None]).

Definition sample_ticks (t : Z) (_ : nat) : Instants := Ticks t (t / 1000000) t.

(** The outcomes of checks of one key at the given times. *)
Fixpoint sample_checks (times : list Z) (l : list GcraWindow) : list (option (Z * Z)) :=
  match times with
  | [] => []
  | t :: times =>
      let '(o, l) := check_gcra sample_hash l "k" 1 (sample_ticks t) in
      (o ← o; Some (outcome_limit o, refill_ms o)) :: sample_checks times l
  end.

Example sample_checks_run :
  sample_checks [second; second; second; 2 * second; 3 * second] sample_limiter =
    [Some (2, 1000); Some (2, 1000); Some (2, 500); Some (3, 60000); Some (3, 18000)].
Proof. vm_compute. reflexivity. Qed.

Lemma sample_limiter_windows : length sample_limiter = 2%nat.
Proof. vm_compute. reflexivity. Qed.

Lemma sample_admits :
  first_denial (answers sample_hash sample_limiter "k" 1 (sample_ticks second)) = None.
Proof. vm_compute. reflexivity. Qed.

Lemma stacked_check_witness :
  ∃ o, (check_gcra sample_hash sample_limiter "k" 0 (sample_ticks second)).1 = Some o ∧
       allowed (decision o) = true.
Proof.
  assert (sample_limiter ≠ []) as Hl.
  { intros Heq. pose proof sample_limiter_windows as Hn. rewrite Heq in Hn. discriminate. }
  destruct (stacked_check sample_hash sample_limiter "k" 0 (sample_ticks second) Hl) as (o & Ho & Hd).
  exists o. split; [by rewrite Ho|].
  change (Z.max 0 1) with 1 in Hd. rewrite sample_admits in Hd. apply Hd.
Defined.

Lemma rate_bound_witness :
  spent (λ _, 5000000) "a" (drop 1 sample_requests)
    (drop 1 (bounded_run sample_hash sample_requests (new_store 10))) ≤ 10000000 + (30000000 - 1000000).
Proof.
  refine (rate_bound sample_hash (λ _, 5000000) 10000000 10 1000000 30000000 "a"
    (take 1 sample_requests) (drop 1 sample_requests) _ _ _ _ _ _ _); [| | | |lia|lia|].
  - repeat apply list.Forall_cons_2; try (apply sample_gcra_ok; lia). apply list.Forall_nil_2.
  - repeat apply list.Forall_cons_2; try apply list.Forall_nil_2; (split; [lia|]);
      intros p o t; simpl; unfold sample_gcra; case_match; [|done| |done| |done| |done];
      intros [= _ <-]; destruct p; simpl; lia.
  - repeat constructor; vm_compute; congruence.
  - vm_compute. reflexivity.
  - repeat apply list.Forall_cons_2; try apply list.Forall_nil_2; simpl; lia.
Defined.

Lemma fixed_window_check_witness :
  check_window 10 1000 1500 3 (Window 1000 8) = (Decided false 2 (Some 500), Window 1000 8) ∧
  window_ok 10 (Window 1000 8) (Ledger 1000 [5; 3]).
Proof.
  assert (window_ok 10 (Window 1000 8) (Ledger 1000 [5; 3])) as Hok by (repeat split; simpl; lia).
  split; [reflexivity|].
  refine (proj1 (proj2 (fixed_window_check 10 1000 1500 3 (Window 1000 8) (Ledger 1000 [5; 3]) _ _ _ Hok)));
    lia.
Defined.
