(* ===== verification/RateEngine.v ===== *)
(** The policy engine of the request rate limiter
    (src/crates/dwara-core/src/extensions/rate_limiter.rs, from [EngineRule]
    on): the rules of a configuration, their keys, and the evaluation of a
    request against every policy attached to it.

    The engine is written against an interface, the class [EngineLimiter], of
    which RateLimiter.v provides the local instance: a limiter keeps its own
    state, so each rule has one.  The Redis limiter is not such an instance, for
    its keys name no rule: those of alike rules are the same in the server. *)

From S2P Require Import Prelude.
From S2P Require Import JsNumber.
From S2P Require Import FloatOrder.
From S2P Require Import Breaker.
From S2P Require Import RateStore.
From S2P Require Import RateLimiter.
From stdpp Require Import sorting.
Local Open Scope Z_scope.

(** * Configuration: the fields of a policy the engine reads *)

Inductive RateLimitSelector : Type := Ip | Credential | Route.

#[global] Instance selector_eq_dec : EqDecision RateLimitSelector.
Proof. solve_decision. Defined.

Record RateRequestsPer : Type := RequestsPer {
  rp_second : option Z; rp_minute : option Z; rp_hour : option Z;
}.

Record RateLimitRule : Type := Rule {
  selector : list RateLimitSelector; requests_per : RateRequestsPer; rule_burst : option Z;
}.

Record RateLimit : Type := LegacyLimit { rl_requests : Z; window_seconds : Z }.

Record Policy : Type := PolicyRates {
  policy_name : string;
  rate_limit : option RateLimit;
  rate_limits : list RateLimitRule;
  policy_dry_run : bool;
}.

(** * Keys *)

(** [peer] is the text of the address. *)
Record RateLimitKeyContext : Type := KeyContext {
  peer : string; consumer : option string; route : string;
}.

Definition component (ctx : RateLimitKeyContext) (s : RateLimitSelector) : string :=
  match s with
  | Ip => peer ctx
  | Credential => default (peer ctx) (consumer ctx)
  | Route => route ctx
  end.

(** [build_key]: a separator goes before a component when the key built so
    far is not empty. *)
Definition push_component (ctx : RateLimitKeyContext) (key : string) (s : RateLimitSelector) : string :=
  (if String.eqb key "" then key else key +:+ "|") +:+ component ctx s.

Definition build_key (ctx : RateLimitKeyContext) (selectors : list RateLimitSelector) : string :=
  foldl (push_component ctx) "" selectors.

(** * Outcomes *)

Inductive RateLimitOutcome : Type :=
  | NotLimited
  | Allowed (limit remaining reset_epoch_s : Z)
  | Denied (limit remaining reset_epoch_s retry_after_s : Z).

#[global] Instance rate_limit_outcome_eq_dec : EqDecision RateLimitOutcome.
Proof. solve_decision. Defined.

Record RateLimitEvaluation : Type := Evaluation {
  outcome : RateLimitOutcome; dry_denied : option RateLimitOutcome;
}.

Definition div_ceil (a b : Z) : Z := (a + b - 1) / b.
Definition u32_wrap (z : Z) : Z := z mod 2 ^ 32.

Definition rate_outcome (now_epoch : Z) (result : GcraOutcome) : RateLimitOutcome :=
  if allowed (decision result) then
    Allowed (outcome_limit result) (u32_wrap (remaining (decision result)))
      (u64_wrap (now_epoch + div_ceil (refill_ms result) 1000))
  else
    let retry_ms := default 0 (retry_after_ms (decision result)) in
    let secs := div_ceil retry_ms 1000 in
    Denied (outcome_limit result) (u32_wrap (remaining (decision result)))
      (u64_wrap (now_epoch + secs)) (Z.max (if secs <=? u32_max then secs else 1) 1).

(** * The cost of a request *)

(** [x.round().max(1.0) as u32]: ties away from zero; the cast saturates, and
    [max] replaces a NaN. *)
Definition round_max_u32 (x : num) : Z :=
  match x with
  | S754_finite false m e =>
      let '(nu, de) := frac_of (Z.pos m) e in
      Z.min u32_max (Z.max 1 ((2 * nu + de) / (2 * de)))
  | S754_infinity false => u32_max
  | _ => 1
  end.

Definition scaled_cost (factor : num) : Z :=
  if nlt (S754_zero false) factor then round_max_u32 (ndiv one factor) else 1.

(** * The engine *)

(** What the engine asks of a limiter: a check reads some clocks. *)
Class EngineLimiter : Type := {
  Limiter : Type;
  Readings : Type;
  check_limiter : Limiter → string → Z → Readings → GcraOutcome * Limiter;
}.

Section Engine.
Context `{EngineLimiter}.

Record EngineRule : Type := ERule {
  selectors : list RateLimitSelector; limiter : Limiter; dry_run : bool;
}.

(** [RateLimitEngine]: (policy name, rule) in configuration order. *)
Abbreviation RateLimitEngine := (list (string * EngineRule)).

(** What one evaluation reads: the adaptive factor of a policy, and, for the
    rule at a position, the clocks of its check and the system clock after. *)
Record EvalEnv : Type := Env {
  adaptive_factor : string → num; readings : nat → Readings; epoch : nat → Z;
}.

Record accumulators : Type := Acc {
  acc : option RateLimitOutcome;
  denied : option RateLimitOutcome;
  dry : option RateLimitOutcome;
}.

(** The sinks hold the first denial, stretched by the later ones. *)
Definition stretch (sink : option RateLimitOutcome) (lim rem reset retry : Z) : option RateLimitOutcome :=
  match sink with
  | None => Some (Denied lim rem reset retry)
  | Some (Denied lim0 rem0 reset0 retry0) =>
      if retry0 <? retry then Some (Denied lim0 rem0 reset retry) else sink
  | Some _ => sink
  end.

Definition keep_prev (a : option RateLimitOutcome) (rem : Z) : bool :=
  match a with
  | Some (Allowed _ prev _) => prev <=? rem
  | _ => false
  end.

(** The body of the inner loop, after the check. *)
Definition absorb (a : accumulators) (is_dry : bool) (o : RateLimitOutcome) : accumulators :=
  match o with
  | Denied lim rem reset retry =>
      if is_dry then Acc (acc a) (denied a) (stretch (dry a) lim rem reset retry)
      else Acc (acc a) (stretch (denied a) lim rem reset retry) (dry a)
  | Allowed _ rem _ =>
      if bool_decide (is_Some (denied a)) || is_dry then a
      else if keep_prev (acc a) rem then a else Acc (Some o) (denied a) (dry a)
  | NotLimited => a
  end.

Definition check_rule (ctx : RateLimitKeyContext) (env : EvalEnv) (i : nat) (r : string * EngineRule)
    : RateLimitOutcome * (string * EngineRule) :=
  let '(name, rule) := r in
  let key := build_key ctx (selectors rule) in
  let cost := scaled_cost (adaptive_factor env name) in
  let '(g, l) := check_limiter (limiter rule) key cost (readings env i) in
  (rate_outcome (epoch env i) g, (name, ERule (selectors rule) l (dry_run rule))).

(** The inner loop: every rule of the policy called [name]. *)
Fixpoint eval_rules (ctx : RateLimitKeyContext) (env : EvalEnv) (name : string) (i : nat)
    (rules : RateLimitEngine) (a : accumulators) : accumulators * RateLimitEngine :=
  match rules with
  | [] => (a, [])
  | r :: rules =>
      if String.eqb r.1 name then
        let '(o, r) := check_rule ctx env i r in
        let '(a, rules) := eval_rules ctx env name (S i) rules (absorb a (dry_run r.2) o) in
        (a, r :: rules)
      else
        let '(a, rules) := eval_rules ctx env name (S i) rules a in (a, r :: rules)
  end.

(** The outer loop: a name met earlier in the chain is skipped. *)
Fixpoint eval_names (ctx : RateLimitKeyContext) (env : EvalEnv) (attached : list string) (pos : nat)
    (rest : list string) (a : accumulators) (rules : RateLimitEngine) : accumulators * RateLimitEngine :=
  match rest with
  | [] => (a, rules)
  | name :: rest =>
      if existsb (String.eqb name) (take pos attached)
      then eval_names ctx env attached (S pos) rest a rules
      else
        let '(a, rules) := eval_rules ctx env name 0 rules a in
        eval_names ctx env attached (S pos) rest a rules
  end.

(** [evaluate]: the engine after it carries the limiters' new states. *)
Definition evaluate (ctx : RateLimitKeyContext)
    (consumer_policies route_policies service_policies listener_policies global_policies : list string)
    (env : EvalEnv) (engine : RateLimitEngine) : RateLimitEvaluation * RateLimitEngine :=
  let attached := consumer_policies ++ route_policies ++ service_policies ++ listener_policies
                  ++ global_policies in
  let '(a, engine) := eval_names ctx env attached 0 attached (Acc None None None) engine in
  (Evaluation (default (default NotLimited (acc a)) (denied a)) (dry a), engine).

(** [check]: no adaptive tuning. *)
Definition check_engine (ctx : RateLimitKeyContext)
    (consumer_policies route_policies service_policies listener_policies global_policies : list string)
    (env : EvalEnv) (engine : RateLimitEngine) : RateLimitOutcome * RateLimitEngine :=
  let '(e, engine) := evaluate ctx consumer_policies route_policies service_policies listener_policies
                        global_policies (Env (λ _, one) (readings env) (epoch env)) engine in
  (outcome e, engine).
End Engine.

(** * The local limiter, and compilation *)

Section Local.
Context `{Governor} (hash_one : string → Z).

(** A limiter without a window would panic: [compile] builds none
    ([compile_windows]), so the default below is never taken. *)
#[export] Instance local_limiter : EngineLimiter := {
  Limiter := list GcraWindow;
  Readings := nat → Instants;
  check_limiter l key cost ts :=
    let '(o, l) := check_gcra hash_one l key cost ts in (default (denied_outcome 0 0) o, l);
}.

Definition second_ns : Z := 1000000000.

(** [window_specs]. *)
Definition window_spec (reqs window : Z) (burst : option Z) : GcraWindowSpec :=
  Spec reqs (window * second_ns) (Some (default reqs (b ← burst; if b =? 0 then None else Some b))).

Definition positive (o : option Z) : option Z := v ← o; if 0 <? v then Some v else None.

Definition window_specs (rp : RateRequestsPer) (burst : option Z) : list GcraWindowSpec :=
  let add field window :=
    match positive field with Some v => [window_spec v window burst] | None => [] end in
  add (rp_second rp) 1 ++ add (rp_minute rp) 60 ++ add (rp_hour rp) 3600.

Definition compile_legacy (p : Policy) : list (string * EngineRule) :=
  match rate_limit p with
  | Some rl =>
      if (0 <? rl_requests rl) && (0 <? window_seconds rl) then
        let reqs := if rl_requests rl <=? u32_max then rl_requests rl else u32_max in
        match build [Spec reqs (window_seconds rl * second_ns) (Some reqs)] with
        | Some l => [(policy_name p, ERule [Route] l (policy_dry_run p))]
        | None => []
        end
      else []
  | None => []
  end.

Definition compile_rule (p : Policy) (rule : RateLimitRule) : list (string * EngineRule) :=
  match build (window_specs (requests_per rule) (rule_burst rule)) with
  | Some l => [(policy_name p, ERule (selector rule) l (policy_dry_run p))]
  | None => []
  end.

Definition compile (policies : list Policy) : list (string * EngineRule) :=
  p ← policies; compile_legacy p ++ (rule ← rate_limits p; compile_rule p rule).

Lemma build_nonempty specs l : build specs = Some l → l ≠ [].
Proof.
  unfold build. destruct specs as [|s0 specs]; [done|]. intros [= <-] Heq%fmap_nil_inv.
  pose proof (merge_sort_Permutation by_window (s0 :: specs)) as Hp. rewrite Heq in Hp.
  by apply Permutation_nil_cons in Hp.
Qed.

(** Every compiled rule has a window, and empty stores. *)
Lemma compile_windows policies :
  Forall (λ r, limiter r.2 ≠ [] ∧ limiter_bounded (limiter r.2)) (compile policies).
Proof.
  apply list.Forall_forall. intros [name rule] Hin. unfold compile in Hin.
  apply list_elem_of_bind in Hin as (p & Hin & _). apply elem_of_app in Hin as [Hin|Hin].
  - unfold compile_legacy in Hin. destruct (rate_limit p) as [rl|]; [|by apply elem_of_nil in Hin].
    destruct (_ && _); [|by apply elem_of_nil in Hin].
    destruct (build _) as [l|] eqn:Hb; [|by apply elem_of_nil in Hin].
    apply list_elem_of_singleton in Hin as [= -> ->]. split; [by eapply build_nonempty|by eapply build_bounded].
  - apply list_elem_of_bind in Hin as (r & Hin & _). unfold compile_rule in Hin.
    destruct (build _) as [l|] eqn:Hb; [|by apply elem_of_nil in Hin].
    apply list_elem_of_singleton in Hin as [= -> ->]. split; [by eapply build_nonempty|by eapply build_bounded].
Qed.
End Local.

Lemma imap_imap {A B C} (f : nat → B → C) (g : nat → A → B) l :
  imap f (imap g l) = imap (λ i x, f i (g i x)) l.
Proof.
  revert f g. induction l as [|x l IH]; intros f g; [done|]. rewrite !imap_cons, IH. done.
Qed.

Lemma imap_id {A} (l : list A) : imap (λ _ x, x) l = l.
Proof. induction l as [|x l IH]; [done|]. rewrite imap_cons. f_equal. exact IH. Qed.

(** * An evaluation, rule by rule *)

Section Spec.
Context `{EngineLimiter} (ctx : RateLimitKeyContext) (env : EvalEnv).

Abbreviation RateLimitEngine := (list (string * EngineRule)).

(** Where each attached policy is first met. *)
Fixpoint first_positions (seen : list string) (attached : list string) : list string :=
  match attached with
  | [] => []
  | name :: rest =>
      if bool_decide (name ∈ seen) then first_positions seen rest
      else name :: first_positions (name :: seen) rest
  end.

(** The outcomes of a policy's rules, each from its own limiter, in order,
    with the dry-run flag of the rule. *)
Definition verdicts_of (rules : RateLimitEngine) (name : string) : list (bool * RateLimitOutcome) :=
  concat (imap (λ i r, if String.eqb r.1 name
                       then [(dry_run r.2, (check_rule ctx env i r).1)] else []) rules).

Definition verdicts (rules : RateLimitEngine) (names : list string) : list (bool * RateLimitOutcome) :=
  names ≫= verdicts_of rules.

(** The rules of the policies in [names] have been charged, the others not. *)
Definition charged (rules : RateLimitEngine) (names : list string) : RateLimitEngine :=
  imap (λ i r, if bool_decide (r.1 ∈ names) then (check_rule ctx env i r).2 else r) rules.

Definition absorb_all (a : accumulators) (vs : list (bool * RateLimitOutcome)) : accumulators :=
  foldl (λ a v, absorb a v.1 v.2) a vs.

Lemma check_rule_static i r :
  (check_rule ctx env i r).2.1 = r.1 ∧ dry_run (check_rule ctx env i r).2.2 = dry_run r.2.
Proof.
  destruct r as [name rule]. unfold check_rule.
  by destruct (check_limiter (limiter rule) (build_key ctx (selectors rule)) _ _) as [g l].
Qed.

Lemma eval_rules_spec name i rules a :
  eval_rules ctx env name i rules a =
    (absorb_all a (concat (imap (λ j r, if String.eqb r.1 name
       then [(dry_run r.2, (check_rule ctx env (i + j) r).1)] else []) rules)),
     imap (λ j r, if String.eqb r.1 name then (check_rule ctx env (i + j) r).2 else r) rules).
Proof.
  revert i a. induction rules as [|r rules IH]; intros i a; [done|]. simpl.
  assert (∀ B (f : nat → string * EngineRule → B), imap ((λ j, f (i + j)%nat) ∘ S) rules = imap (λ j, f (S i + j)%nat) rules)
    as Hshift.
  { intros B f. apply imap_ext. intros j x _. simpl. f_equal. lia. }
  destruct (String.eqb r.1 name) eqn:Hn.
  - rewrite Nat.add_0_r. destruct (check_rule ctx env i r) as [o r'] eqn:Hc.
    pose proof (check_rule_static i r) as [_ Hdry]. rewrite Hc in Hdry. simpl in Hdry.
    rewrite IH, Hdry. simpl.
    rewrite (Hshift _ (λ j r0, if String.eqb r0.1 name then [(dry_run r0.2, (check_rule ctx env j r0).1)] else [])).
    by rewrite (Hshift _ (λ j r0, if String.eqb r0.1 name then (check_rule ctx env j r0).2 else r0)).
  - rewrite IH. simpl.
    rewrite (Hshift _ (λ j r0, if String.eqb r0.1 name then [(dry_run r0.2, (check_rule ctx env j r0).1)] else [])).
    by rewrite (Hshift _ (λ j r0, if String.eqb r0.1 name then (check_rule ctx env j r0).2 else r0)).
Qed.

Lemma eqb_decide (a b : string) : String.eqb a b = bool_decide (a = b).
Proof. destruct (String.eqb_spec a b); [by rewrite bool_decide_eq_true_2|by rewrite bool_decide_eq_false_2]. Qed.

Lemma verdicts_charged rules seen name :
  name ∉ seen → verdicts_of (charged rules seen) name = verdicts_of rules name.
Proof.
  intros Hn. unfold verdicts_of, charged. f_equal. rewrite imap_imap.
  apply imap_ext. intros i r _. simpl. rewrite eqb_decide, eqb_decide.
  destruct (decide (r.1 ∈ seen)) as [Hin|Hout].
  - rewrite (bool_decide_eq_true_2 (r.1 ∈ seen)) by done. destruct (check_rule_static i r) as [Hs _]. rewrite Hs.
    rewrite (bool_decide_eq_false_2 (r.1 = name)); [done|]. intros Heq. apply Hn. by rewrite <- Heq.
  - by rewrite (bool_decide_eq_false_2 (r.1 ∈ seen)) by done.
Qed.

Lemma charged_cons rules seen name :
  name ∉ seen →
  imap (λ j r, if String.eqb r.1 name then (check_rule ctx env j r).2 else r) (charged rules seen)
  = charged rules (name :: seen).
Proof.
  intros Hn. unfold charged. rewrite imap_imap. apply imap_ext. intros i r _. simpl. rewrite eqb_decide.
  destruct (decide (r.1 ∈ seen)) as [Hin|Hout].
  - rewrite (bool_decide_eq_true_2 (r.1 ∈ seen)) by done. destruct (check_rule_static i r) as [Hs _]. rewrite Hs.
    rewrite (bool_decide_eq_false_2 (r.1 = name)) by (intros Heq; apply Hn; by rewrite <- Heq).
    rewrite bool_decide_eq_true_2 by set_solver. done.
  - rewrite (bool_decide_eq_false_2 (r.1 ∈ seen)) by done.
    destruct (decide (r.1 = name)) as [Heq|Hne].
    + rewrite !bool_decide_eq_true_2 by set_solver. done.
    + rewrite !bool_decide_eq_false_2 by set_solver. done.
Qed.

Lemma charged_ext rules names names' :
  (∀ n, n ∈ names ↔ n ∈ names') → charged rules names = charged rules names'.
Proof.
  intros Heq. apply imap_ext. intros i r _. simpl. by rewrite (bool_decide_ext _ _ (Heq r.1)).
Qed.

Lemma charged_nil rules : charged rules [] = rules.
Proof. unfold charged. rewrite <- (imap_id rules) at 2. apply imap_ext. intros i r _. by rewrite bool_decide_eq_false_2 by set_solver. Qed.

Lemma existsb_elem (name : string) l : existsb (String.eqb name) l = bool_decide (name ∈ l).
Proof.
  induction l as [|x l IH]; [symmetry; apply bool_decide_eq_false_2; set_solver|].
  simpl. rewrite IH, eqb_decide, <- bool_decide_or. apply bool_decide_ext. set_solver.
Qed.

Lemma absorb_all_app a vs vs' : absorb_all a (vs ++ vs') = absorb_all (absorb_all a vs) vs'.
Proof. apply foldl_app. Qed.

Lemma eval_names_spec rules attached pre rest seen a :
  attached = pre ++ rest → (∀ n, n ∈ seen ↔ n ∈ pre) →
  eval_names ctx env attached (length pre) rest a (charged rules seen) =
    (absorb_all a (verdicts rules (first_positions seen rest)),
     charged rules (seen ++ first_positions seen rest)).
Proof.
  revert pre seen a. induction rest as [|name rest IH]; intros pre seen a Hat Hseen; simpl.
  { by rewrite app_nil_r. }
  assert (attached = (pre ++ [name]) ++ rest) as Hat' by by rewrite <- app_assoc.
  rewrite existsb_elem, Hat, take_app_length.
  replace (S (length pre)) with (length (pre ++ [name])) by (rewrite length_app; simpl; lia).
  rewrite (bool_decide_ext _ _ (iff_sym (Hseen name))). case_bool_decide as Hn.
  - rewrite <- Hat. apply (IH (pre ++ [name]) seen a Hat').
    intros n. rewrite Hseen, elem_of_app, list_elem_of_singleton.
    split; [by left|]. intros [?| ->]; [done|]. by apply Hseen.
  - rewrite eval_rules_spec. simpl. fold (verdicts_of (charged rules seen) name).
    rewrite verdicts_charged, charged_cons by done. rewrite <- Hat.
    rewrite (IH (pre ++ [name]) (name :: seen)); [|done|set_solver].
    unfold verdicts. simpl. rewrite absorb_all_app. f_equal. apply charged_ext. set_solver.
Qed.

(** The policies an evaluation consults, in the order of the chain. *)
Definition chain (consumer_policies route_policies service_policies listener_policies global_policies
    : list string) : list string :=
  first_positions [] (consumer_policies ++ route_policies ++ service_policies ++ listener_policies
                      ++ global_policies).

Lemma evaluate_verdicts rules c r s l g :
  evaluate ctx c r s l g env rules =
    (let a := absorb_all (Acc None None None) (verdicts rules (chain c r s l g)) in
     Evaluation (default (default NotLimited (acc a)) (denied a)) (dry a),
     charged rules (chain c r s l g)).
Proof.
  unfold evaluate, chain. set (attached := c ++ _).
  pose proof (eval_names_spec rules attached [] attached [] (Acc None None None) eq_refl) as Hs.
  rewrite charged_nil in Hs. simpl in Hs. by rewrite Hs.
Qed.

Lemma elem_of_first_positions seen attached n :
  n ∈ first_positions seen attached ↔ n ∈ attached ∧ n ∉ seen.
Proof.
  revert seen. induction attached as [|x l IH]; intros seen; simpl; [set_solver|].
  case_bool_decide; [rewrite IH; set_solver|]. rewrite elem_of_cons, IH.
  destruct (decide (n = x)); set_solver.
Qed.

Lemma first_positions_nodup seen attached : NoDup (first_positions seen attached).
Proof.
  revert seen. induction attached as [|x l IH]; intros seen; simpl; [constructor|].
  case_bool_decide; [done|]. constructor; [|done]. rewrite elem_of_first_positions. set_solver.
Qed.
End Spec.

(** * The outcome of an evaluation *)

Abbreviation denial := (Z * Z * Z * Z)%type.

Definition retry_of (d : denial) : Z := d.2.
Definition reset_of (d : denial) : Z := d.1.2.

(** The denials of the dry-run rules, or of the live ones, in order. *)
Definition denials (is_dry : bool) (vs : list (bool * RateLimitOutcome)) : list denial :=
  omap (λ v : bool * RateLimitOutcome, match v.2 with
             | Denied lim rem reset retry =>
                 if Bool.eqb v.1 is_dry then Some (lim, rem, reset, retry) else None
             | _ => None
             end) vs.

(** The admissions of the live rules. *)
Definition grants (vs : list (bool * RateLimitOutcome)) : list (Z * Z * Z) :=
  omap (λ v : bool * RateLimitOutcome, match v.2 with
             | Allowed lim rem reset => if v.1 then None else Some (lim, rem, reset)
             | _ => None
             end) vs.

(** A sink after some denials: the limit and the remainder of the first, the
    longest wait of all, and the reset that goes with it. *)
Definition sink_ok (ds : list denial) (sink : option RateLimitOutcome) : Prop :=
  match ds with
  | [] => sink = None
  | (lim, rem, _, _) :: _ =>
      ∃ reset retry, sink = Some (Denied lim rem reset retry) ∧
        (∃ d, d ∈ ds ∧ reset_of d = reset ∧ retry_of d = retry) ∧
        Forall (λ d, retry_of d ≤ retry) ds
  end.

(** The tightest admission. *)
Definition grant_ok (gs : list (Z * Z * Z)) (a : option RateLimitOutcome) : Prop :=
  match gs with
  | [] => a = None
  | _ => ∃ lim rem reset, a = Some (Allowed lim rem reset) ∧ (lim, rem, reset) ∈ gs ∧
           Forall (λ g, rem ≤ g.1.2) gs
  end.

Lemma stretch_ok ds sink lim rem reset retry :
  sink_ok ds sink → sink_ok (ds ++ [(lim, rem, reset, retry)]) (stretch sink lim rem reset retry).
Proof.
  destruct ds as [|[[[l0 r0] s0] t0] ds]; simpl.
  - intros ->. exists reset, retry. split; [done|]. split; [|by repeat constructor].
    exists (lim, rem, reset, retry). split; [set_solver|done].
  - intros (s1 & t1 & -> & (d & Hd & Hs & Ht) & Hall). simpl.
    destruct (Z.ltb_spec t1 retry).
    + exists reset, retry. split; [done|]. split.
      * exists (lim, rem, reset, retry). split; [set_solver|done].
      * rewrite app_comm_cons, Forall_app. split; [|by repeat constructor].
        eapply list.Forall_impl; [done|]. intros ? ?; simpl in *; lia.
    + exists s1, t1. split; [done|]. split; [exists d; set_solver|].
      rewrite app_comm_cons, Forall_app. split; [done|]. repeat constructor. done.
Qed.

Lemma keep_ok gs a lim rem reset :
  grant_ok gs a →
  grant_ok (gs ++ [(lim, rem, reset)]) (if keep_prev a rem then a else Some (Allowed lim rem reset)).
Proof.
  destruct gs as [|g gs]; simpl.
  - intros ->. exists lim, rem, reset. split; [done|]. split; [set_solver|]. repeat constructor. done.
  - intros (l & r & s & -> & Hin & Hall). simpl. destruct (Z.leb_spec r rem).
    + exists l, r, s. split; [done|]. split; [set_solver|].
      rewrite app_comm_cons, Forall_app. split; [done|]. repeat constructor. done.
    + exists lim, rem, reset. split; [done|]. split; [set_solver|].
      rewrite app_comm_cons, Forall_app. split; [|by repeat constructor].
      eapply list.Forall_impl; [done|]. intros ? ?; simpl in *; lia.
Qed.

(** What the accumulators hold after some verdicts; the admissions stop
    counting at the first live denial. *)
Definition acc_ok (vs : list (bool * RateLimitOutcome)) (a : accumulators) : Prop :=
  sink_ok (denials false vs) (denied a) ∧ sink_ok (denials true vs) (dry a) ∧
  (denials false vs = [] → grant_ok (grants vs) (acc a)).

Lemma sink_some ds sink : sink_ok ds sink → bool_decide (is_Some sink) = negb (bool_decide (ds = [])).
Proof.
  destruct ds as [|[[[l r] s] t] ds]; simpl; [by intros ->|].
  intros (? & ? & -> & _). done.
Qed.

Lemma denials_snoc b vs d o :
  denials b (vs ++ [(d, o)]) = denials b vs ++
    match o with
    | Denied lim rem reset retry => if Bool.eqb d b then [(lim, rem, reset, retry)] else []
    | _ => []
    end.
Proof.
  unfold denials. rewrite omap_app. f_equal. simpl. destruct o; try done. by destruct (Bool.eqb d b).
Qed.

Lemma grants_snoc vs d o :
  grants (vs ++ [(d, o)]) = grants vs ++
    match o with
    | Allowed lim rem reset => if d then [] else [(lim, rem, reset)]
    | _ => []
    end.
Proof. unfold grants. rewrite omap_app. f_equal. simpl. destruct o; try done. by destruct d. Qed.

Lemma absorb_ok vs a d o : acc_ok vs a → acc_ok (vs ++ [(d, o)]) (absorb a d o).
Proof.
  intros (Hd & Hy & Hg). unfold acc_ok. rewrite !denials_snoc, grants_snoc.
  destruct o as [|lim rem reset|lim rem reset retry]; simpl.
  - rewrite !app_nil_r. done.
  - rewrite !app_nil_r, (sink_some _ _ Hd).
    destruct d; simpl; rewrite ?app_nil_r, ?orb_true_r, ?orb_false_r; [done|].
    case_bool_decide as Hds; simpl.
    + pose proof (keep_ok _ _ lim rem reset (Hg Hds)) as Hk.
      destruct (keep_prev (acc a) rem); simpl; done.
    + split_and!; [done..|]. intros Hnil. by destruct Hds.
  - destruct d; simpl; rewrite !app_nil_r.
    + split_and!; [done|by apply stretch_ok|done].
    + split_and!; [by apply stretch_ok|done|]. intros Hnil%app_nil. by destruct Hnil.
Qed.

Lemma absorb_all_ok vs : acc_ok vs (absorb_all (Acc None None None) vs).
Proof.
  induction vs as [|v vs IH] using rev_ind; [done|].
  unfold absorb_all in *. rewrite foldl_app. simpl. destruct v as [d o]. by apply absorb_ok.
Qed.

Section Theorems.
Context `{EngineLimiter} (ctx : RateLimitKeyContext) (env : EvalEnv).

(** C10: An evaluation.  The policies attached at the five levels are consulted
    once each, at their first place in the chain; every rule of theirs is
    checked once, from its own limiter's state, whatever the others answered,
    and no other rule is touched: two alike rules of a policy do not count a
    request twice ([alike_rules]).  This is of limiters that keep their own
    state, as those in the process do and those in Redis do not.  If live rules deny, the request is denied
    with the limit and remainder of the first of them and the longest wait of
    all; otherwise the tightest admission is reported, or nothing if no rule
    applies.  The denials of dry-run rules are reported apart, the same way. *)
Theorem evaluate_outcome rules c r s l g :
  let names := chain c r s l g in
  let vs := verdicts ctx env rules names in
  let '(e, rules') := evaluate ctx c r s l g env rules in
  rules' = charged ctx env rules names ∧
  NoDup names ∧ (∀ n, n ∈ names ↔ n ∈ c ++ r ++ s ++ l ++ g) ∧
  sink_ok (denials true vs) (dry_denied e) ∧
  match denials false vs, grants vs with
  | [], [] => outcome e = NotLimited
  | [], gs => grant_ok gs (Some (outcome e))
  | ds, _ => sink_ok ds (Some (outcome e))
  end.
Proof.
  intros names vs. rewrite evaluate_verdicts. fold names. cbv zeta. fold vs.
  destruct (absorb_all_ok vs) as (Hd & Hy & Hg). split; [done|].
  split; [apply first_positions_nodup|].
  split; [intros n; unfold names, chain; rewrite elem_of_first_positions; set_solver|].
  split; [done|]. simpl. destruct (denials false vs) as [|d ds] eqn:Hds.
  - specialize (Hg eq_refl). simpl in Hd. rewrite Hd. simpl. destruct (grants vs) as [|g0 gs].
    + simpl in Hg. by rewrite Hg.
    + destruct Hg as (lim & rem & reset & Ha & Hin & Hall). rewrite Ha. simpl. eauto 10.
  - destruct d as [[[l0 r0] s0] t0]. destruct Hd as (reset & retry & Hden & Hex & Hall).
    rewrite Hden. simpl. eauto.
Qed.

(** Two engines that differ only in the limiters of their dry-run rules. *)
Definition same_live (r r' : string * EngineRule) : Prop :=
  r.1 = r'.1 ∧ dry_run r.2 = dry_run r'.2 ∧ (dry_run r.2 = false → r = r').

Definition live_only (vs : list (bool * RateLimitOutcome)) : list (bool * RateLimitOutcome) :=
  filter (λ v, v.1 = false) vs.

(** Agreement on what becomes the outcome. *)
Definition agree (a a' : accumulators) : Prop := denied a = denied a' ∧ acc a = acc a'.

#[local] Instance agree_equivalence : Equivalence agree.
Proof. unfold agree. split; [done|by intros ? ? [-> ->]|by intros ? ? ? [-> ->] [-> ->]]. Qed.

Lemma absorb_dry a o : agree (absorb a true o) a.
Proof. destruct o; simpl; rewrite ?orb_true_r; done. Qed.

Lemma absorb_agree a a' d o : agree a a' → agree (absorb a d o) (absorb a' d o).
Proof.
  intros [Hd Ha]. unfold agree. destruct o as [|lim rem reset|]; simpl.
  - done.
  - rewrite Hd. destruct (_ || _); [done|]. rewrite Ha. by destruct (keep_prev (acc a') rem).
  - destruct d; simpl; by rewrite ?Hd, ?Ha.
Qed.

Lemma absorb_all_agree vs a a' : agree a a' → agree (absorb_all a vs) (absorb_all a' vs).
Proof. revert a a'. induction vs as [|[d o] vs IH]; intros a a' Ha; [done|]. by apply IH, absorb_agree. Qed.

Lemma absorb_live_only vs a : agree (absorb_all a vs) (absorb_all a (live_only vs)).
Proof.
  revert a. induction vs as [|[[|] o] vs IH]; intros a; [done| |apply IH].
  unfold live_only. rewrite filter_cons_False by done. simpl.
  etrans; [|apply IH]. apply absorb_all_agree, absorb_dry.
Qed.

Lemma check_rule_same i r r' : same_live r r' → same_live (check_rule ctx env i r).2 (check_rule ctx env i r').2.
Proof.
  intros (Hn & Hdry & Heq).
  destruct (check_rule_static ctx env i r) as [H1 H2], (check_rule_static ctx env i r') as [H3 H4].
  split; [congruence|]. split; [congruence|]. rewrite H2. intros Hl. by rewrite (Heq Hl).
Qed.

Lemma imap_same_live (f : nat → string * EngineRule → list (bool * RateLimitOutcome)) rules rules' :
  Forall2 same_live rules rules' →
  (∀ i r r', same_live r r' → live_only (f i r) = live_only (f i r')) →
  live_only (concat (imap f rules)) = live_only (concat (imap f rules')).
Proof.
  intros Hall. revert f. induction Hall as [|r r' rules rules' Hr Hall IH]; intros f Hf; [done|].
  rewrite !imap_cons. simpl. unfold live_only in *. rewrite !filter_app. f_equal; [by apply Hf|].
  apply IH. intros i. apply Hf.
Qed.

Lemma verdicts_same_live rules rules' names :
  Forall2 same_live rules rules' →
  live_only (verdicts ctx env rules names) = live_only (verdicts ctx env rules' names).
Proof.
  intros Hall. unfold verdicts. induction names as [|n names IH]; [done|]. simpl.
  unfold live_only in *. rewrite !filter_app. f_equal; [|exact IH].
  apply imap_same_live; [done|]. intros i r r' (Hn & Hdry & Heq). rewrite Hn.
  destruct (String.eqb r'.1 n); [|done]. unfold live_only. destruct (dry_run r.2) eqn:Hd.
  - rewrite <- Hdry. by rewrite !filter_cons_False by done.
  - by rewrite <- Hdry, (Heq eq_refl).
Qed.

Lemma charged_same_live rules rules' names :
  Forall2 same_live rules rules' →
  Forall2 same_live (charged ctx env rules names) (charged ctx env rules' names).
Proof.
  unfold charged. intros Hall.
  assert (∀ k, Forall2 same_live
    (imap (λ i r, if bool_decide (r.1 ∈ names) then (check_rule ctx env (k + i) r).2 else r) rules)
    (imap (λ i r, if bool_decide (r.1 ∈ names) then (check_rule ctx env (k + i) r).2 else r) rules'))
    as Hk; [|apply (Hk 0%nat)].
  induction Hall as [|r r' rules rules' Hr Hall IH]; intros k; [constructor|].
  rewrite !imap_cons. constructor.
  - destruct Hr as (Hn & Hrest). rewrite Hn. case_bool_decide; [|done]. by apply check_rule_same.
  - specialize (IH (S k)). erewrite imap_ext; [erewrite (imap_ext _ _ rules')|];
      [exact IH|intros i x _; simpl; by rewrite Nat.add_succ_r..].
Qed.

(** Monitoring does not touch enforcement.  Whatever the limiters of the
    dry-run rules hold, the outcome of an evaluation is the same, and so is
    the state in which it leaves the limiters of the live rules. *)
Theorem dry_run_unobservable rules rules' c r s l g :
  Forall2 same_live rules rules' →
  let '(e, after) := evaluate ctx c r s l g env rules in
  let '(e', after') := evaluate ctx c r s l g env rules' in
  outcome e = outcome e' ∧ Forall2 same_live after after'.
Proof.
  intros Hall. rewrite !evaluate_verdicts. split; [|by apply charged_same_live]. simpl.
  set (names := chain c r s l g).
  destruct (absorb_live_only (verdicts ctx env rules names) (Acc None None None)) as [-> ->].
  destruct (absorb_live_only (verdicts ctx env rules' names) (Acc None None None)) as [-> ->].
  by rewrite (verdicts_same_live rules rules').
Qed.
End Theorems.

(** * Keys *)

#[local] Arguments String.append !_ _ : simpl nomatch.

Definition bar : Ascii.ascii := Ascii.ascii_of_N 124.

Fixpoint no_bar (s : string) : bool :=
  match s with
  | EmptyString => true
  | String ch s => negb (Ascii.eqb ch bar) && no_bar s
  end.

(** A component that cannot be confused with another. *)
Definition plain (s : string) : bool := negb (String.eqb s "") && no_bar s.

Fixpoint tail_of (cs : list string) : string :=
  match cs with
  | [] => ""
  | c :: cs => "|" +:+ (c +:+ tail_of cs)
  end.

Lemma string_app_nil_r (s : string) : s +:+ "" = s.
Proof. induction s as [|ch s IH]; [done|]. simpl. by rewrite IH. Qed.

Lemma string_app_assoc (a b c : string) : (a +:+ b) +:+ c = a +:+ (b +:+ c).
Proof. induction a as [|ch a IH]; [done|]. simpl. by rewrite IH. Qed.

Lemma push_nonempty ctx key sels :
  key ≠ "" → foldl (push_component ctx) key sels = key +:+ tail_of (component ctx <$> sels).
Proof.
  revert key. induction sels as [|x sels IH]; intros key Hk; simpl; [by rewrite string_app_nil_r|].
  assert (push_component ctx key x = (key +:+ "|") +:+ component ctx x) as ->.
  { unfold push_component. by destruct (String.eqb_spec key ""). }
  rewrite IH; [by rewrite !string_app_assoc|]. by destruct key.
Qed.

Lemma build_key_join ctx x sels :
  component ctx x ≠ "" →
  build_key ctx (x :: sels) = component ctx x +:+ tail_of (component ctx <$> sels).
Proof. intros Hx. unfold build_key. simpl. by rewrite push_nonempty. Qed.

Definition bar_or_nil (t : string) : Prop := t = "" ∨ ∃ t', t = "|" +:+ t'.

Lemma tail_bar cs : bar_or_nil (tail_of cs).
Proof. destruct cs; [by left|right]. simpl. eauto. Qed.

Lemma split_at_bar c c' t t' :
  no_bar c = true → no_bar c' = true → bar_or_nil t → bar_or_nil t' →
  c +:+ t = c' +:+ t' → c = c' ∧ t = t'.
Proof.
  revert c'. induction c as [|ch c IH]; intros [|ch' c'] Hc Hc' Ht Ht'; simpl in *.
  - done.
  - intros ->. destruct Ht as [[=]|[t'' [= ->]]]. simpl in Hc'. done.
  - intros <-. destruct Ht' as [[=]|[t'' [= ->]]]. simpl in Hc. done.
  - apply andb_prop in Hc as [_ Hc], Hc' as [_ Hc']. intros [= -> Heq].
    by destruct (IH c' Hc Hc' Ht Ht' Heq) as [-> ->].
Qed.

Lemma tail_inj cs cs' :
  length cs = length cs' → Forall (λ c, no_bar c = true) cs → Forall (λ c, no_bar c = true) cs' →
  tail_of cs = tail_of cs' → cs = cs'.
Proof.
  revert cs'. induction cs as [|c cs IH]; intros [|c' cs'] Hlen Hc Hc'; simpl; try done.
  apply list.Forall_cons in Hc as [H1 Hc], Hc' as [H1' Hc']. intros [= Heq].
  apply split_at_bar in Heq as [-> Heq]; [|done..|apply tail_bar|apply tail_bar].
  f_equal. apply IH; [by injection Hlen|done..].
Qed.

(** Keys of one rule tell requests apart.  When no component is empty or
    contains the separator, two requests share a bucket of a rule only if
    they agree on every component its selectors name. *)
Theorem keys_apart ctx ctx' sels :
  Forall (λ s, plain (component ctx s) = true ∧ plain (component ctx' s) = true) sels →
  build_key ctx sels = build_key ctx' sels →
  component ctx <$> sels = component ctx' <$> sels.
Proof.
  destruct sels as [|x sels]; [done|]. intros Hall.
  assert (∀ s, plain s = true → s ≠ "" ∧ no_bar s = true) as Hplain.
  { intros s [Hne Hbar]%andb_prop. split; [|done]. by intros ->. }
  assert (Forall (λ c, no_bar c = true) (component ctx <$> sels) ∧
          Forall (λ c, no_bar c = true) (component ctx' <$> sels)) as [Hc Hc'].
  { apply list.Forall_cons in Hall as [_ Hall].
    split; apply list.Forall_fmap; eapply list.Forall_impl; try exact Hall; intros s [H1 H2]; simpl; by apply Hplain. }
  apply list.Forall_cons in Hall as [[[Hx Hxb]%Hplain [Hx' Hxb']%Hplain] _].
  rewrite !build_key_join by done. intros Heq.
  apply split_at_bar in Heq as [Heq Ht]; [|done..|apply tail_bar|apply tail_bar].
  apply tail_inj in Ht; [|by rewrite !length_fmap|done|done].
  by rewrite !fmap_cons, Heq, Ht.
Qed.

(** The hypotheses are needed: a consumer called like an address, and an empty
    component, collide with other requests. *)
Example anonymous_collides :
  build_key (KeyContext "10.0.0.1" None "r") [Credential] =
  build_key (KeyContext "10.9.9.9" (Some "10.0.0.1") "r") [Credential].
Proof. reflexivity. Qed.

Example separator_collides :
  build_key (KeyContext "::1" (Some "a|b") "c") [Credential; Route] =
  build_key (KeyContext "::1" (Some "a") "b|c") [Credential; Route].
Proof. reflexivity. Qed.

Lemma keys_apart_witness :
  component (KeyContext "::1" None "api") <$> [Ip; Route] =
  component (KeyContext "::1" (Some "bob") "api") <$> [Ip; Route].
Proof.
  refine (keys_apart (KeyContext "::1" None "api") (KeyContext "::1" (Some "bob") "api") [Ip; Route] _ _);
    [repeat constructor|reflexivity].
Defined.

(** * Concrete evaluations *)

(** A live rule of two requests a second for each client, and a dry one of one
    request a minute for each route. *)
Definition sample_policies : list Policy :=
  [PolicyRates "team" None [Rule [Ip] (RequestsPer (Some 2) None None) None] false;
   PolicyRates "watch" (Some (LegacyLimit 1 60)) [] true].

#[local] Instance sample_backend : EngineLimiter := local_limiter sample_hash.

Definition sample_engine : list (string * EngineRule) := compile sample_hash sample_policies.

Definition sample_context : RateLimitKeyContext := KeyContext "10.0.0.1" None "api".

Definition sample_env (t : Z) : EvalEnv := Env (λ _, one) (λ _, sample_ticks t) (λ _, t / second).

Definition sample_evaluate (t : Z) (engine : list (string * EngineRule))
    : RateLimitEvaluation * list (string * EngineRule) :=
  evaluate sample_context [] ["team"; "watch"] ["watch"] [] ["team"] (sample_env t) engine.

(** Three requests at once: the dry rule reports the second, the live one
    denies the third, each policy charged once although attached twice. *)
Fixpoint sample_evaluations (times : list Z) (engine : list (string * EngineRule))
    : list RateLimitEvaluation :=
  match times with
  | [] => []
  | t :: times => let '(e, engine) := sample_evaluate t engine in e :: sample_evaluations times engine
  end.

Example sample_evaluations_run :
  sample_evaluations [second; second; second] sample_engine =
    [Evaluation (Allowed 2 1 2) None;
     Evaluation (Allowed 2 0 2) (Some (Denied 1 0 61 60));
     Evaluation (Denied 2 0 2 1) (Some (Denied 1 0 61 60))].
Proof. vm_compute. reflexivity. Qed.

(** Two alike rules of a policy have a limiter each: of a limit of two, two
    requests at once are admitted, as they are with one of the rules. *)
Definition alike (n : nat) : list (string * EngineRule) :=
  compile sample_hash
    [PolicyRates "team" None (replicate n (Rule [Ip] (RequestsPer (Some 2) None None) None)) false].

Example alike_rules :
  sample_evaluations [second; second; second] (alike 2) = sample_evaluations [second; second; second] (alike 1) ∧
  outcome <$> sample_evaluations [second; second; second] (alike 2) = [Allowed 2 1 2; Allowed 2 0 2; Denied 2 0 2 1].
Proof. split; vm_compute; reflexivity. Qed.

(** The same engine with its dry rules charged once more. *)
Definition spend_dry (r : string * EngineRule) : string * EngineRule :=
  if dry_run r.2 then (check_rule sample_context (sample_env second) 0 r).2 else r.

Lemma spend_same_live rules : Forall2 same_live rules (spend_dry <$> rules).
Proof.
  induction rules as [|r rules IH]; simpl; constructor; [|done]. unfold spend_dry, same_live.
  destruct (dry_run r.2) eqn:Hd; [|done].
  destruct (check_rule_static sample_context (sample_env second) 0 r) as [-> ->]. by rewrite Hd.
Qed.

Lemma dry_run_unobservable_witness :
  outcome (sample_evaluate (2 * second) sample_engine).1 =
  outcome (sample_evaluate (2 * second) (spend_dry <$> sample_engine)).1.
Proof.
  pose proof (dry_run_unobservable sample_context (sample_env (2 * second)) sample_engine
    (spend_dry <$> sample_engine) [] ["team"; "watch"] ["watch"] [] ["team"]
    (spend_same_live sample_engine)) as Hd.
  unfold sample_evaluate in *.
  destruct (evaluate _ _ _ _ _ _ _ sample_engine) as [e s],
    (evaluate _ _ _ _ _ _ _ (spend_dry <$> sample_engine)) as [e' s']. apply Hd.
Defined.
