(* ===== verification/Adaptive.v ===== *)
(** Adaptive tuning of rate limits
    (src/crates/dwara-core/src/resilience/adaptive.rs): the moving averages of
    an upstream's errors and latency, the factor they drive, the backoff that
    an upstream asks for, and what the factor does to the cost of a request.

    Every access to the shared state is an atomic load or store, and the last
    store of an update is computed from one load of the factor; the theorems
    on the factor hold for whatever value that load returns.  [f64::exp] is a
    parameter: Rust does not specify its rounding. *)

From S2P Require Import Prelude.
From S2P Require Import JsNumber.
From S2P Require Import FloatOrder.
From S2P Require Import Breaker.
From S2P Require Import RateStore.
From S2P Require Import RateLimiter.
From S2P Require Import RateEngine.
Local Open Scope Z_scope.

(** * Configuration and state *)

Inductive OriginSignal : Type := RetryAfter.

Record AdaptiveRateLimit : Type := Adaptive {
  enabled : bool;
  ewma_window_secs : Z;
  min_factor : num;
  max_factor : num;
  error_threshold : num;
  latency_threshold_ms : Z;
  origin_signals : list OriginSignal;
}.

Definition TIGHTEN_RATE : num := dec_to_num false 95 (-2).
Definition RELAX_RATE : num := dec_to_num false 101 (-2).
Definition f64_zero : num := S754_zero false.

Record AdaptivePolicyState : Type := AState {
  config : AdaptiveRateLimit;
  error_ewma : num;
  latency_ewma : num;
  stamp : Z;
  factor_bits : num;
  retry_after_until : Z;
  honors_retry_after : bool;
}.

(** [AdaptivePolicyState::new]. *)
Definition new_state (cfg : AdaptiveRateLimit) (now : Z) : AdaptivePolicyState :=
  AState cfg f64_zero f64_zero now one 0
    (existsb (λ s, match s with RetryAfter => true end) (origin_signals cfg)).

Definition backing_off (now : Z) (s : AdaptivePolicyState) : bool :=
  (0 <? retry_after_until s) && (now <? retry_after_until s).

(** [AdaptivePolicyState::factor]. *)
Definition factor (now : Z) (s : AdaptivePolicyState) : num :=
  if backing_off now s then min_factor (config s) else factor_bits s.

(** * The controller *)

Abbreviation AdaptiveController := (gmap string AdaptivePolicyState).

(** [compile_with_clock], on the fields of a policy it reads. *)
Definition compile_adaptive (now : Z) (policies : list (string * option AdaptiveRateLimit))
    : AdaptiveController :=
  foldl (λ states p,
    match p.2 with
    | Some cfg => if enabled cfg then <[p.1 := new_state cfg now]> states else states
    | None => states
    end) ∅ policies.

Definition factor_for (now : Z) (name : string) (c : AdaptiveController) : num :=
  match c !! name with
  | Some s => factor now s
  | None => one
  end.

(** What the controller reports to the metrics. *)
Inductive AdaptiveEvent : Type :=
  | OriginSignalSeen
  | FactorSet (f : num)
  | PolicyTightened
  | PolicyRelaxed.

Section Record.
Variable exp : num → num.

(** One exchange with the upstream: durations in nanoseconds. *)
Record exchange : Type := Exchange { status : Z; latency : Z; retry_after : option Z }.

(** The Retry-After branch. *)
Definition apply_retry_after (now : Z) (x : exchange) (s : AdaptivePolicyState)
    : AdaptivePolicyState * list AdaptiveEvent :=
  match retry_after x with
  | Some ra =>
      if honors_retry_after s then
        (AState (config s) (error_ewma s) (latency_ewma s) (stamp s) (min_factor (config s))
           (saturating_add now (u64_wrap ra)) (honors_retry_after s),
         [OriginSignalSeen; FactorSet (min_factor (config s))])
      else (s, [])
  | None => (s, [])
  end.

(** The weight of the past: [exp(-td / tau)]. *)
Definition weight (cfg : AdaptiveRateLimit) (td : Z) : num :=
  let tau := nmul (num_of_Z (ewma_window_secs cfg)) (num_of_Z 1000000000) in
  if nlt f64_zero tau then exp (ndiv (SFopp (num_of_Z td)) tau) else f64_zero.

Definition blend (w prev obs : num) : num := nadd (nmul prev w) (nmul obs (nsub one w)).

Definition is_stressed (cfg : AdaptiveRateLimit) (err lat : num) : bool :=
  nlt (error_threshold cfg) err || nlt (num_of_Z (latency_threshold_ms cfg)) lat.

Definition next_factor (cfg : AdaptiveRateLimit) (stressed : bool) (prev : num) : num :=
  if stressed then f64_max (nmul prev TIGHTEN_RATE) (min_factor cfg)
  else f64_min (nmul prev RELAX_RATE) (max_factor cfg).

(** [record_outcome] on the policy's state. *)
Definition record (now : Z) (x : exchange) (s : AdaptivePolicyState)
    : AdaptivePolicyState * list AdaptiveEvent :=
  let '(s, signals) := apply_retry_after now x s in
  let cfg := config s in
  let w := weight cfg (saturating_sub now (stamp s)) in
  let err := blend w (error_ewma s) (if 500 <=? status x then one else f64_zero) in
  let lat := blend w (latency_ewma s) (num_of_Z (latency x / 1000000)) in
  let prev := factor_bits s in
  let stressed := is_stressed cfg err lat in
  let effective := if backing_off now s then min_factor cfg else next_factor cfg stressed prev in
  (AState cfg err lat now effective (retry_after_until s) (honors_retry_after s),
   signals ++ FactorSet effective ::
   if stressed && nlt effective prev then [PolicyTightened]
   else if negb stressed && nlt prev effective then [PolicyRelaxed] else []).

Definition record_outcome (now : Z) (name : string) (x : exchange) (c : AdaptiveController)
    : AdaptiveController * list AdaptiveEvent :=
  match c !! name with
  | Some s => let '(s, events) := record now x s in (<[name := s]> c, events)
  | None => (c, [])
  end.

(** A history: outcomes recorded at their times. *)
Definition history := list (Z * string * exchange).

Definition run_history (h : history) (c : AdaptiveController) : AdaptiveController :=
  foldl (λ c '(now, name, x), (record_outcome now name x c).1) c h.
End Record.

(** * The factor stays within its bounds *)

(** What the configuration is validated for ([snapshot::mod], DW-089). *)
Definition validated (cfg : AdaptiveRateLimit) : Prop :=
  pos_double (min_factor cfg) = true ∧ pos_double (max_factor cfg) = true ∧
  nle (min_factor cfg) (max_factor cfg) = true.

(** What it is not validated for: the factor starts at 1. *)
Definition admits_one (cfg : AdaptiveRateLimit) : Prop :=
  nle (min_factor cfg) one = true ∧ nle one (max_factor cfg) = true.

Definition in_bounds (cfg : AdaptiveRateLimit) (f : num) : Prop :=
  pos_double f = true ∧ nle (min_factor cfg) f = true ∧ nle f (max_factor cfg) = true.

Lemma min_in_bounds cfg : validated cfg → in_bounds cfg (min_factor cfg).
Proof. intros (H1 & H2 & H3). split; [done|]. split; [|done]. by apply nle_refl, pos_double_not_nan. Qed.

Lemma max_in_bounds cfg : validated cfg → in_bounds cfg (max_factor cfg).
Proof. intros (H1 & H2 & H3). split; [done|]. split; [done|]. by apply nle_refl, pos_double_not_nan. Qed.

Lemma one_in_bounds cfg : admits_one cfg → in_bounds cfg one.
Proof. intros [H1 H2]. split; [by vm_compute|done]. Qed.

Lemma tighten_le x : pos_double x = true → nle (nmul x TIGHTEN_RATE) x = true.
Proof. intros Hx. exact (nmul_le x 8556839292003942 Hx ltac:(lia)). Qed.

Lemma relax_ge x : pos_double x = true → nle x (nmul x RELAX_RATE) = true.
Proof. intros Hx. exact (nmul_ge x 4548635623644201 Hx ltac:(lia)). Qed.

Lemma tighten_kind x :
  pos_double x = true → nmul x TIGHTEN_RATE = f64_zero ∨ pos_double (nmul x TIGHTEN_RATE) = true.
Proof.
  intros Hx. pose proof (tighten_le x Hx) as Hle.
  destruct (nmul_kind x 8556839292003942 (-53) Hx ltac:(lia)) as [H|[H|H]]; [by left| |by right].
  change (S754_finite false 8556839292003942 (-53)) with TIGHTEN_RATE in H.
  rewrite H in Hle. by destruct x as [| | |[]].
Qed.

Lemma relax_kind x :
  pos_double x = true →
  nmul x RELAX_RATE = S754_infinity false ∨ pos_double (nmul x RELAX_RATE) = true.
Proof.
  intros Hx. pose proof (relax_ge x Hx) as Hle.
  destruct (nmul_kind x 4548635623644201 (-52) Hx ltac:(lia)) as [H|[H|H]]; [|by left|by right].
  change (S754_finite false 4548635623644201 (-52)) with RELAX_RATE in H.
  rewrite H in Hle. by destruct x as [| | |[]].
Qed.

Lemma pos_double_above_zero x : pos_double x = true → nlt f64_zero x = true.
Proof. by destruct x as [| | |[|]]. Qed.

Lemma pos_double_below_infinity x : pos_double x = true → nlt x (S754_infinity false) = true.
Proof. by destruct x as [| | |[|]]. Qed.

Lemma next_factor_stressed cfg prev :
  validated cfg → in_bounds cfg prev →
  in_bounds cfg (next_factor cfg true prev) ∧ nle (next_factor cfg true prev) prev = true.
Proof.
  intros Hv (Hp & Hmin & Hmax). pose proof (tighten_le prev Hp) as Hle. unfold next_factor, f64_max.
  pose proof (min_in_bounds cfg Hv) as Hself. destruct Hv as (H1 & H2 & H3). pose proof (pos_double_not_nan _ H1) as Hn1.
  destruct (tighten_kind prev Hp) as [Hy|Hy].
  - rewrite Hy. simpl. rewrite Hn1, pos_double_above_zero by done. split; [done|done].
  - rewrite (pos_double_not_nan _ Hy), Hn1. destruct (nlt _ _) eqn:Hlt; [by split|].
    split; [|done]. split; [done|]. split; [|by eapply nle_trans].
    apply nge_le; [by apply pos_double_not_nan|done|done].
Qed.

Lemma next_factor_healthy cfg prev :
  validated cfg → in_bounds cfg prev →
  in_bounds cfg (next_factor cfg false prev) ∧ nle prev (next_factor cfg false prev) = true.
Proof.
  intros Hv (Hp & Hmin & Hmax). pose proof (relax_ge prev Hp) as Hle. unfold next_factor, f64_min.
  pose proof (max_in_bounds cfg Hv) as Hself. destruct Hv as (H1 & H2 & H3). pose proof (pos_double_not_nan _ H2) as Hn2.
  destruct (relax_kind prev Hp) as [Hy|Hy].
  - rewrite Hy. simpl. rewrite Hn2, pos_double_below_infinity by done. split; [done|done].
  - rewrite (pos_double_not_nan _ Hy), Hn2. destruct (nlt _ _) eqn:Hlt; [by split|].
    split; [|done]. split; [done|]. split; [by eapply nle_trans|].
    apply nge_le; [done|by apply pos_double_not_nan|done].
Qed.

Lemma next_factor_bounds cfg b prev :
  validated cfg → in_bounds cfg prev → in_bounds cfg (next_factor cfg b prev).
Proof. intros. destruct b; [by apply next_factor_stressed|by apply next_factor_healthy]. Qed.

(** * States and histories *)

Definition state_ok (s : AdaptivePolicyState) : Prop :=
  validated (config s) ∧ in_bounds (config s) (factor_bits s).

Lemma apply_retry_after_ok now x s :
  state_ok s →
  state_ok (apply_retry_after now x s).1 ∧ config (apply_retry_after now x s).1 = config s.
Proof.
  intros [Hv Hb]. unfold apply_retry_after. destruct (retry_after x) as [ra|]; [|done].
  destruct (honors_retry_after s); [|done]. split; [|done]. split; [done|]. by apply min_in_bounds.
Qed.

Lemma record_config exp now x s : config (record exp now x s).1 = config s.
Proof.
  unfold record, apply_retry_after. destruct (retry_after x) as [ra|]; [|done].
  by destruct (honors_retry_after s).
Qed.

Lemma record_ok exp now x s : state_ok s → state_ok (record exp now x s).1.
Proof.
  intros Hs. destruct (apply_retry_after_ok now x s Hs) as [[Hv Hb] _]. unfold record.
  destruct (apply_retry_after now x s) as [s1 ev]; simpl in *. split; [done|]. simpl.
  destruct (backing_off now s1); [by apply min_in_bounds|by apply next_factor_bounds].
Qed.

Definition controller_ok (c : AdaptiveController) : Prop := map_Forall (λ _, state_ok) c.

Lemma run_history_ok exp h c : controller_ok c → controller_ok (run_history exp h c).
Proof.
  revert c. induction h as [|[[now name] x] h IH]; intros c Hc; simpl; [done|]. apply IH.
  unfold record_outcome. destruct (c !! name) as [s|] eqn:Hs; [|done].
  pose proof (record_ok exp now x s (Hc _ _ Hs)) as Hr.
  destruct (record exp now x s) as [s' ev]. by apply map_Forall_insert_2.
Qed.

Lemma compile_adaptive_ok now policies :
  Forall (λ p, ∀ cfg, p.2 = Some cfg → validated cfg ∧ admits_one cfg) policies →
  controller_ok (compile_adaptive now policies).
Proof.
  unfold compile_adaptive. intros Hall.
  assert (controller_ok ∅) as H0 by apply map_Forall_empty. revert H0. generalize (∅ : AdaptiveController).
  induction Hall as [|[name cfg] policies Hp _ IH]; intros c Hc; simpl; [done|]. apply IH.
  destruct cfg as [cfg|]; [|done]. simpl. destruct (enabled cfg); [|done].
  destruct (Hp cfg eq_refl) as [Hv H1]. apply map_Forall_insert_2; [|done].
  split; [done|]. by apply one_in_bounds.
Qed.

(** C11: The adaptive factor.  If every policy's bounds are as validated and
    contain 1, then after any history of exchanges, whatever [exp] returns and
    whatever the clock reads, the factor of a tuned policy lies between its
    bounds, so it is never 0, infinite or NaN; and it is 1 for a policy
    without tuning. *)
Theorem factor_bounded exp start policies h now name :
  Forall (λ p, ∀ cfg, p.2 = Some cfg → validated cfg ∧ admits_one cfg) policies →
  let c := run_history exp h (compile_adaptive start policies) in
  match c !! name with
  | Some s => in_bounds (config s) (factor_for now name c)
  | None => factor_for now name c = one
  end.
Proof.
  intros Hall c. pose proof (run_history_ok exp h _ (compile_adaptive_ok start policies Hall)) as Hc.
  fold c in Hc. unfold factor_for. destruct (c !! name) as [s|] eqn:Hs; [|done].
  destruct (Hc _ _ Hs) as [Hv Hb]. unfold factor.
  destruct (backing_off now s); [by apply min_in_bounds|done].
Qed.

(** The direction of an update.  Outside a backoff, an update that finds
    the upstream stressed never raises the factor, and one that finds it
    healthy never lowers it. *)
Theorem update_direction exp now x s :
  state_ok s → retry_after x = None → backing_off now s = false →
  let s' := (record exp now x s).1 in
  if is_stressed (config s) (error_ewma s') (latency_ewma s')
  then nle (factor_bits s') (factor_bits s) = true
  else nle (factor_bits s) (factor_bits s') = true.
Proof.
  intros [Hv Hb] Hra Hbo. unfold record, apply_retry_after. rewrite Hra. simpl. rewrite Hbo.
  destruct (is_stressed _ _ _); [by apply next_factor_stressed|by apply next_factor_healthy].
Qed.

(** * The backoff *)

Lemma record_until exp now x s :
  retry_after x = None → retry_after_until (record exp now x s).1 = retry_after_until s.
Proof. intros Hra. unfold record, apply_retry_after. by rewrite Hra. Qed.

(** No exchange of the policy carries a Retry-After. *)
Definition no_signal (name : string) (h : history) : Prop :=
  Forall (λ e, e.1.2 = name → retry_after e.2 = None) h.

Lemma run_history_until exp h name c s :
  no_signal name h → c !! name = Some s →
  ∃ s', run_history exp h c !! name = Some s' ∧ config s' = config s ∧
        retry_after_until s' = retry_after_until s.
Proof.
  intros Hh. revert c s. induction Hh as [|[[now n] x] h Hx _ IH]; intros c s Hs; simpl in *; [eauto|].
  unfold record_outcome at 1. destruct (decide (n = name)) as [->|Hne].
  - rewrite Hs. specialize (Hx eq_refl).
    pose proof (record_until exp now x s Hx) as Hu. pose proof (record_config exp now x s) as Hc.
    destruct (record exp now x s) as [s1 ev]; simpl in *.
    destruct (IH (<[name:=s1]> c) s1) as (s' & Hs' & Hc' & Hu'); [by rewrite lookup_insert_eq|].
    exists s'. split; [done|]. split; congruence.
  - destruct (c !! n) as [sn|]; [|by apply IH].
    destruct (record exp now x sn) as [s1 ev]. simpl. apply IH. by rewrite lookup_insert_ne.
Qed.

(** C12: An upstream's Retry-After is obeyed.  From the moment it is recorded
    until its time has passed, and whatever is recorded in between, the factor
    of a policy that honors it is the minimum, as long as no other Retry-After
    replaces it. *)
Theorem retry_after_obeyed exp t name x ra c s h now :
  c !! name = Some s → honors_retry_after s = true → retry_after x = Some ra →
  0 ≤ t → 0 ≤ ra → t + ra ≤ u64_max → no_signal name h → now < t + ra → 0 < t + ra →
  factor_for now name (run_history exp h (record_outcome exp t name x c).1) = min_factor (config s).
Proof.
  intros Hs Hh Hra Ht Hra0 Hmax Hno Hnow Hpos.
  assert (retry_after_until (record exp t x s).1 = t + ra) as Hu.
  { unfold record, apply_retry_after. rewrite Hra, Hh. simpl. unfold u64_wrap, saturating_add.
    rewrite Z.mod_small by (unfold u64_max in *; lia). lia. }
  pose proof (record_config exp t x s) as Hcfg.
  unfold record_outcome. rewrite Hs. destruct (record exp t x s) as [s1 ev]; simpl in *.
  destruct (run_history_until exp h name (<[name:=s1]> c) s1 Hno) as (s' & Hs' & Hc' & Hu');
    [by rewrite lookup_insert_eq|].
  unfold factor_for. rewrite Hs'. unfold factor, backing_off. rewrite Hu', Hu, Hc', Hcfg.
  destruct (Z.ltb_spec 0 (t + ra)), (Z.ltb_spec now (t + ra)); try lia. done.
Qed.

(** * What the factor does to a request *)

Lemma round_max_u32_le_one x :
  valid_binary prec emax x = true → nle x one = true →
  match x with S754_zero s | S754_finite s _ _ => s = false | _ => False end →
  round_max_u32 x = 1.
Proof.
  destruct x as [s|s| |s m e]; try done. intros Hv Hle ->. rewrite one_eq in Hle.
  apply nle_rank in Hle as (_ & _ & Hlex). unfold lex_le in Hlex. simpl in *.
  apply bounded_spec in Hv as [Hcan _]. simpl in Hcan.
  unfold round_max_u32, frac_of. destruct (Z.leb_spec 0 e); [lia|].
  pose proof (pow2_pos (- e) ltac:(lia)).
  assert (Z.pos m ≤ 2 ^ (- e)) as Hm.
  { destruct (decide (e = -52)) as [->|]; [lia|].
    pose proof (digits_pos_spec m) as [_ Hhi]. assert (Z.pos (digits2_pos m) ≤ prec).
    { unfold SpecFloat.fexp in Hcan. lia. }
    assert (2 ^ Z.pos (digits2_pos m) ≤ 2 ^ (- e)) by (apply Z.pow_le_mono_r; unfold prec in *; lia). lia. }
  assert ((2 * Z.pos m + 2 ^ (- e)) / (2 * 2 ^ (- e)) ≤ 1).
  { apply Z.lt_succ_r, Z.div_lt_upper_bound; lia. }
  unfold u32_max. lia.
Qed.

Lemma scaled_cost_relaxed f : pos_double f = true → nle one f = true → scaled_cost f = 1.
Proof.
  intros Hf H1. unfold scaled_cost. change (S754_zero false) with f64_zero.
  rewrite pos_double_above_zero by done. destruct (recip_le_one f Hf H1) as (Hle & Hv & Hs).
  by apply round_max_u32_le_one.
Qed.

Lemma scaled_cost_range f : 1 ≤ scaled_cost f ≤ u32_max.
Proof.
  unfold scaled_cost, u32_max. destruct (nlt _ _); [|lia]. unfold round_max_u32, u32_max.
  destruct (ndiv one f) as [|[]| |[] m e]; try lia. destruct (frac_of _ _) as [nu de]. lia.
Qed.

(** The adaptive factors of a controller, as the engine reads them. *)
Definition adaptive_env `{EngineLimiter} (now : Z) (c : AdaptiveController) (env : EvalEnv) : EvalEnv :=
  Env (λ name, factor_for now name c) (readings env) (epoch env).

Lemma check_rule_same_cost `{EngineLimiter} ctx (env env' : EvalEnv) i r :
  readings env = readings env' → epoch env = epoch env' →
  scaled_cost (adaptive_factor env r.1) = scaled_cost (adaptive_factor env' r.1) →
  check_rule ctx env i r = check_rule ctx env' i r.
Proof. intros Hr He Hc. destruct r as [name rule]. unfold check_rule. simpl in *. by rewrite Hr, He, Hc. Qed.

(** Relaxing relaxes nothing.  When every factor is at least 1, which is
    where an upstream in good health takes them, an evaluation is the one
    without adaptive tuning: a request costs one unit already, and cannot cost
    less. *)
Theorem relaxing_inert `{EngineLimiter} ctx env now c rules cp rp sp lp gp :
  (∀ name, pos_double (factor_for now name c) = true ∧ nle one (factor_for now name c) = true) →
  let '(e, after) := evaluate ctx cp rp sp lp gp (adaptive_env now c env) rules in
  check_engine ctx cp rp sp lp gp env rules = (outcome e, after).
Proof.
  intros Hf. unfold check_engine. rewrite !evaluate_verdicts.
  assert (∀ i r, check_rule ctx (adaptive_env now c env) i r =
                 check_rule ctx (Env (λ _, one) (readings env) (epoch env)) i r) as Heq.
  { intros i r. apply check_rule_same_cost; [done|done|]. simpl. destruct (Hf r.1).
    rewrite !scaled_cost_relaxed by done || by vm_compute. done. }
  assert (∀ names, verdicts ctx (adaptive_env now c env) rules names =
                   verdicts ctx (Env (λ _, one) (readings env) (epoch env)) rules names) as Hv.
  { intros names. unfold verdicts. apply list_bind_ext; [|done]. intros n. unfold verdicts_of. f_equal.
    apply imap_ext. intros i r _. simpl. by rewrite Heq. }
  assert (charged ctx (adaptive_env now c env) rules (chain cp rp sp lp gp) =
          charged ctx (Env (λ _, one) (readings env) (epoch env)) rules (chain cp rp sp lp gp)) as Hc.
  { apply imap_ext. intros i r _. simpl. by rewrite Heq. }
  by rewrite Hv, Hc.
Qed.

(** * Edge cases *)

Definition tenth (n : Z) : num := dec_to_num false n (-1).

(** The defaults of the configuration. *)
Definition default_config : AdaptiveRateLimit :=
  Adaptive true 60 (tenth 1) (num_of_Z 2) (dec_to_num false 5 (-2)) 500 [RetryAfter].

(** A factor between 2/3 and 1 does not tighten either. *)
Example cost_thresholds :
  scaled_cost <$> [num_of_Z 2; one; tenth 7; tenth 6; tenth 4; tenth 1] = [1; 1; 1; 2; 3; 10].
Proof. vm_compute. reflexivity. Qed.

(** Bounds that pass the validation without containing 1: the factor starts
    above the maximum, and a stressed update leaves it there. *)
Definition half_config : AdaptiveRateLimit :=
  Adaptive true 60 (tenth 1) (tenth 5) (dec_to_num false 5 (-2)) 500 [].

Definition sample_exp (x : num) : num := if num_truthy x then tenth 5 else one.

Definition failing : exchange := Exchange 503 0 None.

Example factor_above_max :
  validated half_config ∧
  nlt (max_factor half_config) (factor 0 (new_state half_config 0)) = true ∧
  nlt (max_factor half_config) (factor 1 (record sample_exp 1000000000 failing (new_state half_config 0)).1) = true.
Proof. by vm_compute. Qed.

(** An update at the time of the state's stamp: [exp 0 = 1] gives the new
    observation no weight, so the averages stay at 0, a failure counts as
    health, and the factor rises. *)
Example first_update_ignored :
  let s := (record sample_exp 7 failing (new_state default_config 7)).1 in
  error_ewma s = f64_zero ∧ latency_ewma s = f64_zero ∧ nlt one (factor_bits s) = true.
Proof. by vm_compute. Qed.

(** A second, shorter Retry-After cuts the first one short. *)
Example later_signal_shortens :
  let s0 := (record sample_exp 100 (Exchange 503 0 (Some 1000)) (new_state default_config 0)).1 in
  let s1 := (record sample_exp 200 (Exchange 503 0 (Some 10)) s0).1 in
  retry_after_until s0 = 1100 ∧ retry_after_until s1 = 210 ∧ backing_off 300 s1 = false.
Proof. by vm_compute. Qed.

(** * Concrete runs *)

Definition default_policies : list (string * option AdaptiveRateLimit) :=
  [("p", Some default_config); ("q", None)].

Lemma default_ok :
  Forall (λ p, ∀ cfg, p.2 = Some cfg → validated cfg ∧ admits_one cfg) default_policies.
Proof.
  apply list.Forall_cons; split.
  - intros cfg [= <-]. by vm_compute.
  - apply list.Forall_singleton. done.
Qed.

(** A storm of failures, one a minute, then recovery. *)
Definition storm (n m : nat) : history :=
  ((λ k, (60000000000 * Z.of_nat (S k), "p", failing)) <$> seq 0 n) ++
  ((λ k, (60000000000 * Z.of_nat (S (n + k)), "p", Exchange 200 1000000 None)) <$> seq 0 m).

Definition stormy : AdaptiveController :=
  run_history sample_exp (storm 3 2) (compile_adaptive 0 default_policies).

Example stormy_tuned : bool_decide (is_Some (stormy !! "p")) = true.
Proof. by vm_compute. Qed.

Lemma factor_bounded_witness :
  match stormy !! "p" with
  | Some s => in_bounds (config s) (factor_for 0 "p" stormy)
  | None => factor_for 0 "p" stormy = one
  end.
Proof. exact (factor_bounded sample_exp 0 default_policies (storm 3 2) 0 "p" default_ok). Defined.

(** Forty-five stressed updates bring the factor from 1 to its minimum. *)
Example storm_reaches_floor :
  factor_for 0 "p" (run_history sample_exp (storm 45 0) (compile_adaptive 0 default_policies)) = tenth 1 ∧
  nlt (tenth 1) (factor_for 0 "p" (run_history sample_exp (storm 44 0) (compile_adaptive 0 default_policies))) = true.
Proof. by vm_compute. Qed.

Lemma update_direction_witness :
  nle (factor_bits (record sample_exp 60000000000 failing (new_state default_config 0)).1) one = true.
Proof.
  refine (update_direction sample_exp 60000000000 failing (new_state default_config 0) _ eq_refl eq_refl).
  by vm_compute.
Defined.

Lemma retry_after_obeyed_witness :
  factor_for 900 "p" (run_history sample_exp [(500, "p", failing)]
    (record_outcome sample_exp 100 "p" (Exchange 503 0 (Some 1000)) (compile_adaptive 0 default_policies)).1)
  = tenth 1.
Proof.
  refine (retry_after_obeyed sample_exp 100 "p" (Exchange 503 0 (Some 1000)) 1000
    (compile_adaptive 0 default_policies) (new_state default_config 0) [(500, "p", failing)] 900
    _ _ _ _ _ _ _ _ _); try reflexivity; try lia; try (by vm_compute).
  by apply list.Forall_singleton.
Defined.

Lemma relaxing_inert_witness :
  (sample_evaluate second sample_engine).2 =
  (evaluate sample_context [] ["team"; "watch"] ["watch"] [] ["team"]
     (adaptive_env 0 (compile_adaptive 0 default_policies) (sample_env second)) sample_engine).2.
Proof.
  pose proof (relaxing_inert sample_context (sample_env second) 0 (compile_adaptive 0 default_policies)
    sample_engine [] ["team"; "watch"] ["watch"] [] ["team"]) as Hr.
  unfold sample_evaluate, check_engine in *.
  destruct (evaluate _ _ _ _ _ _ (adaptive_env _ _ _) _) as [e after].
  change (Env (λ _, one) (readings (sample_env second)) (epoch (sample_env second)))
    with (sample_env second) in Hr.
  destruct (evaluate _ _ _ _ _ _ (sample_env second) _) as [e' after'].
  enough (∀ name, pos_double (factor_for 0 name (compile_adaptive 0 default_policies)) = true ∧
                  nle one (factor_for 0 name (compile_adaptive 0 default_policies)) = true) as Hf.
  { specialize (Hr Hf). by injection Hr. }
  intros name. unfold factor_for. change (compile_adaptive 0 default_policies)
    with (<["p" := new_state default_config 0]> (∅ : AdaptiveController)).
  destruct (decide (name = "p")) as [->|Hne]; [by vm_compute|].
  rewrite lookup_insert_ne, lookup_empty by done. by vm_compute.
Defined.
