(* ===== verification/Theme.v ===== *)
(** The templates of the documentation theme
    (src/docs-site/.vitepress/theme): the home page's sections as functions
    from the page's front matter to trees of elements.

    A template's [{{ }}] makes a text node, which the browser shows as it is; a
    [v-html] makes the children of an element from markup.  White space around
    text is left out.  [withBase] is VitePress's function; the optional fields
    of the front matter are options, and, as in [v-if], an empty string counts
    as absent. *)

From S2P Require Import Prelude.
From S2P Require Import Home.
From stdpp Require Import strings.

(** * Trees *)

Inductive vnode : Type :=
  | El (tag : string) (attributes : list (string * string)) (kids : list vnode)
  | Text (s : string)
  | Raw (markup : string).

(** [v-if] on a string, with its value. *)
Definition given (o : option string) : option string :=
  s ← o; if String.eqb s "" then None else Some s.

Definition when {A} (o : option A) (f : A → vnode) : list vnode :=
  match o with
  | Some a => [f a]
  | None => []
  end.

(** [:class] with a static [class]: the two are joined. *)
Definition joined (c : string) (o : option string) : string :=
  match given o with
  | Some d => c +:+ " " +:+ d
  | None => c
  end.

(** Single quotes stand for double ones in the literals of markup. *)
Fixpoint dq (s : string) : string :=
  match s with
  | EmptyString => EmptyString
  | String c s =>
      String (if Ascii.eqb c (Ascii.ascii_of_N 39) then Ascii.ascii_of_N 34 else c) (dq s)
  end.

(** * Illustrations (HomeBandVisual.vue) *)

Definition scenes : list (string * string) := [
  ("proxying", dq "
    <path class='bv-line' d='M44 78V44c0-14 11-24 28-24h16c17 0 28 10 28 24v34'/>
    <path class='bv-dash bv-teal' d='M6 62h208'/>
    <g class='bv-flow'><circle class='bv-dot' cx='14' cy='62' r='4'/></g>");
  ("reqresp", dq "
    <path class='bv-dash' d='M14 26h186'/>
    <path class='bv-line' d='M198 20l12 6-12 6'/>
    <path class='bv-dash bv-teal bv-march-r' d='M14 58h186'/>
    <path class='bv-line' d='M22 52l-12 6 12 6'/>
    <g class='bv-slide'><circle class='bv-dot' cx='76' cy='58' r='7'/></g>");
  ("translation", dq "
    <circle class='bv-line' cx='34' cy='42' r='15'/>
    <rect class='bv-line' x='94' y='27' width='30' height='30' rx='6'/>
    <path class='bv-line' d='M154 57l15-25 15 25z'/>
    <path class='bv-dash bv-teal' d='M52 42h36m44 0h18'/>");
  ("traffic", dq "
    <path class='bv-line' d='M58 64a52 52 0 0 1 104 0'/>
    <path class='bv-line' d='M50 64h14M156 64h14'/>
    <g class='bv-needle'>
      <path class='bv-teal bv-stroke2' d='M110 64l26-22'/>
      <circle class='bv-dot' cx='110' cy='64' r='4'/>
    </g>");
  ("security", dq "
    <path class='bv-line' d='M56 10 24 24v20c0 19 14 30 32 36 18-6 32-17 32-36V24L56 10Z'/>
    <circle class='bv-ringpulse' cx='56' cy='40' r='17'/>
    <circle class='bv-line' cx='128' cy='40' r='9'/>
    <path class='bv-dash bv-teal' d='M137 40h58'/>
    <path class='bv-teal' d='M180 40v12M191 40v8'/>");
  ("ai", dq "
    <path class='bv-teal' d='M110 24l5 13 13 5-13 5-5 13-5-13-13-5 13-5 5-13Z'/>
    <circle class='bv-dash' cx='110' cy='42' r='30'/>
    <g class='bv-orbit'>
      <circle class='bv-dot' cx='140' cy='42' r='4'/>
      <circle class='bv-dot bv-dim' cx='80' cy='42' r='3'/>
    </g>");
  ("extensibility", dq "
    <rect class='bv-line' x='16' y='28' width='46' height='28' rx='7'/>
    <path class='bv-line' d='M62 36h16M62 48h16'/>
    <g class='bv-plug'>
      <rect class='bv-teal' x='96' y='28' width='42' height='28' rx='7'/>
      <path class='bv-teal' d='M138 36h14M138 48h14'/>
    </g>
    <path class='bv-dash' d='M162 42h34'/>");
  ("observability", dq "
    <path class='bv-draw bv-teal' d='M8 46h30l10-24 14 44 12-28 8 8h24'/>
    <path class='bv-bar' d='M148 66V52'/>
    <path class='bv-bar' d='M164 66V36'/>
    <path class='bv-bar' d='M180 66V44'/>
    <path class='bv-bar' d='M196 66V28'/>");
  ("operations", dq "
    <g class='bv-spin'>
      <path class='bv-dash bv-teal' d='M136 42a28 28 0 1 1-8-20'/>
      <path class='bv-teal' d='M132 12v14h-14'/>
    </g>
    <circle class='bv-dot' cx='110' cy='42' r='5'/>
    <path class='bv-dash' d='M156 42h52M110 78H52'/>");
  ("fleet", dq "
    <circle class='bv-dot' cx='110' cy='42' r='6'/>
    <circle class='bv-ringpulse' cx='110' cy='42' r='18'/>
    <path class='bv-dash' d='M34 16 110 42M34 68 110 42M186 42 110 42'/>
    <circle class='bv-dot bv-dim' cx='34' cy='16' r='4'/>
    <circle class='bv-dot bv-dim' cx='34' cy='68' r='4'/>
    <circle class='bv-dot bv-dim' cx='186' cy='42' r='4'/>")].

(** What an object literal inherits: reading one of these names gives a
    function or an object of [Object.prototype], which is truthy. *)
Definition inherited : list string :=
  ["constructor"; "hasOwnProperty"; "isPrototypeOf"; "propertyIsEnumerable"; "toLocaleString";
   "toString"; "valueOf"; "__defineGetter__"; "__defineSetter__"; "__lookupGetter__";
   "__lookupSetter__"; "__proto__"].

Section Templates.
Context (withBase : string → string) (native : string → string).

(** [scenes[variant]]; [native] is the text of an inherited value. *)
Definition scene (variant : string) : option string :=
  match List.find (λ s, String.eqb s.1 variant) scenes with
  | Some s => given (Some s.2)
  | None => if existsb (String.eqb variant) inherited then Some (native variant) else None
  end.

Definition HomeBandVisual (variant : option string) : list vnode :=
  when (v ← given variant; scene v) (λ markup,
    El "svg" [("class", "band-visual"); ("viewBox", "0 0 220 84"); ("fill", "none");
              ("aria-hidden", "true")] [Raw markup]).

(** * Capability bands (HomeBands.vue) *)

Record BandItem : Type := Item {
  item_name : string; desc : option string; item_link : option string; item_badge : option string;
}.

Record Domain : Type := MkDomain {
  title : string; link : option string; blurb : option string; icon : option string;
  visual : option string; badge : option string; items : list BandItem;
}.

Definition band_card (item : BandItem) : vnode :=
  El "a" (match given (item_link item) with
          | Some l => [("href", withBase l)]
          | None => []
          end ++ [("class", "band-card")])
    (El "span" [("class", "band-card-name")]
       (Text (item_name item) ::
        when (given (item_badge item)) (λ b,
          El "span" [("class", joined "vp-sb-badge" (Some b))]
            [Text (if String.eqb b "ent" then "enterprise" else b)]))
     :: when (given (desc item)) (λ d, El "span" [("class", "band-card-desc")] [Text d])).

Definition band_head (d : Domain) (l : string) : vnode :=
  El "a" [("href", withBase l); ("class", "home-band-head")]
    (when (given (icon d)) (λ i, El "span" [("class", "home-band-icon")] [Raw i]) ++
     [El "span" [("class", "home-band-title")] [Text (title d)]] ++
     when (given (badge d)) (λ b,
       El "span" [("class", joined "vp-sb-badge" (Some b))] [Text "enterprise"]) ++
     [El "span" [("class", "home-band-arrow"); ("aria-hidden", "true")] [Text "→"]]).

Definition home_band (d : Domain) : vnode :=
  El "section" [("class", "home-band")]
    [El "div" [("class", "home-band-top")]
       (El "div" [("class", "home-band-meta")]
          (when (given (link d)) (band_head d) ++
           when (given (blurb d)) (λ b, El "p" [("class", "home-band-blurb")] [Text b]))
        :: match given (visual d) with
           | Some v => HomeBandVisual (Some v)
           | None => []
           end);
     El "div" [("class", "home-band-grid")] (band_card <$> items d)].

(** The page has one [domains] list or none: [frontmatter.value.domains ?? []]. *)
Definition HomeBands (domains : option (list Domain)) : vnode :=
  El "div" [("class", "home-bands")] (home_band <$> default [] domains).

(** * Edition cards (HomeEditions.vue) *)

Record EditionCard : Type := Edition {
  edition_title : string; tagline : string; points : list string;
  edition_link : string; linkText : string; highlight : bool;
}.

Definition edition_card (c : EditionCard) : vnode :=
  El "a" [("href", withBase (edition_link c));
          ("class", joined "edition-card" (if highlight c then Some "highlight" else None))]
    [El "h3" [] [Text (edition_title c)];
     El "p" [] [Text (tagline c)];
     El "ul" [] ((λ point, El "li" [] [Text point]) <$> points c);
     El "span" [("class", "edition-cta")] [Text (linkText c +:+ " →")]].

Definition HomeEditions (editions : option (list EditionCard)) : vnode :=
  El "div" [("class", "home-editions")] (edition_card <$> default [] editions).

(** * Feature flags (HomeFlags.vue) *)

Record FlagItem : Type := Flag {
  flag : string; flag_desc : string; flag_link : option string; status : option string;
}.

Record FlagGroup : Type := Flags { group : string; flags : list FlagItem }.

Definition flag_chip (item : FlagItem) : vnode :=
  El "a" (match given (flag_link item) with
          | Some l => [("href", withBase l)]
          | None => []
          end ++ [("class", "flag-chip status-" +:+ default "wired" (status item))])
    [El "span" [("class", "flag-chip-head")]
       [El "span" [("class", "flag-dot"); ("aria-hidden", "true")] [];
        El "code" [] [Text (flag item)]];
     El "span" [("class", "flag-desc")] [Text (flag_desc item)]].

Definition flag_group (g : FlagGroup) : vnode :=
  El "section" [("class", "home-flags-group")]
    [El "h3" [] [Text (group g)];
     El "div" [("class", "home-flags-grid")] (flag_chip <$> flags g)].

Definition legend_dot (kind text : string) : vnode :=
  El "span" [] [El "span" [("class", "flag-dot " +:+ kind); ("aria-hidden", "true")] []; Text text].

Definition flag_legend : vnode :=
  El "p" [("class", "flag-legend")]
    [legend_dot "wired" "wired end to end"; legend_dot "partial" "partially wired";
     legend_dot "stubbed" "runtime stubbed"; Text "— see the";
     El "a" [("href", withBase "/guide/feature-reference")] [Text "feature reference"];
     Text "for dependency chains, build recipes, and maturity detail."].

Definition HomeFlags (flagGroups : option (list FlagGroup)) : vnode :=
  El "div" [("class", "home-flags")] ((flag_group <$> default [] flagGroups) ++ [flag_legend]).

(** * Personas (HomePersonas.vue) *)

Record Persona : Type := MkPersona {
  persona_title : string; persona_icon : option string; persona_blurb : option string;
  persona_links : list (string * string);
}.

Definition persona_link (l : string * string) : vnode :=
  El "a" [("href", withBase l.2); ("class", "persona-link")] [Text (l.1 +:+ " →")].

Definition persona_links_div (ls : list (string * string)) : list vnode :=
  match ls with
  | [] => []
  | _ => [El "div" [("class", "persona-links")] (persona_link <$> ls)]
  end.

Definition persona_card (p : Persona) : vnode :=
  El "div" [("class", "persona-card")]
    (when (given (persona_icon p)) (λ i, El "span" [("class", "persona-icon")] [Raw i]) ++
     [El "h3" [("class", "persona-title")] [Text (persona_title p)]] ++
     when (given (persona_blurb p)) (λ b, El "p" [("class", "persona-blurb")] [Text b]) ++
     persona_links_div (persona_links p)).

Definition HomePersonas (personas : option (list Persona)) : vnode :=
  El "div" [("class", "home-personas")] (persona_card <$> default [] personas).

(** * The accordion (HomeFAQ.vue), given the open item of Home.v *)

Definition faq_item (openIndex : Z) (i : nat) (item : string * string) : vnode :=
  let o := is_open openIndex (Z.of_nat i) in
  El "div" [("class", joined "faq-item" (if o then Some "faq-item-open" else None))]
    [El "button" [("type", "button"); ("class", "faq-q"); ("aria-expanded", if o then "true" else "false")]
       [El "span" [("class", "faq-q-text")] [Text item.1];
        El "span" [("class", "faq-chevron"); ("aria-hidden", "true")] []];
     El "div" [("class", joined "faq-a" (if o then Some "faq-a-open" else None))]
       [El "p" [] [Text item.2]]].

Definition HomeFAQ (openIndex : Z) (faq : option (list (string * string))) : vnode :=
  El "div" [("class", "home-faq")] (imap (faq_item openIndex) (default [] faq)).

(** * The hero (HomeHeroImage.vue) and the layout's slots (HomeLayout.vue) *)

Definition HomeHeroImage : vnode :=
  El "div" [("class", "hero-mark")]
    [El "span" [("class", "hero-glow"); ("aria-hidden", "true")] [];
     El "span" [("class", "hero-ring r1"); ("aria-hidden", "true")] [];
     El "span" [("class", "hero-ring r2"); ("aria-hidden", "true")] [];
     El "img" [("class", "hero-mark-img"); ("src", withBase "/mark-color.svg");
               ("alt", "Dwara torana gateway mark")] []].

Definition layout_slots : list (string * vnode) :=
  [("home-hero-image", HomeHeroImage);
   ("home-hero-actions-after",
     El "div" [("class", "home-badges")]
       ((λ t, El "span" [("class", "home-badge")] [Text t]) <$>
          ["Single Rust binary"; "Zero-buffer streaming"; "Declarative YAML"]))].

End Templates.

(** * The theme (index.ts)

    [app.component(name, component)] replaces what the name stood for;
    components are named here by the file they come from. *)
Definition enhanceApp (app : gmap string string) : gmap string string :=
  foldl (λ app c, <[c.1 := c.2]> app) app
    [("Mermaid", "./Mermaid.vue"); ("HomeBands", "./HomeBands.vue");
     ("HomeEditions", "./HomeEditions.vue"); ("HomeFlags", "./HomeFlags.vue");
     ("HomePersonas", "./HomePersonas.vue"); ("HomeFAQ", "./HomeFAQ.vue")].

(** * What reaches the page as markup *)

Fixpoint raws (v : vnode) : list string :=
  match v with
  | El _ _ kids => flat_map raws kids
  | Text _ => []
  | Raw s => [s]
  end.

(** The values of the attribute [name] of the elements [tag]. *)
Fixpoint attribute_of (tag name : string) (v : vnode) : list string :=
  match v with
  | El t attributes kids =>
      (if String.eqb t tag then (List.filter (λ a, String.eqb a.1 name) attributes).*2 else [])
      ++ flat_map (attribute_of tag name) kids
  | _ => []
  end.

Lemma raws_fmap_none {A} (f : A → vnode) l : (∀ x, raws (f x) = []) → flat_map raws (f <$> l) = [].
Proof. intros Hf. induction l as [|x l IH]; [done|]. csimpl. by rewrite Hf, IH. Qed.

Lemma raws_fmap {A} (f : A → vnode) (g : A → list string) l :
  (∀ x, raws (f x) = g x) → flat_map raws (f <$> l) = l ≫= g.
Proof. intros Hf. induction l as [|x l IH]; [done|]. csimpl. by rewrite Hf, IH. Qed.

Lemma raws_imap_none {A} (f : nat → A → vnode) l :
  (∀ i x, raws (f i x) = []) → flat_map raws (imap f l) = [].
Proof.
  revert f. induction l as [|x l IH]; intros f Hf; [done|]. rewrite imap_cons. simpl.
  rewrite Hf, IH; [done|]. intros i. apply Hf.
Qed.

Lemma raws_when {A} (o : option A) (f : A → vnode) (g : A → list string) :
  (∀ x, raws (f x) = g x) → flat_map raws (when o f) = match o with Some x => g x | None => [] end.
Proof. intros Hf. destruct o as [x|]; [|done]. simpl. by rewrite Hf, app_nil_r. Qed.

Lemma raws_when_none {A} (o : option A) (f : A → vnode) :
  (∀ x, raws (f x) = []) → flat_map raws (when o f) = [].
Proof. intros Hf. rewrite (raws_when o f (λ _, [])) by done. by destruct o. Qed.

Section Markup.
Context (withBase : string → string) (native : string → string).

Definition trusted (o : option string) : list string := option_list (given o).

(** The markup of a band: its icon, when its heading is shown, and its scene. *)
Definition band_markup (d : Domain) : list string :=
  match given (link d) with
  | Some _ => trusted (icon d)
  | None => []
  end ++ option_list (v ← given (visual d); scene native v).

Lemma band_card_raws item : raws (band_card withBase item) = [].
Proof.
  unfold band_card. simpl. rewrite !raws_when_none by done. by rewrite ?app_nil_r.
Qed.

Lemma given_given (o : option string) s : given o = Some s → given (Some s) = Some s.
Proof. unfold given. destruct o as [x|]; [|done]. simpl. by destruct (String.eqb x "") eqn:E; intros [= <-]; rewrite E. Qed.

Lemma home_band_raws d : raws (home_band withBase native d) = band_markup d.
Proof.
  unfold home_band, band_markup. simpl. rewrite (raws_fmap_none (band_card withBase)) by apply band_card_raws.
  rewrite flat_map_app, (raws_when_none (given (blurb d))) by done. rewrite !app_nil_r.
  f_equal.
  - destruct (given (link d)) as [l|]; [|done]. simpl. rewrite app_nil_r. repeat (rewrite flat_map_app; simpl).
    rewrite (raws_when_none (given (badge d))) by done.
    rewrite (raws_when (given (icon d)) _ (λ i, [i])) by done. simpl. rewrite !app_nil_r.
    unfold trusted. by destruct (given (icon d)).
  - destruct (given (visual d)) as [v|] eqn:Hv; [|done]. unfold HomeBandVisual.
    rewrite (given_given _ _ Hv). simpl. by destruct (scene native v).
Qed.

Lemma persona_links_raws ls : flat_map raws (persona_links_div withBase ls) = [].
Proof.
  unfold persona_links_div. destruct ls as [|l ls]; [done|]. csimpl.
  by rewrite (raws_fmap_none (persona_link withBase)).
Qed.

Lemma persona_raws p : raws (persona_card withBase p) = trusted (persona_icon p).
Proof.
  unfold persona_card. simpl. repeat (rewrite flat_map_app; simpl).
  rewrite (raws_when (given (persona_icon p)) _ (λ i, [i])) by done.
  rewrite (raws_when_none (given (persona_blurb p))) by done.
  rewrite persona_links_raws.
  simpl. rewrite !app_nil_r. unfold trusted. by destruct (given (persona_icon p)).
Qed.

(** What the home page's templates insert as markup.  Only the icons of
    the domains and of the personas, and the illustrations, become markup, in
    the order of the front matter; every other string of it, whatever it
    contains, becomes text or an attribute, in all six components. *)
Theorem markup_is_icons domains personas editions flagGroups faq openIndex :
  raws (HomeBands withBase native domains) = default [] domains ≫= band_markup ∧
  raws (HomePersonas withBase personas) = default [] personas ≫= (λ p, trusted (persona_icon p)) ∧
  raws (HomeEditions withBase editions) = [] ∧
  raws (HomeFlags withBase flagGroups) = [] ∧
  raws (HomeFAQ openIndex faq) = [] ∧
  raws (HomeHeroImage withBase) = [].
Proof.
  split; [apply raws_fmap, home_band_raws|].
  split; [apply raws_fmap, persona_raws|].
  split; [|split; [|split; [|done]]].
  - apply raws_fmap_none. intros c. csimpl. by rewrite (raws_fmap_none (λ point, El "li" [] [Text point])).
  - unfold HomeFlags. simpl. rewrite flat_map_app, (raws_fmap_none (flag_group withBase)); [done|].
    intros g. csimpl. by rewrite (raws_fmap_none (flag_chip withBase)).
  - apply raws_imap_none. intros i x. done.
Qed.
End Markup.

(** * Well-formed markup *)

(** Where a scan of markup is: in text, after [<], in the name of a tag, among
    its attributes, in a quoted value, after a [/], in a closing tag. *)
Inductive scan_state : Type :=
  | InText
  | Opened
  | Name (name : string)
  | Attributes (name : string)
  | Quoted (q : Ascii.ascii) (name : string)
  | Slash (name : string)
  | Closing (name : string).

Definition snoc (s : string) (c : Ascii.ascii) : string := s +:+ String c EmptyString.

Definition char_is (n : N) (c : Ascii.ascii) : bool := N.eqb (Ascii.N_of_ascii c) n.

Definition is_quote (c : Ascii.ascii) : bool := char_is 34 c || char_is 39 c.

(** The open elements after the scan, or nothing if a tag is malformed or
    closes an element that is not the last open one. *)
Fixpoint scan_markup (s : string) (m : scan_state) (stack : list string) : option (list string) :=
  match s with
  | EmptyString => match m with InText => Some stack | _ => None end
  | String c s =>
      match m with
      | InText => if char_is 60 c then scan_markup s Opened stack else scan_markup s InText stack
      | Opened =>
          if char_is 47 c then scan_markup s (Closing "") stack
          else if char_is 62 c || char_is 32 c then None else scan_markup s (Name (String c "")) stack
      | Name n =>
          if char_is 32 c || char_is 10 c then scan_markup s (Attributes n) stack
          else if char_is 62 c then scan_markup s InText (n :: stack)
          else if char_is 47 c then scan_markup s (Slash n) stack
          else scan_markup s (Name (snoc n c)) stack
      | Attributes n =>
          if is_quote c then scan_markup s (Quoted c n) stack
          else if char_is 62 c then scan_markup s InText (n :: stack)
          else if char_is 47 c then scan_markup s (Slash n) stack
          else if char_is 60 c then None else scan_markup s (Attributes n) stack
      | Quoted q n => if Ascii.eqb c q then scan_markup s (Attributes n) stack else scan_markup s (Quoted q n) stack
      | Slash n => if char_is 62 c then scan_markup s InText stack else None
      | Closing n =>
          if char_is 62 c then
            match stack with
            | top :: stack => if String.eqb top n then scan_markup s InText stack else None
            | [] => None
            end
          else scan_markup s (Closing (snoc n c)) stack
      end
  end.

Definition well_formed (s : string) : bool :=
  match scan_markup s InText [] with
  | Some [] => true
  | _ => false
  end.
