(* ===== verification/ThemePage.v ===== *)
(** The home page of the documentation (src/docs-site/index.md): its front
    matter as data, and the page that the templates of Theme.v make of it. *)

From S2P Require Import Prelude.
From S2P Require Import DocsSite.
From S2P Require Import Home.
From S2P Require Import Theme.
From stdpp Require Import strings.

(** * Front matter *)

Definition domain_proxying : Domain :=
  MkDomain "Proxying and transport" (Some "/guide/proxying-transport")
    (Some "The wire level: how a connection is accepted, which protocols are spoken, and how traffic reaches the upstream.")
    (Some "<svg xmlns='http://www.w3.org/2000/svg' viewBox='0 0 24 24' fill='none' stroke='currentColor' stroke-width='1.8' stroke-linecap='round' stroke-linejoin='round'><path d='M13 2 4.5 13.5H11L10 22l8.5-11.5H12L13 2Z'/></svg>")
    (Some "proxying") None [
    Item "Streaming proxying" (Some "HTTP/1.1 + HTTP/2, no buffering, SSE-safe") (Some "/guide/proxying-transport") None;
    Item "TLS termination" (Some "Multi-SNI certificates or SNI passthrough") (Some "/guide/deployment") None;
    Item "Routing and matching" (Some "Exact, regex, prefix -- fixed precedence") (Some "/guide/routing") None;
    Item "Rewrites and redirects" (Some "Strip/replace/regex, direct responses") (Some "/guide/routing") None;
    Item "Load balancing and splitting" (Some "Canary, blue-green, sticky sessions") (Some "/guide/traffic-splitting") None;
    Item "Dynamic discovery" (Some "DNS A/SRV pools, TTL refresh") (Some "/guide/dynamic-discovery") None;
    Item "gRPC proxying" (Some "Native gRPC over HTTP/2, trailers") (Some "/guide/grpc") None;
    Item "WebSockets" (Some "Upgrade handling, managed tunnels") (Some "/guide/websockets") None;
    Item "HTTP/3 ingress" (Some "QUIC listeners with Alt-Svc") (Some "/guide/http3") None;
    Item "H3/QUIC upstream" (Some "Gateway-to-upstream over QUIC") (Some "/guide/h3-quic-upstream") None;
    Item "L4 TCP/UDP proxying" (Some "Raw listeners with SNI routing") (Some "/guide/l4-proxying") (Some "partial");
    Item "Post-quantum TLS" (Some "X25519 + ML-KEM hybrid key exchange") (Some "/guide/post-quantum-tls") None].

Definition domain_reqresp : Domain :=
  MkDomain "Request and response control" (Some "/guide/request-response-control")
    (Some "Application-level shaping once a route has matched -- each of these is a small optional block on the route itself.")
    (Some "<svg xmlns='http://www.w3.org/2000/svg' viewBox='0 0 24 24' fill='none' stroke='currentColor' stroke-width='1.8' stroke-linecap='round' stroke-linejoin='round'><path d='M4 7h16M4 15h16'/><circle cx='14' cy='7' r='2.2'/><circle cx='9' cy='15' r='2.2'/></svg>")
    (Some "reqresp") None [
    Item "CORS" (Some "Cross-origin policy with preflights") (Some "/guide/cors") None;
    Item "Compression" (Some "Response compression at the edge") (Some "/guide/compression") None;
    Item "Request limits and validation" (Some "Size caps + JSON Schema bodies") (Some "/guide/request-limits") None;
    Item "Transforms" (Some "Header, query, and JSON-body rewrites") (Some "/guide/transforms") None;
    Item "Security headers" (Some "HSTS, nosniff, CSP") (Some "/guide/security-headers") None;
    Item "Response field masking" (Some "Per-consumer redaction, fail-closed") (Some "/guide/masking") None;
    Item "Response caching" (Some "TTL, SWR, coalescing, tag purge") (Some "/guide/caching") None;
    Item "API versioning" (Some "Path/header/Accept + Deprecation/Sunset") (Some "/guide/api-versioning") None].

Definition domain_translation : Domain :=
  MkDomain "Protocol translation and API management" (Some "/guide/protocol-translation")
    (Some "Speak the client's protocol on the way in and compose many backends on the way out.")
    (Some "<svg xmlns='http://www.w3.org/2000/svg' viewBox='0 0 24 24' fill='none' stroke='currentColor' stroke-width='1.8' stroke-linecap='round' stroke-linejoin='round'><path d='M4 5h8M8 3v2c0 4-2 7-4.5 8.5M6 8c1.5 3 4 5 7 6'/><path d='m13 21 4-9 4 9M14.5 18h5'/></svg>")
    (Some "translation") None [
    Item "gRPC-Web and transcoding" (Some "gRPC-Web framing, JSON transcoding") (Some "/guide/grpc-web") None;
    Item "Protocol translation" (Some "REST, gRPC, GraphQL, SOAP/XML") (Some "/guide/protocol-translation") None;
    Item "GraphQL awareness" (Some "Depth/complexity limits, persisted queries") (Some "/guide/graphql") (Some "partial");
    Item "API aggregation" (Some "Multi-upstream JSONPath composition") (Some "/guide/api-aggregation") None;
    Item "OpenAPI import and mocks" (Some "Scaffold config; mock routes") (Some "/guide/openapi-import") None;
    Item "OpenAPI response validation" (Some "Validate upstream responses, dry-run") (Some "/guide/openapi-response-validation") None;
    Item "API lifecycle and dev portal" (Some "Catalog, env profiles, journeys") (Some "/guide/api-lifecycle") (Some "partial")].

Definition domain_traffic : Domain :=
  MkDomain "Traffic policy and resilience" (Some "/guide/traffic-policy")
    (Some "Bounded failure and predictable load under stress -- retries, breaking, shedding, and budgets.")
    (Some "<svg xmlns='http://www.w3.org/2000/svg' viewBox='0 0 24 24' fill='none' stroke='currentColor' stroke-width='1.8' stroke-linecap='round' stroke-linejoin='round'><path d='M5.5 18.5a6.5 6.5 0 1 1 13 0'/><path d='m12 18.5 3.6-5'/><circle cx='12' cy='18.5' r='1.4'/></svg>")
    (Some "traffic") None [
    Item "Timeouts" (Some "Dial, headers, and body-idle bounds") (Some "/guide/timeouts") None;
    Item "Retries" (Some "Budgeted attempts, jitter backoff") (Some "/guide/retries") None;
    Item "Circuit breaking" (Some "Fail fast, half-open probes") (Some "/guide/circuit-breaking") None;
    Item "Health checks" (Some "Passive + active checks, ejection") (Some "/guide/health-checks") None;
    Item "Rate limiting" (Some "GCRA and stacked windows, five scopes") (Some "/guide/rate-limiting") None;
    Item "Request hedging" (Some "Speculative duplicates, race-and-cancel") (Some "/guide/request-hedging") None;
    Item "Admission queues" (Some "Bounded queues, per-priority") (Some "/guide/admission-queue") None;
    Item "Consumer quotas" (Some "Daily/monthly request budgets") (Some "/guide/quotas") None;
    Item "WAF-lite filtering" (Some "SQLi/XSS/traversal heuristics, dry-run") (Some "/guide/waf-lite") None;
    Item "Maintenance and dry-run" (Some "Per-route 503; policy monitor mode") (Some "/guide/maintenance") None;
    Item "Mirroring" (Some "Shadow traffic to a test upstream") (Some "/guide/mirroring") None;
    Item "Fault injection" (Some "Aborts and delays for testing") (Some "/guide/fault-injection") None].

Definition domain_security : Domain :=
  MkDomain "Security and identity" (Some "/guide/security")
    (Some "How callers prove who they are, what they are allowed to do, and how secrets stay out of everything.")
    (Some "<svg xmlns='http://www.w3.org/2000/svg' viewBox='0 0 24 24' fill='none' stroke='currentColor' stroke-width='1.8' stroke-linecap='round' stroke-linejoin='round'><path d='M12 3 5 5.8v5.4c0 4.4 2.9 7.4 7 8.8 4.1-1.4 7-4.4 7-8.8V5.8L12 3Z'/><path d='m9 12 2.1 2.1 4-4.2'/></svg>")
    (Some "security") None [
    Item "Authentication methods" (Some "API keys, Basic, JWT, mTLS, HMAC") (Some "/guide/authentication-methods") None;
    Item "HMAC request signing" (Some "HMAC-SHA256, replay protection") (Some "/guide/hmac-signing") None;
    Item "OAuth2" (Some "Client-credentials token fetch, caching") (Some "/guide/oauth2") None;
    Item "mTLS" (Some "Client certs, upstream mutual TLS") (Some "/guide/mtls") None;
    Item "OpenID Connect" (Some "Introspection, PKCE, token exchange") (Some "/guide/oidc") None;
    Item "Authorization rules" (Some "ACLs, JWT claims, IP, GeoIP; monitor mode") (Some "/guide/authorization") None;
    Item "Cedar authorization" (Some "In-process Cedar policy engine") (Some "/guide/cedar-authz") None;
    Item "OPA authorization" (Some "OPA callout, Rego policies") (Some "/guide/opa-authz") None;
    Item "CEL expressions" (Some "Sandboxed policy expressions") (Some "/guide/cel-expressions") None;
    Item "Secrets" (Some "Reference resolution, redaction") (Some "/guide/secrets") None;
    Item "ACME certificates" (Some "Let's Encrypt over TLS-ALPN-01") (Some "/guide/acme") (Some "experimental");
    Item "FIPS 140-3 mode" (Some "aws-lc-rs provider, restricted ciphers") (Some "/guide/fips-mode") (Some "ent")].

Definition domain_ai : Domain :=
  MkDomain "AI gateway" (Some "/guide/ai-gateway")
    (Some "One OpenAI-shaped endpoint in front of every model provider, with budgets, guardrails, and governance.")
    (Some "<svg xmlns='http://www.w3.org/2000/svg' viewBox='0 0 24 24' fill='none' stroke='currentColor' stroke-width='1.8' stroke-linecap='round' stroke-linejoin='round'><path d='M12 3l1.9 4.6L18.5 9.5l-4.6 1.9L12 16l-1.9-4.6L5.5 9.5l4.6-1.9L12 3Z'/><path d='m18.5 15.5.9 2.1 2.1.9-2.1.9-.9 2.1-.9-2.1-2.1-.9 2.1-.9.9-2.1Z'/></svg>")
    (Some "ai") None [
    Item "Provider adapters and aliases" (Some "OpenAI, Anthropic, Gemini, Azure, Bedrock") (Some "/guide/ai-gateway") None;
    Item "Routing policies" (Some "Cheap-first escalation, cost/latency") (Some "/guide/ai-routing-policies") None;
    Item "Token budgets" (Some "Token + cost budgets, billing exports") (Some "/guide/ai-token-budgets") None;
    Item "Prompt experimentation" (Some "Versioning, A/B splits, evals") (Some "/guide/ai-prompt-experimentation") None;
    Item "Prompt logging" (Some "PII redaction, sampling, retention") (Some "/guide/ai-prompt-logging") None;
    Item "Governance and agents" (Some "Model allowlists, agent principals") (Some "/guide/ai-governance") None;
    Item "Guardrails" (Some "Injection, PII, schema rules") (Some "/guide/ai-guardrails") None;
    Item "Semantic caching" (Some "Embedding-similarity prompt cache") (Some "/guide/ai-semantic-caching") None;
    Item "MCP gateway" (Some "HTTP services as MCP tools") (Some "/guide/ai-mcp-gateway") (Some "experimental");
    Item "A2A protocol" (Some "Agent Card discovery and routing") (Some "/guide/a2a-protocol") (Some "partial")].

Definition domain_extensibility : Domain :=
  MkDomain "Extensibility and plugins" (Some "/guide/extensibility-overview")
    (Some "Proxy-Wasm plugins, native Rust filters, and WASM nano-services -- unified under one dispatch chain.")
    (Some "<svg xmlns='http://www.w3.org/2000/svg' viewBox='0 0 24 24' fill='none' stroke='currentColor' stroke-width='1.8' stroke-linecap='round' stroke-linejoin='round'><path d='M9 3v5m6-5v5M6.5 8h11v4a5.5 5.5 0 0 1-11 0V8ZM12 17.5V21'/></svg>")
    (Some "extensibility") None [
    Item "Proxy-Wasm plugins" (Some "Kong/Envoy filters run unmodified") (Some "/guide/proxy-wasm-plugins") None;
    Item "Native plugin filters" (Some "Rust filters, same dispatch chain") (Some "/guide/native-plugins") None;
    Item "Extension traits" (Some "Swap whole subsystems via traits") (Some "/guide/extension-traits") None;
    Item "Nano-services" (Some "WASM route handlers, no upstream") (Some "/guide/nano-services") None;
    Item "Plugin lifecycle" (Some "Hot-swap, health, failure isolation") (Some "/guide/plugin-lifecycle") None;
    Item "Plugin SDK" (Some "dwara-cli scaffolding") (Some "/guide/plugin-sdk") None].

Definition domain_observability : Domain :=
  MkDomain "Observability and analytics" (Some "/guide/observability-analytics")
    (Some "Every request leaves a trace: logs, metrics, traces, and an embedded analytics store with rollups.")
    (Some "<svg xmlns='http://www.w3.org/2000/svg' viewBox='0 0 24 24' fill='none' stroke='currentColor' stroke-width='1.8' stroke-linecap='round' stroke-linejoin='round'><path d='M3 12h4l2-6 4 12 2-6h6'/></svg>")
    (Some "observability") None [
    Item "Structured logs" (Some "JSON logs with request IDs") (Some "/guide/observability") None;
    Item "Prometheus metrics" (Some "/metrics on every listener") (Some "/guide/observability") None;
    Item "OTLP export" (Some "Traces + metrics to any collector") (Some "/guide/otel-metrics-export") None;
    Item "SLOs and error budgets" (Some "SLOs from request outcomes") (Some "/guide/observability") None;
    Item "Embedded analytics" (Some "Rollups, retention, forecasts") (Some "/guide/analytics") None;
    Item "Analytics stream" (Some "NDJSON firehose to a sink") (Some "/guide/analytics-stream") None;
    Item "Alert and event webhooks" (Some "Breaker/endpoint/config events") (Some "/guide/webhooks") None;
    Item "Synthetic monitoring" (Some "Per-route probes, alerting") (Some "/guide/synthetic-monitoring") None;
    Item "Replay debugging" (Some "Record routing, replay offline") (Some "/guide/replay-debugging") None].

Definition domain_operations : Domain :=
  MkDomain "Operations and platform" (Some "/guide/deployment-operations")
    (Some "Run it, upgrade it without downtime, and automate it from the CLI, admin API, or Kubernetes.")
    (Some "<svg xmlns='http://www.w3.org/2000/svg' viewBox='0 0 24 24' fill='none' stroke='currentColor' stroke-width='1.8' stroke-linecap='round' stroke-linejoin='round'><path d='M21 12a9 9 0 1 1-2.64-6.36'/><path d='M21 3v5h-5'/></svg>")
    (Some "operations") None [
    Item "Hot config reload" (Some "File watch/SIGHUP, atomic swap") (Some "/guide/operations") None;
    Item "Zero-downtime upgrade" (Some "SO_REUSEPORT hand-off, drain") (Some "/guide/zero-downtime-upgrade") None;
    Item "Admin API" (Some "mTLS config + credential surface") (Some "/guide/admin-api") None;
    Item "Web console" (Some "Embedded read-only dashboard") (Some "/guide/web-console") None;
    Item "CLI" (Some "validate, fmt, lint, diff, loadgen") (Some "/guide/cli") None;
    Item "Terraform state" (Some "Export, plan, apply") (Some "/guide/terraform-state") None;
    Item "Config import" (Some "NGINX, Kong, Envoy, OpenAPI") (Some "/guide/config-import") None;
    Item "Kubernetes Gateway API" (Some "Gateway/HTTPRoute/Ingress controller") (Some "/guide/kubernetes-gateway-api") None;
    Item "Agent-operable admin" (Some "MCP tools for AI operators") (Some "/guide/agent-operable-admin") (Some "experimental")].

Definition domain_fleet : Domain :=
  MkDomain "Fleet scale" (Some "/guide/enterprise")
    (Some "Many gateways, one brain -- the enterprise edition.")
    (Some "<svg xmlns='http://www.w3.org/2000/svg' viewBox='0 0 24 24' fill='none' stroke='currentColor' stroke-width='1.8' stroke-linecap='round' stroke-linejoin='round'><circle cx='5' cy='12' r='2.5'/><circle cx='19' cy='5' r='2.5'/><circle cx='19' cy='19' r='2.5'/><path d='m7.3 11 9.4-5M7.3 13l9.4 5'/></svg>")
    (Some "fleet") (Some "ent") [
    Item "CP/DP split" (Some "Controller pushes config to edges") (Some "/guide/cp-dp-split") None;
    Item "Cluster sync" (Some "Redis convergence, split-brain guards") (Some "/guide/cluster-sync") None;
    Item "Distributed rate limiting" (Some "Shared GCRA buckets in Redis") (Some "/guide/redis-rate-limiter") None;
    Item "Distributed cache" (Some "Two-tier cache, fleet invalidation") (Some "/guide/distributed-cache") None;
    Item "Vault secrets" (Some "HashiCorp Vault source, fail-closed") (Some "/guide/vault-secrets") None;
    Item "KMS secrets" (Some "Cloud KMS source, fail-closed") (Some "/guide/kms-secrets") None;
    Item "Workspaces" (Some "Multi-tenant isolation") (Some "/guide/workspaces") None;
    Item "RBAC and audit log" (Some "Role-based access, audit trail") (Some "/guide/rbac") None;
    Item "Federated analytics" (Some "Per-edge analytics, rolled up") (Some "/guide/analytics") None;
    Item "Controller persistence" (Some "PostgreSQL controller state") (Some "/guide/ent-controller-persistence") None;
    Item "Service mesh" (Some "Sidecars, SPIFFE/SPIRE identity") (Some "/guide/service-mesh") (Some "experimental");
    Item "Licensing" (Some "Ed25519 license files, grace period") (Some "/guide/licensing") None].

Definition index_domains : list Domain :=
  [domain_proxying;
   domain_reqresp;
   domain_translation;
   domain_traffic;
   domain_security;
   domain_ai;
   domain_extensibility;
   domain_observability;
   domain_operations;
   domain_fleet].

Definition index_personas : list Persona := [
  MkPersona "Platform engineers"
    (Some "<svg xmlns='http://www.w3.org/2000/svg' viewBox='0 0 24 24' fill='none' stroke='currentColor' stroke-width='1.8' stroke-linecap='round' stroke-linejoin='round'><path d='M3 9 12 4l9 5-9 5-9-5Z'/><path d='M3 9v6l9 5 9-5V9'/><path d='M12 14v6'/></svg>")
    (Some "One declarative YAML for routing, policy, and identity. Validate before publish, hot-reload without restart, and diff configs like Terraform state.")
    [("Configuration", "/guide/configuration"); ("CLI", "/guide/cli"); ("Config import", "/guide/config-import")];
  MkPersona "SREs and operations"
    (Some "<svg xmlns='http://www.w3.org/2000/svg' viewBox='0 0 24 24' fill='none' stroke='currentColor' stroke-width='1.8' stroke-linecap='round' stroke-linejoin='round'><path d='M21 12a9 9 0 1 1-2.64-6.36'/><path d='M21 3v5h-5'/></svg>")
    (Some "Retries, circuit breaking, health checks, admission queues, and zero-downtime binary upgrades. Prometheus metrics on every listener and an embedded analytics store.")
    [("Operations", "/guide/operations"); ("Traffic policy", "/guide/traffic-policy"); ("Observability", "/guide/observability")];
  MkPersona "Security teams"
    (Some "<svg xmlns='http://www.w3.org/2000/svg' viewBox='0 0 24 24' fill='none' stroke='currentColor' stroke-width='1.8' stroke-linecap='round' stroke-linejoin='round'><path d='M12 3 5 5.8v5.4c0 4.4 2.9 7.4 7 8.8 4.1-1.4 7-4.4 7-8.8V5.8L12 3Z'/><path d='m9 12 2.1 2.1 4-4.2'/></svg>")
    (Some "Five authn methods, a deny-anywhere-wins authorization chain, Cedar/OPA policy engines, secret redaction, WAF-lite, and FIPS 140-3 mode.")
    [("Security", "/guide/security"); ("Authorization", "/guide/authorization"); ("Secrets", "/guide/secrets")];
  MkPersona "AI and ML teams"
    (Some "<svg xmlns='http://www.w3.org/2000/svg' viewBox='0 0 24 24' fill='none' stroke='currentColor' stroke-width='1.8' stroke-linecap='round' stroke-linejoin='round'><path d='M12 3l1.9 4.6L18.5 9.5l-4.6 1.9L12 16l-1.9-4.6L5.5 9.5l4.6-1.9L12 3Z'/><path d='m18.5 15.5.9 2.1 2.1.9-2.1.9-.9 2.1-.9-2.1-2.1-.9 2.1-.9.9-2.1Z'/></svg>")
    (Some "One OpenAI-shaped endpoint in front of every provider. Token budgets, cost attribution, guardrails, semantic caching, and the MCP gateway.")
    [("AI gateway", "/guide/ai-gateway"); ("Token budgets", "/guide/ai-token-budgets"); ("Guardrails", "/guide/ai-guardrails")]].

Definition index_editions : list EditionCard := [
  Edition "Open source core" "The default build: a complete, production-shaped gateway in a single static binary."
    ["Proxying, TLS termination, and routing";
     "Resilience and traffic policy";
     "Security, observability, and analytics"]
    "/guide/getting-started" "Get started" true;
  Edition "Complete capability set" "Every dataplane capability compiled into the default OSS build."
    ["Proxy-Wasm plugins and native filters";
     "CEL expressions and Cedar/OPA authorization";
     "Aggregation, protocol translation, HTTP/3"]
    "/guide/feature-reference" "Feature reference" false;
  Edition "Enterprise edition" "Fleet-scale operation across many gateway instances."
    ["CP/DP split and workspaces with RBAC";
     "Redis-backed rate limiting and convergence";
     "Vault/KMS secrets and federated analytics"]
    "/guide/editions" "Editions comparison" false].

Definition index_faq : list (string * string) := [
  ("What is Dwara?",
   "Dwara is a high-performance, streaming reverse-proxy API gateway written in Rust. It terminates TLS, routes traffic, enforces policy, authenticates callers, and observes everything -- from a single static binary configured by one YAML file.");
  ("What does the OSS edition include?",
   "Every dataplane capability: proxying (HTTP/1.1, HTTP/2, HTTP/3, gRPC, WebSocket, L4), TLS termination, routing, load balancing, traffic policy and resilience, security and authentication, AI gateway, plugins and extensibility, observability and analytics, and operations. There are no optional packs to enable.");
  ("What does the enterprise edition add?",
   "Features that span multiple gateway instances or require external infrastructure: CP/DP split with a leader-elected control plane, Redis-backed distributed rate limiting and cache, config convergence, workspaces with RBAC and audit, Vault/KMS secrets, federated analytics, FIPS 140-3 enforcement, and service mesh mode.");
  ("Do I need to change my application to use Dwara?",
   "No. Dwara is a reverse proxy -- point it at your backends and send traffic to it. For AI gateway usage, change only the base URL and credential in your OpenAI-compatible SDK; Dwara translates the request to whichever provider serves it.");
  ("Where does Dwara run?",
   "Anywhere a single static binary runs: bare metal, Docker, systemd, or Kubernetes. The OSS edition is a standalone binary; the enterprise edition adds a controller and edge binaries for fleet operation. See the deployment guide.");
  ("How does config work?",
   "One strict YAML file declares the entire gateway: listeners, routes, services, upstreams, consumers, policies, and observability. The config pipeline (parse, validate, compile, publish) runs on every change -- file watch, SIGHUP, admin API, or controller stream -- and swaps atomically behind an ArcSwap. A failure at any stage never replaces the running snapshot.");
  ("Can I migrate from NGINX, Kong, or Envoy?",
   "Yes. The dwara CLI has an import command that reads NGINX, Kong, or Envoy config and emits a Dwara YAML draft. Use dwara diff to compare it against a hand-tuned config before cutover.");
  ("Is Dwara production-ready?",
   "The OSS core (proxying, TLS, routing, resilience, security, observability, analytics) is stable and production-shaped. Some advanced capabilities (L4 proxying, GraphQL awareness, API lifecycle, MCP gateway, service mesh, Extism PDK) are partially wired or experimental; each guide page carries a status note. See the feature reference for the maturity matrix.")].

(** The components that the page's text uses. *)
Definition used_components : list string := ["HomePersonas"; "HomeBands"; "HomeEditions"; "HomeFAQ"].

(** * The page *)

Definition home_page (withBase native : string → string) (openIndex : Z) : vnode :=
  El "div" []
    [HomeHeroImage withBase;
     HomePersonas withBase (Some index_personas);
     HomeBands withBase native (Some index_domains);
     HomeEditions withBase (Some index_editions);
     HomeFAQ openIndex (Some index_faq)].

Definition domain_links (d : Domain) : list string :=
  option_list (link d) ++ omap item_link (items d).

Definition page_links : list string :=
  (index_personas ≫= λ p, (persona_links p).*2) ++ (index_domains ≫= domain_links)
  ++ (edition_link <$> index_editions).

Definition known_badge (b : option string) : bool :=
  match b with
  | Some b => existsb (String.eqb b) ["partial"; "experimental"; "ent"]
  | None => true
  end.

(** The keys of each [v-for]. *)
Definition key_lists : list (list string) :=
  [persona_title <$> index_personas; title <$> index_domains; edition_title <$> index_editions]
  ++ ((λ d, item_name <$> items d) <$> index_domains)
  ++ ((λ c, points c) <$> index_editions) ++ ((λ p, (persona_links p).*1) <$> index_personas).

(** The home page.  Its links are exactly those of its front matter, each
    through [withBase], and each names a page of the site; every illustration
    it asks for exists, and all its markup is well formed, whatever an
    inherited name would give; its badges are those the theme styles, and no
    two siblings share a key; the components it uses are registered by the
    theme, whose diagram viewer replaces the plugin's. *)
Theorem home_page_complete withBase native openIndex app :
  attribute_of "a" "href" (home_page withBase native openIndex) = withBase <$> page_links ∧
  all_resolve (published config) page_links = true ∧
  Forall (λ d, ∃ v, visual d = Some v ∧ v ∈ scenes.*1) index_domains ∧
  length (raws (home_page withBase native openIndex)) = 24%nat ∧
  forallb well_formed (raws (home_page withBase native openIndex)) = true ∧
  forallb (λ d, known_badge (badge d) && forallb (λ i, known_badge (item_badge i)) (items d))
    index_domains = true ∧
  Forall NoDup key_lists ∧
  Forall (λ c, is_Some (enhanceApp app !! c)) used_components ∧
  enhanceApp (<["Mermaid" := "vitepress-plugin-mermaid"]> app) !! "Mermaid" = Some "./Mermaid.vue".
Proof.
  split; [reflexivity|]. split; [vm_compute; reflexivity|].
  split; [repeat constructor; eexists; (split; [reflexivity|]); apply (bool_decide_unpack _); vm_compute; exact I|].
  split; [reflexivity|]. split; [vm_compute; reflexivity|]. split; [vm_compute; reflexivity|].
  split; [repeat constructor; apply (bool_decide_unpack _); vm_compute; exact I|].
  unfold enhanceApp. simpl. split.
  - apply list.Forall_forall. intros c Hc.
    repeat (apply elem_of_cons in Hc as [->|Hc];
      [eexists; repeat (apply lookup_insert_eq || (rewrite lookup_insert_ne by done))|]).
    by apply elem_of_nil in Hc.
  - repeat (rewrite lookup_insert_ne by done). apply lookup_insert_eq.
Qed.
