(* ===== verification/Utf8.v ===== *)
(** Texts as Rust holds them: a [str] is the list of its characters, which
    [utf8_bytes] encodes; bytes that come from outside become a text through
    [String::from_utf8_lossy]. *)

From S2P Require Import Prelude JsNumber.
Local Open Scope N_scope.

(** * Encoding *)

(** [char]: a Unicode scalar value. *)
Definition is_char (c : N) : bool := (c <? 55296) || ((57344 <=? c) && (c <? 1114112)).

Definition encode_char (c : N) : list N :=
  if c <? 128 then [c]
  else if c <? 2048 then [192 + c / 64; 128 + c mod 64]
  else if c <? 65536 then [224 + c / 4096; 128 + (c / 64) mod 64; 128 + c mod 64]
  else [240 + c / 262144; 128 + (c / 4096) mod 64; 128 + (c / 64) mod 64; 128 + c mod 64].

Definition utf8_bytes (s : jstr) : list N := s ≫= encode_char.

(** * Decoding *)

Definition between (lo hi b : N) : bool := (lo <=? b) && (b <=? hi).

Definition is_cont (b : N) : bool := between 128 191 b.

(** What the second byte may be after the first of three, or of four. *)
Definition second_of_three (b0 b1 : N) : bool :=
  if b0 =? 224 then between 160 191 b1
  else if b0 =? 237 then between 128 159 b1
  else is_cont b1.

Definition second_of_four (b0 b1 : N) : bool :=
  if b0 =? 240 then between 144 191 b1
  else if b0 =? 244 then between 128 143 b1
  else is_cont b1.

(** U+FFFD. *)
Definition REPLACEMENT : N := 65533.

(** The first character of [b0 :: bs] and the bytes after it.  Bytes that begin
    no character are replaced, as many as could still have become one. *)
Definition next_char (b0 : N) (bs : list N) : N * list N :=
  if b0 <? 128 then (b0, bs)
  else if between 194 223 b0 then
    match bs with
    | b1 :: r1 => if is_cont b1 then ((b0 - 192) * 64 + (b1 - 128), r1) else (REPLACEMENT, bs)
    | [] => (REPLACEMENT, bs)
    end
  else if between 224 239 b0 then
    match bs with
    | b1 :: r1 =>
        if second_of_three b0 b1 then
          match r1 with
          | b2 :: r2 =>
              if is_cont b2
              then ((b0 - 224) * 4096 + (b1 - 128) * 64 + (b2 - 128), r2) else (REPLACEMENT, r1)
          | [] => (REPLACEMENT, r1)
          end
        else (REPLACEMENT, bs)
    | [] => (REPLACEMENT, bs)
    end
  else if between 240 244 b0 then
    match bs with
    | b1 :: r1 =>
        if second_of_four b0 b1 then
          match r1 with
          | b2 :: r2 =>
              if is_cont b2 then
                match r2 with
                | b3 :: r3 =>
                    if is_cont b3
                    then ((b0 - 240) * 262144 + (b1 - 128) * 4096 + (b2 - 128) * 64 + (b3 - 128), r3)
                    else (REPLACEMENT, r2)
                | [] => (REPLACEMENT, r2)
                end
              else (REPLACEMENT, r1)
          | [] => (REPLACEMENT, r1)
          end
        else (REPLACEMENT, bs)
    | [] => (REPLACEMENT, bs)
    end
  else (REPLACEMENT, bs).

Fixpoint lossy_fuel (fuel : nat) (bs : list N) : jstr :=
  match fuel, bs with
  | S fuel, b :: bs => let '(c, bs) := next_char b bs in c :: lossy_fuel fuel bs
  | _, _ => []
  end.

(** [String::from_utf8_lossy]; a character takes at least a byte. *)
Definition from_utf8_lossy (bs : list N) : jstr := lossy_fuel (length bs) bs.

(** * Lemmas *)

Lemma utf8_cons c s : utf8_bytes (c :: s) = encode_char c ++ utf8_bytes s.
Proof. done. Qed.

Lemma utf8_app s t : utf8_bytes (s ++ t) = utf8_bytes s ++ utf8_bytes t.
Proof. apply bind_app. Qed.

Ltac decide_tests :=
  repeat match goal with
    | |- context [?a <? ?b] => first
        [rewrite (proj2 (N.ltb_lt a b)) by lia | rewrite (proj2 (N.ltb_ge a b)) by lia]
    | |- context [?a <=? ?b] => first
        [rewrite (proj2 (N.leb_le a b)) by lia | rewrite (proj2 (N.leb_gt a b)) by lia]
    end; cbn [andb orb].

Lemma between_spec lo hi b : between lo hi b = true ↔ lo ≤ b ≤ hi.
Proof. unfold between. rewrite andb_true_iff, !N.leb_le. done. Qed.

(** The bytes of a character decode to it, whatever follows. *)
Lemma next_encode c bs : is_char c = true →
  ∃ b0 rest, encode_char c ++ bs = b0 :: rest ∧ next_char b0 rest = (c, bs).
Proof.
  intros Hc. unfold is_char in Hc. unfold encode_char.
  assert (Hsplit : c < 55296 ∨ 57344 ≤ c < 1114112).
  { apply orb_true_iff in Hc as [Hc|Hc]; [left; by apply N.ltb_lt|right].
    apply andb_true_iff in Hc as [H1 H2]. apply N.leb_le in H1. apply N.ltb_lt in H2. done. }
  pose proof (N.mod_lt c 64 ltac:(done)) as Hm0.
  pose proof (N.mod_lt (c / 64) 64 ltac:(done)) as Hm1.
  pose proof (N.mod_lt (c / 4096) 64 ltac:(done)) as Hm2.
  pose proof (N.div_mod c 64 ltac:(done)) as Hd0.
  pose proof (N.div_mod (c / 64) 64 ltac:(done)) as Hd1.
  pose proof (N.div_mod (c / 4096) 64 ltac:(done)) as Hd2.
  rewrite N.Div0.div_div in Hd1. change (64 * 64) with 4096 in Hd1.
  rewrite N.Div0.div_div in Hd2. change (4096 * 64) with 262144 in Hd2. clear Hc.
  generalize dependent (c / 262144). generalize dependent ((c / 4096) mod 64).
  generalize dependent (c / 4096). generalize dependent ((c / 64) mod 64).
  generalize dependent (c / 64). generalize dependent (c mod 64).
  intros m0 Hm0 q0 Hd0 m1 Hm1 q1 Hd1 m2 Hm2 q2 Hd2.
  destruct (N.ltb_spec c 128); [|destruct (N.ltb_spec c 2048); [|destruct (N.ltb_spec c 65536)]];
    eexists _, _; (split; [simpl; reflexivity|]); unfold next_char.
  - by decide_tests.
  - unfold between, is_cont, between. decide_tests. f_equal. lia.
  - unfold between. decide_tests.
    replace (second_of_three _ _) with true.
    + unfold is_cont, between. decide_tests. f_equal. lia.
    + symmetry. unfold second_of_three, is_cont.
      destruct (N.eqb_spec (224 + q1) 224); [|destruct (N.eqb_spec (224 + q1) 237)];
        apply between_spec; lia.
  - unfold between. decide_tests.
    replace (second_of_four _ _) with true.
    + unfold is_cont, between. decide_tests. f_equal. lia.
    + symmetry. unfold second_of_four, is_cont.
      destruct (N.eqb_spec (240 + q2) 240); [|destruct (N.eqb_spec (240 + q2) 244)];
        apply between_spec; lia.
Qed.

(** A character takes at least a byte. *)
Lemma next_char_shrinks b0 bs : (length (next_char b0 bs).2 ≤ length bs)%nat.
Proof. unfold next_char. repeat case_match; simpl; lia. Qed.

Lemma lossy_fuel_more n m bs : (length bs ≤ n)%nat → (length bs ≤ m)%nat →
  lossy_fuel n bs = lossy_fuel m bs.
Proof.
  revert m bs. induction n as [|n IH]; intros m [|b bs] Hn Hm; simpl in *; try lia.
  - by destruct m.
  - by destruct m.
  - destruct m as [|m]; simpl in *; [lia|]. pose proof (next_char_shrinks b bs) as Hs.
    destruct (next_char b bs) as [c r]. simpl in Hs. f_equal. apply IH; lia.
Qed.

Lemma lossy_cons b bs :
  from_utf8_lossy (b :: bs) = (next_char b bs).1 :: from_utf8_lossy (next_char b bs).2.
Proof.
  unfold from_utf8_lossy. simpl. pose proof (next_char_shrinks b bs) as Hs.
  destruct (next_char b bs) as [c r]. simpl in *. f_equal. by apply lossy_fuel_more.
Qed.

(** What was encoded is read back, whatever follows. *)
Lemma lossy_encode s bs : forallb is_char s = true →
  from_utf8_lossy (utf8_bytes s ++ bs) = s ++ from_utf8_lossy bs.
Proof.
  induction s as [|c s IH]; intros Hs; [done|]. simpl in Hs. apply andb_true_iff in Hs as [Hc Hs].
  rewrite utf8_cons, <- app_assoc.
  destruct (next_encode c (utf8_bytes s ++ bs) Hc) as (b0 & rest & -> & Hn).
  rewrite lossy_cons, Hn. simpl. by rewrite IH.
Qed.

Lemma lossy_utf8 s : forallb is_char s = true → from_utf8_lossy (utf8_bytes s) = s.
Proof.
  intros Hs. rewrite <- (app_nil_r (utf8_bytes s)), lossy_encode by done. apply app_nil_r.
Qed.

(** Encoding is a prefix code: prefixes of texts are prefixes of their bytes. *)
Lemma utf8_prefix s t : forallb is_char s = true → forallb is_char t = true →
  utf8_bytes s `prefix_of` utf8_bytes t ↔ s `prefix_of` t.
Proof.
  intros Hs Ht. split; [|intros [r ->]; rewrite utf8_app; by eexists].
  intros [r Hr]. apply (f_equal from_utf8_lossy) in Hr.
  rewrite lossy_utf8, lossy_encode in Hr by done. by eexists.
Qed.

Lemma utf8_inj s t : forallb is_char s = true → forallb is_char t = true →
  utf8_bytes s = utf8_bytes t → s = t.
Proof.
  intros Hs Ht E. apply (f_equal from_utf8_lossy) in E. by rewrite !lossy_utf8 in E.
Qed.
