(* ===== verification/Router.v ===== *)
(** The route table (crates/dwara-core/src/snapshot/mod.rs: [PrefixTrie],
    [RouteTable], the path part of [compile]) and the resolution of a request
    (dataplane/proxy.rs: [route_applies] and the loop of the dispatch).

    A Rust [str] is the list of its characters; the trie is keyed by the bytes of
    their encoding.  The [matchit] and [regex] crates are the class [Crates]; the
    accessors of the HTTP library are the fields of [Request]. *)

From S2P Require Import Prelude JsNumber Text Utf8 Affinity.

(** * The prefix trie *)

Inductive PrefixTrie : Type :=
  | Node (route_idxs : list nat) (children : gmap N PrefixTrie).

Definition trie_new : PrefixTrie := Node [] ∅.

Definition route_idxs (t : PrefixTrie) : list nat := match t with Node l _ => l end.

Definition child (b : N) (t : PrefixTrie) : option PrefixTrie := match t with Node _ c => c !! b end.

Fixpoint trie_insert (prefix : list N) (idx : nat) (t : PrefixTrie) : PrefixTrie :=
  match prefix, t with
  | [], Node l c => Node (l ++ [idx]) c
  | b :: prefix, Node l c =>
      Node l (<[b := trie_insert prefix idx (default trie_new (c !! b))]> c)
  end.

(** The loop of [longest_match], from a node and the best so far. *)
Fixpoint longest_from (path : list N) (t : PrefixTrie) (best : option nat) : option nat :=
  match path with
  | [] => best
  | b :: path =>
      match child b t with
      | Some t =>
          longest_from path t (match route_idxs t with idx :: _ => Some idx | [] => best end)
      | None => best
      end
  end.

Definition longest_match (path : list N) (t : PrefixTrie) : option nat :=
  longest_from path t (head (route_idxs t)).

Definition push_node (t : PrefixTrie) (out : list (list nat)) : list (list nat) :=
  match route_idxs t with
  | [] => out
  | l => out ++ [l]
  end.

Fixpoint collect_from (path : list N) (t : PrefixTrie) (out : list (list nat)) : list (list nat) :=
  match path with
  | [] => out
  | b :: path =>
      match child b t with
      | Some t => collect_from path t (push_node t out)
      | None => out
      end
  end.

Definition collect_matches (path : list N) (t : PrefixTrie) : list (list nat) :=
  collect_from path t (push_node t []).

(** * Routes *)

Inductive PathMatchKind : Type := Exact | Prefix | Regexp.

#[global] Instance PathMatchKind_eq_dec : EqDecision PathMatchKind.
Proof. solve_decision. Defined.

Record PathMatch : Type := MatchPath { kind : PathMatchKind; value : jstr }.

Record NameValueMatch : Type := NameValue { nv_name : jstr; nv_value : option jstr }.

Record RouteMatch : Type := MkMatch {
  path : PathMatch;
  host : option jstr;
  methods : list jstr;
  headers : list (jstr * jstr);
  query : list NameValueMatch;
  cookies : list NameValueMatch;
  accept : option jstr;
}.

Inductive PathRewrite : Type :=
  | StripPrefix
  | ReplacePrefix (prefix replacement : jstr)
  | RegexRewrite (pattern substitution : jstr).

Inductive RouteAction : Type :=
  | Proxy (rewrite : option PathRewrite)
  | Answer.

Record Route : Type := MkRoute { r_name : jstr; r_match : RouteMatch; action : RouteAction }.

(** * The crates *)

(** [router_insert] fails on a conflict; [router_at] gives the value of the
    template that matches and its parameters.  [set_matches] lists the members
    of a set that match, in the order the iterator yields them. *)
Class Crates : Type := {
  MatchIt : Type;
  router_new : MatchIt;
  router_insert : jstr → nat → MatchIt → option MatchIt;
  router_at : MatchIt → jstr → option (nat * list (jstr * jstr));
  Regex : Type;
  regex_new : jstr → option Regex;
  is_match : Regex → jstr → bool;
  RegexSet : Type;
  set_new : list jstr → option RegexSet;
  set_matches : RegexSet → jstr → list nat;
}.

(** * Compiling the table *)

(** A route index, and the parameters of its template. *)
Abbreviation route_hit := (nat * list (jstr * jstr))%type.

Inductive CompileError : Type :=
  | RouteConflict (route pattern : jstr)
  | InvalidRegex (route pattern : jstr)
  | Internal.

(** [trim_end_matches('/')]. *)
Definition trim_slashes (s : jstr) : jstr := reverse (trim_start (N.eqb 47) (reverse s)).

Definition is_meta (c : N) : bool := bool_decide (c ∈ (u "\.*+?()[]{}|^$" : list N)).

Definition regex_specificity_score (pattern : jstr) : Z :=
  Z.of_nat (length (filter (λ c, negb (is_meta c)) pattern)) mod 2 ^ 32.

Section Table.
Context `{Crates}.

(** The variables of the loop of [compile]. *)
Record Tables : Type := MkTables {
  t_exact : MatchIt;
  t_trie : PrefixTrie;
  t_patterns : list jstr;
  t_indices : list nat;
  t_scores : list Z;
}.

Definition tables_new : Tables := MkTables router_new trie_new [] [] [].

(** The path of one route enters the table of its kind. *)
Definition compile_path (idx : nat) (r : Route) (t : Tables) : result CompileError Tables :=
  let p := path (r_match r) in
  match kind p with
  | Exact =>
      match router_insert (value p) idx (t_exact t) with
      | Some e => Ok (MkTables e (t_trie t) (t_patterns t) (t_indices t) (t_scores t))
      | None => Err (RouteConflict (r_name r) (value p))
      end
  | Prefix =>
      Ok (MkTables (t_exact t) (trie_insert (utf8_bytes (trim_slashes (value p))) idx (t_trie t))
            (t_patterns t) (t_indices t) (t_scores t))
  | Regexp =>
      match regex_new (value p) with
      | Some _ =>
          Ok (MkTables (t_exact t) (t_trie t) (t_patterns t ++ [value p]) (t_indices t ++ [idx])
                (t_scores t ++ [regex_specificity_score (value p)]))
      | None => Err (InvalidRegex (r_name r) (value p))
      end
  end.

(** A rewrite by regular expression must compile too. *)
Definition check_rewrite (r : Route) : result CompileError () :=
  match action r with
  | Proxy (Some (RegexRewrite pattern _)) =>
      match regex_new pattern with
      | Some _ => Ok ()
      | None => Err (InvalidRegex (r_name r) pattern)
      end
  | _ => Ok ()
  end.

Fixpoint compile_from (idx : nat) (routes : list Route) (t : Tables) : result CompileError Tables :=
  match routes with
  | [] => Ok t
  | r :: routes =>
      t ← compile_path idx r t;
      check_rewrite r ≫= λ _, compile_from (S idx) routes t
  end.

Record RouteTable : Type := MkTable {
  exact : MatchIt;
  prefix_trie : PrefixTrie;
  regex_set : RegexSet;
  regex_indices : list nat;
  regex_scores : list Z;
}.

Definition compile_routes (routes : list Route) : result CompileError RouteTable :=
  t ← compile_from 0 routes tables_new;
  match set_new (t_patterns t) with
  | Some s => Ok (MkTable (t_exact t) (t_trie t) s (t_indices t) (t_scores t))
  | None => Err Internal
  end.

(** * Looking a path up *)

(** Indexing a vector; the indices come from the set built with it. *)
Definition index_at (l : list nat) (i : nat) : nat := default O (l !! i).
Definition score_at (l : list Z) (i : nat) : Z := default 0%Z (l !! i).

(** The first of the highest scores. *)
Definition best_regex (scores : list Z) (matched : list nat) : option (Z * nat) :=
  foldl (λ best i,
    let score := score_at scores i in
    match best with
    | Some (s, _) => if (s <? score)%Z then Some (score, i) else best
    | None => Some (score, i)
    end) None matched.

Definition find_full (t : RouteTable) (p : jstr) : option route_hit :=
  match router_at (exact t) p with
  | Some m => Some m
  | None =>
      match best_regex (regex_scores t) (set_matches (regex_set t) p) with
      | Some (_, i) => Some (index_at (regex_indices t) i, [])
      | None =>
          match longest_match (utf8_bytes p) (prefix_trie t) with
          | Some idx => Some (idx, [])
          | None => None
          end
      end
  end.

Definition find (t : RouteTable) (p : jstr) : option nat := fst <$> find_full t p.

(** [sort_by(|a, b| b.0.cmp(&a.0))], a stable sort. *)
Fixpoint insert_desc (x : Z * nat) (l : list (Z * nat)) : list (Z * nat) :=
  match l with
  | [] => [x]
  | y :: l' => if (x.1 <? y.1)%Z then y :: insert_desc x l' else x :: l
  end.

Definition sort_desc (l : list (Z * nat)) : list (Z * nat) := foldr insert_desc [] l.

Definition find_candidates (t : RouteTable) (p : jstr) : list route_hit :=
  let exacts := match router_at (exact t) p with Some m => [m] | None => [] end in
  let regex_matches := (λ i, (score_at (regex_scores t) i, i)) <$> set_matches (regex_set t) p in
  let regex_matches :=
    if (1 <? length regex_matches)%nat then sort_desc regex_matches else regex_matches in
  exacts ++ ((λ m, (index_at (regex_indices t) m.2, [])) <$> regex_matches)
         ++ ((λ idx, (idx, [])) <$> concat (reverse (collect_matches (utf8_bytes p) (prefix_trie t)))).

(** * The other criteria *)

(** What the HTTP library gives of a request: the method, the query, and the
    values of its headers; [to_str] is [None] on a value that is not visible
    ASCII. *)
Record Request : Type := MkRequest {
  method : jstr;
  uri_query : option jstr;
  host_header : option (option jstr);          (* get(HOST), then to_str *)
  header : jstr → option jstr;                 (* get(name), as bytes *)
  cookie_headers : list (option jstr);         (* get_all(COOKIE), then to_str *)
  accept_headers : list (option jstr);         (* get_all(ACCEPT), then to_str *)
}.

Definition lower (b : N) : N := if (65 <=? b)%N && (b <=? 90)%N then (b + 32)%N else b.

Definition eq_ignore_ascii_case (a b : jstr) : bool := bool_decide (lower <$> a = lower <$> b).

(** [rsplit_once(':')], its first half or the whole. *)
Fixpoint before_last (c : N) (s : jstr) : option jstr :=
  match s with
  | [] => None
  | d :: s' =>
      match before_last c s' with
      | Some a => Some (d :: a)
      | None => if (d =? c)%N then Some [] else None
      end
  end.

Definition host_matches (want got : jstr) : bool :=
  eq_ignore_ascii_case got want || eq_ignore_ascii_case (default got (before_last 58 got)) want.

Definition name_value_hits (n v : jstr) (want : NameValueMatch) : bool :=
  bool_decide (n = nv_name want) &&
  match nv_value want with
  | Some x => bool_decide (v = x)
  | None => true
  end.

(** A pair at its first [=], or a bare name. *)
Definition pair_of (s : jstr) : jstr * jstr := default (s, []) (split_once 61 s).

Definition query_param_matches (q : option jstr) (want : NameValueMatch) : bool :=
  match q with
  | None => false
  | Some raw => existsb (λ s, let '(n, v) := pair_of s in name_value_hits n v want) (split_on 38 raw)
  end.

Definition parse_cookies (header : jstr) : list (jstr * jstr) :=
  omap (λ s, match trim s with
             | [] => None
             | s => Some (pair_of s)
             end) (split_on 59 header).

Definition cookie_matches (lines : list (option jstr)) (want : NameValueMatch) : bool :=
  existsb (λ line, match line with
                   | Some raw => existsb (λ '(n, v), name_value_hits n v want) (parse_cookies raw)
                   | None => false
                   end) lines.

(** dataplane/versioning.rs. *)
Definition accept_lists_media_type (raw want : jstr) : bool :=
  existsb (λ entry,
    let media_type := trim (default [] (head (split_on 59 entry))) in
    bool_decide (media_type ≠ []) && eq_ignore_ascii_case media_type want) (split_on 44 raw).

Definition accept_matches (lines : list (option jstr)) (want : jstr) : bool :=
  existsb (λ line, match line with Some raw => accept_lists_media_type raw want | None => false end) lines.

Definition route_applies (m : RouteMatch) (accept : option jstr) (req : Request) : bool :=
  match host m with
  | Some want =>
      match host_header req with
      | Some (Some got) => host_matches want got
      | _ => false
      end
  | None => true
  end &&
  (bool_decide (methods m = []) ||
   existsb (λ want, eq_ignore_ascii_case (method req) (trim want)) (methods m)) &&
  forallb (λ '(n, v), match header req n with
                      | Some got => bool_decide (got = v)
                      | None => false
                      end) (headers m) &&
  match accept with
  | Some want => accept_matches (accept_headers req) want
  | None => true
  end &&
  forallb (query_param_matches (uri_query req)) (query m) &&
  forallb (cookie_matches (cookie_headers req)) (cookies m).

(** * The dispatch *)

(** config/versioning.rs. *)
Definition is_alphanumeric (c : N) : bool :=
  between 48 57 c || between 65 90 c || between 97 122 c.

Definition is_tchar (c : N) : bool :=
  is_alphanumeric c || bool_decide (c ∈ (u "!#$%&'*+-.^_`|~" : list N)).

Definition normalize_media_type (v : jstr) : option jstr :=
  '(ty, subtype) ← split_once 47 (lower <$> trim v);
  if bool_decide (ty = []) || bool_decide (subtype = [])
     || bool_decide (ty = u "*") || bool_decide (subtype = u "*") then None
  else if forallb is_tchar (ty ++ subtype) then Some (ty ++ 47%N :: subtype) else None.

(** [accept_media_types], compiled per route index. *)
Definition accept_media_type (routes : list Route) (i : nat) : option jstr :=
  r ← routes !! i; accept (r_match r) ≫= normalize_media_type.

Fixpoint first_applying (routes : list Route) (req : Request) (cs : list route_hit)
    : option route_hit :=
  match cs with
  | [] => None
  | c :: cs =>
      match routes !! c.1 with
      | None => first_applying routes req cs
      | Some r =>
          if route_applies (r_match r) (accept_media_type routes c.1) req then Some c
          else first_applying routes req cs
      end
  end.

(** The candidates in turn; [None] is the answer to an unrouted request. *)
Definition resolve (routes : list Route) (t : RouteTable) (p : jstr) (req : Request)
    : option route_hit :=
  first_applying routes req (find_candidates t p).

End Table.
