(* ===== verification/Routing.v ===== *)
(** What the route table promises: the trie is a linear scan, a lookup is the
    first candidate, and the dispatch serves the route of highest precedence
    among those that match. *)

From stdpp Require Import sorting.
From S2P Require Import Prelude JsNumber Text Utf8 Affinity Router.

(** * Sorted lists by their positions *)

Lemma sorted_by_lookup {A} (R : A → A → Prop) (l : list A) :
  (∀ i j x y, (i < j)%nat → l !! i = Some x → l !! j = Some y → R x y) → StronglySorted R l.
Proof.
  induction l as [|x l IH]; intros Hl; constructor.
  - apply IH. intros i j a b Hij Ha Hb. apply (Hl (S i) (S j)); [lia|done..].
  - apply list.Forall_forall. intros y Hy. apply list_elem_of_lookup in Hy as [j Hj].
    apply (Hl O (S j)); [lia|done..].
Qed.

Lemma sorted_lookup {A} (R : A → A → Prop) (l : list A) i j x y :
  StronglySorted R l → (i < j)%nat → l !! i = Some x → l !! j = Some y → R x y.
Proof.
  intros Hs. revert i j. induction Hs as [|z l Hl IH Hz]; intros [|i] [|j] Hij Hx Hy; simpl in *;
    simplify_eq; try lia.
  - rewrite list.Forall_lookup in Hz. by eapply Hz.
  - apply (IH i j); [lia|done..].
Qed.

(** What holds of the elements may be used to compare them. *)
Lemma sorted_with {A} (P : A → Prop) (R : A → A → Prop) (l : list A) :
  Forall P l → StronglySorted R l → StronglySorted (λ x y, P x ∧ P y ∧ R x y) l.
Proof.
  intros HP. induction 1 as [|x l Hl IH Hx]; [constructor|].
  apply list.Forall_cons in HP as [HPx HP]. constructor; [by apply IH|].
  rewrite list.Forall_forall in *. naive_solver.
Qed.

Lemma sorted_concat {A} (R : A → A → Prop) (ls : list (list A)) :
  Forall (StronglySorted R) ls →
  StronglySorted (λ l k, ∀ x y, x ∈ l → y ∈ k → R x y) ls → StronglySorted R (concat ls).
Proof.
  induction 1 as [|l ls Hl Hls IH]; intros Hs; simpl; [constructor|].
  inversion_clear Hs as [|? ? Hs' Hall]. apply StronglySorted_app_2; [|done|by apply IH].
  intros x y Hx Hy. apply list_elem_of_In, in_concat in Hy as (k & Hk & Hy).
  apply list_elem_of_In in Hk, Hy. rewrite list.Forall_forall in Hall. by eapply Hall.
Qed.

(** * The trie *)

(** The indices of the prefixes that end at a node. *)
Fixpoint lookup_at (q : list N) (t : PrefixTrie) : list nat :=
  match q with
  | [] => route_idxs t
  | b :: q => match child b t with Some t => lookup_at q t | None => [] end
  end.

(** The nodes along a path. *)
Fixpoint levels (path : list N) (t : PrefixTrie) : list (list nat) :=
  route_idxs t ::
  match path with
  | [] => []
  | b :: path => match child b t with Some t => levels path t | None => [] end
  end.

Definition build_trie (entries : list (list N * nat)) (t : PrefixTrie) : PrefixTrie :=
  foldl (λ t e, trie_insert e.1 e.2 t) t entries.

Lemma lookup_new q : lookup_at q trie_new = [].
Proof. destruct q; [done|]. simpl. by rewrite lookup_empty. Qed.

Lemma lookup_insert p i t q :
  lookup_at q (trie_insert p i t) = lookup_at q t ++ (if decide (q = p) then [i] else []).
Proof.
  revert q t. induction p as [|b p IH]; intros [|b' q] [l c]; simpl.
  - done.
  - by rewrite app_nil_r.
  - by rewrite app_nil_r.
  - destruct (decide (b' = b)) as [->|Hne].
    + rewrite lookup_insert_eq, IH. destruct (c !! b) as [t|]; simpl; rewrite ?lookup_new;
        repeat case_decide; simplify_eq; done.
    + rewrite lookup_insert_ne by done. rewrite decide_False by naive_solver. by rewrite app_nil_r.
Qed.

Lemma lookup_build entries t q :
  lookup_at q (build_trie entries t) = lookup_at q t ++ (filter (λ e, e.1 = q) entries).*2.
Proof.
  revert t. induction entries as [|[p i] entries IH]; intros t; csimpl; [by rewrite app_nil_r|].
  rewrite IH, lookup_insert, <- app_assoc. f_equal. rewrite filter_cons. simpl.
  repeat case_decide; simplify_eq; done.
Qed.

Lemma levels_lookup path t k l : levels path t !! k = Some l → l = lookup_at (take k path) t.
Proof.
  revert t k. induction path as [|b path IH]; intros t [|k]; simpl; intros E; simplify_eq; try done.
  destruct (child b t) as [t'|]; [|done]. by apply IH.
Qed.

Lemma levels_length path t : (length (levels path t) ≤ S (length path))%nat.
Proof.
  revert t. induction path as [|b path IH]; intros t; simpl; [done|].
  destruct (child b t) as [t'|]; simpl; [specialize (IH t')|]; lia.
Qed.

Lemma lookup_levels path t k : lookup_at (take k path) t ≠ [] →
  (k ≤ length path)%nat → levels path t !! k = Some (lookup_at (take k path) t).
Proof.
  revert t k. induction path as [|b path IH]; intros t [|k]; simpl; intros Hl Hk; try done; try lia.
  destruct (child b t) as [t'|]; [|done]. apply IH; [done|lia].
Qed.

Lemma elem_of_levels path t i :
  (∃ l, l ∈ levels path t ∧ i ∈ l) ↔ ∃ q, q `prefix_of` path ∧ i ∈ lookup_at q t.
Proof.
  split.
  - intros (l & Hl & Hi). apply list_elem_of_lookup in Hl as [k Hk]. apply levels_lookup in Hk as ->.
    eexists. split; [|exact Hi]. eexists. symmetry. apply take_drop.
  - intros (q & [r ->] & Hi). exists (lookup_at q t). split; [|done].
    apply list_elem_of_lookup. exists (length q).
    pose proof (lookup_levels (q ++ r) t (length q)) as Hl. rewrite take_app_length in Hl.
    apply Hl; [|rewrite length_app; lia]. intros E. rewrite E in Hi. set_solver.
Qed.

Definition nonempty (l : list nat) : Prop := l ≠ [].

#[global] Instance nonempty_dec l : Decision (nonempty l).
Proof. unfold nonempty. solve_decision. Defined.

Lemma push_node_filter t out : push_node t out = out ++ filter nonempty [route_idxs t].
Proof.
  unfold push_node. destruct (route_idxs t) as [|i l].
  - rewrite filter_cons_False by (intros H; by apply H). by rewrite filter_nil, app_nil_r.
  - by rewrite filter_cons_True.
Qed.

Lemma collect_from_levels path t out :
  collect_from path t (push_node t out) = out ++ filter nonempty (levels path t).
Proof.
  revert t out. induction path as [|b path IH]; intros t out; simpl.
  - apply push_node_filter.
  - destruct (child b t) as [t'|]; [|apply push_node_filter].
    rewrite IH, push_node_filter, <- app_assoc. f_equal. symmetry. apply (list.filter_app _ [_]).
Qed.

Lemma collect_levels path t : collect_matches path t = filter nonempty (levels path t).
Proof. apply collect_from_levels. Qed.

Lemma concat_nonempty (ls : list (list nat)) : concat (filter nonempty ls) = concat ls.
Proof.
  induction ls as [|l ls IH]; [done|]. destruct (decide (nonempty l)) as [Hl|Hl].
  - rewrite filter_cons_True by done. simpl. by rewrite IH.
  - rewrite filter_cons_False by done. destruct l; [done|]. by destruct Hl.
Qed.

Lemma filter_reverse {A} (P : A → Prop) `{!∀ x, Decision (P x)} (l : list A) :
  filter P (reverse l) = reverse (filter P l).
Proof.
  induction l as [|x l IH]; [done|]. rewrite reverse_cons, list.filter_app, IH.
  destruct (decide (P x)).
  - rewrite (filter_cons_True P x l), reverse_cons by done. by rewrite filter_cons_True.
  - rewrite (filter_cons_False P x l) by done. rewrite filter_cons_False by done.
    by rewrite filter_nil, app_nil_r.
Qed.

Lemma concat_collect path t :
  concat (reverse (collect_matches path t)) = concat (reverse (levels path t)).
Proof. by rewrite collect_levels, <- filter_reverse, concat_nonempty. Qed.

(** The longest match is the first index of the deepest node. *)
Lemma longest_from_levels path t best :
  longest_from path t (match route_idxs t with idx :: _ => Some idx | [] => best end) =
  match concat (reverse (levels path t)) with idx :: _ => Some idx | [] => best end.
Proof.
  revert t best. induction path as [|b path IH]; intros t best; simpl.
  - by rewrite app_nil_r.
  - destruct (child b t) as [t'|]; [|simpl; by rewrite app_nil_r].
    rewrite IH, reverse_cons, concat_app. simpl. rewrite app_nil_r.
    by destruct (concat (reverse (levels path t'))).
Qed.

Lemma longest_match_head path t :
  longest_match path t = head (concat (reverse (collect_matches path t))).
Proof.
  rewrite concat_collect. apply (longest_from_levels path t None).
Qed.

(** What the trie replaced: a scan of the prefixes that keeps the longest, the
    first declared of equals. *)
Definition scan_step (path : list N) (best : option (nat * nat)) (e : list N * nat) : option (nat * nat) :=
  if decide (e.1 `prefix_of` path) then
    match best with
    | Some (len, _) => if (len <? length e.1)%nat then Some (length e.1, e.2) else best
    | None => Some (length e.1, e.2)
    end
  else best.

Definition linear_scan (path : list N) (entries : list (list N * nat)) : option nat :=
  snd <$> foldl (scan_step path) None entries.

(** * The best regular expression *)

(** The first of the higher of two scores. *)
Definition higher (x y : Z * nat) : Z * nat := if (x.1 <? y.1)%Z then y else x.

Lemma higher_assoc x y z : higher (higher x y) z = higher x (higher y z).
Proof.
  unfold higher. destruct (x.1 <? y.1)%Z eqn:A, (y.1 <? z.1)%Z eqn:B, (x.1 <? z.1)%Z eqn:C;
    rewrite ?A, ?B, ?C; done || lia.
Qed.

Lemma head_insert x l :
  head (insert_desc x l) = Some (match head l with Some y => higher x y | None => x end).
Proof. destruct l as [|y l]; simpl; [done|]. unfold higher. by destruct (_ <? _)%Z. Qed.

Lemma best_from scores b l :
  foldl (λ best i,
    match best with
    | Some (s, _) => if (s <? score_at scores i)%Z then Some (score_at scores i, i) else best
    | None => Some (score_at scores i, i)
    end) (Some b) l =
  Some (match head (sort_desc ((λ i, (score_at scores i, i)) <$> l)) with
        | Some y => higher b y
        | None => b
        end).
Proof.
  revert b. induction l as [|i l IH]; intros b; [done|]. csimpl. rewrite head_insert.
  assert (E : (let '(s, _) := b in
               if (s <? score_at scores i)%Z then Some (score_at scores i, i) else Some b)
              = Some (higher b (score_at scores i, i))).
  { destruct b as [s k]. unfold higher. simpl. by destruct (_ <? _)%Z. }
  destruct b as [s k]. rewrite E, IH. f_equal.
  destruct (head _) as [y|]; [by rewrite higher_assoc|done].
Qed.

Lemma best_regex_head scores matched :
  best_regex scores matched = head (sort_desc ((λ i, (score_at scores i, i)) <$> matched)).
Proof.
  unfold best_regex. destruct matched as [|i l]; [done|]. csimpl. rewrite head_insert.
  apply best_from.
Qed.

Lemma sort_desc_perm l : sort_desc l ≡ₚ l.
Proof.
  induction l as [|x l IH]; simpl; [done|]. transitivity (x :: sort_desc l); [|by rewrite IH].
  clear IH. induction (sort_desc l) as [|y k IHk]; simpl; [done|]. destruct (_ <? _)%Z; [|done].
  rewrite IHk. apply Permutation_swap.
Qed.

(** Highest score first, and among equals the smaller index. *)
Definition beats (a b : Z * nat) : Prop := (b.1 < a.1)%Z ∨ a.1 = b.1 ∧ (a.2 < b.2)%nat.

Lemma insert_desc_sorted x l :
  StronglySorted beats l → Forall (λ y, x.2 < y.2)%nat l → StronglySorted beats (insert_desc x l).
Proof.
  induction 1 as [|y l Hl IH Hy]; intros Hx; simpl; [by repeat constructor|].
  apply list.Forall_cons in Hx as [Hxy Hx]. destruct (Z.ltb_spec x.1 y.1) as [Hlt|Hge].
  - constructor; [by apply IH|]. apply list.Forall_forall. intros z Hz.
    assert (Hz' : z ∈ x :: l).
    { clear -Hz. induction l as [|w l IHl]; simpl in *; [done|]. destruct (_ <? _)%Z; set_solver. }
    apply elem_of_cons in Hz' as [->|Hz']; [by left|]. rewrite list.Forall_forall in Hy. by apply Hy.
  - assert (Hxy' : beats x y) by (unfold beats; lia).
    constructor; [by constructor|]. constructor; [done|]. rewrite list.Forall_forall in Hx, Hy |- *.
    intros z Hz. specialize (Hx z Hz). specialize (Hy z Hz). unfold beats in *. lia.
Qed.

Lemma sort_desc_sorted l :
  StronglySorted (λ a b, a.2 < b.2)%nat l → StronglySorted beats (sort_desc l).
Proof.
  induction 1 as [|x l Hl IH Hx]; simpl; [constructor|]. apply insert_desc_sorted; [done|].
  by rewrite sort_desc_perm.
Qed.

(** Sorting a list of at most one element does nothing. *)
Lemma sort_short (l : list (Z * nat)) :
  (if (1 <? length l)%nat then sort_desc l else l) = sort_desc l.
Proof. by destruct l as [|x [|y l]]. Qed.

(** * The table that [compile] builds *)

Definition kind_of (r : Route) : PathMatchKind := kind (path (r_match r)).
Definition value_of (r : Route) : jstr := value (path (r_match r)).

(** The path values of the routes of a kind, with their positions. *)
Fixpoint entries (k : PathMatchKind) (n : nat) (routes : list Route) : list (jstr * nat) :=
  match routes with
  | [] => []
  | r :: routes =>
      (if decide (kind_of r = k) then [(value_of r, n)] else []) ++ entries k (S n) routes
  end.

Definition key_of (e : jstr * nat) : list N * nat := (utf8_bytes (trim_slashes e.1), e.2).

Lemma elem_of_entries k n routes v i :
  (v, i) ∈ entries k n routes ↔
  ∃ r, (n ≤ i)%nat ∧ routes !! (i - n)%nat = Some r ∧ kind_of r = k ∧ value_of r = v.
Proof.
  revert n. induction routes as [|r routes IH]; intros n; simpl.
  - split; [by intros ?%not_elem_of_nil|]. intros (r & _ & Hr & _). by rewrite lookup_nil in Hr.
  - rewrite elem_of_app, IH. split.
    + intros [Hi|(r' & Hn & Hr & Hk & Hv)].
      * case_decide as Hk; [|by apply not_elem_of_nil in Hi].
        apply list_elem_of_singleton in Hi as [= -> ->]. exists r. by rewrite Nat.sub_diag.
      * exists r'. replace (i - n)%nat with (S (i - S n))%nat by lia. eauto with lia.
    + intros (r' & Hn & Hr & Hk & Hv). destruct (decide (i = n)) as [->|Hne].
      * left. rewrite Nat.sub_diag in Hr. simplify_eq/=. rewrite decide_True by done.
        by apply list_elem_of_singleton.
      * right. exists r'. replace (i - n)%nat with (S (i - S n))%nat in Hr by lia. eauto with lia.
Qed.

Lemma elem_of_entries_0 k routes v i :
  (v, i) ∈ entries k 0 routes ↔ ∃ r, routes !! i = Some r ∧ kind_of r = k ∧ value_of r = v.
Proof. rewrite elem_of_entries, Nat.sub_0_r. naive_solver lia. Qed.

Lemma entries_sorted k n routes : StronglySorted (λ a b, a.2 < b.2)%nat (entries k n routes).
Proof.
  revert n. induction routes as [|r routes IH]; intros n; simpl; [constructor|].
  case_decide; simpl; [|apply IH]. constructor; [apply IH|].
  apply list.Forall_forall. intros [v i] Hi. apply elem_of_entries in Hi as (_ & Hi & _). simpl. lia.
Qed.

Section Promise.
Context `{Crates}.

Fixpoint router_of (l : list (jstr * nat)) (m : MatchIt) : option MatchIt :=
  match l with
  | [] => Some m
  | e :: l => m ← router_insert e.1 e.2 m; router_of l m
  end.

Lemma compile_from_ok n routes t t' : compile_from n routes t = Ok t' →
  router_of (entries Exact n routes) (t_exact t) = Some (t_exact t') ∧
  t_trie t' = build_trie (key_of <$> entries Prefix n routes) (t_trie t) ∧
  t_patterns t' = t_patterns t ++ (entries Regexp n routes).*1 ∧
  t_indices t' = t_indices t ++ (entries Regexp n routes).*2 ∧
  t_scores t' = t_scores t ++ (regex_specificity_score <$> (entries Regexp n routes).*1).
Proof.
  revert n t. induction routes as [|r routes IH]; intros n t; simpl.
  - intros [= <-]. by rewrite !app_nil_r.
  - intros (t1 & Hp & Hrest)%result_bind_ok.
    apply result_bind_ok in Hrest as ([] & _ & (H1 & H2 & H3 & H4 & H5)%IH).
    unfold compile_path in Hp. fold (kind_of r) (value_of r) in Hp.
    destruct (kind_of r) eqn:Hk; simpl in *.
    + case_match; simplify_eq/=. rewrite H1. done.
    + simplify_eq/=. done.
    + case_match; simplify_eq/=. rewrite H3, H4, H5, <- !app_assoc. done.
Qed.

(** What the crates document. *)
Class CratesLaws : Prop := {
  at_inserted l m p i ps :
    router_of l router_new = Some m → router_at m p = Some (i, ps) → i ∈ l.*2;
  set_members pats s p i : set_new pats = Some s →
    i ∈ set_matches s p ↔
    ∃ pat re, pats !! i = Some pat ∧ regex_new pat = Some re ∧ is_match re p = true;
  set_ascending pats s p : set_new pats = Some s → StronglySorted lt (set_matches s p);
}.

Lemma compile_routes_ok routes t : compile_routes routes = Ok t →
  router_of (entries Exact 0 routes) router_new = Some (exact t) ∧
  prefix_trie t = build_trie (key_of <$> entries Prefix 0 routes) trie_new ∧
  set_new (entries Regexp 0 routes).*1 = Some (regex_set t) ∧
  regex_indices t = (entries Regexp 0 routes).*2 ∧
  regex_scores t = regex_specificity_score <$> (entries Regexp 0 routes).*1.
Proof.
  unfold compile_routes. intros (t' & Ht & Hs)%result_bind_ok.
  apply compile_from_ok in Ht as (H1 & H2 & H3 & H4 & H5). simpl in *. rewrite H3 in Hs.
  case_match; simplify_eq/=. done.
Qed.

(** * Precedence *)

(** Whether a route's path criterion admits a path. *)
Definition path_matches (routes : list Route) (t : RouteTable) (p : jstr) (i : nat) : Prop :=
  ∃ r, routes !! i = Some r ∧
    match kind_of r with
    | Exact => ∃ ps, router_at (exact t) p = Some (i, ps)
    | Regexp => ∃ re, regex_new (value_of r) = Some re ∧ is_match re p = true
    | Prefix => trim_slashes (value_of r) `prefix_of` p
    end.

(** Exact before regular expressions before prefixes; among expressions the
    higher score, among prefixes the longer one, then the order of declaration. *)
Definition rank (r : Route) (i : nat) : Z * Z * Z :=
  match kind_of r with
  | Exact => (0, 0, Z.of_nat i)
  | Regexp => (1, - regex_specificity_score (value_of r), Z.of_nat i)
  | Prefix => (2, - Z.of_nat (length (utf8_bytes (trim_slashes (value_of r)))), Z.of_nat i)
  end%Z.

Definition before (a b : Z * Z * Z) : Prop :=
  (a.1.1 < b.1.1 ∨ a.1.1 = b.1.1 ∧ (a.1.2 < b.1.2 ∨ a.1.2 = b.1.2 ∧ a.2 < b.2))%Z.

Definition precedes (routes : list Route) (i j : nat) : Prop :=
  ∃ r r', routes !! i = Some r ∧ routes !! j = Some r' ∧ before (rank r i) (rank r' j).

Lemma precedes_irrefl routes i : ¬ precedes routes i i.
Proof. intros (r & r' & H1 & H2 & Hb). simplify_eq. unfold before in Hb. lia. Qed.

Lemma trim_start_suffix ws s : ∃ a, s = a ++ trim_start ws s.
Proof.
  induction s as [|c s [a IH]]; simpl; [by exists []|]. destruct (ws c); [|by exists []].
  exists (c :: a). simpl. by rewrite <- IH.
Qed.

Lemma trim_slashes_prefix s : ∃ r, s = trim_slashes s ++ r.
Proof.
  destruct (trim_start_suffix (N.eqb 47) (reverse s)) as [a Ha]. exists (reverse a).
  unfold trim_slashes. rewrite <- reverse_app, <- Ha. symmetry. apply reverse_involutive.
Qed.

Lemma trim_slashes_valid s : forallb is_char s = true → forallb is_char (trim_slashes s) = true.
Proof.
  destruct (trim_slashes_prefix s) as [r Hr]. rewrite Hr at 1. rewrite forallb_app.
  by intros [? _]%andb_true_iff.
Qed.

Context {laws : CratesLaws} (routes : list Route) (t : RouteTable) (p : jstr).
Hypothesis compiled : compile_routes routes = Ok t.
Hypothesis valid_path : forallb is_char p = true.
Hypothesis valid_values : Forall (λ r, forallb is_char (value_of r) = true) routes.

(** The three parts of the candidates. *)
Definition exact_part : list route_hit := match router_at (exact t) p with Some m => [m] | None => [] end.
Definition regex_part : list nat :=
  (λ m, index_at (regex_indices t) m.2) <$>
    sort_desc ((λ i, (score_at (regex_scores t) i, i)) <$> set_matches (regex_set t) p).
Definition prefix_part : list nat := concat (reverse (levels (utf8_bytes p) (prefix_trie t))).

Lemma candidates_parts :
  find_candidates t p = exact_part ++ ((λ i, (i, [])) <$> regex_part) ++ ((λ i, (i, [])) <$> prefix_part).
Proof.
  unfold find_candidates, regex_part, prefix_part. rewrite sort_short, concat_collect.
  by rewrite <- list_fmap_compose.
Qed.

Lemma route_valid i r : routes !! i = Some r → forallb is_char (trim_slashes (value_of r)) = true.
Proof using valid_values.
  intros Hr. apply trim_slashes_valid. rewrite list.Forall_lookup in valid_values. by eapply valid_values.
Qed.

Lemma exact_part_spec c : c ∈ exact_part ↔
  router_at (exact t) p = Some c ∧ ∃ r, routes !! c.1 = Some r ∧ kind_of r = Exact.
Proof using compiled laws.
  destruct (compile_routes_ok _ _ compiled) as (Hx & _). unfold exact_part.
  destruct (router_at (exact t) p) as [[i ps]|] eqn:Ha;
    [|split; [by intros ?%not_elem_of_nil|by intros [? _]]].
  rewrite list_elem_of_singleton. split; [|by intros [[= <-] _]]. intros ->. split; [done|].
  pose proof (at_inserted _ _ _ _ _ Hx Ha) as Hi.
  apply list_elem_of_fmap in Hi as ([v j] & -> & Hi). apply elem_of_entries_0 in Hi as (r & Hr & Hk & _). by exists r.
Qed.

Lemma prefix_part_spec i : i ∈ prefix_part ↔
  ∃ r, routes !! i = Some r ∧ kind_of r = Prefix ∧ trim_slashes (value_of r) `prefix_of` p.
Proof using compiled valid_path valid_values.
  destruct (compile_routes_ok _ _ compiled) as (_ & Ht & _). unfold prefix_part. rewrite Ht.
  setoid_rewrite list_elem_of_In at 1. rewrite in_concat.
  transitivity (∃ l, l ∈ levels (utf8_bytes p) (build_trie (key_of <$> entries Prefix 0 routes) trie_new) ∧ i ∈ l).
  { split; intros (l & Hl & Hi); exists l; rewrite <- ?list_elem_of_In, ?elem_of_reverse in *; done. }
  rewrite elem_of_levels. setoid_rewrite lookup_build. setoid_rewrite lookup_new. simpl.
  setoid_rewrite list_elem_of_fmap. split.
  - intros (q & Hq & [q' j] & -> & [Hf (e & He & Hin)%list_elem_of_fmap]%list_elem_of_filter). simpl in Hf.
    destruct e as [v j']. unfold key_of in He. simplify_eq/=. apply elem_of_entries_0 in Hin as (r & Hr & Hk & <-).
    exists r. split; [done|]. split; [done|]. apply utf8_prefix; [by eapply route_valid|done..].
  - intros (r & Hr & Hk & Hp). exists (utf8_bytes (trim_slashes (value_of r))).
    split; [by apply utf8_prefix; [eapply route_valid| |]|].
    exists (utf8_bytes (trim_slashes (value_of r)), i). split; [done|]. apply list_elem_of_filter.
    split; [done|]. apply list_elem_of_fmap. exists (value_of r, i). split; [done|].
    apply elem_of_entries_0. by exists r.
Qed.

Lemma matched_entry k m : k ∈ set_matches (regex_set t) p → m = (score_at (regex_scores t) k, k) →
  ∃ v i r, entries Regexp 0 routes !! m.2 = Some (v, i) ∧ m.1 = regex_specificity_score v ∧
    index_at (regex_indices t) m.2 = i ∧ routes !! i = Some r ∧ kind_of r = Regexp ∧ value_of r = v ∧
    ∃ re, regex_new v = Some re ∧ is_match re p = true.
Proof using compiled laws.
  destruct (compile_routes_ok _ _ compiled) as (_ & _ & Hs & Hi & Hc).
  intros (pat & re & Hk & Hre & Hm)%(set_members _ _ _ _ Hs) ->. simpl.
  apply list_lookup_fmap_Some in Hk as ([v i] & -> & Hk). simpl in *.
  assert (Hin : (v, i) ∈ entries Regexp 0 routes) by (apply list_elem_of_lookup; by exists k).
  apply elem_of_entries_0 in Hin as (r & Hr & Hkind & Hv). exists v, i, r. rewrite Hc, Hi.
  unfold score_at, index_at. rewrite !list_lookup_fmap, Hk. simpl. eauto 10.
Qed.

Lemma regex_part_spec i : i ∈ regex_part ↔
  ∃ r, routes !! i = Some r ∧ kind_of r = Regexp ∧
    ∃ re, regex_new (value_of r) = Some re ∧ is_match re p = true.
Proof using compiled laws.
  destruct (compile_routes_ok _ _ compiled) as (_ & _ & Hs & Hi & Hc).
  unfold regex_part. rewrite list_elem_of_fmap. split.
  - intros (m & -> & Hm). rewrite sort_desc_perm in Hm. apply list_elem_of_fmap in Hm as (k & -> & Hk).
    destruct (matched_entry k _ Hk eq_refl) as (v & i & r & _ & _ & -> & Hr & Hkind & <- & Hre). eauto.
  - intros (r & Hr & Hk & re & Hre & Hm).
    assert (Hin : (value_of r, i) ∈ entries Regexp 0 routes) by (apply elem_of_entries_0; eauto).
    apply list_elem_of_lookup in Hin as [k Hin]. exists (score_at (regex_scores t) k, k). split.
    + simpl. unfold index_at. by rewrite Hi, list_lookup_fmap, Hin.
    + rewrite sort_desc_perm. apply list_elem_of_fmap. exists k. split; [done|].
      apply (set_members _ _ _ _ Hs). exists (value_of r), re. by rewrite list_lookup_fmap, Hin.
Qed.

Lemma regex_part_sorted : StronglySorted (precedes routes) regex_part.
Proof using compiled laws.
  destruct (compile_routes_ok _ _ compiled) as (_ & _ & Hs & _).
  unfold regex_part.
  set (P := λ m, ∃ k, k ∈ set_matches (regex_set t) p ∧ m = (score_at (regex_scores t) k, k)).
  eapply (StronglySorted_fmap _ (λ x y, P x ∧ P y ∧ beats x y)); [|apply sorted_with].
  - intros m m' ((k & Hk & Em) & (k' & Hk' & Em') & Hb).
    destruct (matched_entry k m Hk Em) as (v & i & r & He & Hsc & -> & Hr & Hkd & Hv & _).
    destruct (matched_entry k' m' Hk' Em') as (v' & i' & r' & He' & Hsc' & -> & Hr' & Hkd' & Hv' & _).
    exists r, r'. split; [done|]. split; [done|]. unfold rank, before. rewrite Hkd, Hkd', Hv, Hv'. simpl.
    unfold beats in Hb. rewrite Hsc, Hsc' in Hb. destruct Hb as [Hb|[Hb Hlt]]; [lia|].
    pose proof (sorted_lookup _ _ _ _ _ _ (entries_sorted Regexp 0 routes) Hlt He He') as Hii. simpl in Hii. lia.
  - rewrite sort_desc_perm. apply list.Forall_fmap, list.Forall_forall. intros k Hk. by exists k.
  - apply sort_desc_sorted. eapply StronglySorted_fmap; [|apply (set_ascending _ _ p Hs)]. done.
Qed.

(** The prefixes that end at a node, in order of declaration. *)
Lemma level_sorted q : StronglySorted lt (lookup_at q (prefix_trie t)).
Proof using compiled.
  destruct (compile_routes_ok _ _ compiled) as (_ & Ht & _).
  rewrite Ht, lookup_build, lookup_new. simpl.
  pose proof (entries_sorted Prefix 0 routes) as Hs. revert Hs.
  generalize (entries Prefix 0 routes). intros l Hl. induction Hl as [|[v i] l Hl IH Hx]; csimpl; [constructor|].
  rewrite filter_cons. case_decide; csimpl; [|done]. constructor; [done|].
  apply list.Forall_forall. intros j ([q' j'] & -> & [_ Hj]%list_elem_of_filter)%list_elem_of_fmap.
  apply list_elem_of_fmap in Hj as ([v' j''] & [= -> ->] & Hj). rewrite list.Forall_forall in Hx.
  apply (Hx _ Hj).
Qed.

Lemma level_member q i : i ∈ lookup_at q (prefix_trie t) →
  ∃ r, routes !! i = Some r ∧ kind_of r = Prefix ∧ q = utf8_bytes (trim_slashes (value_of r)).
Proof using compiled.
  destruct (compile_routes_ok _ _ compiled) as (_ & Ht & _).
  rewrite Ht, lookup_build, lookup_new. simpl.
  intros ([q' j] & -> & [Hq Hj]%list_elem_of_filter)%list_elem_of_fmap. simpl in Hq. subst q'.
  apply list_elem_of_fmap in Hj as ([v j'] & [= -> ->] & Hj). apply elem_of_entries_0 in Hj as (r & Hr & Hk & <-).
  by exists r.
Qed.

Lemma level_rank k l i : levels (utf8_bytes p) (prefix_trie t) !! k = Some l → i ∈ l →
  ∃ r, routes !! i = Some r ∧ rank r i = (2, - Z.of_nat k, Z.of_nat i)%Z.
Proof using compiled.
  intros Hk Hi. pose proof (lookup_lt_Some _ _ _ Hk) as Hlt.
  pose proof (levels_length (utf8_bytes p) (prefix_trie t)) as Hlen.
  apply levels_lookup in Hk as ->. apply level_member in Hi as (r & Hr & Hkd & Hq).
  exists r. split; [done|]. unfold rank. rewrite Hkd, <- Hq, length_take. do 2 f_equal. lia.
Qed.

Lemma prefix_part_sorted : StronglySorted (precedes routes) prefix_part.
Proof using compiled.
  apply sorted_concat.
  - apply list.Forall_lookup. intros k l [Hk _]%reverse_lookup_Some.
    apply sorted_by_lookup. intros a b i j Hab Hi Hj.
    pose proof (level_sorted (take (length (levels (utf8_bytes p) (prefix_trie t)) - S k) (utf8_bytes p))) as Hs.
    rewrite <- (levels_lookup _ _ _ _ Hk) in Hs.
    pose proof (sorted_lookup _ _ _ _ _ _ Hs Hab Hi Hj) as Hij.
    apply list_elem_of_lookup_2 in Hi, Hj.
    destruct (level_rank _ _ _ Hk Hi) as (r & Hr & Er), (level_rank _ _ _ Hk Hj) as (r' & Hr' & Er').
    exists r, r'. rewrite Er, Er'. unfold before. simpl. eauto with lia.
  - apply sorted_by_lookup. intros a b l l' Hab [Hl _]%reverse_lookup_Some [Hl' Hb]%reverse_lookup_Some.
    intros i j Hi Hj.
    destruct (level_rank _ _ _ Hl Hi) as (r & Hr & Er), (level_rank _ _ _ Hl' Hj) as (r' & Hr' & Er').
    exists r, r'. rewrite Er, Er'. unfold before. simpl. split; [done|]. split; [done|]. lia.
Qed.

(** * The candidates, and the first of them that applies *)

Definition part_indices : list nat := exact_part.*1 ++ regex_part ++ prefix_part.

Lemma candidates_indices : (find_candidates t p).*1 = part_indices.
Proof.
  assert (E : ∀ l : list nat, (((λ i, (i, [])) <$> l) : list route_hit).*1 = l).
  { intros l. induction l as [|i l IH]; [done|]. csimpl. by rewrite IH. }
  by rewrite candidates_parts, !fmap_app, !E.
Qed.

Lemma candidates_complete i : i ∈ (find_candidates t p).*1 ↔ path_matches routes t p i.
Proof using compiled laws valid_path valid_values.
  rewrite candidates_indices. unfold part_indices.
  rewrite !elem_of_app, regex_part_spec, prefix_part_spec, list_elem_of_fmap. setoid_rewrite exact_part_spec.
  unfold path_matches. split.
  - intros [([j ps] & -> & Ha & r & Hr & Hk)|[(r & Hr & Hk & Hm)|(r & Hr & Hk & Hm)]];
      exists r; rewrite Hk; eauto.
  - intros (r & Hr & Hm). destruct (kind_of r) eqn:Hk.
    + destruct Hm as [ps Ha]. left. exists (i, ps). eauto.
    + right; right. eauto.
    + right; left. eauto.
Qed.

Lemma candidates_sorted : StronglySorted (precedes routes) (find_candidates t p).*1.
Proof using compiled laws valid_path valid_values.
  rewrite candidates_indices. unfold part_indices. repeat apply StronglySorted_app_2.
  - intros i j Hi Hj. apply list_elem_of_fmap in Hi as (c & -> & (_ & r & Hr & Hk)%exact_part_spec).
    exists (r). rewrite elem_of_app, regex_part_spec, prefix_part_spec in Hj.
    destruct Hj as [(r' & Hr' & Hk' & _)|(r' & Hr' & Hk' & _)]; exists r'; unfold rank, before;
      rewrite Hk, Hk'; simpl; eauto with lia.
  - unfold exact_part. destruct (router_at (exact t) p); repeat constructor.
  - intros i j (r & Hr & Hk & _)%regex_part_spec (r' & Hr' & Hk' & _)%prefix_part_spec.
    exists r, r'. unfold rank, before. rewrite Hk, Hk'. simpl. eauto with lia.
  - apply regex_part_sorted.
  - apply prefix_part_sorted.
Qed.

(** Whether all the criteria of a route admit a request. *)
Definition admits (req : Request) (i : nat) : Prop :=
  ∃ r, routes !! i = Some r ∧ route_applies (r_match r) (accept_media_type routes i) req = true.

Lemma first_applying_some req cs c : first_applying routes req cs = Some c →
  ∃ k, cs !! k = Some c ∧ admits req c.1 ∧ ∀ l d, (l < k)%nat → cs !! l = Some d → ¬ admits req d.1.
Proof.
  clear compiled valid_path valid_values.
  induction cs as [|d cs IH]; simpl; [done|]. unfold admits in *.
  destruct (routes !! d.1) as [r|] eqn:Hr; [destruct (route_applies _ _ _) eqn:Ha|].
  - intros [= <-]. exists O. split; [done|]. split; [eauto|]. intros; lia.
  - intros (k & Hk & Hc & Hl)%IH. exists (S k). split; [done|]. split; [done|].
    intros [|l] d' Hlk Hd'; simplify_eq/=; [by intros (r' & Hr' & Ha'); congruence|]. apply (Hl l); [lia|done].
  - intros (k & Hk & Hc & Hl)%IH. exists (S k). split; [done|]. split; [done|].
    intros [|l] d' Hlk Hd'; simplify_eq/=; [by intros (r' & Hr' & Ha'); congruence|]. apply (Hl l); [lia|done].
Qed.

Lemma first_applying_none req cs c : first_applying routes req cs = None → c ∈ cs → ¬ admits req c.1.
Proof.
  clear compiled valid_path valid_values.
  induction cs as [|d cs IH]; simpl; [by intros _ ?%not_elem_of_nil|]. unfold admits in *.
  destruct (routes !! d.1) as [r|] eqn:Hr; [destruct (route_applies _ _ _) eqn:Ha; [done|]|];
    intros Hn [->|Hc]%elem_of_cons; try (by apply IH); intros (r' & Hr' & Ha'); congruence.
Qed.

(** C13: The dispatch.  A request is served by the route of highest precedence
    among those whose path criterion and other criteria all admit it: an exact
    template, then the regular expression of highest score, then the longest
    prefix, in order of declaration among equals; only a template passes
    parameters on.  The request is unrouted only if no route admits it. *)
Theorem dispatch_precedence req :
  match resolve routes t p req with
  | Some (i, ps) =>
      path_matches routes t p i ∧ admits req i ∧
      (∀ j, path_matches routes t p j → admits req j → j = i ∨ precedes routes i j) ∧
      (router_at (exact t) p = Some (i, ps) ∨ ps = [])
  | None => ∀ j, path_matches routes t p j → ¬ admits req j
  end.
Proof using compiled laws valid_path valid_values.
  unfold resolve. destruct (first_applying _ _ _) as [[i ps]|] eqn:E.
  - apply first_applying_some in E as (k & Hk & Ha & Hl).
    assert (Hi : (find_candidates t p).*1 !! k = Some i) by (by rewrite list_lookup_fmap, Hk).
    split; [|split; [done|split]].
    + apply candidates_complete. by eapply list_elem_of_lookup_2.
    + intros j Hj Haj. apply candidates_complete, list_elem_of_lookup in Hj as [l Hj].
      destruct (lt_eq_lt_dec k l) as [[Hlt| ->]|Hlt].
      * right. by apply (sorted_lookup _ _ _ _ _ _ candidates_sorted Hlt).
      * left. congruence.
      * apply list_lookup_fmap_Some in Hj as (d & -> & Hd). by destruct (Hl l d Hlt Hd).
    + apply list_elem_of_lookup_2 in Hk. rewrite candidates_parts, !elem_of_app in Hk.
      destruct Hk as [[Hx _]%exact_part_spec|[(? & [= _ ->] & _)%list_elem_of_fmap|
        (? & [= _ ->] & _)%list_elem_of_fmap]]; eauto.
  - intros j Hj. apply candidates_complete, list_elem_of_fmap in Hj as (c & -> & Hc).
    by eapply first_applying_none.
Qed.

End Promise.

(** * A lookup is the first candidate *)

(** Two ways to look a path up agree.  Whatever the table, [find_full],
    which keeps the best of each kind as it goes, returns the first candidate
    of [find_candidates], parameters included. *)
Theorem find_full_first `{Crates} t p : find_full t p = head (find_candidates t p).
Proof.
  unfold find_full, find_candidates. rewrite sort_short, best_regex_head, longest_match_head.
  destruct (router_at (exact t) p) as [m|]; [done|]. simpl.
  destruct (sort_desc _) as [|[s i] l]; [|done]. simpl.
  by destruct (concat _).
Qed.

(** * The trie is a linear scan *)

Lemma concat_reverse_nil (ls : list (list nat)) :
  (∀ k l, ls !! k = Some l → l = []) → concat (reverse ls) = [].
Proof.
  induction ls as [|x ls IH]; intros Hls; [done|]. rewrite reverse_cons, concat_app.
  rewrite (Hls O x eq_refl), IH; [done|]. intros k l Hk. by apply (Hls (S k)).
Qed.

Lemma head_app_some {A} (l k : list A) x : head l = Some x → head (l ++ k) = Some x.
Proof. by destruct l. Qed.

Lemma head_deepest (ls : list (list nat)) k i l : ls !! k = Some (i :: l) →
  (∀ k' l', (k < k')%nat → ls !! k' = Some l' → l' = []) → head (concat (reverse ls)) = Some i.
Proof.
  revert k. induction ls as [|x ls IH]; intros k Hk Hdeep; [done|].
  rewrite reverse_cons, concat_app. destruct k as [|k]; simplify_eq/=.
  - rewrite concat_reverse_nil; [done|]. intros k' l' Hk'. apply (Hdeep (S k') l'); [lia|done].
  - apply head_app_some, (IH k Hk). intros k' l' Hlt Hk'. apply (Hdeep (S k') l'); [lia|done].
Qed.

(** What the scan has kept. *)
Definition scan_ok (path : list N) (es : list (list N * nat)) (best : option (nat * nat)) : Prop :=
  match best with
  | None => ∀ e, e ∈ es → ¬ e.1 `prefix_of` path
  | Some (len, i) =>
      (len ≤ length path)%nat ∧
      head ((filter (λ e, e.1 = take len path) es).*2) = Some i ∧
      ∀ e, e ∈ es → e.1 `prefix_of` path → (length e.1 ≤ len)%nat
  end.

Lemma prefix_take (q path : list N) : q `prefix_of` path → take (length q) path = q.
Proof. intros [r ->]. apply take_app_length. Qed.

Lemma scan_step_ok path es best e : scan_ok path es best →
  scan_ok path (es ++ [e]) (scan_step path best e).
Proof.
  intros Hok. unfold scan_step. destruct (decide (e.1 `prefix_of` path)) as [Hp|Hp].
  - assert (Hnew : (∀ e', e' ∈ es → e'.1 `prefix_of` path → (length e'.1 < length e.1)%nat) →
                   scan_ok path (es ++ [e]) (Some (length e.1, e.2))).
    { intros Hless. split; [by apply prefix_length|]. split.
      - rewrite (prefix_take _ _ Hp), list.filter_app, fmap_app, list_filter_none.
        + by rewrite filter_cons_True by done.
        + apply list.Forall_forall. intros e' He' E.
          pose proof (Hless e' He' ltac:(by rewrite E)) as Hl. rewrite E in Hl. lia.
      - intros e' [He'| ->%list_elem_of_singleton]%elem_of_app Hp'; [|done].
        specialize (Hless e' He' Hp'). lia. }
    destruct best as [[len i]|].
    + destruct Hok as (Hlen & Hhead & Hmax). destruct (Nat.ltb_spec len (length e.1)) as [Hlt|Hge].
      * apply Hnew. intros e' He' Hp'. specialize (Hmax e' He' Hp'). lia.
      * split; [done|]. split.
        -- rewrite list.filter_app, fmap_app. by apply head_app_some.
        -- intros e' [He'| ->%list_elem_of_singleton]%elem_of_app Hp'; [by apply Hmax|done].
    + apply Hnew. intros e' He' Hp'. by destruct (Hok e' He' Hp').
  - destruct best as [[len i]|].
    + destruct Hok as (Hlen & Hhead & Hmax). split; [done|]. split.
      * rewrite list.filter_app, fmap_app. by apply head_app_some.
      * intros e' [He'| ->%list_elem_of_singleton]%elem_of_app Hp'; [by apply Hmax|done].
    + intros e' [He'| ->%list_elem_of_singleton]%elem_of_app; [by apply Hok|done].
Qed.

Lemma scan_all_ok path es : scan_ok path es (foldl (scan_step path) None es).
Proof.
  induction es as [|e es IH] using rev_ind; [by intros e ?%not_elem_of_nil|].
  rewrite foldl_app. by apply scan_step_ok.
Qed.

(** The trie replaces a scan.  For every list of prefixes and every path,
    the longest match in the trie built of the prefixes is the one found by
    going through the list and keeping the longest prefix of the path, the
    first declared of equals. *)
Theorem trie_is_scan path es : longest_match path (build_trie es trie_new) = linear_scan path es.
Proof.
  rewrite longest_match_head, concat_collect. unfold linear_scan.
  assert (Hl : ∀ k l, levels path (build_trie es trie_new) !! k = Some l →
                 l = (filter (λ e, e.1 = take k path) es).*2).
  { intros k l ->%levels_lookup. by rewrite lookup_build, lookup_new. }
  pose proof (scan_all_ok path es) as Hok. destruct (foldl _ _ _) as [[len i]|]; simpl.
  - destruct Hok as (Hlen & Hhead & Hmax).
    assert (Hat : lookup_at (take len path) (build_trie es trie_new)
                  = (filter (λ e, e.1 = take len path) es).*2) by (by rewrite lookup_build, lookup_new).
    destruct ((filter (λ e, e.1 = take len path) es).*2) as [|i' l] eqn:E; [done|]. injection Hhead as ->.
    apply (head_deepest _ len i l).
    + rewrite lookup_levels, Hat; rewrite ?Hat; done.
    + intros k' l' Hlt Hk'. pose proof (lookup_lt_Some _ _ _ Hk') as Hk.
      pose proof (levels_length path (build_trie es trie_new)) as Hll.
      rewrite (Hl _ _ Hk'). rewrite list_filter_none; [done|]. apply list.Forall_forall.
      intros e He Ee. assert (Hp : e.1 `prefix_of` path) by (rewrite Ee; apply prefix_take_l || (eexists; symmetry; apply take_drop)).
      specialize (Hmax e He Hp). rewrite Ee, length_take in Hmax. lia.
  - rewrite concat_reverse_nil; [done|]. intros k l Hk. rewrite (Hl _ _ Hk).
    rewrite list_filter_none; [done|]. apply list.Forall_forall. intros e He Ee.
    apply (Hok e He). rewrite Ee. eexists. symmetry. apply take_drop.
Qed.

(** * A table *)

(** Templates without parameters, and expressions that match one text. *)
#[local] Instance plain_crates : Crates := {
  MatchIt := list (jstr * nat);
  router_new := [];
  router_insert v i m := if bool_decide (v ∈ m.*1) then None else Some (m ++ [(v, i)]);
  router_at m p := match list_find (λ e, e.1 = p) m with Some (_, e) => Some (e.2, []) | None => None end;
  Regex := jstr;
  regex_new s := match s with [] => None | _ => Some s end;
  is_match re p := bool_decide (re = p);
  RegexSet := list jstr;
  set_new pats := if existsb (λ s, match s with [] => true | _ => false end) pats then None else Some pats;
  set_matches s p := filter (λ i, s !! i = Some p) (seq 0 (length s));
}.

Lemma plain_router_of l m m' : router_of l m = Some m' → m' = m ++ l.
Proof.
  revert m. induction l as [|[v i] l IH]; intros m; simpl; [intros [= <-]; by rewrite app_nil_r|].
  case_bool_decide; [done|]. simpl. intros ->%IH. by rewrite <- app_assoc.
Qed.

#[local] Instance plain_laws : CratesLaws.
Proof.
  split.
  - intros l m p i ps ->%plain_router_of. simpl.
    destruct (list_find _ _) as [[k e]|] eqn:E; [|done]. intros [= <- <-].
    apply list_find_Some in E as (Hk & _). apply list_elem_of_fmap. exists e. split; [done|].
    by eapply list_elem_of_lookup_2.
  - intros pats s p i. simpl. destruct (existsb _ pats) eqn:He; [done|]. intros [= <-].
    rewrite list_elem_of_filter, elem_of_seq. split.
    + intros [Hi _]. exists p, p. split; [done|]. rewrite bool_decide_true by done. split; [|done].
      destruct p as [|c p]; [|done]. exfalso. apply not_true_iff_false in He. apply He, existsb_exists.
      exists []. split; [|done]. apply list_elem_of_In. by eapply list_elem_of_lookup_2.
    + intros (pat & re & Hi & Hre & ->%bool_decide_eq_true). split.
      * destruct pat; [done|]. by simplify_eq.
      * apply lookup_lt_Some in Hi. lia.
  - intros pats s p. simpl. destruct (existsb _ pats); [done|]. intros _.
    generalize (length s) O. intros n. induction n as [|n IH]; intros a; simpl; [constructor|].
    rewrite filter_cons. case_decide; [|apply IH]. constructor; [apply IH|].
    apply list.Forall_forall. intros i [_ Hi]%list_elem_of_filter. apply elem_of_seq in Hi. lia.
Qed.

Definition on_host (h : string) (v : string) : Route :=
  MkRoute (u h) (MkMatch (MatchPath Prefix (u v)) (Some (u h)) [] [] [] [] None) (Proxy None).

(** Two hosts that share a prefix, a longer prefix for one method, a template. *)
Definition sample_routes : list Route :=
  [on_host "a.test" "/shop/"; on_host "b.test" "/shop";
   MkRoute (u "post") (MkMatch (MatchPath Prefix (u "/shop/cart")) None [u "post"] [] [] [] None) Answer;
   MkRoute (u "home") (MkMatch (MatchPath Exact (u "/shop/home")) None [] [] [] [] None) Answer].

Definition sample_request (m h : string) : Request :=
  MkRequest (u m) None (Some (Some (u h))) (λ _, None) [] [].

Definition sample_table : RouteTable :=
  match compile_routes sample_routes with
  | Ok t => t
  | Err _ => MkTable [] trie_new [] [] []
  end.

Example sample_resolves :
  (λ '(m, h, p), resolve sample_routes sample_table (u p) (sample_request m h)) <$>
    [("GET", "a.test", "/shop/cart/1"); ("GET", "B.test:8080", "/shop/cart/1");
     ("POST", "b.test", "/shop/cart/1"); ("GET", "c.test", "/shop/home"); ("GET", "c.test", "/shop")]%string
  = [Some (0, []); Some (1, []); Some (2, []); Some (3, []); None].
Proof. reflexivity. Qed.

(** What looks a path up without the request ignores the other criteria: the
    background refresh of a cached response (response_cache.rs) and the replay of
    a captured request (replay.rs) take the route of the other host here. *)
Example refresh_misroutes :
  resolve sample_routes sample_table (u "/shop/1") (sample_request "GET" "b.test") = Some (1, []) ∧
  find_full sample_table (u "/shop/1") = Some (0, []).
Proof. split; reflexivity. Qed.

(** A prefix has no boundary. *)
Example prefix_without_boundary : find sample_table (u "/shopping") = Some 0.
Proof. reflexivity. Qed.

Lemma dispatch_precedence_witness :
  compile_routes sample_routes = Ok sample_table ∧
  match resolve sample_routes sample_table (u "/shop/cart/1") (sample_request "GET" "b.test") with
  | Some (i, ps) =>
      path_matches sample_routes sample_table (u "/shop/cart/1") i ∧
      admits sample_routes (sample_request "GET" "b.test") i ∧
      (∀ j, path_matches sample_routes sample_table (u "/shop/cart/1") j →
            admits sample_routes (sample_request "GET" "b.test") j → j = i ∨ precedes sample_routes i j) ∧
      (router_at (exact sample_table) (u "/shop/cart/1") = Some (i, ps) ∨ ps = [])
  | None => ∀ j, path_matches sample_routes sample_table (u "/shop/cart/1") j →
                 ¬ admits sample_routes (sample_request "GET" "b.test") j
  end.
Proof.
  split; [reflexivity|].
  refine (dispatch_precedence (laws := plain_laws) sample_routes sample_table (u "/shop/cart/1")
            _ _ _ (sample_request "GET" "b.test")).
  - reflexivity.
  - reflexivity.
  - apply (bool_decide_unpack _). vm_compute. exact I.
Defined.
