(* ===== verification/Rewrite.v ===== *)
(** Path rewriting: the compiled substitutions (snapshot/mod.rs:
    [CompiledSubstitution], [validate_rewrite]) and their use by the proxy
    (dataplane/proxy.rs: [expand_substitution], [apply_path_rewrite] and the
    block that sets the forwarded URI). *)

From S2P Require Import Prelude JsNumber Text Utf8 Affinity Router Routing.
Local Open Scope N_scope.

(** * References *)

Definition is_dec (c : N) : bool := between 48 57 c.

Definition dec_value (ds : jstr) : Z := foldl (λ v d, v * 10 + (Z.of_N d - 48))%Z 0%Z ds.

(** [str::parse::<usize>]: digits, after a [+] if any, below 2 ^ 64. *)
Definition parse_usize (s : jstr) : option Z :=
  let ds := match s with 43 :: ds => ds | _ => s end in
  if bool_decide (ds = []) || negb (forallb is_dec ds) then None
  else if (dec_value ds <? 2 ^ 64)%Z then Some (dec_value ds) else None.

Definition is_ident (c : N) : bool := is_alphanumeric c || (c =? 95).

(** The characters up to the first that is not [f], and the others. *)
Fixpoint span (f : N → bool) (s : jstr) : jstr * jstr :=
  match s with
  | [] => ([], [])
  | c :: s' => if f c then let '(a, b) := span f s' in (c :: a, b) else ([], s)
  end.

Inductive SubstSegment : Type :=
  | Literal (s : jstr)
  | Numeric (i : Z)
  | Named (name : jstr).

Record CompiledSubstitution : Type := Subst { segments : list SubstSegment; capacity : Z }.

(** What [regex::Captures] gives: groups by number and by name. *)
Record Captures : Type := MkCaptures { get : Z → option jstr; group : jstr → option jstr }.

(** * Compiling a substitution *)

Definition byte_len (s : jstr) : Z := Z.of_nat (length (utf8_bytes s)).

(** The literal text so far becomes a segment, unless it is empty. *)
Definition flush (literal : jstr) (c : CompiledSubstitution) : CompiledSubstitution :=
  match literal with
  | [] => c
  | _ => Subst (segments c ++ [Literal literal]) (capacity c + byte_len literal)
  end.

Definition segment_of (name : jstr) : SubstSegment :=
  match parse_usize name with
  | Some i => Numeric i
  | None => Named name
  end.

Definition push_segment (name literal : jstr) (c : CompiledSubstitution) : CompiledSubstitution :=
  let c := flush literal c in Subst (segments c ++ [segment_of name]) (capacity c).

(** The reference after a dollar: its name and what follows it. *)
Definition reference (after : jstr) : option (jstr * jstr) :=
  match after with
  | 123 :: braced => split_once 125 braced
  | _ => match span is_ident after with
         | ([], _) => None
         | r => Some r
         end
  end.

(** The loop of [compile]; [None] is an exhausted fuel. *)
Fixpoint compile_loop (fuel : nat) (rest literal : jstr) (c : CompiledSubstitution)
    : option CompiledSubstitution :=
  match fuel with
  | O => None
  | S fuel =>
      match split_once 36 rest with
      | None => Some (flush (literal ++ rest) c)
      | Some (pre, after) =>
          let literal := literal ++ pre in
          match after with
          | [] => Some (flush (literal ++ [36]) c)
          | _ =>
              match reference after with
              | Some (name, rest) => compile_loop fuel rest [] (push_segment name literal c)
              | None => compile_loop fuel after (literal ++ [36]) c
              end
          end
      end
  end.

Definition compile_substitution (s : jstr) : option CompiledSubstitution :=
  compile_loop (S (length s)) s [] (Subst [] 0).

(** * Expanding *)

Definition param (name : jstr) (params : list (jstr * jstr)) : option jstr :=
  snd <$> (snd <$> list_find (λ kv, kv.1 = name) params).

Definition expand_segment (caps : Captures) (params : list (jstr * jstr)) (seg : SubstSegment) : jstr :=
  match seg with
  | Literal s => s
  | Numeric i => default [] (get caps i)
  | Named name =>
      match group caps name with
      | Some v => v
      | None => default [] (param name params)
      end
  end.

Definition expand (c : CompiledSubstitution) (caps : Captures) (params : list (jstr * jstr)) : jstr :=
  foldl (λ out seg, out ++ expand_segment caps params seg) [] (segments c).

Definition resolve_ref (name : jstr) (caps : Captures) (params : list (jstr * jstr)) : jstr :=
  match parse_usize name with
  | Some i => default [] (get caps i)
  | None => default [] (match group caps name with Some v => Some v | None => param name params end)
  end.

Fixpoint expand_loop (fuel : nat) (caps : Captures) (params : list (jstr * jstr)) (rest out : jstr)
    : option jstr :=
  match fuel with
  | O => None
  | S fuel =>
      match split_once 36 rest with
      | None => Some (out ++ rest)
      | Some (pre, after) =>
          let out := out ++ pre in
          match after with
          | [] => Some (out ++ [36])
          | _ =>
              match reference after with
              | Some (name, rest) => expand_loop fuel caps params rest (out ++ resolve_ref name caps params)
              | None => expand_loop fuel caps params after (out ++ [36])
              end
          end
      end
  end.

Definition expand_substitution (s : jstr) (caps : Captures) (params : list (jstr * jstr)) : option jstr :=
  expand_loop (S (length s)) caps params s [].

(** * Rewriting a path *)

(** [str::strip_prefix]. *)
Fixpoint strip_prefix (prefix s : jstr) : option jstr :=
  match prefix, s with
  | [], _ => Some s
  | c :: prefix, d :: s => if c =? d then strip_prefix prefix s else None
  | _ :: _, [] => None
  end.

Section Rewriting.
Context `{Crates}.

(** [Regex::captures]: the text before the first match, its groups, the text
    after it. *)
Context (captures : Regex → jstr → option (jstr * Captures * jstr)).

Definition rewrite_regex (routes : list Route) (idx : nat) : option Regex :=
  r ← routes !! idx;
  match action r with
  | Proxy (Some (RegexRewrite pattern _)) => regex_new pattern
  | _ => None
  end.

Definition apply_path_rewrite (routes : list Route) (idx : nat) (r : Route) (p : jstr)
    (params : list (jstr * jstr)) : option jstr :=
  match action r with
  | Proxy (Some StripPrefix) =>
      match strip_prefix (trim_slashes (value (path (r_match r)))) p with
      | Some [] => Some (u "/")
      | Some (47 :: rest) => Some (47 :: rest)
      | Some rest => Some (47 :: rest)
      | None => None
      end
  | Proxy (Some (ReplacePrefix prefix replacement)) =>
      rest ← strip_prefix prefix p; Some (replacement ++ rest)
  | Proxy (Some (RegexRewrite _ substitution)) =>
      re ← rewrite_regex routes idx;
      '(pre, caps, post) ← captures re p;
      match compile_substitution substitution with
      | Some subst => Some (pre ++ expand subst caps params ++ post)
      | None => expanded ← expand_substitution substitution caps params; Some (pre ++ expanded ++ post)
      end
  | _ => None
  end.

(** The URI that is forwarded: the rewritten path with the query, when the HTTP
    library parses it, and otherwise the URI as it came. *)
Definition forwarded {Uri} (parse : jstr → option Uri) (inbound : Uri) (p : jstr) (q : option jstr)
    (rewritten : option jstr) : Uri :=
  match rewritten with
  | Some new_path =>
      if bool_decide (new_path = p) then inbound
      else default inbound (parse (match q with Some q => new_path ++ u "?" ++ q | None => new_path end))
  | None => inbound
  end.

End Rewriting.

(** * Validating a rewrite *)

Definition starts_with (c : N) (s : jstr) : bool :=
  match s with
  | d :: _ => c =? d
  | [] => false
  end.

(** [char::is_control]. *)
Definition is_control (c : N) : bool := (c <? 32) || between 127 159 c.

(** The fields at fault. *)
Definition validate_rewrite (rw : PathRewrite) : list string :=
  match rw with
  | StripPrefix => []
  | ReplacePrefix prefix replacement =>
      (if negb (starts_with 47 prefix) then ["action.rewrite.prefix"%string] else []) ++
      (if bool_decide (replacement ≠ []) && negb (starts_with 47 replacement)
       then ["action.rewrite.replacement"%string] else [])
  | RegexRewrite pattern substitution =>
      (if bool_decide (pattern = []) then ["action.rewrite.pattern"%string] else []) ++
      (if bool_decide (substitution = []) then ["action.rewrite.substitution"%string]
       else
         (if negb (starts_with 47 substitution || starts_with 36 substitution || starts_with 123 substitution)
          then ["action.rewrite.substitution"%string] else []) ++
         (if existsb (λ c, is_whitespace c || (c =? 63) || (c =? 35) || is_control c) substitution
          then ["action.rewrite.substitution"%string] else []))
  end.

(** * The two expansions *)

#[local] Arguments N.eqb : simpl never.

Lemma split_once_spec c s a b : split_once c s = Some (a, b) → s = a ++ c :: b.
Proof.
  revert a b. induction s as [|d s IH]; intros a b; simpl; [done|].
  destruct (N.eqb_spec d c) as [->|_]; [by intros [= <- <-]|].
  destruct (split_once c s) as [[a' b']|]; simpl; [|done]. intros [= <- <-]. by rewrite (IH a' b').
Qed.

Lemma span_spec f s : s = (span f s).1 ++ (span f s).2.
Proof.
  induction s as [|c s IH]; simpl; [done|]. destruct (f c); [|done].
  destruct (span f s) as [a b]. simpl in *. by rewrite IH.
Qed.

(** What follows a reference is shorter than the text it was found in. *)
Lemma reference_shrinks after name rest :
  reference after = Some (name, rest) → (length rest < length after)%nat.
Proof.
  unfold reference. intros Hr.
  assert (Hspan : match span is_ident after with ([], _) => None | r => Some r end = Some (name, rest) →
                  (length rest < length after)%nat).
  { pose proof (span_spec is_ident after) as Hs. destruct (span is_ident after) as [[|c a] b]; [done|].
    intros [= <- <-]. rewrite Hs. simpl. rewrite length_app. lia. }
  destruct after as [|c after]; [by apply Hspan|].
  repeat (case_match; try (by apply Hspan)). apply split_once_spec in Hr as ->.
  simpl. rewrite length_app. simpl. lia.
Qed.

Lemma expand_push caps params c seg n :
  expand (Subst (segments c ++ [seg]) n) caps params = expand c caps params ++ expand_segment caps params seg.
Proof. unfold expand. simpl. by rewrite foldl_app. Qed.

Lemma expand_flush literal c caps params :
  expand (flush literal c) caps params = expand c caps params ++ literal.
Proof.
  unfold flush. destruct literal as [|d literal]; [by rewrite app_nil_r|]. by rewrite expand_push.
Qed.

Lemma expand_segment_of name caps params :
  expand_segment caps params (segment_of name) = resolve_ref name caps params.
Proof.
  unfold segment_of, resolve_ref. destruct (parse_usize name); [done|]. simpl.
  by destruct (group caps name).
Qed.

Lemma loops_agree fuel rest literal c caps params : (length rest < fuel)%nat →
  ∃ c', compile_loop fuel rest literal c = Some c' ∧
    expand_loop fuel caps params rest (expand c caps params ++ literal) = Some (expand c' caps params).
Proof.
  revert rest literal c. induction fuel as [|fuel IH]; intros rest literal c Hf; [lia|].
  cbn [compile_loop expand_loop]. destruct (split_once 36 rest) as [[pre after]|] eqn:Es.
  - apply split_once_spec in Es as ->. rewrite length_app in Hf. simpl in Hf.
    destruct after as [|d after].
    { eexists. split; [done|]. by rewrite expand_flush, !app_assoc. }
    destruct (reference (d :: after)) as [[name rest']|] eqn:Er.
    + apply reference_shrinks in Er.
      destruct (IH rest' [] (push_segment name (literal ++ pre) c) ltac:(simpl in *; lia)) as (c' & -> & He).
      exists c'. split; [done|]. rewrite <- He, app_nil_r. unfold push_segment. f_equal.
      by rewrite expand_push, expand_flush, expand_segment_of, !app_assoc.
    + destruct (IH (d :: after) ((literal ++ pre) ++ [36]) c ltac:(simpl in *; lia)) as (c' & -> & He).
      exists c'. split; [done|]. rewrite <- He. f_equal. by rewrite !app_assoc.
  - eexists. split; [done|]. by rewrite expand_flush, !app_assoc.
Qed.

(** The bytes of the literal segments. *)
Definition literal_bytes (segs : list SubstSegment) : Z :=
  foldr Z.add 0%Z ((λ seg, match seg with Literal s => byte_len s | _ => 0%Z end) <$> segs).

Lemma literal_bytes_snoc segs seg :
  literal_bytes (segs ++ [seg]) =
  (literal_bytes segs + match seg with Literal s => byte_len s | _ => 0 end)%Z.
Proof.
  unfold literal_bytes. induction segs as [|s segs IH]; csimpl; [lia|]. rewrite IH. lia.
Qed.

Lemma flush_capacity literal c : capacity c = literal_bytes (segments c) →
  capacity (flush literal c) = literal_bytes (segments (flush literal c)).
Proof.
  intros Hc. destruct literal as [|d literal]; [done|]. cbn [flush segments capacity].
  rewrite literal_bytes_snoc. lia.
Qed.

Lemma compile_capacity fuel rest literal c c' : capacity c = literal_bytes (segments c) →
  compile_loop fuel rest literal c = Some c' → capacity c' = literal_bytes (segments c').
Proof.
  revert rest literal c. induction fuel as [|fuel IH]; intros rest literal c Hc; [done|]. simpl.
  destruct (split_once 36 rest) as [[pre after]|]; [|intros [= <-]; by apply flush_capacity].
  destruct after as [|d after]; [intros [= <-]; by apply flush_capacity|].
  destruct (reference (d :: after)) as [[name rest']|]; apply IH; [|done].
  pose proof (flush_capacity (literal ++ pre) c Hc) as Hf. unfold push_segment. simpl.
  rewrite literal_bytes_snoc, Hf. unfold segment_of. destruct (parse_usize name); simpl; lia.
Qed.

(** The compiled substitution is the interpreted one.  Both loops end on
    every template; whatever the captures of a match and the parameters of the
    route, expanding the segments gives what the direct expansion of the text
    gives; and the precomputed capacity is the length of the literal text. *)
Theorem substitution_compiled s caps params :
  ∃ c out, compile_substitution s = Some c ∧ expand_substitution s caps params = Some out ∧
    expand c caps params = out ∧ capacity c = literal_bytes (segments c).
Proof.
  destruct (loops_agree (S (length s)) s [] (Subst [] 0) caps params ltac:(lia)) as (c & Hc & He).
  exists c, (expand c caps params). split; [done|]. split; [done|]. split; [done|].
  by apply (compile_capacity _ _ _ (Subst [] 0) _ eq_refl Hc).
Qed.

(** * What a rewrite gives *)

Lemma strip_prefix_spec a s r : strip_prefix a s = Some r ↔ s = a ++ r.
Proof.
  revert s. induction a as [|c a IH]; intros [|d s]; simpl; try naive_solver.
  destruct (N.eqb_spec c d) as [->|Hne]; [rewrite IH|]; naive_solver.
Qed.

Lemma expand_loop_extends fuel caps params rest out r :
  expand_loop fuel caps params rest out = Some r → ∃ r', r = out ++ r'.
Proof.
  revert rest out. induction fuel as [|fuel IH]; intros rest out; [done|]. simpl.
  destruct (split_once 36 rest) as [[pre after]|]; [|intros [= <-]; by eexists].
  destruct after as [|d after]; [intros [= <-]; rewrite <- app_assoc; by eexists|].
  destruct (reference (d :: after)) as [[name rest']|]; intros (r' & ->)%IH;
    rewrite <- !app_assoc; by eexists.
Qed.

Lemma expand_loop_absolute fuel caps params s r :
  expand_loop (S fuel) caps params (47 :: s) [] = Some r → starts_with 47 r = true.
Proof.
  cbn [expand_loop]. destruct (split_once 36 (47 :: s)) as [[pre after]|] eqn:Es; [|by intros [= <-]].
  assert (Hpre : ∃ a, pre = 47 :: a).
  { simpl in Es. destruct (split_once 36 s) as [[a b]|]; simplify_eq/=. by eexists. }
  destruct Hpre as [a ->]. destruct after as [|d after]; [by intros [= <-]|].
  destruct (reference (d :: after)) as [[name rest']|]; by intros (r' & ->)%expand_loop_extends.
Qed.

(** An absolute template expands to an absolute path. *)
Lemma expand_absolute s c caps params : starts_with 47 s = true →
  compile_substitution s = Some c → starts_with 47 (expand c caps params) = true.
Proof.
  intros Hs Hc.
  destruct (loops_agree (S (length s)) s [] (Subst [] 0) caps params ltac:(lia)) as (c' & Hc' & He).
  unfold compile_substitution in Hc. rewrite Hc in Hc'. injection Hc' as <-.
  change (expand (Subst [] 0) caps params ++ []) with (@nil N) in He.
  destruct s as [|d s]; [done|]. simpl in Hs. apply N.eqb_eq in Hs as <-.
  by apply expand_loop_absolute in He.
Qed.

Section Rewritten.
Context `{Crates} (captures : Regex → jstr → option (jstr * Captures * jstr)).

(** The groups are those of a match inside the path. *)
Definition slices : Prop := ∀ re p pre caps post,
  captures re p = Some (pre, caps, post) → ∃ m, p = pre ++ m ++ post.

(** What makes the result absolute: validation asks for it, except that the
    replacement may be empty and a template may begin with a reference. *)
Definition absolute (rw : PathRewrite) : Prop :=
  match rw with
  | StripPrefix => True
  | ReplacePrefix _ replacement => replacement ≠ []
  | RegexRewrite _ substitution => starts_with 47 substitution = true
  end.

(** A rewritten path is absolute.  Of an absolute path, a validated rewrite
    whose replacement is not empty, or whose template begins with a slash,
    gives an absolute path; stripping a prefix always does, and on the paths
    its route matches it never declines: it drops the prefix and its slash. *)
Theorem rewritten_absolute routes t idx r p params rw :
  slices → routes !! idx = Some r → action r = Proxy (Some rw) →
  starts_with 47 p = true → validate_rewrite rw = [] → absolute rw →
  (∀ q, apply_path_rewrite captures routes idx r p params = Some q → starts_with 47 q = true) ∧
  (rw = StripPrefix → kind_of r = Prefix → path_matches routes t p idx →
   ∃ rest, p = trim_slashes (value_of r) ++ rest ∧
     apply_path_rewrite captures routes idx r p params =
       Some (47 :: match rest with 47 :: rest' => rest' | _ => rest end)).
Proof.
  intros Hsl Hr Ha Hp Hv Habs. unfold apply_path_rewrite, rewrite_regex. rewrite Ha. split.
  - destruct rw as [|prefix replacement|pattern substitution]; intros q.
    + repeat case_match; intros [= <-]; done.
    + simpl in Hv, Habs. destruct (strip_prefix prefix p) as [rest|]; simpl; [|done]. intros [= <-].
      destruct replacement as [|c replacement]; [done|]. simpl in *.
      destruct (starts_with 47 prefix), (47 =? c); done.
    + rewrite Hr. simpl. rewrite Ha. destruct (regex_new pattern) as [re|]; simpl; [|done].
      destruct (captures re p) as [[[pre caps] post]|] eqn:Hc; simpl; [|done].
      destruct (compile_substitution substitution) as [c|] eqn:Es; simpl.
      * intros [= <-]. destruct (Hsl _ _ _ _ _ Hc) as [m ->]. destruct pre as [|d pre]; [|done].
        pose proof (expand_absolute _ _ caps params Habs Es) as He. simpl.
        by destruct (expand c caps params).
      * destruct (substitution_compiled substitution caps params) as (c & out & Ec & _). congruence.
  - intros -> Hk (r' & Hr' & Hm). simplify_eq. rewrite Hk in Hm. destruct Hm as [rest ->].
    exists rest. split; [done|].
    assert (E : strip_prefix (trim_slashes (value_of r)) (trim_slashes (value_of r) ++ rest) = Some rest)
      by (by apply strip_prefix_spec).
    unfold value_of in *. rewrite E.
    destruct rest as [|c rest]; [done|]. repeat case_match; simplify_eq/=; done.
Qed.

End Rewritten.

(** * Rewrites that the validation lets through *)

(** An empty replacement is said to turn the prefix into the root path; the
    path that was only the prefix becomes the empty text, which is no URI, and
    is forwarded as it came. *)
Lemma empty_replacement `{Crates} captures routes idx r {Uri} (parse : jstr → option Uri) inbound q :
  action r = Proxy (Some (ReplacePrefix (u "/v1") [])) → parse [] = None →
  forwarded parse inbound (u "/v1") None (apply_path_rewrite captures routes idx r (u "/v1") q) = inbound.
Proof. intros Ha Hp. unfold apply_path_rewrite. rewrite Ha. simpl. by rewrite Hp. Qed.

(** A longer path that begins with the prefix loses its slash. *)
Lemma empty_replacement_relative `{Crates} captures routes idx r q :
  action r = Proxy (Some (ReplacePrefix (u "/v1") [])) →
  apply_path_rewrite captures routes idx r (u "/v1internal") q = Some (u "internal").
Proof. intros Ha. unfold apply_path_rewrite. by rewrite Ha. Qed.

Example empty_replacement_valid : validate_rewrite (ReplacePrefix (u "/v1") []) = [].
Proof. reflexivity. Qed.

(** A template that begins with a brace is accepted as a reference, but is one
    only after a dollar. *)
Example brace_is_literal :
  validate_rewrite (RegexRewrite (u ".*") (u "{id}")) = [] ∧
  compile_substitution (u "{id}") = Some (Subst [Literal (u "{id}")] 4).
Proof. split; reflexivity. Qed.

Example sample_substitution :
  compile_substitution (u "/users/${id}/$2x/$1$") =
  Some (Subst [Literal (u "/users/"); Named (u "id"); Literal (u "/"); Named (u "2x"); Literal (u "/");
               Numeric 1; Literal (u "$")] 10).
Proof. reflexivity. Qed.

(** * A rewritten path *)

(** A match of the whole path, without groups. *)
Definition whole_match (re : @Regex plain_crates) (p : jstr) : option (jstr * Captures * jstr) :=
  if bool_decide ((re : jstr) = p)
  then Some ([], MkCaptures (λ i, if (i =? 0)%Z then Some p else None) (λ _, None), []) else None.

Definition strip_route : Route :=
  MkRoute (u "strip") (MkMatch (MatchPath Prefix (u "/v1/")) None [] [] [] [] None)
    (Proxy (Some StripPrefix)).

Lemma rewritten_absolute_witness :
  starts_with 47 (u "/v1/users") = true ∧
  ((∀ q, apply_path_rewrite whole_match [strip_route] 0 strip_route (u "/v1/users") [] = Some q →
         starts_with 47 q = true) ∧
   (StripPrefix = StripPrefix → kind_of strip_route = Prefix →
    @path_matches plain_crates [strip_route] sample_table (u "/v1/users") 0 →
    ∃ rest, u "/v1/users" = trim_slashes (value_of strip_route) ++ rest ∧
      apply_path_rewrite whole_match [strip_route] 0 strip_route (u "/v1/users") [] =
        Some (47 :: match rest with 47 :: rest' => rest' | _ => rest end))).
Proof.
  split; [reflexivity|].
  refine (rewritten_absolute whole_match [strip_route] sample_table 0 strip_route (u "/v1/users") []
            StripPrefix _ eq_refl eq_refl eq_refl eq_refl I).
  intros re p pre caps post. unfold whole_match. case_bool_decide; [|done].
  intros [= <- _ <-]. exists p. by rewrite app_nil_r.
Defined.
