(* ===== verification/Sse.v ===== *)
(** The event-stream decoder of the AI gateway (crates/dwara-core/src/ai/sse.rs).

    The buffer is the list of its characters; the code scans its bytes, which
    finds the same places, since a line end is one byte and never a part of
    another character. *)

From S2P Require Import Prelude JsNumber Text Utf8 Affinity.
Local Open Scope N_scope.

Record SseFrame : Type := Frame { event : option jstr; data : jstr }.

#[global] Instance SseFrame_eq_dec : EqDecision SseFrame.
Proof. solve_decision. Defined.

(** * The decoder *)

(** The loop of [find_event_end]: the character before, the position, the rest. *)
Fixpoint event_end_from (prev : option N) (i : nat) (b : jstr) : option (nat * nat) :=
  match b with
  | [] => None
  | c :: b' =>
      if negb (c =? 10) then event_end_from (Some c) (S i) b'
      else
        match b' with
        | d :: b'' =>
            if d =? 10 then Some (i, 2%nat)
            else
              match b'' with
              | e :: _ =>
                  if (d =? 13) && (e =? 10)
                  then if bool_decide (prev = Some 13) then Some ((i - 1)%nat, 4%nat) else Some (i, 3%nat)
                  else event_end_from (Some c) (S i) b'
              | [] => event_end_from (Some c) (S i) b'
              end
        | [] => event_end_from (Some c) (S i) b'
        end
  end.

Definition find_event_end (s : jstr) : option (nat * nat) := event_end_from None 0 s.

(** [strip_suffix('\r').unwrap_or]. *)
Fixpoint strip_cr (line : jstr) : jstr :=
  match line with
  | [] => []
  | [c] => if c =? 13 then [] else [c]
  | c :: line => c :: strip_cr line
  end.

Definition strip_space (v : jstr) : jstr :=
  match v with
  | c :: v' => if c =? 32 then v' else v
  | [] => []
  end.

Definition field_of (line : jstr) : jstr * jstr :=
  match split_once 58 line with
  | Some (n, v) => (n, strip_space v)
  | None => (line, [])
  end.

(** One line of the loop of [parse_frame]. *)
Definition take_line (acc : option jstr * list jstr) (line : jstr) : option jstr * list jstr :=
  let line := strip_cr line in
  match line with
  | [] => acc
  | c :: _ =>
      if c =? 58 then acc
      else
        let '(n, v) := field_of line in
        if bool_decide (n = u "data") then (acc.1, acc.2 ++ [v])
        else if bool_decide (n = u "event") then (Some v, acc.2)
        else acc
  end.

Definition parse_frame (text : jstr) : option SseFrame :=
  match foldl take_line (None, []) (split_on 10 text) with
  | (_, []) => None
  | (ev, lines) => Some (Frame ev (join_on 10 lines))
  end.

(** The loop of [drain]; every turn takes a terminator off the buffer. *)
Fixpoint drain_fuel (fuel : nat) (buf : jstr) : list SseFrame * jstr :=
  match fuel with
  | O => ([], buf)
  | S fuel =>
      match find_event_end buf with
      | Some (text_end, term_len) =>
          let '(frames, rest) := drain_fuel fuel (drop (text_end + term_len) buf) in
          (option_list (parse_frame (take text_end buf)) ++ frames, rest)
      | None => ([], buf)
      end
  end.

Definition drain (buf : jstr) : list SseFrame * jstr := drain_fuel (length buf) buf.

Definition push (bytes : list N) (buf : jstr) : list SseFrame * jstr :=
  drain (buf ++ from_utf8_lossy bytes).

Definition finish (buf : jstr) : list SseFrame :=
  match trim buf with
  | [] => []
  | _ => option_list (parse_frame buf)
  end.

(** The frames of a whole stream, chunk by chunk. *)
Fixpoint push_all (chunks : list (list N)) (buf : jstr) : list SseFrame * jstr :=
  match chunks with
  | [] => ([], buf)
  | bytes :: chunks =>
      let '(frames, buf) := push bytes buf in
      let '(frames', buf) := push_all chunks buf in (frames ++ frames', buf)
  end.

(** * Chunks *)

#[local] Arguments N.eqb : simpl never.

Lemma event_end_bounds prev i b p w : (is_Some prev → 1 ≤ i)%nat →
  event_end_from prev i b = Some (p, w) → (2 ≤ w)%nat ∧ (p + w ≤ i + length b)%nat.
Proof.
  revert prev i. induction b as [|c b IH]; intros prev i Hi; [done|]. cbn [event_end_from].
  assert (Hrec : event_end_from (Some c) (S i) b = Some (p, w) →
    (2 ≤ w)%nat ∧ (p + w ≤ i + length (c :: b))%nat).
  { intros Hr. apply IH in Hr; [simpl; lia|lia]. }
  destruct (negb (c =? 10)); [done|]. destruct b as [|d b]; [done|].
  destruct (d =? 10); [intros [= <- <-]; simpl; lia|]. destruct b as [|e b]; [done|].
  destruct ((d =? 13) && (e =? 10)); [|done]. case_bool_decide as Hp; intros [= <- <-]; simpl; [|lia].
  assert (1 ≤ i)%nat by (apply Hi; by rewrite Hp). lia.
Qed.

(** A terminator that has been found stays the first, whatever arrives. *)
Lemma event_end_stable prev i b t r :
  event_end_from prev i b = Some r → event_end_from prev i (b ++ t) = Some r.
Proof.
  revert prev i. induction b as [|c b IH]; intros prev i; [done|]. cbn [event_end_from app].
  destruct (negb (c =? 10)); [apply IH|]. destruct b as [|d b]; [done|].
  cbn [app]. destruct (d =? 10); [done|]. destruct b as [|e b].
  { simpl. by destruct (negb (d =? 10)). }
  cbn [app]. destruct ((d =? 13) && (e =? 10)); [done|]. apply (IH (Some c) (S i)).
Qed.

Lemma drain_fuel_more n m buf : (length buf ≤ n)%nat → (length buf ≤ m)%nat →
  drain_fuel n buf = drain_fuel m buf.
Proof.
  assert (Hz : ∀ k b, length b = 0%nat → drain_fuel k b = ([], b)).
  { intros k [|? ?] Hb; [by destruct k|done]. }
  revert m buf. induction n as [|n IH]; intros m buf Hn Hm; [rewrite !Hz; [done|lia..]|].
  destruct m as [|m]; [rewrite !Hz; [done|lia..]|]. simpl.
  destruct (find_event_end buf) as [[p w]|] eqn:E; [|done].
  apply event_end_bounds in E as [H2 Hb]; [|by intros []].
  rewrite (IH m); [done|rewrite length_drop; lia..].
Qed.

Lemma drain_step buf :
  drain buf =
  match find_event_end buf with
  | Some (p, w) =>
      let '(frames, rest) := drain (drop (p + w) buf) in
      (option_list (parse_frame (take p buf)) ++ frames, rest)
  | None => ([], buf)
  end.
Proof.
  unfold drain. destruct buf as [|c buf]; [done|]. cbn [length drain_fuel].
  destruct (find_event_end (c :: buf)) as [[p w]|] eqn:E; [|done].
  apply event_end_bounds in E as [H2 Hb]; [|by intros []].
  rewrite (drain_fuel_more (length buf) (length (drop (p + w) (c :: buf)))); [done|..];
    rewrite length_drop; simpl in *; lia.
Qed.

Lemma drain_app s t :
  drain (s ++ t) =
  let '(frames, rest) := drain s in
  let '(frames', rest') := drain (rest ++ t) in (frames ++ frames', rest').
Proof.
  remember (length s) as n eqn:Hn. revert s Hn. induction (lt_wf n) as [n _ IH]; intros s ->.
  rewrite (drain_step s). destruct (find_event_end s) as [[p w]|] eqn:E.
  - pose proof E as Hb. apply event_end_bounds in Hb as [H2 Hb]; [|by intros []]. simpl in Hb.
    rewrite (drain_step (s ++ t)). unfold find_event_end in *. rewrite (event_end_stable _ _ _ _ _ E).
    rewrite drop_app_le, take_app_le by lia.
    rewrite (IH (length (drop (p + w) s))); [|rewrite length_drop; lia|done].
    destruct (drain (drop (p + w) s)) as [f r]. destruct (drain (r ++ t)) as [f' r'].
    by rewrite app_assoc.
  - by destruct (drain (s ++ t)).
Qed.

(** What [drain] leaves has nothing to drain. *)
Lemma drain_drained s : drain (drain s).2 = ([], (drain s).2).
Proof.
  remember (length s) as n eqn:Hn. revert s Hn. induction (lt_wf n) as [n _ IH]; intros s ->.
  rewrite (drain_step s). destruct (find_event_end s) as [[p w]|] eqn:E.
  - pose proof E as Hb. apply event_end_bounds in Hb as [H2 Hb]; [|by intros []]. simpl in Hb.
    specialize (IH (length (drop (p + w) s)) ltac:(rewrite length_drop; lia) _ eq_refl).
    by destruct (drain (drop (p + w) s)).
  - simpl. by rewrite drain_step, E.
Qed.

Lemma push_all_texts texts buf : Forall (λ t, forallb is_char t = true) texts → drain buf = ([], buf) →
  push_all (utf8_bytes <$> texts) buf = drain (buf ++ concat texts).
Proof.
  intros Hv. revert buf. induction Hv as [|t texts Ht Hv IH]; intros buf Hb; csimpl.
  - by rewrite app_nil_r, Hb.
  - unfold push at 1. rewrite lossy_utf8 by done. rewrite app_assoc, (drain_app (buf ++ t)).
    pose proof (drain_drained (buf ++ t)) as Hd. destruct (drain (buf ++ t)) as [f r].
    by rewrite (IH r).
Qed.

(** Chunks cannot be observed.  However a text is cut into chunks between
    characters, the frames that are decoded, all together, and what is left in
    the buffer are those of the text in one piece; in particular a terminator
    may be cut anywhere. *)
Theorem chunking_unobservable texts :
  Forall (λ t, forallb is_char t = true) texts →
  push_all (utf8_bytes <$> texts) [] = push (utf8_bytes (concat texts)) [].
Proof.
  intros Hv. rewrite push_all_texts by done. unfold push. rewrite lossy_utf8; [done|].
  induction Hv as [|t texts Ht Hv IH]; [done|]. simpl. by rewrite forallb_app, Ht, IH.
Qed.

(** A chunk that ends inside a character destroys it, although the stream is
    well-formed: each half is replaced on its own. *)
Example character_cut :
  push_all [utf8_bytes (u "data: caf") ++ [195]; 169 :: utf8_bytes [10; 10]] [] =
    ([Frame None (u "caf" ++ [65533; 65533])], []) ∧
  push (utf8_bytes (u "data: caf") ++ [195; 169] ++ utf8_bytes [10; 10]) [] =
    ([Frame None (u "caf" ++ [233])], []).
Proof. split; vm_compute; reflexivity. Qed.

Lemma chunking_unobservable_witness :
  Forall (λ t, forallb is_char t = true) [u "data: a"; [13; 10; 13]; [10] ++ u "data: b"] ∧
  push_all (utf8_bytes <$> [u "data: a"; [13; 10; 13]; [10] ++ u "data: b"]) [] =
    push (utf8_bytes (concat [u "data: a"; [13; 10; 13]; [10] ++ u "data: b"])) [].
Proof.
  assert (Hv : Forall (λ t, forallb is_char t = true) [u "data: a"; [13; 10; 13]; [10] ++ u "data: b"])
    by (apply (bool_decide_unpack _); vm_compute; exact I).
  exact (conj Hv (chunking_unobservable _ Hv)).
Defined.

(** * The line grammar

    The reference reads the stream line by line: a line ends at LF, a CR before
    it belongs to the line end, and a blank line ends an event. *)

Definition blank (line : jstr) : bool := bool_decide (strip_cr line = []).

Definition frame_of (lines : list jstr) : option SseFrame :=
  match foldl take_line (None, []) lines with
  | (_, []) => None
  | (ev, values) => Some (Frame ev (join_on 10 values))
  end.

Fixpoint events_of (lines block : list jstr) : list SseFrame :=
  match lines with
  | [] => []
  | l :: lines =>
      if blank l then option_list (frame_of block) ++ events_of lines []
      else events_of lines (block ++ [l])
  end.

Definition lines_text (lines : list jstr) : jstr := concat ((λ l, l ++ [10]) <$> lines).

(** A line without a line end, and without a second CR at its end. *)
Definition line_ok (l : jstr) : Prop := (10 ∉ l) ∧ strip_cr (strip_cr l) = strip_cr l.

Lemma blank_cases l : blank l = true ↔ l = [] ∨ l = [13].
Proof.
  unfold blank. rewrite bool_decide_eq_true. destruct l as [|c [|d l]]; simpl; try naive_solver.
  destruct (N.eqb_spec c 13); naive_solver.
Qed.

(** Up to the first line end nothing ends. *)
Lemma event_end_walk prev i l b : 10 ∉ l →
  event_end_from prev i (l ++ b) =
  event_end_from (match list.last l with Some c => Some c | None => prev end) (i + length l) b.
Proof.
  revert prev i. induction l as [|c l IH]; intros prev i Hl; simpl; [by rewrite Nat.add_0_r|].
  rewrite (proj2 (N.eqb_neq c 10)) by set_solver. simpl. rewrite IH by set_solver.
  replace (S i + length l)%nat with (i + S (length l))%nat by lia. rewrite last_cons.
  by destruct (list.last l).
Qed.

Lemma event_end_rest prev i l : 10 ∉ l → event_end_from prev i l = None.
Proof. intros Hl. rewrite <- (app_nil_r l), event_end_walk by done. done. Qed.

Lemma lines_text_cons l lines : lines_text (l :: lines) = l ++ 10 :: lines_text lines.
Proof. unfold lines_text. csimpl. by rewrite <- app_assoc. Qed.

(** What stands at a line end, by what begins the next line. *)
Definition at_line_end (prev : option N) (n : nat) (s : jstr) : option (nat * nat) :=
  match s with
  | d :: s' =>
      if d =? 10 then Some (n, 2%nat)
      else
        match s' with
        | e :: _ =>
            if (d =? 13) && (e =? 10)
            then if bool_decide (prev = Some 13) then Some ((n - 1)%nat, 4%nat) else Some (n, 3%nat)
            else event_end_from (Some 10) (S n) s
        | [] => event_end_from (Some 10) (S n) s
        end
  | [] => event_end_from (Some 10) (S n) s
  end.

Lemma event_end_lf prev n s : event_end_from prev n (10 :: s) = at_line_end prev n s.
Proof. reflexivity. Qed.

Lemma neqb_in (c : N) l : c ∉ l → Forall (λ d, (d =? c) = false) l.
Proof.
  intros Hc. apply list.Forall_forall. intros d Hd. apply N.eqb_neq. intros ->. done.
Qed.

(** A line that is not blank ends no event. *)
Lemma at_line_end_full prev n l s : 10 ∉ l → blank l = false →
  at_line_end prev n (l ++ 10 :: s) = event_end_from (Some 10) (S n) (l ++ 10 :: s).
Proof.
  intros Hl%neqb_in Hb. destruct l as [|d l]; [done|]. apply list.Forall_cons in Hl as [Hd Hl].
  unfold at_line_end. cbn [app]. rewrite Hd. destruct l as [|e l]; cbn [app].
  - rewrite N.eqb_refl, andb_true_r. destruct (N.eqb_spec d 13) as [->|_]; [done|reflexivity].
  - apply list.Forall_cons in Hl as [He _]. by rewrite He, andb_false_r.
Qed.

(** Nor does a rest without a line end. *)
Lemma at_line_end_rest prev n rest : 10 ∉ rest → at_line_end prev n rest = None.
Proof.
  intros Hr. pose proof (event_end_rest (Some 10) (S n) rest Hr) as E. apply neqb_in in Hr.
  unfold at_line_end. destruct Hr as [|d rest Hd Hr]; [done|]. rewrite Hd.
  destruct Hr as [|e rest He Hr]; [done|]. by rewrite He, andb_false_r.
Qed.

(** After a block of lines, none but the first blank, nothing has ended yet. *)
Lemma event_end_block l block prev i s : prev ≠ Some 13 →
  Forall (λ l, 10 ∉ l) (l :: block) → Forall (λ l, blank l = false) block →
  ∃ before n, event_end_from prev i (lines_text (l :: block) ++ s) = at_line_end before n s ∧
    (S n = i + length (lines_text (l :: block)))%nat ∧
    (before = Some 13 ↔ list.last (default l (list.last block)) = Some 13).
Proof.
  revert l prev i. induction block as [|l' block IH]; intros l prev i Hp Hl Hb.
  - apply list.Forall_cons in Hl as [Hl _].
    rewrite lines_text_cons, <- app_assoc, event_end_walk by done. cbn [app lines_text fmap list_fmap concat].
    rewrite event_end_lf. eexists _, _. split; [done|]. rewrite length_app. simpl. split; [lia|].
    destruct (list.last l); naive_solver.
  - apply list.Forall_cons in Hl as [Hl Hls], Hb as [Hb' Hb]. pose proof Hls as [Hl' _]%list.Forall_cons.
    destruct (IH l' (Some 10) (S (i + length l)) ltac:(done) Hls Hb) as (before & n & E & Hn & Hbef).
    exists before, n. split; [|split].
    + rewrite <- E, (lines_text_cons l), <- app_assoc, event_end_walk by done. cbn [app].
      rewrite event_end_lf, lines_text_cons, <- app_assoc. by apply at_line_end_full.
    + rewrite lines_text_cons, length_app. simpl. lia.
    + rewrite Hbef. destruct block as [|b block] using rev_ind; [done|]. rewrite last_cons, last_snoc. done.
Qed.

Lemma join_on_snoc ls x : join_on 10 (ls ++ [x]) =
  match ls with [] => x | _ => join_on 10 ls ++ 10 :: x end.
Proof.
  induction ls as [|l ls IH]; [done|]. cbn [app join_on]. destruct ls as [|l' ls]; [done|].
  change ((l' :: ls) ++ [x]) with (l' :: (ls ++ [x])) in *. cbn [join_on] in *.
  by rewrite IH, <- app_assoc.
Qed.

Lemma lines_text_join ls : ls ≠ [] → lines_text ls = join_on 10 ls ++ [10].
Proof.
  induction ls as [|l ls IH]; [done|]. intros _. rewrite lines_text_cons. destruct ls as [|l' ls]; [done|].
  rewrite IH by done. cbn [join_on]. by rewrite <- app_assoc.
Qed.

Lemma split_join_on ls : ls ≠ [] → Forall (λ l, 10 ∉ l) ls → split_on 10 (join_on 10 ls) = ls.
Proof.
  intros Hne Hls. induction Hls as [|l ls Hl Hls IH]; [done|]. cbn [join_on].
  destruct ls as [|l' ls]; [by apply split_field|]. rewrite split_join by done. by rewrite IH.
Qed.

Lemma ends_cr x : list.last x = Some 13 → x = strip_cr x ++ [13].
Proof.
  induction x as [|c x IH]; [done|]. rewrite last_cons. destruct x as [|d x].
  - by intros [= ->].
  - intros Hx. assert (Hl : list.last (d :: x) = Some 13).
    { destruct (list.last (d :: x)) eqn:E; [done|]. by apply last_None in E. }
    cbn [strip_cr app]. f_equal. by apply IH.
Qed.

Lemma take_line_strip acc x : strip_cr (strip_cr x) = strip_cr x → take_line acc (strip_cr x) = take_line acc x.
Proof. intros H. unfold take_line. by rewrite H. Qed.

Lemma parse_frame_join ls : ls ≠ [] → Forall (λ l, 10 ∉ l) ls → parse_frame (join_on 10 ls) = frame_of ls.
Proof. intros Hne Hls. unfold parse_frame. by rewrite split_join_on. Qed.

Lemma not_in_strip x : 10 ∉ x → 10 ∉ strip_cr x.
Proof.
  induction x as [|c x IH]; [done|]. intros Hx. destruct x as [|d x].
  - simpl. case_match; set_solver.
  - change (strip_cr (c :: d :: x)) with (c :: strip_cr (d :: x)). apply not_elem_of_cons in Hx as [H1 H2].
    apply not_elem_of_cons. split; [done|]. by apply IH.
Qed.

(** A block and the blank line after it are taken off the buffer together. *)
Lemma drain_block l block b lines rest :
  Forall line_ok (l :: block) → Forall (λ l, blank l = false) block → blank b = true →
  drain (lines_text ((l :: block) ++ b :: lines) ++ rest) =
  let '(frames, r) := drain (lines_text lines ++ rest) in
  (option_list (frame_of (l :: block)) ++ frames, r).
Proof.
  intros Hok Hfull Hb. set (s := b ++ 10 :: lines_text lines ++ rest).
  assert (Es : lines_text ((l :: block) ++ b :: lines) ++ rest = lines_text (l :: block) ++ s).
  { unfold s, lines_text. rewrite fmap_app, concat_app, <- !app_assoc. f_equal. csimpl.
    by rewrite <- !app_assoc. }
  rewrite Es. assert (Hno : Forall (λ l, 10 ∉ l) (l :: block)) by (eapply list.Forall_impl; [done|by intros ? []]).
  destruct (event_end_block l block None 0 s ltac:(done) Hno Hfull) as (before & n & E & Hn & Hbef).
  assert (Hlast : ∃ init, l :: block = init ++ [default l (list.last block)]).
  { destruct block as [|x block _] using rev_ind; [by exists []|]. exists (l :: block). by rewrite last_snoc. }
  destruct Hlast as [init Hinit]. set (x := default l (list.last block)) in *.
  assert (Hx : line_ok x).
  { rewrite Hinit in Hok. apply list.Forall_app in Hok as [_ Hok]. rewrite list.Forall_singleton in Hok. exact Hok. }
  rewrite drain_step. unfold find_event_end. rewrite E.
  rewrite (lines_text_join (l :: block)) in Hn |- * by done. rewrite length_app in Hn. cbn [length] in Hn.
  assert (Htake : ∀ k, (k ≤ n)%nat → take k ((join_on 10 (l :: block) ++ [10]) ++ s) = take k (join_on 10 (l :: block))).
  { intros k Hk. rewrite <- app_assoc, take_app_le by lia. done. }
  assert (Hdrop : ∀ k, drop (S n + k) ((join_on 10 (l :: block) ++ [10]) ++ s) = drop k s).
  { intros k. rewrite <- drop_drop. f_equal. rewrite drop_app_length'; [done|]. rewrite length_app. cbn [length]. lia. }
  assert (Hparse : parse_frame (take n (join_on 10 (l :: block))) = frame_of (l :: block)).
  { rewrite take_ge by lia. by apply parse_frame_join. }
  apply blank_cases in Hb as [-> | ->]; unfold s in *; cbn [app]; unfold at_line_end; rewrite ?N.eqb_refl;
    [|change (13 =? 10) with false; cbn [andb]].
  - rewrite Htake, Hparse by lia. replace (n + 2)%nat with (S n + 1)%nat by lia. rewrite Hdrop. done.
  - case_bool_decide as Hc.
    + apply Hbef, ends_cr in Hc.
      assert (Ej : join_on 10 (l :: block) = join_on 10 (init ++ [strip_cr x]) ++ [13]).
      { rewrite Hinit, Hc at 1. rewrite !join_on_snoc. destruct init; [reflexivity|].
        rewrite <- app_assoc. reflexivity. }
      rewrite Ej, length_app in Hn. cbn [length] in Hn.
      replace (n - 1 + 4)%nat with (S n + 2)%nat by lia. rewrite Hdrop, Htake by lia. cbn [drop].
      rewrite Ej, take_app_le, take_ge by lia. rewrite parse_frame_join.
      * unfold frame_of. rewrite Hinit, !foldl_app. simpl. rewrite take_line_strip by apply Hx. done.
      * by destruct init.
      * rewrite Hinit in Hno. apply list.Forall_app in Hno as [Hi _]. apply list.Forall_app. split; [done|].
        apply list.Forall_singleton, not_in_strip, Hx.
    + rewrite Htake, Hparse by lia. replace (n + 3)%nat with (S n + 2)%nat by lia. rewrite Hdrop. done.
Qed.

Lemma take_line_blank acc l : blank l = true → take_line acc l = acc.
Proof. intros [-> | ->]%blank_cases; done. Qed.

Lemma events_of_blank l lines block : blank l = true → events_of lines (l :: block) = events_of lines block.
Proof.
  intros Hl. revert block. induction lines as [|l' lines IH]; intros block; [done|]. simpl.
  destruct (blank l'); [|apply IH]. f_equal. unfold frame_of. simpl. by rewrite take_line_blank.
Qed.

Lemma drain_none s : find_event_end s = None → drain s = ([], s).
Proof. intros E. by rewrite drain_step, E. Qed.

Lemma drain_lines lines block rest :
  Forall line_ok (block ++ lines) → Forall (λ l, blank l = false) (tail block) → 10 ∉ rest →
  (drain (lines_text (block ++ lines) ++ rest)).1 = events_of lines block.
Proof.
  intros Hok Hfull Hr. remember (length lines) as n eqn:Hn. revert lines block Hn Hok Hfull.
  induction (lt_wf n) as [n _ IH]; intros [|l lines] block -> Hok Hfull.
  - rewrite app_nil_r in *. rewrite drain_none; [done|]. destruct block as [|l block].
    + by apply event_end_rest.
    + destruct (event_end_block l block None 0 rest ltac:(done)) as (before & n & E & _);
        [eapply list.Forall_impl; [done|by intros ? []]|done|].
      unfold find_event_end. rewrite E. by apply at_line_end_rest.
  - simpl. destruct (blank l) eqn:Hl.
    + destruct block as [|a block].
      * simpl. rewrite <- (events_of_blank l) by done. by apply (IH (length lines) ltac:(simpl; lia) lines [l]).
      * simpl in Hfull. rewrite drain_block; [|by apply list.Forall_app in Hok as [? _]|done..].
        destruct (drain (lines_text lines ++ rest)) as [frames r] eqn:Ed. simpl. f_equal.
        rewrite <- (IH (length lines) ltac:(simpl; lia) lines []); [simpl; by rewrite Ed|done| |done].
        simpl. apply list.Forall_app in Hok as [_ Hok]. by apply list.Forall_cons in Hok as [_ Hok].
    + change (block ++ l :: lines) with (block ++ [l] ++ lines). rewrite app_assoc.
      apply (IH (length lines) ltac:(simpl; lia) lines (block ++ [l]));
        [done|by rewrite <- app_assoc|].
      destruct block as [|a block]; simpl; [done|]. apply list.Forall_app. split; [done|].
      by apply list.Forall_singleton.
Qed.

Lemma split_fields_ok s : Forall (λ l, 10 ∉ l) (split_on 10 s).
Proof.
  induction s as [|c s IH]; simpl; [apply list.Forall_singleton, not_elem_of_nil|].
  destruct (split_on_cons 10 s) as (f & fs & E). rewrite E in *. apply list.Forall_cons in IH as [Hf Hfs].
  destruct (N.eqb_spec c 10) as [->|Hc]; apply list.Forall_cons.
  - split; [apply not_elem_of_nil|]. by apply list.Forall_cons.
  - split; [|done]. apply not_elem_of_cons. split; [congruence|done].
Qed.

Lemma join_lines lines rest : join_on 10 (lines ++ [rest]) = lines_text lines ++ rest.
Proof.
  induction lines as [|l lines IH]; [done|]. rewrite lines_text_cons, <- app_assoc. simpl.
  rewrite <- IH. by destruct lines.
Qed.

(** C14: The decoder follows the line grammar.  On every stream, cut after its
    last line end, the frames it yields are those of the reference: lines end at
    LF or CRLF, mixed at will, a blank line ends an event, data lines are
    joined, comments and unknown fields are skipped, and an event without data
    is none; except where a line ends in two CRs. *)
Theorem line_grammar s lines rest :
  split_on 10 s = lines ++ [rest] → Forall (λ l, strip_cr (strip_cr l) = strip_cr l) lines →
  (drain s).1 = events_of lines [].
Proof.
  intros Hs Hcr. pose proof (split_fields_ok s) as Hno. rewrite Hs in Hno.
  apply list.Forall_app in Hno as [Hno Hrest]. rewrite list.Forall_singleton in Hrest.
  rewrite <- (join_split 10 s), Hs, join_lines. apply (drain_lines lines []); [|constructor|done].
  simpl. rewrite list.Forall_forall in *. intros l Hl. split; auto.
Qed.

(** A second CR is taken for a part of the terminator. *)
Example double_cr_lost :
  (drain (u "data: x" ++ [13; 13; 10; 13; 10])).1 = [Frame None (u "x")] ∧
  events_of [u "data: x" ++ [13; 13]; [13]] [] = [Frame None (u "x" ++ [13])].
Proof. split; reflexivity. Qed.

Definition sample_stream : jstr :=
  [10] ++ u "event: m" ++ [13; 10] ++ u "data:{" ++ [10] ++ u "data: }" ++ [13; 10; 13; 10]
  ++ u ": ping" ++ [10; 10] ++ u "id: 7" ++ [10] ++ u "data" ++ [10; 13; 10] ++ u "data: cut".

Lemma line_grammar_witness :
  (drain sample_stream).1 =
    events_of [[]; u "event: m" ++ [13]; u "data:{"; u "data: }" ++ [13]; [13]; u ": ping"; []; u "id: 7";
               u "data"; [13]] [] ∧
  (drain sample_stream).1 = [Frame (Some (u "m")) (u "{" ++ [10] ++ u "}"); Frame None []].
Proof.
  split; [|reflexivity]. refine (line_grammar _ _ (u "data: cut") _ _); [reflexivity|].
  apply (bool_decide_unpack _). vm_compute. exact I.
Defined.
