(* ===== verification/AiStream.v ===== *)
(** The streaming path of the AI gateway: provider bytes in, client frames out
    (crates/dwara-core/src/ai/stream.rs, [Usage] of ai/types.rs, and
    [AiStreamBody] of dataplane/ai_proxy.rs).

    What a provider's dialect is to the translator, and what the budget and the
    guardrails are to the body, are interfaces.  The JSON of a client frame is
    an argument.  Metrics, logs and the copy for the semantic cache, which write
    nothing the stream reads, are left out. *)

From S2P Require Import Prelude JsNumber Text Utf8 Hash Sse.
Local Open Scope Z_scope.

(** * Usage *)

Record Usage : Type := MkUsage {
  prompt_tokens : option Z; completion_tokens : option Z;
  total_tokens : option Z; cached_tokens : option Z;
}.

Definition no_usage : Usage := MkUsage None None None None.

Definition later_or (later now : option Z) : option Z :=
  match later with Some _ => later | None => now end.

Definition merge (now later : Usage) : Usage :=
  let p := later_or (prompt_tokens later) (prompt_tokens now) in
  let c := later_or (completion_tokens later) (completion_tokens now) in
  let t := later_or (total_tokens later) (total_tokens now) in
  MkUsage p c
    (match t, p, c with
     | None, Some p, Some c => Some (add_u64 p c)
     | _, _, _ => t
     end)
    (match cached_tokens now, cached_tokens later with
     | Some a, Some b => Some (Z.max a b)
     | Some a, None => Some a
     | None, b => b
     end).

(** What the budget takes for the total. *)
Definition total_of (u : Usage) : Z :=
  match total_tokens u with
  | Some t => t
  | None =>
      Z.min (2 ^ 64 - 1) (default 0 (prompt_tokens u) + default 0 (completion_tokens u))
  end.

Inductive StreamEvent {D : Type} : Type :=
  | Delta (d : D)
  | UsageReport (u : Usage)
  | Done.
Arguments StreamEvent : clear implicits.

(** * The interfaces *)

(** A dialect: its end sentinel, and the events of a payload ([None] when the
    payload is not JSON or the dialect rejects it). *)
Class ProviderAdapter (D : Type) : Type := {
  stream_done_sentinel : option jstr;
  parse_stream_event : jstr → option (list (StreamEvent D));
}.

(** The JSON texts of the client's frames. *)
Class ClientChunks (D : Type) : Type := {
  delta_chunk : D → jstr;
  usage_chunk : Usage → jstr;
  aborted_chunk : jstr;
  cutoff_chunk : jstr;
  blocked_chunk : jstr;
}.

(** The holder's budget, whose window is [G], the prices, and the guardrails. *)
Class Guards (G : Type) : Type := {
  spend : Z → Z → G → bool * G;
  cost_micros : Usage → option Z;
  guardrails_empty : bool;
  redact_stream_chunk : jstr → jstr;
  check_stream_chunk : jstr → bool;
}.

(** * The translator *)

Definition sse_data (v : jstr) : jstr := u "data: " ++ v ++ [10; 10]%N.

Definition done_frame : jstr := sse_data (u "[DONE]").

Record StreamTranslator : Type := Translator {
  decoder : jstr; usage : Usage; ended : bool; tail_emitted : bool;
}.

Definition new_translator : StreamTranslator := Translator [] no_usage false false.

Definition set_decoder (b : jstr) (t : StreamTranslator) : StreamTranslator :=
  Translator b (usage t) (ended t) (tail_emitted t).
Definition set_ended (t : StreamTranslator) : StreamTranslator :=
  Translator (decoder t) (usage t) true (tail_emitted t).
Definition set_emitted (t : StreamTranslator) : StreamTranslator :=
  Translator (decoder t) (usage t) true true.
Definition merge_usage (u : Usage) (t : StreamTranslator) : StreamTranslator :=
  Translator (decoder t) (merge (usage t) u) (ended t) (tail_emitted t).

Section Stream.
Context {D G : Type} `{ProviderAdapter D} `{ClientChunks D} `{Guards G}.

Definition on_event (acc : list jstr * StreamTranslator) (e : StreamEvent D) : list jstr * StreamTranslator :=
  match e with
  | Delta d => (acc.1 ++ [sse_data (delta_chunk d)], acc.2)
  | UsageReport u => (acc.1, merge_usage u acc.2)
  | Done => (acc.1, set_ended acc.2)
  end.

Definition on_frame (acc : list jstr * StreamTranslator) (f : SseFrame) : list jstr * StreamTranslator :=
  if bool_decide (Some (data f) = stream_done_sentinel) then (acc.1, set_ended acc.2)
  else
    match parse_stream_event (data f) with
    | None => acc
    | Some events => foldl on_event acc events
    end.

Definition translate (frames : list SseFrame) (t : StreamTranslator) : list jstr * StreamTranslator :=
  foldl on_frame ([], t) frames.

Definition feed (bytes : list N) (t : StreamTranslator) : list jstr * StreamTranslator :=
  let '(frames, buf) := push bytes (decoder t) in translate frames (set_decoder buf t).

Definition flush_partial (t : StreamTranslator) : list jstr * StreamTranslator :=
  translate (Sse.finish (decoder t)) (set_decoder [] t).

Definition finish (t : StreamTranslator) : list jstr * StreamTranslator :=
  if tail_emitted t then ([], t)
  else
    ((if bool_decide (is_Some (prompt_tokens (usage t)) ∨ is_Some (completion_tokens (usage t)))
      then [sse_data (usage_chunk (usage t))] else []) ++ [done_frame], set_emitted t).

Definition abort_tail (t : StreamTranslator) : list jstr * StreamTranslator :=
  ([sse_data aborted_chunk; done_frame], set_emitted t).

(** * The body *)

Record AiStreamBody : Type := Body {
  inner : bool;                 (* the provider's body is still there *)
  translator : StreamTranslator;
  tail : list jstr;
  budget : option G;
  cut_off : bool;
  budget_spent_tokens : Z;
  budget_spent_cost_micros : Z;
  guardrail_cut_off : bool;
}.

Definition new_body (g : option G) : AiStreamBody := Body true new_translator [] g false 0 0 false.

Definition set_translator (t : StreamTranslator) (b : AiStreamBody) : AiStreamBody :=
  Body (inner b) t (tail b) (budget b) (cut_off b) (budget_spent_tokens b)
    (budget_spent_cost_micros b) (guardrail_cut_off b).
Definition set_tail (l : list jstr) (b : AiStreamBody) : AiStreamBody :=
  Body (inner b) (translator b) l (budget b) (cut_off b) (budget_spent_tokens b)
    (budget_spent_cost_micros b) (guardrail_cut_off b).
Definition extend_tail (l : list jstr) (b : AiStreamBody) : AiStreamBody := set_tail (tail b ++ l) b.

(** What was reported since the last spend, and whether it crossed the limit;
    the watermarks never go back. *)
Definition budget_spend_delta (b : AiStreamBody) : bool * AiStreamBody :=
  match budget b with
  | None => (false, b)
  | Some g =>
      let usage := usage (translator b) in
      let total := total_of usage in
      let tokens := Z.max 0 (total - budget_spent_tokens b) in
      let cost_total := default 0 (cost_micros usage) in
      let cost := Z.max 0 (cost_total - budget_spent_cost_micros b) in
      if (tokens =? 0) && (cost =? 0) then (false, b)
      else
        let '(crossed, g) := spend tokens cost g in
        (crossed, Body (inner b) (translator b) (tail b) (Some g) (cut_off b)
                    (Z.max total (budget_spent_tokens b)) (Z.max cost_total (budget_spent_cost_micros b))
                    (guardrail_cut_off b))
  end.

Definition budget_tick (b : AiStreamBody) : AiStreamBody :=
  match budget b with
  | None => b
  | Some _ =>
      let '(crossed, b) := budget_spend_delta b in
      if crossed && negb (cut_off b) && negb (ended (translator b)) then
        Body false (translator b) (tail b ++ [sse_data cutoff_chunk; done_frame]) (budget b) true
          (budget_spent_tokens b) (budget_spent_cost_micros b) (guardrail_cut_off b)
      else b
  end.

Definition guardrail_tick (batch_text : jstr) (b : AiStreamBody) : AiStreamBody :=
  if guardrails_empty || guardrail_cut_off b then b
  else
    let batch_text := redact_stream_chunk batch_text in
    if check_stream_chunk batch_text then
      Body false (translator b) (tail b ++ [sse_data blocked_chunk; done_frame]) (budget b) (cut_off b)
        (budget_spent_tokens b) (budget_spent_cost_micros b) true
    else b.

(** What polling the provider's body gives: data, a frame without data, an
    error, its end. *)
Inductive polled : Type :=
  | Data (bytes : list N)
  | Trailers
  | Broken
  | Closed.

(** What the client's poll gives: a frame or the end, or nothing yet. *)
Inductive poll : Type :=
  | Ready (o : option jstr)
  | Pending.

(** One provider frame, from an empty tail: what is forwarded at once, if
    anything. *)
Definition on_polled (i : polled) (b : AiStreamBody) : option jstr * AiStreamBody :=
  match i with
  | Trailers => (None, b)
  | Data bytes =>
      let '(frames, t) := feed bytes (translator b) in
      let b := budget_tick (set_translator t b) in
      let b :=
        if ended (translator b) then
          let '(l, t) := finish (translator b) in extend_tail l (set_translator t b)
        else b in
      match frames with
      | [] => (None, b)
      | _ => let joined := concat frames in (Some joined, guardrail_tick joined b)
      end
  | Broken => let '(l, t) := abort_tail (translator b) in (None, extend_tail l (set_translator t b))
  | Closed =>
      let '(frames, t) := flush_partial (translator b) in
      let b := set_translator t b in
      let joined := concat frames in
      let '(l, t) := finish (translator b) in
      let b := extend_tail l (set_translator t b) in
      (match joined with [] => None | _ => Some joined end, b)
  end.

(** [poll_frame] over what the provider's body gives in turn. *)
Fixpoint poll_frame (inputs : list polled) (b : AiStreamBody) : poll * list polled * AiStreamBody :=
  match tail b with
  | text :: l => (Ready (Some text), inputs, set_tail l b)
  | [] =>
      if ended (translator b) then (Ready None, inputs, b)
      else if negb (inner b) then (Ready None, inputs, b)
      else
        match inputs with
        | [] => (Pending, [], b)
        | i :: inputs =>
            match on_polled i b with
            | (Some text, b) => (Ready (Some text), inputs, b)
            | (None, b) => poll_frame inputs b
            end
        end
  end.

(** The client polls until the stream ends or waits: the frames it got, whether
    the stream has ended, and the body. *)
Fixpoint serve (fuel : nat) (inputs : list polled) (b : AiStreamBody)
    : option (list jstr * bool * AiStreamBody) :=
  match fuel with
  | O => None
  | S fuel =>
      match poll_frame inputs b with
      | (Ready (Some text), inputs, b) =>
          '(out, e, b) ← serve fuel inputs b; Some (text :: out, e, b)
      | (Ready None, _, b) => Some ([], true, b)
      | (Pending, _, b) => Some ([], false, b)
      end
  end.

(** What [close] spends. *)
Definition close (b : AiStreamBody) : AiStreamBody :=
  if cut_off b then b else (budget_spend_delta b).2.

(** * What the client gets *)

(** The polls in closed form, the wait at the end of the inputs included. *)
Fixpoint served (inputs : list polled) (b : AiStreamBody) : list jstr * bool * AiStreamBody :=
  let out := tail b in
  let b := set_tail [] b in
  if ended (translator b) || negb (inner b) then (out, true, b)
  else
    match inputs with
    | [] => (out, false, b)
    | i :: inputs =>
        let '(o, b) := on_polled i b in
        let '(out', e, b) := served inputs b in (out ++ option_list o ++ out', e, b)
    end.

Lemma served_tail inputs text l b : tail b = text :: l →
  served inputs b = let '(out, e, b) := served inputs (set_tail l b) in (text :: out, e, b).
Proof.
  intros Ht. destruct inputs as [|i inputs]; cbn [served]; rewrite Ht; cbn;
    destruct (ended (translator b) || negb (inner b)); try done.
  destruct (on_polled _ _) as [o b1]. by destruct (served inputs b1) as [[out e] b2].
Qed.

Lemma set_tail_nil b : tail b = [] → set_tail [] b = b.
Proof. destruct b. simpl. by intros ->. Qed.

(** One poll takes the first frame off what will be served. *)
Lemma poll_served inputs b :
  match poll_frame inputs b with
  | (Ready (Some text), inputs', b') =>
      served inputs b = let '(out, e, b) := served inputs' b' in (text :: out, e, b)
  | (Ready None, _, b') => served inputs b = ([], true, b')
  | (Pending, _, b') => served inputs b = ([], false, b')
  end.
Proof.
  revert b. induction inputs as [|i inputs IH]; intros b; destruct (tail b) as [|text l] eqn:Ht;
    cbn [poll_frame]; rewrite Ht; try by apply served_tail.
  - cbn [served]. rewrite Ht, (set_tail_nil b) by done.
    by destruct (ended (translator b)), (inner b).
  - cbn [served]. rewrite Ht, (set_tail_nil b) by done.
    destruct (ended (translator b)), (inner b); cbn; try done.
    destruct (on_polled i b) as [[text|] b1] eqn:E.
    + by destruct (served inputs b1) as [[out e] b2].
    + specialize (IH b1). destruct (poll_frame inputs b1) as [[[[text|]|] inputs'] b2]; rewrite IH; try done.
      by destruct (served inputs' b2) as [[out e] b3].
Qed.

(** One poll per frame, and one more, is enough. *)
Lemma serve_served fuel inputs b : (length (served inputs b).1.1 < fuel)%nat →
  serve fuel inputs b = Some (served inputs b).
Proof.
  revert inputs b. induction fuel as [|fuel IH]; intros inputs b Hf; [lia|]. cbn [serve].
  pose proof (poll_served inputs b) as Hp.
  destruct (poll_frame inputs b) as [[[[text|]|] inputs'] b']; rewrite Hp in *; try done.
  rewrite IH; destruct (served inputs' b') as [[out e] b2]; simpl in *; [done|lia].
Qed.

(** The frames the provider's side amounts to. *)
Fixpoint reported (inputs : list polled) (buf : jstr) : list SseFrame :=
  match inputs with
  | Data bytes :: inputs => let '(frames, buf) := push bytes buf in frames ++ reported inputs buf
  | Trailers :: inputs => reported inputs buf
  | Closed :: _ => Sse.finish buf
  | Broken :: _ | [] => []
  end.

Definition events_in (f : SseFrame) : list (StreamEvent D) :=
  if bool_decide (Some (data f) = stream_done_sentinel) then [Done]
  else default [] (parse_stream_event (data f)).

Definition delta_of (e : StreamEvent D) : option D := match e with Delta d => Some d | _ => None end.
Definition usage_step (u : Usage) (e : StreamEvent D) : Usage :=
  match e with UsageReport r => merge u r | _ => u end.
Definition is_done (e : StreamEvent D) : bool := match e with Done => true | _ => false end.

Definition deltas (frames : list SseFrame) : list D := omap delta_of (frames ≫= events_in).
Definition usage_after (frames : list SseFrame) : Usage := foldl usage_step no_usage (frames ≫= events_in).
Definition closes (f : SseFrame) : bool := existsb is_done (events_in f).
Definition delta_frame (d : D) : jstr := sse_data (delta_chunk d).

Lemma on_events es acc :
  foldl on_event acc es =
  (acc.1 ++ (delta_frame <$> omap delta_of es),
   Translator (decoder acc.2) (foldl usage_step (usage acc.2) es) (ended acc.2 || existsb is_done es)
     (tail_emitted acc.2)).
Proof.
  revert acc. induction es as [|e es IH]; intros [out t].
  - simpl. rewrite app_nil_r, orb_false_r. by destruct t.
  - simpl foldl. rewrite IH. destruct e, t; csimpl; rewrite <- ?app_assoc, ?orb_true_r; done.
Qed.

Lemma on_frame_events acc f : on_frame acc f = foldl on_event acc (events_in f).
Proof.
  unfold on_frame, events_in. case_bool_decide; [by destruct acc|].
  by destruct (parse_stream_event (data f)).
Qed.

Lemma translate_events frames t :
  translate frames t =
  (delta_frame <$> deltas frames,
   Translator (decoder t) (foldl usage_step (usage t) (frames ≫= events_in))
     (ended t || existsb closes frames) (tail_emitted t)).
Proof.
  unfold translate. transitivity (foldl on_event ([], t) (frames ≫= events_in)).
  - generalize (@nil jstr, t). induction frames as [|f frames IH]; intros acc; [done|].
    csimpl. rewrite foldl_app, IH. by rewrite on_frame_events.
  - rewrite on_events. simpl. do 2 f_equal. f_equal.
    induction frames as [|f frames IH]; [done|]. csimpl. by rewrite existsb_app, IH.
Qed.

(** * One terminator *)

Definition closing (u : Usage) : list jstr :=
  (if bool_decide (is_Some (prompt_tokens u) ∨ is_Some (completion_tokens u))
   then [sse_data (usage_chunk u)] else []) ++ [done_frame].

(** The three ways a stream ends. *)
Inductive ending (u : Usage) : list jstr → Prop :=
  | clean_end : ending u (closing u)
  | aborted_end : ending u [sse_data aborted_chunk; done_frame]
  | cutoff_end : ending u [sse_data cutoff_chunk; done_frame].

Definition joined (ds : list D) : option jstr :=
  match ds with [] => None | _ => Some (concat (delta_frame <$> ds)) end.

Definition live (b : AiStreamBody) : Prop :=
  inner b = true ∧ ended (translator b) = false ∧ tail_emitted (translator b) = false ∧ tail b = [] ∧
  cut_off b = false.

Definition stopped (b : AiStreamBody) : Prop := ended (translator b) || negb (inner b) = true.

Lemma served_stopped inputs b : stopped b → served inputs b = (tail b, true, set_tail [] b).
Proof. intros Hs. by destruct inputs; cbn [served]; cbn; rewrite Hs. Qed.

Lemma served_live i inputs b : live b →
  served (i :: inputs) b =
  let '(o, b) := on_polled i b in
  let '(out, e, b) := served inputs b in (option_list o ++ out, e, b).
Proof.
  intros (Hi & He & _ & Ht & _). cbn [served]. rewrite Ht, (set_tail_nil b), Hi, He by done. done.
Qed.

(** A spend changes the budget and the watermarks. *)
Lemma spend_frame b :
  let b' := (budget_spend_delta b).2 in
  inner b' = inner b ∧ translator b' = translator b ∧ tail b' = tail b ∧ cut_off b' = cut_off b ∧
  (budget b = None → budget b' = None).
Proof.
  unfold budget_spend_delta. destruct (budget b) as [g|] eqn:E; [|done].
  destruct (_ && _); [done|]. by destruct (spend _ _ _).
Qed.

(** So does a tick, unless it cuts the stream. *)
Lemma tick_cases b : ∃ b',
  budget_tick b = b' ∧ translator b' = translator b ∧ (budget b = None → b' = b) ∧
  (inner b' = inner b ∧ tail b' = tail b ∧ cut_off b' = cut_off b ∨
   ended (translator b) = false ∧ inner b' = false ∧ tail b' = tail b ++ [sse_data cutoff_chunk; done_frame] ∧
   cut_off b' = true).
Proof.
  eexists. split; [done|]. unfold budget_tick. destruct (budget b) eqn:E; [|by repeat split; left].
  destruct (spend_frame b) as (Hi & Ht & Hl & Hc & _).
  destruct (budget_spend_delta b) as [crossed b1]. simpl in *. rewrite <- Ht.
  destruct (crossed && negb (cut_off b1) && negb (ended (translator b1))) eqn:Ec; simpl.
  - split; [done|]. split; [done|]. right. rewrite Hl. repeat split.
    destruct (ended (translator b1)); [|done]. by rewrite andb_false_r in Ec.
  - split; [done|]. split; [done|]. by left.
Qed.

(** What the translator of a live body becomes. *)
Definition moved (frames : list SseFrame) (buf : jstr) (t : StreamTranslator) : StreamTranslator :=
  Translator buf (foldl usage_step (usage t) (frames ≫= events_in)) (existsb closes frames) false.

Lemma joined_frames ds (b : AiStreamBody) :
  match delta_frame <$> ds with
  | [] => (None, b)
  | _ => (Some (concat (delta_frame <$> ds)), b)
  end = (joined ds, b).
Proof. by destruct ds. Qed.

Lemma on_data bytes frames buf b : guardrails_empty = true → live b →
  push bytes (decoder (translator b)) = (frames, buf) →
  let b1 := budget_tick (set_translator (moved frames buf (translator b)) b) in
  on_polled (Data bytes) b =
  (joined (deltas frames),
   if existsb closes frames
   then extend_tail (closing (usage (translator b1))) (set_translator (set_emitted (translator b1)) b1)
   else b1).
Proof.
  intros Hg (Hi & He & Hm & Ht & Hc) Hp. cbn [on_polled]. unfold feed. rewrite Hp, translate_events.
  cbn [decoder usage ended tail_emitted set_decoder]. rewrite He, Hm. cbn [orb].
  fold (moved frames buf (translator b)).
  destruct (tick_cases (set_translator (moved frames buf (translator b)) b)) as (b1 & E & Et & _).
  cbn zeta. rewrite E, Et. cbn [set_translator translator]. unfold finish. cbn [moved ended tail_emitted usage].
  assert (Hgr : ∀ text b, guardrail_tick text b = b) by (intros; unfold guardrail_tick; by rewrite Hg).
  rewrite Hgr. rewrite joined_frames. by destruct (existsb closes frames).
Qed.

Lemma on_closed b : live b →
  on_polled Closed b =
  let frames := Sse.finish (decoder (translator b)) in
  let t := moved frames [] (translator b) in
  (joined (deltas frames), extend_tail (closing (usage t)) (set_translator (set_emitted t) b)).
Proof.
  intros (Hi & He & Hm & Ht & Hc). cbn [on_polled]. unfold flush_partial. rewrite translate_events.
  cbn [decoder usage ended tail_emitted set_decoder]. rewrite He, Hm. cbn [orb].
  unfold finish. cbn [tail_emitted translator set_translator usage].
  destruct (deltas (Sse.finish (decoder (translator b)))) as [|d ds] eqn:Ed; [done|]. done.
Qed.

Lemma deltas_app f g : deltas (f ++ g) = deltas f ++ deltas g.
Proof. unfold deltas. by rewrite bind_app, omap_app. Qed.

Definition terminates (i : polled) : bool := match i with Closed | Broken => true | _ => false end.

(** A live body, after one provider frame, is live still or has its ending. *)
Lemma polled_cases i b : guardrails_empty = true → live b →
  ∃ ds b', on_polled i b = (joined ds, b') ∧
    (live b' ∧ terminates i = false ∧
       (∀ inputs, deltas (reported (i :: inputs) (decoder (translator b))) =
                  ds ++ deltas (reported inputs (decoder (translator b')))) ∨
     stopped b' ∧ ending (usage (translator b')) (tail b') ∧
       (∀ inputs, ds `prefix_of` deltas (reported (i :: inputs) (decoder (translator b))))).
Proof.
  intros Hg Hb. pose proof Hb as (Hi & He & Hm & Ht & Hc). destruct i as [bytes| | |].
  - destruct (push bytes (decoder (translator b))) as [frames buf] eqn:Hp.
    rewrite (on_data _ _ _ _ Hg Hb Hp). cbn zeta.
    destruct (tick_cases (set_translator (moved frames buf (translator b)) b)) as (b1 & E & Et & _ & Hcases).
    rewrite E, Et. cbn [set_translator translator inner tail cut_off moved ended usage] in *.
    assert (Hr : ∀ inputs, deltas (reported (Data bytes :: inputs) (decoder (translator b))) =
      deltas frames ++ deltas (reported inputs buf)).
    { intros inputs. cbn [reported]. by rewrite Hp, deltas_app. }
    do 2 eexists. split; [done|]. destruct (existsb closes frames) eqn:Ecl.
    + right. split; [done|]. split; [|intros; rewrite Hr; by eexists].
      destruct Hcases as [(_ & Hl & _)|[? _]]; [|done]. cbn. rewrite Hl, Ht. constructor.
    + destruct Hcases as [(Hi' & Hl & Hc')|(_ & Hi' & Hl & _)].
      * left. unfold live. rewrite Et, Hi', Hl, Hc'. cbn. rewrite Ecl. split; [done|]. split; [done|]. apply Hr.
      * right. unfold stopped. rewrite Et, Hi', Hl, Ht. split; [by rewrite orb_true_r|].
        split; [constructor|]. intros; rewrite Hr; by eexists.
  - exists [], b. split; [done|]. by left.
  - exists [], (extend_tail [sse_data aborted_chunk; done_frame] (set_translator (set_emitted (translator b)) b)).
    split; [done|]. right. split; [done|]. cbn. rewrite Ht. split; [constructor|]. intros; by eexists.
  - rewrite (on_closed _ Hb). do 2 eexists. split; [done|]. right. split; [done|]. cbn. rewrite Ht.
    split; [constructor|]. done.
Qed.

Lemma served_batches inputs b out e b' : guardrails_empty = true → live b →
  served inputs b = (out, e, b') →
  ∃ batches ending_frames,
    out = ((λ ds, concat (delta_frame <$> ds)) <$> batches) ++ ending_frames ∧
    Forall (λ ds, ds ≠ []) batches ∧
    concat batches `prefix_of` deltas (reported inputs (decoder (translator b))) ∧
    (if e then ending (usage (translator b')) ending_frames else ending_frames = []) ∧
    (existsb terminates inputs = true → e = true).
Proof.
  intros Hg. revert b out e b'. induction inputs as [|i inputs IH]; intros b out e b' Hb Hs.
  - pose proof Hb as (Hi & He & _ & Ht & _). cbn [served] in Hs. rewrite Ht, (set_tail_nil b), Hi, He in Hs by done.
    injection Hs as <- <- <-. exists [], []. split_and!; [done|constructor|apply prefix_nil|done|done].
  - rewrite served_live in Hs by done.
    destruct (polled_cases i b Hg Hb) as (ds & b1 & Ep & Hcases). rewrite Ep in Hs.
    assert (Hds : ∀ rest tl, concat rest `prefix_of` tl →
      ∃ batches, option_list (joined ds) ++ ((λ ds, concat (delta_frame <$> ds)) <$> rest) =
        (λ ds, concat (delta_frame <$> ds)) <$> batches ∧
        (Forall (λ ds, ds ≠ []) rest → Forall (λ ds, ds ≠ []) batches) ∧
        concat batches = ds ++ concat rest).
    { intros rest tl _. destruct ds as [|d ds]; [by exists rest|]. exists ((d :: ds) :: rest).
      split; [done|]. split; [|done]. intros. by constructor. }
    destruct Hcases as [(Hl & Hi & Hr)|(Hst & Hend & Hr)].
    + destruct (served inputs b1) as [[out1 e1] b2] eqn:E1. injection Hs as <- <- <-.
      destruct (IH _ _ _ _ Hl E1) as (rest & tl & -> & Hne & Hpre & He & Hlive).
      destruct (Hds rest _ Hpre) as (batches & Eb & Hbn & Hcat). exists batches, tl.
      rewrite app_assoc, Eb, Hr, Hcat. split; [done|]. split; [auto|]. split; [by apply prefix_app|].
      split; [done|]. simpl. by rewrite Hi.
    + rewrite served_stopped in Hs by done. injection Hs as <- <- <-.
      destruct (Hds [] [] (prefix_nil _)) as (batches & Eb & Hbn & Hcat). exists batches, (tail b1).
      rewrite app_nil_r in Eb. rewrite Eb, Hcat, app_nil_r. split; [done|]. split; [auto|]. split; [apply Hr|].
      split; [|done]. destruct b1; exact Hend.
Qed.

(** A stream is a prefix of the provider's deltas and then one ending.  With
    no guardrails, whatever the provider sends and whatever the budget does, the
    client polls a stream to its end, which comes once the provider closes or
    breaks; what it gets are the provider's deltas in order, a prefix of them,
    each batch in one frame, and, if the stream has ended, one ending: the usage,
    if any was reported, and [[DONE]], or one error and [[DONE]]. *)
Theorem one_terminator inputs g out e b :
  guardrails_empty = true → served inputs (new_body g) = (out, e, b) →
  serve (S (length out)) inputs (new_body g) = Some (out, e, b) ∧
  (existsb terminates inputs = true → e = true) ∧
  ∃ batches ending_frames,
    out = ((λ ds, concat (delta_frame <$> ds)) <$> batches) ++ ending_frames ∧
    Forall (λ ds, ds ≠ []) batches ∧
    concat batches `prefix_of` deltas (reported inputs []) ∧
    if e then ending (usage (translator b)) ending_frames else ending_frames = [].
Proof.
  intros Hg Hs. split; [rewrite serve_served; rewrite Hs; [done|simpl; lia]|].
  destruct (served_batches inputs (new_body g) out e b Hg ltac:(done) Hs) as (batches & tl & ? & ? & ? & ? & ?).
  eauto 10.
Qed.

(** * End to end *)

Lemma concat_joined ds l : concat (option_list (joined ds) ++ l) = concat (delta_frame <$> ds) ++ concat l.
Proof. by destruct ds. Qed.

(** The frames up to the first that closes the stream, that one included. *)
Fixpoint until_close (fs : list SseFrame) : list SseFrame :=
  match fs with
  | [] => []
  | f :: fs => f :: if closes f then [] else until_close fs
  end.

Lemma until_close_app f g :
  until_close (f ++ g) = if existsb closes f then until_close f else f ++ until_close g.
Proof.
  induction f as [|x f IH]; [done|]. simpl. destruct (closes x); simpl; [done|]. rewrite IH.
  by destruct (existsb closes f).
Qed.

Lemma until_close_prefix fs : until_close fs `prefix_of` fs.
Proof.
  induction fs as [|f fs IH]; simpl; [done|]. apply prefix_cons. by destruct (closes f); [apply prefix_nil|].
Qed.

(** Where only the last frame may close the stream, they are all the frames. *)
Lemma until_close_all fs : Forall (λ f, closes f = false) (removelast fs) → until_close fs = fs.
Proof.
  induction fs as [|f fs IH]; [done|]. destruct fs as [|g fs]; [by simpl; destruct (closes f)|].
  change (removelast (f :: g :: fs)) with (f :: removelast (g :: fs)). intros [Hf Hfs]%list.Forall_cons.
  cbn [until_close] in *. rewrite Hf. by rewrite IH.
Qed.

(** Neither the budget nor a guardrail has cut the stream. *)
Definition uncut (b : AiStreamBody) : Prop := cut_off b = false ∧ guardrail_cut_off b = false.

Lemma tick_guardrail b : guardrail_cut_off (budget_tick b) = guardrail_cut_off b.
Proof.
  unfold budget_tick, budget_spend_delta. destruct (budget b) as [g|]; [|done].
  destruct (_ && _); [by destruct (_ && _)|]. destruct (spend _ _ _) as [crossed g']. by destruct (_ && _).
Qed.

Lemma guardrail_cases text b :
  guardrail_tick text b = b ∨ stopped (guardrail_tick text b) ∧ ¬ uncut (guardrail_tick text b).
Proof.
  unfold guardrail_tick. destruct (_ || _); [by left|]. destruct (check_stream_chunk _); [|by left].
  right. split; [apply orb_true_r|]. by intros [_ ?].
Qed.

(** After a chunk a live body has been cut, has its clean ending, or is live. *)
Lemma data_cases bytes frames buf b : live b → guardrail_cut_off b = false →
  push bytes (decoder (translator b)) = (frames, buf) →
  let t := moved frames buf (translator b) in
  ∃ b1, on_polled (Data bytes) b = (joined (deltas frames), b1) ∧
    (stopped b1 ∧ ¬ uncut b1 ∨
     existsb closes frames = true ∧ stopped b1 ∧ tail b1 = closing (usage t) ∨
     existsb closes frames = false ∧ live b1 ∧ guardrail_cut_off b1 = false ∧ translator b1 = t).
Proof.
  intros (Hi & He & Hm & Ht & Hc) Hgc Hp t. cbn [on_polled]. unfold feed. rewrite Hp, translate_events.
  cbn [decoder usage ended tail_emitted set_decoder]. rewrite He, Hm. cbn [orb].
  fold (moved frames buf (translator b)). fold t.
  pose proof (tick_guardrail (set_translator t b)) as Hgt.
  destruct (tick_cases (set_translator t b)) as (b1 & E & Et & _ & Hcases).
  cbn zeta. rewrite E in *. rewrite Et. cbn [set_translator translator inner tail cut_off guardrail_cut_off] in *.
  set (b2 := if ended t then _ else b1).
  assert (H2 : stopped b2 ∧ ¬ uncut b2 ∨
    existsb closes frames = true ∧ stopped b2 ∧ tail b2 = closing (usage t) ∨
    existsb closes frames = false ∧ live b2 ∧ guardrail_cut_off b2 = false ∧ translator b2 = t).
  { unfold b2. cbn [t moved ended]. destruct (existsb closes frames) eqn:Ecl.
    - destruct Hcases as [(_ & Hl & _)|[Hx _]]; [|cbn in Hx; congruence].
      right; left. split; [done|]. split; [done|]. cbn. by rewrite Hl, Ht.
    - destruct Hcases as [(Hi1 & Hl & Hc1)|(_ & Hi1 & _ & Hc1)].
      + right; right. split; [done|]. split; [|by rewrite Hgt].
        unfold live. rewrite Et, Hi1, Hl, Hc1. cbn. by rewrite Ecl.
      + left. split; [by unfold stopped; rewrite Hi1, orb_true_r|]. intros [? _]. congruence. }
  clearbody b2. destruct (deltas frames) as [|d ds]; [by exists b2|].
  eexists. split; [done|].
  match goal with |- context [guardrail_tick ?x b2] => destruct (guardrail_cases x b2) as [->|?] end; [done|by left].
Qed.

(** What a provider sends in chunks and then closes, if nothing cuts it: all of
    its frames up to the first that closes, and of the later ones those that
    came in the same chunk. *)
Lemma chunks_served chunks b out e b' : live b → guardrail_cut_off b = false →
  served ((Data <$> chunks) ++ [Closed]) b = (out, e, b') → uncut b' →
  let frames := reported ((Data <$> chunks) ++ [Closed]) (decoder (translator b)) in
  e = true ∧
  ∃ fs, until_close frames `prefix_of` fs ∧ fs `prefix_of` frames ∧
    concat out = concat ((delta_frame <$> deltas fs) ++
                         closing (foldl usage_step (usage (translator b)) (fs ≫= events_in))).
Proof.
  revert b out e b'. induction chunks as [|bytes chunks IH]; intros b out e b' Hb Hgc Hs Hu;
    cbn [fmap list_fmap app reported] in *; rewrite served_live in Hs by done.
  - rewrite on_closed in Hs by done. cbv beta iota zeta in Hs. rewrite served_stopped in Hs by done.
    injection Hs as <- <- _. split; [done|]. eexists. split; [apply until_close_prefix|]. split; [done|].
    destruct Hb as (_ & _ & _ & Ht & _). cbn. by rewrite Ht, concat_joined, !concat_app.
  - destruct (push bytes (decoder (translator b))) as [f buf] eqn:Hp.
    destruct (data_cases _ _ _ _ Hb Hgc Hp) as (b1 & E & Hcases). rewrite E in Hs. clear E.
    set (F := reported _ buf). destruct Hcases as [[Hst Hcut]|[(Hcl & Hst & Ht)|(Hcl & Hl & Hg1 & Et)]].
    + rewrite served_stopped in Hs by done. injection Hs as _ _ <-. by destruct Hcut.
    + rewrite served_stopped in Hs by done. injection Hs as <- <- _. split; [done|]. exists f.
      rewrite until_close_app, Hcl. split; [apply until_close_prefix|]. split; [by apply prefix_app_r|].
      by rewrite concat_joined, concat_app, Ht.
    + destruct (served _ b1) as [[out1 e1] b2] eqn:E1. injection Hs as <- <- ->.
      destruct (IH _ _ _ _ Hl Hg1 E1 Hu) as (-> & fs & Hpre & Hall & Ec). rewrite Et in *. cbn [moved decoder usage] in *.
      split; [done|]. exists (f ++ fs). rewrite until_close_app, Hcl. split; [by apply prefix_app|].
      split; [by apply prefix_app|]. rewrite concat_joined, Ec.
      by rewrite deltas_app, fmap_app, bind_app, foldl_app, <- app_assoc, (concat_app (delta_frame <$> deltas f)).
Qed.

Definition one_line (v : jstr) : Prop := (10 ∉ v)%N ∧ (13 ∉ v)%N.

Lemma strip_cr_id v : (13 ∉ v)%N → strip_cr v = v.
Proof.
  induction v as [|c v IH]; [done|]. intros Hv. apply not_elem_of_cons in Hv as [Hc Hv].
  destruct v as [|d v]; simpl in *; [by case_match eqn:E; [apply N.eqb_eq in E|]|].
  f_equal. by apply IH.
Qed.

(** The client's decoder reads what [sse_data] wrote. *)
Lemma decode_frames vs : Forall one_line vs →
  (drain (concat (sse_data <$> vs))).1 = Frame None <$> vs.
Proof.
  intros Hvs. set (lines := vs ≫= λ v, [u "data: " ++ v; []]).
  assert (E : concat (sse_data <$> vs) = lines_text ([] ++ lines) ++ []).
  { rewrite app_nil_r. unfold lines, lines_text. clear Hvs. induction vs as [|v vs IH]; [done|].
    csimpl. rewrite IH. unfold sse_data. by rewrite <- !app_assoc. }
  assert (Hcr : ∀ v, one_line v → strip_cr (u "data: " ++ v) = u "data: " ++ v).
  { intros v [_ Hv]. apply strip_cr_id. apply not_elem_of_app. split; [|done].
    apply (bool_decide_unpack _). vm_compute. exact I. }
  rewrite E, drain_lines.
  - unfold lines. clear E lines. induction Hvs as [|v vs Hv Hvs IH]; [done|].
    rewrite bind_cons, fmap_cons. cbn [app events_of].
    assert (Hb : blank (u "data: " ++ v) = false) by (unfold blank; by rewrite Hcr).
    rewrite Hb. cbn [app]. change (blank []) with true. cbn [app]. rewrite IH. f_equal.
    unfold frame_of. cbn [foldl]. unfold take_line. rewrite Hcr by done. by destruct v as [|c v].
  - cbn [app]. unfold lines. clear E lines. induction Hvs as [|v vs Hv Hvs IH]; [constructor|].
    rewrite bind_cons. cbn [app]. repeat apply list.Forall_cons_2; [| |done].
    + split; [|by rewrite !Hcr]. apply not_elem_of_app. split; [|apply Hv].
      apply (bool_decide_unpack _). vm_compute. exact I.
    + split; [apply not_elem_of_nil|done].
  - constructor.
  - apply not_elem_of_nil.
Qed.

Definition closing_payloads (v : Usage) : list jstr :=
  (if bool_decide (is_Some (prompt_tokens v) ∨ is_Some (completion_tokens v))
   then [usage_chunk v] else []) ++ [u "[DONE]"].

Lemma closing_data v : closing v = sse_data <$> closing_payloads v.
Proof. unfold closing, closing_payloads. by case_bool_decide. Qed.

Lemma reported_chunks chunks buf :
  reported ((Data <$> chunks) ++ [Closed]) buf =
  (push_all chunks buf).1 ++ Sse.finish (push_all chunks buf).2.
Proof.
  revert buf. induction chunks as [|bytes chunks IH]; intros buf; [done|].
  cbn [fmap list_fmap app reported push_all]. destruct (push bytes buf) as [f r]. rewrite IH.
  destruct (push_all chunks r) as [f' r']. apply app_assoc.
Qed.

(** C15: End to end.  A text that the provider sends in any chunks, cut between
    characters, and then closes reaches the client, decoded again, unless the
    budget or a guardrail cuts the stream: one frame per delta, in order, the
    merged usage if any was reported, and [[DONE]].  It is of every frame of the
    text up to the first that closes the stream; where the text was cut decides
    only which of the frames after that one still count, and nothing where no
    frame follows it. *)
Theorem end_to_end texts g out e b :
  (∀ d, one_line (delta_chunk d)) → (∀ v, one_line (usage_chunk v)) →
  Forall (λ t, forallb is_char t = true) texts →
  served ((Data <$> (utf8_bytes <$> texts)) ++ [Closed]) (new_body g) = (out, e, b) →
  cut_off b = false → guardrail_cut_off b = false →
  let frames := (drain (concat texts)).1 ++ Sse.finish (drain (concat texts)).2 in
  e = true ∧
  ∃ fs, until_close frames `prefix_of` fs ∧ fs `prefix_of` frames ∧
    (Forall (λ f, closes f = false) (removelast frames) → fs = frames) ∧
    (drain (concat out)).1 =
      Frame None <$> (delta_chunk <$> deltas fs) ++ closing_payloads (usage_after fs).
Proof.
  intros Hd Hu Ht Hs Hc Hg frames.
  assert (Ef : reported ((Data <$> (utf8_bytes <$> texts)) ++ [Closed]) [] = frames).
  { rewrite reported_chunks, push_all_texts by done. done. }
  destruct (chunks_served (utf8_bytes <$> texts) (new_body g) out e b) as (-> & fs & Hpre & Hall & Ec); try done.
  change (decoder (translator (new_body g))) with (@nil N) in *. rewrite Ef in *.
  change (usage (translator (new_body g))) with no_usage in Ec.
  split; [done|]. exists fs. split; [done|]. split; [done|]. split.
  { intros Hn%until_close_all. rewrite Hn in Hpre. apply prefix_length_eq; [done|]. by apply prefix_length. }
  rewrite Ec, closing_data.
  replace (delta_frame <$> deltas fs) with (sse_data <$> (delta_chunk <$> deltas fs))
    by (by rewrite <- list_fmap_compose).
  rewrite <- fmap_app. apply decode_frames. apply list.Forall_app. split.
  - apply list.Forall_fmap, list.Forall_forall. intros d _. apply Hd.
  - unfold closing_payloads. case_bool_decide; repeat constructor; try apply Hu;
      apply (bool_decide_unpack _); vm_compute; exact I.
Qed.

End Stream.

(** * What is spent *)

Section Ledger.
Context {D G : Type} `{ProviderAdapter D} `{ClientChunks D} `{Guards G}.
(** The spends that a budget has seen, whatever else it keeps and decides. *)
Context (log_of : G → list (Z * Z)).
Context (spend_logs : ∀ t c g, log_of (spend t c g).2 = log_of g ++ [(t, c)]).

Abbreviation body := (@AiStreamBody G).

Definition cost_of (v : Usage) : Z := default 0 (cost_micros v).

Definition sum_of (l : list Z) : Z := foldr Z.add 0 l.

Lemma sum_snoc l x : sum_of (l ++ [x]) = sum_of l + x.
Proof. unfold sum_of. induction l as [|y l IH]; simpl in *; lia. Qed.

(** The watermarks are the sums, and what some frames had reported. *)
Definition accounted (b : body) (fs : list SseFrame) : Prop :=
  usage (translator b) = usage_after fs ∧
  ∃ g, budget b = Some g ∧
    sum_of (log_of g).*1 = budget_spent_tokens b ∧ sum_of (log_of g).*2 = budget_spent_cost_micros b ∧
    (∃ f, f `prefix_of` fs ∧ budget_spent_tokens b = total_of (usage_after f)) ∧
    (budget_spent_cost_micros b = 0 ∨
     ∃ f, f `prefix_of` fs ∧ budget_spent_cost_micros b = cost_of (usage_after f)).

Definition paid (b : body) : Prop :=
  total_of (usage (translator b)) ≤ budget_spent_tokens b ∧
  cost_of (usage (translator b)) ≤ budget_spent_cost_micros b.

Lemma accounted_more b b' f fs :
  usage (translator b') = foldl usage_step (usage (translator b)) (f ≫= events_in) →
  budget b' = budget b → budget_spent_tokens b' = budget_spent_tokens b →
  budget_spent_cost_micros b' = budget_spent_cost_micros b →
  accounted b fs → accounted b' (fs ++ f).
Proof.
  intros Hu Hb Ht Hc (E & log & El & S1 & S2 & (g & Hg & Eg) & S3). split.
  - unfold usage_after in *. by rewrite Hu, E, bind_app, foldl_app.
  - exists log. rewrite Hb, Ht, Hc. split_and!; [done..| |].
    + exists g. split; [by apply prefix_app_r|done].
    + destruct S3 as [?|(h & Hh & Eh)]; [by left|right]. exists h. split; [by apply prefix_app_r|done].
Qed.

Lemma accounted_same b b' fs :
  usage (translator b') = usage (translator b) → budget b' = budget b →
  budget_spent_tokens b' = budget_spent_tokens b →
  budget_spent_cost_micros b' = budget_spent_cost_micros b →
  accounted b fs → accounted b' fs.
Proof. intros. rewrite <- (app_nil_r fs). eapply (accounted_more b); [done..|eassumption]. Qed.

(** A spend charges what is missing, once. *)
Lemma spend_accounted b fs : accounted b fs →
  accounted (budget_spend_delta b).2 fs ∧ paid (budget_spend_delta b).2.
Proof using spend_logs.
  intros (E & log & El & S1 & S2 & (g & Hg & Eg) & S3). unfold budget_spend_delta. rewrite El.
  set (T := total_of (usage (translator b))).
  change (default 0 (cost_micros (usage (translator b)))) with (cost_of (usage (translator b))).
  set (C := cost_of (usage (translator b))).
  destruct ((Z.max 0 (T - budget_spent_tokens b) =? 0) && (Z.max 0 (C - budget_spent_cost_micros b) =? 0)) eqn:Ez.
  - split; [split; [done|]; exists log; split_and!; [done..|by exists g|done]|].
    apply andb_true_iff in Ez as [Ht%Z.eqb_eq Hc%Z.eqb_eq]. unfold paid. simpl. fold T C. lia.
  - pose proof (spend_logs (Z.max 0 (T - budget_spent_tokens b)) (Z.max 0 (C - budget_spent_cost_micros b)) log) as Hl.
    destruct (spend _ _ log) as [crossed log']. cbn [snd] in *. unfold paid, accounted.
    cbn [translator budget budget_spent_tokens budget_spent_cost_micros]. fold T C.
    split; [split; [done|]|lia]. exists log'. split; [done|]. rewrite Hl, !fmap_app. csimpl.
    rewrite !sum_snoc, S1, S2. split; [lia|]. split; [lia|]. split.
    + destruct (Z.max_spec T (budget_spent_tokens b)) as [[_ ->]|[_ ->]]; [by exists g|].
      exists fs. split; [done|]. unfold T. by rewrite E.
    + destruct (Z.max_spec C (budget_spent_cost_micros b)) as [[_ ->]|[_ ->]]; [done|].
      right. exists fs. split; [done|]. unfold C. by rewrite E.
Qed.

(** Once the budget has cut the stream, nothing is left to pay. *)
Definition settled (b : body) (fs : list SseFrame) : Prop :=
  accounted b fs ∧ (cut_off b = true → inner b = false ∧ paid b).

Lemma settled_same b b' fs :
  usage (translator b') = usage (translator b) → budget b' = budget b →
  budget_spent_tokens b' = budget_spent_tokens b →
  budget_spent_cost_micros b' = budget_spent_cost_micros b →
  cut_off b' = cut_off b → (inner b = false → inner b' = false) →
  settled b fs → settled b' fs.
Proof.
  intros Hu Hb Ht Hc Ho Hi [Ha Hs]. split; [by eapply accounted_same|].
  rewrite Ho. intros [Hn Hp]%Hs. split; [auto|]. unfold paid in *. by rewrite Hu, Ht, Hc.
Qed.

Lemma tick_settled b fs : accounted b fs → cut_off b = false → settled (budget_tick b) fs.
Proof using spend_logs.
  intros Ha Hc. pose proof (spend_accounted b fs Ha) as [Ha1 Hp1].
  pose proof (spend_frame b) as (_ & _ & _ & Hc1 & _).
  unfold budget_tick. pose proof Ha as (_ & log & -> & _).
  destruct (budget_spend_delta b) as [crossed b1]. simpl in *.
  destruct (crossed && _ && _); [|split; [done|by rewrite Hc1, Hc]].
  split; [by eapply accounted_same; [..|exact Ha1]|by intros _].
Qed.

Lemma guardrail_settled text b fs : settled b fs → settled (guardrail_tick text b) fs.
Proof.
  intros Hs. unfold guardrail_tick. destruct (_ || _); [done|]. destruct (check_stream_chunk _); [|done].
  by eapply settled_same; [..|exact Hs].
Qed.

Lemma ending_settled l b fs : settled b fs → settled (extend_tail l b) fs.
Proof. intros Hs. by eapply settled_same; [..|exact Hs]. Qed.

Lemma emitted_settled b fs : settled b fs → settled (set_translator (set_emitted (translator b)) b) fs.
Proof. intros Hs. by eapply settled_same; [..|exact Hs]. Qed.

Lemma finish_settled b fs : settled b fs →
  settled (let '(l, t) := finish (translator b) in extend_tail l (set_translator t b)) fs.
Proof.
  intros Hs. unfold finish. destruct (tail_emitted (translator b)); apply ending_settled;
    [by eapply settled_same; [..|exact Hs]|by apply emitted_settled].
Qed.

(** What the translator read of one provider frame. *)
Definition read_of (i : polled) (buf : jstr) : list SseFrame * jstr :=
  match i with
  | Data bytes => push bytes buf
  | Closed => (Sse.finish buf, [])
  | Trailers | Broken => ([], buf)
  end.

Lemma reported_read i inputs buf :
  (read_of i buf).1 ++ (if terminates i then [] else reported inputs (read_of i buf).2) = reported (i :: inputs) buf.
Proof. destruct i; simpl; rewrite ?app_nil_r; try done. by destruct (push bytes buf). Qed.

Lemma moved_accounted b f buf fs : accounted b fs →
  accounted (set_translator (translate f (set_decoder buf (translator b))).2 b) (fs ++ f).
Proof. rewrite translate_events. by apply accounted_more. Qed.

Lemma tick_decoder b : decoder (translator (budget_tick b)) = decoder (translator b).
Proof. destruct (tick_cases b) as (b' & -> & E & _). by rewrite E. Qed.

Lemma polled_settled i b fs : settled b fs → inner b = true →
  settled (on_polled i b).2 (fs ++ (read_of i (decoder (translator b))).1).
Proof using spend_logs.
  intros [Ha Hc] Hi. assert (Ho : cut_off b = false).
  { destruct (cut_off b); [|done]. destruct (Hc eq_refl) as [? _]. congruence. }
  assert (Hm : ∀ f buf, settled (set_translator (translate f (set_decoder buf (translator b))).2 b) (fs ++ f)).
  { intros f buf. split; [by apply moved_accounted|]. cbn [cut_off set_translator]. by rewrite Ho. }
  destruct i as [bytes| | |]; cbn [on_polled read_of].
  - unfold feed. destruct (push bytes (decoder (translator b))) as [f buf]. specialize (Hm f buf).
    destruct (translate f (set_decoder buf (translator b))) as [texts t]. cbn [fst snd] in *.
    assert (Ht : settled (budget_tick (set_translator t b)) (fs ++ f)).
    { apply tick_settled; [apply Hm|done]. }
    set (b1 := budget_tick _) in *.
    assert (Hf : settled (if ended (translator b1)
      then let '(l, t) := finish (translator b1) in extend_tail l (set_translator t b1) else b1) (fs ++ f)).
    { destruct (ended _); [by apply finish_settled|done]. }
    destruct texts; [done|]. by apply guardrail_settled.
  - rewrite app_nil_r. by split.
  - rewrite app_nil_r. apply ending_settled, emitted_settled. by split.
  - unfold flush_partial. specialize (Hm (Sse.finish (decoder (translator b))) []).
    destruct (translate _ _) as [texts t]. cbn [fst snd] in *.
    pose proof (finish_settled _ _ Hm) as Hf. cbn [translator set_translator] in *.
    destruct (finish t) as [l t']. by destruct (concat texts).
Qed.

Lemma guardrail_translator text b : translator (guardrail_tick text b) = translator b.
Proof. unfold guardrail_tick. destruct (_ || _); [done|]. by destruct (check_stream_chunk _). Qed.

Lemma forwarded_translator texts b :
  translator (match texts with
              | [] => (@None jstr, b)
              | _ => let joined := concat texts in (Some joined, guardrail_tick joined b)
              end).2 = translator b.
Proof. destruct texts; [done|]. apply guardrail_translator. Qed.

Lemma polled_decoder i b : tail_emitted (translator b) = false →
  stopped (on_polled i b).2 ∨
  terminates i = false ∧ tail_emitted (translator (on_polled i b).2) = false ∧
  decoder (translator (on_polled i b).2) = (read_of i (decoder (translator b))).2.
Proof.
  intros Hm. destruct i as [bytes| | |]; cbn [on_polled read_of].
  - unfold feed. destruct (push bytes (decoder (translator b))) as [f buf]. rewrite translate_events.
    cbn [decoder usage ended tail_emitted set_decoder fst snd]. rewrite Hm.
    set (t := Translator _ _ _ _). destruct (tick_cases (set_translator t b)) as (b1 & -> & Et & _).
    rewrite Et. cbn [set_translator translator].
    unfold stopped. rewrite forwarded_translator. destruct (ended t) eqn:Ee.
    + left. unfold finish. rewrite (eq_refl : tail_emitted t = false). done.
    + right. rewrite Et. done.
  - by right.
  - by left.
  - left. unfold flush_partial. rewrite translate_events. cbn [usage ended tail_emitted set_decoder decoder]. rewrite Hm.
    unfold finish. cbn [translator set_translator tail_emitted]. by destruct (concat _).
Qed.

Lemma served_settled inputs b fs out e b' :
  settled b fs → (stopped b ∨ tail_emitted (translator b) = false) → served inputs b = (out, e, b') →
  ∃ f, settled b' (fs ++ f) ∧ f `prefix_of` reported inputs (decoder (translator b)).
Proof using spend_logs.
  assert (Hn : ∀ b fs, settled b fs → settled (set_tail [] b) fs).
  { intros b0 fs0 Hs. by eapply settled_same; [..|exact Hs]. }
  revert b fs out e b'. induction inputs as [|i inputs IH]; intros b fs out e b' Hs Hm.
  - intros E. exists []. rewrite app_nil_r. split; [|apply prefix_nil].
    replace b' with (set_tail [] b); [by apply Hn|]. cbn [served] in E. by destruct (_ || _); injection E.
  - cbn [served]. change (translator (set_tail [] b)) with (translator b).
    change (inner (set_tail [] b)) with (inner b).
    destruct (ended (translator b) || negb (inner b)) eqn:Est.
    { intros [= _ _ <-]. exists []. rewrite app_nil_r. split; [by apply Hn|apply prefix_nil]. }
    assert (Hi : inner b = true) by (destruct (inner b); [done|by rewrite orb_true_r in Est]).
    destruct Hm as [Hm|Hm]; [unfold stopped in Hm; congruence|].
    pose proof (polled_settled i (set_tail [] b) fs (Hn _ _ Hs) Hi) as Hp.
    pose proof (polled_decoder i (set_tail [] b) Hm) as Hd.
    change (translator (set_tail [] b)) with (translator b) in *.
    destruct (on_polled i (set_tail [] b)) as [o b1]. cbn [snd] in *.
    destruct (served inputs b1) as [[out1 e1] b2] eqn:E1. intros [= _ _ <-].
    rewrite <- reported_read. destruct Hd as [Hst|(Hterm & Hm1 & Hdec)].
    + rewrite served_stopped in E1 by done. injection E1 as _ _ <-.
      eexists. split; [by apply Hn|by eexists].
    + destruct (IH _ _ _ _ _ Hp (or_intror Hm1) E1) as (f & Hf & Hpre).
      eexists. rewrite app_assoc. split; [exact Hf|]. rewrite Hterm. apply prefix_app. by rewrite <- Hdec.
Qed.

(** The accounts of a stream, from a fresh budget to its close. *)
Lemma served_close inputs g out e b : log_of g = [] → served inputs (new_body (Some g)) = (out, e, b) →
  ∃ f, accounted (close b) f ∧ paid (close b) ∧ f `prefix_of` reported inputs [].
Proof using spend_logs.
  intros Hg Hs.
  destruct (served_settled inputs (new_body (Some g)) [] out e b) as (f & [Ha Hc] & Hpre); [|by right|done|].
  { split; [|done]. split; [done|]. exists g. rewrite Hg. split_and!; [done..| |by left]. by exists []. }
  exists f. unfold close. destruct (cut_off b) eqn:Ec.
  - split; [done|]. split; [by apply Hc|done].
  - pose proof (spend_accounted b f Ha) as [Ha1 Hp1]. done.
Qed.

(** Every reported token is spent once.  Whatever the provider sends, the
    prices are, and the budget and the guardrails decide, once the stream is
    closed the tokens and the costs that were spent add up to the watermarks;
    these cover the final usage, and each is what some first part of the frames
    had reported (or, of the cost, nothing). *)
Theorem spent_once inputs g out e b :
  log_of g = [] → served inputs (new_body (Some g)) = (out, e, b) →
  paid (close b) ∧
  ∃ f, f `prefix_of` reported inputs [] ∧ accounted (close b) f.
Proof using spend_logs.
  intros Hg Hs. destruct (served_close inputs g out e b Hg Hs) as (f & Ha & Hp & Hpre).
  split; [done|]. by exists f.
Qed.

End Ledger.

(** * A concrete dialect *)

Section Sample.

(** Payloads [dX] are deltas, [i] and [o], [p] report usage, [e] ends. *)
#[local] Instance sample_adapter : ProviderAdapter jstr := {
  stream_done_sentinel := Some (u "[DONE]");
  parse_stream_event v :=
    match v with
    | [101%N] => Some [Done]
    | [105%N] => Some [UsageReport (MkUsage (Some 25) None None None)]
    | [111%N] => Some [UsageReport (MkUsage None (Some 1) None None)]
    | [112%N] => Some [UsageReport (MkUsage None (Some 200) None None)]
    | 100%N :: d => Some [Delta d]
    | _ => None
    end;
}.

#[local] Instance sample_chunks : ClientChunks jstr := {
  delta_chunk d := if bool_decide ((10 ∉ d)%N ∧ (13 ∉ d)%N) then u "{" ++ d ++ u "}" else u "{}";
  usage_chunk _ := u "usage"; aborted_chunk := u "aborted"; cutoff_chunk := u "cutoff"; blocked_chunk := u "blocked";
}.

(** A budget of 100 tokens at a price of 2 a token; the guardrail redacts
    [secret] and bans [bad]. *)
Definition over_100 (log : list (Z * Z)) : bool := 100 <=? sum_of log.*1.
Definition double_price (v : Usage) : option Z := Some (2 * total_of v).
Definition hide (v : jstr) : jstr := if bool_decide (v = sse_data (u "{secret}")) then sse_data (u "{***}") else v.
Definition bad (v : jstr) : bool := bool_decide (v = sse_data (u "{bad}")).

Definition logged (no_rules : bool) : Guards (list (Z * Z)) := {|
  spend t c log := (over_100 (log ++ [(t, c)]), log ++ [(t, c)]);
  cost_micros := double_price;
  guardrails_empty := no_rules;
  redact_stream_chunk := hide;
  check_stream_chunk := bad;
|}.
#[local] Instance sample_guards : Guards (list (Z * Z)) := logged true.

Definition frames_text (vs : list string) : jstr := concat ((λ v, sse_data (u v)) <$> vs).
Definition frames_data (vs : list string) : polled := Data (utf8_bytes (frames_text vs)).

(** The usage that makes a total once keeps it: a later count does not reach it. *)
Example total_stale :
  total_tokens (foldl merge no_usage
    [MkUsage (Some 25) None None None; MkUsage None (Some 1) None None; MkUsage None (Some 200) None None]) = Some 26 ∧
  (λ b, budget_spent_tokens (close b))
    (served [frames_data ["i"; "da"; "o"; "db"; "p"; "e"]%string] (new_body (Some []))).2 = 26.
Proof. split; vm_compute; reflexivity. Qed.

(** The batch that crosses the limit is forwarded, and then the cutoff. *)
Example cut_mid_stream :
  served [frames_data ["i"; "da"]; frames_data ["db"; "p"]; frames_data ["dc"; "e"]]%string (new_body (Some [])) =
  ([sse_data (u "{a}"); sse_data (u "{b}"); sse_data (u "cutoff"); done_frame], true,
   Body false (Translator [] (MkUsage (Some 25) (Some 200) (Some 225) None) false false) []
     (Some [(25, 50); (200, 400)]) true 225 450 false).
Proof. vm_compute. reflexivity. Qed.

Lemma one_terminator_witness :
  ∃ out b, served [frames_data ["i"; "da"]; Trailers; Broken]%string (new_body (Some [])) = (out, true, b) ∧
    serve (S (length out)) [frames_data ["i"; "da"]; Trailers; Broken]%string (new_body (Some [])) = Some (out, true, b).
Proof.
  eexists _, _. split; [vm_compute; reflexivity|].
  refine (proj1 (one_terminator _ _ _ _ _ eq_refl _)). vm_compute. reflexivity.
Defined.

Definition sample_texts : list jstr :=
  [u "data: i"; [10; 10]%N ++ u "data: da"; [13]%N; [10; 13]%N; [10]%N ++ u "data: " ++ [100; 233]%N;
   [10; 10]%N ++ u ": ping"; [10; 10]%N ++ u "data: o" ++ [10; 10]%N ++ u "data: [DONE]"; []].

Lemma sample_delta_line (d : jstr) : one_line (delta_chunk d).
Proof.
  cbn [delta_chunk sample_chunks]. case_bool_decide as Hd; [|apply (bool_decide_unpack _); vm_compute; exact I].
  destruct Hd as [H10 H13]. split; rewrite !not_elem_of_app; split_and!; try done;
    apply (bool_decide_unpack _); vm_compute; exact I.
Qed.

Lemma end_to_end_witness :
  let frames := (drain (concat sample_texts)).1 ++ Sse.finish (drain (concat sample_texts)).2 in
  ∃ out b, served ((Data <$> (utf8_bytes <$> sample_texts)) ++ [Closed]) (new_body (Some [])) = (out, true, b) ∧
    true = true ∧
    ∃ fs, until_close frames `prefix_of` fs ∧ fs `prefix_of` frames ∧
      (Forall (λ f, closes f = false) (removelast frames) → fs = frames) ∧
      (drain (concat out)).1 =
        Frame None <$> (delta_chunk <$> deltas fs) ++ closing_payloads (usage_after fs).
Proof.
  intros frames. eexists _, _. split; [vm_compute; reflexivity|].
  refine (end_to_end sample_texts (Some []) _ _ _ sample_delta_line _ _ _ _ _).
  - intros v. apply (bool_decide_unpack _). vm_compute. exact I.
  - apply (bool_decide_unpack _). vm_compute. exact I.
  - vm_compute. reflexivity.
  - reflexivity.
  - reflexivity.
Defined.

(** The client's frames of these texts; and where the provider goes on after
    its end, the cut decides what of it counts. *)
Example sample_decoded :
  (drain (concat (served ((Data <$> (utf8_bytes <$> sample_texts)) ++ [Closed]) (new_body (Some []))).1.1)).1 =
    Frame None <$> [u "{a}"; [123; 233; 125]%N; u "usage"; u "[DONE]"].
Proof. vm_compute. reflexivity. Qed.

Example after_the_end :
  (served [frames_data ["e"; "da"]%string; Closed] (new_body None)).1.1 = [sse_data (u "{a}"); done_frame] ∧
  (served [frames_data ["e"]%string; frames_data ["da"]%string; Closed] (new_body None)).1.1 = [done_frame].
Proof. split; vm_compute; reflexivity. Qed.

Lemma spent_once_witness :
  ∃ out b, served [frames_data ["i"; "da"]; frames_data ["db"; "p"]]%string (new_body (Some [])) = (out, true, b) ∧
    paid (close b) ∧
    ∃ f, f `prefix_of` reported [frames_data ["i"; "da"]; frames_data ["db"; "p"]]%string [] ∧
      accounted id (close b) f.
Proof.
  eexists _, _. split; [vm_compute; reflexivity|].
  refine (spent_once id _ _ [] _ _ _ _ _); [reflexivity..|]. vm_compute. reflexivity.
Defined.

End Sample.

(** With guardrails: the text that a redaction rule covers is checked redacted,
    and forwarded as it came; and a stream that the provider has ended in the
    same chunk ends twice. *)
Section Guarded.
#[local] Existing Instances sample_adapter sample_chunks.
#[local] Instance guarded : Guards (list (Z * Z)) := logged false.

Example redaction_not_forwarded :
  (served [frames_data ["dsecret"; "e"]%string] (new_body None)).1.1 = [sse_data (u "{secret}"); done_frame].
Proof. vm_compute. reflexivity. Qed.

Example ends_twice :
  (served [frames_data ["dbad"; "e"]%string] (new_body None)).1.1 =
    [sse_data (u "{bad}"); done_frame; sse_data (u "blocked"); done_frame].
Proof. vm_compute. reflexivity. Qed.

End Guarded.
