(* ===== verification/Budget.v ===== *)
(** AI token budgets and prices (crates/dwara-core/src/ai/budget.rs, ai/cost.rs,
    and the guard of a request in dataplane/ai_proxy.rs).

    The ledger is a map under one lock, so its operations are a sequence; every
    operation is given the clock it read before it took the lock.  A string is
    the list of its characters.  The warning about anonymous callers is left
    out. *)

From S2P Require Import Prelude JsNumber Text Hash Breaker Sse AiStream.
From stdpp Require Import sorting.
Local Open Scope Z_scope.

(** * The ledger *)

Definition SECS_PER_MIN : Z := 60.
Definition SECS_PER_DAY : Z := 86400.

Record Spent : Type := MkSpent { tokens : Z; cost_total : Z }.

Definition nothing : Spent := MkSpent 0 0.

Inductive WindowKind : Type := Minute | Day.

#[global] Instance WindowKind_eq_dec : EqDecision WindowKind.
Proof. solve_decision. Defined.

#[global] Instance WindowKind_countable : Countable WindowKind.
Proof.
  refine (inj_countable' (λ k, match k with Minute => true | Day => false end)
            (λ b : bool, if b then Minute else Day) _). by intros [].
Defined.

Definition BudgetLedger : Type := gmap (jstr * WindowKind) (Z * Spent).

Definition spent (l : BudgetLedger) (key : jstr) (kind : WindowKind) (window_index : Z) : Spent :=
  match l !! (key, kind) with
  | Some (idx, s) => if idx =? window_index then s else nothing
  | None => nothing
  end.

(** [or_insert], and the window rolled. *)
Definition rolled (l : BudgetLedger) (key : jstr) (kind : WindowKind) (window_index : Z) : Spent :=
  match l !! (key, kind) with
  | Some (idx, s) => if negb (idx =? window_index) then nothing else s
  | None => nothing
  end.

Definition spend_tokens (key : jstr) (window_index t : Z) (limit : option Z) (l : BudgetLedger)
    : Z * bool * BudgetLedger :=
  let s := rolled l key Minute window_index in
  let s := MkSpent (saturating_add (tokens s) t) (cost_total s) in
  (tokens s, match limit with Some n => n <? tokens s | None => false end,
   <[(key, Minute) := (window_index, s)]> l).

Definition spend_cost (key : jstr) (window_index c : Z) (l : BudgetLedger) : BudgetLedger :=
  let s := rolled l key Day window_index in
  <[(key, Day) := (window_index, MkSpent (tokens s) (saturating_add (cost_total s) c))]> l.

Definition retain (keep : gset jstr) (l : BudgetLedger) : BudgetLedger :=
  filter (λ e, e.1.1 ∈ keep) l.

(** * The guard of a holder *)

Inductive TokenBudgetScope : Type := ScopeConsumer | ScopePolicy.

Record TokenBudget : Type := MkBudget {
  tokens_per_min : option Z; cost_per_day_micros : option Z; scope : TokenBudgetScope;
}.

Record BudgetGuard : Type := Guard {
  key : jstr; guard_tokens : option Z; guard_cost : option Z; guard_scope : TokenBudgetScope;
}.

Definition minute_index (now_s : Z) : Z := now_s / SECS_PER_MIN.
Definition day_index (now_s : Z) : Z := now_s / SECS_PER_DAY.

Inductive BudgetKind : Type := Tokens | Cost.

Inductive BudgetVerdict : Type :=
  | Allowed
  | Denied (kind : BudgetKind) (retry_after_s : Z).

Definition later_wall (cur : option (BudgetKind * Z)) (kind : BudgetKind) (wait : Z) : option (BudgetKind * Z) :=
  match cur with
  | Some (_, prev) => if wait <=? prev then cur else Some (kind, wait)
  | None => Some (kind, wait)
  end.

Definition minute_wall (now_s : Z) (denial : option (BudgetKind * Z)) : option (BudgetKind * Z) :=
  later_wall denial Tokens (SECS_PER_MIN - now_s mod SECS_PER_MIN).

Definition day_check (g : BudgetGuard) (now_s : Z) (l : BudgetLedger) (denial : option (BudgetKind * Z))
    : option (BudgetKind * Z) :=
  match guard_cost g with
  | Some limit =>
      if limit <=? cost_total (spent l (key g) Day (day_index now_s))
      then later_wall denial Cost (SECS_PER_DAY - now_s mod SECS_PER_DAY) else denial
  | None => denial
  end.

Definition verdict (denial : option (BudgetKind * Z)) : BudgetVerdict :=
  match denial with
  | Some (kind, retry_after_s) => Denied kind retry_after_s
  | None => Allowed
  end.

Definition check (g : BudgetGuard) (now_s : Z) (l : BudgetLedger) : BudgetVerdict :=
  let denial :=
    match guard_tokens g with
    | Some limit =>
        if limit <=? tokens (spent l (key g) Minute (minute_index now_s))
        then minute_wall now_s None else None
    | None => None
    end in
  verdict (day_check g now_s l denial).

Definition check_with_estimate (g : BudgetGuard) (now_s estimated_tokens : Z) (l : BudgetLedger) : BudgetVerdict :=
  let denial :=
    match guard_tokens g with
    | Some limit =>
        let spent := tokens (spent l (key g) Minute (minute_index now_s)) in
        if limit <=? spent then minute_wall now_s None
        else if limit <? saturating_add spent estimated_tokens then minute_wall now_s None
        else None
    | None => None
    end in
  verdict (day_check g now_s l denial).

(** [spend] of [BudgetGuard]. *)
Definition guard_spend (g : BudgetGuard) (now_s : Z) (u : Usage) (cost : Z) (l : BudgetLedger) : bool * BudgetLedger :=
  let '(_, crossed, l) :=
    spend_tokens (key g) (minute_index now_s) (total_of u) (guard_tokens g) l in
  (crossed, if 0 <? cost then spend_cost (key g) (day_index now_s) cost l else l).

(** * The engine of a generation *)

(** What the engine reads of the configuration. *)
Record PolicyCfg : Type := MkPolicy { p_name : jstr; token_budget : option TokenBudget }.
Record ConsumerCfg : Type := MkConsumer {
  c_name : jstr; c_policies : list jstr; c_budget : option TokenBudget;
}.
Record RouteCfg : Type := MkRoute { r_name : jstr; r_service : jstr; r_policies : list jstr }.
Record Attached : Type := MkAttached { a_name : jstr; a_policies : list jstr }.
Record Gateway : Type := MkGateway {
  policies : list PolicyCfg; consumers : list ConsumerCfg; routes : list RouteCfg;
  services : list Attached; listeners : list Attached; global_policies : list jstr;
}.

Record AiBudgetEngine : Type := Engine {
  budgets : gmap jstr TokenBudget; consumer_budgets : gmap jstr TokenBudget;
}.

(** [filter_map] and [collect]: of equal names the last stands. *)
Definition collect {A} (f : A → option (jstr * TokenBudget)) (l : list A) : gmap jstr TokenBudget :=
  foldl (λ m a, match f a with Some (n, b) => <[n := b]> m | None => m end) ∅ l.

Definition compile (g : Gateway) : AiBudgetEngine :=
  Engine (collect (λ p, b ← token_budget p; Some (p_name p, b)) (policies g))
         (collect (λ c, b ← c_budget c; Some (c_name c, b)) (consumers g)).

Definition attached_beyond_consumer (g : Gateway) (policy : jstr) : bool :=
  existsb (λ r, bool_decide (policy ∈ r_policies r)) (routes g)
  || existsb (λ s, bool_decide (policy ∈ a_policies s)) (services g)
  || existsb (λ l, bool_decide (policy ∈ a_policies l)) (listeners g)
  || bool_decide (policy ∈ global_policies g).

Definition keys_of_budget (g : Gateway) (e : jstr * TokenBudget) : list jstr :=
  match scope e.2 with
  | ScopePolicy => [e.1]
  | ScopeConsumer =>
      (c_name <$> filter (λ c, e.1 ∈ c_policies c) (consumers g))
      ++ (if attached_beyond_consumer g e.1 then c_name <$> consumers g else [])
  end.

Definition derivable_keys (g : Gateway) (e : AiBudgetEngine) : gset jstr :=
  dom (consumer_budgets e) ∪ list_to_set (map_to_list (budgets e) ≫= keys_of_budget g).

Definition compile_with_ledger (g : Gateway) (l : BudgetLedger) : AiBudgetEngine * BudgetLedger :=
  let e := compile g in (e, retain (derivable_keys g e) l).

Definition engine_empty (e : AiBudgetEngine) : bool :=
  bool_decide (budgets e = ∅) && bool_decide (consumer_budgets e = ∅).

(** The two loops of [resolve], over the levels laid end to end. *)
Fixpoint first_binding (e : AiBudgetEngine) (consumer : option jstr) (names : list jstr) : option BudgetGuard :=
  match names with
  | [] => None
  | name :: names =>
      match budgets e !! name with
      | None => first_binding e consumer names
      | Some b =>
          match scope b, consumer with
          | ScopeConsumer, Some c => Some (Guard c (tokens_per_min b) (cost_per_day_micros b) (scope b))
          | ScopeConsumer, None => first_binding e consumer names
          | ScopePolicy, _ => Some (Guard name (tokens_per_min b) (cost_per_day_micros b) (scope b))
          end
      end
  end.

Definition resolve (e : AiBudgetEngine) (consumer : option jstr) (levels : list (list jstr)) : option BudgetGuard :=
  match consumer ≫= (λ c, b ← consumer_budgets e !! c; Some (c, b)) with
  | Some (c, b) => Some (Guard c (tokens_per_min b) (cost_per_day_micros b) ScopeConsumer)
  | None => first_binding e consumer (concat levels)
  end.

Definition attached_to (l : list Attached) (name : jstr) : list jstr :=
  from_option a_policies [] (List.find (λ a, bool_decide (a_name a = name)) l).

Definition consumer_policies_of (g : Gateway) (consumer : jstr) : list jstr :=
  from_option c_policies [] (List.find (λ c, bool_decide (c_name c = consumer)) (consumers g)).

Definition service_policies_of (g : Gateway) (service : jstr) : list jstr := attached_to (services g) service.
Definition listener_policies_of (g : Gateway) (listener : jstr) : list jstr := attached_to (listeners g) listener.

(** The guard of a request, as the AI action resolves it. *)
Definition request_guard (g : Gateway) (e : AiBudgetEngine) (consumer : option jstr) (route_name listener_name : jstr)
    : option BudgetGuard :=
  if engine_empty e then None
  else
    let route_cfg := List.find (λ r, bool_decide (r_name r = route_name)) (routes g) in
    resolve e consumer
      [from_option (consumer_policies_of g) [] consumer;
       from_option r_policies [] route_cfg;
       from_option (λ r, service_policies_of g (r_service r)) [] route_cfg;
       listener_policies_of g listener_name;
       global_policies g].

(** * Prices *)

Record Price : Type := MkPrice {
  input_per_1k_micros : Z; output_per_1k_micros : Z; cached_input_per_1k_micros : option Z;
  batch_input_per_1k_micros : option Z; batch_output_per_1k_micros : option Z;
}.

Definition PricingTable : Type := gmap jstr Price.

Definition saturating_mul (a b : Z) : Z := Z.min u64_max (a * b).

Definition cost_of_price (price : Price) (u : Usage) (batch : bool) : Z :=
  let input := default 0 (prompt_tokens u) in
  let output := default 0 (completion_tokens u) in
  if batch then
    let in_rate := default (input_per_1k_micros price) (batch_input_per_1k_micros price) in
    let out_rate := default (output_per_1k_micros price) (batch_output_per_1k_micros price) in
    saturating_add (saturating_mul input in_rate / 1000) (saturating_mul output out_rate / 1000)
  else
    let cached := default 0 (cached_tokens u) in
    let '(input_cost, cached_cost) :=
      match cached_input_per_1k_micros price with
      | Some cached_rate =>
          let non_cached := saturating_sub input cached in
          (saturating_mul non_cached (input_per_1k_micros price) / 1000,
           saturating_mul cached cached_rate / 1000)
      | None => (saturating_mul input (input_per_1k_micros price) / 1000, 0)
      end in
    saturating_add (saturating_add input_cost cached_cost)
      (saturating_mul output (output_per_1k_micros price) / 1000).

Definition table_cost (t : PricingTable) (provider_model : jstr) (u : Usage) (batch : bool) : option Z :=
  price ← t !! provider_model; Some (cost_of_price price u batch).

(** * Reloads *)

Lemma spent_retain keep l k kind i : k ∈ keep → spent (retain keep l) k kind i = spent l k kind i.
Proof.
  intros Hk. unfold spent, retain. destruct (l !! (k, kind)) as [e|] eqn:E.
  - by rewrite (map_lookup_filter_Some_2 _ _ _ _ E).
  - by rewrite (map_lookup_filter_None_2 _ _ _ (or_introl E)).
Qed.

Lemma first_binding_some e consumer names gd : first_binding e consumer names = Some gd →
  ∃ name b, name ∈ names ∧ budgets e !! name = Some b ∧
    match scope b with ScopeConsumer => consumer = Some (key gd) | ScopePolicy => key gd = name end.
Proof.
  induction names as [|name names IH]; [done|]. cbn [first_binding].
  assert (Hn : first_binding e consumer names = Some gd → ∃ n b, n ∈ name :: names ∧ budgets e !! n = Some b ∧
    match scope b with ScopeConsumer => consumer = Some (key gd) | ScopePolicy => key gd = n end).
  { intros (n & b & Hn & Hb)%IH. exists n, b. split; [by apply elem_of_cons; right|done]. }
  destruct (budgets e !! name) as [b|] eqn:Eb; [|done].
  assert (Hh : name ∈ name :: names) by (apply elem_of_cons; by left).
  destruct (scope b) eqn:Es; [destruct consumer as [c|]; [|done]|]; intros [= <-];
    exists name, b; rewrite Es; done.
Qed.

Lemma attached_in l name p : p ∈ attached_to l name → existsb (λ a, bool_decide (p ∈ a_policies a)) l = true.
Proof.
  unfold attached_to. destruct (List.find _ l) as [a|] eqn:E; [|by intros ?%not_elem_of_nil].
  apply List.find_some in E as [Ha _]. simpl. intros Hp. apply existsb_exists.
  exists a. split; [done|]. by apply bool_decide_eq_true.
Qed.

(** What a request's levels name beyond its consumer's own policies is attached
    somewhere any consumer can come. *)
Lemma level_attached g route_name listener_name p :
  let route_cfg := List.find (λ r, bool_decide (r_name r = route_name)) (routes g) in
  p ∈ concat [from_option r_policies [] route_cfg;
              from_option (λ r, service_policies_of g (r_service r)) [] route_cfg;
              listener_policies_of g listener_name; global_policies g] →
  attached_beyond_consumer g p = true.
Proof.
  intros route_cfg. unfold attached_beyond_consumer. rewrite !orb_true_iff. cbn [concat].
  rewrite !elem_of_app. intros [Hp|[Hp|[Hp|[Hp|Hp%not_elem_of_nil]]]]; [| | |right; by apply bool_decide_eq_true|done].
  - left. left. left. unfold route_cfg in Hp. destruct (List.find _ _) as [r|] eqn:E; [|by apply not_elem_of_nil in Hp].
    apply List.find_some in E as [Hr _]. apply existsb_exists. exists r. split; [done|]. by apply bool_decide_eq_true.
  - left. left. right. unfold route_cfg in Hp. destruct (List.find _ _) as [r|]; [|by apply not_elem_of_nil in Hp].
    by eapply attached_in.
  - left. right. by eapply attached_in.
Qed.

Lemma keys_derivable g e name b k : budgets e !! name = Some b → k ∈ keys_of_budget g (name, b) →
  k ∈ derivable_keys g e.
Proof.
  intros Hb Hk. unfold derivable_keys. rewrite elem_of_union, elem_of_list_to_set, list_elem_of_bind. right.
  exists (name, b). split; [done|]. by apply elem_of_map_to_list.
Qed.

Lemma guard_derivable g e consumer route_name listener_name gd :
  (∀ c, consumer = Some c → c ∈ c_name <$> consumers g) →
  request_guard g e consumer route_name listener_name = Some gd → key gd ∈ derivable_keys g e.
Proof.
  intros Hc. unfold request_guard. destruct (engine_empty e); [done|]. unfold resolve.
  destruct (consumer ≫= _) as [[c b]|] eqn:Ed.
  - intros [= <-]. apply bind_Some in Ed as (c' & -> & Hb). apply bind_Some in Hb as (b' & Hb & [= -> ->]).
    unfold derivable_keys. rewrite elem_of_union. left. by apply elem_of_dom_2 in Hb.
  - clear Ed. intros (name & b & Hn & Hb & Hk)%first_binding_some. apply (keys_derivable _ _ _ _ _ Hb).
    unfold keys_of_budget. cbn [fst snd]. destruct (scope b); [|subst; by apply list_elem_of_singleton].
    specialize (Hc _ Hk). subst consumer. apply elem_of_app. cbn [concat from_option] in Hn.
    apply elem_of_app in Hn as [Hn|Hn].
    + left. unfold consumer_policies_of in Hn. destruct (List.find _ _) as [c|] eqn:E; [|by apply not_elem_of_nil in Hn].
      apply List.find_some in E as [Hin E%bool_decide_eq_true]. apply list_elem_of_fmap. exists c.
      split; [done|]. apply list_elem_of_filter. split; [done|]. by apply list_elem_of_In.
    + right. by rewrite (level_attached _ _ _ _ Hn).
Qed.

(** A reload keeps every window that can still bind.  Whatever changes in
    the configuration, the windows of the holder that a request of a configured
    consumer, or of none, is bound to under the new one hold after the reload
    what they held before. *)
Theorem reload_keeps g l consumer route_name listener_name gd kind window_index :
  (∀ c, consumer = Some c → c ∈ c_name <$> consumers g) →
  let '(e, l') := compile_with_ledger g l in
  request_guard g e consumer route_name listener_name = Some gd →
  spent l' (key gd) kind window_index = spent l (key gd) kind window_index.
Proof. intros Hc Hg. apply spent_retain. by eapply guard_derivable. Qed.

(** * Histories *)

(** What happens to a ledger: spends of any holders, and reloads that keep some
    of the keys. *)
Inductive Op : Type :=
  | Spend (gd : BudgetGuard) (now_s : Z) (u : Usage) (cost : Z)
  | Reload (keep : gset jstr).

Definition run_op (l : BudgetLedger) (o : Op) : BudgetLedger :=
  match o with
  | Spend gd now_s u cost => (guard_spend gd now_s u cost l).2
  | Reload keep => retain keep l
  end.

Definition index_of (kind : WindowKind) (now_s : Z) : Z :=
  match kind with Minute => minute_index now_s | Day => day_index now_s end.

Definition field (kind : WindowKind) (s : Spent) : Z :=
  match kind with Minute => tokens s | Day => cost_total s end.

Definition amount (kind : WindowKind) (u : Usage) (cost : Z) : Z :=
  match kind with Minute => total_of u | Day => cost end.

Definition op_amount (kind : WindowKind) (k : jstr) (i : Z) (o : Op) : Z :=
  match o with
  | Spend gd now_s u cost =>
      if bool_decide (key gd = k) && (index_of kind now_s =? i) then amount kind u cost else 0
  | Reload _ => 0
  end.

(** What was spent on a key in a window. *)
Definition spent_in (kind : WindowKind) (k : jstr) (i : Z) (h : list Op) : Z :=
  sum_of (op_amount kind k i <$> h).

(** The clocks of a key's spends. *)
Definition clock_of (k : jstr) (o : Op) : option Z :=
  match o with Spend gd now_s _ _ => if bool_decide (key gd = k) then Some now_s else None | Reload _ => None end.

Definition op_ok (k : jstr) (o : Op) : Prop :=
  match o with
  | Spend _ _ u cost => 0 <= total_of u ∧ 0 <= cost
  | Reload keep => k ∈ keep
  end.

Lemma rolled_spent l k kind i : rolled l k kind i = spent l k kind i.
Proof. unfold rolled, spent. destruct (l !! (k, kind)) as [[j s]|]; [|done]. by destruct (j =? i). Qed.

Lemma spent_insert_ne l k kind k' kind' e i : (k', kind') ≠ (k, kind) →
  spent (<[(k', kind') := e]> l) k kind i = spent l k kind i.
Proof. intros Hne. unfold spent, BudgetLedger in *. by rewrite lookup_insert_ne. Qed.

Lemma spent_insert l k kind j s i :
  spent (<[(k, kind) := (j, s)]> l) k kind i = if j =? i then s else nothing.
Proof. unfold spent, BudgetLedger in *. by rewrite lookup_insert_eq. Qed.

Lemma spent_tokens gk wi t lim l k kind i :
  spent (spend_tokens gk wi t lim l).2 k kind i =
  if bool_decide ((gk, Minute) = (k, kind)) then
    if wi =? i
    then MkSpent (saturating_add (tokens (spent l k Minute i)) t) (cost_total (spent l k Minute i)) else nothing
  else spent l k kind i.
Proof.
  unfold spend_tokens. cbn [snd]. rewrite rolled_spent. case_bool_decide as Hk.
  - injection Hk as -> <-. rewrite spent_insert. by destruct (Z.eqb_spec wi i) as [->|_].
  - by apply spent_insert_ne.
Qed.

Lemma spent_cost gk wi c l k kind i :
  spent (spend_cost gk wi c l) k kind i =
  if bool_decide ((gk, Day) = (k, kind)) then
    if wi =? i
    then MkSpent (tokens (spent l k Day i)) (saturating_add (cost_total (spent l k Day i)) c) else nothing
  else spent l k kind i.
Proof.
  unfold spend_cost. rewrite rolled_spent. case_bool_decide as Hk.
  - injection Hk as -> <-. rewrite spent_insert. by destruct (Z.eqb_spec wi i) as [->|_].
  - by apply spent_insert_ne.
Qed.

(** A spend adds to its window and starts it afresh when it is another. *)
Lemma field_spend kind gd now_s v cost l k i :
  field kind (spent (guard_spend gd now_s v cost l).2 k kind i) =
  if bool_decide (key gd = k) && (match kind with Minute => true | Day => 0 <? cost end)
  then if index_of kind now_s =? i
       then saturating_add (field kind (spent l k kind i)) (amount kind v cost) else 0
  else field kind (spent l k kind i).
Proof.
  unfold guard_spend. pose proof (spent_tokens (key gd) (minute_index now_s) (total_of v) (guard_tokens gd) l k) as Ht.
  destruct (spend_tokens _ _ _ _ l) as [[x y] l']. cbn [snd] in *.
  destruct kind; cbn [index_of field amount].
  - rewrite andb_true_r. transitivity (tokens (spent l' k Minute i)).
    + destruct (0 <? cost); [|done]. rewrite spent_cost. by rewrite bool_decide_false by congruence.
    + rewrite Ht. repeat case_bool_decide; try congruence. by destruct (minute_index now_s =? i).
  - specialize (Ht Day i). rewrite bool_decide_false in Ht by congruence.
    destruct (0 <? cost); [|by rewrite andb_false_r, Ht].
    rewrite andb_true_r, spent_cost, Ht. repeat case_bool_decide; try congruence.
    by destruct (day_index now_s =? i).
Qed.

Lemma index_mono kind a b : a <= b → index_of kind a <= index_of kind b.
Proof. intros H. destruct kind; cbn; unfold minute_index, day_index; apply Z.div_le_mono; done. Qed.

Lemma spent_in_snoc kind k i h o : spent_in kind k i (h ++ [o]) = spent_in kind k i h + op_amount kind k i o.
Proof. unfold spent_in. rewrite fmap_app. apply sum_snoc. Qed.

Lemma spent_in_nonneg kind k i h : Forall (op_ok k) h → 0 <= spent_in kind k i h.
Proof.
  induction 1 as [|o h Ho Hh IH]; [done|]. unfold spent_in in *. csimpl.
  assert (0 <= op_amount kind k i o); [|lia].
  destruct o as [gd now_s v cost|]; simpl; [|done]. destruct (_ && _); [|done]. destruct kind; apply Ho.
Qed.

(** Nothing was spent in a window no clock was in. *)
Lemma spent_in_none kind k i h : Forall (λ n, index_of kind n ≠ i) (omap (clock_of k) h) → spent_in kind k i h = 0.
Proof.
  unfold spent_in. induction h as [|o h IH]; [done|]. csimpl. destruct o as [gd now_s v cost|keep]; simpl; [|auto].
  case_bool_decide; csimpl; [|auto]. intros [Hn Hh]%list.Forall_cons. rewrite (proj2 (Z.eqb_neq _ _) Hn). simpl. auto.
Qed.

Lemma ledger_snoc h o : foldl run_op ∅ (h ++ [o]) = run_op (foldl run_op ∅ h) o.
Proof. by rewrite foldl_app. Qed.

Lemma sat_add_min a b : 0 <= b → saturating_add (Z.min u64_max a) b = Z.min u64_max (a + b).
Proof. unfold saturating_add. lia. Qed.

Lemma ledger_sum kind k h now_s : Forall (op_ok k) h →
  StronglySorted Z.le (omap (clock_of k) h) → Forall (λ n, n <= now_s) (omap (clock_of k) h) →
  field kind (spent (foldl run_op ∅ h) k kind (index_of kind now_s)) =
  Z.min u64_max (spent_in kind k (index_of kind now_s) h).
Proof.
  revert now_s. induction h as [|o h IH] using rev_ind; intros now_s; [by destruct kind|].
  intros [Hok Ho]%list.Forall_app Hs Hn. rewrite list.Forall_singleton in Ho.
  rewrite omap_app in Hs, Hn. apply list.Forall_app in Hn as [Hnh Hno].
  rewrite ledger_snoc, spent_in_snoc. pose proof (StronglySorted_app_1_l _ _ _ Hs) as Hsh.
  specialize (IH now_s Hok Hsh Hnh). pose proof (spent_in_nonneg kind k (index_of kind now_s) h Hok) as Hpos.
  destruct o as [gd t v cost|keep]; cbn [run_op op_amount]; [|rewrite spent_retain by done; rewrite IH; f_equal; lia].
  rewrite field_spend, IH. case_bool_decide as Hk; cbn [andb]; [|f_equal; lia].
  assert (Hc : omap (clock_of k) [Spend gd t v cost] = [t]) by (csimpl; by rewrite bool_decide_true).
  rewrite Hc in *. rewrite list.Forall_singleton in Hno. destruct Ho as [Hv Hcost].
  destruct (Z.eqb_spec (index_of kind t) (index_of kind now_s)) as [E|E].
  - destruct kind; cbn [amount]; [by apply sat_add_min|].
    destruct (Z.ltb_spec 0 cost); [by apply sat_add_min|]. f_equal. lia.
  - assert (Hz : spent_in kind k (index_of kind now_s) h = 0).
    { apply spent_in_none, list.Forall_forall. intros n Hin En.
      assert (Hnt : n <= t) by (eapply (StronglySorted_app_1_elem_of _ _ _ n t); [exact Hs|done|by apply list_elem_of_singleton]).
      pose proof (index_mono kind n t Hnt). pose proof (index_mono kind t now_s Hno). lia. }
    rewrite Hz in *. destruct (match kind with Minute => true | Day => 0 <? cost end); done.
Qed.

(** C16: The ledger is exact.  After any history of spends of any holders and of
    reloads, as long as the clocks of a key's spends do not step back and the
    reloads keep the key, its minute window holds the tokens, and its day window
    the cost, that were spent on it in that window, and no more than fits. *)
Theorem ledger_exact kind k h now_s : Forall (op_ok k) h →
  StronglySorted Z.le (omap (clock_of k) h) → Forall (λ n, n <= now_s) (omap (clock_of k) h) →
  field kind (spent (foldl run_op ∅ h) k kind (index_of kind now_s)) =
  Z.min u64_max (spent_in kind k (index_of kind now_s) h).
Proof. apply ledger_sum. Qed.

(** A spend whose clock was read before the lock, in the minute before, drops
    what was spent in the new one. *)
Example window_rolled_back :
  let gd := Guard (u "acme") (Some 100) None ScopeConsumer in
  let spend now_s t := Spend gd now_s (MkUsage None None (Some t) None) 0 in
  check gd 61 (foldl run_op ∅ [spend 60 100]) = Denied Tokens 59 ∧
  check gd 61 (foldl run_op ∅ [spend 60 100; spend 59 1]) = Allowed.
Proof. split; vm_compute; reflexivity. Qed.

(** * What concurrent requests can overrun *)

(** The holder's ledger, what each request under way has spent, and the latest
    clock. *)
Record Gate : Type := MkGate { ledger : BudgetLedger; under_way : list Z; clock : Z }.

(** At most [n] requests of a holder at a time, each reporting at most [most]
    tokens in all. *)
Inductive gate_step (gd : BudgetGuard) (n most : Z) (g : Gate) : Gate → Prop :=
  | admits now_s :
      clock g <= now_s → check gd now_s (ledger g) = Allowed → Z.of_nat (length (under_way g)) < n →
      gate_step gd n most g (MkGate (ledger g) (under_way g ++ [0]) now_s)
  | spends now_s i s v cost :
      clock g <= now_s → under_way g !! i = Some s → 0 <= total_of v → s + total_of v <= most →
      gate_step gd n most g
        (MkGate (guard_spend gd now_s v cost (ledger g)).2 (<[i := s + total_of v]> (under_way g)) now_s)
  | leaves i s : under_way g !! i = Some s →
      gate_step gd n most g (MkGate (ledger g) (delete i (under_way g)) (clock g))
  | elsewhere l now_s :
      clock g <= now_s → l !! (key gd, Minute) = ledger g !! (key gd, Minute) →
      gate_step gd n most g (MkGate l (under_way g) now_s).

Section Overrun.
Context (gd : BudgetGuard) (limit n most : Z).
Context (Hlimit : guard_tokens gd = Some limit) (Hpos : 1 <= limit) (Hmost : 0 <= most).

Definition window (g : Gate) (now_s : Z) : Z :=
  tokens (spent (ledger g) (key gd) Minute (minute_index now_s)).

(** A request under way still owes what it has not reported. *)
Definition room (g : Gate) : Z :=
  limit - 1 + sum_of (under_way g) + (n - Z.of_nat (length (under_way g))) * most.

Definition gate_ok (g : Gate) : Prop :=
  window g (clock g) <= room g ∧ Forall (λ s, 0 <= s <= most) (under_way g) ∧
  Z.of_nat (length (under_way g)) <= n ∧
  ∀ e, ledger g !! (key gd, Minute) = Some e → e.1 <= minute_index (clock g).

Lemma sum_bounds l : Forall (λ s, 0 <= s <= most) l → 0 <= sum_of l <= Z.of_nat (length l) * most.
Proof using Hmost. unfold sum_of. induction 1; simpl in *; nia. Qed.

Lemma sum_replace l i s t : l !! i = Some s → sum_of (<[i := t]> l) = sum_of l - s + t.
Proof.
  revert i. unfold sum_of. induction l as [|x l IH]; intros [|i]; simpl; try done; [intros [= ->]; lia|].
  intros Hi%IH. lia.
Qed.

Lemma sum_delete l i s : l !! i = Some s → sum_of (delete i l) = sum_of l - s ∧ length l = S (length (delete i l)).
Proof.
  revert i. unfold sum_of. induction l as [|x l IH]; intros [|i]; simpl; try done; [intros [= ->]; lia|].
  intros [H1 H2]%IH. simpl in *. lia.
Qed.

Lemma room_nonneg g : gate_ok g → 0 <= room g.
Proof using Hmost Hpos. intros (_ & Hs%sum_bounds & Hn & _). unfold room. nia. Qed.

(** Time only closes windows. *)
Lemma window_later g now_s : gate_ok g → clock g <= now_s → window g now_s <= room g.
Proof using Hmost Hpos.
  intros Hg Hc. pose proof (room_nonneg g Hg) as Hr. destruct Hg as (Hw & _ & _ & He).
  pose proof (index_mono Minute _ _ Hc) as Hi. cbn [index_of] in Hi. unfold window, spent in *.
  destruct (ledger g !! (key gd, Minute)) as [[j s]|]; [|done]. specialize (He _ eq_refl). cbn [fst] in He.
  destruct (Z.eqb_spec j (minute_index now_s)) as [->|_]; [|done].
  replace (minute_index (clock g)) with (minute_index now_s) in Hw by lia. by rewrite Z.eqb_refl in Hw.
Qed.

Lemma check_allowed now_s l : check gd now_s l = Allowed → tokens (spent l (key gd) Minute (minute_index now_s)) < limit.
Proof using Hlimit.
  unfold check. rewrite Hlimit. destruct (Z.leb_spec limit (tokens (spent l (key gd) Minute (minute_index now_s)))); [|done].
  unfold day_check, minute_wall, later_wall. intros Hv. exfalso. revert Hv.
  destruct (guard_cost gd) as [c|]; [destruct (c <=? _); [destruct (_ <=? _)|]|]; done.
Qed.

Lemma gate_ok_step g g' : gate_ok g → gate_step gd n most g g' → gate_ok g'.
Proof using Hlimit Hmost Hpos.
  intros Hg Hst. pose proof Hg as (Hw & Hs & Hn & He).
  assert (Hidx : ∀ now_s e, clock g <= now_s → ledger g !! (key gd, Minute) = Some e → e.1 <= minute_index now_s).
  { intros now_s e Hc%(index_mono Minute) Hl%He. cbn [index_of] in Hc. lia. }
  destruct Hst as [now_s Hc Ha Hl|now_s i s v cost Hc Hi Hv Hm|i s Hi|l now_s Hc Hl].
  - apply check_allowed in Ha. split_and!; cbn [ledger under_way clock]; [|..|by eauto].
    + unfold window, room. cbn [ledger under_way]. rewrite sum_snoc, length_app. cbn [length].
      apply sum_bounds in Hs. nia.
    + apply list.Forall_app. split; [done|]. apply list.Forall_singleton. lia.
    + rewrite length_app. cbn [length]. lia.
  - pose proof (window_later g now_s Hg Hc) as Hwl. split_and!; cbn [ledger under_way clock].
    + unfold window, room in *. cbn [ledger under_way].
      pose proof (field_spend Minute gd now_s v cost (ledger g) (key gd) (minute_index now_s)) as E.
      rewrite bool_decide_true, Z.eqb_refl in E by done. cbn [andb field index_of amount] in E. rewrite E.
      rewrite (sum_replace _ _ _ _ Hi), length_insert. unfold saturating_add. lia.
    + apply Forall_insert; [done|]. rewrite list.Forall_lookup in Hs. apply Hs in Hi. lia.
    + by rewrite length_insert.
    + intros e. unfold guard_spend, spend_tokens, spend_cost, BudgetLedger in *. cbn [snd].
      assert (Hl : ∀ m l, (if 0 <? cost then <[(key gd, Day) := m]> l else l : gmap _ _) !! (key gd, Minute) =
        (l : gmap _ (Z * Spent)) !! (key gd, Minute)).
      { intros. destruct (0 <? cost); [|done]. by rewrite lookup_insert_ne. }
      rewrite Hl, lookup_insert_eq. by intros [= <-].
  - destruct (sum_delete _ _ _ Hi) as [H1 H2]. split_and!; cbn [ledger under_way clock]; [| |lia|done].
    + unfold window, room in *. cbn [ledger under_way]. rewrite H1, H2 in *.
      rewrite list.Forall_lookup in Hs. apply Hs in Hi. nia.
    + by apply Forall_delete.
  - pose proof (window_later g now_s Hg Hc) as Hwl. split_and!; cbn [ledger under_way clock]; [|done..|].
    + unfold window, room, spent in *. cbn [ledger under_way]. by rewrite Hl.
    + intros e. rewrite Hl. by apply Hidx.
Qed.

Lemma gate_ok_run g t : 0 <= n → rtc (gate_step gd n most) (MkGate ∅ [] t) g → gate_ok g.
Proof using Hlimit Hmost Hpos.
  intros Hn. assert (H0 : gate_ok (MkGate ∅ [] t)).
  { split_and!; [|constructor|done|done]. unfold window, room. cbn [ledger under_way length Z.of_nat].
    change (tokens _) with 0. change (sum_of []) with 0. nia. }
  remember (MkGate ∅ [] t) as g0 eqn:E. clear E. induction 1 as [g0|g0 g1 g2 Hst _ IH]; [done|].
  apply IH. by eapply gate_ok_step.
Qed.

End Overrun.

(** C17: The overrun is bounded by what is under way.  However the requests of a
    holder are admitted, report their tokens in parts and leave, among other
    holders' requests and as long as the clock does not step back, the tokens of
    a minute stay below its limit by one plus what [n] requests report, if at
    most [n] are under way at a time. *)
Theorem overrun_bounded gd limit n most t g :
  guard_tokens gd = Some limit → 1 <= limit → 0 <= most → 0 <= n →
  rtc (gate_step gd n most) (MkGate ∅ [] t) g →
  tokens (spent (ledger g) (key gd) Minute (minute_index (clock g))) <= limit - 1 + n * most.
Proof.
  intros Hl Hp Hm Hn Hr. destruct (gate_ok_run gd limit n most Hl Hp Hm g t Hn Hr) as (Hw & Hs & Hlen & _).
  apply (sum_bounds most Hm) in Hs. unfold window, room in Hw. nia.
Qed.

(** * A stream that a holder pays for *)

Section Metered.
Context {D : Type} `{ProviderAdapter D} `{ClientChunks D}.
Context (gd : BudgetGuard) (table : PricingTable) (provider_model : jstr).
Context (no_rules : bool) (redact : jstr → jstr) (banned : jstr → bool).
(** What the ledger saw before the stream, what it sees of others before each of
    the stream's spends, and the clock of each of these. *)
Context (before : list Op) (others : nat → list Op) (clocks : nat → Z).

Definition tokens_only (t : Z) : Usage := MkUsage None None (Some t) None.

Definition history (log : list (Z * Z)) : list Op :=
  before ++ concat (imap (λ i e, others i ++ [Spend gd (clocks i) (tokens_only e.1) e.2]) log).

(** The budget of [AiStreamBody]: its guard, its clock, and the shared ledger as
    the result of its history. *)
#[local] Instance metered : Guards (list (Z * Z)) := {
  spend t c log :=
    ((guard_spend gd (clocks (length log)) (tokens_only t) c
        (foldl run_op ∅ (history log ++ others (length log)))).1, log ++ [(t, c)]);
  cost_micros v := table_cost table provider_model v false;
  guardrails_empty := no_rules;
  redact_stream_chunk := redact;
  check_stream_chunk := banned;
}.

(** The history without the stream. *)
Definition elsewhere_ops (log : list (Z * Z)) : list Op := before ++ concat (others <$> seq 0 (length log)).

Lemma spent_in_app kind k i h h' : spent_in kind k i (h ++ h') = spent_in kind k i h + spent_in kind k i h'.
Proof. induction h' as [|o h' IH] using rev_ind; [rewrite app_nil_r; unfold spent_in at 3; simpl; lia|].
  rewrite app_assoc, !spent_in_snoc, IH. lia. Qed.

Lemma history_charge log w : (∀ i, minute_index (clocks i) = w) →
  spent_in Minute (key gd) w (history log) =
  spent_in Minute (key gd) w (elsewhere_ops log) + sum_of log.*1.
Proof.
  intros Hw. unfold history, elsewhere_ops. rewrite !spent_in_app, <- Z.add_assoc. f_equal.
  induction log as [|[t c] log IH] using rev_ind; [done|].
  rewrite imap_app, concat_app, length_app, seq_app, !fmap_app, concat_app, !spent_in_app, IH.
  csimpl. rewrite sum_snoc, !app_nil_r, Nat.add_0_r, spent_in_snoc. cbn [op_amount index_of].
  rewrite bool_decide_true, Hw, Z.eqb_refl by done. cbn [andb amount total_of tokens_only total_tokens]. lia.
Qed.

(** A stream is charged to its holder's window.  While other requests spend
    from the same ledger, a stream all of whose spends fall in one minute adds to
    its holder's window of that minute the highest total that its provider had
    reported at a spend, and nothing else. *)
Theorem stream_charged inputs out e b now_s :
  served inputs (new_body (Some [])) = (out, e, b) →
  ∃ log, budget (close b) = Some log ∧ total_of (usage (translator b)) <= budget_spent_tokens (close b) ∧
    (Forall (op_ok (key gd)) (history log) → StronglySorted Z.le (omap (clock_of (key gd)) (history log)) →
     Forall (λ n, n <= now_s) (omap (clock_of (key gd)) (history log)) →
     (∀ i, minute_index (clocks i) = minute_index now_s) →
     tokens (spent (foldl run_op ∅ (history log)) (key gd) Minute (minute_index now_s)) =
       Z.min u64_max (spent_in Minute (key gd) (minute_index now_s) (elsewhere_ops log)
                      + budget_spent_tokens (close b))).
Proof.
  intros Hs. assert (Hlog : ∀ t c (g : list (Z * Z)), id (spend t c g).2 = id g ++ [(t, c)]) by done.
  destruct (served_close id Hlog inputs [] out e b eq_refl Hs) as (f & Ha & [Hp _] & _).
  destruct Ha as (_ & log & Hl & Hsum & _). exists log. split; [done|].
  destruct (spend_frame b) as (_ & Ht & _). split.
  - revert Hp. unfold close. destruct (cut_off b); [done|]. by rewrite Ht.
  - intros Hok Hsort Hle Hw. pose proof (ledger_sum Minute (key gd) (history log) now_s Hok Hsort Hle) as E.
    cbn [field index_of] in E. rewrite E, (history_charge log (minute_index now_s) Hw). unfold id in Hsum.
    by rewrite Hsum.
Qed.

End Metered.

(** * Prices *)

(** What the usage costs, in thousandths of a micro-dollar, before rounding. *)
Definition exact_cost (price : Price) (v : Usage) (batch : bool) : Z :=
  let input := default 0 (prompt_tokens v) in
  let output := default 0 (completion_tokens v) in
  if batch then
    input * default (input_per_1k_micros price) (batch_input_per_1k_micros price)
    + output * default (output_per_1k_micros price) (batch_output_per_1k_micros price)
  else
    match cached_input_per_1k_micros price with
    | Some rate =>
        let cached := default 0 (cached_tokens v) in
        Z.max 0 (input - cached) * input_per_1k_micros price + cached * rate
    | None => input * input_per_1k_micros price
    end + output * output_per_1k_micros price.

Definition price_ok (price : Price) : Prop :=
  0 <= input_per_1k_micros price ∧ 0 <= output_per_1k_micros price ∧
  0 <= default 0 (cached_input_per_1k_micros price) ∧ 0 <= default 0 (batch_input_per_1k_micros price) ∧
  0 <= default 0 (batch_output_per_1k_micros price).

Definition usage_ok (v : Usage) : Prop :=
  0 <= default 0 (prompt_tokens v) ∧ 0 <= default 0 (completion_tokens v) ∧ 0 <= default 0 (cached_tokens v).

Lemma div_1000 a b : 0 <= a → 0 <= b → a * b <= u64_max →
  0 <= saturating_mul a b / 1000 ∧ 1000 * (saturating_mul a b / 1000) <= a * b < 1000 * (saturating_mul a b / 1000) + 1000.
Proof.
  intros Ha Hb Hm. unfold saturating_mul. rewrite Z.min_r by done.
  pose proof (Z.div_mod (a * b) 1000). pose proof (Z.mod_pos_bound (a * b) 1000).
  assert (0 <= a * b) by nia. assert (0 <= a * b / 1000) by (apply Z.div_pos; lia). lia.
Qed.

(** Prices are rounded down by less than three micro-dollars.  The cost of a
    call, at the standard, the cached and the batch rates, is what its usage
    costs exactly, less what the divisions of its parts drop, as long as that
    fits; and it always fits itself. *)
Theorem price_rounding t model price v batch :
  t !! model = Some price → price_ok price → usage_ok v →
  ∃ c, table_cost t model v batch = Some c ∧ 0 <= c <= u64_max ∧
    (exact_cost price v batch <= u64_max → 1000 * c <= exact_cost price v batch < 1000 * c + 3000).
Proof.
  intros Ht (Hi & Ho & Hc & Hbi & Hbo) (Hp & Hq & Hk). unfold table_cost. rewrite Ht. simpl.
  exists (cost_of_price price v batch). split; [done|].
  assert (Hpos : ∀ a b, 0 <= a → 0 <= b → 0 <= saturating_mul a b / 1000).
  { intros a b Ha Hb. apply Z.div_pos; [|lia]. unfold saturating_mul, u64_max. nia. }
  unfold cost_of_price, exact_cost. destruct batch.
  - set (a := default 0 (prompt_tokens v)) in *. set (o := default 0 (completion_tokens v)) in *.
    assert (Hri : 0 <= default (input_per_1k_micros price) (batch_input_per_1k_micros price))
      by (by destruct (batch_input_per_1k_micros price)).
    assert (Hro : 0 <= default (output_per_1k_micros price) (batch_output_per_1k_micros price))
      by (by destruct (batch_output_per_1k_micros price)).
    pose proof (Hpos _ _ Hp Hri) as H1. pose proof (Hpos _ _ Hq Hro) as H2. split; [unfold saturating_add, u64_max in *; lia|].
    intros Hfit. destruct (div_1000 a _ Hp Hri) as [_ E1]; [nia|]. destruct (div_1000 o _ Hq Hro) as [_ E2]; [nia|].
    unfold saturating_add. rewrite Z.min_r; [lia|]. lia.
  - set (a := default 0 (prompt_tokens v)) in *. set (o := default 0 (completion_tokens v)) in *.
    set (k := default 0 (cached_tokens v)) in *. pose proof (Hpos _ _ Hq Ho) as H3.
    destruct (cached_input_per_1k_micros price) as [rate|]; simpl in Hc.
    + unfold saturating_sub. assert (Hm : 0 <= Z.max 0 (a - k)) by lia.
      pose proof (Hpos _ _ Hm Hi) as H1. pose proof (Hpos _ _ Hk Hc) as H2.
      split; [unfold saturating_add, u64_max in *; lia|]. intros Hfit.
      assert (0 <= k * rate ∧ 0 <= o * output_per_1k_micros price ∧ 0 <= Z.max 0 (a - k) * input_per_1k_micros price)
        as (P1 & P2 & P3) by (split_and!; by apply Z.mul_nonneg_nonneg).
      destruct (div_1000 _ _ Hm Hi) as [_ E1]; [lia|]. destruct (div_1000 _ _ Hk Hc) as [_ E2]; [lia|].
      destruct (div_1000 _ _ Hq Ho) as [_ E3]; [lia|].
      unfold saturating_add. rewrite (Z.min_r u64_max (_ + saturating_mul k rate / 1000)) by lia. rewrite Z.min_r; lia.
    + pose proof (Hpos _ _ Hp Hi) as H1. split; [unfold saturating_add, u64_max in *; lia|]. intros Hfit.
      assert (0 <= o * output_per_1k_micros price ∧ 0 <= a * input_per_1k_micros price)
        as (P2 & P3) by (split_and!; by apply Z.mul_nonneg_nonneg).
      destruct (div_1000 _ _ Hp Hi) as [_ E1]; [lia|]. destruct (div_1000 _ _ Hq Ho) as [_ E3]; [lia|].
      unfold saturating_add. rewrite (Z.min_r u64_max (_ + 0)) by lia. rewrite Z.min_r; lia.
Qed.

(** * Concrete holders *)

Definition each_100 : TokenBudget := MkBudget (Some 100) None ScopeConsumer.
Definition team_100 : TokenBudget := MkBudget (Some 100) None ScopePolicy.

Definition sample_gateway : Gateway :=
  MkGateway [MkPolicy (u "each") (Some each_100); MkPolicy (u "team") (Some team_100)]
    [MkConsumer (u "acme") [u "each"] None; MkConsumer (u "team") [] (Some each_100)]
    [MkRoute (u "chat") (u "llm") [u "each"]; MkRoute (u "ask") (u "llm") []]
    [MkAttached (u "llm") [u "team"]] [MkAttached (u "web") []] [].

Definition guard_of (consumer : option string) (route_name : string) : option BudgetGuard :=
  request_guard sample_gateway (compile sample_gateway) (u <$> consumer) (u route_name) (u "web").

Definition spends_100 (gd : BudgetGuard) : Op := Spend gd 60 (MkUsage None None (Some 100) None) 0.

(** The most specific binds; an anonymous caller is held to the team's budget. *)
Example guards :
  guard_of (Some "acme") "chat" = Some (Guard (u "acme") (Some 100) None ScopeConsumer) ∧
  guard_of None "chat" = Some (Guard (u "team") (Some 100) None ScopePolicy) ∧
  guard_of (Some "acme") "ask" = Some (Guard (u "acme") (Some 100) None ScopeConsumer).
Proof. split_and!; vm_compute; reflexivity. Qed.

(** A caller whose name an identity provider gave, and no consumer has, binds the
    route's budget; a reload of the same configuration forgets what it spent. *)
Example reload_forgets : ∃ gd,
  guard_of (Some "sub-42") "chat" = Some gd ∧ key gd = u "sub-42" ∧
  let l := foldl run_op ∅ [spends_100 gd] in
  check gd 61 l = Denied Tokens 59 ∧ check gd 61 (compile_with_ledger sample_gateway l).2 = Allowed.
Proof.
  eexists. split; [vm_compute; reflexivity|]. split; [reflexivity|]. intros l.
  split; unfold l; vm_compute; reflexivity.
Qed.

(** A consumer and a policy of the same name share their windows. *)
Example shared_key : ∃ gd gd',
  guard_of (Some "team") "chat" = Some gd ∧ guard_of None "ask" = Some gd' ∧
  guard_scope gd = ScopeConsumer ∧ guard_scope gd' = ScopePolicy ∧
  check gd' 61 (foldl run_op ∅ [spends_100 gd]) = Denied Tokens 59.
Proof. eexists _, _. split_and!; vm_compute; reflexivity. Qed.

Definition acme : BudgetGuard := Guard (u "acme") (Some 100) None ScopeConsumer.

(** At its limit a holder is rejected; below it, one request may go past. *)
Example at_the_limit :
  check acme 61 (foldl run_op ∅ [spends_100 acme]) = Denied Tokens 59 ∧
  check_with_estimate acme 61 40 (foldl run_op ∅ [Spend acme 60 (MkUsage None None (Some 60) None) 0]) = Allowed ∧
  check_with_estimate acme 61 41 (foldl run_op ∅ [Spend acme 60 (MkUsage None None (Some 60) None) 0]) = Denied Tokens 59.
Proof. split_and!; vm_compute; reflexivity. Qed.

Lemma reload_keeps_witness :
  guard_of (Some "acme") "ask" = Some acme ∧
  spent (compile_with_ledger sample_gateway (foldl run_op ∅ [spends_100 acme])).2 (key acme) Minute 1 =
    spent (foldl run_op ∅ [spends_100 acme]) (key acme) Minute 1.
Proof.
  split; [vm_compute; reflexivity|].
  refine (reload_keeps sample_gateway _ (Some (u "acme")) (u "ask") (u "web") acme Minute 1 _ _).
  - intros c [= <-]. apply (bool_decide_unpack _). vm_compute. exact I.
  - vm_compute. reflexivity.
Defined.

Definition sample_history : list Op :=
  [Spend acme 59 (MkUsage None None (Some 70) None) 5; spends_100 (Guard (u "other") None None ScopePolicy);
   Spend acme 61 (MkUsage (Some 20) (Some 10) None None) 7; Reload {[u "acme"]}; Spend acme 70 (MkUsage None None (Some 4) None) 0].

Lemma ledger_exact_witness :
  field Minute (spent (foldl run_op ∅ sample_history) (u "acme") Minute (index_of Minute 100)) =
    Z.min u64_max (spent_in Minute (u "acme") (index_of Minute 100) sample_history) ∧
  spent_in Minute (u "acme") (index_of Minute 100) sample_history = 34.
Proof.
  split; [|vm_compute; reflexivity]. refine (ledger_exact Minute (u "acme") sample_history 100 _ _ _).
  - unfold sample_history. repeat apply list.Forall_cons_2; [..|constructor];
      first [split; vm_compute; discriminate|apply (bool_decide_unpack _); vm_compute; exact I].
  - apply (bool_decide_unpack _). vm_compute. exact I.
  - apply (bool_decide_unpack _). vm_compute. exact I.
Defined.

Lemma overrun_bounded_witness :
  ∃ g, rtc (gate_step acme 2 150) (MkGate ∅ [] 60) g ∧ under_way g = [150; 149] ∧
    tokens (spent (ledger g) (key acme) Minute (minute_index (clock g))) <= 100 - 1 + 2 * 150.
Proof.
  assert (Hr : ∃ g, rtc (gate_step acme 2 150) (MkGate ∅ [] 60) g ∧ under_way g = [150; 149]).
  { eexists. split.
    - eapply rtc_l; [apply (admits _ _ _ _ 60); [done|vm_compute; reflexivity|done]|].
      eapply rtc_l; [apply (admits _ _ _ _ 61); [done|vm_compute; reflexivity|done]|].
      eapply rtc_l; [apply (spends _ _ _ _ 62 0 0 (tokens_only 150) 0); [done|reflexivity|done..]|].
      eapply rtc_l; [apply (spends _ _ _ _ 62 1 0 (tokens_only 149) 3); [done|reflexivity|done..]|].
      apply rtc_refl.
    - vm_compute. reflexivity. }
  destruct Hr as (g & Hr & Hu). exists g. split; [exact Hr|]. split; [exact Hu|].
  refine (overrun_bounded acme 100 2 150 60 g eq_refl _ _ _ Hr); done.
Defined.

Definition sample_prices : PricingTable :=
  {[u "m" := MkPrice 1500 2000 (Some 300) None (Some 1000)]}.

Lemma price_rounding_witness :
  ∃ c, table_cost sample_prices (u "m") (MkUsage (Some 33) (Some 7) None (Some 11)) false = Some c ∧
    0 <= c <= u64_max ∧
    (exact_cost (MkPrice 1500 2000 (Some 300) None (Some 1000)) (MkUsage (Some 33) (Some 7) None (Some 11)) false <= u64_max →
     1000 * c <= exact_cost (MkPrice 1500 2000 (Some 300) None (Some 1000)) (MkUsage (Some 33) (Some 7) None (Some 11)) false < 1000 * c + 3000).
Proof.
  refine (price_rounding sample_prices (u "m") (MkPrice 1500 2000 (Some 300) None (Some 1000)) _ false _ _ _).
  - vm_compute. reflexivity.
  - repeat split; vm_compute; discriminate.
  - repeat split; vm_compute; discriminate.
Defined.

Section Streamed.
#[local] Existing Instances sample_adapter sample_chunks.

Definition others_spend (i : nat) : list Op := [Spend acme 61 (tokens_only 5) 0].

Definition streamed : list polled := [frames_data ["i"; "da"]; frames_data ["db"; "p"]]%string.

#[local] Instance sample_metered : Guards (list (Z * Z)) :=
  metered acme sample_prices (u "m") true hide bad [] others_spend (λ _, 61).

Lemma stream_charged_witness :
  ∃ out b log, served streamed (new_body (Some [])) = (out, true, b) ∧ budget (close b) = Some log ∧
    tokens (spent (foldl run_op ∅ (history acme [] others_spend (λ _, 61) log)) (u "acme") Minute 1) =
      Z.min u64_max (spent_in Minute (u "acme") 1 (elsewhere_ops [] others_spend log) + budget_spent_tokens (close b)).
Proof.
  destruct (served streamed (new_body (Some []))) as [[out e] b] eqn:Es.
  destruct (stream_charged acme sample_prices (u "m") true hide bad [] others_spend (λ _, 61) streamed _ _ _ 61 Es)
    as (log & Hl & _ & Hc).
  revert Hl Hc. vm_compute in Es. injection Es as <- <- <-. intros Hl Hc.
  eexists _, _, log. split; [reflexivity|]. split; [exact Hl|].
  vm_compute in Hl. injection Hl as <-. refine (Hc _ _ _ _).
  - unfold others_spend. cbn. repeat apply list.Forall_cons_2; [..|constructor]; split; vm_compute; discriminate.
  - apply (bool_decide_unpack _). vm_compute. exact I.
  - apply (bool_decide_unpack _). vm_compute. exact I.
  - done.
Defined.
End Streamed.
