(* ===== verification/Civil.v ===== *)
(** The calendar: the conversions between dates and day numbers that seven files
    write out (config/quotas.rs, config/versioning.rs, dataplane/proxy.rs,
    events/webhook.rs, analytics/exports.rs, analytics/partition.rs and
    security/tls.rs of crates/dwara-core/src), and the windows of the request
    quotas.

    Years, months and days are [Z]: the algorithms stay far inside [i64] for
    every time the clock can give. *)

From S2P Require Import Prelude JsNumber.
Local Open Scope Z_scope.

#[local] Ltac Zify.zify_post_hook ::= Z.to_euclidean_division_equations.

(** * The two conversions *)

(** [div_euclid] and [rem_euclid] by a positive number are [/] and [mod]. *)
Definition civil_from_days (z : Z) : Z * Z * Z :=
  let z := z + 719468 in
  let era := z / 146097 in
  let doe := z mod 146097 in
  let yoe := (doe - doe / 1460 + doe / 36524 - doe / 146096) / 365 in
  let y := yoe + era * 400 in
  let doy := doe - (365 * yoe + yoe / 4 - yoe / 100) in
  let mp := (5 * doy + 2) / 153 in
  let d := doy - (153 * mp + 2) / 5 + 1 in
  let m := if mp <? 10 then mp + 3 else mp - 9 in
  (if m <=? 2 then y + 1 else y, m, d).

Definition days_from_civil (y m d : Z) : Z :=
  let y := if m <=? 2 then y - 1 else y in
  let era := y / 400 in
  let yoe := y mod 400 in
  let mp := if 2 <? m then m - 3 else m + 9 in
  let doy := (153 * mp + 2) / 5 + d - 1 in
  let doe := yoe * 365 + yoe / 4 - yoe / 100 + doy in
  era * 146097 + doe - 719468.

(** The copy of versioning.rs, whose division truncates. *)
Definition days_from_civil_v (y m d : Z) : Z :=
  let y := if m <=? 2 then y - 1 else y in
  let era := Z.quot (if 0 <=? y then y else y - 399) 400 in
  let yoe := y - era * 400 in
  let mp := Z.rem (m + 9) 12 in
  let doy := Z.quot (153 * mp + 2) 5 + d - 1 in
  let doe := yoe * 365 + Z.quot yoe 4 - Z.quot yoe 100 + doy in
  era * 146097 + doe - 719468.

(** The copy of proxy.rs and webhook.rs. *)
Definition civil_from_days_p (z : Z) : Z * Z * Z :=
  let z := z + 719468 in
  let era := Z.quot (if 0 <=? z then z else z - 146096) 146097 in
  let doe := z - era * 146097 in
  let yoe := Z.quot (doe - Z.quot doe 1460 + Z.quot doe 36524 - Z.quot doe 146096) 365 in
  let y := yoe + era * 400 in
  let doy := doe - (365 * yoe + Z.quot yoe 4 - Z.quot yoe 100) in
  let mp := Z.quot (5 * doy + 2) 153 in
  let d := doy - Z.quot (153 * mp + 2) 5 + 1 in
  let m := if mp <? 10 then mp + 3 else mp - 9 in
  (if m <=? 2 then y + 1 else y, m, d).

(** The copy of partition.rs names the day of a table: [{:04}{:02}{:02}]. *)
Definition pad_to (width : nat) (n : Z) : jstr :=
  let s := Z_digits n in replicate (width - length s) 48%N ++ s.

Definition ymd_text (t : Z * Z * Z) : jstr :=
  let '(year, m, d) := t in pad_to 4 year ++ pad_to 2 m ++ pad_to 2 d.

Definition ymd_from_ms (ms : Z) : jstr :=
  let secs := Z.max (Z.quot ms 1000) 0 in
  let days := secs / 86400 in
  let z := days + 719468 in
  let era := Z.quot (if 0 <=? z then z else z - 146096) 146097 in
  let doe := z - era * 146097 in
  let yoe := (doe - doe / 1460 + doe / 36524 - doe / 146096) / 365 in
  let y := yoe + era * 400 in
  let doy := doe - (365 * yoe + yoe / 4 - yoe / 100) in
  let mp := (5 * doy + 2) / 153 in
  let d := doy - (153 * mp + 2) / 5 + 1 in
  let m := if mp <? 10 then mp + 3 else mp - 9 in
  ymd_text (if m <=? 2 then y + 1 else y, m, d).

(** The copy of tls.rs reads the times of a certificate.  Its arguments are
    unsigned. *)
Definition epoch_secs (year month day hour minute second : Z) : option Z :=
  if negb ((1 <=? month) && (month <=? 12)) || (day =? 0) || (24 <=? hour) || (60 <=? minute) || (60 <=? second)
  then None
  else
    let y_adj := if month <=? 2 then year - 1 else year in
    let era := Z.quot (if 0 <=? y_adj then y_adj else y_adj - 399) 400 in
    let yoe := y_adj - era * 400 in
    let doy := Z.quot (153 * (if 2 <? month then month - 3 else month + 9) + 2) 5 + day - 1 in
    let doe := yoe * 365 + yoe / 4 - yoe / 100 + doy in
    let days := era * 146097 + doe - 719468 in
    Some (days * 86400 + hour * 3600 + minute * 60 + second).

Example ymd_from_ms_basic :
  ymd_from_ms 1767225600000 = u "20260101" ∧ ymd_from_ms 1767312000000 = u "20260102" ∧
  ymd_from_ms (-1) = u "19700101".
Proof. split_and!; vm_compute; reflexivity. Qed.

(** A day past the end of its month counts on into the next. *)
Example epoch_secs_overflow :
  epoch_secs 2023 2 30 0 0 0 = epoch_secs 2023 3 2 0 0 0 ∧ epoch_secs 2023 2 30 0 0 0 = Some 1677715200.
Proof. split; vm_compute; reflexivity. Qed.

(** * The calendar *)

Definition leap (y : Z) : bool := (y mod 4 =? 0) && (negb (y mod 100 =? 0) || (y mod 400 =? 0)).

Definition days_in_month (y m : Z) : Z :=
  if m =? 2 then (if leap y then 29 else 28)
  else if (m =? 4) || (m =? 6) || (m =? 9) || (m =? 11) then 30 else 31.

Definition date : Type := Z * Z * Z.

Definition valid (t : date) : Prop :=
  let '(y, m, d) := t in 1 <= m <= 12 ∧ 1 <= d <= days_in_month y m.

Definition next_day (t : date) : date :=
  let '(y, m, d) := t in
  if d <? days_in_month y m then (y, m, d + 1)
  else if m <? 12 then (y, m + 1, 1) else (y + 1, 1, 1).

Definition days_of (t : date) : Z := let '(y, m, d) := t in days_from_civil y m d.

(** A year that begins in March, and where its months begin. *)
Definition year_start (y : Z) : Z :=
  y / 400 * 146097 + (y mod 400 * 365 + y mod 400 / 4 - y mod 400 / 100).
Definition month_start (m : Z) : Z := (153 * (if 2 <? m then m - 3 else m + 9) + 2) / 5.
Definition year_of (y m : Z) : Z := if m <=? 2 then y - 1 else y.

Lemma days_parts y m d : days_from_civil y m d = year_start (year_of y m) + month_start m + d - 1 - 719468.
Proof. unfold days_from_civil, year_start, month_start, year_of. lia. Qed.

Lemma leap_spec y :
  leap y = true ∧ (y mod 4 = 0 ∧ (y mod 100 ≠ 0 ∨ y mod 400 = 0)) ∨
  leap y = false ∧ (y mod 4 ≠ 0 ∨ y mod 100 = 0 ∧ y mod 400 ≠ 0).
Proof.
  unfold leap. destruct (Z.eqb_spec (y mod 4) 0), (Z.eqb_spec (y mod 100) 0), (Z.eqb_spec (y mod 400) 0); simpl; lia.
Qed.

(** A March year ends with the February of the next year. *)
Lemma year_length y : year_start y = year_start (y - 1) + (if leap y then 366 else 365).
Proof. unfold year_start. destruct (leap_spec y) as [[-> ?]|[-> ?]]; lia. Qed.

(** The twelve cases of a month, with what is constant in each computed. *)
Ltac each_month m :=
  let H := fresh in
  assert (H : m = 1 ∨ m = 2 ∨ m = 3 ∨ m = 4 ∨ m = 5 ∨ m = 6 ∨ m = 7 ∨ m = 8 ∨ m = 9 ∨ m = 10 ∨ m = 11 ∨ m = 12)
    by lia;
  destruct H as [H|[H|[H|[H|[H|[H|[H|[H|[H|[H|[H|H]]]]]]]]]]]; rewrite H in *; clear H;
  unfold days_in_month, year_of in *;
  repeat match goal with
  | |- context [month_start ?k] => let v := eval vm_compute in (month_start k) in change (month_start k) with v
  | |- context [?a <=? ?b] => let v := eval vm_compute in (a <=? b) in change (a <=? b) with v; cbn iota
  | |- context [?a =? ?b] => let v := eval vm_compute in (a =? b) in change (a =? b) with v; cbn [orb]; cbn iota
  | |- context [?a <? ?b] => let v := eval vm_compute in (a <? b) in change (a <? b) with v; cbn iota
  end.

Lemma month_length y m : 1 <= m <= 12 →
  days_from_civil y m 1 + days_in_month y m =
  if m <? 12 then days_from_civil y (m + 1) 1 else days_from_civil (y + 1) 1 1.
Proof.
  intros Hm. rewrite !days_parts. pose proof (year_length y) as Hy.
  each_month m; try lia; [destruct (leap y); lia|]. replace (y + 1 - 1) with y by lia. lia.
Qed.

Lemma days_next t : valid t → days_of (next_day t) = days_of t + 1.
Proof.
  destruct t as [[y m] d]. intros [Hm Hd]. unfold next_day. pose proof (month_length y m Hm) as Hl.
  rewrite !days_parts in Hl. destruct (Z.ltb_spec d (days_in_month y m)); cbn [days_of].
  - rewrite !days_parts. lia.
  - destruct (m <? 12); cbn [days_of]; rewrite !days_parts in *; lia.
Qed.

Lemma year_start_mono y y' : y <= y' → year_start y + 365 * (y' - y) <= year_start y'.
Proof. unfold year_start. lia. Qed.

(** The day of a date within its March year. *)
Definition day_of_year (m d : Z) : Z := month_start m + d - 1.

Lemma day_of_year_bounds y m d : valid (y, m, d) →
  0 <= day_of_year m d < (if leap (year_of y m + 1) then 366 else 365).
Proof.
  intros [Hm Hd]. unfold day_of_year. revert Hd. each_month m; replace (y - 1 + 1) with y by lia;
    destruct (leap y), (leap (y + 1)); lia.
Qed.

Definition march_month (m : Z) : Z := if 2 <? m then m - 3 else m + 9.

(** The month of a day of the March year. *)
Lemma month_of_day y m d : valid (y, m, d) → (5 * day_of_year m d + 2) / 153 = march_month m.
Proof.
  intros [Hm Hd]. unfold day_of_year, march_month. revert Hd.
  each_month m; intros Hd; try lia. destruct (leap y); lia.
Qed.

Lemma month_inj y m d y' m' d' : valid (y, m, d) → valid (y', m', d') →
  day_of_year m d = day_of_year m' d' → m = m' ∧ d = d'.
Proof.
  intros Hv Hv' E. pose proof (month_of_day _ _ _ Hv) as H. rewrite E, (month_of_day _ _ _ Hv') in H.
  destruct Hv as [Hm _], Hv' as [Hm' _]. unfold march_month in H. assert (m = m') as <-.
  { destruct (Z.ltb_spec 2 m), (Z.ltb_spec 2 m'); lia. }
  unfold day_of_year in E. lia.
Qed.

Lemma days_inj t t' : valid t → valid t' → days_of t = days_of t' → t = t'.
Proof.
  destruct t as [[y m] d], t' as [[y' m'] d']. intros Hv Hv' E. cbn [days_of] in E. rewrite !days_parts in E.
  pose proof (day_of_year_bounds _ _ _ Hv) as Hb. pose proof (day_of_year_bounds _ _ _ Hv') as Hb'.
  unfold day_of_year in *. pose proof (year_length (year_of y m + 1)) as Hl.
  pose proof (year_length (year_of y' m' + 1)) as Hl'. rewrite Z.add_simpl_r in *.
  assert (Hy : year_of y m = year_of y' m').
  { destruct (Z.lt_trichotomy (year_of y m) (year_of y' m')) as [Hlt|[?|Hlt]]; [|done|].
    - pose proof (year_start_mono (year_of y m + 1) (year_of y' m') ltac:(lia)). lia.
    - pose proof (year_start_mono (year_of y' m' + 1) (year_of y m) ltac:(lia)). lia. }
  rewrite Hy in E. destruct (month_inj _ _ _ _ _ _ Hv Hv') as [-> ->]; [unfold day_of_year; lia|].
  f_equal. f_equal. unfold year_of in Hy. destruct (m' <=? 2); lia.
Qed.

(** A day of a March year fits its month. *)
Lemma month_room y m doy : 1 <= m <= 12 → 0 <= doy <= 365 → (5 * doy + 2) / 153 = march_month m →
  (m = 2 → doy = 365 → leap y = true) → doy - month_start m + 1 <= days_in_month y m.
Proof.
  intros Hm Hd E Hl. unfold march_month in E. revert E Hl.
  each_month m; intros E Hl; try lia. destruct (leap y) eqn:Ey; [lia|].
  assert (doy ≠ 365) by (intros ->; by specialize (Hl eq_refl eq_refl)). lia.
Qed.

Lemma civil_days z : valid (civil_from_days z) ∧ days_of (civil_from_days z) = z.
Proof.
  unfold civil_from_days. set (era := (z + 719468) / 146097). set (doe := (z + 719468) mod 146097).
  assert (Hz : z = era * 146097 + doe - 719468 ∧ 0 <= doe < 146097) by lia. destruct Hz as [Hz Hdoe].
  set (yoe := (doe - doe / 1460 + doe / 36524 - doe / 146096) / 365).
  set (doy := doe - (365 * yoe + yoe / 4 - yoe / 100)).
  assert (Hy : 0 <= yoe < 400 ∧ 0 <= doy <= 365) by (unfold doy, yoe; lia).
  assert (Hl : doy = 365 → (yoe + 1) mod 4 = 0 ∧ ((yoe + 1) mod 100 ≠ 0 ∨ (yoe + 1) mod 400 = 0)) by (unfold doy, yoe; lia).
  assert (Hd : doe = 365 * yoe + yoe / 4 - yoe / 100 + doy) by (unfold doy; lia).
  clearbody era doe yoe doy. subst z.
  assert (Hs : year_start (yoe + era * 400) = era * 146097 + (365 * yoe + yoe / 4 - yoe / 100)).
  { unfold year_start. rewrite Z.div_add, Z.mod_add by done. rewrite Z.div_small, Z.mod_small by lia. lia. }
  assert (Hleap : doy = 365 → leap (yoe + era * 400 + 1) = true).
  { intros H. specialize (Hl H). destruct (leap_spec (yoe + era * 400 + 1)) as [[? _]|[_ ?]]; [done|lia]. }
  cbn [valid days_of]. rewrite days_parts. unfold year_of.
  set (mp := (5 * doy + 2) / 153). set (m := if mp <? 10 then mp + 3 else mp - 9).
  assert (Hmp : 0 <= mp <= 11) by (unfold mp; lia).
  assert (Hm : march_month m = mp ∧ 1 <= m <= 12).
  { unfold march_month, m. destruct (Z.ltb_spec mp 10); [destruct (Z.ltb_spec 2 (mp + 3))|destruct (Z.ltb_spec 2 (mp - 9))]; lia. }
  assert (Ey : ∀ y, (if m <=? 2 then (if m <=? 2 then y + 1 else y) - 1 else (if m <=? 2 then y + 1 else y)) = y)
    by (intros; destruct (m <=? 2); lia).
  rewrite Ey, Hs. unfold month_start. fold (march_month m). destruct Hm as [Em Hm]. rewrite Em. split; [|lia].
  split; [done|]. split; [unfold mp; lia|].
  replace ((153 * mp + 2) / 5) with (month_start m) by (unfold month_start; fold (march_month m); by rewrite Em).
  apply (month_room _ m doy); [done|lia|done|]. intros E2. rewrite E2. exact Hleap.
Qed.

Lemma civil_unique t : valid t → civil_from_days (days_of t) = t.
Proof. intros Hv. destruct (civil_days (days_of t)) as [Hc E]. by apply days_inj. Qed.

(** The truncating copies agree. *)
Lemma days_copy y m d : 1 <= m <= 12 → days_from_civil_v y m d = days_from_civil y m d.
Proof.
  intros Hm. unfold days_from_civil_v, days_from_civil. set (yy := if m <=? 2 then y - 1 else y).
  assert (Hera : Z.quot (if 0 <=? yy then yy else yy - 399) 400 = yy / 400) by (destruct (Z.leb_spec 0 yy); lia).
  rewrite Hera. assert (Hmp : Z.rem (m + 9) 12 = if 2 <? m then m - 3 else m + 9) by (destruct (Z.ltb_spec 2 m); lia).
  rewrite Hmp. assert (0 <= if 2 <? m then m - 3 else m + 9) by (destruct (Z.ltb_spec 2 m); lia).
  rewrite (Z.quot_div_nonneg (153 * _ + 2)) by lia. rewrite !Z.quot_div_nonneg by lia.
  replace (yy - yy / 400 * 400) with (yy mod 400) by lia. lia.
Qed.

Lemma civil_copy z : civil_from_days_p z = civil_from_days z.
Proof.
  unfold civil_from_days_p, civil_from_days.
  assert (Hera : Z.quot (if 0 <=? z + 719468 then z + 719468 else z + 719468 - 146096) 146097 = (z + 719468) / 146097)
    by (destruct (Z.leb_spec 0 (z + 719468)); lia).
  rewrite Hera. replace (z + 719468 - (z + 719468) / 146097 * 146097) with ((z + 719468) mod 146097) by lia.
  set (era := (z + 719468) / 146097). assert (Hdoe : 0 <= (z + 719468) mod 146097 < 146097) by lia.
  set (doe := (z + 719468) mod 146097) in *. rewrite !(Z.quot_div_nonneg doe) by lia.
  assert (Hy : 0 <= doe - doe / 1460 + doe / 36524 - doe / 146096) by lia.
  rewrite (Z.quot_div_nonneg (doe - _ + _ - _)) by lia.
  set (yoe := (doe - doe / 1460 + doe / 36524 - doe / 146096) / 365).
  assert (Hyoe : 0 <= yoe) by (apply Z.div_pos; lia). rewrite !(Z.quot_div_nonneg yoe) by lia.
  assert (Hdoy : 0 <= doe - (365 * yoe + yoe / 4 - yoe / 100)) by (unfold yoe; lia).
  set (doy := doe - (365 * yoe + yoe / 4 - yoe / 100)) in *. rewrite !(Z.quot_div_nonneg (5 * doy + 2)) by lia.
  assert (0 <= (5 * doy + 2) / 153) by (apply Z.div_pos; lia).
  by rewrite !(Z.quot_div_nonneg (153 * _ + 2)) by lia.
Qed.

Lemma ymd_copy ms : ymd_from_ms ms = ymd_text (civil_from_days (Z.max 0 ms / 86400000)).
Proof.
  assert (Hd : Z.max (Z.quot ms 1000) 0 / 86400 = Z.max 0 ms / 86400000) by lia.
  unfold ymd_from_ms, civil_from_days. rewrite Hd. set (z := Z.max 0 ms / 86400000 + 719468).
  assert (Hz : 0 <= z) by lia. rewrite (proj2 (Z.leb_le 0 z) Hz), (Z.quot_div_nonneg z) by lia.
  by replace (z - z / 146097 * 146097) with (z mod 146097) by lia.
Qed.

Lemma epoch_copy y m d h mi s : 1 <= m <= 12 → 1 <= d → 0 <= h < 24 → 0 <= mi < 60 → 0 <= s < 60 →
  epoch_secs y m d h mi s = Some (days_from_civil y m d * 86400 + h * 3600 + mi * 60 + s).
Proof.
  intros Hm Hd Hh Hmi Hs. unfold epoch_secs.
  destruct (_ || _) eqn:E; [rewrite !orb_true_iff, negb_true_iff, andb_false_iff in E; lia|]. clear E.
  unfold days_from_civil. set (yy := if m <=? 2 then y - 1 else y).
  assert (Hera : Z.quot (if 0 <=? yy then yy else yy - 399) 400 = yy / 400) by (destruct (Z.leb_spec 0 yy); lia).
  rewrite Hera. replace (yy - yy / 400 * 400) with (yy mod 400) by lia.
  rewrite Z.quot_div_nonneg by (destruct (Z.ltb_spec 2 m); lia). done.
Qed.

(** C32: The conversions are the calendar's.  In the calendar, counted on day by
    day from 1 January 1970, the day of number [z] is the valid date that
    [civil_from_days] gives, and the number of a valid date is what
    [days_from_civil] gives; each inverts the other, before 1970 too.  The other
    copies agree: those of proxy.rs and webhook.rs, and of versioning.rs; the
    table name of a time is its date, of one before 1970 that of 1 January 1970;
    the seconds of a certificate's time are those of its date's day number, where
    it has a month, a day and a time, though the day may lie past the month. *)
Theorem civil_calendar :
  days_of (1970, 1, 1) = 0 ∧
  (∀ t, valid t → days_of (next_day t) = days_of t + 1 ∧ civil_from_days (days_of t) = t) ∧
  (∀ z, valid (civil_from_days z) ∧ days_of (civil_from_days z) = z) ∧
  (∀ z, civil_from_days_p z = civil_from_days z) ∧
  (∀ y m d, 1 <= m <= 12 → days_from_civil_v y m d = days_from_civil y m d) ∧
  (∀ ms, ymd_from_ms ms = ymd_text (civil_from_days (Z.max 0 ms / 86400000))) ∧
  (∀ y m d h mi s, 1 <= m <= 12 → 1 <= d → 0 <= h < 24 → 0 <= mi < 60 → 0 <= s < 60 →
     epoch_secs y m d h mi s = Some (days_from_civil y m d * 86400 + h * 3600 + mi * 60 + s)).
Proof.
  split; [done|]. split; [intros t Hv; split; [by apply days_next|by apply civil_unique]|].
  split; [exact civil_days|]. split; [exact civil_copy|]. split; [exact days_copy|].
  split; [exact ymd_copy|exact epoch_copy].
Qed.

(** * Windows *)

Definition SECS_A_DAY : Z := 86400.

Definition day_window (now_epoch_s : Z) : Z * Z :=
  let days := now_epoch_s / SECS_A_DAY in
  let start := days * SECS_A_DAY in
  (start, start + SECS_A_DAY).

Definition month_window (now_epoch_s : Z) : Z * Z :=
  let days := now_epoch_s / SECS_A_DAY in
  let '(y, m, _) := civil_from_days days in
  let start_days := days_from_civil y m 1 in
  let '(ny, nm) := if m =? 12 then (y + 1, 1) else (y, m + 1) in
  let reset_days := days_from_civil ny nm 1 in
  (start_days * SECS_A_DAY, reset_days * SECS_A_DAY).

(** Windows that cover time without overlap: each time is in its window, which is
    that of every time in it. *)
Class Windows (w : Z → Z * Z) : Prop := {
  window_in : ∀ t, (w t).1 <= t < (w t).2;
  window_same : ∀ t t', (w t).1 <= t' < (w t).2 → w t' = w t;
}.

Lemma windows_mono w `{!Windows w} a b : a <= b → (w a).1 <= (w b).1.
Proof.
  intros Hab. pose proof (window_in a) as Ha. pose proof (window_in b) as Hb.
  destruct (Z.le_gt_cases (w a).1 (w b).1) as [?|Hlt]; [done|].
  assert (E : w (w a).1 = w b) by (apply window_same; lia).
  rewrite <- E, (window_same a (w a).1) by lia. lia.
Qed.

#[global] Instance day_windows : Windows day_window.
Proof. split; intros *; unfold day_window, SECS_A_DAY; cbn; [lia|]. intros H. assert (t' / 86400 = t / 86400) as -> by lia. done. Qed.

(** The month of a time: its first day, and the days it has. *)
Lemma month_window_spec now_s y m d : civil_from_days (now_s / SECS_A_DAY) = (y, m, d) →
  month_window now_s =
  (days_from_civil y m 1 * SECS_A_DAY, (days_from_civil y m 1 + days_in_month y m) * SECS_A_DAY).
Proof.
  intros E. unfold month_window. rewrite E. destruct (civil_days (now_s / SECS_A_DAY)) as [Hv _].
  rewrite E in Hv. destruct Hv as [Hm _]. rewrite month_length by done.
  destruct (Z.eqb_spec m 12) as [->|]; [done|]. by rewrite (proj2 (Z.ltb_lt m 12)) by lia.
Qed.

#[global] Instance month_windows : Windows month_window.
Proof.
  split.
  - intros t. destruct (civil_from_days (t / SECS_A_DAY)) as [[y m] d] eqn:E.
    rewrite (month_window_spec _ _ _ _ E). destruct (civil_days (t / SECS_A_DAY)) as [Hv Hd].
    rewrite E in Hv, Hd. cbn [days_of] in Hd. rewrite days_parts in Hd. destruct Hv as [_ Hv].
    cbn [fst snd]. rewrite days_parts. unfold SECS_A_DAY in *. lia.
  - intros t t'. destruct (civil_from_days (t / SECS_A_DAY)) as [[y m] d] eqn:E.
    rewrite (month_window_spec _ _ _ _ E). cbn [fst snd]. intros Ht'.
    destruct (civil_days (t / SECS_A_DAY)) as [Hv _]. rewrite E in Hv. destruct Hv as [Hm _].
    assert (E' : civil_from_days (t' / SECS_A_DAY) = (y, m, t' / SECS_A_DAY - days_from_civil y m 1 + 1)).
    { rewrite <- civil_unique.
      - f_equal. cbn [days_of]. rewrite !days_parts. lia.
      - split; [done|]. unfold SECS_A_DAY in *. lia. }
    by rewrite (month_window_spec _ _ _ _ E').
Qed.

(** The budget windows are the days and months of the calendar.  Every time
    lies in its day's and its month's window, which are those of every other
    time in them; the month's window is that of all days of the same month and
    year, from its first day on, and as long as the month. *)
Theorem windows_are_calendar now_s t' :
  Windows day_window ∧ Windows month_window ∧
  (month_window t' = month_window now_s ↔
   (civil_from_days (t' / SECS_A_DAY)).1 = (civil_from_days (now_s / SECS_A_DAY)).1) ∧
  let '(y, m, _) := civil_from_days (now_s / SECS_A_DAY) in
  (month_window now_s).1 = days_of (y, m, 1) * SECS_A_DAY ∧
  (month_window now_s).2 - (month_window now_s).1 = days_in_month y m * SECS_A_DAY.
Proof.
  split; [exact _|]. split; [exact _|].
  destruct (civil_from_days (now_s / SECS_A_DAY)) as [[y m] d] eqn:E.
  destruct (civil_from_days (t' / SECS_A_DAY)) as [[y' m'] d'] eqn:E'. cbn [fst].
  rewrite (month_window_spec _ _ _ _ E), (month_window_spec _ _ _ _ E'). cbn [fst snd days_of].
  split; [|unfold SECS_A_DAY; lia]. split; [|by intros [= -> ->]].
  intros [= H1 _]. destruct (civil_days (now_s / SECS_A_DAY)) as [Hv _], (civil_days (t' / SECS_A_DAY)) as [Hv' _].
  rewrite E in Hv. rewrite E' in Hv'. destruct Hv as [Hm _], Hv' as [Hm' _].
  assert (Hlen : ∀ y m, 1 <= days_in_month y m) by (intros; unfold days_in_month; repeat case_match; lia).
  assert (Hd : (y', m', 1) = (y, m, 1)).
  { apply days_inj; [split; [done|specialize (Hlen y' m'); lia]|split; [done|specialize (Hlen y m); lia]|].
    cbn [days_of]. unfold SECS_A_DAY in H1. lia. }
  by injection Hd as -> ->.
Qed.
