(* ===== verification/Quotas.v ===== *)
(** Request quotas (crates/dwara-core/src/config/quotas.rs, state/quotas.rs, and the
    counters of state/store.rs).

    The store is a map from a counter's key to its value, under one lock; a
    transaction that fails leaves it as it was.  Whether the disk answers is an
    argument of every call.  SQLite turns an integer sum past 63 bits into a
    real number, which the code cannot read back: the call fails. *)

From S2P Require Import Prelude Breaker Civil.
From stdpp Require Import sorting.
Local Open Scope Z_scope.

(** * Budgets *)

Inductive Budget : Type := Daily | Monthly.

#[global] Instance Budget_eq_dec : EqDecision Budget.
Proof. solve_decision. Defined.

Definition budget_key (b : Budget) : string := match b with Daily => "daily" | Monthly => "monthly" end.

Record ConsumerQuotas : Type := MkQuotas { daily_requests : option Z; monthly_requests : option Z; quota_dry_run : bool }.

Definition budget_limit (q : ConsumerQuotas) (b : Budget) : option Z :=
  match b with Daily => daily_requests q | Monthly => monthly_requests q end.

Definition budget_window (b : Budget) : Z → Z * Z := match b with Daily => day_window | Monthly => month_window end.

Definition ALL : list Budget := [Daily; Monthly].

Inductive QuotaOutcome : Type :=
  | NotQuotaed
  | QuotaAllowed (limit remaining reset_epoch_s : Z)
  | QuotaDenied (limit remaining reset_epoch_s retry_after_s : Z) (budget : Budget)
  | Unavailable.

Definition retry_after (reset_epoch_s now_epoch_s : Z) : Z :=
  let wait := Z.max 1 (reset_epoch_s - now_epoch_s) in
  if wait <? 2 ^ 32 then wait else 1.

(** * The counters *)

Record StateStore : Type := MkStore { known : gset Z; counters : gmap (Z * string * Z) Z }.

Inductive StoreError : Type :=
  | UnknownConsumer
  | QuotaExceeded (used limit requested : Z)
  | Sqlite.

Definition QUOTA_RETENTION_SECS : Z := 365 * 24 * 60 * 60.

(** [SELECT MAX(window_start)], of a table that holds [window_start]. *)
Definition newest (window_start : Z) (c : gmap (Z * string * Z) Z) : Z :=
  foldr Z.max window_start ((λ e, e.1.2) <$> map_to_list c).

Definition prune (window_start : Z) (c : gmap (Z * string * Z) Z) : gmap (Z * string * Z) Z :=
  let horizon := newest window_start c - QUOTA_RETENTION_SECS in filter (λ e, horizon <= e.1.2) c.

Definition i64_max : Z := 2 ^ 63 - 1.

Definition incr_quota (disk : bool) (consumer_id : Z) (counter_key : string) (window_start amount : Z)
    (limit : option Z) (s : StateStore) : result StoreError Z * StateStore :=
  if negb disk then (Err Sqlite, s)
  else if negb (bool_decide (consumer_id ∈ known s)) then (Err UnknownConsumer, s)
  else
    let k := (consumer_id, counter_key, window_start) in
    let c := match counters s !! k with Some _ => counters s | None => <[k := 0]> (counters s) end in
    let c := prune window_start c in
    match c !! k with
    | None => (Err Sqlite, s)
    | Some used =>
        let refused :=
          match limit with
          | Some limit => if (u64_max <? used + amount) || (limit <? used + amount) then Some limit else None
          | None => None
          end in
        match refused with
        | Some limit => (Err (QuotaExceeded used limit amount), s)
        | None =>
            let used_after := used + Z.min amount i64_max in
            if i64_max <? used_after then (Err Sqlite, s)
            else (Ok used_after, MkStore (known s) (<[k := used_after]> c))
        end
    end.

Definition get_quota (disk : bool) (consumer_id : Z) (counter_key : string) (window_start : Z) (s : StateStore)
    : result StoreError Z :=
  if disk then Ok (default 0 (counters s !! (consumer_id, counter_key, window_start))) else Err Sqlite.

(** * The check *)

(** One turn of the loop over the other budgets. *)
Definition peek (disk : bool) (consumer_id : Z) (q : ConsumerQuotas) (now_epoch_s : Z) (budget : Budget)
    (s : StateStore) (acc : Z * Z) (later : Budget) : Z * Z :=
  if bool_decide (later = budget) then acc
  else
    match budget_limit q later with
    | None => acc
    | Some later_limit =>
        let '(later_start, later_reset) := budget_window later now_epoch_s in
        match get_quota disk consumer_id (budget_key later) later_start s with
        | Ok used =>
            if later_limit <=? used then
              let wait := retry_after later_reset now_epoch_s in
              if acc.1 <? wait then (wait, Z.abs later_reset) else acc
            else acc
        | Err _ => acc
        end
    end.

Fixpoint check_budgets (budgets : list Budget) (disk : bool) (consumer_id : Z) (q : ConsumerQuotas) (now_epoch_s : Z)
    (binding : option (Z * Z * Z)) (s : StateStore) : QuotaOutcome * StateStore :=
  match budgets with
  | [] =>
      (match binding with
       | Some (limit, remaining, reset_epoch_s) => QuotaAllowed limit remaining reset_epoch_s
       | None => NotQuotaed
       end, s)
  | budget :: budgets =>
      match budget_limit q budget with
      | None => check_budgets budgets disk consumer_id q now_epoch_s binding s
      | Some limit =>
          let '(window_start, reset_epoch_s) := budget_window budget now_epoch_s in
          match incr_quota disk consumer_id (budget_key budget) window_start 1 (Some limit) s with
          | (Ok used_after, s) =>
              let remaining := saturating_sub limit used_after in
              let binding :=
                match binding with
                | Some (_, best, _) =>
                    if remaining <? best then Some (limit, remaining, Z.abs reset_epoch_s) else binding
                | None => Some (limit, remaining, Z.abs reset_epoch_s)
                end in
              check_budgets budgets disk consumer_id q now_epoch_s binding s
          | (Err (QuotaExceeded used _ _), s) =>
              let '(retry_after_s, denied_reset) :=
                foldl (peek disk consumer_id q now_epoch_s budget s)
                  (retry_after reset_epoch_s now_epoch_s, Z.abs reset_epoch_s) ALL in
              (QuotaDenied limit (saturating_sub limit used) denied_reset retry_after_s budget, s)
          | (Err UnknownConsumer, s) => (NotQuotaed, s)
          | (Err Sqlite, s) => (Unavailable, s)
          end
      end
  end.

Definition quota_check (disk : bool) (consumer_id : Z) (q : ConsumerQuotas) (now_epoch_s : Z) (s : StateStore)
    : QuotaOutcome * StateStore := check_budgets ALL disk consumer_id q now_epoch_s None s.

Record BudgetUsage : Type := MkUsageOf {
  u_budget : Budget; u_limit : Z; u_used : Z; u_remaining : Z; u_window_start : Z; u_reset : Z;
}.

Fixpoint usage_loop (budgets : list Budget) (disk : bool) (consumer_id : Z) (q : ConsumerQuotas) (now_epoch_s : Z)
    (s : StateStore) (out : list BudgetUsage) : list BudgetUsage :=
  match budgets with
  | [] => out
  | budget :: budgets =>
      match budget_limit q budget with
      | None => usage_loop budgets disk consumer_id q now_epoch_s s out
      | Some limit =>
          let '(window_start, reset_epoch_s) := budget_window budget now_epoch_s in
          match get_quota disk consumer_id (budget_key budget) window_start s with
          | Ok used =>
              usage_loop budgets disk consumer_id q now_epoch_s s
                (out ++ [MkUsageOf budget limit used (saturating_sub limit used) (Z.abs window_start) (Z.abs reset_epoch_s)])
          | Err _ => []
          end
      end
  end.

Definition current_usage (disk : bool) (consumer_id : Z) (q : ConsumerQuotas) (now_epoch_s : Z) (s : StateStore)
    : list BudgetUsage := usage_loop ALL disk consumer_id q now_epoch_s s [].

(** * One increment *)

(** What a counter holds. *)
Definition count_at (s : StateStore) (k : Z * string * Z) : Z := default 0 (counters s !! k).

Definition counter_of (id : Z) (b : Budget) (t : Z) : Z * string * Z := (id, budget_key b, (budget_window b t).1).

Lemma newest_bound ws c M : (∀ k v, c !! k = Some v → k.2 <= M) → ws <= M → newest ws c <= M.
Proof.
  intros Hc Hw. unfold newest. assert (Hl : Forall (λ e, e.1.2 <= M) (map_to_list c)).
  { apply list.Forall_forall. intros [k v] Hin%elem_of_map_to_list. by apply (Hc k v). }
  revert Hl. generalize (map_to_list c). intros l Hl. induction Hl; [done|]. rewrite fmap_cons. cbn [foldr]. lia.
Qed.

(** Opening a counter at 0 changes nothing that is read. *)
Definition opened (k : Z * string * Z) (c : gmap (Z * string * Z) Z) : gmap (Z * string * Z) Z :=
  match c !! k with Some _ => c | None => <[k := 0]> c end.

Lemma opened_at k c k' : default 0 (opened k c !! k') = default 0 (c !! k').
Proof.
  unfold opened. destruct (c !! k) eqn:E; [done|]. destruct (decide (k' = k)) as [->|].
  - by rewrite lookup_insert_eq, E.
  - by rewrite lookup_insert_ne.
Qed.

Lemma opened_inv k c k' v : opened k c !! k' = Some v → k' = k ∨ c !! k' = Some v.
Proof. unfold opened. destruct (c !! k) eqn:E; [by right|]. intros [[-> _]|[_ H]]%lookup_insert_Some; auto. Qed.

Lemma prune_at ws c k : newest ws c <= k.2 + QUOTA_RETENTION_SECS → prune ws c !! k = c !! k.
Proof.
  intros H. unfold prune. destruct (c !! k) as [v|] eqn:E.
  - apply map_lookup_filter_Some. split; [done|]. simpl. lia.
  - apply map_lookup_filter_None. by left.
Qed.

(** The four answers of an increment by one. *)
Definition incr_answer (id : Z) (key : string) (ws limit : Z) (s : StateStore) (r : result StoreError Z) (s' : StateStore) : Prop :=
  let k := (id, key, ws) in
  match r with
  | Ok u =>
      id ∈ known s ∧ u = count_at s k + 1 ∧ u <= limit ∧
      s' = MkStore (known s) (<[k := u]> (prune ws (opened k (counters s))))
  | Err (QuotaExceeded used _ _) => s' = s ∧ used = count_at s k ∧ limit < used + 1
  | Err UnknownConsumer => s' = s ∧ id ∉ known s
  | Err Sqlite => s' = s
  end.

Lemma incr_cases disk id key ws limit s : limit <= u64_max →
  let '(r, s') := incr_quota disk id key ws 1 (Some limit) s in incr_answer id key ws limit s r s'.
Proof.
  intros Hl. unfold incr_quota. destruct disk; simpl; [|done].
  destruct (bool_decide_reflect (id ∈ known s)) as [Hk|Hk]; simpl; [|done].
  fold (opened (id, key, ws) (counters s)).
  destruct (prune ws (opened (id, key, ws) (counters s)) !! (id, key, ws)) as [used|] eqn:E; [|done].
  assert (Hu : used = count_at s (id, key, ws)).
  { unfold prune in E. apply map_lookup_filter_Some in E as [E _]. unfold count_at. by rewrite <- opened_at with (k := (id, key, ws)), E. }
  destruct (Z.ltb_spec u64_max (used + 1)), (Z.ltb_spec limit (used + 1)); simpl; try (split_and!; [done|done|lia]).
  rewrite (Z.min_l 1 i64_max) by done. destruct (Z.ltb_spec i64_max (used + 1)); simpl; [done|]. by rewrite <- Hu.
Qed.

(** With the disk, for a known consumer and a live counter, it is decided by the count. *)
Lemma incr_decided id b limit now s : id ∈ known s → limit <= u64_max → count_at s (counter_of id b now) < i64_max →
  newest (budget_window b now).1 (opened (counter_of id b now) (counters s)) <= (budget_window b now).1 + QUOTA_RETENTION_SECS →
  let k := counter_of id b now in
  incr_quota true id (budget_key b) (budget_window b now).1 1 (Some limit) s =
  if limit <? count_at s k + 1 then (Err (QuotaExceeded (count_at s k) limit 1), s)
  else (Ok (count_at s k + 1), MkStore (known s) (<[k := count_at s k + 1]> (prune k.2 (opened k (counters s))))).
Proof.
  intros Hk Hl Hi Hn k. unfold incr_quota. simpl. rewrite bool_decide_eq_true_2 by done. simpl.
  change (id, budget_key b, (budget_window b now).1) with k. fold (opened k (counters s)). rewrite prune_at by done.
  assert (E : opened k (counters s) !! k = Some (count_at s k)).
  { pose proof (opened_at k (counters s) k) as Ho. fold (count_at s k) in Ho. unfold opened in *.
    destruct (counters s !! k) eqn:E; rewrite ?E, ?lookup_insert_eq in *; simpl in Ho; by rewrite Ho. }
  rewrite E. destruct (Z.ltb_spec limit (count_at s k + 1)).
  - by rewrite orb_true_r.
  - rewrite (proj2 (Z.ltb_ge u64_max _)) by lia. simpl. rewrite (Z.min_l 1 i64_max) by done.
    by rewrite (proj2 (Z.ltb_ge i64_max _)) by (unfold k in *; lia).
Qed.

(** * Requests in sequence *)

#[global] Instance budget_windows b : Windows (budget_window b).
Proof. destruct b; exact _. Qed.

Lemma window_short b t : t - 31 * SECS_A_DAY < (budget_window b t).1 <= t.
Proof.
  destruct (window_in (Windows := budget_windows b) t) as [Hin Hlt]. split; [|done]. destruct b; cbn [budget_window] in *.
  - unfold day_window in *. cbn [fst snd] in *. unfold SECS_A_DAY in *. lia.
  - destruct (civil_from_days (t / SECS_A_DAY)) as [[y m] d] eqn:E. rewrite (month_window_spec _ _ _ _ E) in *. cbn [fst snd] in *.
    assert (days_in_month y m <= 31) by (unfold days_in_month; repeat case_match; lia). unfold SECS_A_DAY in *. lia.
Qed.

Definition rows_until (M : Z) (s : StateStore) : Prop := ∀ k v, counters s !! k = Some v → k.2 <= M.

(** The windows that no sweep deletes while no clock passes [M]. *)
Definition live (M : Z) (k : Z * string * Z) : Prop := M - QUOTA_RETENTION_SECS <= k.2.

(** How far the clock may step back: eleven months. *)
Definition SLACK : Z := QUOTA_RETENTION_SECS - 31 * SECS_A_DAY.

Lemma counter_live M id b t : M - SLACK <= t → live M (counter_of id b t).
Proof. intros H. pose proof (window_short b t) as [Hs _]. unfold live, SLACK, counter_of in *. cbn [snd]. lia. Qed.

(** Every call keeps the rows below the clock and never lowers a live counter. *)
Definition grows (M : Z) (s s' : StateStore) : Prop :=
  known s' = known s ∧ rows_until M s' ∧ ∀ k, live M k → count_at s k <= count_at s' k.

Lemma grows_refl M s : rows_until M s → grows M s s.
Proof. done. Qed.

Lemma grows_trans M s1 s2 s3 : grows M s1 s2 → grows M s2 s3 → grows M s1 s3.
Proof.
  intros (E1 & _ & H1) (E2 & R2 & H2). split_and!; [congruence|done|]. intros k Hk. specialize (H1 k Hk). specialize (H2 k Hk). lia.
Qed.

Lemma incr_grows disk id key ws limit s M : limit <= u64_max → rows_until M s → ws <= M →
  let '(r, s') := incr_quota disk id key ws 1 (Some limit) s in
  grows M s s' ∧
  (∀ u, r = Ok u → count_at s' (id, key, ws) = count_at s (id, key, ws) + 1 ∧ count_at s (id, key, ws) + 1 <= limit) ∧
  (r = Err UnknownConsumer → id ∉ known s) ∧
  (∀ k, live M k → k ≠ (id, key, ws) → count_at s' k = count_at s k).
Proof.
  intros Hl Hr Hw. pose proof (incr_cases disk id key ws limit s Hl) as H.
  destruct (incr_quota disk id key ws 1 (Some limit) s) as [[u|[]] s'];
    [|destruct H as [-> ?]|destruct H as [-> _]|simpl in H; subst s']; try by (split; [by apply grows_refl|]; split; [|split]).
  destruct H as (Hk & -> & Hu & ->). set (k0 := (id, key, ws)) in *.
  assert (Hn : newest ws (opened k0 (counters s)) <= M).
  { apply newest_bound; [|done]. intros k v [->|E]%opened_inv; [done|by apply (Hr k v)]. }
  assert (Hat : ∀ k, live M k → k ≠ k0 →
    count_at (MkStore (known s) (<[k0 := count_at s k0 + 1]> (prune ws (opened k0 (counters s))))) k = count_at s k).
  { intros k Hlk Hne. unfold count_at at 1. cbn [counters]. rewrite lookup_insert_ne by done.
    rewrite prune_at; [by rewrite opened_at|]. unfold live in Hlk. lia. }
  split; [|split_and!; [intros u [= <-]; unfold count_at at 1; cbn [counters]; by rewrite lookup_insert_eq|done|done]].
  split_and!; [done| |].
  - intros k v. cbn [counters]. intros [[<- _]|[_ E]]%lookup_insert_Some; [done|].
    unfold prune in E. apply map_lookup_filter_Some in E as [E _]. apply opened_inv in E as [->|E]; [done|by apply (Hr k v)].
  - intros k Hlk. destruct (decide (k = k0)) as [->|]; [|by rewrite Hat].
    unfold count_at at 2. cbn [counters]. rewrite lookup_insert_eq. simpl. lia.
Qed.

(** The request is let through. *)
Definition proceeds (o : QuotaOutcome) : bool :=
  match o with NotQuotaed | QuotaAllowed _ _ _ => true | QuotaDenied _ _ _ _ _ | Unavailable => false end.

Definition u64_limits (q : ConsumerQuotas) : Prop := ∀ b limit, budget_limit q b = Some limit → limit <= u64_max.

Lemma check_grows budgets disk id q now binding s M : u64_limits q → rows_until M s → M - SLACK <= now <= M →
  let '(o, s') := check_budgets budgets disk id q now binding s in
  grows M s s' ∧
  (proceeds o = true → id ∈ known s → ∀ b limit, b ∈ budgets → budget_limit q b = Some limit →
   let k := counter_of id b now in count_at s k + 1 <= count_at s' k ∧ count_at s k + 1 <= limit).
Proof.
  intros Hq. revert binding s. induction budgets as [|b budgets IH]; intros binding s Hr Hnow; simpl.
  { split; [done|]. intros _ _ b limit Hb. by apply elem_of_nil in Hb. }
  destruct (budget_limit q b) as [limit|] eqn:El.
  2:{ specialize (IH binding s Hr Hnow). destruct (check_budgets budgets disk id q now binding s) as [o s'].
      destruct IH as [Hg IH]. split; [done|]. intros Hp Hk b' l' [->|Hb]%elem_of_cons Eb; [congruence|by apply IH]. }
  pose proof (window_short b now) as [_ Hws]. pose proof (counter_live M id b now (proj1 Hnow)) as Hlive. unfold counter_of in *.
  destruct (budget_window b now) as [ws reset] eqn:Ew. cbn [fst] in *.
  pose proof (incr_grows disk id (budget_key b) ws limit s M (Hq _ _ El) Hr ltac:(lia)) as Hi.
  destruct (incr_quota disk id (budget_key b) ws 1 (Some limit) s) as [[u|e] s1]; destruct Hi as [Hg Hi].
  - destruct (proj1 Hi u eq_refl) as [Ei Hi']. clear Hi. rename Hi' into Hi. set (bd := match binding with Some _ => _ | None => _ end).
    specialize (IH bd s1 (proj1 (proj2 Hg)) Hnow). destruct (check_budgets budgets disk id q now bd s1) as [o s'].
    destruct IH as [Hg' IH]. split; [by eapply grows_trans|]. destruct Hg as (Ek & _ & Hmono).
    intros Hp Hk b' l' [->|Hb]%elem_of_cons Eb.
    + rewrite El in Eb. injection Eb as <-. rewrite Ew. cbn [fst]. destruct Hg' as (_ & _ & Hg'). specialize (Hg' _ Hlive). lia.
    + rewrite <- Ek in Hk. specialize (IH Hp Hk b' l' Hb Eb) as [IH1 IH2].
      specialize (Hmono _ (counter_live M id b' now (proj1 Hnow))). unfold counter_of in Hmono. lia.
  - destruct e; repeat case_match; simplify_eq; (split; [done|]); try done.
    intros _ Hk. by destruct (proj1 (proj2 Hi) eq_refl).
Qed.

Record QuotaRequest : Type := QRequest { rq_consumer : Z; rq_now : Z; rq_disk : bool }.

(** A sequence of checks, with the consumer and time of each request let through. *)
Fixpoint serve (quotas : Z → ConsumerQuotas) (rs : list QuotaRequest) (s : StateStore) : list (Z * Z) * StateStore :=
  match rs with
  | [] => ([], s)
  | r :: rs =>
      let '(o, s) := quota_check (rq_disk r) (rq_consumer r) (quotas (rq_consumer r)) (rq_now r) s in
      let '(log, s) := serve quotas rs s in
      (if proceeds o then (rq_consumer r, rq_now r) :: log else log, s)
  end.

(** How many of them were a consumer's, in the window of a time. *)
Definition within (id : Z) (b : Budget) (t : Z) (log : list (Z * Z)) : Z :=
  Z.of_nat (length (filter (λ e, e.1 = id ∧ budget_window b e.2 = budget_window b t) log)).

Lemma serve_times (P : Z → Prop) quotas rs s : Forall (λ r, P (rq_now r)) rs → Forall (λ e, P e.2) (serve quotas rs s).1.
Proof.
  intros H. revert s. induction H as [|r rs Hr Hrs IH]; intros s; simpl; [done|].
  destruct (quota_check _ _ _ _ s) as [o s1]. specialize (IH s1). destruct (serve quotas rs s1) as [log s2].
  destruct (proceeds o); [by constructor|done].
Qed.

(** A window no request can be in any more. *)
Lemma within_dead M id b t log : Forall (λ e, M - SLACK <= e.2) log → ¬ live M (counter_of id b t) → within id b t log = 0.
Proof.
  intros Hl Hd. unfold within. induction Hl as [|e log He Hl IH]; [done|]. rewrite filter_cons.
  case_decide as Hc; [|done]. destruct Hd. destruct Hc as [_ Hw]. pose proof (counter_live M id b e.2 He) as H.
  unfold counter_of in *. by rewrite Hw in H.
Qed.

(** In time order but for steps back of at most [SLACK]. *)
Definition steady : list QuotaRequest → Prop := StronglySorted (λ a b, rq_now a - SLACK <= rq_now b).

Lemma serve_bound quotas rs s M id b limit t : (∀ id, u64_limits (quotas id)) → steady rs → rows_until M s →
  Forall (λ r, M - SLACK <= rq_now r) rs → id ∈ known s → budget_limit (quotas id) b = Some limit →
  let n := within id b t (serve quotas rs s).1 in n = 0 ∨ count_at s (counter_of id b t) + n <= limit.
Proof.
  intros Hq Hst Hr HM Hk Hb. revert s M Hr HM Hk. induction Hst as [|r rs Hst IH Hall]; intros s M Hr HM Hk; [by left|].
  cbn [serve]. inversion HM as [|?? Hm HM']; subst. set (M' := Z.max M (rq_now r)).
  assert (Hr' : rows_until M' s) by (intros k v E; specialize (Hr k v E); lia).
  assert (Hrest : Forall (λ r', M' - SLACK <= rq_now r') rs).
  { apply list.Forall_forall. intros r' Hin. rewrite list.Forall_forall in HM'. specialize (HM' r' Hin).
    rewrite list.Forall_forall in Hall. specialize (Hall r' Hin). lia. }
  assert (Hnow : M' - SLACK <= rq_now r <= M') by (unfold SLACK, QUOTA_RETENTION_SECS, SECS_A_DAY in *; lia).
  pose proof (check_grows ALL (rq_disk r) (rq_consumer r) (quotas (rq_consumer r)) (rq_now r) None s M' (Hq _) Hr' Hnow) as Hc.
  fold (quota_check (rq_disk r) (rq_consumer r) (quotas (rq_consumer r)) (rq_now r) s) in Hc.
  destruct (quota_check _ _ _ _ s) as [o s1]. destruct Hc as [(Ek & Hr1 & Hg) Hc].
  specialize (IH s1 M' Hr1 Hrest ltac:(by rewrite Ek)).
  pose proof (serve_times (λ z, M' - SLACK <= z) quotas rs s1 Hrest) as Hlog.
  destruct (serve quotas rs s1) as [log s2]. cbn [fst] in *.
  assert (Htail : within id b t log = 0 ∨ count_at s (counter_of id b t) + within id b t log <= limit).
  { destruct (decide (M' - QUOTA_RETENTION_SECS <= (counter_of id b t).2)) as [Hl|Hl].
    - specialize (Hg _ Hl). lia.
    - left. by eapply within_dead. }
  destruct (proceeds o) eqn:Ho; cbn [fst]; [|done]. unfold within in *. rewrite filter_cons.
  case_decide as Hd; [|done]. right. cbn [fst snd] in Hd. destruct Hd as [<- Hw]. cbn [length].
  specialize (Hc eq_refl Hk b limit ltac:(destruct b; set_solver) Hb) as [Hc1 Hc2].
  unfold counter_of in *. rewrite Hw in *. lia.
Qed.

(** C31: No budget is ever exceeded.  Whatever the requests of any consumers, as long
    as the clock never steps back by more than eleven months, those of a known
    consumer that are let through in one day or month, together with what its
    counter held before, are at most the budget: the yearly sweep of old
    counters never resets one that still counts. *)
Theorem quota_never_exceeded (quotas : Z → ConsumerQuotas) (rs : list QuotaRequest) (s : StateStore) (M : Z)
    (Hquotas : ∀ id, u64_limits (quotas id)) (Hclock : steady rs)
    (Hstart : rows_until M s ∧ Forall (λ r, M - SLACK <= rq_now r) rs)
    (id : Z) (b : Budget) (limit t : Z) (Hknown : id ∈ known s) (Hbudget : budget_limit (quotas id) b = Some limit) :
  let n := within id b t (serve quotas rs s).1 in n = 0 ∨ count_at s (counter_of id b t) + n <= limit.
Proof. destruct Hstart. by apply serve_bound with (M := M). Qed.

(** * The answer *)

Section Answer.
Context (id : Z) (q : ConsumerQuotas) (now_s : Z).

Definition reset_of (b : Budget) : Z := (budget_window b now_s).2.

(** A budget with nothing left. *)
Definition spent (s : StateStore) (b : Budget) : bool :=
  match budget_limit q b with Some limit => limit <=? count_at s (counter_of id b now_s) | None => false end.

(** The last wall that the request would meet. *)
Definition wall (s : StateStore) : Budget := if spent s Monthly then Monthly else Daily.

Definition denial (s : StateStore) (b : Budget) : QuotaOutcome :=
  QuotaDenied (default 0 (budget_limit q b)) 0 (Z.abs (reset_of (wall s))) (reset_of (wall s) - now_s) b.

(** What a budget has left when this request is paid. *)
Definition room (s : StateStore) (b : Budget) : option (Z * Z * Z) :=
  limit ← budget_limit q b; Some (limit, limit - count_at s (counter_of id b now_s) - 1, Z.abs (reset_of b)).

Definition limited (bs : list Budget) : list Budget := filter (λ b, is_Some (budget_limit q b)) bs.

(** The answer, and the budgets it is charged to. *)
Definition quota_spec (s : StateStore) : QuotaOutcome * list Budget :=
  if spent s Daily then (denial s Daily, [])
  else if spent s Monthly then (denial s Monthly, limited [Daily])
  else
    (match room s Daily, room s Monthly with
     | None, None => NotQuotaed
     | Some (l, r, t), None | None, Some (l, r, t) => QuotaAllowed l r t
     | Some (l, r, t), Some (l', r', t') => if r' <? r then QuotaAllowed l' r' t' else QuotaAllowed l r t
     end, limited ALL).

Definition charged (M : Z) (bs : list Budget) (s s' : StateStore) : Prop :=
  ∀ k, live M k → count_at s' k = count_at s k + if bool_decide (k ∈ (λ b, counter_of id b now_s) <$> bs) then 1 else 0.

Definition ready (M : Z) (s : StateStore) : Prop :=
  id ∈ known s ∧ rows_until M s ∧ ∀ b, count_at s (counter_of id b now_s) < i64_max.

Lemma reset_bounds b : now_s < reset_of b <= now_s + 31 * SECS_A_DAY.
Proof.
  unfold reset_of. destruct (window_in (Windows := budget_windows b) now_s) as [_ Hlt]. split; [done|].
  pose proof (window_short b now_s) as [Hs Hs']. destruct b; cbn [budget_window] in *.
  - unfold day_window in *. cbn [fst snd] in *. unfold SECS_A_DAY in *. lia.
  - destruct (civil_from_days (now_s / SECS_A_DAY)) as [[y m] d] eqn:E. rewrite (month_window_spec _ _ _ _ E) in *. cbn [fst snd] in *.
    assert (days_in_month y m <= 31) by (unfold days_in_month; repeat case_match; lia). unfold SECS_A_DAY in *. lia.
Qed.

Lemma retry_exact b : retry_after (reset_of b) now_s = reset_of b - now_s.
Proof.
  pose proof (reset_bounds b). unfold retry_after, SECS_A_DAY in *. rewrite Z.max_r by lia.
  by rewrite (proj2 (Z.ltb_lt _ _)) by lia.
Qed.

(** A month ends at a midnight. *)
Lemma daily_first : reset_of Daily <= reset_of Monthly.
Proof.
  pose proof (reset_bounds Monthly) as [H _]. unfold reset_of in *. cbn [budget_window] in *.
  destruct (civil_from_days (now_s / SECS_A_DAY)) as [[y m] d] eqn:E. rewrite (month_window_spec _ _ _ _ E) in *.
  unfold day_window. cbn [fst snd] in *. unfold SECS_A_DAY in *.
  set (e := days_from_civil y m 1 + days_in_month y m) in *. clearbody e.
  assert (now_s / 86400 < e) by (apply Z.div_lt_upper_bound; lia). lia.
Qed.

Lemma charge_one M s b limit : u64_limits q → budget_limit q b = Some limit → id ∈ known s → rows_until M s →
  count_at s (counter_of id b now_s) < i64_max → M - SLACK <= now_s <= M →
  let k := counter_of id b now_s in
  let r := incr_quota true id (budget_key b) (budget_window b now_s).1 1 (Some limit) s in
  if spent s b then r = (Err (QuotaExceeded (count_at s k) limit 1), s)
  else ∃ s1, r = (Ok (count_at s k + 1), s1) ∧ charged M [b] s s1 ∧ known s1 = known s ∧ rows_until M s1.
Proof.
  intros Hq Hb Hk Hr Hi Hn. cbn zeta. pose proof (window_short b now_s) as [Hs1 Hs2].
  assert (Hnew : newest (budget_window b now_s).1 (opened (counter_of id b now_s) (counters s)) <= M).
  { apply newest_bound; [|lia]. intros k v [->|E]%opened_inv; [cbn [snd counter_of]; lia|by apply (Hr k v)]. }
  pose proof (incr_decided id b limit now_s s Hk (Hq _ _ Hb) ltac:(lia)) as Hd. cbn zeta in Hd.
  pose proof (incr_grows true id (budget_key b) (budget_window b now_s).1 limit s M (Hq _ _ Hb) Hr ltac:(lia)) as Hg.
  rewrite Hd in * by (unfold SLACK in *; lia). unfold spent. rewrite Hb.
  destruct (Z.ltb_spec limit (count_at s (counter_of id b now_s) + 1)), (Z.leb_spec limit (count_at s (counter_of id b now_s))); try lia; [done|].
  eexists. split; [done|]. destruct Hg as [(Hg1 & Hg2 & _) (Hg3 & _ & Hg4)]. split_and!; [|done|done].
  intros k Hl. simpl fmap. destruct (bool_decide_reflect (k ∈ [counter_of id b now_s])) as [->%list_elem_of_singleton|Hne].
  - exact (proj1 (Hg3 _ eq_refl)).
  - rewrite Hg4; [lia|done|]. intros ->. by apply Hne, list_elem_of_singleton.
Qed.

Lemma other_key b b' : b ≠ b' → counter_of id b now_s ≠ counter_of id b' now_s.
Proof. intros Hb [= E]. by destruct b, b'. Qed.

Lemma spent_charged M s s1 b b' : charged M [b] s s1 → b ≠ b' → M - SLACK <= now_s →
  count_at s1 (counter_of id b' now_s) = count_at s (counter_of id b' now_s).
Proof.
  unfold charged. intros Hc Hb Hn. rewrite Hc by (by apply counter_live). rewrite bool_decide_eq_false_2; [lia|].
  intros E%list_elem_of_singleton. by apply (other_key b' b).
Qed.

(** A turn of the loop over the other budgets. *)
Lemma peek_turn b s acc later : peek true id q now_s b s acc later =
  if negb (bool_decide (later = b)) && spent s later && (acc.1 <? reset_of later - now_s)
  then (reset_of later - now_s, Z.abs (reset_of later)) else acc.
Proof.
  pose proof (retry_exact later) as Hr. unfold peek, spent, reset_of, counter_of in *.
  destruct (bool_decide_reflect (later = b)) as [->|Hne]; [done|]. cbn [negb]. destruct (budget_limit q later) as [limit|]; [|done].
  destruct (budget_window later now_s) as [ws reset]. cbn [fst snd get_quota] in *. unfold count_at. cbn [andb].
  destruct (limit <=? _); [|done]. cbn [andb]. by rewrite Hr.
Qed.

(** A denial waits for the last wall. *)
Lemma wait_daily s : foldl (peek true id q now_s Daily s) (retry_after (reset_of Daily) now_s, Z.abs (reset_of Daily)) ALL =
  (reset_of (wall s) - now_s, Z.abs (reset_of (wall s))).
Proof.
  pose proof daily_first as Hle. rewrite retry_exact. unfold ALL. cbn [foldl]. rewrite !peek_turn.
  change (bool_decide (Daily = Daily)) with true. change (bool_decide (Monthly = Daily)) with false. cbn [negb andb fst]. unfold wall.
  destruct (spent s Monthly); [|done]. cbn [andb]. destruct (Z.ltb_spec (reset_of Daily - now_s) (reset_of Monthly - now_s)); [done|].
  by replace (reset_of Daily) with (reset_of Monthly) by lia.
Qed.

Lemma wait_monthly s : foldl (peek true id q now_s Monthly s) (retry_after (reset_of Monthly) now_s, Z.abs (reset_of Monthly)) ALL =
  (reset_of Monthly - now_s, Z.abs (reset_of Monthly)).
Proof.
  pose proof daily_first as Hle. rewrite retry_exact. unfold ALL. cbn [foldl]. rewrite !peek_turn. cbn [fst].
  rewrite (proj2 (Z.ltb_ge (reset_of Monthly - now_s) (reset_of Daily - now_s))) by lia. rewrite andb_false_r. by change (bool_decide (Monthly = Monthly)) with true.
Qed.

Lemma saturating_room limit used : used + 1 <= limit → saturating_sub limit (used + 1) = limit - used - 1.
Proof. unfold saturating_sub. lia. Qed.

Lemma saturating_none limit used : limit <= used → saturating_sub limit used = 0.
Proof. unfold saturating_sub. lia. Qed.

Lemma daily_turn M s : u64_limits q → ready M s → M - SLACK <= now_s <= M → spent s Daily = false →
  ∃ s1, charged M (limited [Daily]) s s1 ∧ known s1 = known s ∧ rows_until M s1 ∧
    quota_check true id q now_s s = check_budgets [Monthly] true id q now_s (room s Daily) s1.
Proof.
  intros Hq Hr Hn Hs. unfold quota_check, ALL. cbn [check_budgets]. destruct (budget_limit q Daily) as [limit|] eqn:Eb.
  - pose proof (charge_one M s Daily limit Hq Eb (proj1 Hr) (proj1 (proj2 Hr)) (proj2 (proj2 Hr) Daily) Hn) as H. cbn zeta in H. rewrite Hs in H. destruct H as (s1 & H & Hc & Hk & Hrows).
    exists s1. unfold limited. rewrite filter_cons_True by (rewrite Eb; by eexists). split_and!; [done|done|done|].
    unfold room, reset_of. rewrite Eb. cbn [mbind option_bind]. revert H. unfold spent in Hs. rewrite Eb in Hs. apply Z.leb_gt in Hs.
    destruct (budget_window Daily now_s) as [ws reset]. cbn [fst snd]. intros ->.
    by rewrite saturating_room by lia.
  - exists s. unfold limited. rewrite filter_cons_False by (rewrite Eb; by intros [? ?]). destruct Hr as (_ & Hr & _).
    split_and!; [|done|done|unfold room; by rewrite Eb]. intros k _. rewrite bool_decide_eq_false_2; [lia|]. apply not_elem_of_nil.
Qed.

Lemma monthly_apart M s s1 : charged M (limited [Daily]) s s1 → M - SLACK <= now_s →
  count_at s1 (counter_of id Monthly now_s) = count_at s (counter_of id Monthly now_s).
Proof.
  unfold charged, limited. intros Hc Hn. rewrite Hc by (by apply counter_live). rewrite bool_decide_eq_false_2; [lia|].
  rewrite filter_cons. case_decide; [|apply not_elem_of_nil]. intros E%list_elem_of_singleton. by apply (other_key Monthly Daily).
Qed.

Lemma charged_none M s : charged M [] s s.
Proof. intros k _. rewrite bool_decide_eq_false_2; [lia|]. apply not_elem_of_nil. Qed.

Lemma charged_all M s s1 s' : charged M (limited [Daily]) s s1 → charged M (limited [Monthly]) s1 s' → charged M (limited ALL) s s'.
Proof.
  unfold charged. intros H1 H2 k Hk. rewrite H2, H1 by done. unfold limited, ALL. rewrite !filter_cons. cbn [filter list_filter].
  pose proof (other_key Daily Monthly ltac:(done)) as Hne. repeat case_decide; simpl fmap; repeat case_bool_decide; set_solver by lia.
Qed.

Lemma spent_limited s b : spent s b = true → ∃ limit, budget_limit q b = Some limit ∧ limit <= count_at s (counter_of id b now_s).
Proof. unfold spent. destruct (budget_limit q b) as [limit|]; [|done]. intros H%Z.leb_le. eauto. Qed.

(** A budget with nothing left stops the loop there. *)
Lemma denied_turn M s b bs binding : u64_limits q → id ∈ known s → rows_until M s → count_at s (counter_of id b now_s) < i64_max →
  M - SLACK <= now_s <= M → spent s b = true →
  check_budgets (b :: bs) true id q now_s binding s =
  (let '(w, reset) := foldl (peek true id q now_s b s) (retry_after (reset_of b) now_s, Z.abs (reset_of b)) ALL in
   QuotaDenied (default 0 (budget_limit q b)) 0 reset w b, s).
Proof.
  intros Hq Hk Hr Hi Hn Hs. destruct (spent_limited s b Hs) as (limit & Eb & Hle).
  pose proof (charge_one M s b limit Hq Eb Hk Hr Hi Hn) as H. cbn zeta in H. rewrite Hs in H.
  cbn [check_budgets]. rewrite Eb. unfold reset_of. revert H.
  destruct (budget_window b now_s) as [ws reset]. cbn [fst snd default]. intros ->.
  rewrite saturating_none by done. by destruct (foldl _ _ _).
Qed.

(** The last turn, of a month with something left. *)
Lemma monthly_turn M s binding : u64_limits q → id ∈ known s → rows_until M s → count_at s (counter_of id Monthly now_s) < i64_max →
  M - SLACK <= now_s <= M → spent s Monthly = false →
  ∃ s', charged M (limited [Monthly]) s s' ∧ known s' = known s ∧
    check_budgets [Monthly] true id q now_s binding s =
    (match binding, room s Monthly with
     | None, None => NotQuotaed
     | Some (l, r, t), None | None, Some (l, r, t) => QuotaAllowed l r t
     | Some (l, r, t), Some (l', r', t') => if r' <? r then QuotaAllowed l' r' t' else QuotaAllowed l r t
     end, s').
Proof.
  intros Hq Hk Hr Hi Hn Hs. cbn [check_budgets]. unfold room, limited. destruct (budget_limit q Monthly) as [limit|] eqn:Eb.
  - pose proof (charge_one M s Monthly limit Hq Eb Hk Hr Hi Hn) as H. cbn zeta in H. rewrite Hs in H. destruct H as (s1 & H & Hc & Hk1 & Hr1).
    exists s1. rewrite filter_cons_True by (rewrite Eb; by eexists). split_and!; [done|done|]. unfold spent in Hs. rewrite Eb in Hs.
    apply Z.leb_gt in Hs. unfold reset_of. revert H. destruct (budget_window Monthly now_s) as [ws reset]. cbn [fst snd]. intros ->.
    rewrite saturating_room by lia. cbn [mbind option_bind]. destruct binding as [[[l r] t]|]; [|done]. by destruct (_ <? r).
  - exists s. rewrite filter_cons_False by (rewrite Eb; by intros [? ?]). split_and!; [|done|by destruct binding as [[[l r] t]|]].
    intros k _. rewrite bool_decide_eq_false_2; [lia|]. apply not_elem_of_nil.
Qed.
End Answer.

(** The answer of a quota check.  With the disk answering, for a known consumer,
    the check decides by what the counters hold: when the day's budget is spent
    nothing is charged; when only the month's is, the day's is charged; else
    both are, and the tightest is reported.  A denial tells to wait exactly
    until the last spent budget is whole again, and no other consumer's
    counter, nor another window's, changes. *)
Theorem quota_outcome (id : Z) (q : ConsumerQuotas) (now_s M : Z) (s : StateStore)
    (Hlimits : u64_limits q) (Hready : ready id now_s M s) (Hclock : M - SLACK <= now_s <= M) :
  let '(o, s') := quota_check true id q now_s s in
  let '(o', bs) := quota_spec id q now_s s in
  o = o' ∧ charged id now_s M bs s s' ∧ known s' = known s.
Proof.
  destruct Hready as (Hk & Hr & Hi). unfold quota_spec. destruct (spent id q now_s s Daily) eqn:ED.
  { unfold quota_check, ALL. rewrite (denied_turn id q now_s M) by done. rewrite wait_daily.
    split; [done|]. split; [apply charged_none|done]. }
  destruct (daily_turn id q now_s M s Hlimits ltac:(done) Hclock ED) as (s1 & Hc & Hk1 & Hr1 & ->).
  pose proof (monthly_apart id q now_s M s s1 Hc ltac:(lia)) as Em.
  assert (Es : spent id q now_s s1 Monthly = spent id q now_s s Monthly) by (unfold spent; by rewrite Em).
  rewrite <- Hk1 in Hk. specialize (Hi Monthly). rewrite <- Em in Hi.
  destruct (spent id q now_s s Monthly) eqn:EM.
  { rewrite (denied_turn id q now_s M) by done. rewrite wait_monthly. unfold denial, wall. rewrite EM. done. }
  destruct (monthly_turn id q now_s M s1 (room id q now_s s Daily) Hlimits Hk Hr1 Hi Hclock Es) as (s' & Hc' & Hk' & ->).
  assert (Er : room id q now_s s1 Monthly = room id q now_s s Monthly) by (unfold room; by rewrite Em).
  rewrite Er. split_and!; [done|by eapply charged_all|congruence].
Qed.

Definition sample_quotas (id : Z) : ConsumerQuotas := MkQuotas (Some 2) (Some 3) false.
Definition sample_store : StateStore := MkStore {[ 7 ]} ∅.
(** Three on 14 November 2023, one of them with the disk gone, two the day after. *)
Definition sample_requests : list QuotaRequest :=
  [QRequest 7 1700000000 true; QRequest 7 1700000001 false; QRequest 7 1700000002 true; QRequest 7 1700000003 true;
   QRequest 7 1700092800 true; QRequest 7 1700092801 true].

Example sample_served : (serve sample_quotas sample_requests sample_store).1 = [(7, 1700000000); (7, 1700000002); (7, 1700092800)].
Proof. vm_compute. reflexivity. Qed.

Example sample_denied : (quota_check true 7 (sample_quotas 7) 1700000003 (serve sample_quotas sample_requests sample_store).2).1 =
  QuotaDenied 2 0 1701388800 1388797 Daily.
Proof. vm_compute. reflexivity. Qed.

Lemma quota_never_exceeded_witness :
  within 7 Monthly 1700092800 (serve sample_quotas sample_requests sample_store).1 = 3 ∧
  let n := within 7 Monthly 1700092800 (serve sample_quotas sample_requests sample_store).1 in
  n = 0 ∨ count_at sample_store (counter_of 7 Monthly 1700092800) + n <= 3.
Proof.
  split; [vm_compute; reflexivity|].
  refine (quota_never_exceeded sample_quotas sample_requests sample_store 1700000000 _ _ _ 7 Monthly 3 1700092800 _ _).
  - intros id [] limit [= <-]; done.
  - repeat (constructor; [|repeat (constructor; [vm_compute; discriminate|]); constructor]). constructor.
  - split; [by intros k v [=]|]. repeat (constructor; [vm_compute; discriminate|]). constructor.
  - apply (bool_decide_unpack _). vm_compute. exact I.
  - reflexivity.
Defined.

Lemma quota_outcome_witness :
  let '(o, s') := quota_check true 7 (sample_quotas 7) 1700000000 sample_store in
  let '(o', bs) := quota_spec 7 (sample_quotas 7) 1700000000 sample_store in
  o = o' ∧ charged 7 1700000000 1700000000 bs sample_store s' ∧ known s' = known sample_store.
Proof.
  refine (quota_outcome 7 (sample_quotas 7) 1700000000 1700000000 sample_store _ _ _).
  - intros [] limit [= <-]; done.
  - split; [apply (bool_decide_unpack _); vm_compute; exact I|]. split; [by intros k v [=]|]. intros []; done.
  - split; vm_compute; discriminate.
Defined.
