(* ===== verification/HttpDate.v ===== *)
(** HTTP dates (crates/dwara-core/src/config/versioning.rs): the IMF-fixdate of
    [Sunset], [Deprecation] and [Retry-After].

    A string is the list of its characters.  The code measures the digits of a
    field in bytes; a field of [n] bytes that are digits is one of [n] digits. *)

From S2P Require Import Prelude JsNumber Text Utf8 Affinity Router Rewrite Civil.
Local Open Scope Z_scope.

#[local] Ltac Zify.zify_post_hook ::= Z.to_euclidean_division_equations.

(** * Fields *)

Definition DAY_NAMES : list jstr := u <$> ["Sun"; "Mon"; "Tue"; "Wed"; "Thu"; "Fri"; "Sat"].

Definition MONTHS : list (jstr * Z) :=
  [(u "Jan", 31); (u "Feb", 28); (u "Mar", 31); (u "Apr", 30); (u "May", 31); (u "Jun", 30);
   (u "Jul", 31); (u "Aug", 31); (u "Sep", 30); (u "Oct", 31); (u "Nov", 30); (u "Dec", 31)].

Definition two_digits (s : jstr) : option Z :=
  match s with
  | [a; b] => if is_dec a && is_dec b then Some ((Z.of_N a - 48) * 10 + (Z.of_N b - 48)) else None
  | _ => None
  end.

Definition four_digits (s : jstr) : option Z :=
  if (length s =? 4)%nat && forallb is_dec s then Some (foldl (λ acc d, acc * 10 + (Z.of_N d - 48)) 0 s) else None.

Definition parse_time (s : jstr) : option (Z * Z * Z) :=
  match split_on 58 s with
  | [p0; p1; p2] =>
      hour ← two_digits p0;
      minute ← two_digits p1;
      second ← two_digits p2;
      if (23 <? hour) || (59 <? minute) || (59 <? second) then None else Some (hour, minute, second)
  | _ => None
  end.

(** The index of [months.iter().position(..)], from 1: the arms of [month_index]. *)
Definition month_index (name : jstr) : option Z :=
  if bool_decide (name = u "Jan") then Some 1
  else if bool_decide (name = u "Feb") then Some 2
  else if bool_decide (name = u "Mar") then Some 3
  else if bool_decide (name = u "Apr") then Some 4
  else if bool_decide (name = u "May") then Some 5
  else if bool_decide (name = u "Jun") then Some 6
  else if bool_decide (name = u "Jul") then Some 7
  else if bool_decide (name = u "Aug") then Some 8
  else if bool_decide (name = u "Sep") then Some 9
  else if bool_decide (name = u "Oct") then Some 10
  else if bool_decide (name = u "Nov") then Some 11
  else if bool_decide (name = u "Dec") then Some 12
  else None.

(** [strip_suffix(',')]. *)
Definition strip_comma (s : jstr) : option jstr :=
  match reverse s with c :: r => if (c =? 44)%N then Some (reverse r) else None | [] => None end.

(** The time in Unix seconds. *)
Definition parse_http_date (value : jstr) : option Z :=
  match split_on 32 value with
  | [p0; p1; p2; p3; p4; p5] =>
      day_name ← strip_comma p0;
      day ← two_digits p1;
      month ← head (filter (λ m, m.1 = p2) MONTHS);
      year ← four_digits p3;
      '(hour, minute, second) ← parse_time p4;
      if bool_decide (p5 ≠ u "GMT") then None
      else
        let leap := (Z.rem year 4 =? 0) && (negb (Z.rem year 100 =? 0) || (Z.rem year 400 =? 0)) in
        let max_day := if bool_decide (month.1 = u "Feb") && leap then 29 else month.2 in
        if negb ((1 <=? day) && (day <=? max_day)) then None
        else
          index ← month_index p2;
          let days := days_from_civil_v year index day in
          let weekday := Z.rem (Z.rem days 7 + 7 + 4) 7 in
          if bool_decide (DAY_NAMES !! Z.to_nat weekday ≠ Some day_name) then None
          else Some (days * 86400 + hour * 3600 + minute * 60 + second)
  | _ => None
  end.

Definition i64_saturate (z : Z) : Z := Z.max (- 2 ^ 63) (Z.min (2 ^ 63 - 1) z).

(** [Retry-After] in seconds. *)
Definition parse_retry_after (value : jstr) (now_unix_seconds : Z) : option Z :=
  let trimmed := trim value in
  match parse_usize trimmed with
  | Some secs => Some secs
  | None =>
      date ← parse_http_date trimmed;
      let remaining := i64_saturate (date - now_unix_seconds) in
      if remaining <=? 0 then Some 0 else Some remaining
  end.

(** * The date of a time *)

Definition digit (n : Z) : N := Z.to_N (48 + n).
Definition pad2 (n : Z) : jstr := [digit (n / 10); digit (n mod 10)].
Definition pad4 (n : Z) : jstr := [digit (n / 1000); digit (n / 100 mod 10); digit (n / 10 mod 10); digit (n mod 10)].

Definition render (day_name : jstr) (d : Z) (month : jstr) (y h mi s : Z) : jstr :=
  (day_name ++ [44%N]) ++ 32%N :: pad2 d ++ 32%N :: month ++ 32%N :: pad4 y ++ 32%N ::
  (pad2 h ++ 58%N :: pad2 mi ++ 58%N :: pad2 s) ++ 32%N :: u "GMT".

Definition weekday_name (days : Z) : jstr := default [] (DAY_NAMES !! Z.to_nat ((days + 4) mod 7)).
Definition month_name (m : Z) : jstr := default [] ((λ p, p.1) <$> MONTHS !! Z.to_nat (m - 1)).

Definition http_date (t : Z) : jstr :=
  let days := t / SECS_A_DAY in
  let secs := t mod SECS_A_DAY in
  let '(y, m, d) := civil_from_days days in
  render (weekday_name days) d (month_name m) y (secs / 3600) (secs / 60 mod 60) (secs mod 60).

Definition year_of_time (t : Z) : Z := (civil_from_days (t / SECS_A_DAY)).1.1.

Example sample_date : parse_http_date (u "Sun, 06 Nov 1994 08:49:37 GMT") = Some 784111777.
Proof. reflexivity. Qed.
Example sample_printed : http_date 784111777 = u "Sun, 06 Nov 1994 08:49:37 GMT".
Proof. reflexivity. Qed.
Example sample_wrong_day : parse_http_date (u "Mon, 06 Nov 1994 08:49:37 GMT") = None.
Proof. reflexivity. Qed.

(** * Digits *)

Lemma digit_dec n : 0 <= n <= 9 → is_dec (digit n) = true.
Proof. intros H. unfold is_dec, between, digit. apply andb_true_iff. split; apply N.leb_le; lia. Qed.

Lemma digit_value n : 0 <= n → Z.of_N (digit n) - 48 = n.
Proof. unfold digit. lia. Qed.

Lemma dec_digit c : is_dec c = true → ∃ n, c = digit n ∧ 0 <= n <= 9.
Proof. unfold is_dec, between. intros [H1%N.leb_le H2%N.leb_le]%andb_true_iff. exists (Z.of_N c - 48). unfold digit. lia. Qed.

Lemma two_pad n : 0 <= n <= 99 → two_digits (pad2 n) = Some n.
Proof.
  intros H. unfold two_digits, pad2. rewrite !digit_dec by lia. cbn [andb]. rewrite !digit_value by lia. f_equal. lia.
Qed.

Lemma two_inv s n : two_digits s = Some n → s = pad2 n ∧ 0 <= n <= 99.
Proof.
  unfold two_digits. destruct s as [|a [|b [|? ?]]]; try done. destruct (is_dec a) eqn:Ha, (is_dec b) eqn:Hb; try done.
  apply dec_digit in Ha as (x & -> & Hx), Hb as (y & -> & Hy). cbn [andb]. rewrite !digit_value by lia. intros [= <-].
  split; [|lia]. unfold pad2. f_equal; [f_equal; lia|]. f_equal. f_equal. lia.
Qed.

Lemma four_pad n : 0 <= n <= 9999 → four_digits (pad4 n) = Some n.
Proof.
  intros H. unfold four_digits, pad4. cbn [length Nat.eqb forallb]. rewrite !digit_dec by lia. cbn [andb foldl].
  rewrite !digit_value by lia. f_equal. lia.
Qed.

Lemma four_inv s n : four_digits s = Some n → s = pad4 n ∧ 0 <= n <= 9999.
Proof.
  unfold four_digits. destruct s as [|a [|b [|c [|d [|? ?]]]]]; try done. cbn [length Nat.eqb forallb].
  destruct (is_dec a) eqn:Ha, (is_dec b) eqn:Hb, (is_dec c) eqn:Hc, (is_dec d) eqn:Hd; try done. cbn [andb foldl].
  apply dec_digit in Ha as (x & -> & Hx), Hb as (y & -> & Hy), Hc as (z & -> & Hz), Hd as (w & -> & Hw).
  rewrite !digit_value by lia. intros [= <-]. split; [|lia]. unfold pad4. repeat (f_equal; [f_equal; lia|]). f_equal. f_equal. lia.
Qed.

(** A field of digits holds no separator. *)
Lemma digits_free sep s : (sep < 48)%N ∨ (57 < sep)%N → Forall (λ c, is_dec c = true) s → sep ∉ s.
Proof.
  intros Hs Hf Hin. rewrite list.Forall_forall in Hf. specialize (Hf _ Hin). apply dec_digit in Hf as (n & -> & Hn). unfold digit in Hs. lia.
Qed.

Lemma pad2_digits n : 0 <= n <= 99 → Forall (λ c, is_dec c = true) (pad2 n).
Proof. intros H. repeat constructor; apply digit_dec; lia. Qed.

Lemma pad4_digits n : 0 <= n <= 9999 → Forall (λ c, is_dec c = true) (pad4 n).
Proof. intros H. repeat constructor; apply digit_dec; lia. Qed.

Definition clock (h mi s : Z) : jstr := pad2 h ++ 58%N :: pad2 mi ++ 58%N :: pad2 s.

Lemma time_clock v h mi s : parse_time v = Some (h, mi, s) ↔ v = clock h mi s ∧ 0 <= h <= 23 ∧ 0 <= mi <= 59 ∧ 0 <= s <= 59.
Proof.
  split.
  - unfold parse_time. pose proof (join_split 58 v) as Hj. destruct (split_on 58 v) as [|p0 [|p1 [|p2 [|? ?]]]]; try done.
    cbn [join_on] in Hj. destruct (two_digits p0) as [a|] eqn:E0; [|done]. destruct (two_digits p1) as [b|] eqn:E1; [|done].
    destruct (two_digits p2) as [c|] eqn:E2; [|done]. cbn [mbind option_bind].
    apply two_inv in E0 as [-> H0], E1 as [-> H1], E2 as [-> H2].
    destruct (Z.ltb_spec 23 a), (Z.ltb_spec 59 b), (Z.ltb_spec 59 c); cbn [orb]; try done. intros [= <- <- <-].
    split_and!; try lia. by rewrite <- Hj.
  - intros (-> & Hh & Hm & Hs). unfold parse_time, clock.
    rewrite split_join by (apply digits_free; [lia|apply pad2_digits; lia]).
    rewrite split_join by (apply digits_free; [lia|apply pad2_digits; lia]).
    rewrite split_field by (apply digits_free; [lia|apply pad2_digits; lia]).
    rewrite !two_pad by lia. cbn [mbind option_bind].
    by rewrite (proj2 (Z.ltb_ge 23 h)), (proj2 (Z.ltb_ge 59 mi)), (proj2 (Z.ltb_ge 59 s)) by lia.
Qed.

Lemma strip_comma_spec s n : strip_comma s = Some n ↔ s = n ++ [44%N].
Proof.
  unfold strip_comma. split.
  - destruct (reverse s) as [|c r] eqn:E; [done|]. destruct (N.eqb_spec c 44) as [->|]; [|done]. intros [= <-].
    apply (f_equal reverse) in E. by rewrite reverse_involutive, reverse_cons in E.
  - intros ->. rewrite reverse_app. simpl. by rewrite reverse_involutive.
Qed.

(** * Names *)

Definition month_entry (m : Z) : jstr * Z := (month_name m, default 0 ((λ p, p.2) <$> MONTHS !! Z.to_nat (m - 1))).

(** The months of a year. *)
Ltac by_month m :=
  let H := fresh in
  assert (H : m = 1 ∨ m = 2 ∨ m = 3 ∨ m = 4 ∨ m = 5 ∨ m = 6 ∨ m = 7 ∨ m = 8 ∨ m = 9 ∨ m = 10 ∨ m = 11 ∨ m = 12)
    by lia;
  destruct H as [->|[->|[->|[->|[->|[->|[->|[->|[->|[->|[->| ->]]]]]]]]]]].

Lemma month_found m : 1 <= m <= 12 →
  head (filter (λ e, e.1 = month_name m) MONTHS) = Some (month_entry m) ∧ month_index (month_name m) = Some m ∧
  32%N ∉ month_name m.
Proof. intros Hm. by_month m; (split_and!; [done|done|]); apply (bool_decide_unpack _); vm_compute; exact I. Qed.

Lemma month_known name e : head (filter (λ e, e.1 = name) MONTHS) = Some e →
  ∃ m, 1 <= m <= 12 ∧ name = month_name m ∧ e = month_entry m.
Proof.
  intros H. assert (Hin : e ∈ filter (λ e, e.1 = name) MONTHS).
  { destruct (filter _ MONTHS) as [|e' l]; [done|]. injection H as <-. by left. }
  apply list_elem_of_filter in Hin as [<- Hin]. apply list_elem_of_lookup in Hin as [i Hi].
  exists (Z.of_nat i + 1). pose proof (lookup_lt_Some _ _ _ Hi) as Hlt. change (length MONTHS) with 12%nat in Hlt.
  unfold month_entry, month_name. replace (Z.to_nat (Z.of_nat i + 1 - 1)) with i by lia. rewrite Hi. split_and!; [lia|lia|done|]. by destruct e.
Qed.

Lemma month_days y m : 1 <= m <= 12 → 0 <= y →
  (if bool_decide ((month_entry m).1 = u "Feb") && ((Z.rem y 4 =? 0) && (negb (Z.rem y 100 =? 0) || (Z.rem y 400 =? 0)))
   then 29 else (month_entry m).2) = days_in_month y m.
Proof.
  intros Hm Hy. rewrite !Z.rem_mod_nonneg by lia. fold (leap y). by_month m; try done.
Qed.

Lemma day_names i : 0 <= i < 7 → ∃ n, DAY_NAMES !! Z.to_nat i = Some n ∧ 32%N ∉ n ++ [44%N].
Proof.
  intros Hi. assert (H : i = 0 ∨ i = 1 ∨ i = 2 ∨ i = 3 ∨ i = 4 ∨ i = 5 ∨ i = 6) by lia.
  destruct H as [->|[->|[->|[->|[->|[->| ->]]]]]]; (eexists; split; [done|]); apply (bool_decide_unpack _); vm_compute; exact I.
Qed.

Lemma weekday_rem days : Z.rem (Z.rem days 7 + 7 + 4) 7 = (days + 4) mod 7.
Proof. lia. Qed.

Lemma weekday_known days n : DAY_NAMES !! Z.to_nat ((days + 4) mod 7) = Some n ↔ n = weekday_name days.
Proof.
  destruct (day_names ((days + 4) mod 7)) as (n' & E & _); [lia|]. unfold weekday_name. rewrite E. naive_solver.
Qed.

(** * The fields of a date *)

Record fields : Type := Fields { f_year : Z; f_month : Z; f_day : Z; f_hour : Z; f_minute : Z; f_second : Z }.

Definition fields_ok (f : fields) : Prop :=
  0 <= f_year f <= 9999 ∧ valid (f_year f, f_month f, f_day f) ∧
  0 <= f_hour f <= 23 ∧ 0 <= f_minute f <= 59 ∧ 0 <= f_second f <= 59.

Definition days_at (f : fields) : Z := days_from_civil (f_year f) (f_month f) (f_day f).

Definition text_of (f : fields) : jstr :=
  render (weekday_name (days_at f)) (f_day f) (month_name (f_month f)) (f_year f) (f_hour f) (f_minute f) (f_second f).

Definition time_of (f : fields) : Z := days_at f * 86400 + f_hour f * 3600 + f_minute f * 60 + f_second f.

Lemma split_text f : fields_ok f →
  split_on 32 (text_of f) =
  [weekday_name (days_at f) ++ [44%N]; pad2 (f_day f); month_name (f_month f); pad4 (f_year f);
   clock (f_hour f) (f_minute f) (f_second f); u "GMT"].
Proof.
  intros (Hy & [Hm Hd] & Hh & Hmi & Hs). assert (f_day f <= 31) by (unfold days_in_month in Hd; repeat case_match; lia).
  destruct (day_names ((days_at f + 4) mod 7)) as (n & En & Hn); [lia|]. unfold text_of, render.
  rewrite weekday_known in En. rewrite <- En.
  rewrite split_join by done. rewrite split_join by (apply digits_free; [lia|apply pad2_digits; lia]).
  rewrite split_join by apply (month_found (f_month f) Hm).
  rewrite split_join by (apply digits_free; [lia|apply pad4_digits; lia]).
  rewrite split_join; [done|]. rewrite elem_of_app, elem_of_cons, elem_of_app, elem_of_cons. intros [H'|[H'|[H'|[H'|H']]]]; try done;
    revert H'; (apply digits_free; [lia|apply pad2_digits; lia]).
Qed.

Lemma parse_date_text f : fields_ok f → parse_http_date (text_of f) = Some (time_of f).
Proof.
  intros Hf. unfold parse_http_date. rewrite split_text by done. destruct Hf as (Hy & [Hm Hd] & Hh & Hmi & Hs).
  assert (f_day f <= 31) by (unfold days_in_month in Hd; repeat case_match; lia).
  rewrite (proj2 (strip_comma_spec _ _) eq_refl). rewrite two_pad by lia. destruct (month_found _ Hm) as (-> & -> & _).
  rewrite four_pad by lia. rewrite (proj2 (time_clock _ _ _ _)) by done. cbn [mbind option_bind].
  rewrite bool_decide_eq_false_2 by (intros H'; by apply H'). rewrite month_days by lia.
  rewrite (proj2 (Z.leb_le 1 _)), (proj2 (Z.leb_le (f_day f) _)) by lia. cbn [andb negb].
  rewrite days_copy, weekday_rem by done. fold (days_at f).
  rewrite bool_decide_eq_false_2 by (intros H'; apply H'; by apply weekday_known). done.
Qed.

Lemma parse_fields v t : parse_http_date v = Some t → ∃ f, fields_ok f ∧ v = text_of f ∧ t = time_of f.
Proof.
  unfold parse_http_date. pose proof (join_split 32 v) as Hj.
  destruct (split_on 32 v) as [|p0 [|p1 [|p2 [|p3 [|p4 [|p5 [|? ?]]]]]]]; try done. cbn [join_on] in Hj.
  destruct (strip_comma p0) as [n|] eqn:E0; [|done]. destruct (two_digits p1) as [d|] eqn:E1; [|done].
  destruct (head (filter _ MONTHS)) as [e|] eqn:E2; [|done]. destruct (four_digits p3) as [y|] eqn:E3; [|done].
  destruct (parse_time p4) as [[[h mi] s]|] eqn:E4; [|done]. cbn [mbind option_bind].
  apply strip_comma_spec in E0 as ->. apply two_inv in E1 as [-> H1]. apply month_known in E2 as (m & Hm & -> & ->).
  apply four_inv in E3 as [-> H3]. apply time_clock in E4 as (-> & Hh & Hmi & Hs).
  destruct (bool_decide_reflect (p5 ≠ u "GMT")) as [?|H5]; [done|]. apply dec_stable in H5 as ->.
  rewrite month_days by lia. destruct (Z.leb_spec 1 d), (Z.leb_spec d (days_in_month y m)); cbn [andb negb]; try done.
  destruct (month_found m Hm) as (_ & -> & _). cbn [mbind option_bind]. rewrite days_copy, weekday_rem by done.
  destruct (bool_decide_reflect (DAY_NAMES !! Z.to_nat ((days_from_civil y m d + 4) mod 7) ≠ Some n)) as [?|Hw]; [done|].
  apply dec_stable in Hw. apply weekday_known in Hw as ->. intros [= <-].
  exists (Fields y m d h mi s). unfold fields_ok, text_of, render, time_of, days_at. cbn. split_and!; try lia. by rewrite <- Hj.
Qed.

Lemma fields_time f : fields_ok f → time_of f / SECS_A_DAY = days_at f ∧
  time_of f mod SECS_A_DAY = f_hour f * 3600 + f_minute f * 60 + f_second f.
Proof. intros (_ & _ & Hh & Hmi & Hs). unfold time_of, SECS_A_DAY. lia. Qed.

Lemma text_of_time f : fields_ok f → http_date (time_of f) = text_of f ∧ year_of_time (time_of f) = f_year f.
Proof.
  intros Hf. destruct (fields_time f Hf) as [Ed Es]. unfold http_date, year_of_time. rewrite Ed, Es.
  destruct Hf as (Hy & Hv & Hh & Hmi & Hs). change (days_at f) with (days_of (f_year f, f_month f, f_day f)).
  rewrite civil_unique by done. cbn [fst]. split; [|done]. unfold text_of. f_equal; lia.
Qed.

Definition fields_of (t : Z) : fields :=
  let '(y, m, d) := civil_from_days (t / SECS_A_DAY) in
  let secs := t mod SECS_A_DAY in Fields y m d (secs / 3600) (secs / 60 mod 60) (secs mod 60).

Lemma time_fields t : 0 <= year_of_time t <= 9999 → fields_ok (fields_of t) ∧ time_of (fields_of t) = t.
Proof.
  unfold year_of_time, fields_of. destruct (civil_days (t / SECS_A_DAY)) as [Hv Hd].
  destruct (civil_from_days (t / SECS_A_DAY)) as [[y m] d]. cbn [fst days_of] in *. intros Hy.
  unfold fields_ok, time_of, days_at. cbn [f_year f_month f_day f_hour f_minute f_second]. rewrite Hd.
  unfold SECS_A_DAY. split; [|lia]. split_and!; try lia; apply Hv.
Qed.

Lemma year_time t : 0 <= year_of_time t <= 9999 → - 10 ^ 12 <= t <= 10 ^ 12.
Proof.
  intros Hy. destruct (time_fields t Hy) as [(Hy' & [Hm Hd] & Hh & Hmi & Hs) <-]. set (f := fields_of t) in *. clearbody f.
  assert (f_day f <= 31) by (unfold days_in_month in Hd; repeat case_match; lia). unfold time_of, days_at, days_from_civil.
  destruct (f_month f <=? 2), (2 <? f_month f); lia.
Qed.

(** * Blanks around *)

Lemma weekday_start days rest : parse_usize (weekday_name days ++ rest) = None ∧ starts_tidy is_whitespace (weekday_name days ++ rest) = true.
Proof.
  unfold weekday_name. assert (Hi : 0 <= (days + 4) mod 7 < 7) by lia. revert Hi. generalize ((days + 4) mod 7). intros i Hi.
  assert (H : i = 0 ∨ i = 1 ∨ i = 2 ∨ i = 3 ∨ i = 4 ∨ i = 5 ∨ i = 6) by lia.
  destruct H as [->|[->|[->|[->|[->|[->| ->]]]]]]; split; reflexivity.
Qed.

Lemma text_tidy f : tidy is_whitespace (text_of f) = true ∧ parse_usize (text_of f) = None.
Proof.
  unfold text_of, render. split.
  - unfold tidy. apply andb_true_iff. split; [rewrite <- app_assoc; apply weekday_start|].
    rewrite app_comm_cons. do 8 (rewrite ?reverse_app, ?reverse_cons, <- ?app_assoc). reflexivity.
  - rewrite <- app_assoc. apply weekday_start.
Qed.

(** C33: HTTP dates round-trip.  A text parses as a time exactly when it is the one way
    to write that time, a second of a year 0 to 9999, as an HTTP date: with its
    weekday, its day of the calendar, two and four digits, single blanks; every
    other text, a wrong weekday or 29 February of a common year included, is
    refused.  In Retry-After, such a date, blanks around it or not, asks to wait
    until then, and not at all when it is past. *)
Theorem http_date_exact :
  (∀ v t, parse_http_date v = Some t ↔ 0 <= year_of_time t <= 9999 ∧ v = http_date t) ∧
  (∀ t now_unix_seconds before after, 0 <= year_of_time t <= 9999 → 0 <= now_unix_seconds →
   Forall (λ c, is_whitespace c = true) before → Forall (λ c, is_whitespace c = true) after →
   parse_retry_after (before ++ http_date t ++ after) now_unix_seconds = Some (Z.max 0 (t - now_unix_seconds))).
Proof.
  split.
  - intros v t. split.
    + intros (f & Hf & -> & ->)%parse_fields. destruct (text_of_time f Hf) as [-> ->]. split; [apply Hf|done].
    + intros [Hy ->]. destruct (time_fields t Hy) as [Hf <-]. destruct (text_of_time _ Hf) as [-> _]. by apply parse_date_text.
  - intros t now before after Hy Hn Hb Ha. destruct (time_fields t Hy) as [Hf Et].
    destruct (text_of_time _ Hf) as [Ep _]. rewrite Et in Ep. destruct (text_tidy (fields_of t)) as [Ht Hu].
    unfold parse_retry_after. rewrite Ep, trim_around by done. rewrite Hu, parse_date_text by done. cbn [mbind option_bind].
    rewrite Et. pose proof (year_time t Hy). unfold i64_saturate.
    destruct (Z.leb_spec (Z.max (- 2 ^ 63) (Z.min (2 ^ 63 - 1) (t - now))) 0); f_equal; lia.
Qed.
