(* ===== verification/Net.v ===== *)
(** Addresses and networks (crates/dwara-core/src/config/net.rs), the client's
    address behind trusted proxies (security/authz.rs [effective_client_ip]), and
    the egress filter (config/ssrf.rs) with the three places that dial through it
    (wasm/callout.rs, wasm/source.rs, events/webhook.rs).

    An address is its value, below 2 ^ 32 or 2 ^ 128.  The parser of addresses is
    that of the standard library; its readers take the text that is left. *)

From S2P Require Import Prelude JsNumber Text Utf8 Affinity Router Rewrite.
Local Open Scope Z_scope.

Inductive IpAddr : Type := V4 (a : Z) | V6 (a : Z).

#[global] Instance IpAddr_eq_dec : EqDecision IpAddr.
Proof. solve_decision. Defined.

(** * Parsing an address *)

Definition to_digit (radix : Z) (c : N) : option Z :=
  let d := if between 48 57 c then Some (Z.of_N c - 48)
           else if between 97 102 c then Some (Z.of_N c - 87)
           else if between 65 70 c then Some (Z.of_N c - 55) else None in
  match d with Some d => if d <? radix then Some d else None | None => None end.

Fixpoint read_digits (radix : Z) (s : jstr) : list Z * jstr :=
  match s with
  | c :: s' =>
      match to_digit radix c with
      | Some d => let '(ds, rest) := read_digits radix s' in (d :: ds, rest)
      | None => ([], s)
      end
  | [] => ([], [])
  end.

Definition read_number (radix : Z) (max_digits : nat) (max : Z) (allow_zero_prefix : bool) (s : jstr) : option (Z * jstr) :=
  let '(ds, rest) := read_digits radix s in
  let value := foldl (λ v d, v * radix + d) 0 ds in
  if (max_digits <? length ds)%nat || (max <? value) then None
  else match ds with
  | [] => None
  | d :: ds' => if negb allow_zero_prefix && (d =? 0) && bool_decide (ds' ≠ []) then None else Some (value, rest)
  end.

Definition read_given_char (c : N) (s : jstr) : option jstr :=
  match s with c' :: s => if (c' =? c)%N then Some s else None | [] => None end.

(** The separator, but before the first item, and the item. *)
Definition read_separator {A} (sep : N) (index : nat) (read : jstr → option (A * jstr)) (s : jstr) : option (A * jstr) :=
  match index with O => read s | S _ => read_given_char sep s ≫= read end.

Definition read_octet : jstr → option (Z * jstr) := read_number 10 3 255 false.

Definition read_ipv4_addr (s : jstr) : option (Z * jstr) :=
  '(a, s) ← read_separator 46 0 read_octet s;
  '(b, s) ← read_separator 46 1 read_octet s;
  '(c, s) ← read_separator 46 2 read_octet s;
  '(d, s) ← read_separator 46 3 read_octet s;
  Some (((a * 256 + b) * 256 + c) * 256 + d, s).

(** The groups from index [i] on, with [left] slots left: the groups, whether they
    end with an IPv4 address, the rest. *)
Fixpoint read_groups (left i : nat) (s : jstr) : list Z * bool * jstr :=
  match left with
  | O => ([], false, s)
  | S left' =>
      match (if (0 <? left')%nat then read_separator 58 i read_ipv4_addr s else None) with
      | Some (v4, s) => ([v4 / 65536; v4 mod 65536], true, s)
      | None =>
          match read_separator 58 i (read_number 16 4 65535 true) s with
          | Some (g, s) => let '(gs, v4, s) := read_groups left' (S i) s in (g :: gs, v4, s)
          | None => ([], false, s)
          end
      end
  end.

Definition from_groups (gs : list Z) : Z := foldl (λ v g, v * 65536 + g) 0 gs.

Definition read_ipv6_addr (s : jstr) : option (Z * jstr) :=
  let '(head, head_ipv4, s) := read_groups 8 0 s in
  if (length head =? 8)%nat then Some (from_groups head, s)
  else if head_ipv4 then None
  else
    s ← read_given_char 58 s;
    s ← read_given_char 58 s;
    let '(tail, _, s) := read_groups (8 - (length head + 1)) 0 s in
    Some (from_groups (head ++ replicate (8 - length head - length tail) 0 ++ tail), s).

(** [str::parse::<IpAddr>]: the whole text is one address. *)
Definition parse_ip (s : jstr) : option IpAddr :=
  match read_ipv4_addr s with
  | Some (a, rest) => if bool_decide (rest = []) then Some (V4 a) else None
  | None =>
      match read_ipv6_addr s with
      | Some (a, rest) => if bool_decide (rest = []) then Some (V6 a) else None
      | None => None
      end
  end.

Example parse_v4 : parse_ip (u "10.1.2.3") = Some (V4 167838211). Proof. reflexivity. Qed.
Example parse_v4_zero : parse_ip (u "10.01.2.3") = None. Proof. reflexivity. Qed.
Example parse_v6 : parse_ip (u "fe80::1") = Some (V6 (0xfe80 * 2 ^ 112 + 1)). Proof. reflexivity. Qed.
Example parse_mapped : parse_ip (u "::ffff:127.0.0.1") = Some (V6 (0xffff * 2 ^ 32 + 0x7f000001)). Proof. reflexivity. Qed.
Example parse_v6_long : parse_ip (u "1:2:3:4:5:6:7::") = Some (V6 (from_groups [1; 2; 3; 4; 5; 6; 7; 0])). Proof. reflexivity. Qed.
Example parse_v6_eight : parse_ip (u "1:2:3:4:5:6:7:8::") = None. Proof. reflexivity. Qed.

(** * Networks *)

(** [str::parse::<u8>]. *)
Definition parse_u8 (s : jstr) : option Z := n ← parse_usize s; if n <=? 255 then Some n else None.

Definition bits (ip : IpAddr) : Z := match ip with V4 _ => 32 | V6 _ => 128 end.

Definition parse_ip_or_cidr (s : jstr) : option (IpAddr * Z) :=
  let s := trim s in
  match parse_ip s with
  | Some ip => Some (ip, bits ip)
  | None =>
      '(addr, prefix) ← split_once 47 s;
      ip ← parse_ip (trim addr);
      prefix ← parse_u8 (trim prefix);
      if bits ip <? prefix then None else Some (ip, prefix)
  end.

Definition ip_in_net (ip net : IpAddr) (prefix : Z) : bool :=
  match ip, net with
  | V4 a, V4 b => (prefix =? 0) || (Z.shiftr (Z.lxor a b) (32 - prefix) =? 0)
  | V6 a, V6 b => (prefix =? 0) || (Z.shiftr (Z.lxor a b) (128 - prefix) =? 0)
  | _, _ => false
  end.

(** An entry of a list of networks. *)
Definition ip_matches (entry : jstr) (ip : IpAddr) : bool :=
  match parse_ip_or_cidr entry with Some (net, prefix) => ip_in_net ip net prefix | None => false end.

Definition peer_is_trusted (trusted : list jstr) (peer : IpAddr) : bool := existsb (λ entry, ip_matches entry peer) trusted.

(** * The client's address *)

Definition entries (xff : jstr) : list (option IpAddr) := (λ e, parse_ip (trim e)) <$> split_on 44 xff.

Definition effective_client_ip (trusted : list jstr) (peer : IpAddr) (xff : option jstr) : IpAddr :=
  if negb (peer_is_trusted trusted peer) then peer
  else match xff with
  | None => peer
  | Some xff =>
      match head (filter (λ ip, peer_is_trusted trusted ip = false) (omap id (reverse (entries xff)))) with
      | Some ip => ip
      | None => default peer (head (omap id (entries xff)))
      end
  end.

(** * The egress filter *)

Definition DEFAULT_DENY_CIDRS : list jstr := u <$>
  ["127.0.0.0/8"; "10.0.0.0/8"; "172.16.0.0/12"; "192.168.0.0/16"; "169.254.0.0/16"; "100.64.0.0/10"; "198.18.0.0/15";
   "224.0.0.0/4"; "240.0.0.0/4"; "255.255.255.255/32"; "::1/128"; "fe80::/10"; "fc00::/7"; "ff00::/8"; "::/128"].

Record SsrfFilterConfig : Type := SsrfConfig { cfg_enabled : bool; allowlist : list jstr }.

Record SsrfFilter : Type := MkFilter { deny : list (IpAddr * Z); allow : list (IpAddr * Z); filter_enabled : bool }.

Definition disabled : SsrfFilter := MkFilter [] [] false.

Definition from_config (cfg : SsrfFilterConfig) : SsrfFilter :=
  if negb (cfg_enabled cfg) then disabled
  else MkFilter (omap parse_ip_or_cidr DEFAULT_DENY_CIDRS) (omap parse_ip_or_cidr (allowlist cfg)) true.

Definition in_any (nets : list (IpAddr * Z)) (ip : IpAddr) : bool := existsb (λ n, ip_in_net ip n.1 n.2) nets.

(** Whether the filter lets the gateway dial an address. *)
Definition ssrf_check (f : SsrfFilter) (ip : IpAddr) : bool :=
  if negb (filter_enabled f) then true else if in_any (allow f) ip then true else negb (in_any (deny f) ip).

(** How one address answers; [Spent] when no time is left to dial it. *)
Inductive Conn : Type := Accepted | Refused | Spent.

Inductive DialError : Type := Unresolved | Rejected (ip : IpAddr) | TimedOut | Unreachable.

(** The addresses that are dialled, to the first that accepts. *)
Fixpoint dial_first (connect : IpAddr → Conn) (addrs : list IpAddr) : list IpAddr * result DialError IpAddr :=
  match addrs with
  | [] => ([], Err Unreachable)
  | ip :: addrs =>
      match connect ip with
      | Accepted => ([ip], Ok ip)
      | Refused => let '(dialled, r) := dial_first connect addrs in (ip :: dialled, r)
      | Spent => ([], Err TimedOut)
      end
  end.

(** The loop over the addresses before the dial. *)
Definition first_rejected (f : SsrfFilter) (addrs : list IpAddr) : option IpAddr :=
  if filter_enabled f then head (filter (λ ip, ssrf_check f ip = false) addrs) else None.


(** The webhook's attempt: it checks one answer, and [TcpStream::connect] asks again. *)
Definition webhook_dial (f : SsrfFilter) (lookups : nat → option (list IpAddr)) (connect : IpAddr → Conn)
    : list IpAddr * result DialError IpAddr :=
  let dial n := match lookups n with None => ([], Err Unresolved) | Some addrs => dial_first connect addrs end in
  if filter_enabled f then
    match lookups O with
    | None => ([], Err Unresolved)
    | Some addrs => match first_rejected f addrs with Some ip => ([], Err (Rejected ip)) | None => dial 1%nat end
    end
  else dial O.

(** * Bounds of what is parsed *)

Lemma digit_bounds radix c d : to_digit radix c = Some d → 0 <= d < radix.
Proof.
  unfold to_digit, between.
  destruct ((48 <=? c)%N && _) eqn:H1; [|destruct ((97 <=? c)%N && _) eqn:H2; [|destruct ((65 <=? c)%N && _) eqn:H3; [|done]]];
    match goal with H : andb _ _ = true |- _ => apply andb_true_iff in H as [?%N.leb_le ?%N.leb_le] end;
    case_match eqn:Hl; try done; intros [= <-]; apply Z.ltb_lt in Hl; lia.
Qed.

Lemma digits_bounds radix s : Forall (λ d, 0 <= d < radix) (read_digits radix s).1.
Proof.
  induction s as [|c s IH]; simpl; [done|]. destruct (to_digit radix c) as [d|] eqn:E; [|done].
  destruct (read_digits radix s) as [ds rest]. constructor; [by eapply digit_bounds|done].
Qed.

Lemma value_nonneg radix ds v : 0 <= radix → 0 <= v → Forall (λ d, 0 <= d < radix) ds → 0 <= foldl (λ v d, v * radix + d) v ds.
Proof. intros Hr Hv Hd. revert v Hv. induction Hd; intros v Hv; simpl; [done|]. apply IHHd. nia. Qed.

Lemma number_bounds radix k max z s n rest : 0 <= radix → read_number radix k max z s = Some (n, rest) → 0 <= n <= max.
Proof.
  intros Hr. unfold read_number. pose proof (digits_bounds radix s) as Hb. destruct (read_digits radix s) as [ds r].
  set (v := foldl _ 0 ds). assert (0 <= v) by (apply value_nonneg; [done|done|exact Hb]).
  destruct (Z.ltb_spec max v); [by rewrite orb_true_r|]. destruct (_ <? length ds)%nat; [done|]. cbn [orb].
  destruct ds; [done|]. case_match; [done|]. intros [= <- _]. lia.
Qed.

Lemma separator_bounds {A} (P : A → Prop) sep i read s x rest :
  (∀ s x rest, read s = Some (x, rest) → P x) → read_separator sep i read s = Some (x, rest) → P x.
Proof. intros H. unfold read_separator. destruct i; [apply H|]. destruct (read_given_char sep s); simpl; [apply H|done]. Qed.

Lemma ipv4_bounds s a rest : read_ipv4_addr s = Some (a, rest) → 0 <= a < 2 ^ 32.
Proof.
  unfold read_ipv4_addr, read_octet. intros H.
  repeat match type of H with
  | (read_separator 46 ?i ?r ?t ≫= _) = _ =>
      let E := fresh "E" in destruct (read_separator 46 i r t) as [[? ?]|] eqn:E; [|done];
      apply (separator_bounds (λ n, 0 <= n <= 255)) in E; [|intros ? ? ?; by apply number_bounds]; cbn [mbind option_bind] in H
  end.
  injection H as <- _. lia.
Qed.

Lemma groups_bounds left i s : let '(gs, _, _) := read_groups left i s in
  Forall (λ g, 0 <= g < 65536) gs ∧ (length gs <= left)%nat.
Proof.
  revert i s. induction left as [|left IH]; intros i s; simpl; [done|].
  destruct (if (0 <? left)%nat then _ else None) as [[v4 s']|] eqn:E.
  - destruct (Nat.ltb_spec 0 left); [|done].
    apply (separator_bounds (λ n, 0 <= n < 2 ^ 32)) in E; [|intros ? ? ?; apply ipv4_bounds].
    split; [|simpl; lia]. repeat constructor; try (apply Z.mod_pos_bound; lia); [apply Z.div_pos; lia|apply Z.div_lt_upper_bound; lia].
  - destruct (read_separator 58 i (read_number 16 4 65535 true) s) as [[g s']|] eqn:Eg; [|simpl; split; [done|lia]].
    apply (separator_bounds (λ n, 0 <= n <= 65535)) in Eg; [|intros ? ? ?; by apply number_bounds].
    specialize (IH (S i) s'). destruct (read_groups left (S i) s') as [[gs v4] s2]. destruct IH as [H1 H2].
    split; [constructor; [lia|done]|simpl; lia].
Qed.

Lemma from_groups_bounds gs : Forall (λ g, 0 <= g < 65536) gs → 0 <= from_groups gs < 2 ^ (16 * Z.of_nat (length gs)).
Proof.
  intros H. unfold from_groups. enough (He : ∀ v k, 0 <= k → 0 <= v < 2 ^ k →
    0 <= foldl (λ v g, v * 65536 + g) v gs < 2 ^ (k + 16 * Z.of_nat (length gs))) by (apply (He 0 0); lia).
  induction H as [|g gs Hg _ IH]; intros v k Hk Hv; simpl; [by rewrite Z.add_0_r|].
  replace (k + 16 * Z.of_nat (S (length gs))) with ((k + 16) + 16 * Z.of_nat (length gs)) by lia.
  apply IH; [lia|]. rewrite Z.pow_add_r by lia. lia.
Qed.

Lemma ipv6_bounds s a rest : read_ipv6_addr s = Some (a, rest) → 0 <= a < 2 ^ 128.
Proof.
  unfold read_ipv6_addr. pose proof (groups_bounds 8 0 s) as Hh. destruct (read_groups 8 0 s) as [[head v4] s1]. destruct Hh as [Hh Hl].
  destruct (Nat.eqb_spec (length head) 8) as [E|E].
  { intros [= <- _]. pose proof (from_groups_bounds head Hh) as Hb. by rewrite E in Hb. }
  destruct v4; [done|]. destruct (read_given_char 58 s1) as [s2|]; [|done]. simpl. destruct (read_given_char 58 s2) as [s3|]; [|done]. simpl.
  pose proof (groups_bounds (8 - (length head + 1)) 0 s3) as Ht. destruct (read_groups _ 0 s3) as [[tail v6] s4]. destruct Ht as [Ht Hlt].
  intros [= <- _]. set (gs := head ++ _ ++ tail).
  assert (Hg : Forall (λ g, 0 <= g < 65536) gs) by (repeat apply Forall_app_2; [done|by apply Forall_replicate|done]).
  assert (El : length gs = 8%nat) by (unfold gs; rewrite !length_app, length_replicate; lia).
  pose proof (from_groups_bounds gs Hg) as Hb. by rewrite El in Hb.
Qed.

(** An address is below the size of its family. *)
Definition ip_value (ip : IpAddr) : Z := match ip with V4 a | V6 a => a end.
Definition ip_ok (ip : IpAddr) : Prop := 0 <= ip_value ip < 2 ^ bits ip.

Lemma parse_ip_ok s ip : parse_ip s = Some ip → ip_ok ip.
Proof.
  unfold parse_ip. destruct (read_ipv4_addr s) as [[a rest]|] eqn:E4.
  - case_bool_decide; [|done]. intros [= <-]. by apply ipv4_bounds in E4.
  - destruct (read_ipv6_addr s) as [[a rest]|] eqn:E6; [|done]. case_bool_decide; [|done]. intros [= <-]. by apply ipv6_bounds in E6.
Qed.

Lemma parse_usize_nonneg s n : parse_usize s = Some n → 0 <= n.
Proof.
  unfold parse_usize. set (ds := match s with 43%N :: ds => ds | _ => s end). clearbody ds.
  destruct (bool_decide (ds = [])); [done|]. destruct (forallb is_dec ds) eqn:Hf; [|done]. cbn [orb negb].
  case_match; [|done]. intros [= <-]. unfold dec_value. clear H. enough (He : ∀ v, 0 <= v → 0 <= foldl (λ v d, v * 10 + (Z.of_N d - 48)) v ds) by by apply He.
  induction ds as [|d ds IH]; intros v Hv; simpl in *; [done|]. apply andb_true_iff in Hf as [Hd Hf]. apply IH; [done|].
  unfold is_dec, between in Hd. apply andb_true_iff in Hd as [Hd _]. apply N.leb_le in Hd. lia.
Qed.

Lemma parse_net_ok s net prefix : parse_ip_or_cidr s = Some (net, prefix) → ip_ok net ∧ 0 <= prefix <= bits net.
Proof.
  unfold parse_ip_or_cidr. destruct (parse_ip (trim s)) as [ip|] eqn:E.
  - intros [= <- <-]. split; [by eapply parse_ip_ok|]. destruct ip; simpl; lia.
  - destruct (split_once 47 (trim s)) as [[a p]|]; [|done]. cbn [mbind option_bind].
    destruct (parse_ip (trim a)) as [ip|] eqn:Ea; [|done]. cbn [mbind option_bind]. unfold parse_u8.
    destruct (parse_usize (trim p)) as [n|] eqn:Ep; [|done]. cbn [mbind option_bind]. destruct (n <=? 255); [|done]. cbn [mbind option_bind].
    destruct (Z.ltb_spec (bits ip) n); [done|]. intros [= <- <-]. split; [by eapply parse_ip_ok|]. apply parse_usize_nonneg in Ep. lia.
Qed.

(** * What a network holds *)

(** The first and last address of a network. *)
Definition net_first (net : IpAddr) (prefix : Z) : Z := ip_value net / 2 ^ (bits net - prefix) * 2 ^ (bits net - prefix).
Definition net_last (net : IpAddr) (prefix : Z) : Z := net_first net prefix + 2 ^ (bits net - prefix) - 1.

Lemma same_bits w a b p : 0 <= a < 2 ^ w → 0 <= b < 2 ^ w → 0 <= p <= w →
  ((p =? 0) || (Z.shiftr (Z.lxor a b) (w - p) =? 0)) = true ↔
  b / 2 ^ (w - p) * 2 ^ (w - p) <= a <= b / 2 ^ (w - p) * 2 ^ (w - p) + 2 ^ (w - p) - 1.
Proof.
  intros Ha Hb Hp. assert (Hpos : 0 < 2 ^ (w - p)) by (apply Z.pow_pos_nonneg; lia).
  assert (Hdiv : a / 2 ^ (w - p) = b / 2 ^ (w - p) ↔
    b / 2 ^ (w - p) * 2 ^ (w - p) <= a <= b / 2 ^ (w - p) * 2 ^ (w - p) + 2 ^ (w - p) - 1).
  { split.
    - intros <-. pose proof (Z.div_mod a (2 ^ (w - p)) ltac:(lia)). pose proof (Z.mod_pos_bound a (2 ^ (w - p)) Hpos). nia.
    - intros H. symmetry. apply Z.div_unique with (r := a - b / 2 ^ (w - p) * 2 ^ (w - p)); lia. }
  rewrite <- Hdiv. rewrite Z.shiftr_lxor, !Z.shiftr_div_pow2 by lia. destruct (Z.eqb_spec p 0) as [->|Hne]; cbn [orb].
  - rewrite Z.sub_0_r, !Z.div_small by done. done.
  - rewrite Z.eqb_eq. apply Z.lxor_eq_0_iff.
Qed.

Definition same_family (a b : IpAddr) : Prop := bits a = bits b.

Lemma in_net_range ip net p : ip_ok ip → ip_ok net → 0 <= p <= bits net →
  ip_in_net ip net p = true ↔ same_family ip net ∧ net_first net p <= ip_value ip <= net_last net p.
Proof.
  unfold same_family, net_last, net_first. destruct ip as [a|a], net as [b|b]; unfold ip_ok; cbn [bits ip_value ip_in_net]; intros Ha Hb Hp;
    [rewrite same_bits by done| | |rewrite same_bits by done]; naive_solver lia.
Qed.

(** A network entry matches exactly its block of addresses.  An entry that parses
    has a prefix no longer than its family's addresses, and matches the addresses
    of that family from its own with the other bits cleared to the one with them
    set: never one of the other family, however large the block. *)
Theorem entry_block (entry : jstr) (net : IpAddr) (prefix : Z) (Hentry : parse_ip_or_cidr entry = Some (net, prefix)) :
  0 <= prefix <= bits net ∧ ip_ok net ∧
  ∀ ip, ip_ok ip →
    ip_matches entry ip = true ↔ same_family ip net ∧ net_first net prefix <= ip_value ip <= net_last net prefix.
Proof.
  destruct (parse_net_ok entry net prefix Hentry) as [Hn Hp]. split_and!; [lia|lia|done|].
  intros ip Hip. unfold ip_matches. rewrite Hentry. by apply in_net_range.
Qed.

Lemma entry_block_witness :
  parse_ip_or_cidr (u "172.16.9.9/12") = Some (V4 2886732041, 12) ∧ net_first (V4 2886732041) 12 = 2886729728 ∧
  (0 <= 12 <= 32 ∧ ip_ok (V4 2886732041) ∧
   ∀ ip, ip_ok ip → ip_matches (u "172.16.9.9/12") ip = true ↔
     same_family ip (V4 2886732041) ∧ net_first (V4 2886732041) 12 <= ip_value ip <= net_last (V4 2886732041) 12).
Proof.
  split; [reflexivity|]. split; [reflexivity|]. refine (entry_block (u "172.16.9.9/12") (V4 2886732041) 12 _). reflexivity.
Defined.

(** * Behind proxies *)

Lemma split_app sep a b : split_on sep (a ++ sep :: b) = split_on sep a ++ split_on sep b.
Proof.
  induction a as [|c a IH]; simpl.
  - destruct (split_on_cons sep b) as (f & fs & ->). by rewrite N.eqb_refl.
  - rewrite IH. destruct (split_on_cons sep a) as (f & fs & ->). simpl. by destruct (c =? sep)%N.
Qed.

Lemma entries_app a b : entries (a ++ 44%N :: b) = entries a ++ entries b.
Proof. unfold entries. by rewrite split_app, fmap_app. Qed.

(** The client that the proxies vouch for: the last entry that is not a proxy. *)
Definition vouched (trusted : list jstr) (xff : jstr) : option IpAddr :=
  list.last (filter (λ ip, peer_is_trusted trusted ip = false) (omap id (entries xff))).

Lemma omap_reverse {A} (l : list (option A)) : omap id (reverse l) = reverse (omap id l).
Proof.
  induction l as [|x l IH]; [done|]. rewrite reverse_cons, omap_app, IH. destruct x; simpl; [by rewrite reverse_cons|by rewrite app_nil_r].
Qed.

Lemma effective_vouched trusted peer xff ip : peer_is_trusted trusted peer = true → vouched trusted xff = Some ip →
  effective_client_ip trusted peer (Some xff) = ip.
Proof. intros Hp Hv. unfold effective_client_ip. rewrite Hp. cbn [negb]. rewrite omap_reverse, list.filter_reverse, list.head_reverse.
  unfold vouched in Hv. by rewrite Hv. Qed.

Lemma vouched_app trusted junk xff ip : vouched trusted xff = Some ip → vouched trusted (junk ++ 44%N :: xff) = Some ip.
Proof.
  unfold vouched. intros H. rewrite entries_app, omap_app, list.filter_app, list.last_app. by rewrite H.
Qed.

(** The client's address cannot be spoofed past the proxies.  A peer that is not a
    trusted proxy is the client, whatever X-Forwarded-For says; behind trusted
    proxies it is the last address of the header that is not one of them, and
    nothing a client puts in front of what the proxies wrote changes it. *)
Theorem client_unspoofable (trusted : list jstr) (peer : IpAddr) (xff : option jstr) :
  (peer_is_trusted trusted peer = false → effective_client_ip trusted peer xff = peer) ∧
  (∀ written ip, peer_is_trusted trusted peer = true → vouched trusted written = Some ip →
   peer_is_trusted trusted ip = false ∧
   effective_client_ip trusted peer (Some written) = ip ∧
   ∀ junk, effective_client_ip trusted peer (Some (junk ++ 44%N :: written)) = ip).
Proof.
  split; [intros Hp; unfold effective_client_ip; by rewrite Hp|]. intros written ip Hp Hv. split_and!.
  - unfold vouched in Hv. apply list.last_Some_elem_of in Hv. by apply list_elem_of_filter in Hv as [? _].
  - by apply effective_vouched.
  - intros junk. apply effective_vouched; [done|]. by apply vouched_app.
Qed.

(** * What the egress filter denies *)

Definition dotted (a b c d : Z) : Z := ((a * 256 + b) * 256 + c) * 256 + d.

(** The blocks of the deny set, by their first and last address. *)
Definition v4_blocks : list (Z * Z) :=
  [(dotted 127 0 0 0, dotted 127 255 255 255); (dotted 10 0 0 0, dotted 10 255 255 255);
   (dotted 172 16 0 0, dotted 172 31 255 255); (dotted 192 168 0 0, dotted 192 168 255 255);
   (dotted 169 254 0 0, dotted 169 254 255 255); (dotted 100 64 0 0, dotted 100 127 255 255);
   (dotted 198 18 0 0, dotted 198 19 255 255); (dotted 224 0 0 0, dotted 239 255 255 255);
   (dotted 240 0 0 0, dotted 255 255 255 255); (dotted 255 255 255 255, dotted 255 255 255 255)].

Definition v6_blocks : list (Z * Z) :=
  [(1, 1); (0xfe80 * 2 ^ 112, 0xfec0 * 2 ^ 112 - 1); (0xfc00 * 2 ^ 112, 0xfe00 * 2 ^ 112 - 1);
   (0xff00 * 2 ^ 112, 2 ^ 128 - 1); (0, 0)].

Definition internal (ip : IpAddr) : bool :=
  existsb (λ r, (r.1 <=? ip_value ip) && (ip_value ip <=? r.2)) (match ip with V4 _ => v4_blocks | V6 _ => v6_blocks end).

(** A network as a block of its family. *)
Definition block (family : Z) (n : IpAddr * Z) : option (Z * Z) :=
  if bits n.1 =? family then Some (net_first n.1 n.2, net_last n.1 n.2) else None.

Lemma in_any_blocks nets ip : ip_ok ip → Forall (λ n, ip_ok n.1 ∧ 0 <= n.2 <= bits n.1) nets →
  in_any nets ip = existsb (λ r, (r.1 <=? ip_value ip) && (ip_value ip <=? r.2)) (omap (block (bits ip)) nets).
Proof.
  intros Hip. induction 1 as [|[net p] nets [Hn Hp] _ IH]; [done|]. cbn [in_any existsb] in *. fold (in_any nets ip). rewrite IH.
  cbn [omap list_omap]. unfold block at 2. cbn [fst snd] in *. pose proof (in_net_range ip net p Hip Hn Hp) as H. unfold same_family in H.
  destruct (Z.eqb_spec (bits net) (bits ip)) as [E|E]; cbn [existsb fst snd].
  - f_equal. apply eq_true_iff_eq. rewrite H, andb_true_iff, !Z.leb_le. split; [tauto|]. intros ?. split; [done|tauto].
  - replace (ip_in_net ip net p) with false; [done|]. symmetry. apply not_true_iff_false. rewrite H. intros [? _]. congruence.
Qed.

Lemma parsed_ok l : Forall (λ n : IpAddr * Z, ip_ok n.1 ∧ 0 <= n.2 <= bits n.1) (omap parse_ip_or_cidr l).
Proof.
  apply list.Forall_forall. intros [net p] Hin. apply list_elem_of_omap in Hin as (s & _ & Hs). by apply parse_net_ok in Hs.
Qed.

Lemma deny_blocks : omap (block 32) (omap parse_ip_or_cidr DEFAULT_DENY_CIDRS) = v4_blocks ∧
  omap (block 128) (omap parse_ip_or_cidr DEFAULT_DENY_CIDRS) = v6_blocks.
Proof. split; vm_compute; reflexivity. Qed.

Lemma deny_internal ip : ip_ok ip → in_any (omap parse_ip_or_cidr DEFAULT_DENY_CIDRS) ip = internal ip.
Proof.
  intros Hip. rewrite in_any_blocks by (done || apply parsed_ok). unfold internal. destruct deny_blocks as [H4 H6].
  by destruct ip; cbn [bits]; rewrite ?H4, ?H6.
Qed.

Lemma allow_entries l ip : in_any (omap parse_ip_or_cidr l) ip = existsb (λ e, ip_matches e ip) l.
Proof.
  unfold in_any. induction l as [|e l IH]; [done|]. cbn [omap list_omap existsb]. unfold ip_matches at 1.
  destruct (parse_ip_or_cidr e) as [[net p]|]; cbn [existsb fst snd]; by rewrite IH.
Qed.




Lemma check_exact cfg ip : ip_ok ip → ssrf_check (from_config cfg) ip = false ↔
  cfg_enabled cfg = true ∧ internal ip = true ∧ ∀ e, e ∈ allowlist cfg → ip_matches e ip = false.
Proof.
  intros Hip. unfold ssrf_check, from_config. destruct (cfg_enabled cfg); cbn [negb filter_enabled disabled allow deny]; [|naive_solver].
  rewrite allow_entries, deny_internal by done.
  assert (He : existsb (λ e, ip_matches e ip) (allowlist cfg) = false ↔ ∀ e, e ∈ allowlist cfg → ip_matches e ip = false).
  { rewrite <- not_true_iff_false, existsb_exists. setoid_rewrite <- not_true_iff_false. setoid_rewrite list_elem_of_In. naive_solver. }
  rewrite <- He. destruct (existsb _ (allowlist cfg)), (internal ip); simpl; naive_solver.
Qed.

Lemma check_external cfg ip : ip_ok ip → internal ip = false → ssrf_check (from_config cfg) ip = true.
Proof. intros Hip Hi. apply not_false_iff_true. rewrite check_exact by done. rewrite Hi. naive_solver. Qed.


(** The webhook's dial is not the one that is checked.  Once the first answer of
    the resolver passes the filter, the webhook connects to the second answer,
    whatever it holds: a name whose answer changes between the two reaches the
    loopback.  And no IPv4 address is denied when it is written as an IPv6 one. *)
Theorem webhook_unchecked (allowed : list jstr) :
  let f := from_config (SsrfConfig true allowed) in
  (∀ first second connect, first_rejected f first = None →
     webhook_dial f (λ n, match n with O => Some first | S _ => Some second end) connect = dial_first connect second) ∧
  (∃ lookups, webhook_dial f lookups (λ _, Accepted) = ([V4 (dotted 127 0 0 1)], Ok (V4 (dotted 127 0 0 1)))) ∧
  (∀ a, 0 <= a < 2 ^ 32 → ssrf_check f (V6 (0xffff * 2 ^ 32 + a)) = true).
Proof.
  intros f. assert (H : ∀ first second connect, first_rejected f first = None →
     webhook_dial f (λ n, match n with O => Some first | S _ => Some second end) connect = dial_first connect second).
  { intros first second connect Hf. unfold webhook_dial. change (filter_enabled f) with true. by rewrite Hf. }
  split_and!; [exact H| |].
  - exists (λ n, match n with O => Some [V4 (dotted 8 8 8 8)] | S _ => Some [V4 (dotted 127 0 0 1)] end). rewrite H; [done|].
    unfold first_rejected. change (filter_enabled f) with true. rewrite list.filter_cons_False; [done|].
    unfold f. by rewrite check_external.
  - intros a Ha. apply check_external; [unfold ip_ok; cbn [ip_value bits]; lia|]. apply not_true_iff_false.
    unfold internal. cbn [ip_value existsb v6_blocks fst snd]. rewrite !orb_true_iff, !andb_true_iff, !Z.leb_le. lia.
Qed.
