(* ===== verification/Authz.v ===== *)
(** Authorization (crates/dwara-core/src/security/authz.rs): the rules of a block,
    and the five levels whose blocks apply to a request.

    The GeoIP database is what the code calls of it: the country and the network
    number of an address.  [serde] builds the claims of a token as a map. *)

From S2P Require Import Prelude JsNumber Text Affinity Router Net.
From stdpp Require Import gmap.
Local Open Scope Z_scope.

(** * Rules *)

Inductive IpAclDefault : Type := AclAllow | AclDeny.

Record IpAcl : Type := MkAcl { acl_allow : list jstr; acl_deny : list jstr; acl_default : IpAclDefault }.

Record GeoipRules : Type := MkGeo {
  allowed_countries : list jstr; denied_countries : list jstr; allowed_asns : list Z; denied_asns : list Z }.

Record GeoipDb : Type := MkGeoDb { country : IpAddr → option jstr; asn : IpAddr → option Z }.

Record Authz : Type := MkAuthz {
  allowed_consumers : list jstr; denied_consumers : list jstr; allowed_groups : list jstr; denied_groups : list jstr;
  required_scopes : list jstr; required_claims : gmap jstr jstr; ip_acl : option IpAcl; geoip_rules : option GeoipRules;
  authz_dry_run : bool }.

Record Identity : Type := MkIdentity { consumer_name : jstr; groups : list jstr; claims : gmap jstr jstr }.

(** [consumer_groups] are the identity's. *)
Record AuthzContext : Type := MkContext {
  identity : option Identity; consumer_groups : list jstr; peer_ip : IpAddr; effective_ip : IpAddr; geoip : option GeoipDb }.

Inductive Decision : Type := Allow | Deny (unauthenticated : bool) (reason : string).

#[global] Instance Decision_eq_dec : EqDecision Decision.
Proof. solve_decision. Defined.

(** * One block *)

Definition has {A} `{EqDecision A} (x : A) (l : list A) : bool := existsb (λ y, bool_decide (y = x)) l.

Definition country_hit (country : option jstr) (entry : jstr) : bool :=
  match country with Some c => eq_ignore_ascii_case c entry | None => false end.

Definition asn_hit (asn : option Z) (a : Z) : bool := bool_decide (asn = Some a).

Definition geoip_decision (rules : GeoipRules) (ctx : AuthzContext) : Decision :=
  let '(country, asn) :=
    match geoip ctx with
    | Some db => (country db (effective_ip ctx), asn db (effective_ip ctx))
    | None => (None, None)
    end in
  if existsb (country_hit country) (denied_countries rules) then Deny false "client country is denied"
  else if existsb (asn_hit asn) (denied_asns rules) then Deny false "client network (ASN) is denied"
  else
    let country_constrained := bool_decide (allowed_countries rules ≠ []) in
    let asn_constrained := bool_decide (allowed_asns rules ≠ []) in
    if country_constrained && negb (existsb (country_hit country) (allowed_countries rules))
    then Deny false "client country is not in the allowed list (or is unknown)"
    else if asn_constrained && negb (existsb (asn_hit asn) (allowed_asns rules))
    then Deny false "client network (ASN) is not in the allowed list (or is unknown)"
    else Allow.

Definition ip_acl_decision (acl : IpAcl) (ip : IpAddr) : Decision :=
  if existsb (λ e, ip_matches e ip) (acl_deny acl) then Deny false "ip denied by acl deny list"
  else if existsb (λ e, ip_matches e ip) (acl_allow acl) then Allow
  else match acl_default acl with
  | AclAllow => Allow
  | AclDeny => Deny false "ip matched neither acl list and the default is deny"
  end.

Definition has_identity_rules (authz : Authz) : bool :=
  bool_decide (allowed_consumers authz ≠ []) || bool_decide (denied_consumers authz ≠ [])
  || bool_decide (allowed_groups authz ≠ []) || bool_decide (denied_groups authz ≠ [])
  || bool_decide (required_scopes authz ≠ []) || bool_decide (required_claims authz ≠ ∅).

(** [str::split_whitespace]: the fields between blanks that are not empty. *)
Fixpoint words (s : jstr) (word : jstr) : list jstr :=
  match s with
  | [] => if bool_decide (word = []) then [] else [reverse word]
  | c :: s =>
      if is_whitespace c then (if bool_decide (word = []) then [] else [reverse word]) ++ words s []
      else words s (c :: word)
  end.
Definition split_whitespace (s : jstr) : list jstr := words s [].

Definition granted_scopes (id : Identity) : list jstr :=
  match claims id !! u "scope" with Some s => split_whitespace s | None => [] end.

(** The rules on the identity, in their order. *)
Definition identity_decision (authz : Authz) (ctx : AuthzContext) (id : Identity) : Decision :=
  if has (consumer_name id) (denied_consumers authz) then Deny false "consumer is denied"
  else if bool_decide (allowed_consumers authz ≠ []) && negb (has (consumer_name id) (allowed_consumers authz))
  then Deny false "consumer is not in the allowed set"
  else if existsb (λ g, has g (consumer_groups ctx)) (denied_groups authz) then Deny false "consumer's group is denied"
  else if bool_decide (allowed_groups authz ≠ []) && negb (existsb (λ g, has g (consumer_groups ctx)) (allowed_groups authz))
  then Deny false "consumer is in none of the allowed groups"
  else if existsb (λ s, negb (has s (granted_scopes id))) (required_scopes authz) then Deny false "a required scope is absent"
  else if existsb (λ c, bool_decide (claims id !! c.1 ≠ Some c.2)) (map_to_list (required_claims authz))
  then Deny false "a required claim is absent or mismatched"
  else Allow.

Definition evaluate_one (authz : Authz) (ctx : AuthzContext) : option Decision :=
  if negb (has_identity_rules authz) && bool_decide (ip_acl authz = None) && bool_decide (geoip_rules authz = None) then None
  else
    match (match ip_acl authz with Some acl => ip_acl_decision acl (effective_ip ctx) | None => Allow end) with
    | Deny _ reason => Some (Deny false reason)
    | Allow =>
        match (match geoip_rules authz with Some rules => geoip_decision rules ctx | None => Allow end) with
        | Deny _ reason => Some (Deny false reason)
        | Allow =>
            if negb (has_identity_rules authz) then Some Allow
            else match identity ctx with
            | None => Some (Deny true "authorization rules require an authenticated identity")
            | Some id => Some (identity_decision authz ctx id)
            end
        end
    end.

(** * The chain *)

Inductive AuthzLevel : Type := AtConsumer | AtRoute | AtService | AtListener | AtGlobal.

Record AuthzChain : Type := MkChain {
  at_consumer : option Authz; at_route : option Authz; at_service : option Authz; at_listener : option Authz; at_global : option Authz }.

Definition links (chain : AuthzChain) : list (AuthzLevel * option Authz) :=
  [(AtConsumer, at_consumer chain); (AtRoute, at_route chain); (AtService, at_service chain);
   (AtListener, at_listener chain); (AtGlobal, at_global chain)].

Record Resolved : Type := MkResolved { decision : Decision; would_deny : option (AuthzLevel * Decision) }.

Fixpoint resolve_links (ls : list (AuthzLevel * option Authz)) (ctx : AuthzContext) (governing : option Decision)
    (would_deny : option (AuthzLevel * Decision)) : Resolved :=
  match ls with
  | [] => MkResolved (default Allow governing) would_deny
  | (_, None) :: ls => resolve_links ls ctx governing would_deny
  | (level, Some authz) :: ls =>
      match evaluate_one authz ctx with
      | Some (Deny una reason) =>
          if negb (authz_dry_run authz) then MkResolved (Deny una reason) would_deny
          else
            resolve_links ls ctx governing
              (match would_deny with None => Some (level, Deny una reason) | Some _ => would_deny end)
      | Some decision => resolve_links ls ctx (match governing with None => Some decision | Some _ => governing end) would_deny
      | None => resolve_links ls ctx governing would_deny
      end
  end.

Definition resolve (chain : AuthzChain) (ctx : AuthzContext) : Resolved := resolve_links (links chain) ctx None None.

Definition authorize (chain : AuthzChain) (ctx : AuthzContext) : Decision := decision (resolve chain ctx).

(** The authorization phase of a request (dataplane/proxy.rs): whether it goes on,
    is told to authenticate, or is refused. *)
Inductive Verdict : Type := Proceed | Unauthorized | Forbidden.

Definition authz_phase (trusted_proxies : list jstr) (peer : IpAddr) (inbound_xff : option jstr) (db : option GeoipDb)
    (id : option Identity) (chain : AuthzChain) : Verdict * option (AuthzLevel * Decision) :=
  let resolved :=
    if existsb (λ l, bool_decide (is_Some l.2)) (links chain) then
      let effective := effective_client_ip trusted_proxies peer inbound_xff in
      let ctx := MkContext id (match id with Some id => groups id | None => [] end) peer effective db in
      resolve chain ctx
    else MkResolved Allow None in
  (match decision resolved with Allow => Proceed | Deny true _ => Unauthorized | Deny false _ => Forbidden end,
   would_deny resolved).

(** * What a block asks *)

(** A list that only constrains when it is not empty. *)
Definition meets {A} (f : A → bool) (l : list A) : Prop := l = [] ∨ ∃ x, x ∈ l ∧ f x = true.

Section Asks.
Context (ctx : AuthzContext).

Definition acl_permits (acl : IpAcl) : Prop :=
  (∀ e, e ∈ acl_deny acl → ip_matches e (effective_ip ctx) = false) ∧
  (acl_default acl = AclAllow ∨ ∃ e, e ∈ acl_allow acl ∧ ip_matches e (effective_ip ctx) = true).

Definition country_of : option jstr := db ← geoip ctx; country db (effective_ip ctx).
Definition asn_of : option Z := db ← geoip ctx; asn db (effective_ip ctx).

Definition geoip_permits (r : GeoipRules) : Prop :=
  (∀ c, c ∈ denied_countries r → country_hit country_of c = false) ∧
  (∀ a, a ∈ denied_asns r → asn_of ≠ Some a) ∧
  meets (country_hit country_of) (allowed_countries r) ∧ meets (asn_hit asn_of) (allowed_asns r).

Definition address_permits (b : Authz) : Prop :=
  (∀ acl, ip_acl b = Some acl → acl_permits acl) ∧ (∀ r, geoip_rules b = Some r → geoip_permits r).

Definition identity_permits (b : Authz) (id : Identity) : Prop :=
  (consumer_name id ∉ denied_consumers b) ∧
  meets (λ c, bool_decide (c = consumer_name id)) (allowed_consumers b) ∧
  (∀ g, g ∈ denied_groups b → g ∉ consumer_groups ctx) ∧
  meets (λ g, has g (consumer_groups ctx)) (allowed_groups b) ∧
  (∀ s, s ∈ required_scopes b → s ∈ granted_scopes id) ∧
  (∀ name want, required_claims b !! name = Some want → claims id !! name = Some want).

Definition permits (b : Authz) : Prop :=
  address_permits b ∧ (has_identity_rules b = true → ∃ id, identity ctx = Some id ∧ identity_permits b id).
End Asks.

(** * A block decides what it asks *)

Lemma existsb_spec {A} (f : A → bool) l : reflect (∃ x, x ∈ l ∧ f x = true) (existsb f l).
Proof. apply iff_reflect. rewrite existsb_exists. by setoid_rewrite list_elem_of_In. Qed.

Lemma has_spec {A} `{EqDecision A} (x : A) l : reflect (x ∈ l) (has x l).
Proof.
  apply iff_reflect. unfold has. rewrite existsb_exists. setoid_rewrite <- list_elem_of_In.
  setoid_rewrite bool_decide_eq_true. naive_solver.
Qed.

Lemma acl_spec ctx acl : match ip_acl_decision acl (effective_ip ctx) with Allow => acl_permits ctx acl | Deny _ _ => ¬ acl_permits ctx acl end.
Proof.
  unfold ip_acl_decision, acl_permits.
  destruct (existsb_spec (λ e, ip_matches e (effective_ip ctx)) (acl_deny acl)) as [(e & He & Hm)|Hd].
  { intros [H _]. specialize (H e He). congruence. }
  assert (Hno : ∀ e, e ∈ acl_deny acl → ip_matches e (effective_ip ctx) = false).
  { intros e He. apply not_true_iff_false. intros Hm. apply Hd. eauto. }
  destruct (existsb_spec (λ e, ip_matches e (effective_ip ctx)) (acl_allow acl)); [tauto|].
  destruct (acl_default acl); [auto|]. intros [_ [?|?]]; [done|tauto].
Qed.

Lemma constrained_spec {A} `{EqDecision A} (l : list A) (f : A → bool) :
  if bool_decide (l ≠ []) && negb (existsb f l) then ¬ meets f l else meets f l.
Proof. unfold meets. destruct (bool_decide_reflect (l ≠ [])) as [Hn|Hn], (existsb_spec f l) as [He|He]; simpl; try tauto.
  left. by destruct (decide (l = [])). Qed.

Lemma geoip_spec ctx r : match geoip_decision r ctx with Allow => geoip_permits ctx r | Deny _ _ => ¬ geoip_permits ctx r end.
Proof.
  unfold geoip_decision, geoip_permits. set (ca := match geoip ctx with Some db => _ | None => _ end).
  assert (E : ca = (country_of ctx, asn_of ctx)) by (unfold ca, country_of, asn_of; by destruct (geoip ctx)).
  rewrite E. clear ca E. destruct (existsb_spec (country_hit (country_of ctx)) (denied_countries r)) as [(c & Hc & Hh)|H1].
  { intros [H _]. specialize (H c Hc). congruence. }
  destruct (existsb_spec (asn_hit (asn_of ctx)) (denied_asns r)) as [(a & Ha & Hh)|H2].
  { intros (_ & H & _). unfold asn_hit in Hh. apply bool_decide_eq_true in Hh. by apply (H a Ha). }
  pose proof (constrained_spec (allowed_countries r) (country_hit (country_of ctx))) as H3.
  destruct (bool_decide (allowed_countries r ≠ []) && _); [tauto|].
  pose proof (constrained_spec (allowed_asns r) (asn_hit (asn_of ctx))) as H4.
  destruct (bool_decide (allowed_asns r ≠ []) && _); [tauto|].
  split_and!; [| |done|done].
  - intros c Hc. apply not_true_iff_false. eauto.
  - intros a Ha E. apply H2. exists a. split; [done|]. by apply bool_decide_eq_true.
Qed.

Lemma identity_spec ctx b id :
  match identity_decision b ctx id with Allow => identity_permits ctx b id | Deny una _ => una = false ∧ ¬ identity_permits ctx b id end.
Proof.
  unfold identity_decision, identity_permits.
  destruct (has_spec (consumer_name id) (denied_consumers b)) as [H1|H1]; [tauto|].
  pose proof (constrained_spec (allowed_consumers b) (λ c, bool_decide (c = consumer_name id))) as H2.
  fold (has (consumer_name id) (allowed_consumers b)) in H2. destruct (bool_decide (allowed_consumers b ≠ []) && _); [tauto|].
  destruct (existsb_spec (λ g, has g (consumer_groups ctx)) (denied_groups b)) as [(g & Hg & Hh)|H3].
  { split; [done|]. intros (_ & _ & H & _). by destruct (has_spec g (consumer_groups ctx)); [apply (H g)|]. }
  pose proof (constrained_spec (allowed_groups b) (λ g, has g (consumer_groups ctx))) as H4.
  destruct (bool_decide (allowed_groups b ≠ []) && _); [tauto|].
  destruct (existsb_spec (λ s, negb (has s (granted_scopes id))) (required_scopes b)) as [(s & Hs & Hh)|H5].
  { split; [done|]. intros (_ & _ & _ & _ & H & _). specialize (H s Hs). by destruct (has_spec s (granted_scopes id)). }
  destruct (existsb_spec (λ c, bool_decide (claims id !! c.1 ≠ Some c.2)) (map_to_list (required_claims b))) as [([n w] & Hc & Hh)|H6].
  { split; [done|]. intros (_ & _ & _ & _ & _ & H). apply elem_of_map_to_list in Hc. apply bool_decide_eq_true in Hh. by apply Hh, H. }
  split_and!; [done|done| |done| |].
  - intros g Hg Hin. apply H3. exists g. split; [done|]. by destruct (has_spec g (consumer_groups ctx)).
  - intros s Hs. destruct (has_spec s (granted_scopes id)) as [?|Hn]; [done|]. destruct H5. exists s. split; [done|].
    by destruct (has_spec s (granted_scopes id)).
  - intros n w Hw. destruct (decide (claims id !! n = Some w)) as [?|Hn]; [done|]. destruct H6. exists (n, w).
    split; [by apply elem_of_map_to_list|]. by apply bool_decide_eq_true.
Qed.

Lemma no_rules ctx b : negb (has_identity_rules b) && bool_decide (ip_acl b = None) && bool_decide (geoip_rules b = None) = true → permits ctx b.
Proof.
  intros [[H1 H2%bool_decide_eq_true]%andb_true_iff H3%bool_decide_eq_true]%andb_true_iff.
  split; [split; [rewrite H2|rewrite H3]; done|]. by destruct (has_identity_rules b).
Qed.

Lemma block_spec ctx b : match evaluate_one b ctx with
  | Some (Deny una _) => ¬ permits ctx b ∧ (una = true ↔ address_permits ctx b ∧ has_identity_rules b = true ∧ identity ctx = None)
  | _ => permits ctx b end.
Proof.
  unfold evaluate_one. destruct (negb (has_identity_rules b) && _ && _) eqn:E0; [by apply no_rules|]. clear E0.
  assert (Hacl : match (match ip_acl b with Some acl => ip_acl_decision acl (effective_ip ctx) | None => Allow end) with
    | Allow => ∀ acl, ip_acl b = Some acl → acl_permits ctx acl | Deny _ _ => ¬ ∀ acl, ip_acl b = Some acl → acl_permits ctx acl end).
  { destruct (ip_acl b) as [acl|]; [|done]. pose proof (acl_spec ctx acl) as H. destruct (ip_acl_decision acl _); [by intros ? [= <-]|]. eauto. }
  destruct (match ip_acl b with Some acl => _ | None => _ end); [|unfold permits, address_permits; naive_solver].
  assert (Hgeo : match (match geoip_rules b with Some rules => geoip_decision rules ctx | None => Allow end) with
    | Allow => ∀ r, geoip_rules b = Some r → geoip_permits ctx r | Deny _ _ => ¬ ∀ r, geoip_rules b = Some r → geoip_permits ctx r end).
  { destruct (geoip_rules b) as [r|]; [|done]. pose proof (geoip_spec ctx r) as H. destruct (geoip_decision r ctx); [by intros ? [= <-]|]. eauto. }
  destruct (match geoip_rules b with Some rules => _ | None => _ end); [|unfold permits, address_permits; naive_solver].
  unfold permits, address_permits. destruct (has_identity_rules b); cbn [negb]; [|naive_solver].
  destruct (identity ctx) as [id|]; [|naive_solver]. pose proof (identity_spec ctx b id) as H. destruct (identity_decision b ctx id); naive_solver.
Qed.

(** * The levels together *)

Definition live_permit (ctx : AuthzContext) (ls : list (AuthzLevel * option Authz)) : Prop :=
  ∀ level b, (level, Some b) ∈ ls → authz_dry_run b = false → permits ctx b.

(** What one walk over the levels finds, given what the walk before it had. *)
Definition walk_ok (ctx : AuthzContext) (ls : list (AuthzLevel * option Authz)) (before : option (AuthzLevel * Decision)) (r : Resolved) : Prop :=
  match decision r with
  | Allow => live_permit ctx ls ∧ (would_deny r = None → ∀ level b, (level, Some b) ∈ ls → permits ctx b)
  | Deny una _ => ∃ level b, (level, Some b) ∈ ls ∧ authz_dry_run b = false ∧ ¬ permits ctx b ∧
      (una = true ↔ address_permits ctx b ∧ has_identity_rules b = true ∧ identity ctx = None)
  end ∧
  match before with
  | Some w => would_deny r = Some w
  | None => ∀ level d, would_deny r = Some (level, d) → ∃ b, (level, Some b) ∈ ls ∧ authz_dry_run b = true ∧ ¬ permits ctx b
  end.

(** A level with nothing against it. *)
Lemma walk_skip ctx level link ls before r : (∀ b, link = Some b → permits ctx b) →
  walk_ok ctx ls before r → walk_ok ctx ((level, link) :: ls) before r.
Proof.
  intros Hl [H1 H2]. split.
  - destruct (decision r) as [|una reason].
    + destruct H1 as [H1 H1']. split.
      * intros l b [[= _ E]|Hin]%elem_of_cons Hd; [by apply Hl|by eapply H1].
      * intros Hw l b [[= _ E]|Hin]%elem_of_cons; [by apply Hl|by eapply H1'].
    + destruct H1 as (l & b & Hin & H1). exists l, b. split; [by right|done].
  - destruct before; [done|]. intros l d Hd. destruct (H2 l d Hd) as (b & Hin & Hb). exists b. split; [by right|done].
Qed.

Lemma walk_spec ctx ls governing before : governing = None ∨ governing = Some Allow →
  walk_ok ctx ls before (resolve_links ls ctx governing before).
Proof.
  revert governing before. induction ls as [|[level [b|]] ls IH]; intros governing before Hg; cbn [resolve_links].
  - split; cbn [decision would_deny]; [|destruct before; naive_solver]. destruct Hg as [->| ->]; cbn [default from_option id];
      (split; [intros l b Hin|intros _ l b Hin]; by apply elem_of_nil in Hin).
  - pose proof (block_spec ctx b) as Hb. destruct (evaluate_one b ctx) as [[|una reason]|].
    + apply walk_skip; [by intros ? [= <-]|]. apply IH. right. destruct Hg as [->| ->]; done.
    + destruct Hb as [Hb Hu]. destruct (authz_dry_run b) eqn:Ed; cbn [negb].
      * set (before' := match before with None => _ | Some _ => _ end). specialize (IH governing before' Hg).
        assert (Hw : ∃ w, before' = Some w ∧ w = default (level, Deny una reason) before) by (destruct before; eauto).
        destruct Hw as (w & Ew & Hw). clearbody before'. subst before'. destruct IH as [IH1 IH2]. split.
        -- destruct (decision _) as [|una' reason'].
           ++ destruct IH1 as [IH1 _]. split; [|by rewrite IH2]. intros l b' [[= -> ->]|Hin]%elem_of_cons Hd; [congruence|by eapply IH1].
           ++ destruct IH1 as (l & b' & Hin & IH1). exists l, b'. split; [by right|done].
        -- destruct before as [w'|]; simpl in Hw; subst w; [done|]. intros l d. rewrite IH2. intros [= <- <-]. exists b. split; [by left|done].
      * split; cbn [decision would_deny].
        -- exists level, b. split; [by left|]. done.
        -- destruct before; [done|]. done.
    + apply walk_skip; [by intros ? [= <-]|]. by apply IH.
  - apply walk_skip; [done|]. by apply IH.
Qed.

(** C29: Authorization lets a request through exactly when every live block allows it.
    Over the five levels, a request goes on just when each attached block that is
    not in dry run permits it: its address by the ACL and the GeoIP rules, its
    consumer, groups, scopes and claims; which level a block is at never matters.
    A refusal asks to authenticate only when a block that admits the address
    wants an identity and there is none.  Dry run only takes away its own block's
    denials, and when none is reported the request would pass all live too. *)
Theorem authz_exact (trusted_proxies : list jstr) (peer : IpAddr) (inbound_xff : option jstr) (db : option GeoipDb)
    (id : option Identity) (chain : AuthzChain) :
  let ctx := MkContext id (match id with Some id => groups id | None => [] end) peer
               (effective_client_ip trusted_proxies peer inbound_xff) db in
  let '(verdict, reported) := authz_phase trusted_proxies peer inbound_xff db id chain in
  (verdict = Proceed ↔ live_permit ctx (links chain)) ∧
  (verdict = Unauthorized → id = None ∧ ∃ level b, (level, Some b) ∈ links chain ∧ address_permits ctx b ∧ has_identity_rules b = true) ∧
  (∀ level d, reported = Some (level, d) → ∃ b, (level, Some b) ∈ links chain ∧ authz_dry_run b = true ∧ ¬ permits ctx b) ∧
  (verdict = Proceed → reported = None → ∀ level b, (level, Some b) ∈ links chain → permits ctx b).
Proof.
  intros ctx. unfold authz_phase. destruct (existsb_spec (λ l, bool_decide (is_Some l.2)) (links chain)) as [_|Hno].
  - fold ctx. destruct (walk_spec ctx (links chain) None None (or_introl eq_refl)) as [H1 H2]. fold (resolve chain ctx) in *.
    destruct (decision (resolve chain ctx)) as [|una reason].
    + split_and!; [tauto|done|exact H2|by destruct H1].
    + destruct H1 as (level & b & Hin & Hd & Hp & Hu). split_and!.
      * split; [by destruct una|]. intros Hl. destruct Hp. by eapply Hl.
      * destruct una; [|done]. intros _. destruct (proj1 Hu eq_refl) as (? & ? & ?). eauto 10.
      * exact H2.
      * by destruct una.
  - assert (Hn : ∀ level b, (level, Some b) ∉ links chain).
    { intros level b Hin. apply Hno. eexists. split; [exact Hin|done]. }
    cbn [decision would_deny]. split_and!; [|done|done|]; unfold live_permit; naive_solver.
Qed.

Definition only (names : list jstr) : Authz := MkAuthz names [] [] [] [] ∅ None None false.
Definition sample_chain : AuthzChain := MkChain None (Some (only [u "alice"])) None None (Some (only [u "bob"])).

(** A block that allows a consumer at the route does not lift a block further out. *)
Example sample_not_overridden :
  authz_phase [] (V4 1) None None (Some (MkIdentity (u "alice") [] ∅)) sample_chain = (Forbidden, None).
Proof. reflexivity. Qed.

Example sample_anonymous : authz_phase [] (V4 1) None None None sample_chain = (Unauthorized, None).
Proof. reflexivity. Qed.
