(* ===== verification/Publish.v ===== *)
(** Publishing configurations: the published snapshot (crates/dwara-core/src/snapshot/mod.rs
    [ConfigState]), the one the data plane serves (dataplane/proxy.rs [refresh_inner],
    [apply_service_split_weights]), the admin API's changes (crates/dwara-admin/src/
    entity_crud.rs, lib.rs [patch_config]) and the file's reloads (crates/dwara-bin/src/
    reload.rs), each as the sequence of its accesses to what they share.

    The class [Schema] is what the files use of the rest: entities and their JSON
    (serde), the other parts of a configuration, its text, and [compile], whose
    rules are not modelled: every theorem holds whatever it accepts.  The file's
    text is the configuration it parses to. *)

From S2P Require Import Prelude JsNumber Text Affinity.
From stdpp Require Import gmap.
Local Open Scope Z_scope.

(** * Configurations *)

Inductive EntityKind : Type := Routes | Services | Upstreams | Consumers | Policies.

#[global] Instance EntityKind_eq_dec : EqDecision EntityKind.
Proof. solve_decision. Defined.

Definition path (k : EntityKind) : jstr :=
  u (match k with
     | Routes => "routes" | Services => "services" | Upstreams => "upstreams" | Consumers => "consumers" | Policies => "policies"
     end).

Definition from_path (seg : jstr) : option EntityKind :=
  if bool_decide (seg = u "routes") then Some Routes
  else if bool_decide (seg = u "services") then Some Services
  else if bool_decide (seg = u "upstreams") then Some Upstreams
  else if bool_decide (seg = u "consumers") then Some Consumers
  else if bool_decide (seg = u "policies") then Some Policies
  else None.

(** A configuration: its entities, and [others], the rest of it. *)
Record Gateway (Entity Others : Type) : Type := MkGateway {
  routes : list Entity; services : list Entity; upstreams : list Entity; consumers : list Entity; policies : list Entity;
  others : Others }.
Arguments MkGateway {_ _} _ _ _ _ _ _.
Arguments routes {_ _} _.
Arguments services {_ _} _.
Arguments upstreams {_ _} _.
Arguments consumers {_ _} _.
Arguments policies {_ _} _.
Arguments others {_ _} _.

Class Schema : Type := {
  Entity : Type;
  Others : Type;
  Value : Type;
  entity_name : Entity → jstr;
  json_name : Value → jstr;                       (* its "name", or the empty text *)
  from_value : EntityKind → Value → option Entity;
  compile : Gateway Entity Others → option Z;     (* the content hash *)
  yaml_ok : Gateway Entity Others → bool;
  no_others : Others;
}.

Section Publish.
Context `{Schema}.
Abbreviation gateway := (Gateway Entity Others).

Definition collection (k : EntityKind) (g : gateway) : list Entity :=
  match k with
  | Routes => routes g | Services => services g | Upstreams => upstreams g | Consumers => consumers g | Policies => policies g
  end.

Definition with_collection (k : EntityKind) (l : list Entity) (g : gateway) : gateway :=
  match k with
  | Routes => MkGateway l (services g) (upstreams g) (consumers g) (policies g) (others g)
  | Services => MkGateway (routes g) l (upstreams g) (consumers g) (policies g) (others g)
  | Upstreams => MkGateway (routes g) (services g) l (consumers g) (policies g) (others g)
  | Consumers => MkGateway (routes g) (services g) (upstreams g) l (policies g) (others g)
  | Policies => MkGateway (routes g) (services g) (upstreams g) (consumers g) l (others g)
  end.

Definition named (name : jstr) (e : Entity) : Prop := entity_name e = name.

#[global] Instance named_dec name e : Decision (named name e).
Proof. unfold named. solve_decision. Defined.

Definition find_entity (g : gateway) (k : EntityKind) (name : jstr) : option Entity :=
  snd <$> list_find (named name) (collection k g).

Definition add_entity (g : gateway) (k : EntityKind) (v : Value) : option gateway :=
  e ← from_value k v; Some (with_collection k (collection k g ++ [e]) g).

Definition replace_entity_in_gateway (g : gateway) (k : EntityKind) (name : jstr) (v : Value) : option gateway :=
  e ← from_value k v;
  '(idx, _) ← list_find (named name) (collection k g);
  Some (with_collection k (<[idx := e]> (collection k g)) g).

Definition remove_entity (g : gateway) (k : EntityKind) (name : jstr) : gateway :=
  with_collection k (filter (λ e, ¬ named name e) (collection k g)) g.

(** * The published snapshot *)

Record Snapshot : Type := MkSnapshot { generation : Z; content_hash : Z; snapshot_gateway : gateway }.

Record ConfigState : Type := MkConfig { snapshot : Snapshot; counter : Z }.

Definition empty_gateway : gateway := MkGateway [] [] [] [] [] no_others.
Definition empty_snapshot : Snapshot := MkSnapshot 0 0 empty_gateway.

Definition compile_and_publish (g : gateway) (st : ConfigState) : option Snapshot * ConfigState :=
  match compile g with
  | None => (None, st)
  | Some hash =>
      let generation := counter st + 1 in
      let s := MkSnapshot generation hash g in
      (Some s, MkConfig s generation)
  end.

(** * Requests *)

(** A header's value, and whether it is text. *)
Definition etag (hash : Z) : jstr := 34%N :: u "0x" ++ format_hex 0 hash ++ [34%N].

Definition check_if_match (if_match : option (option jstr)) (current_etag : jstr) : bool :=
  match if_match with
  | None => true
  | Some None => false
  | Some (Some v) =>
      if bool_decide (trim v = u "*") then true
      else bool_decide (trim_both (N.eqb 34) (trim v) = trim_both (N.eqb 34) current_etag)
  end.

(** How reading a body ends. *)
Inductive Body : Type := TooLarge | ReadFailed | NotJson | Json (v : Value).

Inductive PatchBody : Type := PatchTooLarge | NotUtf8 | ParseFailed | Parsed (g : gateway).

Inductive Request : Type :=
  | Create (kind : EntityKind) (if_match : option (option jstr)) (body : Body)
  | Replace (kind : EntityKind) (name : jstr) (if_match : option (option jstr)) (body : Body)
  | Delete (kind : EntityKind) (name : jstr) (if_match : option (option jstr))
  | PatchConfig (body : PatchBody).

Inductive Response : Type :=
  | Envelope (status : Z) (code : string)
  | PublishedAs (s : Snapshot).

Definition entity_invalid : Response := Envelope 400 "entity_invalid".

Definition read_json (b : Body) : result Response Value :=
  match b with
  | TooLarge => Err (Envelope 413 "entity_too_large")
  | ReadFailed => Err (Envelope 400 "body_read_failed")
  | NotJson => Err entity_invalid
  | Json v => Ok v
  end.

(** What comes before the lock: the validation of the new configuration. *)
Definition dry_run (g : gateway) : result Response gateway :=
  match compile g with
  | None => Err (Envelope 400 "config_invalid")
  | Some _ => if yaml_ok g then Ok g else Err (Envelope 500 "config_serialize_failed")
  end.

Definition precondition (s : Snapshot) (if_match : option (option jstr)) : bool := check_if_match if_match (etag (content_hash s)).

Definition precondition_failed : Response := Envelope 412 "precondition_failed".

Definition create_entity (s : Snapshot) (k : EntityKind) (if_match : option (option jstr)) (b : Body) : result Response gateway :=
  if negb (precondition s if_match) then Err precondition_failed
  else match read_json b with
  | Err r => Err r
  | Ok v =>
      let name := json_name v in
      if bool_decide (name = []) then Err entity_invalid
      else match find_entity (snapshot_gateway s) k name with
      | Some _ => Err (Envelope 409 "already_exists")
      | None => match add_entity (snapshot_gateway s) k v with None => Err entity_invalid | Some g => dry_run g end
      end
  end.

Definition replace_entity (s : Snapshot) (k : EntityKind) (name : jstr) (if_match : option (option jstr)) (b : Body) : result Response gateway :=
  if negb (precondition s if_match) then Err precondition_failed
  else match read_json b with
  | Err r => Err r
  | Ok v =>
      match find_entity (snapshot_gateway s) k name with
      | None => Err (Envelope 404 "not_found")
      | Some _ =>
          match replace_entity_in_gateway (snapshot_gateway s) k name v with None => Err entity_invalid | Some g => dry_run g end
      end
  end.

Definition delete_entity (s : Snapshot) (k : EntityKind) (name : jstr) (if_match : option (option jstr)) : result Response gateway :=
  if negb (precondition s if_match) then Err precondition_failed
  else match find_entity (snapshot_gateway s) k name with
  | None => Err (Envelope 404 "not_found")
  | Some _ => dry_run (remove_entity (snapshot_gateway s) k name)
  end.

Definition patch_config (b : PatchBody) : result Response gateway :=
  match b with
  | PatchTooLarge => Err (Envelope 413 "config_too_large")
  | NotUtf8 | ParseFailed => Err (Envelope 400 "config_invalid")
  | Parsed g => dry_run g
  end.

(** A request up to the lock, on the snapshot that it loads first. *)
Definition prepare (s : Snapshot) (r : Request) : result Response gateway :=
  match r with
  | Create k m b => create_entity s k m b
  | Replace k name m b => replace_entity s k name m b
  | Delete k name m => delete_entity s k name m
  | PatchConfig b => patch_config b
  end.

(** * The processes *)

(** A request after its preparation: waiting for the lock with the configuration to
    write, then holding it. *)
Inductive Proc : Type :=
  | Waiting (g : gateway)
  | Written (g : gateway)
  | Published (info : Snapshot)
  | Loaded (info snap : Snapshot)
  | Answered (r : Response).

(** The reload task. *)
Inductive Reloader : Type := Idle | Read (g : gateway) | Reloaded | Refreshing (snap : Snapshot).

(** What the data plane serves: a snapshot, and the weights that replace those of its
    splits until the next refresh. *)
Record Served : Type := MkServed { served : Snapshot; overrides : list (string * Z) }.

Record World : Type := MkWorld {
  file : option gateway; cfg : ConfigState; current : Served; patch_lock : option nat; procs : gmap nat Proc;
  reloader : Reloader; canary : option Served }.

Definition set_proc (pid : nat) (p : Proc) (w : World) : World :=
  MkWorld (file w) (cfg w) (current w) (patch_lock w) (<[pid := p]> (procs w)) (reloader w) (canary w).
Definition set_lock (l : option nat) (w : World) : World :=
  MkWorld (file w) (cfg w) (current w) l (procs w) (reloader w) (canary w).
Definition set_file (f : option gateway) (w : World) : World :=
  MkWorld f (cfg w) (current w) (patch_lock w) (procs w) (reloader w) (canary w).
Definition set_cfg (c : ConfigState) (w : World) : World :=
  MkWorld (file w) c (current w) (patch_lock w) (procs w) (reloader w) (canary w).
Definition set_current (s : Served) (w : World) : World :=
  MkWorld (file w) (cfg w) s (patch_lock w) (procs w) (reloader w) (canary w).
Definition set_reloader (r : Reloader) (w : World) : World :=
  MkWorld (file w) (cfg w) (current w) (patch_lock w) (procs w) r (canary w).
Definition set_canary (c : option Served) (w : World) : World :=
  MkWorld (file w) (cfg w) (current w) (patch_lock w) (procs w) (reloader w) c.

Inductive Event : Type :=
  | Begin (pid : nat) (r : Request)
  | Lock (pid : nat) (write_ok : bool)        (* [patch_lock], then [write_atomic] *)
  | Publish (pid : nat)
  | RefreshLoad (pid : nat)                   (* the first access of [refresh_inner] *)
  | RefreshStore (pid : nat)                  (* its last *)
  | Edit (f : option gateway)                 (* someone writes the file *)
  | Reload (forced : bool)
  | ReloadPublish
  | ReloadRefreshLoad
  | ReloadRefreshStore
  | CanaryLoad                                (* [self.current()] *)
  | CanaryStore (weights : list (string * Z)).

Definition answer (pid : nat) (r : Response) (w : World) : World := set_lock None (set_proc pid (Answered r) w).

(** The reload task loads the published snapshot and reads the file, one event here; an
    unchanged file does nothing unless forced. *)
Definition reload (forced : bool) (w : World) : World :=
  match file w with
  | None => w
  | Some g =>
      if negb forced && bool_decide (compile g = Some (content_hash (snapshot (cfg w)))) then w else set_reloader (Read g) w
  end.

Definition fire (e : Event) (w : World) : option World :=
  match e with
  | Begin pid r =>
      match procs w !! pid with
      | Some _ => None
      | None =>
          match prepare (snapshot (cfg w)) r with
          | Ok g => Some (set_proc pid (Waiting g) w)
          | Err resp => Some (set_proc pid (Answered resp) w)
          end
      end
  | Lock pid write_ok =>
      match procs w !! pid, patch_lock w with
      | Some (Waiting g), None =>
          if write_ok then Some (set_file (Some g) (set_lock (Some pid) (set_proc pid (Written g) w)))
          else Some (answer pid (Envelope 500 "config_write_failed") w)
      | _, _ => None
      end
  | Publish pid =>
      match procs w !! pid with
      | Some (Written g) =>
          match compile_and_publish g (cfg w) with
          | (Some info, c) => Some (set_cfg c (set_proc pid (Published info) w))
          | (None, c) => Some (answer pid (Envelope 500 "config_publish_failed") w)
          end
      | _ => None
      end
  | RefreshLoad pid =>
      match procs w !! pid with
      | Some (Published info) => Some (set_proc pid (Loaded info (snapshot (cfg w))) w)
      | _ => None
      end
  | RefreshStore pid =>
      match procs w !! pid with
      | Some (Loaded info snap) => Some (set_current (MkServed snap []) (answer pid (PublishedAs info) w))
      | _ => None
      end
  | Edit f => Some (set_file f w)
  | Reload forced => match reloader w with Idle => Some (reload forced w) | _ => None end
  | ReloadPublish =>
      match reloader w with
      | Read g =>
          match compile_and_publish g (cfg w) with
          | (Some _, c) => Some (set_cfg c (set_reloader Reloaded w))
          | (None, _) => Some (set_reloader Idle w)
          end
      | _ => None
      end
  | ReloadRefreshLoad => match reloader w with Reloaded => Some (set_reloader (Refreshing (snapshot (cfg w))) w) | _ => None end
  | ReloadRefreshStore =>
      match reloader w with Refreshing snap => Some (set_current (MkServed snap []) (set_reloader Idle w)) | _ => None end
  | CanaryLoad => Some (set_canary (Some (current w)) w)
  | CanaryStore weights =>
      match canary w with
      | Some gen => Some (set_current (MkServed (served gen) weights) (set_canary None w))
      | None => None
      end
  end.

Fixpoint run (es : list Event) (w : World) : option World :=
  match es with [] => Some w | e :: es => w' ← fire e w; run es w' end.

Definition init (f : option gateway) : World :=
  MkWorld f (MkConfig empty_snapshot 0) (MkServed empty_snapshot []) None ∅ Idle None.

Definition reachable (w : World) : Prop := ∃ f es, run es (init f) = Some w.

(** * What is published and served *)

Definition snapshot_ok (n : Z) (s : Snapshot) : Prop :=
  generation s <= n ∧ (s = empty_snapshot ∨ compile (snapshot_gateway s) = Some (content_hash s)).

Definition holds_lock (p : Proc) : bool := match p with Written _ | Published _ | Loaded _ _ => true | Waiting _ | Answered _ => false end.

Definition proc_ok (n : Z) (p : Proc) : Prop :=
  match p with Loaded info snap => snapshot_ok n info ∧ snapshot_ok n snap | Published info => snapshot_ok n info | _ => True end.

Record world_ok (w : World) : Prop := {
  ok_counter : generation (snapshot (cfg w)) = counter (cfg w);
  ok_published : snapshot_ok (counter (cfg w)) (snapshot (cfg w));
  ok_served : snapshot_ok (counter (cfg w)) (served (current w));
  ok_procs : ∀ pid p, procs w !! pid = Some p → proc_ok (counter (cfg w)) p;
  ok_reloader : ∀ s, reloader w = Refreshing s → snapshot_ok (counter (cfg w)) s;
  ok_canary : ∀ s, canary w = Some s → snapshot_ok (counter (cfg w)) (served s);
  ok_lock : ∀ pid, patch_lock w = Some pid ↔ ∃ p, procs w !! pid = Some p ∧ holds_lock p = true;
}.

(** A publication adds one generation, that of a configuration that compiles. *)
Definition publishes (c c' : ConfigState) : Prop :=
  c' = c ∨ ∃ g hash, compile g = Some hash ∧ c' = MkConfig (MkSnapshot (counter c + 1) hash g) (counter c + 1).

Lemma publish_one g c : publishes c (compile_and_publish g c).2.
Proof. unfold compile_and_publish, publishes. destruct (compile g) eqn:E; [right; eauto|by left]. Qed.

Ltac fire_cases :=
  repeat match goal with
  | H : match ?x with _ => _ end = Some _ |- _ => let E := fresh "E" in destruct x eqn:E; try done
  | H : Some _ = Some _ |- _ => injection H as <-
  end.

Lemma fire_publishes e w w' : fire e w = Some w' → publishes (cfg w) (cfg w').
Proof.
  destruct e; cbn [fire]; intros Hf; fire_cases; try by left.
  - pose proof (publish_one g (cfg w)) as Hp. by rewrite E1 in Hp.
  - left. unfold reload. repeat case_match; done.
  - pose proof (publish_one g (cfg w)) as Hp. by rewrite E0 in Hp.
Qed.

Lemma snapshot_later n n' s : n <= n' → snapshot_ok n s → snapshot_ok n' s.
Proof. unfold snapshot_ok. intros ? [? ?]. split; [lia|done]. Qed.

Lemma proc_later n n' p : n <= n' → proc_ok n p → proc_ok n' p.
Proof. intros Hn. destruct p; simpl; try done; [by apply snapshot_later|]. intros [? ?]. split; by eapply snapshot_later. Qed.

(** Each part of the world changed alone. *)
Lemma ok_set_cfg c w : publishes (cfg w) c → world_ok w → world_ok (set_cfg c w).
Proof.
  intros [->|(g & hash & Hc & ->)] Hw; [by destruct w|]. set (n := counter (cfg w)). assert (Hn : n <= n + 1) by lia.
  split; cbn; [done| | | | | |by apply Hw].
  - split; [simpl; lia|]. by right.
  - eapply snapshot_later; [exact Hn|]. apply Hw.
  - intros pid p Hp. eapply proc_later; [exact Hn|]. by eapply Hw.
  - intros s Hs. eapply snapshot_later; [exact Hn|]. by apply (ok_reloader w Hw).
  - intros s Hs. eapply snapshot_later; [exact Hn|]. by apply (ok_canary w Hw).
Qed.

Lemma ok_set_proc pid p l w : proc_ok (counter (cfg w)) p → (holds_lock p = true ↔ l = Some pid) →
  (∀ pid', pid' ≠ pid → l = Some pid' ↔ patch_lock w = Some pid') → world_ok w → world_ok (set_lock l (set_proc pid p w)).
Proof.
  intros Hp Hl Hother Hw. split; cbn; try apply Hw.
  - intros pid' p' [[<- <-]|[_ Hp']]%lookup_insert_Some; [done|by eapply Hw].
  - intros pid'. destruct (decide (pid' = pid)) as [->|Hne].
    + rewrite lookup_insert_eq. naive_solver.
    + rewrite lookup_insert_ne, Hother by done. apply (ok_lock w Hw).
Qed.

Lemma ok_move pid p p' w : procs w !! pid = Some p → proc_ok (counter (cfg w)) p' → holds_lock p' = holds_lock p → world_ok w →
  world_ok (set_proc pid p' w).
Proof.
  intros Hp Hp' Hl Hw. change (set_proc pid p' w) with (set_lock (patch_lock w) (set_proc pid p' w)).
  apply ok_set_proc; [done| |done|done]. rewrite Hl, (ok_lock w Hw pid), Hp. naive_solver.
Qed.

Lemma ok_begin pid p w : procs w !! pid = None → holds_lock p = false → proc_ok (counter (cfg w)) p → world_ok w → world_ok (set_proc pid p w).
Proof.
  intros Hp Hl Hp' Hw. change (set_proc pid p w) with (set_lock (patch_lock w) (set_proc pid p w)).
  apply ok_set_proc; [done| |done|done]. rewrite Hl, (ok_lock w Hw pid), Hp. naive_solver.
Qed.

Lemma ok_set_current s w : snapshot_ok (counter (cfg w)) (served s) → world_ok w → world_ok (set_current s w).
Proof. intros Hs Hw. split; cbn; first [exact Hs|apply Hw]. Qed.

Lemma ok_set_reloader r w : (∀ s, r = Refreshing s → snapshot_ok (counter (cfg w)) s) → world_ok w → world_ok (set_reloader r w).
Proof. intros Hs Hw. split; cbn; first [exact Hs|apply Hw]. Qed.

Lemma ok_set_canary s w : (∀ s', s = Some s' → snapshot_ok (counter (cfg w)) (served s')) → world_ok w → world_ok (set_canary s w).
Proof. intros Hs Hw. split; cbn; first [exact Hs|apply Hw]. Qed.

Lemma ok_set_file f w : world_ok w → world_ok (set_file f w).
Proof. intros Hw. split; cbn; apply Hw. Qed.

Lemma ok_answer pid p r w : procs w !! pid = Some p → holds_lock p = true ∨ patch_lock w = None → world_ok w → world_ok (answer pid r w).
Proof.
  intros Hp Hl Hw. apply ok_set_proc; [done|done| |done]. intros pid' Hne. split; [done|]. intros Hp'.
  destruct Hl as [Hl|Hl]; [|congruence]. assert (patch_lock w = Some pid) by (apply (ok_lock w Hw); eauto). congruence.
Qed.

Lemma published_ok g c s c' : compile_and_publish g c = (Some s, c') → publishes c c' ∧ snapshot_ok (counter c') s.
Proof.
  intros E. pose proof (publish_one g c) as Hp. rewrite E in Hp. split; [done|]. unfold compile_and_publish in E.
  destruct (compile g) eqn:Ec; [|done]. injection E as <- <-. split; [done|]. by right.
Qed.

Lemma fire_ok e w w' : world_ok w → fire e w = Some w' → world_ok w'.
Proof.
  intros Hw. destruct e; cbn [fire]; intros Hf; fire_cases.
  - by apply ok_begin.
  - by apply ok_begin.
  - apply ok_set_file, ok_set_proc; [done|done| |done]. intros pid' Hne. split; intros Hx; congruence.
  - eapply ok_answer; eauto.
  - apply published_ok in E1 as [Hp Hs]. change (world_ok (set_proc pid (Published s) (set_cfg c w))).
    eapply ok_move; [exact E|exact Hs|done|]. by apply ok_set_cfg.
  - eapply ok_answer; eauto.
  - eapply ok_move; [exact E| |done|done]. split; [|apply Hw]. apply (ok_procs w Hw pid _ E).
  - apply ok_set_current; [apply (ok_procs w Hw pid _ E)|]. eapply ok_answer; eauto.
  - by apply ok_set_file.
  - unfold reload. repeat case_match; try done. by apply ok_set_reloader.
  - apply published_ok in E0 as [Hp Hs]. change (world_ok (set_reloader Reloaded (set_cfg c w))). apply ok_set_reloader; [done|]. by apply ok_set_cfg.
  - by apply ok_set_reloader.
  - apply ok_set_reloader; [|done]. intros s [= <-]. apply Hw.
  - apply ok_set_current; [by apply (ok_reloader w Hw)|]. by apply ok_set_reloader.
  - apply ok_set_canary; [|done]. intros s [= <-]. apply Hw.
  - apply ok_set_current; [exact (ok_canary w Hw _ E)|]. by apply ok_set_canary.
Qed.

Lemma init_ok f : world_ok (init f).
Proof.
  assert (He : snapshot_ok 0 empty_snapshot) by (split; [done|by left]).
  split; cbn; try done. intros pid. rewrite lookup_empty. naive_solver.
Qed.

Lemma run_ok es w w' : world_ok w → run es w = Some w' → world_ok w'.
Proof.
  revert w. induction es as [|e es IH]; intros w Hw; simpl; [by intros [= <-]|].
  destruct (fire e w) as [w1|] eqn:E; simpl; [|done]. apply IH. by eapply fire_ok.
Qed.

(** C37: Only validated configurations are published and served.  In every reachable
    state the published snapshot carries the newest generation, it and the one the
    data plane serves are the empty one or compiled, the served one is no newer,
    and one request at a time holds the lock; every step keeps the published
    snapshot or replaces it by one that compiles, of the next generation, so a
    refused configuration changes nothing. *)
Theorem published_valid (w : World) (Hw : reachable w) :
  generation (snapshot (cfg w)) = counter (cfg w) ∧
  snapshot_ok (counter (cfg w)) (snapshot (cfg w)) ∧ snapshot_ok (counter (cfg w)) (served (current w)) ∧
  (∀ pid pid' p p', procs w !! pid = Some p → procs w !! pid' = Some p' → holds_lock p = true → holds_lock p' = true → pid = pid') ∧
  (∀ e w', fire e w = Some w' → publishes (cfg w) (cfg w')).
Proof.
  destruct Hw as (f & es & Hrun). apply run_ok in Hrun; [|apply init_ok]. split_and!; try apply Hrun.
  - intros pid pid' p p' Hp Hp' Hl Hl'. assert (patch_lock w = Some pid) by (apply (ok_lock w Hrun); eauto).
    assert (patch_lock w = Some pid') by (apply (ok_lock w Hrun); eauto). congruence.
  - intros e w'. apply fire_publishes.
Qed.

(** * Runs in which a load and its store are not apart *)

Inductive Step : Type :=
  | One (e : Event)
  | Refresh (pid : nat)
  | ReloadRefresh
  | Canary (weights : list (string * Z)).

(** Neither a load nor a store of the data plane's refreshes. *)
Definition apart (e : Event) : Prop :=
  match e with
  | RefreshLoad _ | RefreshStore _ | ReloadRefreshLoad | ReloadRefreshStore | CanaryLoad | CanaryStore _ => False
  | _ => True
  end.

Definition events_of (s : Step) : list Event :=
  match s with
  | One e => [e]
  | Refresh pid => [RefreshLoad pid; RefreshStore pid]
  | ReloadRefresh => [ReloadRefreshLoad; ReloadRefreshStore]
  | Canary weights => [CanaryLoad; CanaryStore weights]
  end.

Definition whole (s : Step) : Prop := match s with One e => apart e | _ => True end.

(** No refresh is due: every publication has been followed by one. *)
Definition settled (w : World) : Prop :=
  (∀ pid info, procs w !! pid ≠ Some (Published info)) ∧ reloader w ≠ Reloaded.

Lemma settled_forall w :
  map_Forall (λ _ p, match p with Published _ => false | _ => true end = true) (procs w) → reloader w ≠ Reloaded → settled w.
Proof. intros Hp Hr. split; [|done]. intros pid info E. by apply Hp in E. Qed.

Record fresh_ok (w : World) : Prop := {
  fresh_procs : ∀ pid info snap, procs w !! pid ≠ Some (Loaded info snap);
  fresh_reloader : ∀ s, reloader w ≠ Refreshing s;
  fresh_served : settled w → served (current w) = snapshot (cfg w);
}.

Lemma run_app es es' w : run (es ++ es') w = (run es w ≫= run es').
Proof. revert w. induction es as [|e es IH]; intros w; simpl; [done|]. destruct (fire e w); simpl; [apply IH|done]. Qed.

(** A process that moves, none of its states being a loaded one. *)
Lemma fresh_move w pid p l f : fresh_ok w → (∀ info, procs w !! pid ≠ Some (Published info)) → (∀ info snap, p ≠ Loaded info snap) →
  (∀ info, p ≠ Published info) → fresh_ok (set_file f (set_lock l (set_proc pid p w))).
Proof.
  intros Hw Hold Hp Hp'. split; cbn.
  - intros pid' info snap. destruct (decide (pid' = pid)) as [->|]; [rewrite lookup_insert_eq; congruence|].
    rewrite lookup_insert_ne by done. apply Hw.
  - apply Hw.
  - intros [H1 H2]. apply Hw. split; [|done]. intros pid' info Hin. destruct (decide (pid' = pid)) as [->|Hne]; [by eapply Hold|].
    apply (H1 pid' info). cbn. by rewrite lookup_insert_ne.
Qed.

Lemma fresh_step s w w' : whole s → fresh_ok w → run (events_of s) w = Some w' → fresh_ok w'.
Proof.
  intros Hs Hw. destruct s as [e|pid| |weights]; cbn [events_of run].
  - destruct (fire e w) as [w1|] eqn:Hf; simpl; [|done]. intros [= <-]. destruct e; try done; cbn [fire] in Hf; fire_cases.
    + change (set_proc pid (Waiting a) w) with (set_file (file w) (set_lock (patch_lock w) (set_proc pid (Waiting a) w))).
      apply fresh_move; [done|rewrite E; done|done|done].
    + change (set_proc pid (Answered e) w) with (set_file (file w) (set_lock (patch_lock w) (set_proc pid (Answered e) w))).
      apply fresh_move; [done|rewrite E; done|done|done].
    + apply fresh_move; [done|rewrite E; done|done|done].
    + change (answer pid ?r w) with (set_file (file w) (set_lock None (set_proc pid (Answered r) w))).
      apply fresh_move; [done|rewrite E; done|done|done].
    + split; cbn; [|apply Hw|].
      * intros pid' info snap. destruct (decide (pid' = pid)) as [->|]; [by rewrite lookup_insert_eq|].
        rewrite lookup_insert_ne by done. apply Hw.
      * intros [Q1 _]. destruct (Q1 pid s). cbn. apply lookup_insert_eq.
    + change (answer pid ?r w) with (set_file (file w) (set_lock None (set_proc pid (Answered r) w))).
      apply fresh_move; [done|rewrite E; done|done|done].
    + split; cbn; [apply Hw|apply Hw|]. intros [Q1 Q2]. apply Hw. by split.
    + unfold reload. repeat case_match; try done. split; cbn; [apply Hw|done|]. intros [Q1 _]. apply Hw. split; [done|congruence].
    + split; cbn; [apply Hw|done|]. by intros [_ ?].
    + split; cbn; [apply Hw|done|]. intros [Q1 _]. apply Hw. split; [done|congruence].
  - cbn [fire]. destruct (procs w !! pid) as [[]|] eqn:E; try done. simpl. rewrite lookup_insert_eq. simpl. intros [= <-].
    split; cbn; [|apply Hw|done]. intros pid' i sn. rewrite insert_insert_eq. destruct (decide (pid' = pid)) as [->|]; [by rewrite lookup_insert_eq|].
    rewrite lookup_insert_ne by done. apply Hw.
  - cbn [fire]. destruct (reloader w) eqn:E; try done. simpl. intros [= <-]. split; cbn; [apply Hw|done|done].
  - cbn [fire]. simpl. intros [= <-]. split; cbn; apply Hw.
Qed.

Lemma fresh_run ss w w' : Forall whole ss → fresh_ok w → run (ss ≫= events_of) w = Some w' → fresh_ok w'.
Proof.
  intros Hs. revert w. induction Hs as [|s ss Hs _ IH]; intros w Hw; [by intros [= <-]|].
  change ((s :: ss) ≫= events_of) with (events_of s ++ (ss ≫= events_of)). rewrite run_app.
  destruct (run (events_of s) w) as [w1|] eqn:E; simpl; [|done]. apply IH. by eapply fresh_step.
Qed.

(** C36: The data plane serves the published configuration.  In every run whose
    refreshes and weight changes are not split by other events, once each
    publication has been followed by its refresh the snapshot that the data plane
    serves is the one published last, whatever changed its weights in between. *)
Theorem served_latest (f : option gateway) (ss : list Step) (w : World) (Hwhole : Forall whole ss)
    (Hrun : run (ss ≫= events_of) (init f) = Some w) (Hsettled : settled w) :
  served (current w) = snapshot (cfg w).
Proof.
  apply fresh_run in Hrun; [by apply Hrun|done|]. split; cbn; [|done|done]. intros pid info snap. by rewrite lookup_empty.
Qed.

(** * What a request asks for *)

(** [serde] fills an entity's name from the field of that name. *)
Class SchemaLaws : Prop := value_name : ∀ k v e, from_value k v = Some e → entity_name e = json_name v.

Lemma find_with k k' l g name : find_entity (with_collection k l g) k' name =
  if decide (k' = k) then snd <$> list_find (named name) l else find_entity g k' name.
Proof. unfold find_entity. by destruct k, k'. Qed.

Lemma others_with k l g : others (with_collection k l g) = others g.
Proof. by destruct k. Qed.

Lemma find_next (o : option (nat * Entity)) : snd <$> (prod_map S id <$> o) = snd <$> o.
Proof. by destruct o as [[]|]. Qed.

Lemma find_snoc name l e : snd <$> list_find (named name) (l ++ [e]) =
  match snd <$> list_find (named name) l with Some e' => Some e' | None => if decide (named name e) then Some e else None end.
Proof.
  induction l as [|x l IH]; simpl; [by case_decide|]. destruct (decide (named name x)); [done|]. by rewrite !find_next.
Qed.

Lemma find_insert name l i e e' : list_find (named name) l = Some (i, e') → named name e → ∀ n,
  snd <$> list_find (named n) (<[i := e]> l) = if decide (n = name) then Some e else snd <$> list_find (named n) l.
Proof.
  intros Hf He n. revert i Hf. induction l as [|x l IH]; intros i Hf; [done|]. simpl in Hf. destruct (decide (named name x)) as [Hx|Hx].
  - injection Hf as <- <-. cbn [insert list_insert list_find]. unfold named in *. repeat case_decide; simpl; congruence.
  - destruct (list_find (named name) l) as [[i' y]|] eqn:E; [|done]. injection Hf as <- ->. specialize (IH i' eq_refl).
    change (<[S i' := e]> (x :: l)) with (x :: <[i' := e]> l). cbn [list_find]. destruct (decide (named n x)) as [Hn|Hn].
    + simpl. rewrite decide_False; [done|]. unfold named in *. congruence.
    + rewrite !find_next. exact IH.
Qed.

Lemma find_filter name l n : snd <$> list_find (named n) (filter (λ e, ¬ named name e) l) =
  if decide (n = name) then None else snd <$> list_find (named n) l.
Proof.
  induction l as [|x l IH]; [by case_decide|]. rewrite filter_cons. unfold named in *. destruct (decide (entity_name x = name)) as [Hx|Hx].
  - rewrite decide_False by tauto. rewrite IH. cbn [list_find]. repeat case_decide; try done; try congruence.
    by rewrite find_next.
  - rewrite decide_True by done. cbn [list_find]. destruct (decide (entity_name x = n)) as [Hn|Hn].
    + rewrite decide_False by congruence. done.
    + rewrite !find_next. exact IH.
Qed.

Lemma dry_run_ok g g' : dry_run g = Ok g' ↔ g' = g ∧ is_Some (compile g) ∧ yaml_ok g = true.
Proof. unfold dry_run. destruct (compile g); [|by split; [done|intros (_ & [? ?] & _)]]. destruct (yaml_ok g); naive_solver. Qed.

Lemma hex_no_quote fuel z acc : Forall (λ c, c ≠ 34%N) acc → Forall (λ c, c ≠ 34%N) (hex_digits fuel z acc).
Proof.
  revert z acc. induction fuel as [|fuel IH]; intros z acc Ha; simpl; [done|].
  assert (Hc : hex_unit (z mod 16) ≠ 34%N).
  { unfold hex_unit. pose proof (Z.mod_pos_bound z 16 ltac:(lia)). destruct (Z.ltb_spec (z mod 16) 10); lia. }
  destruct (z <? 16); [by constructor|]. apply IH. by constructor.
Qed.

Lemma no_quote_tidy s : Forall (λ c, c ≠ 34%N) s → tidy (N.eqb 34) s = true.
Proof.
  intros Hs. assert (He : ∀ s, Forall (λ c, c ≠ 34%N) s → starts_tidy (N.eqb 34) s = true).
  { intros t Ht. destruct Ht as [|c t Hc _]; [done|]. cbn [starts_tidy]. by rewrite (proj2 (N.eqb_neq 34 c)) by congruence. }
  unfold tidy. apply andb_true_iff. split; apply He; [done|]. by apply Forall_reverse.
Qed.

Lemma etag_inner hash : trim_both (N.eqb 34) (etag hash) = u "0x" ++ format_hex 0 hash.
Proof.
  assert (Hin : Forall (λ c, c ≠ 34%N) (u "0x" ++ format_hex 0 hash)).
  { apply Forall_app_2; [by repeat constructor|].
    change (format_hex 0 hash) with (hex_digits 16 hash []). by apply hex_no_quote. }
  change (etag hash) with ([34%N] ++ (u "0x" ++ format_hex 0 hash) ++ [34%N]). apply trim_around; [by repeat constructor|by repeat constructor|by apply no_quote_tidy].
Qed.

Lemma etag_trim hash : trim (etag hash) = etag hash.
Proof.
  apply trim_tidy. unfold etag. rewrite app_assoc. unfold tidy. apply andb_true_iff. split; [done|].
  by rewrite app_comm_cons, reverse_app.
Qed.

(** The tag of a configuration names its hash. *)
Lemma etag_exact s hash : 0 <= hash < 2 ^ 64 → 0 <= content_hash s < 2 ^ 64 →
  precondition s (Some (Some (etag hash))) = true ↔ content_hash s = hash.
Proof.
  intros Hh Hs. unfold precondition, check_if_match. rewrite etag_trim, bool_decide_eq_false_2 by done. rewrite !etag_inner, bool_decide_eq_true.
  split; [|by intros <-]. intros E. apply app_inv_head in E. symmetry. by apply (format_hex_inj 0).
Qed.

(** A collection looked up by name, before and after. *)
Definition only_changes (g g' : gateway) (k : EntityKind) (name : jstr) (entry : option Entity) : Prop :=
  others g' = others g ∧ ∀ k' n, find_entity g' k' n = if decide (k' = k ∧ n = name) then entry else find_entity g k' n.

Definition asked (s : Snapshot) (r : Request) (g' : gateway) : Prop :=
  let g := snapshot_gateway s in
  match r with
  | Create k m (Json v) =>
      precondition s m = true ∧ json_name v ≠ [] ∧ find_entity g k (json_name v) = None ∧
      ∃ e, from_value k v = Some e ∧ only_changes g g' k (json_name v) (Some e)
  | Replace k name m (Json v) =>
      precondition s m = true ∧ is_Some (find_entity g k name) ∧
      ∃ e, from_value k v = Some e ∧ (json_name v = name → only_changes g g' k name (Some e))
  | Delete k name m => precondition s m = true ∧ is_Some (find_entity g k name) ∧ only_changes g g' k name None
  | PatchConfig (Parsed new) => g' = new
  | _ => False
  end.

Lemma create_asked `{!SchemaLaws} s k m b g' : create_entity s k m b = Ok g' → is_Some (compile g') ∧ asked s (Create k m b) g'.
Proof.
  unfold create_entity. destruct (precondition s m) eqn:Em; [|done]. destruct b as [| | |v]; try done. cbn [negb read_json asked].
  destruct (bool_decide_reflect (json_name v = [])) as [|Hn]; [done|]. destruct (find_entity _ k (json_name v)) eqn:Ef; [done|].
  unfold add_entity. destruct (from_value k v) as [e|] eqn:Ev; [|done]. cbn [mbind option_bind]. intros (-> & Hc & _)%dry_run_ok.
  split; [done|]. split_and!; [done|done|done|]. exists e. split; [done|]. split; [apply others_with|]. intros k' n. rewrite find_with.
  destruct (decide (k' = k)) as [->|Hk]; [|by rewrite decide_False by tauto]. rewrite find_snoc. fold (find_entity (snapshot_gateway s) k n).
  assert (He : named (json_name v) e) by (by eapply value_name). unfold named in *.
  destruct (decide (n = json_name v)) as [->|Hne].
  - rewrite decide_True, Ef, decide_True by done. done.
  - rewrite (decide_False (P := k = k ∧ _)) by tauto. destruct (find_entity _ k n); [done|]. rewrite decide_False by congruence. done.
Qed.

Lemma replace_asked `{!SchemaLaws} s k name m b g' : replace_entity s k name m b = Ok g' → is_Some (compile g') ∧ asked s (Replace k name m b) g'.
Proof.
  unfold replace_entity. destruct (precondition s m) eqn:Em; [|done]. destruct b as [| | |v]; try done. cbn [negb read_json asked].
  destruct (find_entity _ k name) as [old|] eqn:Ef; [|done]. unfold replace_entity_in_gateway. destruct (from_value k v) as [e|] eqn:Ev; [|done].
  cbn [mbind option_bind]. destruct (list_find (named name) (collection k (snapshot_gateway s))) as [[i e']|] eqn:El; [|done].
  intros (-> & Hc & _)%dry_run_ok. split; [done|]. split_and!; [done|done|]. exists e. split; [done|]. intros Hn.
  split; [apply others_with|]. intros k' n. rewrite find_with. destruct (decide (k' = k)) as [->|Hk]; [|by rewrite decide_False by tauto].
  rewrite (find_insert name _ _ _ _ El) by (unfold named; rewrite <- Hn; by eapply value_name). fold (find_entity (snapshot_gateway s) k n).
  repeat case_decide; tauto.
Qed.

Lemma delete_asked s k name m g' : delete_entity s k name m = Ok g' → is_Some (compile g') ∧ asked s (Delete k name m) g'.
Proof.
  unfold delete_entity. destruct (precondition s m) eqn:Em; [|done]. cbn [negb asked]. destruct (find_entity _ k name) eqn:Ef; [|done].
  intros (-> & Hc & _)%dry_run_ok. split; [done|]. split_and!; [done|done|]. split; [apply others_with|]. intros k' n. unfold remove_entity.
  rewrite find_with. destruct (decide (k' = k)) as [->|Hk]; [|by rewrite decide_False by tauto]. rewrite find_filter.
  fold (find_entity (snapshot_gateway s) k n). repeat case_decide; tauto.
Qed.

Lemma prepare_asked `{!SchemaLaws} s r g' : prepare s r = Ok g' → is_Some (compile g') ∧ asked s r g'.
Proof.
  destruct r as [k m b|k name m b|k name m|b]; cbn [prepare]; [apply create_asked|apply replace_asked|apply delete_asked|].
  destruct b; try done. cbn [patch_config asked]. by intros (-> & ? & _)%dry_run_ok.
Qed.

(** The rest of a request, once prepared. *)
Definition finish (pid : nat) : list Event := [Lock pid true; Publish pid; RefreshLoad pid; RefreshStore pid].

Definition published (w : World) (g : gateway) (hash : Z) : Snapshot := MkSnapshot (counter (cfg w) + 1) hash g.

Lemma finish_run w pid g hash : procs w !! pid = Some (Waiting g) → patch_lock w = None → compile g = Some hash →
  run (finish pid) w =
  Some (MkWorld (Some g) (MkConfig (published w g hash) (counter (cfg w) + 1)) (MkServed (published w g hash) []) None
    (<[pid := Answered (PublishedAs (published w g hash))]> (procs w)) (reloader w) (canary w)).
Proof.
  destruct w as [f c cu lk ps rl cn]. cbn [procs patch_lock cfg reloader canary]. intros Hp -> Hc. unfold finish, run.
  cbn [fire procs patch_lock]. rewrite Hp. cbn. rewrite lookup_insert_eq. unfold compile_and_publish. rewrite Hc. cbn.
  rewrite lookup_insert_eq. cbn. rewrite lookup_insert_eq. unfold set_current, answer, set_lock, set_proc. cbn. by rewrite !insert_insert_eq.
Qed.

(** C35: What a change does when no other runs meanwhile.  A request that is refused
    changes nothing; one that is not was made on the configuration that its
    If-Match names, and publishes, writes and serves exactly what it asks for: an
    entity more, another one under its name, one less, or the new text, with all
    other entities as they were. *)
Theorem change_alone `{!SchemaLaws} (w : World) (pid : nat) (r : Request)
    (Hfree : procs w !! pid = None ∧ patch_lock w = None) :
  match prepare (snapshot (cfg w)) r with
  | Err resp => fire (Begin pid r) w = Some (set_proc pid (Answered resp) w)
  | Ok g =>
      asked (snapshot (cfg w)) r g ∧
      ∃ hash w', compile g = Some hash ∧ run (Begin pid r :: finish pid) w = Some w' ∧
        file w' = Some g ∧ snapshot (cfg w') = published w g hash ∧ served (current w') = published w g hash ∧
        procs w' !! pid = Some (Answered (PublishedAs (published w g hash)))
  end.
Proof.
  destruct Hfree as [Hp Hl]. pose proof (prepare_asked (snapshot (cfg w)) r) as Ha. cbn [run fire]. rewrite Hp.
  destruct (prepare (snapshot (cfg w)) r) as [g|resp]; [|done]. destruct (Ha g eq_refl) as [[hash Hc] Hasked].
  split; [done|]. exists hash. eexists. split; [done|]. cbn [mbind option_bind].
  rewrite (finish_run _ pid g hash) by (try done; apply lookup_insert_eq). split; [done|]. cbn. split_and!; try done. by rewrite lookup_insert_eq.
Qed.

(** The entry that a request is about. *)
Definition target (r : Request) : option (EntityKind * jstr) :=
  match r with
  | Create k _ (Json v) => Some (k, json_name v)
  | Replace k name _ (Json v) => if bool_decide (json_name v = name) then Some (k, name) else None
  | Delete k name _ => Some (k, name)
  | _ => None
  end.

Lemma target_only `{!SchemaLaws} s r g' k n : prepare s r = Ok g' → target r = Some (k, n) →
  ∃ entry, only_changes (snapshot_gateway s) g' k n entry.
Proof.
  intros [_ Ha]%prepare_asked. destruct r as [k' m [| | |v]|k' name m [| | |v]|k' name m|]; try done; cbn [target asked] in *.
  - intros [= <- <-]. naive_solver.
  - case_bool_decide; [|done]. intros [= <- <-]. naive_solver.
  - intros [= <- <-]. naive_solver.
Qed.

(** C34: Concurrent changes lose one another.  Two requests that begin on the same
    configuration, each with the If-Match that names it or none, are both told
    that they were published, and the second one's configuration is made from the
    first configuration: all entries but its own are as they were before the first
    request, so what that one changed is gone. *)
Theorem change_lost `{!SchemaLaws} (w : World) (p1 p2 : nat) (r1 r2 : Request) (g1 g2 : gateway) (Hne : p1 ≠ p2)
    (Hfree : procs w !! p1 = None ∧ procs w !! p2 = None ∧ patch_lock w = None)
    (Hr1 : prepare (snapshot (cfg w)) r1 = Ok g1) (Hr2 : prepare (snapshot (cfg w)) r2 = Ok g2)
    (Hc : is_Some (compile g1) ∧ is_Some (compile g2)) :
  ∃ w' s1 s2, run (Begin p1 r1 :: Begin p2 r2 :: finish p1 ++ finish p2) w = Some w' ∧
    procs w' !! p1 = Some (Answered (PublishedAs s1)) ∧ snapshot_gateway s1 = g1 ∧
    procs w' !! p2 = Some (Answered (PublishedAs s2)) ∧ snapshot (cfg w') = s2 ∧ snapshot_gateway s2 = g2 ∧
    (∀ k2 n2, target r2 = Some (k2, n2) → ∀ k n, ¬ (k = k2 ∧ n = n2) → find_entity g2 k n = find_entity (snapshot_gateway (snapshot (cfg w))) k n).
Proof.
  destruct Hfree as (Hp1 & Hp2 & Hl), Hc as [[h1 Hh1] [h2 Hh2]]. cbn [run fire]. rewrite Hp1, Hr1. cbn [mbind option_bind]. cbn [procs set_proc cfg].
  rewrite lookup_insert_ne by done. rewrite Hp2, Hr2. cbn [mbind option_bind]. rewrite run_app.
  rewrite (finish_run _ p1 g1 h1); [|cbn; by rewrite lookup_insert_ne, lookup_insert_eq by done|done|done]. cbn [mbind option_bind].
  rewrite (finish_run _ p2 g2 h2); [|cbn; by rewrite lookup_insert_ne, lookup_insert_eq by done|done|done].
  eexists _, _, _. split; [done|]. cbn. rewrite lookup_insert_ne, lookup_insert_eq by done. split; [done|]. split; [done|].
  rewrite lookup_insert_eq. split_and!; try done. intros k2 n2 Ht k n Hkn. destruct (target_only _ _ _ _ _ Hr2 Ht) as (entry & _ & He).
  by rewrite He, decide_False.
Qed.

(** A weight change can undo a reload.  When the file is reloaded between the load
    and the store of a weight change, the data plane goes on serving the old
    configuration with everything settled, and reloading the file again does
    nothing, since the published one is the new one already. *)
Theorem reload_undone (w : World) (g : gateway) (hash : Z) (weights : list (string * Z))
    (Hidle : reloader w = Idle) (Hg : compile g = Some hash) (Hnew : content_hash (snapshot (cfg w)) ≠ hash) :
  ∃ w', run [CanaryLoad; Edit (Some g); Reload false; ReloadPublish; ReloadRefreshLoad; ReloadRefreshStore; CanaryStore weights] w = Some w' ∧
    snapshot_gateway (snapshot (cfg w')) = g ∧ served (current w') = served (current w) ∧ procs w' = procs w ∧ reloader w' = Idle ∧
    fire (Reload false) w' = Some w'.
Proof.
  destruct w as [f c cu lk ps rl cn]. cbn in Hidle, Hnew. subst rl. unfold run. cbn [fire set_canary set_file file reloader current mbind option_bind].
  cbn. rewrite Hg, bool_decide_eq_false_2 by congruence. cbn. unfold compile_and_publish. rewrite Hg. cbn.
  eexists. split; [done|]. cbn. split_and!; try done. unfold reload. cbn. by rewrite Hg, bool_decide_eq_true_2 by done.
Qed.

End Publish.

(** * A sample: entities with a name and a number, refused when a number is negative *)

Module PublishSample.

Definition numbers (g : Gateway (jstr * Z) unit) : list Z :=
  snd <$> routes g ++ services g ++ upstreams g ++ consumers g ++ policies g.

#[global] Instance schema : Schema := {|
  Entity := jstr * Z; Others := unit; Value := jstr * Z; entity_name := fst; json_name := fst; from_value _ v := Some v;
  compile g := if forallb (Z.leb 0) (numbers g) then Some (fold_left (λ h n, (31 * h + n + 1) mod 2 ^ 64) (numbers g) 7) else None;
  yaml_ok _ := true; no_others := tt |}.

#[global] Instance laws : SchemaLaws.
Proof. intros k v e [= <-]. done. Qed.

Definition add (k : EntityKind) (name : string) (n : Z) : Request := Create k None (Json (u name, n)).

(** The file's configuration is loaded, then a route is added. *)
Definition first : Gateway (jstr * Z) unit := MkGateway [(u "home", 1)] [(u "web", 2)] [] [] [] tt.

Definition boot : list Step := [One (Reload false); One ReloadPublish; ReloadRefresh].

Definition routed : list Step := [One (Begin 1 (add Routes "api" 3)); One (Lock 1 true); One (Publish 1); Refresh 1; Canary [("web", 9)]].

Definition script : list Event := (boot ++ routed) ≫= events_of.

(** The states after starting, and after the script. *)
Definition booted : World := Eval vm_compute in default (init None) (run (boot ≫= events_of) (init (Some first))).
Definition scripted : World := Eval vm_compute in default (init None) (run script (init (Some first))).

Lemma scripted_run : run script (init (Some first)) = Some scripted.
Proof. reflexivity. Qed.

End PublishSample.
Import PublishSample.

Lemma published_valid_witness :
  ∃ w, reachable w ∧ generation (snapshot (cfg w)) = 2 ∧ snapshot_ok (counter (cfg w)) (served (current w)).
Proof.
  assert (Hr : reachable scripted) by (exists (Some first), script; exact scripted_run). exists scripted.
  split; [exact Hr|]. split; [reflexivity|]. exact (proj1 (proj2 (proj2 (published_valid _ Hr)))).
Defined.

Lemma served_latest_witness :
  run script (init (Some first)) = Some scripted ∧ overrides (current scripted) = [("web"%string, 9)] ∧
  served (current scripted) = snapshot (cfg scripted).
Proof.
  split; [exact scripted_run|]. split; [reflexivity|]. refine (served_latest (Some first) (boot ++ routed) _ _ scripted_run _).
  - repeat constructor.
  - apply settled_forall; [apply (bool_decide_unpack _); exact I|discriminate].
Defined.

Lemma change_alone_witness :
  ∃ w', run (Begin 4 (add Services "auth" 6) :: finish 4) booted = Some w' ∧
    find_entity (snapshot_gateway (served (current w'))) Services (u "auth") = Some (u "auth", 6).
Proof.
  pose proof (change_alone booted 4 (add Services "auth" 6) (conj eq_refl eq_refl)) as Hc.
  assert (E : prepare (snapshot (cfg booted)) (add Services "auth" 6) =
    Ok (MkGateway [(u "home", 1)] [(u "web", 2); (u "auth", 6)] [] [] [] tt)) by reflexivity. rewrite E in Hc.
  destruct Hc as (_ & hash & w' & _ & Hrun & _ & _ & Hs & _). exists w'. split; [exact Hrun|]. rewrite Hs. reflexivity.
Defined.

Lemma change_lost_witness :
  ∃ w', run (Begin 1 (add Routes "api" 3) :: Begin 2 (add Routes "docs" 4) :: finish 1 ++ finish 2) booted = Some w' ∧
    find_entity (snapshot_gateway (snapshot (cfg w'))) Routes (u "docs") = Some (u "docs", 4) ∧
    find_entity (snapshot_gateway (snapshot (cfg w'))) Routes (u "api") = None.
Proof.
  destruct (change_lost booted 1 2 (add Routes "api" 3) (add Routes "docs" 4)
    (MkGateway [(u "home", 1); (u "api", 3)] [(u "web", 2)] [] [] [] tt)
    (MkGateway [(u "home", 1); (u "docs", 4)] [(u "web", 2)] [] [] [] tt)) as (w' & s1 & s2 & Hrun & _ & _ & _ & Hs & Hg & Hkeep).
  - discriminate.
  - split_and!; reflexivity.
  - reflexivity.
  - reflexivity.
  - split; eexists; reflexivity.
  - exists w'. split; [exact Hrun|]. rewrite Hs, Hg. split; [reflexivity|].
    rewrite (Hkeep Routes (u "docs") eq_refl); [reflexivity|]. intros [_ E]. discriminate E.
Defined.

Lemma reload_undone_witness :
  ∃ w', run [CanaryLoad; Edit (Some (MkGateway [] [(u "web", 5)] [] [] [] tt)); Reload false; ReloadPublish; ReloadRefreshLoad;
      ReloadRefreshStore; CanaryStore [("web"%string, 90)]] booted = Some w' ∧
    find_entity (snapshot_gateway (served (current w'))) Routes (u "home") = Some (u "home", 1) ∧ fire (Reload false) w' = Some w'.
Proof.
  destruct (reload_undone booted (MkGateway [] [(u "web", 5)] [] [] [] tt) (31 * 7 + 6) [("web"%string, 90)]) as (w' & Hrun & _ & Hs & _ & _ & Hr).
  - reflexivity.
  - reflexivity.
  - discriminate.
  - exists w'. split; [exact Hrun|]. split; [rewrite Hs; reflexivity|exact Hr].
Defined.
