(* ===== verification/Canary.v ===== *)
(** The auto-canary controller (src/crates/dwara-core/src/dataplane/canary.rs) and
    the weight changes it asks the data plane for (dataplane/proxy.rs
    [apply_service_split_weights], [apply_ai_canary_weights]).

    A controller belongs to the generation that a reload compiles; generations
    made by weight changes share it, so controllers live in a store and a
    generation names its own.  The runner evaluates one controller, then applies
    its actions one at a time to the generation that is current by then.  How two
    stores of a generation can overlap is the subject of Publish; here an
    application is one step.  Metrics are left out, the second clock is an argument. *)

From S2P Require Import Prelude JsNumber FloatOrder Hash Breaker RateEngine Split.
From stdpp Require Import sorting.
Local Open Scope Z_scope.

(** * Configuration *)

Inductive CanaryMetric : Type := ErrorRate | LatencyP99 | LatencyP95 | LatencyP50.

Record CanaryRule : Type := MkRule { metric : CanaryMetric; threshold : num }.

Record CanaryAnalysis : Type := MkAnalysis {
  enabled : bool; window_seconds : Z; step : Z; min_requests : Z; cooldown_seconds : Z; promote : CanaryRule; rollback : CanaryRule }.

(** A service with its split's targets, and an AI alias with its canary versions:
    only names, weights and the analysis.  An alias with a [routing_policy] or an
    [ab_test] is composed of other aliases. *)
Record Service : Type := MkService { service_name : string; targets : option (list (string * Z)); split_analysis : option CanaryAnalysis }.

Record AiModel : Type := MkModel {
  alias : string; versions : list (string * Z); model_analysis : option CanaryAnalysis; composed : bool }.

Record Gateway : Type := MkGateway { gw_upstreams : list string; gw_services : list Service; gw_models : list AiModel }.

(** * One side *)

Record CanarySide : Type := MkSide { requests : Z; errors : Z; latency_samples : list num }.

Definition MAX_LATENCY_SAMPLES : nat := 1000.

Definition new_side : CanarySide := MkSide 0 0 [].

Definition record (status : Z) (latency_ms : num) (s : CanarySide) : CanarySide :=
  MkSide (add_u64 (requests s) 1) (if 500 <=? status then add_u64 (errors s) 1 else errors s)
    ((if (MAX_LATENCY_SAMPLES <=? length (latency_samples s))%nat then tail (latency_samples s) else latency_samples s) ++ [latency_ms]).

Definition f64_zero : num := S754_zero false.

Definition error_rate (s : CanarySide) : num :=
  if requests s =? 0 then f64_zero else ndiv (num_of_Z (errors s)) (num_of_Z (requests s)).

(** [sort_by], which is stable, with [partial_cmp]: samples are never NaN. *)
Fixpoint insert_sample (x : num) (l : list num) : list num :=
  match l with
  | [] => [x]
  | y :: l' => if nlt y x then y :: insert_sample x l' else x :: l
  end.

Definition sort_samples (l : list num) : list num := foldr insert_sample [] l.

(** [round() as usize]. *)
Definition round_usize (x : num) : nat :=
  match x with
  | S754_finite false m e => let '(nu, de) := frac_of (Z.pos m) e in Z.to_nat ((2 * nu + de) / (2 * de))
  | _ => O
  end.

Definition rank_of (pct : num) (n : nat) : nat :=
  round_usize (nmul (ndiv pct (num_of_Z 100)) (nsub (num_of_Z (Z.of_nat n)) (num_of_Z 1))).

Definition percentile (pct : num) (s : CanarySide) : num :=
  match latency_samples s with
  | [] => f64_zero
  | _ =>
      let sorted := sort_samples (latency_samples s) in
      let idx := rank_of pct (length sorted) in
      nth (Nat.min idx (length sorted - 1)) sorted f64_zero
  end.

Definition metric_for (s : CanarySide) (m : CanaryMetric) : num :=
  match m with
  | ErrorRate => error_rate s
  | LatencyP99 => percentile (num_of_Z 99) s
  | LatencyP95 => percentile (num_of_Z 95) s
  | LatencyP50 => percentile (num_of_Z 50) s
  end.

(** * A group *)

Inductive CanaryKind : Type := OfService | OfAi.

Record CanaryGroup : Type := MkGroup {
  name : string; kind : CanaryKind; config : CanaryAnalysis; baseline : CanarySide; canary : CanarySide;
  last_adjustment : Z; current_canary_weight : Z; total_weight : Z }.

Record CanaryAction : Type := MkAction {
  group : string; action_kind : CanaryKind; new_canary_weight : Z; reason : string; metric_value : num; action_threshold : num }.

Definition new_group (nm : string) (k : CanaryKind) (c : CanaryAnalysis) (total initial : Z) : CanaryGroup :=
  MkGroup nm k c new_side new_side 0 initial total.

Definition act (g : CanaryGroup) (weight : Z) (why : string) (value : num) (limit : num) : option CanaryAction :=
  if weight =? current_canary_weight g then None else Some (MkAction (name g) (kind g) weight why value limit).

(** [CanaryGroup::evaluate]. *)
Definition evaluate (now : Z) (g : CanaryGroup) : option CanaryAction :=
  let c := config g in
  if (0 <? last_adjustment g) && (saturating_sub now (last_adjustment g) <? cooldown_seconds c) then None
  else if add_u64 (requests (baseline g)) (requests (canary g)) <? min_requests c then None
  else
    let weight := current_canary_weight g in
    let bad := metric_for (canary g) (metric (rollback c)) in
    if nlt (nmul (threshold (rollback c)) (num_of_Z 2)) bad then act g 0 "severe_regression" bad (threshold (rollback c))
    else if nlt (threshold (rollback c)) bad then
      act g (saturating_sub weight (step c)) "rollback" bad (threshold (rollback c))
    else
      let good := metric_for (canary g) (metric (promote c)) in
      if nlt good (threshold (promote c)) then
        act g (Z.min (add_u64 weight (step c)) (total_weight g)) "promote" good (threshold (promote c))
      else None.

(** * The controller *)

Abbreviation CanaryController := (gmap string CanaryGroup).

Definition weight_sum (l : list (string * Z)) : Z := fold_right Z.add 0 (map snd l).

(** The group of a split or of a canary with an enabled analysis. *)
Definition compile_group (nm : string) (k : CanaryKind) (ws : list (string * Z)) (a : option CanaryAnalysis) : option CanaryGroup :=
  match a, ws with
  | Some c, [_; (_, initial)] =>
      if negb (enabled c) then None else if weight_sum ws =? 0 then None else Some (new_group nm k c (weight_sum ws) initial)
  | _, _ => None
  end.

Definition service_group (s : Service) : option CanaryGroup :=
  ts ← targets s; compile_group (service_name s) OfService ts (split_analysis s).

Definition model_group (m : AiModel) : option CanaryGroup := compile_group (alias m) OfAi (versions m) (model_analysis m).

Definition insert_group (g : CanaryGroup) (c : CanaryController) : CanaryController := <[name g := g]> c.

Definition compile_with_clock (gw : Gateway) : CanaryController :=
  foldl (λ c g, insert_group g c) ∅ (omap service_group (gw_services gw) ++ omap model_group (gw_models gw)).

Definition record_outcome (nm : string) (is_canary : bool) (status : Z) (latency_ms : num) (c : CanaryController) : CanaryController :=
  match c !! nm with
  | None => c
  | Some g =>
      <[nm := if is_canary then MkGroup (name g) (kind g) (config g) (baseline g) (record status latency_ms (canary g))
                  (last_adjustment g) (current_canary_weight g) (total_weight g)
              else MkGroup (name g) (kind g) (config g) (record status latency_ms (baseline g)) (canary g)
                  (last_adjustment g) (current_canary_weight g) (total_weight g)]> c
  end.

(** The groups in the order of the map, which Rust leaves open. *)
Definition evaluate_all (now : Z) (c : CanaryController) : list CanaryAction :=
  omap (evaluate now) (snd <$> map_to_list c).

Definition note (now weight : Z) (g : CanaryGroup) : CanaryGroup :=
  MkGroup (name g) (kind g) (config g) (baseline g) (canary g) now weight (total_weight g).

Definition note_applied (now : Z) (a : CanaryAction) (c : CanaryController) : CanaryController :=
  match c !! group a with
  | None => c
  | Some g => <[group a := note now (new_canary_weight a) g]> c
  end.

(** * The generation *)

(** What of a generation the weights concern: the configuration it was made from,
    the splits that the registry serves, the canary weights of the AI runtime, and
    its controller. *)
Record Generation : Type := MkGeneration {
  gateway : Gateway; splits : gmap string (ServiceSplit string); models : gmap string (list Z); controller : nat }.

(** A split that names an unknown upstream is skipped. *)
Definition insert_split (ups : list string) (sp : gmap string (ServiceSplit string)) (s : Service) : gmap string (ServiceSplit string) :=
  match targets s with
  | Some ts => if bool_decide (Forall (λ p, p.1 ∈ ups) ts) then <[service_name s := Split.new ts]> sp else sp
  | None => sp
  end.

Definition initial_splits (gw : Gateway) : gmap string (ServiceSplit string) :=
  foldl (insert_split (gw_upstreams gw)) ∅ (gw_services gw).

(** A composed alias has no plan of its own; one routed without a canary has no
    weights in it. *)
Definition initial_models (gw : Gateway) : gmap string (list Z) :=
  list_to_map (omap (λ m, if composed m then None else Some (alias m, map snd (versions m))) (gw_models gw)).

Definition with_rebuilt_split_from_pairs (service : string) (pairs : list (string * Z)) (gw : Gateway)
    (sp : gmap string (ServiceSplit string)) : option (gmap string (ServiceSplit string)) :=
  if bool_decide (Forall (λ p, p.1 ∈ gw_upstreams gw) pairs) then Some (<[service := Split.new pairs]> sp) else None.

Definition apply_service_split_weights (service : string) (weight : Z) (gen : Generation) : option Generation :=
  '(_, s) ← list_find (λ s, service_name s = service) (gw_services (gateway gen));
  ts ← targets s;
  match ts with
  | [(u0, _); (u1, _)] =>
      let total := weight_sum ts in
      if total =? 0 then None
      else
        let new_canary_weight := Z.min weight total in
        let new_baseline_weight := total - new_canary_weight in
        sp ← with_rebuilt_split_from_pairs service [(u0, new_baseline_weight); (u1, new_canary_weight)] (gateway gen) (splits gen);
        Some (MkGeneration (gateway gen) sp (models gen) (controller gen))
  | _ => None
  end.

Definition with_rebuilt_canary (nm : string) (weights : list Z) (ms : gmap string (list Z)) : option (gmap string (list Z)) :=
  match ms !! nm with
  | Some ((_ :: _) as old) => if (length weights =? length old)%nat then Some (<[nm := weights]> ms) else None
  | _ => None
  end.

Definition apply_ai_canary_weights (nm : string) (weight : Z) (gen : Generation) : option Generation :=
  '(_, m) ← list_find (λ m, alias m = nm) (gw_models (gateway gen));
  if negb (length (versions m) =? 2)%nat then None
  else
    let total := weight_sum (versions m) in
    if total =? 0 then None
    else
      let new_canary_weight := u32_wrap (Z.min weight total) in
      let new_baseline_weight := u32_wrap (total - new_canary_weight) in
      ms ← with_rebuilt_canary nm [new_baseline_weight; new_canary_weight] (models gen);
      Some (MkGeneration (gateway gen) (splits gen) ms (controller gen)).

Definition apply_action (a : CanaryAction) (gen : Generation) : option Generation :=
  match action_kind a with
  | OfService => apply_service_split_weights (group a) (new_canary_weight a) gen
  | OfAi => apply_ai_canary_weights (group a) (new_canary_weight a) gen
  end.

(** * The runner *)

(** An event on the bus. *)
Record Emitted : Type := MkEmitted { rolled_back : bool; canary_group : string; canary_weight : Z }.

Definition emitted (a : CanaryAction) : Emitted :=
  MkEmitted ((new_canary_weight a =? 0) || bool_decide (reason a = "rollback"%string) || bool_decide (reason a = "severe_regression"%string))
    (group a) (new_canary_weight a).

(** [bus] holds every event with its controller and the time noted. *)
Record World : Type := MkWorld {
  controllers : list CanaryController; current : Generation; pending : nat * list CanaryAction; bus : list (nat * Z * Emitted) }.

Inductive Event : Type :=
  | Outcome (c : nat) (nm : string) (is_canary : bool) (status : Z) (latency_ms : num)
  | Reload (gw : Gateway)
  | Turn (now : Z)                     (* the runner evaluates the current controller *)
  | Apply (now : Z).                   (* and applies its next action *)

Definition reload (gw : Gateway) (w : World) : World :=
  MkWorld (controllers w ++ [compile_with_clock gw])
    (MkGeneration gw (initial_splits gw) (initial_models gw) (length (controllers w))) (pending w) (bus w).

Definition fire (e : Event) (w : World) : option World :=
  match e with
  | Outcome c nm is_canary status latency_ms =>
      Some (MkWorld (alter (record_outcome nm is_canary status latency_ms) c (controllers w)) (current w) (pending w) (bus w))
  | Reload gw => Some (reload gw w)
  | Turn now =>
      match pending w, controllers w !! controller (current w) with
      | (_, []), Some ctrl => Some (MkWorld (controllers w) (current w) (controller (current w), evaluate_all now ctrl) (bus w))
      | _, _ => None
      end
  | Apply now =>
      match pending w with
      | (c, a :: rest) =>
          match apply_action a (current w) with
          | Some gen => Some (MkWorld (alter (note_applied now a) c (controllers w)) gen (c, rest) (bus w ++ [(c, now, emitted a)]))
          | None => Some (MkWorld (controllers w) (current w) (c, rest) (bus w))
          end
      | _ => None
      end
  end.

Fixpoint run (es : list Event) (w : World) : option World :=
  match es with [] => Some w | e :: es => w' ← fire e w; run es w' end.

Definition start (gw : Gateway) : World := reload gw (MkWorld [] (MkGeneration gw ∅ ∅ 0) (O, []) []).

(** * The served weights *)

(** What validation asks of the two tables (snapshot/mod.rs); the sum of an alias's
    weights below 2^32 is asked of [AiModel], not checked there. *)
Record valid (gw : Gateway) : Prop := {
  valid_services : NoDup (service_name <$> gw_services gw);
  valid_models : NoDup (alias <$> gw_models gw);
  valid_targets : ∀ s ts, s ∈ gw_services gw → targets s = Some ts →
    Forall (λ p, p.1 ∈ gw_upstreams gw ∧ 0 ≤ p.2) ts ∧ weight_sum ts ≤ 100000;
  valid_versions : ∀ m, m ∈ gw_models gw → Forall (λ p, 0 ≤ p.2) (versions m) ∧ weight_sum (versions m) < 2 ^ 32;
  valid_service_step : ∀ s c, s ∈ gw_services gw → split_analysis s = Some c → 0 < step c;
  valid_composed : ∀ m, m ∈ gw_models gw → composed m = true → versions m = [];
  valid_model_step : ∀ m c, m ∈ gw_models gw → model_analysis m = Some c → 0 < step c;
}.

(** Where a group comes from. *)
Inductive grouped (gw : Gateway) (g : CanaryGroup) : Prop :=
  | From_service s u0 u1 w0 w1 : s ∈ gw_services gw → service_name s = name g → kind g = OfService →
      targets s = Some [(u0, w0); (u1, w1)] → total_weight g = w0 + w1 → w0 + w1 ≠ 0 → grouped gw g
  | From_model m v0 v1 w0 w1 : m ∈ gw_models gw → alias m = name g → kind g = OfAi →
      versions m = [(v0, w0); (v1, w1)] → total_weight g = w0 + w1 → w0 + w1 ≠ 0 → grouped gw g.

Definition two_weights (g : CanaryGroup) : list Z := [total_weight g - current_canary_weight g; current_canary_weight g].

Definition serves (gen : Generation) (g : CanaryGroup) : Prop :=
  match kind g with
  | OfService => ∃ sp, splits gen !! name g = Some sp ∧ Split.weights sp = two_weights g ∧ Split.total sp = total_weight g
  | OfAi => models gen !! name g = Some (two_weights g)
  end.

Definition in_range (g : CanaryGroup) : Prop := 0 ≤ current_canary_weight g ≤ total_weight g ∧ 0 < step (config g).

(** A group but for what the two sides hold. *)
Definition erase (g : CanaryGroup) : CanaryGroup :=
  MkGroup (name g) (kind g) (config g) new_side new_side (last_adjustment g) (current_canary_weight g) (total_weight g).

Lemma erase_record nm b st l (c : CanaryController) : erase <$> record_outcome nm b st l c = erase <$> c.
Proof.
  unfold record_outcome. destruct (c !! nm) as [g|] eqn:E; [|done]. rewrite fmap_insert.
  apply map_eq. intros k. destruct (decide (k = nm)) as [->|]; [|by rewrite lookup_insert_ne].
  rewrite lookup_insert_eq, lookup_fmap, E. by destruct b.
Qed.

Lemma lookup_erase (c c' : CanaryController) k g : erase <$> c = erase <$> c' → c !! k = Some g →
  ∃ g', c' !! k = Some g' ∧ erase g' = erase g.
Proof.
  intros He Hg. assert (Hf : (erase <$> c') !! k = Some (erase g)) by (by rewrite <- He, lookup_fmap, Hg).
  rewrite lookup_fmap, fmap_Some in Hf. destruct Hf as (g' & ? & ?). eauto.
Qed.

(** A property of groups that does not read the sides. *)
Lemma map_Forall_erase (P : string → CanaryGroup → Prop) (c c' : CanaryController) :
  (∀ k g, P k g ↔ P k (erase g)) → erase <$> c = erase <$> c' → map_Forall P c → map_Forall P c'.
Proof.
  intros HP He Hc k g' Hg'. symmetry in He. destruct (lookup_erase _ _ _ _ He Hg') as (g & Hg & E). rewrite HP, <- E, <- HP. by apply Hc.
Qed.

Lemma find_unique {A} (f : A → string) (l : list A) x : NoDup (f <$> l) → x ∈ l → ∃ i, list_find (λ y, f y = f x) l = Some (i, x).
Proof.
  intros Hn Hx. induction l as [|y l IH]; [by apply not_elem_of_nil in Hx|]. apply list.NoDup_cons in Hn as [Hy Hn]. simpl.
  apply elem_of_cons in Hx as [->|Hx]; [rewrite decide_True by done; eauto|]. rewrite decide_False.
  - destruct (IH Hn Hx) as [i ->]. by exists (S i).
  - intros E. apply Hy. rewrite E. by apply list_elem_of_fmap_2.
Qed.

Lemma foldl_groups l (c : CanaryController) nm g : foldl (λ c g, insert_group g c) c l !! nm = Some g →
  (g ∈ l ∧ name g = nm) ∨ c !! nm = Some g.
Proof.
  revert c. induction l as [|x l IH]; intros c; simpl; [by right|]. intros [[? ?]|Hi]%IH; [left; split; [by right|done]|].
  unfold insert_group in Hi. apply lookup_insert_Some in Hi as [[? <-]|[_ ?]]; [left|by right]. split; [left|done].
Qed.

Lemma compile_group_spec nm k ws a g : compile_group nm k ws a = Some g →
  ∃ x0 x1 w0 w1 c, ws = [(x0, w0); (x1, w1)] ∧ w0 + w1 ≠ 0 ∧ a = Some c ∧ g = new_group nm k c (w0 + w1) w1.
Proof.
  unfold compile_group. destruct a as [c|]; [|done]. destruct ws as [|[x0 w0] [|[x1 w1] [|]]]; try done.
  destruct (negb (enabled c)); [done|]. unfold weight_sum. simpl. rewrite Z.add_0_r. destruct (Z.eqb_spec (w0 + w1) 0); [done|].
  intros [= <-]. by exists x0, x1, w0, w1, c.
Qed.

Lemma split_two (u0 u1 : string) a b : 0 ≤ a → 0 ≤ b → a + b < 2 ^ 64 →
  Split.weights (Split.new [(u0, a); (u1, b)]) = [a; b] ∧ Split.total (Split.new [(u0, a); (u1, b)]) = a + b.
Proof.
  intros Ha Hb Hab. unfold Split.new, Split.compile, Split.weights. cbn. split; [done|]. unfold add_u64.
  rewrite Z.add_0_l, (Z.mod_small a) by lia. apply Z.mod_small. lia.
Qed.

Lemma initial_split gw s ts : NoDup (service_name <$> gw_services gw) → s ∈ gw_services gw → targets s = Some ts →
  Forall (λ p, p.1 ∈ gw_upstreams gw) ts → initial_splits gw !! service_name s = Some (Split.new ts).
Proof.
  unfold initial_splits. generalize (gw_upstreams gw) as ups. intros ups Hn Hs Ht Hu. revert Hn Hs. generalize (∅ : gmap string (ServiceSplit string)) as sp.
  induction (gw_services gw) as [|x l IH]; intros sp Hn Hs; [by apply not_elem_of_nil in Hs|].
  apply list.NoDup_cons in Hn as [Hx Hn]. simpl. apply elem_of_cons in Hs as [->|Hs]; [|by apply IH]. unfold insert_split at 2.
  rewrite Ht, bool_decide_eq_true_2 by done.
  assert (Hkeep : ∀ l' sp', service_name x ∉ (service_name <$> l') → foldl (insert_split ups) sp' l' !! service_name x = sp' !! service_name x).
  { clear. intros l'. induction l' as [|y l' IH]; intros sp' Hy; [done|]. rewrite fmap_cons, not_elem_of_cons in Hy. destruct Hy as [Hy Hl].
    simpl. rewrite IH by done. unfold insert_split. destruct (targets y); [|done]. case_bool_decide; [|done]. by rewrite lookup_insert_ne. }
  rewrite Hkeep by done. apply lookup_insert_eq.
Qed.

Lemma initial_model gw m : NoDup (alias <$> gw_models gw) → m ∈ gw_models gw → composed m = false →
  initial_models gw !! alias m = Some (map snd (versions m)).
Proof.
  intros Hn Hm Hc. unfold initial_models. set (plan := λ m, if composed m then None else Some (alias m, map snd (versions m))).
  assert (Hp : (alias m, map snd (versions m)) ∈ omap plan (gw_models gw)).
  { apply list_elem_of_omap. exists m. split; [done|]. unfold plan. by rewrite Hc. }
  apply elem_of_list_to_map_1; [|done]. clear Hm Hp Hc. induction (gw_models gw) as [|x l IH]; [constructor|].
  apply list.NoDup_cons in Hn as [Hx Hn]. cbn. unfold plan at 1. destruct (composed x); [by apply IH|].
  rewrite fmap_cons. apply list.NoDup_cons. split; [|by apply IH]. intros Hin. apply Hx. cbn in Hin.
  apply list_elem_of_fmap in Hin as ([k v] & E & (y & Hy & Ey)%list_elem_of_omap). cbn in E. unfold plan in Ey.
  destruct (composed y); [done|]. injection Ey as <- <-. rewrite E. by apply (list_elem_of_fmap_2 alias).
Qed.

(** What a reload compiles. *)
Lemma compiled gw nm g : valid gw → compile_with_clock gw !! nm = Some g →
  name g = nm ∧ grouped gw g ∧ in_range g ∧ last_adjustment g = 0 ∧ ∀ c, serves (MkGeneration gw (initial_splits gw) (initial_models gw) c) g.
Proof.
  intros Hv [[Hg <-]|?]%foldl_groups; [|done]. split; [done|]. apply elem_of_app in Hg as [Hg|Hg]; apply list_elem_of_omap in Hg as (x & Hx & Hg).
  - unfold service_group in Hg. destruct (targets x) as [ts|] eqn:Et; [|done]. cbn in Hg.
    apply compile_group_spec in Hg as (u0 & u1 & w0 & w1 & c & -> & Hz & Ea & ->). pose proof (valid_service_step gw Hv x c Hx Ea). destruct (valid_targets gw Hv x _ Hx Et) as [Hf Hs].
    decompose_Forall_hyps. unfold weight_sum in Hs; simpl in Hs. split; [by eapply From_service|]. split; [unfold in_range; cbn; lia|]. split; [done|].
    intros c'. unfold serves, two_weights. cbn. eexists. split; [eapply initial_split; [apply Hv|done|exact Et|destruct_and?; by repeat constructor]|].
    destruct (split_two u0 u1 w0 w1) as [-> ->]; [tauto..|lia|]. split; [f_equal; lia|done].
  - apply compile_group_spec in Hg as (v0 & v1 & w0 & w1 & c & Ev & Hz & Ea & ->). pose proof (valid_model_step gw Hv x c Hx Ea). destruct (valid_versions gw Hv x Hx) as [Hf _].
    rewrite Ev in Hf. decompose_Forall_hyps. split; [by eapply From_model|]. split; [unfold in_range; cbn; lia|]. split; [done|].
    intros c'. unfold serves, two_weights. cbn. rewrite initial_model; [rewrite Ev; cbn|apply Hv|done|].
    2: { destruct (composed x) eqn:Ex; [|done]. pose proof (valid_composed gw Hv x Hx Ex). congruence. }
    f_equal. f_equal. lia.
Qed.

(** * One action *)

Lemma act_some g w why v l a : act g w why v l = Some a →
  group a = name g ∧ action_kind a = kind g ∧ new_canary_weight a = w ∧ w ≠ current_canary_weight g.
Proof. unfold act. destruct (Z.eqb_spec w (current_canary_weight g)); [done|]. by intros [= <-]. Qed.

Lemma evaluate_action now g a : evaluate now g = Some a →
  group a = name g ∧ action_kind a = kind g ∧ (in_range g → 0 ≤ new_canary_weight a ≤ total_weight g) ∧
  (last_adjustment g = 0 ∨ last_adjustment g < 0 ∨ cooldown_seconds (config g) ≤ Z.max 0 (now - last_adjustment g)).
Proof.
  unfold evaluate. destruct ((0 <? last_adjustment g) && _) eqn:Ec; [done|]. apply andb_false_iff in Ec.
  assert (Hc : last_adjustment g = 0 ∨ last_adjustment g < 0 ∨ cooldown_seconds (config g) ≤ Z.max 0 (now - last_adjustment g)).
  { unfold saturating_sub in Ec. destruct Ec as [?%Z.ltb_ge|?%Z.ltb_ge]; lia. }
  unfold in_range, saturating_sub. repeat case_match; try done; intros (-> & -> & -> & _)%act_some; split_and!; try done; try lia.
  pose proof (Z.mod_pos_bound (current_canary_weight g + step (config g)) (2 ^ 64)). unfold add_u64. lia.
Qed.

Lemma evaluate_all_action now (c : CanaryController) a : a ∈ evaluate_all now c → ∃ k g, c !! k = Some g ∧ evaluate now g = Some a.
Proof.
  unfold evaluate_all. intros (g & Hk & Hg)%list_elem_of_omap. apply list_elem_of_fmap in Hk as ([k g'] & -> & Hk).
  apply elem_of_map_to_list in Hk. eauto.
Qed.

Lemma evaluate_all_groups now (c : CanaryController) : map_Forall (λ k g, name g = k) c → NoDup (group <$> evaluate_all now c).
Proof.
  intros Hc. unfold evaluate_all.
  assert (Hl : Forall (λ kg, name kg.2 = kg.1) (map_to_list c)) by (apply list.Forall_forall; intros [k g] Hk%elem_of_map_to_list; by apply Hc).
  pose proof (NoDup_fst_map_to_list c) as Hn. induction Hl as [|[k g] l Hk Hl IH]; [constructor|]. rewrite fmap_cons in Hn.
  apply list.NoDup_cons in Hn as [Hx Hn]. cbn. destruct (evaluate now g) as [a|] eqn:Ea; [|by apply IH]. rewrite fmap_cons.
  apply list.NoDup_cons. split; [|by apply IH]. apply evaluate_action in Ea as (Eg & _). simpl in Hk. rewrite Eg, Hk. intros Hin. apply Hx.
  apply list_elem_of_fmap in Hin as (a' & -> & (g' & Hg' & Ea')%list_elem_of_omap). apply list_elem_of_fmap in Hg' as ([k' g''] & -> & Hkg).
  apply evaluate_action in Ea' as (-> & _). simpl. rewrite list.Forall_forall in Hl. pose proof (Hl _ Hkg) as E. simpl in E. rewrite E. by apply (list_elem_of_fmap_2 fst _ (k', g'')).
Qed.

(** An action on a generation that serves its group. *)
Lemma apply_served now gen a g : valid (gateway gen) → grouped (gateway gen) g → name g = group a → kind g = action_kind a →
  0 ≤ new_canary_weight a ≤ total_weight g → serves gen g →
  ∃ gen', apply_action a gen = Some gen' ∧ gateway gen' = gateway gen ∧ controller gen' = controller gen ∧
    serves gen' (note now (new_canary_weight a) g) ∧ ∀ g', name g' ≠ group a → serves gen g' → serves gen' g'.
Proof.
  intros Hv Hg Hn Hk Hw Hs. unfold apply_action. rewrite <- Hk, <- Hn. set (w := new_canary_weight a) in *.
  destruct Hg as [s u0 u1 w0 w1 Hin Hs' Hkind Ht Htot Hz|m v0 v1 w0 w1 Hin Hm Hkind Ev Htot Hz]; rewrite Hkind.
  - unfold apply_service_split_weights. rewrite <- Hs'. destruct (find_unique service_name _ s (valid_services _ Hv) Hin) as [i ->].
    cbn [mbind option_bind]. rewrite Ht. cbn [mbind option_bind]. destruct (valid_targets _ Hv s _ Hin Ht) as [Hf Hsum].
    unfold weight_sum in *; simpl in *. rewrite Z.add_0_r in *. destruct (Z.eqb_spec (w0 + w1) 0); [done|]. rewrite Htot in Hw. rewrite Z.min_l by lia.
    decompose_Forall_hyps. destruct_and?. unfold with_rebuilt_split_from_pairs.
    rewrite bool_decide_eq_true_2 by (by repeat constructor). cbn [mbind option_bind]. eexists. split; [done|]. cbn. split; [done|]. split; [done|]. split.
    + unfold serves, two_weights. cbn. rewrite Hkind. eexists. split; [rewrite <- Hs'; apply lookup_insert_eq|].
      destruct (split_two u0 u1 (w0 + w1 - w) w) as [E1 E2]; [lia..|]. rewrite Htot. split; [exact E1|]. etrans; [exact E2|lia].
    + intros g' Hne. unfold serves. cbn. by rewrite lookup_insert_ne by congruence.
  - unfold apply_ai_canary_weights. rewrite <- Hm. destruct (find_unique alias _ m (valid_models _ Hv) Hin) as [i ->].
    cbn [mbind option_bind]. rewrite Ev. cbn [length negb Nat.eqb]. destruct (valid_versions _ Hv m Hin) as [_ Hsum]. rewrite Ev in Hsum.
    unfold weight_sum in *; simpl in *. rewrite Z.add_0_r in *. destruct (Z.eqb_spec (w0 + w1) 0); [done|]. rewrite Htot in Hw. rewrite Z.min_l by lia.
    unfold u32_wrap. rewrite (Z.mod_small w), (Z.mod_small (w0 + w1 - w)) by lia. unfold serves in Hs. rewrite Hkind in Hs. rewrite Hm.
    unfold with_rebuilt_canary. rewrite Hs. cbn [two_weights length Nat.eqb mbind option_bind]. eexists. split; [done|]. cbn. split; [done|]. split; [done|]. split.
    + unfold serves, two_weights. cbn. rewrite Hkind, lookup_insert_eq, Htot. done.
    + intros g' Hne. unfold serves. cbn. by rewrite lookup_insert_ne by congruence.
Qed.

(** * Runs *)

Inductive reachable : Z → World → Prop :=
  | reach_start gw now : valid gw → 0 < now → reachable now (start gw)
  | reach_fire now now' w e w' : reachable now w → now ≤ now' →
      match e with Reload gw => valid gw | Turn t | Apply t => t = now' | Outcome _ _ _ _ _ => True end →
      fire e w = Some w' → reachable now' w'.

(** Runs in which no reload falls between a turn of the runner and its last action. *)
Inductive calm : World → Prop :=
  | calm_start gw : valid gw → calm (start gw)
  | calm_fire w e w' : calm w → match e with Reload gw => valid gw ∧ (pending w).2 = [] | _ => True end →
      fire e w = Some w' → calm w'.

Definition group_ok (gen : Generation) (k : string) (g : CanaryGroup) : Prop :=
  name g = k ∧ grouped (gateway gen) g ∧ in_range g ∧ serves gen g.

Definition action_ok (ctrl : CanaryController) (a : CanaryAction) : Prop :=
  ∃ g, ctrl !! group a = Some g ∧ kind g = action_kind a ∧ 0 ≤ new_canary_weight a ≤ total_weight g.

Record follows (w : World) (ctrl : CanaryController) : Prop := {
  follows_valid : valid (gateway (current w));
  follows_controller : controllers w !! controller (current w) = Some ctrl;
  follows_groups : map_Forall (group_ok (current w)) ctrl;
  follows_actions : Forall (action_ok ctrl) (pending w).2;
  follows_pending : (pending w).2 ≠ [] → (pending w).1 = controller (current w);
}.

Lemma grouped_erase gw g : grouped gw g ↔ grouped gw (erase g).
Proof. by split; (intros [s u0 u1 w0 w1|m v0 v1 w0 w1]; [eapply From_service|eapply From_model]). Qed.

Lemma group_ok_erase gen k g : group_ok gen k g ↔ group_ok gen k (erase g).
Proof. unfold group_ok. by rewrite grouped_erase. Qed.

Lemma reload_follows gw w : valid gw → (pending w).2 = [] → follows (reload gw w) (compile_with_clock gw).
Proof.
  intros Hv Hp. split; cbn; [done|by rewrite lookup_app_r, Nat.sub_diag by done| |by rewrite Hp|done].
  intros k g Hg. destruct (compiled _ _ _ Hv Hg) as (? & ? & ? & _ & Hs). by split_and!.
Qed.

Lemma action_ok_erase (c c' : CanaryController) a : erase <$> c = erase <$> c' → action_ok c a → action_ok c' a.
Proof.
  intros He (g & Hg & Hk & Hw). destruct (lookup_erase _ _ _ _ He Hg) as (g' & Hg' & E). exists g'. split; [done|].
  apply (f_equal kind) in E as E1. apply (f_equal total_weight) in E as E2. cbn in *. by rewrite E1, E2.
Qed.

Lemma note_groups now a (ctrl : CanaryController) gen gen' g : ctrl !! group a = Some g → gateway gen' = gateway gen →
  0 ≤ new_canary_weight a ≤ total_weight g → serves gen' (note now (new_canary_weight a) g) →
  (∀ g', name g' ≠ group a → serves gen g' → serves gen' g') →
  map_Forall (group_ok gen) ctrl → map_Forall (group_ok gen') (note_applied now a ctrl).
Proof.
  intros Hg Hgw Hw Hs Hother Hall k g' Hg'. unfold note_applied in Hg'. rewrite Hg in Hg'.
  destruct (Hall _ _ Hg) as (Hn & Hgr & [_ Hst] & _). apply lookup_insert_Some in Hg' as [[<- <-]|[Hne Hg']].
  - split_and!; [done| |by split|done]. rewrite Hgw. by destruct Hgr as [s u0 u1 w0 w1|m v0 v1 w0 w1]; [eapply From_service|eapply From_model].
  - destruct (Hall _ _ Hg') as (Hn' & ? & ? & ?). split_and!; [done|by rewrite Hgw|done|]. apply Hother; [congruence|done].
Qed.

Lemma note_actions now a (ctrl : CanaryController) a' : action_ok ctrl a' → action_ok (note_applied now a ctrl) a'.
Proof.
  intros (g & Hg & Hk & Hw). unfold note_applied. destruct (ctrl !! group a) as [g0|] eqn:E; [|by exists g].
  unfold action_ok. destruct (decide (group a' = group a)) as [Ha|]; [|exists g; by rewrite lookup_insert_ne].
  rewrite Ha in *. rewrite lookup_insert_eq. simplify_eq. by eexists.
Qed.

Lemma fire_follows e w w' ctrl : match e with Reload gw => valid gw ∧ (pending w).2 = [] | _ => True end →
  follows w ctrl → fire e w = Some w' → ∃ ctrl', follows w' ctrl'.
Proof.
  intros He [Hv Hc Hg Ha Hp] Hf. destruct e as [c nm b st l|gw|now|now]; cbn [fire] in Hf.
  - injection Hf as <-. destruct (decide (c = controller (current w))) as [->|Hne].
    + exists (record_outcome nm b st l ctrl). pose proof (erase_record nm b st l ctrl) as E. symmetry in E. split; cbn; try done.
      * by rewrite list_lookup_alter_eq, Hc.
      * eapply map_Forall_erase; [intros; apply group_ok_erase|exact E|exact Hg].
      * eapply list.Forall_impl; [exact Ha|]. intros a. by apply action_ok_erase.
    + exists ctrl. split; cbn; try done. by rewrite list_lookup_alter_ne.
  - injection Hf as <-. destruct He. eexists. by apply reload_follows.
  - destruct (pending w) as [c [|]] eqn:Ep; [|done]. rewrite Hc in Hf. injection Hf as <-. exists ctrl. split; cbn; try done.
    apply list.Forall_forall. intros a (k & g & Hk & (Eg & Ek & Hw & _)%evaluate_action)%evaluate_all_action.
    destruct (Hg _ _ Hk) as (Hn & _ & Hr & _). exists g. split; [congruence|]. split; [done|by apply Hw].
  - destruct (pending w) as [c [|a acts]] eqn:Ep; [done|]. cbn in *. inversion_clear Ha as [|? ? (g & Hga & Hk & Hw) Ha'].
    destruct (Hg _ _ Hga) as (Hn & Hgr & Hr & Hs). destruct (apply_served now _ a g Hv Hgr Hn Hk Hw Hs) as (gen & Eap & Egw & Ec & Hs' & Hother).
    rewrite Eap in Hf. injection Hf as <-. exists (note_applied now a ctrl). split; cbn.
    + by rewrite Egw.
    + rewrite Ec, Hp, list_lookup_alter_eq, Hc by done. done.
    + eapply note_groups; eauto.
    + eapply list.Forall_impl; [exact Ha'|]. intros a'. apply note_actions.
    + intros _. rewrite Ec. by apply Hp.
Qed.

(** C38: The data plane serves the weights of its controller.  In every run in which no
    reload falls between a turn of the runner and its last action, the split of each
    service, or the canary of each alias, that the controller of the generation
    tracks is served with the controller's weight for the canary, between 0 and the
    configured total, and the rest of the total for the baseline. *)
Theorem canary_follows (w : World) (ctrl : CanaryController) (nm : string) (g : CanaryGroup) (Hw : calm w)
    (Hctrl : controllers w !! controller (current w) = Some ctrl) (Hg : ctrl !! nm = Some g) :
  0 ≤ current_canary_weight g ≤ total_weight g ∧
  let ws := [total_weight g - current_canary_weight g; current_canary_weight g] in
  match kind g with
  | OfService => ∃ sp, splits (current w) !! nm = Some sp ∧ Split.weights sp = ws ∧ Split.total sp = total_weight g
  | OfAi => models (current w) !! nm = Some ws
  end.
Proof.
  assert (Hf : ∃ c, follows w c).
  { clear -Hw. induction Hw as [gw Hv|w e w' _ [c IH] He Hf]; [eexists; by apply reload_follows|by eapply fire_follows]. }
  destruct Hf as [c Hf]. assert (c = ctrl) as -> by (pose proof (follows_controller _ _ Hf); congruence).
  destruct (follows_groups _ _ Hf _ _ Hg) as (<- & _ & [Hr _] & Hs). by split.
Qed.

(** * The pace *)

(** When the weights of a group were changed. *)
Definition times (c : nat) (nm : string) (b : list (nat * Z * Emitted)) : list Z :=
  (λ x, x.1.2) <$> filter (λ x, x.1.1 = c ∧ canary_group x.2 = nm) b.

Definition spaced (d : Z) (l : list Z) : Prop := ∀ i t t', l !! i = Some t → l !! S i = Some t' → d ≤ t' - t.

Lemma times_snoc c nm b x : times c nm (b ++ [x]) =
  times c nm b ++ (if decide (x.1.1 = c ∧ canary_group x.2 = nm) then [x.1.2] else []).
Proof. unfold times. rewrite list.filter_app, fmap_app. f_equal. rewrite filter_cons, filter_nil. by case_decide. Qed.

Lemma spaced_snoc d l t : spaced d l → (∀ t', list.last l = Some t' → d ≤ t - t') → spaced d (l ++ [t]).
Proof.
  intros Hl Ht i a b Ha Hb. destruct (decide (S i < length l)%nat).
  - rewrite !lookup_app_l in Ha, Hb by lia. eauto.
  - assert (S i = length l) as Ei. { apply lookup_lt_Some in Hb. rewrite length_app in Hb. simpl in Hb. lia. }
    rewrite lookup_app_l in Ha by lia. rewrite Ei, list_lookup_middle in Hb by done. injection Hb as <-. apply Ht.
    by rewrite last_lookup, <- Ei.
Qed.

Definition group_pace (b : list (nat * Z * Emitted)) (c : nat) (k : string) (g : CanaryGroup) : Prop :=
  name g = k ∧ last_adjustment g = default 0 (list.last (times c k b)) ∧ spaced (cooldown_seconds (config g)) (times c k b).

Definition due (t : Z) (g : CanaryGroup) : Prop := last_adjustment g = 0 ∨ cooldown_seconds (config g) ≤ t - last_adjustment g.

Definition action_due (t : Z) (cs : list CanaryController) (c : nat) (a : CanaryAction) : Prop :=
  ∃ ctrl g, cs !! c = Some ctrl ∧ ctrl !! group a = Some g ∧ due t g.

Record pace_ok (t : Z) (w : World) : Prop := {
  pace_now : 0 < t;
  pace_valid : valid (gateway (current w));
  pace_groups : ∀ c ctrl, controllers w !! c = Some ctrl → map_Forall (group_pace (bus w) c) ctrl;
  pace_bus : Forall (λ x, 0 < x.1.2 ≤ t ∧ (x.1.1 < length (controllers w))%nat) (bus w);
  pace_nodup : NoDup (group <$> (pending w).2);
  pace_due : Forall (action_due t (controllers w) (pending w).1) (pending w).2;
}.

Lemma group_pace_erase b c k g : group_pace b c k g ↔ group_pace b c k (erase g).
Proof. done. Qed.

Lemma times_last t w c k t' : pace_ok t w → list.last (times c k (bus w)) = Some t' → 0 < t' ≤ t.
Proof.
  intros Hw Hl. apply last_Some_elem_of in Hl. unfold times in Hl. apply list_elem_of_fmap in Hl as (x & -> & [_ Hx]%list_elem_of_filter).
  pose proof (pace_bus _ _ Hw) as Hb. rewrite list.Forall_forall in Hb. by apply Hb.
Qed.

Lemma due_later t t' g : t ≤ t' → due t g → due t' g.
Proof. unfold due. lia. Qed.

Lemma pace_later t t' w : t ≤ t' → pace_ok t w → pace_ok t' w.
Proof.
  intros Ht [Hn Hv Hg Hb Hd Ha]. split; try done; [lia| |].
  - eapply list.Forall_impl; [exact Hb|]. intros x. simpl. lia.
  - eapply list.Forall_impl; [exact Ha|]. intros a (ctrl & g & Hc & Hk & Hdue). exists ctrl, g. split_and!; [done..|by eapply due_later].
Qed.

Lemma times_new c k b : Forall (λ x : nat * Z * Emitted, (x.1.1 < c)%nat) b → times c k b = [].
Proof.
  intros Hb. unfold times. induction Hb as [|x b Hx Hb IH]; [done|]. rewrite list.filter_cons_False; [done|]. intros [? _]. lia.
Qed.

Lemma reload_pace t gw w : valid gw → pace_ok t w → pace_ok t (reload gw w).
Proof.
  intros Hv [Hn Hv' Hg Hb Hd Ha]. split; cbn; try done.
  - intros c ctrl [Hc|[Hc [_ [= <-]]%list_lookup_singleton_Some]]%lookup_app_Some; [by apply Hg|]. intros k g Hk.
    destruct (compiled _ _ _ Hv Hk) as (Hname & _ & _ & Hlast & _). unfold group_pace. rewrite times_new; [by split_and!|].
    eapply list.Forall_impl; [exact Hb|]. intros x [_ Hx]. simpl in *. lia.
  - eapply list.Forall_impl; [exact Hb|]. intros x [Hx1 Hx2]. rewrite length_app. simpl in *. lia.
  - eapply list.Forall_impl; [exact Ha|]. intros a (ctrl & g & Hc & Hk & Hdue). exists ctrl, g. split; [|done]. by apply lookup_app_l_Some.
Qed.

Lemma start_pace gw now : valid gw → 0 < now → pace_ok now (start gw).
Proof. intros Hv Hn. apply reload_pace; [done|]. split; cbn; try done; constructor. Qed.

Lemma outcome_pace t c nm b st l w : pace_ok t w →
  pace_ok t (MkWorld (alter (record_outcome nm b st l) c (controllers w)) (current w) (pending w) (bus w)).
Proof.
  intros [Hn Hv Hg Hb Hd Ha]. split; cbn; try done.
  - intros c' ctrl' Hc'. destruct (decide (c' = c)) as [->|]; [|rewrite list_lookup_alter_ne in Hc' by done; by apply Hg].
    rewrite list_lookup_alter_eq in Hc'. apply fmap_Some in Hc' as (ctrl & Hc & ->).
    eapply map_Forall_erase; [intros; apply group_pace_erase|symmetry; apply erase_record|by apply Hg].
  - eapply list.Forall_impl; [exact Hb|]. intros x. by rewrite length_alter.
  - eapply list.Forall_impl; [exact Ha|]. intros a (ctrl & g & Hc & Hk & Hdue). destruct (decide ((pending w).1 = c)) as [Ec|].
    + destruct (lookup_erase ctrl (record_outcome nm b st l ctrl) _ _ (eq_sym (erase_record nm b st l ctrl)) Hk) as (g' & Hg' & E).
      exists (record_outcome nm b st l ctrl), g'. rewrite Ec in *. rewrite list_lookup_alter_eq, Hc. split_and!; [done..|].
      unfold due in *. apply (f_equal last_adjustment) in E as E1. apply (f_equal config) in E as E2. cbn in *. by rewrite E1, E2.
    + exists ctrl, g. by rewrite list_lookup_alter_ne.
Qed.

Lemma turn_pace t w ctrl : pace_ok t w → controllers w !! controller (current w) = Some ctrl →
  pace_ok t (MkWorld (controllers w) (current w) (controller (current w), evaluate_all t ctrl) (bus w)).
Proof.
  intros Hw Hc. pose proof (pace_groups _ _ Hw _ _ Hc) as Hall. split; cbn; try apply Hw.
  - apply evaluate_all_groups. intros k g Hg. by apply Hall.
  - apply list.Forall_forall. intros a (k & g & Hk & (Eg & _ & _ & Hdue)%evaluate_action)%evaluate_all_action.
    destruct (Hall _ _ Hk) as (Hn & Hlast & _). exists ctrl, g. split; [done|]. split; [congruence|]. unfold due.
    destruct (list.last (times (controller (current w)) k (bus w))) as [t'|] eqn:El; simpl in Hlast; [|by left].
    pose proof (times_last _ _ _ _ _ Hw El). right. lia.
Qed.

(** The next action applied and noted. *)
Lemma noted_pace t w c a acts gen : pace_ok t w → pending w = (c, a :: acts) → valid (gateway gen) →
  pace_ok t (MkWorld (alter (note_applied t a) c (controllers w)) gen (c, acts) (bus w ++ [(c, t, emitted a)])).
Proof.
  intros Hw Ep Hv. pose proof (pace_nodup _ _ Hw) as Hnd. pose proof (pace_due _ _ Hw) as Hdue. rewrite Ep in Hnd, Hdue. simpl in Hnd, Hdue.
  apply list.NoDup_cons in Hnd as [Ha Hnd]. apply list.Forall_cons in Hdue as [(ctrl & g & Hc & Hg & Hd) Hdue].
  assert (Hnote : note_applied t a ctrl = <[group a := note t (new_canary_weight a) g]> ctrl) by (unfold note_applied; by rewrite Hg).
  split; cbn; [apply Hw|done| | |done|].
  - intros c' ctrl' Hc' k g' Hg'. unfold group_pace. rewrite times_snoc. cbn.
    destruct (decide (c' = c)) as [->|Hne].
    + rewrite list_lookup_alter_eq, Hc in Hc'. injection Hc' as <-. rewrite Hnote in Hg'. apply lookup_insert_Some in Hg' as [[<- <-]|[Hne Hg']].
      * destruct (pace_groups _ _ Hw _ _ Hc _ _ Hg) as (Hn & Hlast & Hsp). rewrite decide_True by done. split_and!; [done|by rewrite last_snoc|].
        apply spaced_snoc; [done|]. intros t' El. rewrite El in Hlast. simpl in Hlast. pose proof (times_last _ _ _ _ _ Hw El).
        unfold due in Hd. cbn. lia.
      * rewrite decide_False, app_nil_r by naive_solver. by apply (pace_groups _ _ Hw _ _ Hc).
    + rewrite list_lookup_alter_ne in Hc' by done. rewrite decide_False, app_nil_r by naive_solver. by apply (pace_groups _ _ Hw _ _ Hc').
  - apply Forall_app_2.
    + eapply list.Forall_impl; [apply Hw|]. intros x. by rewrite length_alter.
    + repeat constructor; cbn; [apply Hw|lia|]. rewrite length_alter. by eapply lookup_lt_Some.
  - apply list.Forall_forall. intros a' Ha'. rewrite list.Forall_forall in Hdue. destruct (Hdue _ Ha') as (ctrl' & g' & Hc' & Hg' & Hd').
    simplify_eq. exists (note_applied t a ctrl), g'. rewrite list_lookup_alter_eq, Hc. split; [done|]. split; [|done].
    rewrite Hnote, lookup_insert_ne; [done|]. intros E. apply Ha. rewrite E. by apply list_elem_of_fmap_2.
Qed.

Lemma apply_gateway a gen gen' : apply_action a gen = Some gen' → gateway gen' = gateway gen.
Proof.
  unfold apply_action, apply_service_split_weights, apply_ai_canary_weights. intros E. destruct (action_kind a).
  all: repeat first [ progress cbn [mbind option_bind] in E | case_match; try done | match type of E with context [?o ≫= _] => destruct o eqn:?; try done end].
  all: by injection E as <-.
Qed.

Lemma fire_pace t e w w' : match e with Reload gw => valid gw | Turn n | Apply n => n = t | Outcome _ _ _ _ _ => True end →
  pace_ok t w → fire e w = Some w' → pace_ok t w'.
Proof.
  intros He Hw Hf. destruct e as [c nm b st l|gw|now|now]; cbn [fire] in Hf; subst.
  - injection Hf as <-. by apply outcome_pace.
  - injection Hf as <-. by apply reload_pace.
  - destruct (pending w) as [c [|]]; [|done]. destruct (controllers w !! _) as [ctrl|] eqn:Hc; [|done]. injection Hf as <-. by apply turn_pace.
  - destruct (pending w) as [c [|a acts]] eqn:Ep; [done|]. destruct (apply_action a (current w)) as [gen|] eqn:Ea; injection Hf as <-.
    + apply noted_pace; [done|done|]. rewrite (apply_gateway _ _ _ Ea). apply Hw.
    + destruct Hw as [Hn Hv Hg Hb Hd Hdue]. rewrite Ep in Hd, Hdue. simpl in Hd, Hdue. apply list.NoDup_cons in Hd as [_ Hd].
      apply list.Forall_cons in Hdue as [_ Hdue]. by split.
Qed.

(** C40: The weights of a group change at most once per cooldown.  In every run whose
    clock does not step back, whatever is reloaded and recorded in between, any two
    successive changes that a controller notes for a group are at least its
    [cooldown_seconds] apart. *)
Theorem canary_paced (now : Z) (w : World) (c : nat) (ctrl : CanaryController) (nm : string) (g : CanaryGroup) (Hw : reachable now w)
    (Hctrl : controllers w !! c = Some ctrl) (Hg : ctrl !! nm = Some g) :
  spaced (cooldown_seconds (config g)) (times c nm (bus w)).
Proof.
  assert (Hp : pace_ok now w).
  { clear -Hw. induction Hw as [gw now Hv Hn|now now' w e w' _ IH Hle He Hf]; [by apply start_pace|].
    eapply fire_pace; [exact He|by eapply pace_later|exact Hf]. }
  by apply (pace_groups _ _ Hp _ _ Hctrl).
Qed.

(** * The metrics *)

Lemma insert_sample_perm x l : insert_sample x l ≡ₚ x :: l.
Proof. induction l as [|y l IH]; simpl; [done|]. case_match; [|done]. rewrite IH. apply Permutation_swap. Qed.

Lemma sort_samples_perm l : sort_samples l ≡ₚ l.
Proof. induction l as [|x l IH]; simpl; [done|]. by rewrite insert_sample_perm, IH. Qed.

Definition sample_le (x y : num) : Prop := nle x y = true.

Definition not_nan (x : num) : Prop := is_nan x = false.

Lemma insert_sample_sorted x l : not_nan x → Forall not_nan l → StronglySorted sample_le l → StronglySorted sample_le (insert_sample x l).
Proof.
  intros Hx Hl Hs. induction Hs as [|y l Hs IH Hy]; simpl; [repeat constructor|]. apply list.Forall_cons in Hl as [Hyn Hl].
  destruct (nlt y x) eqn:E.
  - constructor; [by apply IH|]. rewrite insert_sample_perm. constructor; [|done]. by apply nlt_le.
  - assert (Hxy : sample_le x y) by (by apply nge_le). constructor; [by constructor|]. constructor; [done|].
    eapply list.Forall_impl; [exact Hy|]. intros z Hz. by eapply nle_trans.
Qed.

Lemma sort_samples_sorted l : Forall not_nan l → StronglySorted sample_le (sort_samples l).
Proof.
  induction 1 as [|x l Hx Hl IH]; simpl; [constructor|]. apply insert_sample_sorted; [done| |done]. by rewrite sort_samples_perm.
Qed.

(** The rank computed in floating point, for every length and percentile in use, is
    the nearest one, ties upward. *)
Definition nearest_rank (pct : Z) (n : nat) : nat := Z.to_nat ((2 * pct * (Z.of_nat n - 1) + 100) / 200).

Definition q50 : num := Eval vm_compute in ndiv (num_of_Z 50) (num_of_Z 100).
Definition q95 : num := Eval vm_compute in ndiv (num_of_Z 95) (num_of_Z 100).
Definition q99 : num := Eval vm_compute in ndiv (num_of_Z 99) (num_of_Z 100).

Definition scaled_rank (q d : num) (pct : Z) (n : nat) : bool := Nat.eqb (round_usize (nmul q d)) (nearest_rank pct n).

Definition ranks_at (n : nat) : bool :=
  (λ d, scaled_rank q50 d 50 n && scaled_rank q95 d 95 n && scaled_rank q99 d 99 n) (nsub (num_of_Z (Z.of_nat n)) (num_of_Z 1)).

Lemma ranks_agree : forallb ranks_at (seq 1 MAX_LATENCY_SAMPLES) = true.
Proof. vm_compute. reflexivity. Qed.

Lemma rank_of_scaled q pct n : q = ndiv (num_of_Z pct) (num_of_Z 100) →
  scaled_rank q (nsub (num_of_Z (Z.of_nat n)) (num_of_Z 1)) pct n = true → rank_of (num_of_Z pct) n = nearest_rank pct n.
Proof. intros -> H%Nat.eqb_eq. exact H. Qed.

Lemma rank_nearest pct n : pct ∈ [50; 95; 99] → (1 ≤ n ≤ MAX_LATENCY_SAMPLES)%nat → rank_of (num_of_Z pct) n = nearest_rank pct n.
Proof.
  intros Hp Hn. assert (Hr : ranks_at n = true) by (apply (proj1 (forallb_forall _ _) ranks_agree), in_seq; lia).
  unfold ranks_at in Hr. rewrite !andb_true_iff in Hr. destruct Hr as [[H50 H95] H99].
  apply elem_of_cons in Hp as [->|Hp]; [by apply (rank_of_scaled q50)|]. apply elem_of_cons in Hp as [->|Hp]; [by apply (rank_of_scaled q95)|].
  apply list_elem_of_singleton in Hp as ->. by apply (rank_of_scaled q99).
Qed.

Lemma nearest_rank_lt pct n : 0 ≤ pct ≤ 100 → (1 ≤ n)%nat → (nearest_rank pct n < n)%nat.
Proof.
  intros Hp Hn. unfold nearest_rank. enough ((2 * pct * (Z.of_nat n - 1) + 100) / 200 < Z.of_nat n) by lia.
  apply Z.div_lt_upper_bound; nia.
Qed.

Lemma tail_drop {A} n (l : list A) : tail (drop n l) = drop (S n) l.
Proof. revert l. induction n as [|n IH]; intros [|x l]; [done..|apply IH]. Qed.

Definition observe (os : list (Z * num)) : CanarySide := foldl (λ s o, record o.1 o.2 s) new_side os.

Definition is_error (o : Z * num) : Prop := 500 ≤ o.1.

#[local] Instance is_error_dec o : Decision (is_error o).
Proof. unfold is_error. apply _. Defined.

Lemma observe_snoc os o : observe (os ++ [o]) = record o.1 o.2 (observe os).
Proof. unfold observe. by rewrite foldl_app. Qed.

(** What a side holds after a sequence of outcomes: it counts them all, and keeps the
    latencies of the last ones. *)
Lemma observed os : Z.of_nat (length os) < 2 ^ 64 →
  observe os = MkSide (Z.of_nat (length os)) (Z.of_nat (length (filter is_error os))) (drop (length os - MAX_LATENCY_SAMPLES) (snd <$> os)).
Proof.
  induction os as [|o os IH] using rev_ind; intros Hlen; [done|]. rewrite length_app in *. simpl in Hlen. rewrite observe_snoc, IH by lia.
  assert (Hf : (length (filter is_error os) ≤ length os)%nat) by apply length_filter. unfold record. cbn [requests errors latency_samples]. f_equal.
  - unfold add_u64. simpl. rewrite Z.mod_small; lia.
  - rewrite list.filter_app, length_app, filter_cons, filter_nil, Nat2Z.inj_add. unfold add_u64. destruct (Z.leb_spec 500 o.1).
    + rewrite decide_True by done. cbn [length]. apply Z.mod_small. lia.
    + rewrite decide_False by (unfold is_error; lia). cbn [length]. lia.
  - rewrite length_drop, length_fmap, fmap_app. change (length [o]) with 1%nat. assert (0 < MAX_LATENCY_SAMPLES)%nat by (apply Nat.ltb_lt; reflexivity).
    generalize dependent MAX_LATENCY_SAMPLES. intros limit _ Hlimit. destruct (Nat.leb_spec limit (length os - (length os - limit))).
    + replace (length os + 1 - limit)%nat with (S (length os - limit)) by lia.
      rewrite <- tail_drop, drop_app_le by (rewrite length_fmap; lia). assert (Hl : (length os - limit < length (snd <$> os))%nat) by (rewrite length_fmap; lia).
      destruct (drop (length os - limit) (snd <$> os)) eqn:E; [|done]. apply (f_equal length) in E. rewrite length_drop in E. simpl in E. lia.
    + replace (length os + 1 - limit)%nat with (length os - limit)%nat by lia.
      rewrite drop_app_le by (rewrite length_fmap; lia). done.
Qed.

(** What the controller measures.  After any outcomes a side's error rate is the
    share of all of them with a 5xx status; each percentile is the latency at the
    nearest rank among the last 1000 in order, and the rank, computed in floating
    point, is exact. *)
Theorem metrics_exact (os : list (Z * num)) (Hlen : 0 < Z.of_nat (length os) < 2 ^ 64) (Hnan : Forall (λ o, is_nan o.2 = false) os) :
  metric_for (observe os) ErrorRate = ndiv (num_of_Z (Z.of_nat (length (filter is_error os)))) (num_of_Z (Z.of_nat (length os))) ∧
  ∃ sorted, sorted ≡ₚ drop (length os - 1000) (snd <$> os) ∧ StronglySorted sample_le sorted ∧
    ∀ m pct, (m, pct) ∈ [(LatencyP50, 50); (LatencyP95, 95); (LatencyP99, 99)] →
      sorted !! nearest_rank pct (length sorted) = Some (metric_for (observe os) m).
Proof.
  rewrite observed by lia. split; [cbn [metric_for]; unfold error_rate; cbn [requests errors]; by destruct (Z.eqb_spec (Z.of_nat (length os)) 0); [lia|]|].
  set (l := drop (length os - MAX_LATENCY_SAMPLES) (snd <$> os)). exists (sort_samples l).
  assert (Hl : (1 ≤ length l ≤ MAX_LATENCY_SAMPLES)%nat).
  { unfold l. rewrite length_drop, length_fmap. assert (0 < MAX_LATENCY_SAMPLES)%nat by (apply Nat.ltb_lt; reflexivity). lia. }
  assert (Hn : Forall not_nan l) by (apply Forall_drop, list.Forall_fmap; exact Hnan).
  split; [apply sort_samples_perm|]. split; [by apply sort_samples_sorted|].
  assert (Hlen' : length (sort_samples l) = length l) by (by rewrite sort_samples_perm).
  assert (Hp : ∀ pct, pct ∈ [50; 95; 99] → sort_samples l !! nearest_rank pct (length (sort_samples l)) =
    Some (percentile (num_of_Z pct) (MkSide (Z.of_nat (length os)) (Z.of_nat (length (filter is_error os))) l))).
  { intros pct Hp. unfold percentile. cbn [latency_samples]. destruct l as [|x l'] eqn:El; [simpl in Hl; lia|]. rewrite <- El in *.
    rewrite Hlen', rank_nearest by done. assert (Hb : 0 ≤ pct ≤ 100).
    { repeat (apply elem_of_cons in Hp as [->|Hp]; [lia|]). by apply not_elem_of_nil in Hp. }
    pose proof (nearest_rank_lt pct (length l) Hb ltac:(lia)). rewrite Nat.min_l by lia.
    destruct (nth_lookup_or_length (sort_samples l) (nearest_rank pct (length l)) f64_zero); [done|lia]. }
  intros m pct Hm. repeat (apply elem_of_cons in Hm as [[= -> ->]|Hm]; [apply Hp; set_solver|]). by apply not_elem_of_nil in Hm.
Qed.

(** * Ramps *)

(** A turn of the runner on one group, its action applied at once. *)
Definition turn (g : CanaryGroup) (now : Z) : CanaryGroup :=
  match evaluate now g with Some a => note now (new_canary_weight a) g | None => g end.

Definition severe (g : CanaryGroup) : bool :=
  nlt (nmul (threshold (rollback (config g))) (num_of_Z 2)) (metric_for (canary g) (metric (rollback (config g)))).
Definition failing (g : CanaryGroup) : bool :=
  nlt (threshold (rollback (config g))) (metric_for (canary g) (metric (rollback (config g)))).
Definition healthy (g : CanaryGroup) : bool :=
  nlt (metric_for (canary g) (metric (promote (config g)))) (threshold (promote (config g))).

(** The requests of both sides together are too few. *)
Definition starved (g : CanaryGroup) : bool :=
  add_u64 (requests (baseline g)) (requests (canary g)) <? min_requests (config g).

(** The weight that [n] turns lead to. *)
Definition ramp (g : CanaryGroup) (n : Z) : Z :=
  let w := current_canary_weight g in
  if (n =? 0) || starved g then w
  else if severe g then 0
  else if failing g then Z.max 0 (w - n * step (config g))
  else if healthy g then Z.min (total_weight g) (w + n * step (config g))
  else w.

Definition ready (now : Z) (g : CanaryGroup) : Prop := last_adjustment g + cooldown_seconds (config g) ≤ now.

Definition same_state (g g' : CanaryGroup) : Prop := g' = note (last_adjustment g') (current_canary_weight g') g.

Lemma turn_ramp g now : in_range g → total_weight g < 2 ^ 63 → step (config g) < 2 ^ 63 → 0 ≤ cooldown_seconds (config g) → ready now g →
  same_state g (turn g now) ∧ current_canary_weight (turn g now) = ramp g 1 ∧ (last_adjustment (turn g now) = last_adjustment g ∨ last_adjustment (turn g now) = now).
Proof.
  intros Hr Ht Hs Hc Hready. unfold in_range, ready in *. unfold turn, evaluate.
  assert (Ecool : (0 <? last_adjustment g) && (saturating_sub now (last_adjustment g) <? cooldown_seconds (config g)) = false).
  { unfold saturating_sub. apply andb_false_iff. destruct (Z.ltb_spec 0 (last_adjustment g)); [right; apply Z.ltb_ge; lia|by left]. }
  rewrite Ecool. unfold ramp. fold (starved g). cbn [Z.eqb orb]. destruct (starved g); [split_and!; [by destruct g|done|by left]|]. fold (severe g) (failing g) (healthy g).
  assert (Hact : ∀ w why v l w', w = w' →
    let g' := match act g w why v l with Some a => note now (new_canary_weight a) g | None => g end in
    same_state g g' ∧ current_canary_weight g' = w' ∧ (last_adjustment g' = last_adjustment g ∨ last_adjustment g' = now)).
  { intros w why v l w' <-. unfold act. destruct (Z.eqb_spec w (current_canary_weight g)) as [->|]; cbn; [|by split_and!; [|..|right]].
    split_and!; [by destruct g|done|by left]. }
  unfold saturating_sub. destruct (severe g); [by apply Hact|]. destruct (failing g); [apply Hact; lia|]. destruct (healthy g).
  - apply Hact. unfold add_u64. rewrite Z.mod_small; lia.
  - split_and!; [by destruct g|done|by left].
Qed.

Lemma ramp_step g g' n : 0 ≤ n → in_range g → same_state g g' → current_canary_weight g' = ramp g 1 → ramp g' n = ramp g (n + 1).
Proof.
  intros Hn Hr Hg Hw. assert (Es : severe g' = severe g ∧ failing g' = failing g ∧ healthy g' = healthy g ∧ config g' = config g ∧ total_weight g' = total_weight g ∧
    starved g' = starved g).
  { rewrite Hg. done. }
  destruct Es as (E1 & E2 & E3 & E4 & E5 & E6). unfold ramp in *. rewrite Hw, E1, E2, E3, E4, E5, E6. cbn [Z.eqb orb]. destruct (starved g); [by rewrite !orb_true_r|]. rewrite !orb_false_r. unfold in_range in Hr.
  destruct (Z.eqb_spec n 0) as [->|]; [done|]. destruct (Z.eqb_spec (n + 1) 0); [lia|]. repeat case_match; lia || nia.
Qed.

(** C39: A canary ramps step by step.  While what it measures stays the same and
    the turns are a cooldown apart, [n] turns leave the weight where it is if the
    baseline and the canary together have seen fewer requests than [min_requests];
    if they have seen them, whichever did, the turns take the weight of a canary
    that fails badly to 0 at once, of one that fails down by [n] steps but not
    below 0, of a healthy one up by [n] steps but not above the total, and leave
    any other where it is. *)
Theorem canary_ramps (g : CanaryGroup) (ts : list Z) (Hr : in_range g)
    (Hw : total_weight g < 2 ^ 63 ∧ step (config g) < 2 ^ 63 ∧ 0 ≤ cooldown_seconds (config g))
    (Hts : spaced (cooldown_seconds (config g)) (last_adjustment g :: ts)) :
  let g' := foldl turn g ts in
  current_canary_weight g' = ramp g (Z.of_nat (length ts)) ∧ g' = note (last_adjustment g') (current_canary_weight g') g.
Proof.
  revert g Hr Hw Hts. induction ts as [|t ts IH]; intros g Hr Hw Hts; [cbn; split; [done|by destruct g]|].
  assert (Hready : ready t g) by (pose proof (Hts 0%nat _ _ eq_refl eq_refl); unfold ready; lia).
  destruct (turn_ramp g t) as (Hs & Ew & El); [tauto..|]. cbn [foldl]. set (g1 := turn g t) in *.
  assert (Hcfg : config g1 = config g ∧ total_weight g1 = total_weight g) by (by rewrite Hs).
  destruct Hcfg as (Ec & Et). destruct (IH g1) as [E1 E2].
  - unfold in_range in *. rewrite Et, Ec, Ew. split; [|tauto]. unfold ramp. cbn [Z.eqb orb]. repeat case_match; lia.
  - by rewrite Ec, Et.
  - rewrite Ec. intros i a b Ha Hb. destruct i as [|i]; [|by apply (Hts (S (S i)))]. simpl in Ha, Hb. injection Ha as <-. destruct ts as [|b' ts]; [done|].
    injection Hb as ->. pose proof (Hts 0%nat _ _ eq_refl eq_refl). pose proof (Hts 1%nat _ _ eq_refl eq_refl). destruct El as [->| ->]; lia.
  - split; [rewrite E1, (ramp_step g g1) by (try done; lia); f_equal; cbn [length]; lia|]. etrans; [exact E2|].
    unfold note. f_equal; by rewrite Hs.
Qed.

(** * A sample *)

Module CanarySample.

Definition percent (n : Z) : num := ndiv (num_of_Z n) (num_of_Z 100).

(** Ten units a minute: up below 1% of errors, down above 5%. *)
Definition analysis : CanaryAnalysis := MkAnalysis true 300 10 2 60 (MkRule ErrorRate (percent 1)) (MkRule ErrorRate (percent 5)).

Definition gateway (baseline canary : Z) : Gateway :=
  MkGateway ["blue"; "green"] [MkService "web" (Some [("blue", baseline); ("green", canary)]) (Some analysis)]
    [MkModel "chat" [("v1", 3); ("v2", 1)] None false].

Definition answers (is_canary : bool) (status : Z) (n : nat) : list Event := replicate n (Outcome 0 "web" is_canary status (num_of_Z 5)).

(** A healthy minute, then a failing one. *)
Definition first_minute : list Event := answers false 200 2 ++ answers true 200 2 ++ [Turn 100; Apply 100].
Definition second_minute : list Event := answers true 500 6 ++ [Turn 160; Apply 160].

Definition tracked (w : World) : option Z :=
  ctrl ← controllers w !! controller (current w); current_canary_weight <$> ctrl !! "web".

Definition served_weights (w : World) : option (list Z) := Split.weights <$> splits (current w) !! "web".

Lemma sample_valid b c : 0 ≤ b → 0 ≤ c → b + c ≤ 100000 → valid (gateway b c).
Proof.
  intros Hb Hc Hbc. split; cbn.
  - repeat constructor; set_solver.
  - repeat constructor; set_solver.
  - intros s ts ->%list_elem_of_singleton [= <-]. split; [|unfold weight_sum; simpl; lia]. repeat constructor; set_solver.
  - intros m ->%list_elem_of_singleton. split; [repeat constructor; done|done].
  - intros s a ->%list_elem_of_singleton [= <-]. done.
  - intros m ->%list_elem_of_singleton. done.
  - intros m a ->%list_elem_of_singleton. done.
Qed.

Lemma run_calm es w w' : Forall (λ e, match e with Reload _ => False | _ => True end) es → calm w → run es w = Some w' → calm w'.
Proof.
  intros He. revert w. induction He as [|e es He _ IH]; intros w Hw; [by intros [= <-]|]. simpl. destruct (fire e w) as [w1|] eqn:E; [|done].
  apply IH. eapply calm_fire; [exact Hw| |exact E]. by destruct e.
Qed.

Lemma run_reachable t t' es w w' : Forall (λ e, match e with Reload _ => False | Turn n | Apply n => n = t' | _ => True end) es →
  reachable t w → t ≤ t' → run es w = Some w' → ∃ t'', t'' ≤ t' ∧ reachable t'' w'.
Proof.
  intros He. revert t w. induction He as [|e es He _ IH]; intros t w Hw Ht; [intros [= <-]; eauto|]. simpl.
  destruct (fire e w) as [w1|] eqn:E; [|done]. apply (IH t'); [|lia]. eapply reach_fire; [exact Hw|exact Ht| |exact E]. by destruct e.
Qed.

Definition started : World := start (gateway 90 10).
Definition promoted : World := Eval vm_compute in default started (run first_minute started).
Definition demoted : World := Eval vm_compute in default started (run (first_minute ++ second_minute) started).

Lemma promoted_run : run first_minute started = Some promoted.
Proof. vm_compute. reflexivity. Qed.

Lemma demoted_run : run second_minute promoted = Some demoted.
Proof. vm_compute. reflexivity. Qed.

(** The weights go up a step, then to 0: six of eight answers of the canary failed. *)
Example sample_weights :
  (served_weights started, served_weights promoted, served_weights demoted) = (Some [90; 10], Some [80; 20], Some [100; 0]).
Proof. vm_compute. reflexivity. Qed.

(** A canary with no traffic at all is promoted on the baseline's. *)
Example promoted_untested : (run (answers false 200 2 ++ [Turn 100; Apply 100]) started ≫= served_weights) = Some [80; 20].
Proof. vm_compute. reflexivity. Qed.

(** A reload between a turn and its action: the new configuration is served with the
    weight that the old controller asked for, and the new controller does not know. *)
Example turn_overtaken :
  let w := run (answers false 200 2 ++ answers true 200 2 ++ [Turn 100; Reload (gateway 99 1); Apply 100]) started in
  (w ≫= served_weights, w ≫= tracked) = (Some [80; 20], Some 1).
Proof. vm_compute. reflexivity. Qed.

(** After a long healthy time a failing canary is still promoted: the error rate is
    that of all outcomes, not of a window. *)
Example failing_promoted :
  (run (answers true 200 500 ++ answers true 500 4 ++ [Turn 100; Apply 100]) started ≫= served_weights) = Some [80; 20].
Proof. vm_compute. reflexivity. Qed.

End CanarySample.
Import CanarySample.

Lemma canary_follows_witness :
  ∃ sp, splits (current demoted) !! "web"%string = Some sp ∧ Split.weights sp = [100; 0] ∧ Split.total sp = 100.
Proof.
  assert (Hw : calm demoted).
  { apply (run_calm second_minute promoted); [repeat constructor| |exact demoted_run].
    apply (run_calm first_minute started); [repeat constructor| |exact promoted_run]. apply calm_start, sample_valid; lia. }
  refine (proj2 (canary_follows demoted _ "web"%string _ Hw eq_refl eq_refl)).
Defined.

Lemma canary_paced_witness :
  times 0 "web" (bus demoted) = [100; 160] ∧ spaced 60 (times 0 "web" (bus demoted)).
Proof.
  assert (Hw : ∃ t, t ≤ 160 ∧ reachable t demoted).
  { destruct (run_reachable 1 100 first_minute started promoted) as (t & Ht & Hp); [repeat constructor| |lia|exact promoted_run|].
    - apply reach_start; [apply sample_valid; lia|lia].
    - eapply (run_reachable t 160 second_minute); [repeat constructor|exact Hp|lia|exact demoted_run]. }
  destruct Hw as (t & _ & Hw). split; [vm_compute; reflexivity|]. exact (canary_paced t demoted 0 _ "web" _ Hw eq_refl eq_refl).
Defined.

Lemma metrics_exact_witness :
  let os := [(200, num_of_Z 30); (500, num_of_Z 10); (200, num_of_Z 20)] in
  metric_for (observe os) ErrorRate = ndiv (num_of_Z 1) (num_of_Z 3) ∧ metric_for (observe os) LatencyP50 = num_of_Z 20.
Proof.
  intros os. destruct (metrics_exact os) as [He _]; [split; reflexivity|repeat constructor|]. split; [exact He|]. reflexivity.
Defined.

Lemma canary_ramps_witness :
  let g := MkGroup "web" OfService analysis (observe [(200, num_of_Z 5)]) (observe [(200, num_of_Z 5)]) 0 75 100 in
  current_canary_weight (foldl turn g [60; 120; 190]) = 100.
Proof.
  intros g. destruct (canary_ramps g [60; 120; 190]) as [E _].
  - unfold in_range. cbn. lia.
  - cbn. lia.
  - intros i t t' Ht Ht'. destruct i as [|[|[|i]]]; simpl in Ht, Ht'; simplify_eq; cbn; lia.
  - rewrite E. vm_compute. reflexivity.
Defined.
